(* ===== verification/_CoqProject ===== *)
-Q . S2P
Prelude.v
Bitset.v
PorcupineModel.v
Linearizability.v
LinkedEntries.v
CheckSingle.v
CheckSearch.v
CheckRefine.v
CheckerCorrect.v
OpHistory.v
PorcupineCheck.v
EventHistory.v
KvModel.v
Visualization.v
VisualizeFile.v
Page.v
PageLayout.v
PageData.v
PageCorrect.v
PageDraw.v
PagePicture.v
PageUi.v
PageUiCorrect.v
PageApp.v
PageVerdict.v
PorcupineExamples.v
PageExamples.v
Gob.v
RaftNode.v
RaftSafety.v
RaftLog.v
RaftVotes.v
RaftWf.v
RaftCluster.v
RaftMatching.v
RaftTraces.v
MapReduce.v
MapReduceCorrect.v
MapReduceApps.v
TimingApps.v
TimingCorrect.v
MRMaster.v
Programs.v
MRSystem.v
MRLiveness.v
MRProcess.v
MapReduceExamples.v
MRConcurrent.v
MRConcurrentReduce.v
MRConcurrentExamples.v
Labrpc.v
LabrpcExamples.v
Labgob.v
RaftConfig.v
RaftHarness.v
RaftConfigExamples.v
KvConfig.v
RandString.v
KvConfigExamples.v
Clerks.v
ShardmasterConfig.v
ShardkvConfig.v
ShardkvConfigExamples.v
NotesKv.v
Crawler.v
CrawlerMutex.v
CrawlerExamples.v
Threads.v
GoSamples.v
MutexSamples.v
VoteSamples.v
ChannelSamples.v
TimeSamples.v
