(* ===== verification/Prelude.v ===== *)
(** * Verification of the MIT 6.824 labs

    The repository ([src/labs/src]) holds a linearizability checker
    ([porcupine], [models]), a Raft server ([raft]), a MapReduce system ([mr],
    [mrapps], [main]), the simulated network and the encoder the labs run on
    ([labrpc], [labgob]), test harnesses ([config.go] of [raft], [kvraft],
    [shardmaster] and [shardkv]), the clerks of a sharded store ([shardmaster],
    [shardkv]), and programs from the lectures ([src/notes]).  The parts meet in
    three places: Raft servers and clerks send RPCs through [labrpc], which
    encodes them with [labgob]; the harnesses start servers on that network;
    and tests hand the history of a store to [porcupine].

    Go code is translated function by function.  A Go computation is a value
    of [go] (below): a result, a panic, or not finished.  Slices are lists
    whose indexing panics out of range, maps are [gmap]s, pointers into shared
    structures are indexes into a store, [interface{}] values are a type
    parameter.  [int] is unbounded, except where the code computes with machine
    words (bitset, [ihash], the counter of operations of [kvraft/config.go]).
    Code that is not in the repository is a parameter with its laws in a class:
    [sort.Sort] ([GoSort]), [encoding/gob] ([Gob]), [encoding/json] ([Json]),
    [fmt.Sprintf], the order in which [range] visits a map.  Random choices,
    clocks and failures of system calls are arguments.  Goroutines are steps
    that interleave: one step per critical section in Raft, MapReduce and the
    network, one step per operation in the programs from the lectures.

    ** Files

    - [Prelude]: outcomes, slices, machine words, sorting, lists, tactics.
    - [Bitset]: [porcupine/bitset.go], refined by finite sets.
    - [PorcupineModel]: [porcupine/model.go] and the conversion of histories to
      entries ([makeEntries], [renumber], [convertEntries], [fillDefault]).
    - [Linearizability]: the specification, declarative and as a search.
    - [LinkedEntries]: the doubly linked list of entries, in a store of nodes
      ([insertBefore], [lift], [unlift], [makeLinkedEntries]).
    - [CheckSingle]: [checkSingle], with its cache, call stack and longest
      partial linearizations.  [CheckSearch] is the depth-first search it
      performs, [CheckRefine] the simulation between the two,
      [CheckerCorrect] what follows for [checkSingle].
    - [OpHistory], [PorcupineCheck]: histories of operations, [checkParallel]
      and the exported functions of [porcupine.go].
    - [EventHistory]: [renumber] and [checkEvents] on recorded events.
    - [KvModel]: [models/kv.go], and what [CheckOperations] decides with it.
    - [Visualization], [VisualizeFile]: [porcupine/visualization.go],
      [computeVisualizationData], [Visualize] and [VisualizePath].
    - The script inside the page that [Visualize] writes (the constant [html]).
      [Page]: the first half of [render], which computes where timestamps and
      linearization points go; [PageLayout], [PageData], [PageCorrect]: the
      constraints it solves and that its solution is the least.  [PageDraw]:
      the elements it draws; [PagePicture]: what the picture shows.  [PageUi]:
      the handlers of mouse events on the state of the page; [PageUiCorrect],
      [PageApp]: the machine they implement.  [PageVerdict]: from a verbose
      check to the page.
    - [PorcupineExamples], [PageExamples]: evaluated histories and pages.
    - [Gob]: the interface to the encoder, with an implementation.
    - [RaftNode]: [raft/raft.go] and [raft/persister.go], one function per
      handler or critical section.  [RaftSafety], [RaftLog], [RaftVotes],
      [RaftWf]: a server under arbitrary requests, replies, timers and
      crashes.  [RaftCluster]: servers with their threads and the messages
      between them.  [RaftMatching]: log matching across a cluster.
      [RaftTraces]: evaluated runs.
    - [MapReduce], [MapReduceCorrect], [MapReduceApps]: tasks, the sequential
      program, the applications.  [TimingApps], [TimingCorrect]: [maybeCrash]
      of [crash.go] and [nocrash.go], and [nparallel], by which [mtiming.go] and
      [rtiming.go] count workers.  [MRMaster]: [mr/master.go].  [MRSystem]: the
      loop of [Worker] against the master; [MRLiveness]: when a job can finish.
      [MRProcess]: a worker with its connection and exit status.  [MRConcurrent],
      [MRConcurrentReduce]: workers inside the same map or reduce task.
      [MapReduceExamples], [MRConcurrentExamples]: evaluated jobs.
    - [Programs]: the command lines of the programs of [main], and [loadPlugin].
    - [Labrpc], [LabrpcExamples]: [labrpc/labrpc.go].  [Labgob]: the checks of
      [labgob/labgob.go].
    - [RaftConfig], [RaftHarness], [RaftConfigExamples]: [raft/config.go]; the
      second has [one], [wait] and the statistics.
    - [KvConfig], [KvConfigExamples]: [kvraft/config.go] and the skeletons of
      [kvraft/server.go] and [kvraft/client.go].  The harness is written against
      a class [Replica], a service around a Raft server, of which the key/value
      server and the shardmaster are instances.  [RandString]: [randstring] and
      [makeSeed] on the bytes that are drawn, and what [random_handles] can
      draw.
    - [Clerks]: [shardmaster/client.go] and [shardkv/client.go].
    - [ShardmasterConfig]: [server.go] and [config.go] of [shardmaster].
      [ShardkvConfig], [ShardkvConfigExamples]: those of [shardkv].
    - [NotesKv]: [notes/02_kv.go], and the checker applied to it.  [Crawler],
      [CrawlerMutex], [CrawlerExamples]: [notes/02_crawler.go].
    - [Threads]: a language of goroutines with its semantics and a proof rule
      for mutexes.  [GoSamples]: the programs of
      [notes/05_go_concurrency_samples] in that language; [MutexSamples],
      [VoteSamples], [ChannelSamples], [TimeSamples]: what they do.

    ** Theorems

    - Checker: [checkSingle] terminates and decides linearizability (C1), also
      answers soundly when killed (C2) and reports genuine partial
      linearizations; [checkParallel] is sound for every schedule (C4) and
      blocks on a history without partitions; with the key/value model the
      checker decides linearizability of a store of many keys (C6); recorded events
      are decided like operations, whatever their ids (C25); the bitset is a
      set (C7).  The
      key/value server of the lectures is linearizable (C11), and the checker
      says so (C5).
    - Visualization: verbose results can be displayed (C31, and
      [visualization_faithful]); the layout is
      the least that meets the criteria stated in [render] (C13), the picture
      shows the history and the linearizations (C16), the handlers keep the
      selection and what is in view together (C26), and the link leads to the
      first error (C30).
    - Raft: terms never decrease (C19), a crash loses neither term nor log
      (C19, and [crash_recovers]), replication (C10, and [leader_round_spec]), a server votes once
      per term while it neither leads nor restarts ([one_vote_per_term]),
      delivery in order (C17), logs stay
      well formed (C18), and match across a cluster as long as [Start] does not
      promise the same place in the same term twice (C3).  The code does not
      keep election safety (C20), and not the log of a leader either (C21).
    - MapReduce: a job computes what the sequential program computes, task by
      task (C22) and with the master and its workers (C37); it can always finish
      as long as no task is counted twice (C36), and may hang otherwise (C9);
      a worker process makes steps of that system ([Worker_refines]); map output is
      atomic (C23), and with several workers inside one map task the pairs that
      are read are still those of the bucket, up to some pair (C39); inside one
      reduce task they publish what one of them alone would (C8); the
      applications, among them the count of parallel workers (C35); the master
      ([master_phases]).
    - Network and encoder: at most once (C29), unreachable and reliable calls,
      [checkType] (C32).
    - Harnesses and clerks: connectivity (C34, C40), agreement (C12), restarts
      (C28), sizes ([shardkv_harness_size]), clerks (C38).
    - Lectures: the three crawlers visit every page (C15, C24, C27), counting
      votes (C14), the bank (C33).

    ** Fuel

    [checkSingle], the reader of JSON files, the loop over runs of equal keys,
    [checkType] and the serial crawler recurse on fuel.  C1 and C6 prove that
    some fuel suffices and that more changes nothing; [decode_all] and
    [reduce_all] fix fuel by the length of their input, which [decode_all_spec]
    and [reduce_sorted] show to be enough; C32 bounds the fuel by the number of
    types, C15 by the number of pages.  Schedules, outcomes of calls and rounds
    are lists: one that runs out is a program that is still waiting ([Stuck]).

    ** Left out

    The entries of a Raft message are copied when the message is made, while
    the Go slice shares the leader's array until [labrpc] encodes it.  In
    [MRSystem] a MapReduce task runs in one step; [MRConcurrent] and
    [MRConcurrentReduce] split one task into its system calls.
    In the lecture programs, reads and writes of shared variables interleave but
    are not reordered.  The numbers of the page are rationals, or NaN where the
    script reads a position that is not there; timestamps are doubled, so that
    the average of two of them is an integer.  Elements of the document are
    records of their attributes; the style sheet, the width of a text and
    scrolling are left to the browser.  Names of files are ASCII where
    [Sscanf] reads them, and process ids are not reused.  Printing and real
    time are not modelled, nor the services that programs of [main] start but
    that are not in the repository ([lockservice], [pbservice], [viewservice],
    [diskv]), the debug output of [raft/util.go], and the two scratch files
    [draft.go].  In the harnesses the names of ends are arguments; [RandString]
    has the function that draws them.

    ** This file

    Outcomes of Go code, slices, machine integers, sorting, and the lemmas and
    tactics the other files share. *)

From stdpp Require Export base list gmap numbers strings option sorting.
From Stdlib Require Export ZArith Lia.

(** ** Outcomes of Go code

    A Go computation either delivers a value, panics (nil dereference, index
    out of range, failed type assertion), or has not delivered a value yet
    (a loop whose fuel ran out, a blocked channel operation, an action that
    is not enabled). *)

Inductive go (A : Type) : Type :=
| Done (a : A)
| Panic
| Stuck.
Arguments Done {A} _.
Arguments Panic {A}.
Arguments Stuck {A}.

#[export] Instance go_ret : MRet go := fun A a => Done a.
#[export] Instance go_bind : MBind go := fun A B f m =>
  match m with
  | Done a => f a
  | Panic => Panic
  | Stuck => Stuck
  end.
#[export] Instance go_fmap : FMap go := fun A B f m =>
  match m with
  | Done a => Done (f a)
  | Panic => Panic
  | Stuck => Stuck
  end.

Section go_facts.
Context {A B : Type}.
Implicit Types (m : go A) (f : A → go B).

Lemma go_bind_done m f b :
  (m ≫= f) = Done b ↔ ∃ a, m = Done a ∧ f a = Done b.
Proof. destruct m; cbn; naive_solver. Qed.

Lemma Done_inj (a a' : A) : Done a = Done a' → a = a'.
Proof. by intros [=]. Qed.

End go_facts.

(** [go_simpl] runs the monadic glue, and nothing else. *)
Ltac go_simpl := cbn [mbind go_bind mret go_ret fmap go_fmap].
Tactic Notation "go_simpl" "in" hyp(H) :=
  cbn [mbind go_bind mret go_ret fmap go_fmap] in H.

(** [go_inv H] turns a hypothesis [x ← m; k x = Done b] into its parts. *)
Ltac go_inv H :=
  let a := fresh "a" in let E := fresh "E" in
  apply go_bind_done in H; destruct H as (a & E & H).

(** [go_cases H] follows every path of the computation in [H : m = Done x],
    splitting its binds, tests and matches. *)
Ltac go_cases H :=
  repeat match type of H with
  | Done _ = Done _ => apply Done_inj in H
  | Panic = Done _ => discriminate H
  | Stuck = Done _ => discriminate H
  | mbind _ _ = Done _ =>
      let a := fresh "a" in let E := fresh "E" in
      apply go_bind_done in H; destruct H as (a & E & H); cbn beta in H
  | (let '(_, _) := ?p in _) = Done _ => destruct p
  | (if bool_decide ?P then _ else _) = Done _ =>
      let E := fresh "T" in
      destruct (bool_decide P) eqn:E;
      [apply bool_decide_eq_true in E|apply bool_decide_eq_false in E]
  | (if ?b then _ else _) = Done _ => destruct b eqn:?
  | match ?o with Some _ => _ | None => _ end = Done _ => destruct o eqn:?
  end.

(** [case_on P as H] splits on the boolean test of [P]. *)
Tactic Notation "case_on" open_constr(P) "as" ident(H) :=
  match goal with
  | |- context [@bool_decide ?Q ?d] =>
      unify Q P; destruct (@bool_decide Q d) eqn:H;
      [apply bool_decide_eq_true in H|apply bool_decide_eq_false in H]
  end.

(** Running [f] on every element, in order. *)
Fixpoint go_map {A B} (f : A → go B) (l : list A) : go (list B) :=
  match l with
  | [] => Done []
  | x :: l => y ← f x; k ← go_map f l; Done (y :: k)
  end.

Lemma go_map_total {A B} (f : A → go B) (l : list A) :
  (∀ x, x ∈ l → ∃ y, f x = Done y) → ∃ k, go_map f l = Done k.
Proof.
  induction l as [|x l IH]; intros Hf; [by exists []|]. cbn [go_map].
  destruct (Hf x ltac:(set_solver)) as [y Hy]. destruct IH as [k Hk]; [set_solver|].
  exists (y :: k). rewrite Hy. go_simpl. by rewrite Hk.
Qed.

Lemma go_map_lookup {A B} (f : A → go B) l k (i : nat) y :
  go_map f l = Done k → k !! i = Some y → ∃ x, l !! i = Some x ∧ f x = Done y.
Proof.
  revert k i. induction l as [|x l IH]; intros k i H Hi; cbn [go_map] in H.
  { injection H as <-. done. }
  go_cases H. subst k. destruct i as [|i]; cbn in Hi; [injection Hi as <-; eauto|]. by eapply IH.
Qed.

Lemma go_map_length {A B} (f : A → go B) l k : go_map f l = Done k → length k = length l.
Proof.
  revert k. induction l as [|x l IH]; intros k H; cbn [go_map] in H; [by injection H as <-|].
  go_cases H. subst k. cbn. by rewrite (IH _ E0).
Qed.

Lemma go_map_elem {A B} (f : A → go B) l k y :
  go_map f l = Done k → y ∈ k ↔ ∃ x, x ∈ l ∧ f x = Done y.
Proof.
  revert k. induction l as [|x l IH]; intros k H; cbn [go_map] in H.
  { injection H as <-. set_solver. }
  go_cases H. subst k. rewrite elem_of_cons, (IH _ E0). split.
  - intros [->|(x' & ? & ?)]; [exists x; split; [left|done]|exists x'; split; [by right|done]].
  - intros (x' & [->|Hx]%elem_of_cons & Hf); [left; congruence|right; eauto].
Qed.

(** ** Go slices

    [l[i]] and [l[i] = x] panic when [i] is out of range. *)

Section slices.
Context {A : Type}.

Definition idx (l : list A) (i : Z) : go A :=
  if bool_decide (i < 0)%Z then Panic
  else match l !! Z.to_nat i with Some x => Done x | None => Panic end.

Definition upd (l : list A) (i : Z) (x : A) : go (list A) :=
  if bool_decide (0 ≤ i < Z.of_nat (length l))%Z
  then Done (<[Z.to_nat i := x]> l) else Panic.

Definition zlen (l : list A) : Z := Z.of_nat (length l).

#[export] Instance zlen_perm : Proper ((≡ₚ) ==> (=)) zlen.
Proof. intros l l' Hl. unfold zlen. by rewrite Hl. Qed.

Lemma idx_Done l i x :
  idx l i = Done x ↔ (0 ≤ i)%Z ∧ l !! Z.to_nat i = Some x.
Proof.
  unfold idx. case_bool_decide; [naive_solver lia|].
  destruct (l !! Z.to_nat i); naive_solver lia.
Qed.

Lemma idx_nat l (i : nat) x : l !! i = Some x → idx l (Z.of_nat i) = Done x.
Proof. intros. apply idx_Done. split; [lia|]. by rewrite Nat2Z.id. Qed.

Lemma idx_in_range l i :
  (0 ≤ i < zlen l)%Z → ∃ x, idx l i = Done x ∧ l !! Z.to_nat i = Some x.
Proof.
  unfold zlen. intros Hi.
  destruct (lookup_lt_is_Some_2 l (Z.to_nat i)) as [x Hx]; [lia|].
  exists x. split; [|done]. apply idx_Done. split; [lia|done].
Qed.

Lemma upd_Done l i x l' :
  upd l i x = Done l' ↔
  (0 ≤ i < zlen l)%Z ∧ l' = <[Z.to_nat i := x]> l.
Proof. unfold upd, zlen. case_bool_decide; naive_solver. Qed.

Lemma upd_in_range l i x :
  (0 ≤ i < zlen l)%Z → upd l i x = Done (<[Z.to_nat i := x]> l).
Proof. intros. by apply upd_Done. Qed.

Lemma upd_out_of_range l i x :
  (Z.of_nat (length l) ≤ i)%Z → upd l i x = Panic.
Proof. intros. unfold upd. case_bool_decide; [lia|done]. Qed.

End slices.

(** ** Automation

    [go_lists] knows what a successful lookup says; [len] proves facts about
    the lengths of slices. *)

Create HintDb go_lists.
#[export] Hint Resolve list_elem_of_lookup_2 lookup_lt_Some : go_lists.
#[export] Hint Extern 1 (_ < length _)%nat => eapply lookup_lt_Some; eassumption : go_lists.
#[export] Hint Rewrite @length_app @length_insert @length_replicate @length_seq @length_fmap @length_take
  @length_drop : go_len.

Ltac len := unfold zlen in *; autorewrite with go_len in *; cbn [length] in *; lia.

(** ** Machine integers *)

Definition two64 : Z := 2 ^ 64.
Definition wrap64 (z : Z) : Z := z `mod` two64.
Definition two32 : Z := 2 ^ 32.
Definition wrap32 (z : Z) : Z := z `mod` two32.

Lemma wrap64_range z : (0 ≤ wrap64 z < two64)%Z.
Proof. unfold wrap64, two64. apply Z.mod_pos_bound. lia. Qed.

Lemma wrap64_id z : (0 ≤ z < two64)%Z → wrap64 z = z.
Proof. apply Z.mod_small. Qed.

Lemma wrap32_range z : (0 ≤ wrap32 z < two32)%Z.
Proof. unfold wrap32, two32. apply Z.mod_pos_bound. lia. Qed.

(** ** Go's [sort.Sort]

    [sort.Sort] reorders its argument so that no later element is [Less]
    than an earlier one; it is not stable, so nothing more is promised.  A
    development that sorts is proved against this interface; [merge_sort] of
    a total preorder is an implementation. *)

Class GoSort {A} (less : A → A → bool) (sort : list A → list A) : Prop := {
  sort_perm : ∀ l, sort l ≡ₚ l;
  sort_sorted : ∀ l, StronglySorted (fun x y => less y x = false) (sort l);
}.

(** A [Less] that orders its arguments, up to ties. *)
Class LessOrder {A} (less : A → A → bool) : Prop := {
  less_trans : ∀ x y z, less y x = false → less z y = false → less z x = false;
  less_total : ∀ x y, less y x = false ∨ less x y = false;
}.

Definition not_less {A} (less : A → A → bool) (x y : A) : Prop := less y x = false.

#[export] Instance not_less_dec {A} (less : A → A → bool) x y : Decision (not_less less x y) :=
  decide (less y x = false).

Definition go_sort {A} (less : A → A → bool) : list A → list A := merge_sort (not_less less).

#[export] Instance go_sort_GoSort {A} (less : A → A → bool) `{!LessOrder less} :
  GoSort less (go_sort less).
Proof.
  split; intros l; unfold go_sort; [apply merge_sort_Permutation|].
  assert (Transitive (not_less less)) by (intros x y z; apply less_trans).
  assert (Total (not_less less)) by (intros x y; apply less_total).
  apply (StronglySorted_merge_sort (not_less less)).
Qed.

(** Go compares strings byte by byte. *)
Definition string_less (a b : string) : bool := negb (String.leb b a).

#[export] Instance string_less_order : LessOrder string_less.
Proof.
  assert (∀ a b, string_less a b = false ↔ String.le b a) as Hle.
  { intros a b. unfold string_less, String.le. rewrite negb_false_iff. by destruct (String.leb b a). }
  split; intros *; rewrite !Hle; [apply String.le_po|apply String.le_total].
Qed.

(** ** Lists *)

Section lists.
Context {A : Type}.
Implicit Types (l : list A).

Lemma hd_error_app_cons l x l' : hd_error (l ++ x :: l') = hd_error (l ++ [x]).
Proof. by destruct l. Qed.

Lemma StronglySorted_pair (R : relation A) l1 x l2 y :
  StronglySorted R (l1 ++ x :: l2) → y ∈ l2 → R x y.
Proof.
  induction l1 as [|z l1 IH]; cbn; intros [Hs Hf]%StronglySorted_inv Hy; [|by apply IH].
  rewrite Forall_forall in Hf. by apply Hf.
Qed.

Lemma StronglySorted_weaken (R R' : relation A) l :
  (∀ x y, R x y → R' x y) → StronglySorted R l → StronglySorted R' l.
Proof.
  intros HR. induction 1 as [|x l _ IH Hf]; constructor; [done|].
  eapply Forall_impl; [exact Hf|]. auto.
Qed.

Lemma NoDup_fmap_lookup {B} (f : A → B) l i j x y :
  NoDup (f <$> l) → l !! i = Some x → l !! j = Some y → f x = f y → i = j.
Proof.
  intros Hnd Hi Hj Hf. eapply NoDup_lookup; [done|..].
  - by rewrite list_lookup_fmap, Hi.
  - by rewrite list_lookup_fmap, Hj; cbn; rewrite Hf.
Qed.

(** Two lists related element by element stay related when one is permuted. *)
Lemma Forall2_permute {B} (R : A → B → Prop) l l' (k : list B) :
  l ≡ₚ l' → Forall2 R l k → ∃ k', k ≡ₚ k' ∧ Forall2 R l' k'.
Proof.
  intros Hp. revert k. induction Hp as [|x l l' _ IH|x y l|l l2 l3 _ IH1 _ IH2]; intros k Hf.
  - exists k. done.
  - apply Forall2_cons_inv_l in Hf as (z & k1 & Hz & Hf & ->).
    destruct (IH _ Hf) as (k' & ? & ?). exists (z :: k'). split; [by constructor|by constructor].
  - apply Forall2_cons_inv_l in Hf as (z & k1 & Hz & Hf & ->).
    apply Forall2_cons_inv_l in Hf as (z2 & k2 & Hz2 & Hf & ->).
    exists (z2 :: z :: k2). split; [by constructor|by repeat constructor].
  - destruct (IH1 _ Hf) as (k1 & ? & Hf1). destruct (IH2 _ Hf1) as (k2 & ? & ?).
    exists k2. split; [by etrans|done].
Qed.

Lemma Forall2_elem_r {B} (R : A → B → Prop) l (k : list B) y :
  Forall2 R l k → y ∈ k → ∃ x, x ∈ l ∧ R x y.
Proof. induction 1; set_solver. Qed.

Lemma Forall2_elem_l {B} (R : A → B → Prop) l (k : list B) x :
  Forall2 R l k → x ∈ l → ∃ y, y ∈ k ∧ R x y.
Proof. induction 1; set_solver. Qed.

(** A decomposition of a filtered list comes from one of the list. *)
Lemma filter_app_cons_inv (P : A → Prop) `{!∀ x, Decision (P x)} l A' x B' :
  filter P l = A' ++ x :: B' →
  ∃ A B, l = A ++ x :: B ∧ filter P A = A' ∧ filter P B = B' ∧ P x.
Proof.
  revert A'. induction l as [|y l IH]; intros A' E; [by destruct A'|].
  rewrite filter_cons in E. case_decide as Hy.
  - destruct A' as [|z A']; cbn in E; injection E as -> E.
    + exists [], l. done.
    + destruct (IH A' E) as (A1 & B & -> & <- & <- & Hx).
      exists (z :: A1), B. by rewrite filter_cons_True.
  - destruct (IH A' E) as (A1 & B & -> & <- & <- & Hx).
    exists (y :: A1), B. by rewrite filter_cons_False.
Qed.

Lemma filter_ext_elem (P Q : A → Prop) `{!∀ x, Decision (P x), !∀ x, Decision (Q x)} l :
  (∀ x, x ∈ l → P x ↔ Q x) → filter P l = filter Q l.
Proof.
  induction l as [|y l IH]; intros HPQ; [done|]. rewrite !filter_cons, IH by set_solver.
  assert (P y ↔ Q y) by set_solver. repeat case_decide; tauto.
Qed.

Lemma filter_none (P : A → Prop) `{!∀ x, Decision (P x)} l :
  Forall (fun x => ¬ P x) l → filter P l = [].
Proof. induction 1; [done|]. by rewrite filter_cons_False. Qed.

Lemma filter_all (P : A → Prop) `{!∀ x, Decision (P x)} l :
  Forall P l → filter P l = l.
Proof. induction 1; [done|]. rewrite filter_cons_True by done. by f_equal. Qed.

Lemma filter_fmap {B} (f : A → B) (P : B → Prop) `{!∀ x, Decision (P x)} l :
  filter P (f <$> l) = f <$> filter (fun x => P (f x)) l.
Proof.
  induction l as [|x l IH]; [done|]. cbn [fmap list_fmap]. rewrite !filter_cons, IH.
  by case_decide.
Qed.

(** A list is determined, up to order, by its parts. *)
Lemma Permutation_parts {K} `{!EqDecision K} (f : A → K) l l' :
  (∀ k, filter (fun x => f x = k) l ≡ₚ filter (fun x => f x = k) l') → l ≡ₚ l'.
Proof.
  revert l'. induction l as [|x l IH]; intros l' Hp.
  - destruct l' as [|y l']; [done|]. specialize (Hp (f y)).
    rewrite filter_cons_True in Hp by done. by apply Permutation_nil_cons in Hp.
  - pose proof (Hp (f x)) as Hx. rewrite filter_cons_True in Hx by done.
    assert (x ∈ l') as Hin.
    { assert (x ∈ filter (fun y => f y = f x) l') as Hin; [rewrite <- Hx; left|].
      by apply list_elem_of_filter in Hin as [_ ?]. }
    apply elem_of_Permutation in Hin as [l2 Hl2]. rewrite Hl2. f_equiv. apply IH. intros k.
    specialize (Hp k). rewrite Hl2, !filter_cons in Hp. case_decide; [|done].
    by apply Permutation_cons_inv in Hp.
Qed.

Lemma NoDup_mid l1 x l2 : NoDup (l1 ++ x :: l2) → x ∉ l1 ∧ x ∉ l2.
Proof. intros (_ & Hd & [Hx _]%NoDup_cons)%NoDup_app. set_solver. Qed.

(** In a list without duplicates, [d] is before [e] in one decomposition as
    soon as [e] is after [d] in another. *)
Lemma NoDup_decomp_before l1 l2 k1 k2 e d :
  NoDup (l1 ++ e :: l2) → l1 ++ e :: l2 = k1 ++ d :: k2 → e ∈ k2 → d ∈ l1.
Proof.
  revert k1. induction l1 as [|x l1 IH]; intros [|y k1] Hnd E He; cbn in *;
    injection E as -> E; apply NoDup_cons in Hnd as [Hni Hnd]; [set_solver..|].
  right. by eapply IH.
Qed.

Lemma list_alter_lookup (f : A → A) l i x : l !! i = Some x → alter f i l = <[i := f x]> l.
Proof.
  revert i. induction l as [|y l IH]; intros [|i] Hi; cbn in *; [done|done|by injection Hi as ->|].
  f_equal. by apply IH.
Qed.

Lemma list_delete_insert l i x : delete i (<[i := x]> l) = delete i l.
Proof. revert i. induction l as [|y l IH]; intros [|i]; cbn; [done..|]. by rewrite IH. Qed.

(** Sums over a slice one of whose elements is removed or changed. *)
Lemma sum_list_with_delete (f : A → nat) l i x :
  l !! i = Some x → sum_list_with f l = f x + sum_list_with f (delete i l).
Proof.
  revert i. induction l as [|y l IH]; intros [|i] Hi; cbn in *; [done..|by injection Hi as ->|].
  rewrite (IH i Hi). unfold delete. lia.
Qed.

Lemma sum_list_with_insert (f : A → nat) l i x y :
  l !! i = Some x → sum_list_with f (<[i := y]> l) + f x = sum_list_with f l + f y.
Proof.
  intros Hi. rewrite (sum_list_with_delete f l i x Hi).
  rewrite (sum_list_with_delete f (<[i := y]> l) i y)
    by (apply list_lookup_insert_eq; eauto with go_lists).
  rewrite list_delete_insert. lia.
Qed.

Lemma sum_list_with_zero (f : A → nat) l :
  (∀ i x, l !! i = Some x → f x = 0) → sum_list_with f l = 0.
Proof.
  induction l as [|x l IH]; intros Hf; [done|]. cbn. rewrite (Hf 0 x eq_refl).
  apply IH. intros i. apply (Hf (S i)).
Qed.

Lemma sum_list_with_perm (f : A → nat) l l' : l ≡ₚ l' → sum_list_with f l = sum_list_with f l'.
Proof. induction 1; cbn; lia. Qed.

Lemma omap_lookup_seq {B} (f : A → option B) l :
  omap (fun i => l !! i ≫= f) (seq 0 (length l)) = omap f l.
Proof.
  enough (∀ l1, omap (fun i => (l1 ++ l) !! i ≫= f) (seq (length l1) (length l)) = omap f l) as H
    by apply (H []).
  induction l as [|x l IH]; intros l1; [done|]. cbn [length seq].
  cbn [omap list_omap]. rewrite list_lookup_middle by done. cbn [mbind option_bind].
  specialize (IH (l1 ++ [x])). rewrite length_app, Nat.add_1_r, <- app_assoc in IH. cbn in IH.
  destruct (f x); cbn; by rewrite IH.
Qed.

(** Concatenating what the elements of a slice contribute. *)
Lemma bind_delete {B} (f : A → list B) l i x :
  l !! i = Some x → (l ≫= f) ≡ₚ f x ++ (delete i l ≫= f).
Proof. intros Hi. by rewrite <- bind_cons, <- delete_Permutation by done. Qed.

Lemma bind_insert {B} (f : A → list B) l i x y :
  l !! i = Some x → (<[i := y]> l ≫= f) ≡ₚ f y ++ (delete i l ≫= f).
Proof.
  intros Hi. rewrite (bind_delete f (<[i := y]> l) i y); [by rewrite list_delete_insert|].
  apply list_lookup_insert_eq. eauto with go_lists.
Qed.

End lists.
