(* ===== verification/Bitset.v ===== *)
(** * Porcupine's bitset ([labs/src/porcupine/bitset.go])

    A [bitset] is a slice of 64-bit words; bit [pos] of the set is bit
    [pos % 64] of word [pos / 64].  The operations below follow the Go
    methods one by one; [repr] relates a bitset to the finite set of
    positions it stands for, and the lemmas show that every operation
    implements the corresponding operation on finite sets. *)

From S2P Require Import Prelude.
Local Open Scope Z_scope.

(** ** Operations *)

Notation bitset := (list Z) (only parsing).

Definition newBitset (bits : Z) : bitset :=
  let extra := if bool_decide (bits `mod` 64 ≠ 0) then 1 else 0 in
  let chunks := bits `div` 64 + extra in
  replicate (Z.to_nat chunks) 0.

Definition clone (b : bitset) : bitset := b.

Definition bitsetIndex (pos : Z) : Z * Z := (pos `div` 64, pos `mod` 64).

Definition set (b : bitset) (pos : Z) : go bitset :=
  let '(major, minor) := bitsetIndex pos in
  w ← idx b major;
  upd b major (Z.lor w (wrap64 (Z.shiftl 1 minor))).

Definition clear (b : bitset) (pos : Z) : go bitset :=
  let '(major, minor) := bitsetIndex pos in
  w ← idx b major;
  upd b major (Z.ldiff w (wrap64 (Z.shiftl 1 minor))).

Definition get (b : bitset) (pos : Z) : go bool :=
  let '(major, minor) := bitsetIndex pos in
  w ← idx b major;
  Done (bool_decide (Z.land w (wrap64 (Z.shiftl 1 minor)) ≠ 0)).

(** [bits.OnesCount64]: the number of one bits among the 64 bits of [v]. *)
Definition OnesCount64 (v : Z) : Z :=
  zlen (filter (fun i => Z.testbit v i = true) (seqZ 0 64)).

Definition popcnt (b : bitset) : Z :=
  foldl (fun total v => total + OnesCount64 v) 0 b.

Definition hash (b : bitset) : Z :=
  foldl Z.lxor (wrap64 (popcnt b)) b.

Fixpoint equals_loop (b b2 : bitset) : bool :=
  match b, b2 with
  | w :: b, w2 :: b2 => if bool_decide (w ≠ w2) then false else equals_loop b b2
  | _, _ => true
  end.

Definition equals (b b2 : bitset) : bool :=
  if bool_decide (length b ≠ length b2) then false else equals_loop b b2.

(** ** Abstraction: the set of positions

    [repr n b X]: [b] was made for [n] positions, all its words fit in 64
    bits, and its one bits are exactly the members of [X]. *)

Definition chunks (n : nat) : nat := length (newBitset (Z.of_nat n)).

Definition bit (b : bitset) (i : nat) : bool :=
  match b !! (i `div` 64)%nat with
  | Some w => Z.testbit w (Z.of_nat (i `mod` 64)%nat)
  | None => false
  end.

Record repr (n : nat) (b : bitset) (X : gset nat) : Prop := {
  repr_len : length b = chunks n;
  repr_word : Forall (fun w => 0 ≤ w < two64) b;
  repr_bound : ∀ i, i ∈ X → (i < n)%nat;
  repr_bit : ∀ i, bit b i = bool_decide (i ∈ X);
}.

(** ** Word-level lemmas *)

Lemma shiftl_one_wrap k :
  0 ≤ k < 64 → wrap64 (Z.shiftl 1 k) = 2 ^ k.
Proof.
  intros. rewrite Z.shiftl_1_l. apply wrap64_id. unfold two64. split; [lia|].
  apply Z.pow_lt_mono_r; lia.
Qed.

Lemma testbit_pow2 k i : 0 ≤ k → Z.testbit (2 ^ k) i = bool_decide (i = k).
Proof. intros. rewrite Z.pow2_bits_eqb by done. by case_bool_decide; lia. Qed.

Lemma word_bits w i : 0 ≤ w < two64 → 64 ≤ i → Z.testbit w i = false.
Proof.
  intros Hw Hi. destruct (decide (w = 0)) as [->|]; [apply Z.testbit_0_l|].
  apply Z.bits_above_log2; [lia|].
  assert (Z.log2 w < 64); [|lia]. apply Z.log2_lt_pow2; [lia|]. apply Hw.
Qed.

Lemma word_intro w :
  0 ≤ w → (∀ i, 64 ≤ i → Z.testbit w i = false) → 0 ≤ w < two64.
Proof.
  intros Hw Hb. split; [done|].
  destruct (decide (w = 0)) as [->|]; [done|].
  apply Z.log2_lt_pow2; [lia|].
  destruct (decide (64 ≤ Z.log2 w)) as [Hl|]; [|lia].
  specialize (Hb _ Hl). rewrite Z.bit_log2 in Hb by lia. done.
Qed.

Lemma lor_pow2_word w k :
  0 ≤ w < two64 → 0 ≤ k < 64 → 0 ≤ Z.lor w (2 ^ k) < two64.
Proof.
  intros Hw Hk. apply word_intro.
  - apply Z.lor_nonneg. split; lia.
  - intros i Hi. rewrite Z.lor_spec, word_bits, testbit_pow2 by lia.
    cbn. apply bool_decide_eq_false. lia.
Qed.

Lemma ldiff_pow2_word w k :
  0 ≤ w < two64 → 0 ≤ k < 64 → 0 ≤ Z.ldiff w (2 ^ k) < two64.
Proof.
  intros Hw Hk. apply word_intro.
  - apply Z.ldiff_nonneg. lia.
  - intros i Hi. rewrite Z.ldiff_spec, word_bits by lia. done.
Qed.

Lemma land_pow2_nonzero w k :
  0 ≤ k → bool_decide (Z.land w (2 ^ k) ≠ 0) = Z.testbit w k.
Proof.
  intros Hk. destruct (Z.testbit w k) eqn:E.
  - apply bool_decide_eq_true. intros H0.
    assert (Z.testbit (Z.land w (2 ^ k)) k = false) as H
      by (rewrite H0; apply Z.testbit_0_l).
    rewrite Z.land_spec, testbit_pow2, E in H by done.
    by rewrite bool_decide_eq_true_2 in H.
  - apply bool_decide_eq_false. intros H. apply H. apply Z.bits_inj'. intros i Hi.
    rewrite Z.land_spec, testbit_pow2, Z.testbit_0_l by done.
    case_bool_decide; [subst; by rewrite E|apply andb_false_r].
Qed.

(** ** Positions and words *)

Lemma chunks_spec n : (n ≤ 64 * chunks n)%nat.
Proof.
  unfold chunks, newBitset. rewrite length_replicate.
  pose proof (Z.div_mod (Z.of_nat n) 64 ltac:(lia)).
  pose proof (Z.mod_pos_bound (Z.of_nat n) 64 ltac:(lia)).
  case_bool_decide; lia.
Qed.

Lemma index_split (i : nat) :
  bitsetIndex (Z.of_nat i) = (Z.of_nat (i `div` 64), Z.of_nat (i `mod` 64)).
Proof. unfold bitsetIndex. by rewrite Nat2Z.inj_div, Nat2Z.inj_mod. Qed.

Lemma index_inj (i j : nat) :
  (i `div` 64 = j `div` 64)%nat → (i `mod` 64 = j `mod` 64)%nat → i = j.
Proof. intros. rewrite (Nat.div_mod_eq i 64), (Nat.div_mod_eq j 64). lia. Qed.

Section ops.
Context (n : nat) (b : bitset) (X : gset nat).
Hypothesis Hr : repr n b X.

Lemma repr_lookup (i : nat) :
  (i < n)%nat → ∃ w, b !! (i `div` 64)%nat = Some w ∧ 0 ≤ w < two64.
Proof.
  intros Hi. destruct (lookup_lt_is_Some_2 b (i `div` 64)%nat) as [w Hw].
  { rewrite (repr_len _ _ _ Hr). pose proof (chunks_spec n).
    apply Nat.Div0.div_lt_upper_bound. lia. }
  exists w. split; [done|].
  pose proof (repr_word _ _ _ Hr) as Hf. rewrite Forall_lookup in Hf. eauto.
Qed.

(** The word update shared by [set] and [clear]. *)
Lemma repr_update (i : nat) (w w' : Z) (Y : gset nat) :
  b !! (i `div` 64)%nat = Some w → 0 ≤ w' < two64 →
  (∀ j, j ∈ Y → (j < n)%nat) →
  (∀ j, j ≠ i → j ∈ X ↔ j ∈ Y) →
  (∀ k, Z.testbit w' (Z.of_nat k) =
        if bool_decide (k = i `mod` 64)%nat then bool_decide (i ∈ Y)
        else Z.testbit w (Z.of_nat k)) →
  repr n (<[(i `div` 64)%nat := w']> b) Y.
Proof.
  intros Hw Hw' HY Hne Hbit. destruct Hr as [Hl Hword Hb Hbits]. split.
  - by rewrite length_insert.
  - by apply Forall_insert.
  - done.
  - intros j. unfold bit.
    destruct (decide (j `div` 64 = i `div` 64)%nat) as [Hd|Hd].
    + rewrite Hd, list_lookup_insert_eq by eauto with go_lists.
      rewrite Hbit. destruct (decide (j `mod` 64 = i `mod` 64)%nat) as [Hm|Hm].
      * rewrite (bool_decide_eq_true_2 _ Hm). by rewrite (index_inj j i Hd Hm).
      * rewrite (bool_decide_eq_false_2 _ Hm).
        assert (j ≠ i) by (intros ->; done).
        specialize (Hbits j). unfold bit in Hbits. rewrite Hd, Hw in Hbits.
        rewrite Hbits. apply bool_decide_ext. by apply Hne.
    + rewrite list_lookup_insert_ne by done.
      specialize (Hbits j). unfold bit in Hbits. rewrite Hbits.
      apply bool_decide_ext. apply Hne. by intros ->.
Qed.

Lemma repr_set (i : nat) :
  (i < n)%nat → ∃ b', set b (Z.of_nat i) = Done b' ∧ repr n b' ({[i]} ∪ X).
Proof.
  intros Hi. destruct (repr_lookup i Hi) as (w & Hw & Hrange).
  unfold set. rewrite index_split, (idx_nat _ _ _ Hw). go_simpl.
  rewrite upd_in_range by (apply lookup_lt_Some in Hw; len).
  rewrite Nat2Z.id, shiftl_one_wrap by (pose proof (Nat.mod_upper_bound i 64); lia).
  eexists. split; [done|].
  pose proof (Nat.mod_upper_bound i 64). eapply repr_update; [done|..].
  - apply lor_pow2_word; lia.
  - pose proof (repr_bound _ _ _ Hr). set_solver.
  - set_solver.
  - intros k. rewrite Z.lor_spec, testbit_pow2 by lia.
    destruct (decide (k = i `mod` 64)%nat) as [->|].
    + rewrite (bool_decide_eq_true_2 (i ∈ _)) by set_solver.
      rewrite !bool_decide_eq_true_2 by lia. by rewrite orb_true_r.
    + rewrite !bool_decide_eq_false_2 by lia. by rewrite orb_false_r.
Qed.

Lemma repr_clear (i : nat) :
  (i < n)%nat → ∃ b', clear b (Z.of_nat i) = Done b' ∧ repr n b' (X ∖ {[i]}).
Proof.
  intros Hi. destruct (repr_lookup i Hi) as (w & Hw & Hrange).
  unfold clear. rewrite index_split, (idx_nat _ _ _ Hw). go_simpl.
  rewrite upd_in_range by (apply lookup_lt_Some in Hw; len).
  rewrite Nat2Z.id, shiftl_one_wrap by (pose proof (Nat.mod_upper_bound i 64); lia).
  eexists. split; [done|].
  pose proof (Nat.mod_upper_bound i 64). eapply repr_update; [done|..].
  - apply ldiff_pow2_word; lia.
  - pose proof (repr_bound _ _ _ Hr). set_solver.
  - set_solver.
  - intros k. rewrite Z.ldiff_spec, testbit_pow2 by lia.
    destruct (decide (k = i `mod` 64)%nat) as [->|].
    + rewrite (bool_decide_eq_true_2 (Z.of_nat _ = _)) by lia.
      rewrite (bool_decide_eq_true_2 (_ = _)) by lia.
      rewrite (bool_decide_eq_false_2 (_ ∈ _)) by set_solver.
      by rewrite andb_false_r.
    + rewrite !bool_decide_eq_false_2 by lia. by rewrite andb_true_r.
Qed.

Lemma repr_get (i : nat) :
  (i < n)%nat → get b (Z.of_nat i) = Done (bool_decide (i ∈ X)).
Proof.
  intros Hi. destruct (repr_lookup i Hi) as (w & Hw & Hrange).
  unfold get. rewrite index_split, (idx_nat _ _ _ Hw). go_simpl.
  pose proof (Nat.mod_upper_bound i 64).
  rewrite shiftl_one_wrap, land_pow2_nonzero by lia.
  pose proof (repr_bit _ _ _ Hr i) as Hb. unfold bit in Hb. rewrite Hw in Hb.
  by rewrite Hb.
Qed.

End ops.

Lemma bit_replicate_zero m i : bit (replicate m 0) i = false.
Proof.
  unfold bit. destruct (_ !! _) eqn:E; [|done].
  apply lookup_replicate in E as [-> _]. apply Z.testbit_0_l.
Qed.

Lemma repr_new n : repr n (newBitset (Z.of_nat n)) ∅.
Proof.
  split.
  - done.
  - unfold newBitset. apply Forall_replicate. done.
  - set_solver.
  - intros i. unfold newBitset. rewrite bit_replicate_zero.
    symmetry. apply bool_decide_eq_false. set_solver.
Qed.

Lemma equals_loop_spec b b2 :
  length b = length b2 → equals_loop b b2 = true ↔ b = b2.
Proof.
  revert b2. induction b as [|w b IH]; intros [|w2 b2] Hl; cbn in *; try done.
  destruct (decide (w = w2)) as [->|Hw].
  - rewrite bool_decide_eq_false_2 by naive_solver. rewrite IH by lia. naive_solver.
  - rewrite bool_decide_eq_true_2 by done. naive_solver.
Qed.

Lemma equals_spec b b2 : equals b b2 = true ↔ b = b2.
Proof.
  unfold equals. destruct (decide (length b = length b2)) as [Hl|Hl].
  - rewrite bool_decide_eq_false_2 by naive_solver. by apply equals_loop_spec.
  - rewrite bool_decide_eq_true_2 by done. naive_solver.
Qed.

Lemma word_ext w w2 :
  0 ≤ w < two64 → 0 ≤ w2 < two64 →
  (∀ k : nat, (k < 64)%nat → Z.testbit w (Z.of_nat k) = Z.testbit w2 (Z.of_nat k)) →
  w = w2.
Proof.
  intros H1 H2 Hb. apply Z.bits_inj'. intros i Hi.
  destruct (decide (64 ≤ i)).
  - by rewrite !word_bits.
  - specialize (Hb (Z.to_nat i)). rewrite Z2Nat.id in Hb by done. apply Hb. lia.
Qed.

(** Two bitsets for the same number of positions are the same words exactly
    when they stand for the same set. *)
Lemma repr_ext n b b2 X : repr n b X → repr n b2 X → b = b2.
Proof.
  intros H1 H2. apply list_eq_same_length with (length b).
  { rewrite (repr_len _ _ _ H1). by rewrite <- (repr_len _ _ _ H2). }
  { done. }
  intros i w w2 Hi Hw Hw2.
  apply word_ext.
  - pose proof (repr_word _ _ _ H1) as Hf. rewrite Forall_lookup in Hf. eauto.
  - pose proof (repr_word _ _ _ H2) as Hf. rewrite Forall_lookup in Hf. eauto.
  - intros k Hk. pose proof (repr_bit _ _ _ H1 (64 * i + k)%nat) as B1.
    pose proof (repr_bit _ _ _ H2 (64 * i + k)%nat) as B2. unfold bit in B1, B2.
    assert ((64 * i + k) `div` 64 = i)%nat as Hd.
    { rewrite Nat.mul_comm, Nat.div_add_l by lia. rewrite Nat.div_small; lia. }
    assert ((64 * i + k) `mod` 64 = k)%nat as Hm.
    { rewrite Nat.add_comm, Nat.mul_comm, Nat.Div0.mod_add. apply Nat.mod_small. lia. }
    rewrite Hd, Hm, Hw in B1. rewrite Hd, Hm, Hw2 in B2. congruence.
Qed.

Lemma repr_inj n b X Y : repr n b X → repr n b Y → X = Y.
Proof.
  intros H1 H2. apply set_eq. intros i.
  pose proof (repr_bit _ _ _ H1 i). pose proof (repr_bit _ _ _ H2 i).
  destruct (decide (i ∈ X)), (decide (i ∈ Y)); try tauto;
    [rewrite bool_decide_eq_true_2 in H by done; rewrite bool_decide_eq_false_2 in H0 by done
    |rewrite bool_decide_eq_false_2 in H by done; rewrite bool_decide_eq_true_2 in H0 by done];
    congruence.
Qed.

(** ** Counting *)

Lemma bit_cons_lo w b (i : nat) : (i < 64)%nat → bit (w :: b) i = Z.testbit w (Z.of_nat i).
Proof. intros Hi. unfold bit. rewrite Nat.div_small, Nat.mod_small by lia. done. Qed.

Lemma bit_cons_hi w b (i : nat) : bit (w :: b) (64 + i) = bit b i.
Proof.
  unfold bit. replace (64 + i)%nat with (1 * 64 + i)%nat by lia.
  rewrite Nat.div_add_l, (Nat.add_comm (1 * 64)), Nat.Div0.mod_add by lia. done.
Qed.

Lemma filter_fmap_length {A B} (f : A → B) (P : B → Prop) (Q : A → Prop)
    `{!∀ x, Decision (P x), !∀ x, Decision (Q x)} l :
  (∀ x, x ∈ l → P (f x) ↔ Q x) → length (filter P (f <$> l)) = length (filter Q l).
Proof.
  intros HPQ. rewrite filter_fmap, length_fmap. f_equal. by apply filter_ext_elem.
Qed.

Lemma popcnt_acc k b : foldl (fun total v => total + OnesCount64 v) k b = k + popcnt b.
Proof.
  unfold popcnt. rewrite <- (Z.add_0_r k) at 1. generalize 0 as z. revert k.
  induction b as [|w b IH]; intros k z; cbn; [done|]. rewrite <- IH. f_equal. lia.
Qed.

Lemma popcnt_bits b :
  popcnt b = zlen (filter (fun i => bit b i = true) (seq 0 (64 * length b))).
Proof.
  induction b as [|w b IH]; [done|]. change (popcnt (w :: b)) with
    (foldl (fun total v => total + OnesCount64 v) (0 + OnesCount64 w) b).
  rewrite popcnt_acc, IH, Z.add_0_l. unfold OnesCount64, zlen. cbn [length].
  replace (64 * Datatypes.S (length b))%nat with (64 + 64 * length b)%nat by lia.
  rewrite seq_app, filter_app, length_app, Nat2Z.inj_add. cbn [Nat.add]. f_equal.
  - change (seqZ 0 64) with (Z.of_nat <$> seq 0 64). f_equal.
    apply filter_fmap_length. intros i Hi. rewrite bit_cons_lo; [done|].
    apply elem_of_seq in Hi. lia.
  - f_equal. change (seq 64 (64 * length b)) with (seq (64 + 0) (64 * length b)).
    rewrite <- fmap_add_seq.
    symmetry. apply filter_fmap_length. intros i _. by rewrite bit_cons_hi.
Qed.

Lemma repr_popcnt n b X : repr n b X → popcnt b = Z.of_nat (size X).
Proof.
  intros [Hl _ Hb Hbit]. rewrite popcnt_bits. unfold zlen. f_equal.
  assert (X = list_to_set (filter (fun i => bit b i = true) (seq 0 (64 * length b)))) as ->.
  { apply set_eq. intros i. rewrite elem_of_list_to_set, list_elem_of_filter, Hbit,
      bool_decide_eq_true, elem_of_seq, Hl. pose proof (chunks_spec n).
    split; [|tauto]. intros Hi. specialize (Hb i Hi). split; [done|]. lia. }
  rewrite size_list_to_set; [done|]. apply NoDup_filter, NoDup_seq.
Qed.

(** ** A bitset behaves as a finite set *)

Inductive bop := OSet (i : nat) | OClear (i : nat).
Definition bop_pos (o : bop) : nat := match o with OSet i | OClear i => i end.

Fixpoint run_bitset (b : bitset) (ops : list bop) : go bitset :=
  match ops with
  | [] => Done b
  | OSet i :: ops => b' ← set b (Z.of_nat i); run_bitset b' ops
  | OClear i :: ops => b' ← clear b (Z.of_nat i); run_bitset b' ops
  end.

Fixpoint run_set (X : gset nat) (ops : list bop) : gset nat :=
  match ops with
  | [] => X
  | OSet i :: ops => run_set ({[i]} ∪ X) ops
  | OClear i :: ops => run_set (X ∖ {[i]}) ops
  end.

Lemma run_bitset_repr n b X ops :
  repr n b X → Forall (fun o => (bop_pos o < n)%nat) ops →
  ∃ b', run_bitset b ops = Done b' ∧ repr n b' (run_set X ops).
Proof.
  intros Hr Hops. revert b X Hr. induction Hops as [|[i|i] ops Hi _ IH]; intros b X Hr;
    cbn [run_bitset run_set bop_pos] in *.
  - eauto.
  - destruct (repr_set n b X Hr i Hi) as (b' & -> & Hr'). go_simpl. by apply IH.
  - destruct (repr_clear n b X Hr i Hi) as (b' & -> & Hr'). go_simpl. by apply IH.
Qed.

(** C7: a bitset made for [n] positions and changed by any sequence of [set]
    and [clear] in range never panics and behaves as the finite set of
    positions: [get] is membership, [popcnt] the size, and [equals] of two
    such bitsets is equality of the sets. *)
Theorem bitset_refines_set (n : nat) (ops ops2 : list bop) :
  Forall (fun o => (bop_pos o < n)%nat) ops → Forall (fun o => (bop_pos o < n)%nat) ops2 →
  ∃ b b2, run_bitset (newBitset (Z.of_nat n)) ops = Done b ∧
    run_bitset (newBitset (Z.of_nat n)) ops2 = Done b2 ∧
    (∀ i, (i < n)%nat → get b (Z.of_nat i) = Done (bool_decide (i ∈ run_set ∅ ops))) ∧
    popcnt b = Z.of_nat (size (run_set ∅ ops)) ∧
    equals b b2 = bool_decide (run_set ∅ ops = run_set ∅ ops2).
Proof.
  intros Hops Hops2.
  destruct (run_bitset_repr n _ _ _ (repr_new n) Hops) as (b & Hb & Hr).
  destruct (run_bitset_repr n _ _ _ (repr_new n) Hops2) as (b2 & Hb2 & Hr2).
  exists b, b2. do 2 (split; [done|]). split; [|split].
  - intros i Hi. by apply (repr_get n).
  - by apply (repr_popcnt n).
  - apply eq_bool_prop_intro. rewrite bool_decide_spec, Is_true_true, equals_spec. split.
    + intros <-. by eapply repr_inj.
    + intros E. rewrite <- E in Hr2. by eapply repr_ext.
Qed.

Lemma bitset_refines_set_witness :
  ∃ b b2, run_bitset (newBitset 70) [OSet 3; OSet 69; OClear 3] = Done b ∧
    run_bitset (newBitset 70) [OSet 69] = Done b2 ∧
    (∀ i, (i < 70)%nat → get b (Z.of_nat i) = Done (bool_decide (i ∈ run_set ∅ [OSet 3; OSet 69; OClear 3]))) ∧
    popcnt b = Z.of_nat (size (run_set ∅ [OSet 3; OSet 69; OClear 3])) ∧
    equals b b2 = bool_decide (run_set ∅ [OSet 3; OSet 69; OClear 3] = run_set ∅ [OSet 69]).
Proof. apply (bitset_refines_set 70); repeat constructor; cbn; lia. Defined.
