(* ===== verification/PorcupineModel.v ===== *)
(** * Porcupine: histories and models

    The data types of [labs/src/porcupine/model.go] and the functions of
    [labs/src/porcupine/checker.go] that turn a history into a list of
    entries: [makeEntries] for histories of operations with timestamps,
    [renumber] and [convertEntries] for histories of events.

    [V] stands for Go's [interface{}] (inputs, outputs and [nil], the
    inhabitant), [S] for the type of the states of the model. *)

From S2P Require Import Prelude.
Local Open Scope Z_scope.

(** ** Data types of model.go *)

Record Operation (V : Type) := mkOperation {
  op_ClientId : Z;
  Input : V;
  Call : Z;
  Output : V;
  Return : Z;
}.
Arguments mkOperation {V} _ _ _ _ _.
Arguments op_ClientId {V} _.
Arguments Input {V} _.
Arguments Call {V} _.
Arguments Output {V} _.
Arguments Return {V} _.

Inductive EventKind := CallEvent | ReturnEvent.

Record Event (V : Type) := mkEvent {
  ev_ClientId : Z;
  ev_Kind : EventKind;
  ev_Value : V;
  ev_Id : Z;
}.
Arguments mkEvent {V} _ _ _ _.
Arguments ev_ClientId {V} _.
Arguments ev_Kind {V} _.
Arguments ev_Value {V} _.
Arguments ev_Id {V} _.

(** A function-typed field is [None] when the Go field is [nil]. *)
Record Model (V S : Type) := mkModel {
  Partition : option (list (Operation V) → go (list (list (Operation V))));
  PartitionEvent : option (list (Event V) → go (list (list (Event V))));
  Init : S;
  Step : S → V → V → go (bool * S);
  Equal : option (S → S → bool);
  DescribeOperation : option (V → V → go string);
  DescribeState : option (S → string);
}.
Arguments mkModel {V S} _ _ _ _ _ _ _.
Arguments Partition {V S} _.
Arguments PartitionEvent {V S} _.
Arguments Init {V S} _.
Arguments Step {V S} _.
Arguments Equal {V S} _.
Arguments DescribeOperation {V S} _.
Arguments DescribeState {V S} _.

Inductive CheckResult := Unknown | Ok | Illegal.

#[export] Instance CheckResult_eq_dec : EqDecision CheckResult.
Proof. solve_decision. Defined.

(** Calling a function value: a [nil] function panics. *)
Definition fn {A} (f : option A) : go A :=
  match f with Some f => Done f | None => Panic end.

Section defaults.
Context {V S : Type} `{!EqDecision S}.

(** [fmt.Sprintf("%v", x)] for the dynamic values and the states. *)
Context (fmtV : V → string) (fmtS : S → string).

Definition NoPartition (history : list (Operation V)) : go (list (list (Operation V))) :=
  Done [history].

Definition NoPartitionEvent (history : list (Event V)) : go (list (list (Event V))) :=
  Done [history].

Definition ShallowEqual (state1 state2 : S) : bool := bool_decide (state1 = state2).

Definition DefaultDescribeOperation (input output : V) : go string :=
  Done (fmtV input +:+ " -> " +:+ fmtV output).

Definition DefaultDescribeState (state : S) : string := fmtS state.

(** A field that is set stays as it is; a [nil] one gets the default. *)
Definition or_default {A} (o : option A) (d : A) : option A :=
  match o with None => Some d | Some _ => o end.

Definition fillDefault (model : Model V S) : Model V S := {|
  Partition := or_default (Partition model) NoPartition;
  PartitionEvent := or_default (PartitionEvent model) NoPartitionEvent;
  Init := Init model;
  Step := Step model;
  Equal := or_default (Equal model) ShallowEqual;
  DescribeOperation := or_default (DescribeOperation model) DefaultDescribeOperation;
  DescribeState := or_default (DescribeState model) DefaultDescribeState;
|}.

End defaults.

(** ** Entries of checker.go *)

Inductive entryKind := callEntry | returnEntry.

#[export] Instance entryKind_eq_dec : EqDecision entryKind.
Proof. solve_decision. Defined.

Record entry (V : Type) := mkEntry {
  e_kind : entryKind;
  e_value : V;
  e_id : Z;
  e_time : Z;
  e_clientId : Z;
}.
Arguments mkEntry {V} _ _ _ _ _.
Arguments e_kind {V} _.
Arguments e_value {V} _.
Arguments e_id {V} _.
Arguments e_time {V} _.
Arguments e_clientId {V} _.

(** [byTime.Less] *)
Definition byTime_Less {V} (a b : entry V) : bool := bool_decide (e_time a < e_time b).

#[export] Instance byTime_order {V} : LessOrder (byTime_Less (V:=V)).
Proof.
  unfold byTime_Less. split; intros *; rewrite !bool_decide_eq_false; lia.
Qed.

Section entries.
Context {V : Type}.

Fixpoint makeEntries_loop (id : Z) (history : list (Operation V)) : list (entry V) :=
  match history with
  | [] => []
  | elem :: history =>
      mkEntry callEntry (Input elem) id (Call elem) (op_ClientId elem) ::
      mkEntry returnEntry (Output elem) id (Return elem) (op_ClientId elem) ::
      makeEntries_loop (id + 1) history
  end.

(** [sort] is Go's [sort.Sort(byTime(entries))]. *)
Definition makeEntries (sort : list (entry V) → list (entry V))
    (history : list (Operation V)) : list (entry V) :=
  sort (makeEntries_loop 0 history).

Fixpoint renumber_loop (m : gmap Z Z) (id : Z) (events : list (Event V)) : list (Event V) :=
  match events with
  | [] => []
  | v :: events =>
      match m !! ev_Id v with
      | Some r =>
          mkEvent (ev_ClientId v) (ev_Kind v) (ev_Value v) r :: renumber_loop m id events
      | None =>
          mkEvent (ev_ClientId v) (ev_Kind v) (ev_Value v) id ::
          renumber_loop (<[ev_Id v := id]> m) (id + 1) events
      end
  end.

Definition renumber (events : list (Event V)) : list (Event V) := renumber_loop ∅ 0 events.

Fixpoint convertEntries_loop (i : Z) (events : list (Event V)) : list (entry V) :=
  match events with
  | [] => []
  | elem :: events =>
      let kind := match ev_Kind elem with
                  | ReturnEvent => returnEntry
                  | CallEvent => callEntry
                  end in
      mkEntry kind (ev_Value elem) (ev_Id elem) i (ev_ClientId elem) ::
      convertEntries_loop (i + 1) events
  end.

Definition convertEntries (events : list (Event V)) : list (entry V) :=
  convertEntries_loop 0 events.

End entries.
