(* ===== verification/Linearizability.v ===== *)
(** * What the checker decides: linearizability of a history of entries

    A history is a list of call and return entries.  It is linearizable for a
    model when its operations can be put in a sequential order that the model
    accepts step by step and that keeps the real-time order: an operation
    that returned before another was called comes first.

    [lin_path] is the same notion in operational form (repeatedly take an
    operation whose call comes before every pending return), which is how the
    checker searches; [lin_path_iff] shows the two agree. *)

From S2P Require Import Prelude PorcupineModel.
Local Open Scope Z_scope.

Section spec.
Context {V S : Type}.
Implicit Types (h L : list (entry V)) (e : entry V) (σ : list Z).

Definition is_call e : Prop := e_kind e = callEntry.
Definition is_ret e : Prop := e_kind e = returnEntry.

#[global] Instance is_call_dec e : Decision (is_call e) := decide (e_kind e = callEntry).
#[global] Instance is_ret_dec e : Decision (is_ret e) := decide (e_kind e = returnEntry).

Definition tag e : entryKind * Z := (e_kind e, e_id e).

(** Every operation has one call entry and, later, one return entry. *)
Record wf_history h : Prop := {
  wf_nodup : NoDup (tag <$> h);
  wf_call : ∀ A e B, h = A ++ e :: B → is_call e →
    ∃ e', e' ∈ B ∧ is_ret e' ∧ e_id e' = e_id e;
  wf_ret : ∀ A e B, h = A ++ e :: B → is_ret e →
    ∃ e', e' ∈ A ∧ is_call e' ∧ e_id e' = e_id e;
}.

(** The operations of a history, by the id of their call entries. *)
Definition calls_of h : list Z := e_id <$> filter is_call h.

(** [(i, o)] is the input and the output of operation [j] in [h]. *)
Definition op_values h (j : Z) (i o : V) : Prop :=
  ∃ e e', e ∈ h ∧ is_call e ∧ e_id e = j ∧ e_value e = i ∧
          e' ∈ h ∧ is_ret e' ∧ e_id e' = j ∧ e_value e' = o.

(** [j] returned before [i] was called. *)
Definition precedes h (j i : Z) : Prop :=
  ∃ A e B e', h = A ++ e :: B ∧ is_ret e ∧ e_id e = j ∧
              e' ∈ B ∧ is_call e' ∧ e_id e' = i.

Definition respects h σ : Prop :=
  ∀ A i B j, σ = A ++ i :: B → j ∈ B → ¬ precedes h j i.

Context (m : Model V S).

(** The model accepts the operations of [h] in the order [σ], from [s]. *)
Inductive legal h : S → list Z → Prop :=
| legal_nil s : legal h s []
| legal_cons s s' j i o σ :
    op_values h j i o → Step m s i o = Done (true, s') →
    legal h s' σ → legal h s (j :: σ).

Definition linearization h (s : S) σ : Prop :=
  σ ≡ₚ calls_of h ∧ respects h σ ∧ legal h s σ.

Definition linearizable h : Prop := ∃ σ, linearization h (Init m) σ.

(** Operational form. *)
Definition remove_op (j : Z) L : list (entry V) := filter (fun e => e_id e ≠ j) L.

Inductive lin_path : list (entry V) → S → list Z → Prop :=
| lin_path_nil s : lin_path [] s []
| lin_path_cons L A e B e' s s' σ :
    L = A ++ e :: B → Forall is_call A → is_call e →
    e' ∈ L → is_ret e' → e_id e' = e_id e →
    Step m s (e_value e) (e_value e') = Done (true, s') →
    lin_path (remove_op (e_id e) L) s' σ →
    lin_path L s (e_id e :: σ).

(** ** Facts about well-formed histories *)

Lemma call_or_ret e : is_call e ∨ is_ret e.
Proof. unfold is_call, is_ret. destruct (e_kind e); auto. Qed.

Lemma not_call_ret e : is_call e → ¬ is_ret e.
Proof. unfold is_call, is_ret. congruence. Qed.

Lemma tag_eq_call e e' : is_call e → is_call e' → e_id e = e_id e' → tag e = tag e'.
Proof. unfold is_call, tag. congruence. Qed.

Lemma tag_eq_ret e e' : is_ret e → is_ret e' → e_id e = e_id e' → tag e = tag e'.
Proof. unfold is_ret, tag. congruence. Qed.

Lemma wf_tag_inj h e e' : wf_history h → e ∈ h → e' ∈ h → tag e = tag e' → e = e'.
Proof.
  intros Hwf [p Hp]%list_elem_of_lookup [q Hq]%list_elem_of_lookup Ht.
  assert (p = q) as -> by (by eapply NoDup_fmap_lookup; [apply Hwf|..]). congruence.
Qed.

Lemma wf_call_inj h e e' :
  wf_history h → e ∈ h → e' ∈ h → is_call e → is_call e' → e_id e = e_id e' → e = e'.
Proof. eauto using wf_tag_inj, tag_eq_call. Qed.

Lemma wf_ret_inj h e e' :
  wf_history h → e ∈ h → e' ∈ h → is_ret e → is_ret e' → e_id e = e_id e' → e = e'.
Proof. eauto using wf_tag_inj, tag_eq_ret. Qed.

Lemma op_values_unique h j i o i' o' :
  wf_history h → op_values h j i o → op_values h j i' o' → i = i' ∧ o = o'.
Proof.
  intros Hwf (e & r & He & Hc & Hj & Hi & Hr & Hrr & Hrj & Ho)
    (e2 & r2 & He2 & Hc2 & Hj2 & Hi2 & Hr2 & Hrr2 & Hrj2 & Ho2).
  assert (e = e2) as <- by (eapply wf_call_inj; eauto; congruence).
  assert (r = r2) as <- by (eapply wf_ret_inj; eauto; congruence).
  by subst.
Qed.

Lemma elem_of_calls_of h j :
  j ∈ calls_of h ↔ ∃ e, e ∈ h ∧ is_call e ∧ e_id e = j.
Proof.
  unfold calls_of. rewrite list_elem_of_fmap.
  setoid_rewrite list_elem_of_filter. naive_solver.
Qed.

Lemma elem_of_remove_op j L e : e ∈ remove_op j L ↔ e ∈ L ∧ e_id e ≠ j.
Proof. unfold remove_op. rewrite list_elem_of_filter. naive_solver. Qed.

Lemma calls_of_NoDup h : NoDup (tag <$> h) → NoDup (calls_of h).
Proof.
  intros Hnd. unfold calls_of. apply NoDup_fmap_2_strong.
  - intros e e' [Hc He]%list_elem_of_filter [Hc' He']%list_elem_of_filter Hid.
    apply list_elem_of_lookup in He as [p Hp]. apply list_elem_of_lookup in He' as [q Hq].
    assert (p = q) as -> by (eapply NoDup_fmap_lookup; eauto using tag_eq_call). congruence.
  - apply NoDup_filter. by eapply NoDup_fmap_1.
Qed.

Lemma remove_op_NoDup j h : NoDup (tag <$> h) → NoDup (tag <$> remove_op j h).
Proof. intros Hnd. eapply sublist_NoDup; [done|]. apply fmap_sublist, sublist_filter. Qed.

Lemma calls_of_remove j h :
  NoDup (tag <$> h) → j ∈ calls_of h → calls_of h ≡ₚ j :: calls_of (remove_op j h).
Proof.
  intros Hnd Hj. apply NoDup_Permutation.
  - by apply calls_of_NoDup.
  - constructor; [|by apply calls_of_NoDup, remove_op_NoDup].
    rewrite elem_of_calls_of. setoid_rewrite elem_of_remove_op. naive_solver.
  - intros i. rewrite elem_of_cons, !elem_of_calls_of.
    setoid_rewrite elem_of_remove_op.
    apply elem_of_calls_of in Hj as (e & He & Hc & <-).
    split; [|naive_solver].
    intros (e' & He' & Hc' & <-). destruct (decide (e_id e' = e_id e)); naive_solver.
Qed.

Lemma wf_remove_op j h : wf_history h → wf_history (remove_op j h).
Proof.
  intros Hwf. split.
  - by apply remove_op_NoDup, Hwf.
  - intros A e B (A0 & B0 & -> & <- & <- & Hj)%filter_app_cons_inv Hc.
    destruct (wf_call _ Hwf A0 e B0) as (e' & He' & Hr & Hid); [done..|].
    exists e'. rewrite list_elem_of_filter, Hid. done.
  - intros A e B (A0 & B0 & -> & <- & <- & Hj)%filter_app_cons_inv Hc.
    destruct (wf_ret _ Hwf A0 e B0) as (e' & He' & Hr & Hid); [done..|].
    exists e'. rewrite list_elem_of_filter, Hid. done.
Qed.

Lemma precedes_remove_op j h a b :
  a ≠ j → b ≠ j → precedes h a b ↔ precedes (remove_op j h) a b.
Proof.
  intros Ha Hb. split.
  - intros (A & e & B & e' & -> & Hr & <- & He' & Hc & <-).
    exists (remove_op j A), e, (remove_op j B), e'. unfold remove_op.
    rewrite filter_app, filter_cons_True by done.
    rewrite list_elem_of_filter. naive_solver.
  - intros (A & e & B & e' & (A0 & B0 & -> & <- & <- & Hj)%filter_app_cons_inv
      & Hr & <- & [_ He']%list_elem_of_filter & Hc & <-).
    by exists A0, e, B0, e'.
Qed.

Lemma op_values_remove_op j h a i o :
  a ≠ j → op_values h a i o ↔ op_values (remove_op j h) a i o.
Proof.
  intros Ha. unfold op_values. setoid_rewrite elem_of_remove_op.
  split; intros (e & e' & Hv); exists e, e'; intuition congruence.
Qed.

Lemma legal_remove_op j h s σ : j ∉ σ → legal h s σ ↔ legal (remove_op j h) s σ.
Proof.
  intros Hj. split; intros Hl; revert Hj; induction Hl; intros Hni;
    [constructor| |constructor|]; (econstructor; [|done|]; [|set_solver]);
    [rewrite <- op_values_remove_op|rewrite op_values_remove_op]; set_solver.
Qed.

Lemma respects_remove_op j h σ :
  j ∉ σ → respects h σ ↔ respects (remove_op j h) σ.
Proof.
  intros Hj. unfold respects.
  split; intros Hr A i B k -> Hk Hp; eapply (Hr A i B k); [done..| |done|done|];
    [rewrite (precedes_remove_op j)|rewrite <- (precedes_remove_op j)]; set_solver.
Qed.

Lemma respects_cons h i σ :
  respects h (i :: σ) ↔ (∀ j, j ∈ σ → ¬ precedes h j i) ∧ respects h σ.
Proof.
  split.
  - intros Hr. split.
    + intros j Hj. by eapply (Hr [] i σ).
    + intros A k B l -> Hl. by eapply (Hr (i :: A)).
  - intros [Hi Hr] A k B l E Hl. destruct A as [|x A]; cbn in E; simplify_eq.
    + by apply Hi.
    + by eapply Hr.
Qed.

(** The declarative and the operational forms agree. *)
Lemma lin_path_linearization h s σ :
  wf_history h → lin_path h s σ → linearization h s σ.
Proof.
  intros Hwf Hp. induction Hp as [s|h A e B r s s' σ -> HA Hc Hr Hret Hid Hstep Hp IH].
  { split; [done|split; [|constructor]]. intros A i B j E. by destruct A. }
  set (h := A ++ e :: B) in *.
  destruct (IH (wf_remove_op _ _ Hwf)) as (Hperm & Hresp & Hleg).
  assert (e_id e ∈ calls_of h) as Hin
    by (apply elem_of_calls_of; exists e; set_solver).
  assert (e_id e ∉ σ) as Hni.
  { rewrite Hperm, elem_of_calls_of. setoid_rewrite elem_of_remove_op. naive_solver. }
  split; [|split].
  - rewrite (calls_of_remove (e_id e) h) by (apply Hwf || done). by constructor.
  - apply respects_cons. split; [|by apply respects_remove_op with (e_id e)].
    intros j Hj (A' & d & B' & e' & E & Hd & Hdj & He' & Hc' & Hid').
    assert (e' ∈ h) by (rewrite E; set_solver).
    assert (e' = e) as -> by (eapply wf_call_inj; eauto; unfold h; set_solver).
    assert (d ∈ A) as HdA.
    { eapply NoDup_decomp_before; [|exact E|done]. by eapply NoDup_fmap_1, Hwf. }
    rewrite Forall_forall in HA. by eapply not_call_ret; [apply HA|].
  - econstructor; [|done|by apply legal_remove_op with (e_id e)].
    exists e, r. set_solver.
Qed.
Lemma linearization_lin_path h s σ :
  wf_history h → linearization h s σ → lin_path h s σ.
Proof.
  revert h s. induction σ as [|j σ IH]; intros h s Hwf (Hperm & Hresp & Hleg).
  { assert (h = []) as ->; [|constructor]. destruct h as [|e h]; [done|].
    exfalso. apply Permutation_nil_l in Hperm.
    assert (∃ c, c ∈ e :: h ∧ is_call c) as (c & Hc & Hcall).
    { destruct (call_or_ret e) as [|Hr]; [set_solver|].
      destruct (wf_ret _ Hwf [] e h) as (? & ? & ?); set_solver. }
    assert (e_id c ∈ calls_of (e :: h)) as Hin by (apply elem_of_calls_of; eauto).
    rewrite <- Hperm in Hin. set_solver. }
  inversion Hleg as [|? s' ? i o ? (e & r & He & Hc & Hj & <- & Hr & Hret & Hrj & <-) Hstep Hleg' ];
    simplify_eq.
  apply respects_cons in Hresp as [Hfirst Hresp].
  assert (NoDup (e_id e :: σ)) as [Hni Hndσ]%NoDup_cons
    by (rewrite Hperm; apply calls_of_NoDup, Hwf).
  pose proof He as (A & B & ->)%list_elem_of_split.
  econstructor; [done| |done|exact Hr|done|done|exact Hstep|].
  - apply Forall_forall. intros d Hd. destruct (call_or_ret d) as [|Hdr]; [done|exfalso].
    apply list_elem_of_split in Hd as (A1 & A2 & ->).
    destruct (wf_ret _ Hwf A1 d (A2 ++ e :: B)) as (c & Hc1 & Hcc & Hcid);
      [by rewrite <- app_assoc|done|].
    destruct (decide (e_id d = e_id e)) as [E|Hne].
    { assert (c = e) as -> by (eapply wf_call_inj; [done|set_solver|set_solver|done..|congruence]).
      assert (NoDup ((A1 ++ d :: A2) ++ e :: B)) as Hnd
        by (eapply NoDup_fmap_1, Hwf).
      rewrite NoDup_app in Hnd. set_solver. }
    apply (Hfirst (e_id d)).
    + assert (e_id d ∈ calls_of ((A1 ++ d :: A2) ++ e :: B)) as Hin
        by (apply elem_of_calls_of; exists c; set_solver).
      rewrite <- Hperm in Hin. set_solver.
    + exists A1, d, (A2 ++ e :: B), e. rewrite <- app_assoc. set_solver.
  - apply IH; [by apply wf_remove_op|]. split; [|split].
    + rewrite (calls_of_remove (e_id e)) in Hperm;
        [by apply Permutation_cons_inv in Hperm|apply Hwf|].
      apply elem_of_calls_of; eauto.
    + by apply respects_remove_op.
    + by apply legal_remove_op.
Qed.

Lemma linearizable_lin_path h :
  wf_history h → linearizable h ↔ ∃ σ, lin_path h (Init m) σ.
Proof.
  intros Hwf. split; intros [σ Hσ]; exists σ;
    eauto using linearization_lin_path, lin_path_linearization.
Qed.

End spec.
