(* ===== verification/LinkedEntries.v ===== *)
(** * The linked list of entries ([labs/src/porcupine/checker.go])

    [node], [insertBefore], [length], [makeLinkedEntries], [lift] and
    [unlift].  Pointers are indices into a heap of nodes ([nil] is [None]);
    a dereference of [nil] panics.

    [lift] takes a call node and its return node out of the list and leaves
    their own [prev] and [next] pointers alone; [unlift] uses those to put
    them back.  [lift_spec] shows what [lift] does to the list, and that
    [unlift] restores the heap exactly. *)

From S2P Require Import Prelude PorcupineModel Linearizability.
Local Open Scope Z_scope.

(** ** Nodes and the heap *)

Notation loc := nat (only parsing).

Record node (V : Type) := mkNode {
  n_value : V;
  n_match : option loc;
  n_id : Z;
  n_next : option loc;
  n_prev : option loc;
}.
Arguments mkNode {V} _ _ _ _ _.
Arguments n_value {V} _.
Arguments n_match {V} _.
Arguments n_id {V} _.
Arguments n_next {V} _.
Arguments n_prev {V} _.

Notation heap V := (list (node V)).

Definition with_next {V} (v : option loc) (nd : node V) : node V :=
  mkNode (n_value nd) (n_match nd) (n_id nd) v (n_prev nd).
Definition with_prev {V} (v : option loc) (nd : node V) : node V :=
  mkNode (n_value nd) (n_match nd) (n_id nd) (n_next nd) v.

Section linked.
Context {V : Type}.
Implicit Types (h : heap V).

Definition alloc h (nd : node V) : heap V * loc := (h ++ [nd], length h).

Definition load h (p : option loc) : go (node V) :=
  match p with
  | None => Panic
  | Some l => match h !! l with Some nd => Done nd | None => Panic end
  end.

Definition set_next h (p : option loc) (v : option loc) : go (heap V) :=
  _ ← load h p;
  Done (match p with Some l => alter (with_next v) l h | None => h end).

Definition set_prev h (p : option loc) (v : option loc) : go (heap V) :=
  _ ← load h p;
  Done (match p with Some l => alter (with_prev v) l h | None => h end).

(** ** Operations *)

Definition insertBefore h (n : loc) (mark : option loc) : go (heap V * loc) :=
  match mark with
  | None => Done (h, n)
  | Some _ =>
      mk ← load h mark;
      let beforeMark := n_prev mk in
      h ← set_prev h mark (Some n);
      h ← set_next h (Some n) mark;
      match beforeMark with
      | None => Done (h, n)
      | Some _ =>
          h ← set_prev h (Some n) beforeMark;
          h ← set_next h beforeMark (Some n);
          Done (h, n)
      end
  end.

Fixpoint length_loop (fuel : nat) h (n : option loc) (l : Z) : go Z :=
  match fuel with
  | O => Stuck
  | S fuel =>
      match n with
      | None => Done l
      | Some _ => nd ← load h n; length_loop fuel h (n_next nd) (l + 1)
      end
  end.

(** The list has at most as many nodes as the heap. *)
Definition node_length h (n : option loc) : go Z := length_loop (S (length h)) h n 0.

(** The loop runs from the last entry to the first. *)
Fixpoint makeLinkedEntries_loop (entries : list (entry V))
    : go (heap V * gmap Z loc * option loc) :=
  match entries with
  | [] => Done ([], ∅, None)
  | elem :: rest =>
      '(h, mt, root) ← makeLinkedEntries_loop rest;
      match e_kind elem with
      | returnEntry =>
          let '(h, entry) := alloc h (mkNode (e_value elem) None (e_id elem) None None) in
          let mt := <[e_id elem := entry]> mt in
          '(h, _) ← insertBefore h entry root;
          Done (h, mt, Some entry)
      | callEntry =>
          let '(h, entry) :=
            alloc h (mkNode (e_value elem) (mt !! e_id elem) (e_id elem) None None) in
          '(h, _) ← insertBefore h entry root;
          Done (h, mt, Some entry)
      end
  end.

Definition makeLinkedEntries (entries : list (entry V)) : go (heap V * option loc) :=
  '(h, _, root) ← makeLinkedEntries_loop entries; Done (h, root).

Definition lift h (entry : option loc) : go (heap V) :=
  e ← load h entry;
  h ← set_next h (n_prev e) (n_next e);
  e ← load h entry;
  h ← set_prev h (n_next e) (n_prev e);
  e ← load h entry;
  let mt := n_match e in
  m ← load h mt;
  h ← set_next h (n_prev m) (n_next m);
  m ← load h mt;
  match n_next m with
  | None => Done h
  | Some _ => set_prev h (n_next m) (n_prev m)
  end.

Definition unlift h (entry : option loc) : go (heap V) :=
  e ← load h entry;
  let mt := n_match e in
  m ← load h mt;
  h ← set_next h (n_prev m) mt;
  m ← load h mt;
  h ← match n_next m with
      | None => Done h
      | Some _ => set_prev h (n_next m) mt
      end;
  e ← load h entry;
  h ← set_next h (n_prev e) entry;
  e ← load h entry;
  set_prev h (n_next e) entry.

(** ** Chains

    [chain h p L]: from the node [p], the [next] pointers lead through [L]
    and then to [nil], and the [prev] pointers lead back. *)

Definition next_is h (l : loc) (v : option loc) : Prop := n_next <$> h !! l = Some v.
Definition prev_is h (l : loc) (v : option loc) : Prop := n_prev <$> h !! l = Some v.

Fixpoint chain h (p : loc) (L : list loc) : Prop :=
  match L with
  | [] => next_is h p None
  | l :: L => next_is h p (Some l) ∧ prev_is h l (Some p) ∧ chain h l L
  end.

(** What does not change when nodes are linked and unlinked. *)
Definition static (nd : node V) : V * option loc * Z := (n_value nd, n_match nd, n_id nd).

(** Make [p] and [n] neighbours. *)
Definition link h (p : loc) (n : option loc) : heap V :=
  let h1 := alter (with_next n) p h in
  match n with Some n => alter (with_prev (Some p)) n h1 | None => h1 end.

(** The node before the first of [L] when [p] is before [A ++ L]. *)
Definition last_of (p : loc) (A : list loc) : loc := default p (last A).

Arguments link : simpl never.
Arguments last_of : simpl never.

Lemma last_of_cons p a A : last_of p (a :: A) = last_of a A.
Proof. unfold last_of. rewrite last_cons. by destruct (last A). Qed.

Lemma last_of_elem p A : last_of p A ∈ p :: A.
Proof.
  unfold last_of. destruct (last A) eqn:E; cbn; [|set_solver].
  apply last_Some_elem_of in E. set_solver.
Qed.

Lemma load_Done h l nd : h !! l = Some nd → load h (Some l) = Done nd.
Proof. intros E. cbn. by rewrite E. Qed.

Lemma set_next_Done h l v : is_Some (h !! l) → set_next h (Some l) v = Done (alter (with_next v) l h).
Proof. intros [nd E]. unfold set_next. by rewrite (load_Done _ _ _ E). Qed.

Lemma set_prev_Done h l v : is_Some (h !! l) → set_prev h (Some l) v = Done (alter (with_prev v) l h).
Proof. intros [nd E]. unfold set_prev. by rewrite (load_Done _ _ _ E). Qed.

Lemma lookup_alter_node h f l l' :
  (alter f l h : heap V) !! l' = if decide (l = l') then f <$> h !! l' else h !! l'.
Proof.
  destruct (decide (l = l')) as [->|].
  - apply list_lookup_alter_eq.
  - by apply list_lookup_alter_ne.
Qed.

Lemma link_lookup h p n l :
  link h p n !! l =
    (fun nd => mkNode (n_value nd) (n_match nd) (n_id nd)
       (if decide (l = p) then n else n_next nd)
       (if decide (n = Some l) then Some p else n_prev nd)) <$> h !! l.
Proof.
  unfold link. destruct n as [n|]; rewrite !lookup_alter_node;
    destruct (h !! l) as [[]|]; cbn; repeat (case_decide || cbn); simplify_eq; done.
Qed.

Lemma link_static h p n l : static <$> link h p n !! l = static <$> h !! l.
Proof. rewrite link_lookup. by destruct (h !! l). Qed.

Lemma next_is_link h p n l v :
  l ≠ p → next_is (link h p n) l v ↔ next_is h l v.
Proof.
  intros. unfold next_is. rewrite link_lookup. destruct (h !! l); cbn; [|done].
  by rewrite decide_False.
Qed.

Lemma prev_is_link h p n l v :
  n ≠ Some l → prev_is (link h p n) l v ↔ prev_is h l v.
Proof.
  intros. unfold prev_is. rewrite link_lookup. destruct (h !! l); cbn; [|done].
  by rewrite decide_False.
Qed.

Lemma next_is_link_eq h p n v : next_is h p v → next_is (link h p n) p n.
Proof.
  unfold next_is. rewrite link_lookup. destruct (h !! p); cbn; [|done].
  by rewrite decide_True.
Qed.

Lemma prev_is_link_eq h p n v : prev_is h n v → prev_is (link h p (Some n)) n (Some p).
Proof.
  unfold prev_is. rewrite link_lookup. destruct (h !! n); cbn; [|done].
  by rewrite decide_True.
Qed.

Lemma chain_link_frame h p n a L :
  p ∉ a :: L → (∀ l, n = Some l → l ∉ L) → chain h a L → chain (link h p n) a L.
Proof.
  revert a. induction L as [|b L IH]; intros a Hp Hn; cbn.
  - intros H. apply next_is_link; [set_solver|done].
  - intros (H1 & H2 & H3). split; [apply next_is_link; [set_solver|done]|].
    split; [|apply IH; set_solver].
    apply prev_is_link; [|done]. intros ->. set_solver.
Qed.

Lemma chain_mid h p A x B :
  chain h p (A ++ x :: B) →
  next_is h (last_of p A) (Some x) ∧ prev_is h x (Some (last_of p A)) ∧
  next_is h x (hd_error B) ∧ chain h x B.
Proof.
  revert p. induction A as [|a A IH]; intros p; cbn.
  - intros (? & ? & Hc). repeat split; [done..| |done]. destruct B; cbn in Hc; naive_solver.
  - intros (_ & _ & Hc). rewrite last_of_cons. by apply IH.
Qed.

Lemma chain_prev_hd h x B b : hd_error B = Some b → chain h x B → prev_is h b (Some x).
Proof. destruct B; cbn; [done|]. intros [= ->] (_ & ? & _). done. Qed.

(** Taking the node [x] out of a chain. *)
Lemma chain_unlink h p A x B :
  NoDup (p :: A ++ x :: B) → chain h p (A ++ x :: B) →
  chain (link h (last_of p A) (hd_error B)) p (A ++ B).
Proof.
  revert p. induction A as [|a A IH]; intros p Hnd; cbn.
  - intros (Hp & Hx & Hc). unfold last_of; cbn. apply NoDup_cons in Hnd as [Hni Hnd].
    cbn in Hnd. apply NoDup_cons in Hnd as [Hni' Hnd].
    destruct B as [|b B]; cbn in *.
    + by eapply next_is_link_eq.
    + destruct Hc as (Hxn & Hb & Hc). apply NoDup_cons in Hnd as [Hnb Hnd].
      split; [by eapply next_is_link_eq|]. split; [by eapply prev_is_link_eq|].
      apply chain_link_frame; [set_solver| |done]. by intros ? [= ->].
  - intros (Hp & Ha & Hc). apply NoDup_cons in Hnd as [Hni Hnd]. rewrite last_of_cons.
    split; [|split; [|by apply IH]].
    + apply next_is_link; [|done]. pose proof (last_of_elem a A). set_solver.
    + apply prev_is_link; [|done]. intros E.
      apply NoDup_cons in Hnd as [Hna _]. apply Hna. destruct B; cbn in E; set_solver.
Qed.

(** Putting it back undoes it. *)
Lemma relink_unlink h p x n :
  next_is h p (Some x) → (∀ l, n = Some l → prev_is h l (Some x)) →
  match n with
  | Some l => alter (with_prev (Some x)) l (alter (with_next (Some x)) p (link h p n))
  | None => alter (with_next (Some x)) p (link h p n)
  end = h.
Proof.
  intros Hp Hn. apply list_eq. intros l. destruct n as [n|].
  - specialize (Hn n eq_refl). unfold next_is, prev_is in *.
    rewrite !lookup_alter_node, link_lookup.
    destruct (h !! l) as [[]|] eqn:El; cbn; repeat case_decide; cbn; simplify_eq/=;
      rewrite ?El in *; simplify_eq/=; done.
  - unfold next_is in *. rewrite !lookup_alter_node, link_lookup.
    destruct (h !! l) as [[]|] eqn:El; cbn; repeat case_decide; cbn; simplify_eq/=;
      rewrite ?El in *; simplify_eq/=; done.
Qed.

(** ** [lift] and [unlift] *)

Lemma next_is_Some h l v : next_is h l v → is_Some (h !! l).
Proof. unfold next_is. destruct (h !! l); naive_solver. Qed.

Lemma prev_is_Some h l v : prev_is h l v → is_Some (h !! l).
Proof. unfold prev_is. destruct (h !! l); naive_solver. Qed.

Lemma node_of h l n p :
  next_is h l n → prev_is h l p →
  ∃ nd, h !! l = Some nd ∧ n_next nd = n ∧ n_prev nd = p.
Proof. unfold next_is, prev_is. destruct (h !! l); naive_solver. Qed.

Lemma load_alter_ne h f l l' nd :
  l ≠ l' → h !! l' = Some nd → load (alter f l h) (Some l') = Done nd.
Proof. intros Hne E. apply load_Done. by rewrite lookup_alter_node, decide_False. Qed.

Lemma alter_is_Some h f l l' : is_Some (h !! l') → is_Some ((alter f l h : heap V) !! l').
Proof. intros [nd E]. rewrite lookup_alter_node, E. case_decide; eauto. Qed.

(** The node [e] with neighbours [p] and [n], as [lift] unlinks it. *)
Lemma lift_first h e en p n {B} (k : heap V → node V → go B) :
  h !! e = Some en → n_prev en = Some p → n_next en = Some n →
  p ≠ e → n ≠ e → is_Some (h !! p) → is_Some (h !! n) →
  (en ← load h (Some e);
   h ← set_next h (n_prev en) (n_next en);
   en ← load h (Some e);
   h ← set_prev h (n_next en) (n_prev en);
   en ← load h (Some e);
   k h en) = k (link h p (Some n)) en.
Proof.
  intros He Hp Hn Hpe Hne Hsp Hsn.
  rewrite (load_Done _ _ _ He). go_simpl. rewrite Hp, Hn, set_next_Done by done. go_simpl.
  rewrite (load_alter_ne _ _ _ _ en) by done. go_simpl. rewrite Hp, Hn.
  rewrite set_prev_Done by (by apply alter_is_Some). go_simpl.
  rewrite (load_alter_ne _ _ _ _ en); [done|done|]. by rewrite lookup_alter_node, decide_False.
Qed.

(** The last node of a list has no right neighbour to update. *)
Lemma lift_second h m mn p n :
  h !! m = Some mn → n_prev mn = Some p → n_next mn = n →
  p ≠ m → n ≠ Some m → is_Some (h !! p) → (∀ l, n = Some l → is_Some (h !! l)) →
  (mn ← load h (Some m);
   h ← set_next h (n_prev mn) (n_next mn);
   mn ← load h (Some m);
   match n_next mn with
   | None => Done h
   | Some _ => set_prev h (n_next mn) (n_prev mn)
   end) = Done (link h p n).
Proof.
  intros He Hp Hn Hpe Hne Hsp Hsn.
  rewrite (load_Done _ _ _ He). go_simpl. rewrite Hp, Hn, set_next_Done by done. go_simpl.
  rewrite (load_alter_ne _ _ _ _ mn) by done. go_simpl. rewrite Hp, Hn.
  destruct n as [n|]; [|done].
  rewrite set_prev_Done by (apply alter_is_Some; eauto). done.
Qed.

Lemma chain_hd_Some h x B l : chain h x B → hd_error B = Some l → is_Some (h !! l).
Proof. intros Hc E. eapply prev_is_Some, chain_prev_hd; eauto. Qed.

Lemma link_node h p n l nd :
  l ≠ p → n ≠ Some l → h !! l = Some nd → link h p n !! l = Some nd.
Proof.
  intros Hp Hn E. rewrite link_lookup, E. cbn. rewrite !decide_False by done.
  by destruct nd.
Qed.

(** Restoring one node, as [unlift] does it. *)
Lemma unlift_node h x nd p n {B} (k : heap V → go B) :
  next_is h p (Some x) → (∀ l, n = Some l → prev_is h l (Some x)) →
  p ≠ x → n ≠ Some x →
  h !! x = Some nd → n_prev nd = Some p → n_next nd = n →
  (h ← set_next (link h p n) (n_prev nd) (Some x);
   nd ← load h (Some x);
   h ← match n_next nd with
       | None => Done h
       | Some _ => set_prev h (n_next nd) (Some x)
       end;
   k h) = k h.
Proof.
  intros Hp Hn Hpx Hnx Hx Hxp Hxn. rewrite Hxp.
  pose proof (relink_unlink h p x n Hp Hn) as Hrel.
  assert (is_Some (link h p n !! p)).
  { eapply next_is_Some, next_is_link_eq; eauto. }
  rewrite set_next_Done by done. go_simpl.
  rewrite (load_alter_ne _ _ _ _ nd) by (done || by apply link_node). go_simpl. rewrite Hxn.
  destruct n as [l|]; [|by rewrite Hrel].
  rewrite set_prev_Done; [by rewrite Hrel|].
  apply alter_is_Some. eapply prev_is_Some, prev_is_link_eq. eauto.
Qed.

(** Undoing [lift]: the return node first, then the call node. *)
Lemma unlift_spec h p e en n m mn p2 n2 :
  let h1 := link h p (Some n) in
  h !! e = Some en → n_prev en = Some p → n_next en = Some n → n_match en = Some m →
  next_is h p (Some e) → prev_is h n (Some e) → p ≠ e → n ≠ e →
  h1 !! m = Some mn → n_prev mn = Some p2 → n_next mn = n2 →
  next_is h1 p2 (Some m) → (∀ l, n2 = Some l → prev_is h1 l (Some m)) →
  p2 ≠ m → n2 ≠ Some m → p2 ≠ e → n2 ≠ Some e →
  unlift (link h1 p2 n2) (Some e) = Done h.
Proof.
  intros h1 He Hep Hen Hem Hp Hn Hpe Hne Hm Hmp Hmn Hp2 Hn2 Hp2m Hn2m Hp2e Hn2e.
  assert (h1 !! e = Some en) as He1 by (apply link_node; [done|congruence|done]).
  unfold unlift.
  rewrite (load_Done (link h1 p2 n2) e en) by (by apply link_node).
  go_simpl. rewrite Hem.
  rewrite (load_Done (link h1 p2 n2) m mn) by (by apply link_node).
  go_simpl.
  rewrite (unlift_node h1 m mn p2 n2) by done.
  rewrite (load_Done h1 e en) by done. go_simpl.
  pose proof (unlift_node h e en p (Some n) Done) as Hu. fold h1 in Hu.
  rewrite Hep in Hu |- *. rewrite set_next_Done in Hu |- * by (by eapply next_is_Some, next_is_link_eq).
  go_simpl. go_simpl in Hu.
  rewrite (load_alter_ne _ _ _ _ en) in Hu |- * by done. go_simpl. go_simpl in Hu.
  rewrite Hen in Hu |- *.
  specialize (Hu Hp). rewrite <- Hu; [|by intros ? [= <-]|done|congruence|done..].
  by destruct (set_prev _ _ _).
Qed.

Lemma lift_spec h hd A e B m C :
  NoDup (hd :: A ++ e :: B ++ m :: C) → chain h hd (A ++ e :: B ++ m :: C) →
  n_match <$> h !! e = Some (Some m) →
  ∃ h', lift h (Some e) = Done h' ∧ chain h' hd (A ++ B ++ C) ∧
        unlift h' (Some e) = Done h ∧
        (∀ l, static <$> h' !! l = static <$> h !! l).
Proof.
  intros Hnd Hc Hem.
  destruct (chain_mid _ _ _ _ _ Hc) as (Hp & Hep & Hen & Hce).
  destruct (hd_error (B ++ m :: C)) as [n|] eqn:En; [|by destruct B].
  destruct (node_of _ _ _ _ Hen Hep) as (en & He & Hnext & Hprev).
  rewrite He in Hem. injection Hem as Hem.
  set (p := last_of hd A) in *.
  assert (p ∈ hd :: A) as HpA by apply last_of_elem.
  assert (n ∈ B ++ m :: C) as HnB by (destruct B; cbn in En; set_solver).
  assert (p ≠ e ∧ n ≠ e ∧ e ∉ hd :: A ++ B ++ m :: C) as (Hpe & Hne & Hni).
  { pose proof Hnd as Hnd'. rewrite app_comm_cons in Hnd'.
    apply NoDup_mid in Hnd' as [He1 He2]. split; [|split]; set_solver. }
  pose proof (chain_unlink _ _ _ _ _ Hnd Hc) as Hc1. rewrite En in Hc1. fold p in Hc1.
  set (h1 := link h p (Some n)) in *.
  assert (NoDup (hd :: A ++ B ++ m :: C)) as Hnd1.
  { eapply sublist_NoDup; [exact Hnd|]. apply sublist_skip, sublist_app; [done|].
    by apply sublist_cons. }
  rewrite app_assoc in Hc1, Hnd1.
  destruct (chain_mid _ _ _ _ _ Hc1) as (Hp2 & Hmp & Hmn & Hcm).
  destruct (node_of _ _ _ _ Hmn Hmp) as (mn & Hm & Hmnext & Hmprev).
  set (p2 := last_of hd (A ++ B)) in *.
  assert (p2 ∈ hd :: A ++ B) as Hp2A by apply last_of_elem.
  assert (p2 ≠ m ∧ p2 ≠ e ∧ m ∉ C) as (Hp2m & Hp2e & HmC).
  { pose proof Hnd1 as Hnd'. rewrite app_comm_cons in Hnd'.
    apply NoDup_mid in Hnd' as [Hm1 Hm2]. split; [|split]; set_solver. }
  assert (∀ x, x ∉ C → hd_error C ≠ Some x) as HC
    by (intros x Hx; destruct C; cbn; set_solver).
  pose proof (chain_unlink _ _ _ _ _ Hnd1 Hc1) as Hc2. fold p2 in Hc2.
  exists (link h1 p2 (hd_error C)). split; [|split; [|split]].
  - unfold lift. rewrite (lift_first h e en p n); [|done..|by eapply next_is_Some|].
    2: { by apply (chain_hd_Some h e (B ++ m :: C)). }
    rewrite Hem. fold h1. cbv zeta.
    apply (lift_second h1 m mn p2 (hd_error C)); [done..|by apply HC| |].
    + by eapply next_is_Some.
    + intros l El. by apply (chain_hd_Some h1 m C).
  - by rewrite <- app_assoc in Hc2.
  - eapply (unlift_spec h p e en n m mn); try done.
    + by apply (chain_prev_hd h e (B ++ m :: C)).
    + intros l El. by apply (chain_prev_hd h1 m C).
    + by apply HC.
    + apply HC. set_solver.
  - intros l. unfold h1. by rewrite !link_static.
Qed.

(** ** Building the list *)

(** A list that no node precedes yet. *)
Definition chain0 h (L : list loc) : Prop :=
  match L with [] => True | l :: L => prev_is h l None ∧ chain h l L end.

(** The node of an entry holds its value and id; the node of a call points to
    the node of the matching return. *)
Definition node_for h (P : list (loc * entry V)) (x : loc * entry V) : Prop :=
  ∃ nd, h !! x.1 = Some nd ∧ n_value nd = e_value x.2 ∧ n_id nd = e_id x.2 ∧
    (is_ret x.2 → n_match nd = None) ∧
    (is_call x.2 → ∃ y, y ∈ P ∧ is_ret y.2 ∧ e_id y.2 = e_id x.2 ∧ n_match nd = Some y.1).

Lemma insertBefore_front h n nd L :
  h !! n = Some nd → n_prev nd = None → n_next nd = None →
  NoDup (n :: L) → chain0 h L →
  ∃ h', insertBefore h n (hd_error L) = Done (h', n) ∧ chain h' n L ∧ prev_is h' n None ∧
    length h' = length h ∧ (∀ l, static <$> h' !! l = static <$> h !! l).
Proof.
  intros Hn Hprev Hnext Hnd Hc. destruct L as [|r L].
  { cbn. exists h. unfold next_is, prev_is. rewrite Hn. cbn. rewrite Hprev, Hnext. done. }
  cbn in Hc. destruct Hc as [Hr Hc]. 
  apply NoDup_cons in Hnd as [Hni [HrL _]%NoDup_cons].
  assert (n ≠ r ∧ n ∉ L) as [Hnr HnL] by set_solver.
  unfold prev_is in Hr. destruct (h !! r) as [rn|] eqn:Er; [|done]. injection Hr as Hr.
  unfold insertBefore. cbn [hd_error]. rewrite (load_Done _ _ _ Er). go_simpl.
  rewrite Hr, (set_prev_Done _ r) by eauto. go_simpl.
  rewrite set_next_Done by (apply alter_is_Some; eauto). go_simpl.
  assert (alter (with_next (Some r)) n (alter (with_prev (Some n)) r h) = link h n (Some r)) as ->.
  { apply list_eq. intros l. unfold link. rewrite !lookup_alter_node.
    repeat case_decide; subst; done. }
  exists (link h n (Some r)). split; [done|]. split; [|split; [|split]].
  - split; [|split].
    + eapply next_is_link_eq. unfold next_is. by rewrite Hn.
    + eapply prev_is_link_eq. unfold prev_is. by rewrite Er.
    + apply chain_link_frame; [set_solver| |done]. by intros ? [= <-].
  - apply prev_is_link; [congruence|]. unfold prev_is. rewrite Hn. cbn. by rewrite Hprev.
  - unfold link. by rewrite !length_alter.
  - intros l. apply link_static.
Qed.

Lemma chain_heap_app h nd p L : chain h p L → chain (h ++ [nd]) p L.
Proof.
  assert (∀ l (f : node V → option loc) v, f <$> h !! l = Some v → f <$> (h ++ [nd]) !! l = Some v) as Hf.
  { intros l f v. destruct (h !! l) eqn:E; [|done]. by rewrite (lookup_app_l_Some _ _ _ _ E). }
  revert p. induction L as [|l L IH]; intros p; cbn.
  - apply Hf.
  - intros (? & ? & ?). split; [by apply Hf|]. split; [by apply Hf|]. by apply IH.
Qed.

(** The part of well-formedness that a suffix of a history keeps. *)
Definition wf_suffix (L : list (entry V)) : Prop :=
  NoDup (tag <$> L) ∧
  ∀ A e B, L = A ++ e :: B → is_call e → ∃ e', e' ∈ B ∧ is_ret e' ∧ e_id e' = e_id e.

Lemma wf_suffix_cons e L : wf_suffix (e :: L) → wf_suffix L.
Proof.
  intros [Hnd Hc]. cbn in Hnd. apply NoDup_cons in Hnd as [_ Hnd]. split; [done|].
  intros A x B -> Hx. by eapply (Hc (e :: A)).
Qed.

(** What [makeLinkedEntries_loop] has built for a suffix [L] of the history. *)
Record built L (h : heap V) (mt : gmap Z loc) (root : option loc)
    (P : list (loc * entry V)) : Prop := {
  bu_entries : P.*2 = L;
  bu_NoDup : NoDup P.*1;
  bu_lt : ∀ l, l ∈ P.*1 → (l < length h)%nat;
  bu_root : root = hd_error P.*1;
  bu_chain : chain0 h P.*1;
  bu_nodes : Forall (node_for h P) P;
  bu_match : ∀ i l, mt !! i = Some l → ∃ e, (l, e) ∈ P ∧ is_ret e ∧ e_id e = i;
  bu_match_some : ∀ e, e ∈ L → is_ret e → is_Some (mt !! e_id e);
}.

Lemma node_for_static h h' P P' x :
  static <$> h' !! x.1 = static <$> h !! x.1 → P ⊆ P' → node_for h P x → node_for h' P' x.
Proof.
  intros Hs Hsub (nd & Hl & Hv & Hi & Hr & Hc). rewrite Hl in Hs.
  destruct (h' !! x.1) as [nd'|] eqn:E; [|done]. cbn in Hs. injection Hs as Hs1 Hs2 Hs3.
  exists nd'. rewrite Hs1, Hs2, Hs3. repeat split; try done.
  intros (y & Hy & ?)%Hc. exists y. split; [by apply Hsub|done].
Qed.

(** One iteration, for either kind of entry. *)
Lemma built_cons e L h mt mt' root P nd :
  built L h mt root P →
  nd = mkNode (e_value e) (if decide (is_ret e) then None else mt !! e_id e) (e_id e) None None →
  mt' = (if decide (is_ret e) then <[e_id e := length h]> mt else mt) →
  wf_suffix (e :: L) →
  ∃ h', insertBefore (h ++ [nd]) (length h) root = Done (h', length h) ∧
        built (e :: L) h' mt' (Some (length h)) ((length h, e) :: P).
Proof.
  intros [HL Hnd Hlt -> Hc Hnodes Hm Hms] -> -> Hwf.
  destruct (insertBefore_front (h ++ [mkNode (e_value e)
    (if decide (is_ret e) then None else mt !! e_id e) (e_id e) None None])
    (length h) _ P.*1 (list_lookup_middle _ [] _ _ eq_refl)) as
    (h' & Hins & Hc' & Hp' & Hlen & Hst); [done|done| | |].
  { constructor; [|done]. intros Hin%Hlt. lia. }
  { destruct P.*1; [done|]. destruct Hc as [Hp Hc]. split; [|by apply chain_heap_app].
    unfold prev_is in *. destruct (h !! n) eqn:E; [|done].
    by rewrite (lookup_app_l_Some _ _ _ _ E). }
  exists h'. split; [done|]. rewrite length_app in Hlen. cbn in Hlen.
  split; cbn.
  - by rewrite HL.
  - constructor; [|done]. intros Hin%Hlt. lia.
  - intros l [->|Hl]%elem_of_cons; [lia|]. apply Hlt in Hl. lia.
  - done.
  - done.
  - constructor.
    + pose proof (Hst (length h)) as Hs. rewrite (list_lookup_middle _ [] _ _ eq_refl) in Hs.
      destruct (h' !! length h) as [nd'|] eqn:E; [|done]. cbn in Hs. injection Hs as Hv Hmt Hid.
      exists nd'. cbn. rewrite E, Hv, Hmt, Hid. repeat split.
      * intros Hr. by rewrite decide_True.
      * intros Hcall. rewrite decide_False by (by apply not_call_ret).
        destruct Hwf as [_ Hwf]. destruct (Hwf [] e L eq_refl Hcall) as (r & Hr & Hret & Hrid).
        destruct (Hms r Hr Hret) as [l Hl]. rewrite Hrid in Hl.
        destruct (Hm _ _ Hl) as (r' & Hr' & Hret' & Hrid').
        exists (l, r'). split; [set_solver|done].
    + eapply Forall_impl; [exact Hnodes|]. intros x Hx.
      apply (node_for_static h h' P); [|set_solver|exact Hx].
      destruct Hx as (xn & Hx & _). rewrite Hst. by rewrite (lookup_app_l_Some _ _ _ _ Hx), Hx.
  - intros i l Hi. case_decide as Hr.
    + apply lookup_insert_Some in Hi as [[<- <-]|[_ Hi]]; [exists e; set_solver|].
      apply Hm in Hi as (r & ? & ?). exists r. set_solver.
    + apply Hm in Hi as (r & ? & ?). exists r. set_solver.
  - intros r [->|Hin]%elem_of_cons Hret.
    + rewrite decide_True by done. rewrite lookup_insert_eq. eauto.
    + case_decide; [|by apply Hms]. apply lookup_insert_is_Some'. right. by apply Hms.
Qed.

Lemma makeLinkedEntries_loop_spec L :
  wf_suffix L → ∃ h mt root P, makeLinkedEntries_loop L = Done (h, mt, root) ∧ built L h mt root P.
Proof.
  induction L as [|e L IH]; intros Hwf.
  { exists [], ∅, None, []. split; [done|].
    split; [done|constructor|set_solver|done|done|constructor| |set_solver].
    intros i l Hi. by rewrite lookup_empty in Hi. }
  destruct (IH (wf_suffix_cons _ _ Hwf)) as (h & mt & root & P & E & Hb).
  cbn. rewrite E. go_simpl.
  destruct (built_cons e L h mt _ root P _ Hb eq_refl eq_refl Hwf) as (h' & Hins & Hb').
  destruct (e_kind e) eqn:Ek.
  - rewrite decide_False in Hins by (unfold is_ret; congruence).
    rewrite decide_False in Hb' by (unfold is_ret; congruence).
    cbn [alloc]. rewrite Hins. go_simpl. eauto 10.
  - rewrite decide_True in Hins by done. rewrite decide_True in Hb' by done.
    cbn [alloc]. rewrite Hins. go_simpl. eauto 10.
Qed.

(** ** The length of a list *)

Lemma length_loop_spec h x L fuel k :
  chain h x L → (length L < fuel)%nat →
  length_loop fuel h (hd_error L) k = Done (k + zlen L).
Proof.
  revert x fuel k. induction L as [|l L IH]; intros x fuel k Hc Hf;
    (destruct fuel as [|fuel]; [cbn in Hf; lia|]).
  - cbn. f_equal. unfold zlen. cbn. lia.
  - destruct Hc as (_ & _ & Hc). cbn [hd_error length_loop].
    assert (∃ nd, h !! l = Some nd ∧ n_next nd = hd_error L) as (nd & E & En).
    { destruct L; cbn in Hc; unfold next_is in Hc; destruct (h !! l); naive_solver. }
    rewrite (load_Done _ _ _ E). go_simpl. rewrite En, (IH l); [|done|cbn in Hf; lia].
    f_equal. unfold zlen. cbn. lia.
Qed.

(** Without a node in front, the same holds. *)
Lemma node_length_spec h L :
  chain0 h L → (length L ≤ length h)%nat → node_length h (hd_error L) = Done (zlen L).
Proof.
  unfold node_length. destruct L as [|l L]; intros Hc Hl; [done|].
  destruct Hc as [_ Hc]. cbn [hd_error length_loop].
  assert (∃ nd, h !! l = Some nd ∧ n_next nd = hd_error L) as (nd & E & En).
  { destruct L; cbn in Hc; unfold next_is in Hc; destruct (h !! l); naive_solver. }
  rewrite (load_Done _ _ _ E). go_simpl. rewrite En, (length_loop_spec _ l); [|done|cbn in Hl; lia].
  f_equal. unfold zlen. cbn. lia.
Qed.

End linked.
