(* ===== verification/CheckSingle.v ===== *)
(** * The search loop of the checker ([checkSingle] of
    [labs/src/porcupine/checker.go])

    The whole function, iteration by iteration: the linked list of the
    entries not linearized yet, the bitset of linearized ids, the cache of
    visited configurations, the stack [calls], and the table [longest] of
    partial linearizations (pointers to slices, as indices into [c_seqs]).

    [kill] stands for the shared variable the other goroutines set: [kill k]
    is whether iteration [k] finds it set. *)

From S2P Require Import Prelude Bitset PorcupineModel LinkedEntries.
Local Open Scope Z_scope.

Record cacheEntry (S : Type) := mkCacheEntry {
  ce_linearized : bitset;
  ce_state : S;
}.
Arguments mkCacheEntry {S} _ _.
Arguments ce_linearized {S} _.
Arguments ce_state {S} _.

Record callsEntry (S : Type) := mkCallsEntry {
  ca_entry : option loc;
  ca_state : S;
}.
Arguments mkCallsEntry {S} _ _.
Arguments ca_entry {S} _.
Arguments ca_state {S} _.

(** The variables of the loop. *)
Record cstate (V S : Type) := mkCState {
  c_heap : heap V;
  c_entry : option loc;
  c_linearized : bitset;
  c_cache : gmap Z (list (cacheEntry S));
  c_calls : list (callsEntry S);
  c_state : S;
  c_longest : list (option nat);
  c_seqs : list (list Z);
}.
Arguments mkCState {V S} _ _ _ _ _ _ _ _.
Arguments c_heap {V S} _.
Arguments c_entry {V S} _.
Arguments c_linearized {V S} _.
Arguments c_cache {V S} _.
Arguments c_calls {V S} _.
Arguments c_state {V S} _.
Arguments c_longest {V S} _.
Arguments c_seqs {V S} _.

(** What [checkSingle] returns: the verdict and the table [longest] (with the
    slices it points to). *)
Record verdict := mkVerdict {
  v_ok : bool;
  v_longest : list (option nat);
  v_seqs : list (list Z);
}.

Section check.
Context {V S : Type} `{!Inhabited V}.
Context (model : Model V S) (computePartial : bool).

(** ** The cache *)

Fixpoint cacheContains_loop (entry : cacheEntry S) (elems : list (cacheEntry S)) : go bool :=
  match elems with
  | [] => Done false
  | elem :: elems =>
      if equals (ce_linearized entry) (ce_linearized elem) then
        equal ← fn (Equal model);
        if equal (ce_state entry) (ce_state elem) : bool then Done true
        else cacheContains_loop entry elems
      else cacheContains_loop entry elems
  end.

Definition cacheContains (cache : gmap Z (list (cacheEntry S))) (entry : cacheEntry S) : go bool :=
  cacheContains_loop entry (default [] (cache !! hash (ce_linearized entry))).

(** ** Partial linearizations *)

(** [for i, v := range calls { seq[i] = v.entry.id }] *)
Fixpoint seq_of_calls (h : heap V) (calls : list (callsEntry S)) : go (list Z) :=
  match calls with
  | [] => Done []
  | v :: calls =>
      e ← load h (ca_entry v);
      seq ← seq_of_calls h calls;
      Done (n_id e :: seq)
  end.

(** [longest[i] == nil || callsLen > len( *longest[i] )] *)
Definition improves (longest : list (option nat)) (seqs : list (list Z))
    (i callsLen : Z) : go bool :=
  p ← idx longest i;
  match p with
  | None => Done true
  | Some p => seq ← idx seqs (Z.of_nat p); Done (bool_decide (callsLen > zlen seq))
  end.

(** The loop over [calls]; [seqp] is the variable [seq], created lazily. *)
Fixpoint longest_loop (h : heap V) (all : list (callsEntry S)) (calls : list (callsEntry S))
    (seqp : option nat) (longest : list (option nat)) (seqs : list (list Z))
    : go (list (option nat) * list (list Z)) :=
  match calls with
  | [] => Done (longest, seqs)
  | v :: calls =>
      e ← load h (ca_entry v);
      better ← improves longest seqs (n_id e) (zlen all);
      if better : bool then
        '(p, seqs) ← match seqp with
                     | Some p => Done (p, seqs)
                     | None => seq ← seq_of_calls h all; Done (length seqs, seqs ++ [seq])
                     end;
        longest ← upd longest (n_id e) (Some p);
        longest_loop h all calls (Some p) longest seqs
      else longest_loop h all calls seqp longest seqs
  end.

Definition record_longest (cs : cstate V S) : go (list (option nat) * list (list Z)) :=
  if computePartial
  then longest_loop (c_heap cs) (c_calls cs) (c_calls cs) None (c_longest cs) (c_seqs cs)
  else Done (c_longest cs, c_seqs cs).

(** ** One iteration *)

Definition advance (cs : cstate V S) (next : option loc) : cstate V S :=
  mkCState (c_heap cs) next (c_linearized cs) (c_cache cs) (c_calls cs) (c_state cs)
           (c_longest cs) (c_seqs cs).

(** The current entry is a call: try to linearize it next. *)
Definition try_call (head : loc) (cs : cstate V S) (nd matching : node V)
    : go (cstate V S) :=
  '(ok, newState) ← Step model (c_state cs) (n_value nd) (n_value matching);
  if ok : bool then
    newLinearized ← set (clone (c_linearized cs)) (wrap64 (n_id nd));
    let newCacheEntry := mkCacheEntry newLinearized newState in
    contains ← cacheContains (c_cache cs) newCacheEntry;
    if negb contains then
      let hash := hash newLinearized in
      let cache := <[hash := default [] (c_cache cs !! hash) ++ [newCacheEntry]]> (c_cache cs) in
      let calls := c_calls cs ++ [mkCallsEntry (c_entry cs) (c_state cs)] in
      linearized ← set (c_linearized cs) (wrap64 (n_id nd));
      h ← lift (c_heap cs) (c_entry cs);
      hd ← load h (Some head);
      Done (mkCState h (n_next hd) linearized cache calls newState (c_longest cs) (c_seqs cs))
    else Done (advance cs (n_next nd))
  else Done (advance cs (n_next nd)).

(** The current entry is a return: undo the last linearized call. *)
Definition backtrack (cs : cstate V S) (callsTop : callsEntry S) : go (cstate V S) :=
  '(longest, seqs) ← record_longest cs;
  e ← load (c_heap cs) (ca_entry callsTop);
  linearized ← clear (c_linearized cs) (wrap64 (n_id e));
  let calls := take (length (c_calls cs) - 1) (c_calls cs) in
  h ← unlift (c_heap cs) (ca_entry callsTop);
  e ← load h (ca_entry callsTop);
  Done (mkCState h (n_next e) linearized (c_cache cs) calls (ca_state callsTop) longest seqs).

Definition body (head : loc) (cs : cstate V S) : go (cstate V S + verdict) :=
  nd ← load (c_heap cs) (c_entry cs);
  match n_match nd with
  | Some _ =>
      matching ← load (c_heap cs) (n_match nd);
      cs ← try_call head cs nd matching;
      Done (inl cs)
  | None =>
      match last (c_calls cs) with
      | None => Done (inr (mkVerdict false (c_longest cs) (c_seqs cs)))
      | Some callsTop => cs ← backtrack cs callsTop; Done (inl cs)
      end
  end.

(** After the loop: the complete linearization is [calls]. *)
Definition finish (cs : cstate V S) : go verdict :=
  seq ← seq_of_calls (c_heap cs) (c_calls cs);
  Done (mkVerdict true ((fun _ => Some (length (c_seqs cs))) <$> c_longest cs)
          (c_seqs cs ++ [seq])).

Fixpoint loop (fuel k : nat) (kill : nat → bool) (head : loc) (cs : cstate V S) : go verdict :=
  match fuel with
  | O => Stuck
  | Datatypes.S fuel =>
      hd ← load (c_heap cs) (Some head);
      match n_next hd with
      | None => finish cs
      | Some _ =>
          if kill k then Done (mkVerdict false (c_longest cs) (c_seqs cs))
          else
            r ← body head cs;
            match r with
            | inl cs => loop fuel (Datatypes.S k) kill head cs
            | inr v => Done v
            end
      end
  end.

(** ** The function *)

Definition checkSingle_init (history : list (entry V)) : go (loc * cstate V S) :=
  '(h, entry) ← makeLinkedEntries history;
  len ← node_length h entry;
  let n := len `quot` 2 in
  let linearized := newBitset (wrap64 n) in
  let longest := replicate (Z.to_nat n) None in
  let '(h, hn) := alloc h (mkNode inhabitant None (-1) None None) in
  '(h, headEntry) ← insertBefore h hn entry;
  Done (headEntry, mkCState h entry linearized ∅ [] (Init model) longest []).

Definition checkSingle (fuel : nat) (kill : nat → bool) (history : list (entry V)) : go verdict :=
  '(headEntry, cs) ← checkSingle_init history;
  loop fuel 0 kill headEntry cs.

End check.
