(* ===== verification/CheckSearch.v ===== *)
(** * The search the checker performs, on lists

    [dfs] is the depth-first search of [checkSingle] without pointers,
    bitsets or hash buckets: it scans the entries not linearized yet from the
    front, tries every call it meets, stops at the first return, and never
    enters a configuration (set of linearized operations, state) that the
    cache already holds.

    [dfs_sound] and [dfs_complete] show that the search finds a linearization
    exactly when there is one; [dfs_total] that it ends. *)

From S2P Require Import Prelude PorcupineModel Linearizability.
Local Open Scope Z_scope.

(** A model the cache may be used with: states that [Equal] identifies admit
    the same continuations. *)
Class LawfulModel {V S} (m : Model V S) (eqf : S → S → bool) : Prop := {
  lm_equal : Equal m = Some eqf;
  lm_sim : ∀ s t i o s', eqf s t = true → Step m s i o = Done (true, s') →
    ∃ t', Step m t i o = Done (true, t') ∧ eqf s' t' = true;
}.

Section search.
Context {V S : Type} (m : Model V S) (eqf : S → S → bool) `{!LawfulModel m eqf}.
Implicit Types (h L suf : list (entry V)) (e : entry V) (s t : S) (σ : list Z).

(** [Step] does not panic on the operations of [h]. *)
Definition steps_defined h : Prop :=
  ∀ j i o s, op_values h j i o → ∃ b s', Step m s i o = Done (b, s').

Notation vis := (list (gset nat * S)).
Implicit Types (c : vis) (X : gset nat).

Definition nid e : nat := Z.to_nat (e_id e).

Definition hit c X s : Prop := ∃ t, (X, t) ∈ c ∧ eqf s t = true.

Lemma hit_dec c X s : {hit c X s} + {¬ hit c X s}.
Proof.
  destruct (decide (Exists (fun x => x.1 = X ∧ eqf s x.2 = true) c)) as [H|H]; [left|right].
  - apply Exists_exists in H as ([Y t] & Hin & <- & Heq). by exists t.
  - intros (t & Hin & Heq). apply H, Exists_exists. by exists (X, t).
Qed.

Inductive dfs : list (entry V) → list (entry V) → S → gset nat → vis →
                option (list Z) → vis → Prop :=
| dfs_empty s X c : dfs [] [] s X c (Some []) c
| dfs_ret L e suf s X c : is_ret e → dfs L (e :: suf) s X c None c
| dfs_illegal L e r suf s s' X c res c' :
    is_call e → r ∈ L → is_ret r → e_id r = e_id e →
    Step m s (e_value e) (e_value r) = Done (false, s') →
    dfs L suf s X c res c' →
    dfs L (e :: suf) s X c res c'
| dfs_seen L e r suf s s' X c res c' :
    is_call e → r ∈ L → is_ret r → e_id r = e_id e →
    Step m s (e_value e) (e_value r) = Done (true, s') →
    hit c ({[nid e]} ∪ X) s' →
    dfs L suf s X c res c' →
    dfs L (e :: suf) s X c res c'
| dfs_found L e r suf s s' X c σ c' :
    is_call e → r ∈ L → is_ret r → e_id r = e_id e →
    Step m s (e_value e) (e_value r) = Done (true, s') →
    ¬ hit c ({[nid e]} ∪ X) s' →
    dfs (remove_op (e_id e) L) (remove_op (e_id e) L) s' ({[nid e]} ∪ X)
        (c ++ [({[nid e]} ∪ X, s')]) (Some σ) c' →
    dfs L (e :: suf) s X c (Some (e_id e :: σ)) c'
| dfs_back L e r suf s s' X c c1 res c' :
    is_call e → r ∈ L → is_ret r → e_id r = e_id e →
    Step m s (e_value e) (e_value r) = Done (true, s') →
    ¬ hit c ({[nid e]} ∪ X) s' →
    dfs (remove_op (e_id e) L) (remove_op (e_id e) L) s' ({[nid e]} ∪ X)
        (c ++ [({[nid e]} ∪ X, s')]) None c1 →
    dfs L suf s X c1 res c' →
    dfs L (e :: suf) s X c res c'.

(** ** Soundness *)

Lemma dfs_sound_aux L suf s X c res c' A :
  dfs L suf s X c res c' → L = A ++ suf → Forall is_call A →
  ∀ σ, res = Some σ → lin_path m L s σ.
Proof.
  intros Hd. revert A.
  induction Hd as [s X c|L e suf s X c Hr|L e r suf s s' X c res c' Hc Hr Hret Hid Hs Hd IH
    |L e r suf s s' X c res c' Hc Hr Hret Hid Hs Hhit Hd IH
    |L e r suf s s' X c σ' c' Hc Hr Hret Hid Hs Hhit Hd IH
    |L e r suf s s' X c c1 res c' Hc Hr Hret Hid Hs Hhit Hd1 IH1 Hd IH];
    intros A E HA σ Eσ; simplify_eq.
  - constructor.
  - eapply (IH (A ++ [e])); [by rewrite <- app_assoc|by apply Forall_app_2; auto|done].
  - eapply (IH (A ++ [e])); [by rewrite <- app_assoc|by apply Forall_app_2; auto|done].
  - econstructor; [done..|]. by eapply (IH []).
  - eapply (IH (A ++ [e])); [by rewrite <- app_assoc|by apply Forall_app_2; auto|done].
Qed.

Lemma dfs_sound h s X c σ c' : dfs h h s X c (Some σ) c' → lin_path m h s σ.
Proof. intros Hd. by eapply (dfs_sound_aux _ _ _ _ _ _ _ []). Qed.

(** ** Completeness *)

(** States that [Equal] identifies have the same linearizations. *)
Lemma lin_path_equal L s t σ : eqf s t = true → lin_path m L s σ → lin_path m L t σ.
Proof.
  intros Heq Hp. revert t Heq.
  induction Hp as [s|L A e B r s s' σ -> HA Hc Hr Hret Hid Hstep Hp IH];
    intros t Heq; [constructor|].
  destruct (lm_sim _ _ _ _ _ Heq Hstep) as (t' & Ht & Heq').
  econstructor; [done..|]. by apply IH.
Qed.

Section complete.
Context (h0 : list (entry V)).
Hypothesis Hids : ∀ e, e ∈ h0 → 0 ≤ e_id e.

(** The entries left when [X] has been linearized. *)
Definition rest X : list (entry V) := filter (fun e => nid e ∉ X) h0.

Lemma rest_remove e X :
  e ∈ h0 → remove_op (e_id e) (rest X) = rest ({[nid e]} ∪ X).
Proof.
  intros He. unfold remove_op, rest. rewrite list_filter_filter.
  apply filter_ext_elem. intros x Hx.
  pose proof (Hids _ He). pose proof (Hids _ Hx). unfold nid.
  rewrite not_elem_of_union, not_elem_of_singleton. split; intros [? ?]; split; lia || done.
Qed.

(** Nothing can complete the configuration. *)
Definition dead (x : gset nat * S) : Prop := ∀ σ, ¬ lin_path m (rest x.1) x.2 σ.

(** Every cached configuration is dead, or is one the search is inside of. *)
Definition good c (path : vis) : Prop := ∀ x, x ∈ c → dead x ∨ x ∈ path.

(** No call that the scan of [suf] may pick leads to a linearization. *)
Definition no_candidate L s suf : Prop :=
  ∀ A e B r s', suf = A ++ e :: B → Forall is_call A → is_call e →
    r ∈ L → is_ret r → e_id r = e_id e →
    Step m s (e_value e) (e_value r) = Done (true, s') →
    ∀ σ, ¬ lin_path m (remove_op (e_id e) L) s' σ.

Lemma no_candidate_cons L s e r suf :
  wf_history L → r ∈ L → is_ret r → e_id r = e_id e →
  (∀ s' σ, Step m s (e_value e) (e_value r) = Done (true, s') →
           ¬ lin_path m (remove_op (e_id e) L) s' σ) →
  no_candidate L s suf → no_candidate L s (e :: suf).
Proof.
  intros Hwf Hr Hret Hid Hno Hsuf [|x A] e' B r' s' [= <- ->] HA Hc' Hr' Hret' Hid' Hs σ.
  - assert (r' = r) as -> by (eapply wf_ret_inj; eauto; congruence). by eapply Hno.
  - apply Forall_cons in HA as [_ HA]. by eapply Hsuf.
Qed.

(** When no candidate is left in the whole list, the configuration is dead. *)
Lemma no_candidate_dead L s σ :
  wf_history L → L ≠ [] → no_candidate L s L → ¬ lin_path m L s σ.
Proof.
  intros Hwf Hne Hno Hp. destruct Hp as [s|L A e B r s s' σ -> HA Hc Hr Hret Hid Hs Hp]; [done|].
  by eapply Hno.
Qed.

Lemma dfs_complete_aux L suf s X c res c' :
  dfs L suf s X c res c' →
  ∀ A path, L = rest X → L = A ++ suf → wf_history L → res = None → good c path →
  (∀ Y t, (Y, t) ∈ path → Y ⊆ X) →
  good c' path ∧ no_candidate L s suf.
Proof.
  intros Hd.
  induction Hd as [s X c|L e suf s X c Hr|L e r suf s s' X c res c' Hc Hr Hret Hid Hs Hd IH
    |L e r suf s s' X c res c' Hc Hr Hret Hid Hs Hhit Hd IH
    |L e r suf s s' X c σ' c' Hc Hr Hret Hid Hs Hhit Hd IH
    |L e r suf s s' X c c1 res c' Hc Hr Hret Hid Hs Hhit Hd1 IH1 Hd IH];
    intros A path HL E Hwf Hres Hgood Hpath; [done| |..|done|].
  { split; [done|]. intros [|x A1] e' B1 r s' [= <- ?] HA He';
      [by destruct (not_call_ret e)|].
    apply Forall_cons in HA as [Hx _]. by destruct (not_call_ret e). }
  all: assert (e ∈ L) as HeL by (rewrite E; set_solver).
  all: assert (e ∈ h0 ∧ nid e ∉ X) as [He0 HeX]
    by (rewrite HL in HeL; unfold rest in HeL; apply list_elem_of_filter in HeL; tauto).
  all: assert (L = (A ++ [e]) ++ suf) as E' by (by rewrite <- app_assoc).
  - destruct (IH _ path HL E' Hwf Hres Hgood Hpath) as [Hg Hno]. split; [done|].
    apply (no_candidate_cons L s e r); [done..| |done]. congruence.
  - destruct (IH _ path HL E' Hwf Hres Hgood Hpath) as [Hg Hno]. split; [done|].
    apply (no_candidate_cons L s e r); [done..| |done]. intros s2 σ Hs2 Hp.
    assert (s2 = s') as -> by congruence.
    destruct Hhit as (t & Ht & Heq). destruct (Hgood _ Ht) as [Hdead|Hin%Hpath]; [|set_solver].
    apply (Hdead σ). cbn. rewrite <- rest_remove, <- HL by done. by eapply lin_path_equal.
  - assert (remove_op (e_id e) L = rest ({[nid e]} ∪ X)) as HL1
      by (rewrite HL; by apply rest_remove).
    destruct (IH1 [] (({[nid e]} ∪ X, s') :: path) HL1) as [Hg1 Hno1];
      [done|by apply wf_remove_op|done| | |].
    { intros x [Hx| ->%list_elem_of_singleton]%elem_of_app; [|set_solver].
      apply Hgood in Hx. set_solver. }
    { intros Y t [[= -> ->]|Hin]%elem_of_cons; [done|]. apply Hpath in Hin. set_solver. }
    assert (∀ σ, ¬ lin_path m (remove_op (e_id e) L) s' σ) as Hdead.
    { intros σ. apply no_candidate_dead; [by apply wf_remove_op| |done].
      intros E0. rewrite E0 in Hd1. inversion Hd1. }
    destruct (IH (A ++ [e]) path HL E' Hwf Hres) as [Hg Hno]; [|done|].
    { intros x [Hx|[->|Hx]%elem_of_cons]%Hg1; [by left| |by right].
      left. intros σ. cbn. rewrite <- HL1. apply Hdead. }
    split; [done|]. apply (no_candidate_cons L s e r); [done..| |done].
    intros s2 σ Hs2. assert (s2 = s') as -> by congruence. apply Hdead.
Qed.

Lemma dfs_complete s c' :
  wf_history h0 → dfs h0 h0 s ∅ [] None c' → ∀ σ, ¬ lin_path m h0 s σ.
Proof.
  intros Hwf Hd σ. assert (h0 = rest ∅) as E.
  { unfold rest. rewrite (filter_ext_elem _ (fun _ => True)) by set_solver.
    clear. induction h0 as [|e h IH]; [done|]. rewrite filter_cons_True by done. by f_equal. }
  destruct (dfs_complete_aux _ _ _ _ _ _ _ Hd [] [] E eq_refl Hwf eq_refl) as [_ Hno];
    [set_solver..|].
  apply no_candidate_dead; [done| |done]. intros ->. inversion Hd.
Qed.

End complete.

(** ** The search ends *)

Lemma remove_op_shorter e L : e ∈ L → (length (remove_op (e_id e) L) < length L)%nat.
Proof.
  intros (A & B & ->)%list_elem_of_split. unfold remove_op.
  rewrite filter_app, filter_cons_False by naive_solver.
  rewrite !length_app. cbn.
  pose proof (length_filter (fun x => e_id x ≠ e_id e) A).
  pose proof (length_filter (fun x => e_id x ≠ e_id e) B). lia.
Qed.

Lemma steps_defined_remove j h : steps_defined h → steps_defined (remove_op j h).
Proof.
  intros Hs k i o s (e & e' & He). apply (Hs k). exists e, e'.
  rewrite !elem_of_remove_op in He. naive_solver.
Qed.

Lemma dfs_total_scan n L :
  (∀ L' s X c, (length L' < n)%nat → wf_history L' → steps_defined L' →
     ∃ res c', dfs L' L' s X c res c') →
  (length L ≤ n)%nat → wf_history L → steps_defined L →
  ∀ suf A s X c, L = A ++ suf → (suf = [] → L = []) → ∃ res c', dfs L suf s X c res c'.
Proof.
  intros IHn Hlen Hwf Hsteps suf. induction suf as [|e suf IH]; intros A s X c E Hne.
  { rewrite Hne by done. eexists _, _. constructor. }
  destruct (call_or_ret e) as [Hc|Hr]; [|eexists _, _; by constructor].
  destruct (wf_call _ Hwf A e suf E Hc) as (r & Hr & Hret & Hid).
  assert (e ∈ L ∧ r ∈ L) as [HeL HrL] by (rewrite E; set_solver).
  assert (∀ c, ∃ res c', dfs L suf s X c res c') as Hnext.
  { intros c0. apply (IH (A ++ [e])); [by rewrite <- app_assoc|]. intros ->. set_solver. }
  destruct (Hsteps (e_id e) (e_value e) (e_value r) s) as (b & s' & Hs).
  { exists e, r. done. }
  destruct b; [|destruct (Hnext c) as (res & c' & Hd); eexists _, _; by eapply dfs_illegal].
  destruct (hit_dec c ({[nid e]} ∪ X) s') as [Hh|Hh].
  { destruct (Hnext c) as (res & c' & Hd). eexists _, _. by eapply dfs_seen. }
  destruct (IHn (remove_op (e_id e) L) s' ({[nid e]} ∪ X) (c ++ [({[nid e]} ∪ X, s')]))
    as ([σ|] & c1 & Hd1).
  - pose proof (remove_op_shorter e L HeL). lia.
  - by apply wf_remove_op.
  - by apply steps_defined_remove.
  - eexists _, _. by eapply dfs_found.
  - destruct (Hnext c1) as (res & c' & Hd). eexists _, _. by eapply dfs_back.
Qed.

Lemma dfs_total L s X c :
  wf_history L → steps_defined L → ∃ res c', dfs L L s X c res c'.
Proof.
  remember (length L) as n eqn:En. revert L En s X c.
  induction n as [n IH] using lt_wf_ind; intros L -> s X c Hwf Hs.
  eapply (dfs_total_scan (length L)); [|done..|by rewrite app_nil_l|done].
  intros L' s' X' c0 Hl Hwf' Hs'. by eapply IH.
Qed.

End search.
