(* ===== verification/CheckRefine.v ===== *)
(** * [checkSingle] implements the search on lists

    A simulation from the search [dfs] of [CheckSearch] to the iterations of
    [checkSingle]: the linked list holds the entries left, the bitset the set
    of linearized operations, the hash buckets the visited configurations,
    the stack the path from the root.  Together with the correctness of
    [dfs] it gives the main theorem about the checker. *)

From S2P Require Import Prelude Bitset PorcupineModel Linearizability LinkedEntries CheckSingle.
From S2P Require Import CheckSearch.
Local Open Scope Z_scope.

Section refine.
Context {V S : Type} `{!Inhabited V}.
Context (m : Model V S) (eqf : S → S → bool) `{!LawfulModel m eqf}.
Context (computePartial : bool).
Context (n : nat) (head : loc).
Implicit Types (h : heap V) (P : list (loc * entry V)) (X : gset nat) (s : S).

(** ** The linked list *)

Record linked h P : Prop := {
  lk_NoDup : NoDup (head :: P.*1);
  lk_chain : chain h head P.*1;
  lk_nodes : Forall (node_for h P) P;
}.

Definition drop_op (j : Z) P : list (loc * entry V) := filter (fun x => e_id x.2 ≠ j) P.

Lemma drop_op_entries j P : (drop_op j P).*2 = remove_op j P.*2.
Proof.
  unfold drop_op, remove_op. induction P as [|x P IH]; [done|].
  rewrite fmap_cons, !filter_cons. repeat case_decide; cbn; congruence.
Qed.

Lemma drop_op_pair PA x PB y PC :
  NoDup (tag <$> (PA ++ x :: PB ++ y :: PC).*2) → is_call x.2 → is_ret y.2 →
  e_id y.2 = e_id x.2 →
  drop_op (e_id x.2) (PA ++ x :: PB ++ y :: PC) = PA ++ PB ++ PC.
Proof.
  intros Hnd Hx Hy Hid.
  assert (∀ z, z ∈ PA ++ PB ++ PC → e_id z.2 ≠ e_id x.2) as Hne.
  { intros z Hz Ez. rewrite <- list_fmap_compose in Hnd.
    rewrite !fmap_app, !fmap_cons, fmap_app, fmap_cons in Hnd.
    pose proof (NoDup_mid _ _ _ Hnd) as [Hx1 Hx2].
    rewrite app_comm_cons, app_assoc in Hnd. pose proof (NoDup_mid _ _ _ Hnd) as [Hy1 Hy2].
    assert ((tag ∘ snd) z ∈ (tag ∘ snd) <$> PA ++ PB ++ PC) as Hin by (by apply list_elem_of_fmap_2).
    rewrite !fmap_app in Hin.
    assert ((tag ∘ snd) z = (tag ∘ snd) x ∨ (tag ∘ snd) z = (tag ∘ snd) y) as [E|E].
    { cbn. destruct (call_or_ret z.2); [left; by apply tag_eq_call|right; apply tag_eq_ret; congruence]. }
    all: apply not_elem_of_app in Hx2 as [Hx2 [_ Hx3]%not_elem_of_cons].
    all: apply not_elem_of_app in Hy1 as [Hy1 [_ Hy3]%not_elem_of_cons].
    all: rewrite E, !elem_of_app in Hin; tauto. }
  unfold drop_op. rewrite filter_app, filter_cons_False by naive_solver.
  rewrite filter_app, filter_cons_False by naive_solver.
  rewrite <- !filter_app. clear -Hne. induction (PA ++ PB ++ PC) as [|z l IH]; [done|].
  rewrite filter_cons_True by set_solver. rewrite IH by set_solver. done.
Qed.

(** [lift] at a call takes the operation out of the list; [unlift] undoes it. *)
Lemma lift_linked h PA l e PB :
  linked h (PA ++ (l, e) :: PB) → wf_history (PA ++ (l, e) :: PB).*2 → is_call e →
  ∃ h', lift h (Some l) = Done h' ∧ linked h' (drop_op (e_id e) (PA ++ (l, e) :: PB)) ∧
    unlift h' (Some l) = Done h ∧ (∀ k, static <$> h' !! k = static <$> h !! k).
Proof.
  intros [Hnd Hch Hnodes] Hwf Hc.
  pose proof Hnodes as Hn. rewrite Forall_app, Forall_cons in Hn.
  destruct Hn as (_ & (nd & Hl & _ & _ & _ & Hm) & _).
  destruct (Hm Hc) as ([l' r] & Hin & Hret & Hid & Hmatch). clear Hm. cbn in *.
  assert ((l', r) ∈ PB) as HinB.
  { destruct (wf_call _ Hwf PA.*2 e PB.*2) as (r2 & Hr2 & Hret2 & Hid2);
      [by rewrite fmap_app|done|].
    apply elem_of_app in Hin as [Hin|[[= -> ->]|Hin]%elem_of_cons];
      [|by destruct (not_call_ret e)|done].
    exfalso. pose proof (wf_nodup _ Hwf) as Ht. rewrite !fmap_app, fmap_cons in Ht.
    apply NoDup_app in Ht as (_ & Ht & _). apply (Ht (tag r)).
    - apply list_elem_of_fmap_2. by apply (list_elem_of_fmap_2 snd _ (l', r)).
    - right. assert (tag r = tag r2) as -> by (apply tag_eq_ret; congruence).
      by apply list_elem_of_fmap_2. }
  apply list_elem_of_split in HinB as (PB1 & PC & ->).
  pose proof (drop_op_pair PA (l, e) PB1 (l', r) PC (wf_nodup _ Hwf) Hc Hret Hid) as Ed.
  cbn [snd] in Ed.
  rewrite fmap_app, fmap_cons, fmap_app, fmap_cons in Hnd, Hch.
  destruct (lift_spec _ _ _ _ _ _ _ Hnd Hch) as (h' & Hlift & Hch' & Hun & Hst).
  { cbn. rewrite Hl. cbn. by rewrite Hmatch. }
  exists h'. split; [done|]. split; [|done].
  split.
  - rewrite Ed, !fmap_app. eapply sublist_NoDup; [exact Hnd|].
    apply sublist_skip, sublist_app; [done|]. apply sublist_cons, sublist_app; [done|].
    by apply sublist_cons.
  - by rewrite Ed, !fmap_app.
  - apply Forall_forall. intros x Hx.
    pose proof (proj1 (Forall_forall _ _) Hnodes x) as Hx0.
    apply list_elem_of_filter in Hx as [Hxj Hx].
    destruct (Hx0 Hx) as (xn & Hxl & Hv & Hi & Hr & Hcm).
    pose proof (Hst x.1) as Hs. rewrite Hxl in Hs.
    destruct (h' !! x.1) as [xn'|] eqn:Ex; [|done]. cbn in Hs. injection Hs as Hs1 Hs2 Hs3.
    exists xn'. rewrite Hs1, Hs2, Hs3. repeat split; try done.
    intros (y & Hy & Hyr & Hyi & Hym)%Hcm. exists y. split; [|done].
    apply list_elem_of_filter. by rewrite Hyi.
Qed.

(** ** The cache *)

Record cache_rel (cache : gmap Z (list (cacheEntry S))) (c : list (gset nat * S)) : Prop := {
  cr_in : ∀ X s b, (X, s) ∈ c → repr n b X →
    mkCacheEntry b s ∈ default [] (cache !! hash b);
  cr_out : ∀ k ce, ce ∈ default [] (cache !! k) →
    ∃ X, repr n (ce_linearized ce) X ∧ (X, ce_state ce) ∈ c;
}.

Lemma cache_rel_empty : cache_rel ∅ [].
Proof.
  split; [by intros X s b ?%not_elem_of_nil|].
  intros k ce Hce. rewrite lookup_empty in Hce. by apply not_elem_of_nil in Hce.
Qed.

Lemma cache_rel_insert cache c b X s :
  cache_rel cache c → repr n b X →
  cache_rel (<[hash b := default [] (cache !! hash b) ++ [mkCacheEntry b s]]> cache) (c ++ [(X, s)]).
Proof.
  intros [Hin Hout] Hb. split.
  - intros X' s' b' [Hx|[= -> ->]%list_elem_of_singleton]%elem_of_app Hb'.
    + destruct (decide (hash b = hash b')) as [E|E].
      * rewrite <- E, lookup_insert_eq. cbn. apply elem_of_app. left. rewrite E. by eapply Hin.
      * rewrite lookup_insert_ne by done. by eapply Hin.
    + rewrite (repr_ext n b' b X) by done. rewrite lookup_insert_eq. cbn. set_solver.
  - intros k ce. destruct (decide (hash b = k)) as [<-|E].
    + rewrite lookup_insert_eq. cbn.
      intros [Hx| ->%list_elem_of_singleton]%elem_of_app; [|exists X; set_solver].
      apply Hout in Hx as (Y & ? & ?). exists Y. set_solver.
    + rewrite lookup_insert_ne by done. intros (Y & ? & ?)%Hout. exists Y. set_solver.
Qed.

Lemma cacheContains_loop_spec ce elems :
  ∃ b, cacheContains_loop m ce elems = Done b ∧
    (b = true ↔ ∃ x, x ∈ elems ∧ ce_linearized x = ce_linearized ce ∧
                     eqf (ce_state ce) (ce_state x) = true).
Proof.
  induction elems as [|x elems (b & IH & Hb)]; cbn [cacheContains_loop].
  { exists false. split; [done|]. set_solver. }
  destruct (equals _ _) eqn:E.
  - apply equals_spec in E. rewrite lm_equal. cbn [fn]. go_simpl.
    destruct (eqf (ce_state ce) (ce_state x)) eqn:Eq.
    + exists true. split; [done|]. split; [|done]. intros _. exists x. set_solver.
    + exists b. split; [done|]. rewrite Hb. setoid_rewrite elem_of_cons. naive_solver congruence.
  - exists b. split; [done|]. rewrite Hb. setoid_rewrite elem_of_cons.
    assert (ce_linearized ce ≠ ce_linearized x) as Hne.
    { intros E'. rewrite <- equals_spec in E'. congruence. }
    naive_solver congruence.
Qed.

Lemma cacheContains_spec cache c b X s :
  cache_rel cache c → repr n b X →
  ∃ r, cacheContains m cache (mkCacheEntry b s) = Done r ∧ (r = true ↔ hit eqf c X s).
Proof.
  intros [Hin Hout] Hb. unfold cacheContains.
  destruct (cacheContains_loop_spec (mkCacheEntry b s) (default [] (cache !! hash b)))
    as (r & Hr & Hiff). cbn in *.
  exists r. split; [done|]. rewrite Hiff. split.
  - intros (x & Hx & E & Heq). exists (ce_state x). split; [|done].
    apply Hout in Hx as (Y & HY & Hc). rewrite E in HY. by rewrite (repr_inj n b X Y).
  - intros (t & Ht & Heq). exists (mkCacheEntry b t). split; [by eapply Hin|done].
Qed.

(** ** Partial linearizations *)

(** From the whole history [hist] in the initial state, linearizing [τ] leaves
    the entries [L] in state [s]. *)
Inductive reaches (hist : list (entry V)) : list Z → list (entry V) → S → Prop :=
| reaches_nil : reaches hist [] hist (Init m)
| reaches_snoc τ L A e B r s s' :
    reaches hist τ L s → L = A ++ e :: B → Forall is_call A → is_call e →
    r ∈ L → is_ret r → e_id r = e_id e →
    Step m s (e_value e) (e_value r) = Done (true, s') →
    reaches hist (τ ++ [e_id e]) (remove_op (e_id e) L) s'.

Definition partial (hist : list (entry V)) (τ : list Z) : Prop := ∃ L s, reaches hist τ L s.

(** The ids of the entries on the stack. *)
Definition calls_ids h (calls : list (callsEntry S)) (τ : list Z) : Prop :=
  Forall2 (fun ca j => ∃ l nd, ca_entry ca = Some l ∧ h !! l = Some nd ∧ n_id nd = j) calls τ.

Lemma calls_ids_static h h' calls τ :
  (∀ k, static <$> h' !! k = static <$> h !! k) → calls_ids h calls τ → calls_ids h' calls τ.
Proof.
  intros Hst Hc. eapply Forall2_impl; [exact Hc|]. intros ca j (l & nd & E & Hl & Hj).
  specialize (Hst l). rewrite Hl in Hst. destruct (h' !! l) as [nd'|] eqn:E'; [|done].
  cbn in Hst. injection Hst as _ _ Hid. exists l, nd'. naive_solver congruence.
Qed.

Lemma seq_of_calls_spec h calls τ : calls_ids h calls τ → seq_of_calls h calls = Done τ.
Proof.
  induction 1 as [|ca j calls τ (l & nd & E & Hl & Hj) _ IH]; [done|]. cbn [seq_of_calls].
  rewrite E, (load_Done _ _ _ Hl). go_simpl. rewrite IH. go_simpl. by rewrite Hj.
Qed.

(** Every slice in the table is a partial linearization of [hist], and the one
    for operation [i] contains [i]. *)
Record longest_ok (hist : list (entry V)) (lg : list (option nat)) (sq : list (list Z)) : Prop := {
  lo_length : length lg = n;
  lo_elem : ∀ i p, lg !! i = Some (Some p) → ∃ σ, sq !! p = Some σ ∧ Z.of_nat i ∈ σ;
  lo_partial : Forall (partial hist) sq;
}.

Lemma longest_loop_spec (hist : list (entry V)) h all τ :
  calls_ids h all τ → partial hist τ → (∀ j, j ∈ τ → 0 ≤ j < Z.of_nat n) →
  ∀ calls τ' seqp lg sq,
  calls_ids h calls τ' → τ' ⊆ τ → longest_ok hist lg sq →
  (∀ p, seqp = Some p → sq !! p = Some τ) →
  ∃ lg' sq', longest_loop h all calls seqp lg sq = Done (lg', sq') ∧ longest_ok hist lg' sq'.
Proof.
  intros Hall Hpart Hrange calls.
  induction calls as [|v calls IH]; intros τ' seqp lg sq Hids Hsub Hok Hp; cbn [longest_loop].
  { eauto. }
  apply Forall2_cons_inv_l in Hids as (j & τ1 & (l & nd & E & Hl & Hj) & Hids & ->).
  rewrite E, (load_Done _ _ _ Hl). go_simpl. rewrite Hj.
  assert (0 ≤ j < Z.of_nat n) as Hjn by (apply Hrange; set_solver).
  destruct (idx_in_range lg j) as (o & Ho & Hlo); [unfold zlen; rewrite (lo_length _ _ _ Hok); lia|].
  assert (∃ b, improves lg sq j (zlen all) = Done b) as [b Hb].
  { unfold improves. rewrite Ho. go_simpl. destruct o as [p|]; [|eauto].
    destruct (lo_elem _ _ _ Hok _ _ Hlo) as (σ & Hσ & _). rewrite (idx_nat _ _ _ Hσ). go_simpl. eauto. }
  rewrite Hb. go_simpl. destruct b; [|eapply IH; eauto; set_solver].
  assert (∃ p sq1, match seqp with
     | Some p => Done (p, sq)
     | None => seq ← seq_of_calls h all; Done (length sq, sq ++ [seq])
     end = Done (p, sq1) ∧ sq1 !! p = Some τ ∧ longest_ok hist lg sq1) as (p & sq1 & Hm & Hp1 & Hok1).
  { destruct seqp as [p|]; [eauto 10|].
    rewrite (seq_of_calls_spec h all τ Hall). go_simpl. eexists _, _. split; [done|].
    split; [by apply list_lookup_middle|]. destruct Hok as [H1 H2 H3]. split; [done| |].
    - intros i p Hi. destruct (H2 i p Hi) as (σ & Hσ & ?). exists σ.
      split; [by apply lookup_app_l_Some|done].
    - apply Forall_app_2; [done|]. by apply Forall_singleton. }
  rewrite Hm. go_simpl.
  rewrite upd_in_range by (unfold zlen; rewrite (lo_length _ _ _ Hok); lia). go_simpl.
  eapply (IH τ1); [done|set_solver| |by intros ? [= <-]].
  destruct Hok1 as [H1 H2 H3]. split; [by rewrite length_insert| |done].
  intros i q. rewrite list_lookup_insert. case_decide as Hi; [|apply H2].
  intros [= <-]. exists τ. split; [done|]. destruct Hi as [<- _].
  rewrite Z2Nat.id by lia. set_solver.
Qed.

(** ** The simulation *)

Context (hist : list (entry V)).
Hypothesis Hids : ∀ e, e ∈ hist → 0 ≤ e_id e < Z.of_nat n.
Hypothesis Hn : Z.of_nat n < two64.

Lemma reaches_elem τ L s :
  reaches hist τ L s → L ⊆ hist ∧ ∀ j, j ∈ τ → ∃ e, e ∈ hist ∧ e_id e = j.
Proof.
  induction 1 as [|τ L A e B r s s' _ [IHL IHτ] -> HA Hc Hr Hret Hid Hs]; [set_solver|]. split.
  - intros x [Hx _]%elem_of_remove_op. by apply IHL.
  - intros j [Hj| ->%list_elem_of_singleton]%elem_of_app; [by apply IHτ|].
    exists e. split; [apply IHL|]; set_solver.
Qed.

Lemma reaches_range τ L s j : reaches hist τ L s → j ∈ τ → 0 ≤ j < Z.of_nat n.
Proof. intros [_ Hτ]%reaches_elem (e & He & <-)%Hτ. by apply Hids. Qed.

(** The loop is at the front of [suf], the entries left are [PA ++ suf]. *)
Record sim (cs : cstate V S) PA suf s X c calls τ : Prop := {
  sm_linked : linked (c_heap cs) (PA ++ suf);
  sm_wf : wf_history (PA ++ suf).*2;
  sm_entry : c_entry cs = hd_error suf.*1;
  sm_bits : repr n (c_linearized cs) X;
  sm_fresh : ∀ e, e ∈ (PA ++ suf).*2 → nid e ∉ X;
  sm_cache : cache_rel (c_cache cs) c;
  sm_calls : c_calls cs = calls;
  sm_state : c_state cs = s;
  sm_ids : calls_ids (c_heap cs) calls τ;
  sm_reach : reaches hist τ (PA ++ suf).*2 s;
  sm_longest : longest_ok hist (c_longest cs) (c_seqs cs);
}.

(** One iteration that does not leave the loop. *)
Definition istep (cs cs' : cstate V S) : Prop :=
  (∃ hd l, load (c_heap cs) (Some head) = Done hd ∧ n_next hd = Some l) ∧
  body m computePartial head cs = Done (inl cs').

Lemma linked_head h P : linked h P →
  ∃ hd, load h (Some head) = Done hd ∧ n_next hd = hd_error P.*1.
Proof.
  intros [_ Hc _]. destruct P.*1 as [|l L]; cbn [chain] in Hc.
  - unfold next_is in Hc. destruct (h !! head) eqn:E; [|done]. exists n0.
    split; [by apply load_Done|]. cbn in *. congruence.
  - destruct Hc as [Hc _]. unfold next_is in Hc. destruct (h !! head) eqn:E; [|done]. exists n0.
    split; [by apply load_Done|]. cbn in *. congruence.
Qed.

Lemma wrap_id e : e ∈ hist → wrap64 (e_id e) = Z.of_nat (nid e).
Proof. intros He%Hids. unfold nid. rewrite wrap64_id, Z2Nat.id; lia. Qed.

Lemma sim_elem cs PA l e suf s X c calls τ :
  sim cs PA ((l, e) :: suf) s X c calls τ → e ∈ hist ∧ (nid e < n)%nat ∧ nid e ∉ X.
Proof.
  intros Hs. assert (e ∈ (PA ++ (l, e) :: suf).*2) as He by (rewrite fmap_app; set_solver).
  assert (e ∈ hist) as Heh by (apply (reaches_elem _ _ _ (sm_reach _ _ _ _ _ _ _ _ Hs)); done).
  split; [done|]. split; [|by eapply (sm_fresh _ _ _ _ _ _ _ _ Hs)].
  apply Hids in Heh. unfold nid. lia.
Qed.

(** What the loop reads at an entry. *)
Lemma sim_node cs PA l e suf s X c calls τ :
  sim cs PA ((l, e) :: suf) s X c calls τ →
  ∃ nd, c_entry cs = Some l ∧ c_heap cs !! l = Some nd ∧
    n_value nd = e_value e ∧ n_id nd = e_id e ∧ n_next nd = hd_error suf.*1 ∧
    (is_ret e → n_match nd = None) ∧
    (is_call e → ∀ r, r ∈ (PA ++ (l, e) :: suf).*2 → is_ret r → e_id r = e_id e →
      ∃ lr ndr, n_match nd = Some lr ∧ c_heap cs !! lr = Some ndr ∧ n_value ndr = e_value r).
Proof.
  intros Hs. destruct (sm_linked _ _ _ _ _ _ _ _ Hs) as [Hnd Hch Hnodes].
  pose proof (proj1 (Forall_forall _ _) Hnodes (l, e) ltac:(set_solver))
    as (nd & Hl & Hv & Hid & Hret & Hcall). cbn in *.
  rewrite fmap_app, fmap_cons in Hch. destruct (chain_mid _ _ _ _ _ Hch) as (_ & _ & Hnx & _).
  exists nd. split; [apply (sm_entry _ _ _ _ _ _ _ _ Hs)|]. repeat split; try done.
  - unfold next_is in Hnx. cbn in Hnx. rewrite Hl in Hnx. by injection Hnx.
  - intros Hc r Hr Hrr Hri. destruct (Hcall Hc) as ([lr r'] & Hy & Hyr & Hyi & Hym). cbn in *.
    pose proof (proj1 (Forall_forall _ _) Hnodes (lr, r') Hy) as (ndr & Hlr & Hvr & _). cbn in *.
    exists lr, ndr. split; [done|]. split; [done|].
    rewrite Hvr. f_equal. eapply wf_ret_inj; [apply (sm_wf _ _ _ _ _ _ _ _ Hs)| |done..|congruence].
    by apply (list_elem_of_fmap_2 snd _ (lr, r')).
Qed.

Lemma sim_istep cs PA l e suf s X c calls τ cs' :
  sim cs PA ((l, e) :: suf) s X c calls τ →
  body m computePartial head cs = Done (inl cs') → istep cs cs'.
Proof.
  intros Hs Hb. split; [|done]. destruct (linked_head _ _ (sm_linked _ _ _ _ _ _ _ _ Hs)) as (hd & ? & E).
  rewrite fmap_app in E. destruct PA.*1 as [|x ?]; cbn in E; eauto.
Qed.

(** The call is skipped: the loop goes on with the next entry. *)
Lemma sim_advance cs PA l e suf s X c calls τ :
  sim cs PA ((l, e) :: suf) s X c calls τ →
  sim (advance cs (hd_error suf.*1)) (PA ++ [(l, e)]) suf s X c calls τ.
Proof. intros []. split; rewrite <- ?app_assoc; done. Qed.

Lemma body_call cs PA l e r suf s X c calls τ :
  sim cs PA ((l, e) :: suf) s X c calls τ → is_call e →
  r ∈ (PA ++ (l, e) :: suf).*2 → is_ret r → e_id r = e_id e →
  ∃ nd ndr, n_value nd = e_value e ∧ n_id nd = e_id e ∧ n_next nd = hd_error suf.*1 ∧
    n_value ndr = e_value r ∧
    body m computePartial head cs = (cs' ← try_call m head cs nd ndr; Done (inl cs')).
Proof.
  intros Hs Hc Hr Hret Hid.
  destruct (sim_node _ _ _ _ _ _ _ _ _ _ Hs) as (nd & He & Hl & Hv & Hi & Hnx & _ & Hcall).
  destruct (Hcall Hc r Hr Hret Hid) as (lr & ndr & Hm & Hlr & Hvr).
  exists nd, ndr. repeat (split; [done|]). unfold body.
  rewrite He, (load_Done _ _ _ Hl). go_simpl. rewrite Hm, (load_Done _ _ _ Hlr). done.
Qed.

Lemma sim_skip_illegal cs PA l e r suf s s' X c calls τ :
  sim cs PA ((l, e) :: suf) s X c calls τ → is_call e →
  r ∈ (PA ++ (l, e) :: suf).*2 → is_ret r → e_id r = e_id e →
  Step m s (e_value e) (e_value r) = Done (false, s') →
  istep cs (advance cs (hd_error suf.*1)).
Proof.
  intros Hs Hc Hr Hret Hid Hstep.
  destruct (body_call _ _ _ _ _ _ _ _ _ _ _ Hs Hc Hr Hret Hid) as (nd & ndr & Hv & Hi & Hnx & Hvr & Hb).
  eapply sim_istep; [done|]. rewrite Hb. unfold try_call.
  rewrite (sm_state _ _ _ _ _ _ _ _ Hs), Hv, Hvr, Hstep. go_simpl. by rewrite Hnx.
Qed.

Lemma sim_skip_seen cs PA l e r suf s s' X c calls τ :
  sim cs PA ((l, e) :: suf) s X c calls τ → is_call e →
  r ∈ (PA ++ (l, e) :: suf).*2 → is_ret r → e_id r = e_id e →
  Step m s (e_value e) (e_value r) = Done (true, s') →
  hit eqf c ({[nid e]} ∪ X) s' →
  istep cs (advance cs (hd_error suf.*1)).
Proof.
  intros Hs Hc Hr Hret Hid Hstep Hhit.
  destruct (body_call _ _ _ _ _ _ _ _ _ _ _ Hs Hc Hr Hret Hid) as (nd & ndr & Hv & Hi & Hnx & Hvr & Hb).
  destruct (sim_elem _ _ _ _ _ _ _ _ _ _ Hs) as (Heh & Hen & HeX).
  eapply sim_istep; [done|]. rewrite Hb. unfold try_call.
  rewrite (sm_state _ _ _ _ _ _ _ _ Hs), Hv, Hvr, Hstep. go_simpl.
  rewrite Hi, wrap_id by done. unfold clone.
  destruct (repr_set _ _ _ (sm_bits _ _ _ _ _ _ _ _ Hs) (nid e) Hen) as (b' & Hb' & Hr').
  rewrite Hb'. go_simpl.
  destruct (cacheContains_spec _ _ _ _ s' (sm_cache _ _ _ _ _ _ _ _ Hs) Hr') as (q & Hq & Hqi).
  rewrite Hq. go_simpl. rewrite (proj2 Hqi Hhit). cbn. by rewrite Hnx.
Qed.

(** The call is linearized next. *)
Lemma sim_push cs PA l e r suf s s' X c calls τ :
  sim cs PA ((l, e) :: suf) s X c calls τ → Forall is_call PA.*2 → is_call e →
  r ∈ (PA ++ (l, e) :: suf).*2 → is_ret r → e_id r = e_id e →
  Step m s (e_value e) (e_value r) = Done (true, s') →
  ¬ hit eqf c ({[nid e]} ∪ X) s' →
  ∃ cs', istep cs cs' ∧
    sim cs' [] (drop_op (e_id e) (PA ++ (l, e) :: suf)) s' ({[nid e]} ∪ X)
      (c ++ [({[nid e]} ∪ X, s')]) (calls ++ [mkCallsEntry (Some l) s]) (τ ++ [e_id e]) ∧
    unlift (c_heap cs') (Some l) = Done (c_heap cs).
Proof.
  intros Hs HPA Hc Hr Hret Hid Hstep Hhit.
  destruct (body_call _ _ _ _ _ _ _ _ _ _ _ Hs Hc Hr Hret Hid) as (nd & ndr & Hv & Hi & Hnx & Hvr & Hb).
  destruct (sim_elem _ _ _ _ _ _ _ _ _ _ Hs) as (Heh & Hen & HeX).
  destruct (sim_node _ _ _ _ _ _ _ _ _ _ Hs) as (nd0 & Hent & Hl & _ & Hi0 & _ & _ & _).
  destruct (repr_set _ _ _ (sm_bits _ _ _ _ _ _ _ _ Hs) (nid e) Hen) as (b' & Hb' & Hr').
  destruct (cacheContains_spec _ _ _ _ s' (sm_cache _ _ _ _ _ _ _ _ Hs) Hr') as (q & Hq & Hqi).
  assert (q = false) as -> by (destruct q; [by destruct Hhit; apply Hqi|done]).
  destruct (lift_linked _ _ _ _ _ (sm_linked _ _ _ _ _ _ _ _ Hs) (sm_wf _ _ _ _ _ _ _ _ Hs) Hc)
    as (h' & Hlift & Hlk & Hun & Hst).
  destruct (linked_head _ _ Hlk) as (hd & Hhd & Hhdn).
  eexists (mkCState h' _ b' _ _ s' _ _). split; [|split; [split; cbn [c_heap c_entry c_linearized
    c_cache c_calls c_state c_longest c_seqs]|exact Hun]].
  - eapply sim_istep; [done|]. rewrite Hb. unfold try_call.
    rewrite (sm_state _ _ _ _ _ _ _ _ Hs), Hv, Hvr, Hstep. go_simpl.
    rewrite Hi, wrap_id by done. unfold clone. rewrite Hb'. go_simpl. rewrite Hq. go_simpl.
    cbn [negb]. rewrite Hent, Hlift. go_simpl. rewrite Hhd. go_simpl. reflexivity.
  - done.
  - cbn [app]. rewrite drop_op_entries. apply wf_remove_op, Hs.
  - done.
  - done.
  - cbn [app]. rewrite drop_op_entries. intros x [Hx Hxi]%elem_of_remove_op.
    assert (x ∈ hist) as Hxh by (by apply (reaches_elem _ _ _ (sm_reach _ _ _ _ _ _ _ _ Hs))).
    pose proof (sm_fresh _ _ _ _ _ _ _ _ Hs x Hx). apply Hids in Hxh, Heh.
    assert (nid x ≠ nid e) by (unfold nid; lia). set_solver.
  - apply cache_rel_insert; [apply Hs|done].
  - by rewrite (sm_calls _ _ _ _ _ _ _ _ Hs).
  - done.
  - apply Forall2_app; [eapply calls_ids_static; [done|apply Hs]|].
    constructor; [|constructor]. cbn. specialize (Hst l). rewrite Hl in Hst.
    destruct (h' !! l) as [nd'|] eqn:E; [|done]. cbn in Hst. injection Hst as _ _ Hid'.
    exists l, nd'. rewrite Hid', Hi0. done.
  - cbn [app]. rewrite drop_op_entries.
    eapply (reaches_snoc _ _ _ PA.*2 e suf.*2); [apply Hs|by rewrite fmap_app|done..].
  - apply Hs.
Qed.

(** A return entry: the last linearized call is undone. *)
Lemma sim_pop cs PA l e suf s X c calls τ cs2 PA2 l2 e2 suf2 s2 c2 :
  sim cs PA ((l, e) :: suf) s X c calls τ → is_call e →
  sim cs2 PA2 ((l2, e2) :: suf2) s2 ({[nid e]} ∪ X) c2
    (calls ++ [mkCallsEntry (Some l) s]) (τ ++ [e_id e]) → is_ret e2 →
  unlift (c_heap cs2) (Some l) = Done (c_heap cs) →
  ∃ cs3, istep cs2 cs3 ∧ sim cs3 (PA ++ [(l, e)]) suf s X c2 calls τ ∧ c_heap cs3 = c_heap cs.
Proof.
  intros Hs Hc Hs2 Hret Hun.
  destruct (sim_elem _ _ _ _ _ _ _ _ _ _ Hs) as (Heh & Hen & HeX).
  destruct (sim_node _ _ _ _ _ _ _ _ _ _ Hs) as (nd & _ & Hl & _ & _ & Hnx & _ & _).
  destruct (sim_node _ _ _ _ _ _ _ _ _ _ Hs2) as (nd2 & Hent2 & Hl2 & _ & _ & _ & Hm2 & _).
  destruct (repr_clear _ _ _ (sm_bits _ _ _ _ _ _ _ _ Hs2) (nid e) Hen) as (b' & Hb' & Hr').
  assert (({[nid e]} ∪ X) ∖ {[nid e]} = X) as EX by set_solver. rewrite EX in Hr'.
  pose proof (sm_ids _ _ _ _ _ _ _ _ Hs2) as Hcids.
  assert (∃ lg sq, record_longest computePartial cs2 = Done (lg, sq) ∧ longest_ok hist lg sq)
    as (lg & sq & Hlong & Hlok).
  { unfold record_longest. destruct computePartial; [|eexists _, _; split; [done|apply Hs2]].
    rewrite (sm_calls _ _ _ _ _ _ _ _ Hs2).
    eapply longest_loop_spec; [exact Hcids|eexists _, _; apply Hs2| |exact Hcids|done|apply Hs2|done].
    intros j. by apply (reaches_range _ _ _ _ (sm_reach _ _ _ _ _ _ _ _ Hs2)). }
  apply Forall2_app_inv in Hcids as [_ Hcids].
  2: { apply (Forall2_length _ _ _ (sm_ids _ _ _ _ _ _ _ _ Hs)). }
  apply Forall2_cons in Hcids as [(l' & ndl & [= <-] & Hll & Hidl) _].
  eexists (mkCState (c_heap cs) _ b' (c_cache cs2) calls s lg sq). split; [|split; [|done]].
  - eapply sim_istep; [exact Hs2|]. unfold body.
    rewrite Hent2, (load_Done _ _ _ Hl2). go_simpl. rewrite (Hm2 Hret).
    rewrite (sm_calls _ _ _ _ _ _ _ _ Hs2), last_snoc. unfold backtrack.
    rewrite Hlong. go_simpl. cbn [ca_entry ca_state]. rewrite (load_Done _ _ _ Hll). go_simpl.
    rewrite Hidl, wrap_id by done. rewrite Hb'. go_simpl.
    rewrite Hun. go_simpl. rewrite (load_Done _ _ _ Hl). go_simpl.
    rewrite (sm_calls _ _ _ _ _ _ _ _ Hs2), length_app. cbn [length].
    rewrite Nat.add_sub, take_app_length. rewrite Hnx. reflexivity.
  - destruct Hs. split; rewrite <- ?app_assoc; cbn [c_heap c_entry c_linearized
    c_cache c_calls c_state c_longest c_seqs]; try done. apply Hs2.
Qed.

(** The whole search. *)
Lemma sim_dfs L sufL s X c res c' :
  dfs m eqf L sufL s X c res c' →
  ∀ cs PA suf calls τ,
  L = (PA ++ suf).*2 → sufL = suf.*2 → Forall is_call PA.*2 → sim cs PA suf s X c calls τ →
  match res with
  | None => ∃ cs' PA' l e suf', rtc istep cs cs' ∧ PA' ++ (l, e) :: suf' = PA ++ suf ∧
      is_ret e ∧ sim cs' PA' ((l, e) :: suf') s X c' calls τ ∧ c_heap cs' = c_heap cs
  | Some σ => ∃ cs', rtc istep cs cs' ∧ next_is (c_heap cs') head None ∧
      calls_ids (c_heap cs') (c_calls cs') (τ ++ σ) ∧ partial hist (τ ++ σ) ∧
      longest_ok hist (c_longest cs') (c_seqs cs')
  end.
Proof.
  intros Hd.
  induction Hd as [s X c|L e sufL s X c Hr|L e r sufL s s' X c res c' Hc Hr Hret Hid Hst Hd IH
    |L e r sufL s s' X c res c' Hc Hr Hret Hid Hst Hhit Hd IH
    |L e r sufL s s' X c σ' c' Hc Hr Hret Hid Hst Hhit Hd IH
    |L e r sufL s s' X c c1 res c' Hc Hr Hret Hid Hst Hhit Hd1 IH1 Hd IH];
    intros cs PA suf calls τ HL Hsuf HPA Hs.
  { exists cs. assert (PA = [] ∧ suf = []) as [-> ->] by (by destruct PA, suf).
    split; [done|]. split; [apply Hs|]. rewrite app_nil_r.
    rewrite (sm_calls _ _ _ _ _ _ _ _ Hs). split; [apply Hs|]. split; [eexists _, _; apply Hs|apply Hs]. }
  all: destruct suf as [|[l e'] suf]; [done|]; injection Hsuf as <- ->.
  { exists cs, PA, l, e, suf. done. }
  all: assert (L = ((PA ++ [(l, e)]) ++ suf).*2) as HL' by (by rewrite <- app_assoc).
  all: assert (Forall is_call (PA ++ [(l, e)]).*2) as HPA'
    by (rewrite fmap_app; apply Forall_app_2; [done|by constructor]).
  all: rewrite HL in Hr.
  all: assert (remove_op (e_id e) L = (drop_op (e_id e) (PA ++ (l, e) :: suf)).*2) as HLd
    by (by rewrite drop_op_entries, HL).
  - specialize (IH _ _ _ _ _ HL' eq_refl HPA' (sim_advance _ _ _ _ _ _ _ _ _ _ Hs)).
    eapply sim_skip_illegal in Hst; [|done..].
    destruct res; [destruct IH as (cs' & ? & ?); exists cs'; split; [by eapply rtc_l|done]|].
    destruct IH as (cs' & PA' & l' & e' & suf' & ? & E & ?). exists cs', PA', l', e', suf'.
    split; [by eapply rtc_l|]. by rewrite E, <- app_assoc.
  - specialize (IH _ _ _ _ _ HL' eq_refl HPA' (sim_advance _ _ _ _ _ _ _ _ _ _ Hs)).
    eapply sim_skip_seen in Hhit; [|done..].
    destruct res; [destruct IH as (cs' & ? & ?); exists cs'; split; [by eapply rtc_l|done]|].
    destruct IH as (cs' & PA' & l' & e' & suf' & ? & E & ?). exists cs', PA', l', e', suf'.
    split; [by eapply rtc_l|]. by rewrite E, <- app_assoc.
  - destruct (sim_push _ _ _ _ _ _ _ _ _ _ _ _ Hs HPA Hc Hr Hret Hid Hst Hhit) as (cs1 & Hstep & Hs1 & _).
    destruct (IH _ [] _ _ _ HLd HLd (Forall_nil_2 _) Hs1) as (cs' & Hrtc & Hnx & Hci & Hp & Hlo).
    rewrite <- app_assoc in Hci, Hp. exists cs'. split; [by eapply rtc_l|done].
  - destruct (sim_push _ _ _ _ _ _ _ _ _ _ _ _ Hs HPA Hc Hr Hret Hid Hst Hhit) as (cs1 & Hstep & Hs1 & Hun).
    destruct (IH1 _ [] _ _ _ HLd HLd (Forall_nil_2 _) Hs1)
      as (cs2 & PA2 & l2 & e2 & suf2 & Hrtc & E & Hret2 & Hs2 & Hheap).
    rewrite <- Hheap in Hun.
    destruct (sim_pop _ _ _ _ _ _ _ _ _ _ _ _ _ _ _ _ _ Hs Hc Hs2 Hret2 Hun) as (cs3 & Hstep3 & Hs3 & Hheap3).
    specialize (IH _ _ _ _ _ HL' eq_refl HPA' Hs3).
    destruct res.
    + destruct IH as (cs' & ? & ?). exists cs'. split; [|done].
      eapply rtc_l; [done|]. etrans; [done|]. by eapply rtc_l.
    + destruct IH as (cs' & PA' & l' & e' & suf' & ? & E' & ? & ? & Hh). exists cs', PA', l', e', suf'.
      split; [eapply rtc_l; [done|]; etrans; [done|]; by eapply rtc_l|].
      rewrite E', <- app_assoc. rewrite Hheap3 in Hh. done.
Qed.

End refine.
