(* ===== verification/CheckerCorrect.v ===== *)
(** * Correctness of [checkSingle]

    For a well-formed history and a model whose [Step] and [Equal] are usable,
    the checker terminates without panicking and answers [true] exactly when
    the history is linearizable; killing it can only make it answer [false];
    and every partial linearization it reports is genuine. *)

From S2P Require Import Prelude Bitset PorcupineModel Linearizability LinkedEntries CheckSingle.
From S2P Require Import CheckSearch CheckRefine.
Local Open Scope Z_scope.

(** Histories the checker is made for: every operation is called and returns
    once, in this order, and the ids number the operations from 0. *)
Record checkable {V} (h : list (entry V)) : Prop := {
  ck_wf : wf_history h;
  ck_ids : ∀ e, e ∈ h → 0 ≤ e_id e < Z.of_nat (length h / 2);
  ck_size : zlen h < two64;
}.

(** Nobody sets the shared variable [kill]. *)
Definition not_killed : nat → bool := fun _ => false.

Section correct.
Context {V S : Type} `{!Inhabited V}.
Context (m : Model V S) (eqf : S → S → bool) `{!LawfulModel m eqf}.
Context (computePartial : bool).
Implicit Types (h : list (entry V)) (cs : cstate V S).

Notation loop := (loop m computePartial).
Notation checkSingle := (checkSingle m computePartial).

(** ** Fuel and the kill flag *)

Lemma loop_not_killed_shift fuel k k' head cs :
  loop fuel k not_killed head cs = loop fuel k' not_killed head cs.
Proof.
  revert k k' cs. induction fuel as [|fuel IH]; intros k k' cs; [done|]. cbn.
  destruct (c_heap cs !! head); [|done]. cbn. destruct (n_next n); [|done].
  destruct (body _ _ _ _) as [[cs'|v]| |]; cbn; [apply IH|done..].
Qed.

Lemma loop_mono fuel fuel' k kill head cs v :
  (fuel ≤ fuel')%nat → loop fuel k kill head cs = Done v → loop fuel' k kill head cs = Done v.
Proof.
  revert fuel' k cs. induction fuel as [|fuel IH]; intros fuel' k cs Hle; [done|].
  destruct fuel' as [|fuel']; [lia|]. cbn.
  destruct (c_heap cs !! head); [|done]. cbn. destruct (n_next n); [|done].
  destruct (kill k); [done|].
  destruct (body _ _ _ _) as [[cs'|v']| |]; cbn; [|done..]. apply IH. lia.
Qed.

Lemma checkSingle_mono fuel fuel' kill h v :
  (fuel ≤ fuel')%nat → checkSingle fuel kill h = Done v → checkSingle fuel' kill h = Done v.
Proof.
  intros Hle. unfold CheckSingle.checkSingle.
  destruct (checkSingle_init m h) as [[hd cs]| |]; cbn; [|done..]. by apply loop_mono.
Qed.

Lemma checkSingle_det fuel fuel' kill h v v' :
  checkSingle fuel kill h = Done v → checkSingle fuel' kill h = Done v' → v = v'.
Proof.
  intros H1 H2. destruct (Nat.le_ge_cases fuel fuel').
  - eapply checkSingle_mono in H1; [|done]. congruence.
  - eapply checkSingle_mono in H2; [|done]. congruence.
Qed.

Lemma loop_killed fuel k kill head cs v :
  loop fuel k kill head cs = Done v → v_ok v = true → loop fuel k not_killed head cs = Done v.
Proof.
  revert k cs. induction fuel as [|fuel IH]; intros k cs; [done|]. cbn.
  destruct (c_heap cs !! head); [|done]. cbn. destruct (n_next n); [|done].
  destruct (kill k); [by intros [= <-]|].
  destruct (body _ _ _ _) as [[cs'|v']| |]; cbn; [apply IH|done..].
Qed.

(** ** From iterations to the loop *)

Lemma loop_rtc head cs cs' fuel k v :
  rtc (istep m computePartial head) cs cs' → loop fuel k not_killed head cs' = Done v →
  ∃ fuel', loop fuel' k not_killed head cs = Done v.
Proof.
  intros Hr. revert k fuel. induction Hr as [cs|cs cs1 cs' [(hd & l & Hhd & Hnx) Hb] Hr IH];
    intros k fuel Hl; [by exists fuel|].
  destruct (IH k fuel Hl) as [fuel' Hf]. exists (Datatypes.S fuel'). cbn [CheckSingle.loop].
  rewrite Hhd. go_simpl. rewrite Hnx. unfold not_killed at 1. rewrite Hb. go_simpl.
  by rewrite (loop_not_killed_shift _ _ k).
Qed.

(** ** The start of the function *)

Lemma wf_history_suffix h : wf_history h → wf_suffix h.
Proof. intros []. by split. Qed.

Lemma checkSingle_init_spec h :
  checkable h →
  ∃ head cs P, checkSingle_init m h = Done (head, cs) ∧ P.*2 = h ∧
    sim m (length h / 2) head h cs [] P (Init m) ∅ [] [] [].
Proof.
  intros [Hwf Hids Hsz].
  destruct (makeLinkedEntries_loop_spec h (wf_history_suffix _ Hwf)) as (hp & mt & root & P & E & Hb).
  destruct Hb as [HP Hnd Hlt -> Hch Hnodes _ _].
  assert (length P.*1 = length h) as HlenP by (rewrite <- HP; by rewrite !length_fmap).
  assert (length P.*1 ≤ length hp)%nat as Hle.
  { transitivity (length (seq 0 (length hp))); [|by rewrite length_seq].
    apply submseteq_length, NoDup_submseteq; [done|].
    intros l Hl%Hlt. apply elem_of_seq. lia. }
  assert (makeLinkedEntries h = Done (hp, hd_error P.*1)) as Hmk
    by (unfold makeLinkedEntries; by rewrite E).
  set (nd := mkNode (inhabitant : V) None (-1) None None).
  destruct (insertBefore_front (hp ++ [nd]) (length hp) nd P.*1
    (list_lookup_middle _ [] _ _ eq_refl)) as (h' & Hins & Hc' & _ & _ & Hst); [done|done| | |].
  { constructor; [|done]. intros Hin%Hlt. lia. }
  { destruct P.*1; [done|]. destruct Hch as [Hp Hch]. split; [|by apply chain_heap_app].
    unfold prev_is in *. destruct (hp !! n) eqn:En; [|done].
    by rewrite (lookup_app_l_Some _ _ _ _ En). }
  assert (zlen P.*1 `quot` 2 = Z.of_nat (length h / 2)) as Hq.
  { unfold zlen. rewrite HlenP, Z.quot_div_nonneg by lia. by rewrite Nat2Z.inj_div. }
  assert (Z.of_nat (length h / 2) < two64) as Hn.
  { unfold zlen in Hsz. pose proof (Nat.Div0.div_le_upper_bound (length h) 2 (length h)). lia. }
  eexists (length hp), _, P. split; [|split; [exact HP|]].
  - unfold checkSingle_init. rewrite Hmk. go_simpl. rewrite node_length_spec by done. go_simpl.
    cbn [alloc]. unfold nd in Hins. rewrite Hins. go_simpl. reflexivity.
  - assert (∀ x, x ∈ P → node_for h' P x) as Hnf.
    { intros x Hx. pose proof (proj1 (Forall_forall _ _) Hnodes x Hx) as Hnx.
      eapply (node_for_static hp); [|done|exact Hnx].
      destruct Hnx as (xn & Hl & _). rewrite Hst. by rewrite (lookup_app_l_Some _ _ _ _ Hl), Hl. }
    rewrite Hq, wrap64_id by lia. split; cbn [c_heap c_entry c_linearized
      c_cache c_calls c_state c_longest c_seqs app]; try done.
    + split; [|done|by apply Forall_forall]. constructor; [|done]. intros Hin%Hlt. lia.
    + by rewrite HP.
    + apply repr_new.
    + apply cache_rel_empty.
    + constructor.
    + rewrite HP. constructor.
    + split; [by rewrite length_replicate, Nat2Z.id| |constructor].
      intros i p Hi. by apply lookup_replicate in Hi as [? _].
Qed.

(** The slices that the table [longest] of a verdict leads to are not empty,
    and complete if the verdict is positive. *)
Definition reported (h : list (entry V)) (v : verdict) : Prop :=
  ∀ i p, v_longest v !! i = Some (Some p) →
    ∃ τ, v_seqs v !! p = Some τ ∧ τ ≠ [] ∧ (v_ok v = true → τ ≡ₚ calls_of h).

(** The two ways the loop ends. *)
Lemma checkSingle_run h :
  checkable h → steps_defined m h →
  ∃ fuel v res c', dfs m eqf h h (Init m) ∅ [] res c' ∧
    checkSingle fuel not_killed h = Done v ∧ v_ok v = bool_decide (is_Some res) ∧
    Forall (partial m h) (v_seqs v) ∧
    reported h v.
Proof.
  intros Hck Hsd. pose proof Hck as [Hwf Hids Hsz].
  destruct (checkSingle_init_spec h Hck) as (head & cs & P & Hinit & HP & Hs).
  destruct (dfs_total m eqf h (Init m) ∅ [] Hwf Hsd) as (res & c' & Hd).
  assert (Z.of_nat (length h / 2) < two64) as Hn.
  { unfold zlen in Hsz. pose proof (Nat.Div0.div_le_upper_bound (length h) 2 (length h)). lia. }
  pose proof (sim_dfs m eqf computePartial _ head h Hids Hn _ _ _ _ _ _ _ Hd cs [] P [] []
    (eq_sym HP) (eq_sym HP) (Forall_nil_2 _) Hs) as Hsim.
  unfold CheckSingle.checkSingle. rewrite Hinit. go_simpl. destruct res as [σ|].
  - destruct Hsim as (cs' & Hrtc & Hnx & Hci & Hpart & Hlo). cbn [app] in *.
    assert (∃ v, loop 1 0 not_killed head cs' = Done v ∧ v_ok v = true ∧
      Forall (partial m h) (v_seqs v) ∧
      reported h v)
      as (v & Hv & Hok & Hp & Hlg).
    { cbn [CheckSingle.loop]. unfold next_is in Hnx.
      destruct (c_heap cs' !! head) as [hd|] eqn:Ehd; [|done]. injection Hnx as Hnx.
      rewrite (load_Done _ _ _ Ehd). go_simpl. rewrite Hnx. unfold finish.
      rewrite (seq_of_calls_spec _ _ _ Hci). go_simpl. eexists. split; [done|]. split; [done|].
      cbn. split; [apply Forall_app_2; [apply Hlo|by apply Forall_singleton]|].
      unfold reported. cbn [v_longest v_seqs v_ok].
      intros i p (o & Ho & Hi)%list_lookup_fmap_Some. injection Ho as ->.
      rewrite list_lookup_middle by done. exists σ. split; [done|]. apply dfs_sound in Hd.
      split; [|intros _; by eapply lin_path_linearization]. intros ->. apply lookup_lt_Some in Hi. rewrite (lo_length _ _ _ _ _ Hlo) in Hi.
      assert (h = []) as Eh by (by inversion Hd). rewrite Eh in Hi. cbn in Hi. lia. }
    destruct (loop_rtc _ _ _ _ _ _ Hrtc Hv) as [fuel Hf].
    exists fuel, v, (Some σ), c'. by rewrite bool_decide_eq_true_2.
  - destruct Hsim as (cs' & PA & l & e & suf & Hrtc & E & Hret & Hs' & _).
    assert (∃ v, loop 1 0 not_killed head cs' = Done v ∧ v_ok v = false ∧
      Forall (partial m h) (v_seqs v) ∧
      reported h v)
      as (v & Hv & Hok & Hp & Hlg).
    { cbn [CheckSingle.loop].
      destruct (linked_head _ _ _ (sm_linked _ _ _ _ _ _ _ _ _ _ _ _ Hs')) as (hd & Hhd & Hnx).
      rewrite Hhd. go_simpl.
      assert (∃ x, n_next hd = Some x) as [x ->] by (rewrite Hnx, fmap_app; destruct PA.*1; cbn; eauto).
      unfold not_killed at 1. unfold body.
      destruct (sim_node m eqf _ _ _ Hids Hn _ _ _ _ _ _ _ _ _ _ Hs')
        as (nd & Hent & Hl & _ & _ & _ & Hm & _).
      rewrite Hent, (load_Done _ _ _ Hl). go_simpl. rewrite (Hm Hret).
      rewrite (sm_calls _ _ _ _ _ _ _ _ _ _ _ _ Hs'). cbn [last]. go_simpl.
      eexists. split; [done|]. split; [done|]. cbn.
      destruct (sm_longest _ _ _ _ _ _ _ _ _ _ _ _ Hs') as [_ Hel Hpa]. split; [done|].
      unfold reported. cbn [v_longest v_seqs v_ok].
      intros i p (σ & -> & Hiσ)%Hel. exists σ. split; [done|]. split; [|done].
      intros ->. by apply not_elem_of_nil in Hiσ. }
    destruct (loop_rtc _ _ _ _ _ _ Hrtc Hv) as [fuel Hf].
    exists fuel, v, None, c'. rewrite bool_decide_eq_false_2 by (by intros []). done.
Qed.

(** ** Partial linearizations *)

(** [τ] is a linearization of a part of [h]: operations of [h], without
    repetition, accepted by the model in this order, in real-time order, and
    together with every operation that had to come before them. *)
Record partial_linearization h (τ : list Z) : Prop := {
  pl_NoDup : NoDup τ;
  pl_calls : ∀ i, i ∈ τ → i ∈ calls_of h;
  pl_legal : legal m h (Init m) τ;
  pl_respects : respects h τ;
  pl_closed : ∀ i j, i ∈ τ → j ∈ calls_of h → precedes h j i → j ∈ τ;
}.

Lemma legal_snoc h s τ j s1 i o s2 :
  (∀ σ, legal m h s (τ ++ σ) ↔ legal m h s1 σ) → op_values h j i o →
  Step m s1 i o = Done (true, s2) → wf_history h →
  ∀ σ, legal m h s ((τ ++ [j]) ++ σ) ↔ legal m h s2 σ.
Proof.
  intros Hl Hov Hst Hwf σ. rewrite <- app_assoc, Hl. cbn [app]. split.
  - inversion 1 as [|? s2' ? i' o' ? Hov' Hst' Hleg]; simplify_eq.
    destruct (op_values_unique _ _ _ _ _ _ Hwf Hov Hov') as [<- <-]. by assert (s2' = s2) as -> by congruence.
  - intros Hleg. by econstructor.
Qed.

(** What has been linearized and what is left. *)
Record progress h (τ : list Z) (L : list (entry V)) (s : S) : Prop := {
  pr_rest : L = filter (fun e => e_id e ∉ τ) h;
  pr_NoDup : NoDup τ;
  pr_calls : ∀ i, i ∈ τ → i ∈ calls_of h;
  pr_legal : ∀ σ, legal m h (Init m) (τ ++ σ) ↔ legal m h s σ;
  pr_respects : respects h τ;
  pr_after : ∀ i r, i ∈ τ → r ∈ L → is_ret r → ¬ precedes h (e_id r) i;
}.

Lemma respects_snoc h (τ : list Z) j :
  respects h τ → (∀ i, i ∈ τ → ¬ precedes h j i) → respects h (τ ++ [j]).
Proof.
  induction τ as [|i τ IH]; cbn [app]; intros Hr Hj.
  - apply respects_cons. split; [set_solver|]. intros [|? ?] ????; done.
  - apply respects_cons in Hr as [Hi Hr]. apply respects_cons. split; [set_solver|].
    apply IH; [done|set_solver].
Qed.

Lemma precedes_left h (τ : list Z) j i A e B :
  wf_history h → filter (fun x => e_id x ∉ τ) h = A ++ e :: B → is_call e → e_id e = i →
  j ∉ τ → precedes h j i → ∃ r, r ∈ A ∧ is_ret r.
Proof.
  intros Hwf E Hc <- Hj (A' & r & B' & c & Eh & Hr & <- & Hcin & Hcc & Hcid).
  pose proof (filter_app_cons_inv _ _ _ _ _ E) as (A0 & B0 & Eh0 & <- & <- & He).
  assert (c ∈ h) by (rewrite Eh; set_solver). assert (e ∈ h) by (rewrite Eh0; set_solver).
  assert (c = e) as -> by (by eapply wf_call_inj).
  exists r. split; [|done]. apply list_elem_of_filter. split; [done|].
  eapply NoDup_decomp_before; [rewrite <- Eh0; by eapply NoDup_fmap_1, Hwf| |exact Hcin].
  by rewrite <- Eh0.
Qed.

Lemma reaches_progress h τ L s : wf_history h → reaches m h τ L s → progress h τ L s.
Proof.
  intros Hwf. induction 1 as [|τ L A e B r s s' _ [HL Hnd Hca Hleg Hre Haf] E HA Hc Hr Hret Hid Hst].
  { split; [|constructor|set_solver|done| |set_solver].
    - rewrite (filter_ext_elem _ (fun _ => True)) by set_solver.
      clear. induction h as [|e h IH]; [done|]. rewrite filter_cons_True by done. by f_equal.
    - intros [|? ?] ????; done. }
  assert (e ∈ L) as HeL by (rewrite E; set_solver).
  assert (∀ x, x ∈ L → x ∈ h ∧ e_id x ∉ τ) as HLh.
  { intros x Hx. rewrite HL in Hx. apply list_elem_of_filter in Hx. tauto. }
  destruct (HLh e HeL) as [Heh Heτ].
  assert (∀ x, x ∈ L → is_ret x → ¬ precedes h (e_id x) (e_id e)) as Hnp.
  { intros x Hx Hxr Hp. rewrite HL in E. destruct (HLh x Hx) as [_ Hxτ].
    destruct (precedes_left _ _ _ _ _ _ _ Hwf E Hc eq_refl Hxτ Hp) as (y & Hy & Hyr).
    rewrite Forall_forall in HA. by eapply not_call_ret; [apply HA|]. }
  split.
  - rewrite HL. unfold remove_op. rewrite list_filter_filter. apply filter_ext_elem.
    intros x Hx. set_solver.
  - apply NoDup_app. split; [done|]. split; [set_solver|]. apply NoDup_singleton.
  - intros i [Hi| ->%list_elem_of_singleton]%elem_of_app; [by apply Hca|].
    apply elem_of_calls_of. eauto.
  - eapply legal_snoc; [exact Hleg| |exact Hst|done].
    exists e, r. repeat split; try done. by apply HLh.
  - apply respects_snoc; [done|]. intros i Hi.
    rewrite <- Hid. by apply Haf.
  - intros i x [Hi| ->%list_elem_of_singleton]%elem_of_app [Hx _]%elem_of_remove_op Hxr;
      [by apply Haf|by apply Hnp].
Qed.

Lemma partial_declarative h τ :
  wf_history h → partial m h τ → partial_linearization h τ.
Proof.
  intros Hwf (L & s & [HL Hnd Hca Hleg Hre Haf]%reaches_progress); [|done].
  split; [done..| |done|].
  - specialize (Hleg []). rewrite app_nil_r in Hleg. apply Hleg. constructor.
  - intros i j Hi Hj Hp. destruct (decide (j ∈ τ)) as [|Hjτ]; [done|exfalso].
    pose proof Hp as (A & r & B & c & Eh & Hr & <- & _).
    eapply (Haf i r); [done| |done|done]. rewrite HL. apply list_elem_of_filter. set_solver.
Qed.

(** ** The verdict *)

Lemma checkSingle_verdict h :
  checkable h → steps_defined m h →
  ∃ fuel v, checkSingle fuel not_killed h = Done v ∧ (v_ok v = true ↔ linearizable m h) ∧
    Forall (partial m h) (v_seqs v) ∧
    reported h v.
Proof.
  intros Hck Hsd. pose proof Hck as [Hwf Hids Hsz].
  destruct (checkSingle_run h Hck Hsd) as (fuel & v & res & c' & Hd & Hrun & Hok & Hp).
  exists fuel, v. split; [done|]. split; [|done].
  rewrite Hok, bool_decide_eq_true, linearizable_lin_path by done.
  destruct res as [σ|].
  - split; [|by eauto]. intros _. exists σ. by eapply dfs_sound.
  - split; [by intros []|]. intros [σ Hσ]. exfalso. revert Hσ.
    apply (dfs_complete m eqf h (fun e He => proj1 (Hids e He)) (Init m) c' Hwf Hd).
Qed.

(** ** Main theorems *)

(** C1: on a well-formed history whose operations the model can judge,
    [checkSingle], not killed, returns (enough fuel exists, no panic), and its
    verdict is [true] exactly when the history is linearizable. *)
Theorem checkSingle_correct h :
  checkable h → steps_defined m h →
  ∃ fuel v, checkSingle fuel not_killed h = Done v ∧ (v_ok v = true ↔ linearizable m h).
Proof.
  intros Hck Hsd. destruct (checkSingle_verdict h Hck Hsd) as (fuel & v & ? & ? & _). eauto.
Qed.

(** C2: whatever the other goroutines do to the kill flag, and whatever the
    fuel, a verdict [true] of [checkSingle] means that the history is
    linearizable. *)
Theorem checkSingle_killed_sound h fuel kill v :
  checkable h → steps_defined m h →
  checkSingle fuel kill h = Done v → v_ok v = true → linearizable m h.
Proof.
  intros Hck Hsd Hrun Hok.
  destruct (checkSingle_verdict h Hck Hsd) as (fuel' & v' & Hrun' & Hlin & _).
  apply Hlin. assert (checkSingle fuel not_killed h = Done v) as Hrun1.
  { revert Hrun. unfold CheckSingle.checkSingle.
    destruct (checkSingle_init m h) as [[hd cs]| |]; cbn; [|done..].
    intros Hl. by apply loop_killed in Hl. }
  assert (v' = v) as -> by (by eapply checkSingle_det). done.
Qed.

Lemma checkSingle_longest h fuel v i p :
  checkable h → steps_defined m h →
  checkSingle fuel not_killed h = Done v → v_longest v !! i = Some (Some p) →
  ∃ τ, v_seqs v !! p = Some τ ∧ partial_linearization h τ ∧ τ ≠ [] ∧ (v_ok v = true → τ ≡ₚ calls_of h).
Proof.
  intros Hck Hsd Hrun Hi.
  destruct (checkSingle_verdict h Hck Hsd) as (fuel' & v' & Hrun' & _ & Hp & Hl).
  assert (v = v') as -> by (by eapply checkSingle_det).
  destruct (Hl _ _ Hi) as (τ & Hτ & Hne). exists τ. split; [done|]. split; [|done].
  apply partial_declarative; [apply Hck|]. rewrite Forall_lookup in Hp. eauto.
Qed.

(** Every entry of the table [longest] that [checkSingle] returns (not
    killed) is a genuine partial linearization of the history, not empty, and
    complete if the verdict is positive. *)
Theorem checkSingle_partials h fuel v i p :
  checkable h → steps_defined m h →
  checkSingle fuel not_killed h = Done v → v_longest v !! i = Some (Some p) →
  ∃ τ, v_seqs v !! p = Some τ ∧ partial_linearization h τ ∧ τ ≠ [] ∧ (v_ok v = true → τ ≡ₚ calls_of h).
Proof. apply checkSingle_longest. Qed.

End correct.
