(* ===== verification/OpHistory.v ===== *)
(** * Histories of operations with timestamps

    Linearizability of a history of [Operation]s, in terms of the recorded
    call and return times, and its relation to the history of entries that
    [makeEntries] builds: the entries are well formed, and the two notions of
    linearizability agree. *)

From S2P Require Import Prelude PorcupineModel Linearizability CheckerCorrect.
Local Open Scope Z_scope.

Section ops.
Context {V S : Type} (m : Model V S).
Implicit Types (ops σ : list (Operation V)) (a b op : Operation V).

(** The model accepts the operations in this order. *)
Fixpoint accepts (s : S) σ : Prop :=
  match σ with
  | [] => True
  | op :: σ => ∃ s', Step m s (Input op) (Output op) = Done (true, s') ∧ accepts s' σ
  end.

(** No operation comes after one that was called when it had returned. *)
Definition real_time σ : Prop :=
  ∀ A a B b, σ = A ++ a :: B → b ∈ B → ¬ (Return b < Call a).

Definition op_linearizable ops : Prop :=
  ∃ σ, σ ≡ₚ ops ∧ real_time σ ∧ accepts (Init m) σ.

(** Every operation returns after its call, and no call happens at the very
    instant of a return. *)
Record timely ops : Prop := {
  ti_order : ∀ op, op ∈ ops → Call op < Return op;
  ti_ties : ∀ a b, a ∈ ops → b ∈ ops → Return a ≠ Call b;
}.

(** ** The entries of a history *)

Definition call_of (i : Z) op : entry V :=
  mkEntry callEntry (Input op) i (Call op) (op_ClientId op).
Definition ret_of (i : Z) op : entry V :=
  mkEntry returnEntry (Output op) i (Return op) (op_ClientId op).

Lemma elem_of_entries k ops e :
  e ∈ makeEntries_loop k ops ↔
  ∃ (i : nat) op, ops !! i = Some op ∧
    (e = call_of (k + Z.of_nat i) op ∨ e = ret_of (k + Z.of_nat i) op).
Proof.
  revert k. induction ops as [|op ops IH]; intros k; cbn [makeEntries_loop].
  { rewrite elem_of_nil. split; [done|]. intros (i & op & Hi & _). done. }
  rewrite !elem_of_cons, IH. split.
  - intros [->|[->|(i & op' & Hi & He)]].
    + exists 0%nat, op. split; [done|]. left. unfold call_of. f_equal. lia.
    + exists 0%nat, op. split; [done|]. right. unfold ret_of. f_equal. lia.
    + exists (Datatypes.S i), op'. split; [done|].
      replace (k + Z.of_nat (Datatypes.S i)) with (k + 1 + Z.of_nat i) by lia. done.
  - intros ([|i] & op' & Hi & He); cbn in Hi; simplify_eq.
    + rewrite Z.add_0_r in He. tauto.
    + right; right. exists i, op'. split; [done|].
      replace (k + 1 + Z.of_nat i) with (k + Z.of_nat (Datatypes.S i)) by lia. done.
Qed.

Lemma entries_length k ops : length (makeEntries_loop k ops) = (2 * length ops)%nat.
Proof. revert k. induction ops as [|op ops IH]; intros k; cbn; [done|]. rewrite IH. lia. Qed.

Lemma entries_ids_ge k ops e : e ∈ makeEntries_loop k ops → k ≤ e_id e.
Proof. intros (i & op & _ & [-> | ->])%elem_of_entries; cbn; lia. Qed.

Lemma entries_NoDup k ops : NoDup (tag <$> makeEntries_loop k ops).
Proof.
  revert k. induction ops as [|op ops IH]; intros k; cbn; [constructor|].
  assert (∀ q, (q, k) ∉ tag <$> makeEntries_loop (k + 1) ops) as Hk.
  { intros q (e & E & He)%list_elem_of_fmap. apply entries_ids_ge in He.
    unfold tag in E. injection E as _ E. lia. }
  constructor; [|constructor; [apply Hk|apply IH]].
  unfold tag at 1. cbn. rewrite elem_of_cons. intros [[=]|Hin]; by eapply Hk.
Qed.

Lemma calls_of_entries k ops :
  calls_of (makeEntries_loop k ops) = (fun i => k + Z.of_nat i) <$> seq 0 (length ops).
Proof.
  revert k. induction ops as [|op ops IH]; intros k; [done|]. unfold calls_of in *.
  cbn [makeEntries_loop length seq]. rewrite filter_cons_True by done.
  rewrite filter_cons_False by done. rewrite fmap_cons, IH. cbn [e_id fmap list_fmap].
  f_equal; [lia|]. rewrite <- (fmap_S_seq 0). rewrite <- list_fmap_compose.
  apply list_fmap_ext. intros i x _. cbn. lia.
Qed.

(** ** Sorting them by time *)

Section sorted.
Context (sort : list (entry V) → list (entry V)) `{!GoSort byTime_Less sort}.

Notation E ops := (makeEntries sort ops).

Lemma elem_of_makeEntries ops e :
  e ∈ E ops ↔ ∃ (i : nat) op, ops !! i = Some op ∧
    (e = call_of (Z.of_nat i) op ∨ e = ret_of (Z.of_nat i) op).
Proof. unfold makeEntries. rewrite sort_perm, elem_of_entries. done. Qed.

Lemma makeEntries_later ops A e B x :
  E ops = A ++ e :: B → x ∈ E ops → e_time e < e_time x → x ∈ B.
Proof.
  intros Es Hx Ht. pose proof (sort_sorted (makeEntries_loop 0 ops)) as Hs.
  fold (E ops) in Hs. rewrite Es in Hs, Hx.
  apply elem_of_app in Hx as [Hx|[->|Hx]%elem_of_cons]; [|lia|done].
  apply list_elem_of_split in Hx as (A1 & A2 & ->). exfalso.
  rewrite <- app_assoc in Hs.
  pose proof (StronglySorted_pair _ A1 x (A2 ++ e :: B) e Hs ltac:(set_solver)) as Hl.
  unfold byTime_Less in Hl. apply bool_decide_eq_false in Hl. lia.
Qed.

Lemma makeEntries_before ops A e B x :
  E ops = A ++ e :: B → x ∈ B → e_time e ≤ e_time x.
Proof.
  intros Es Hx. pose proof (sort_sorted (makeEntries_loop 0 ops)) as Hs.
  fold (E ops) in Hs. rewrite Es in Hs.
  pose proof (StronglySorted_pair _ A e B x Hs Hx) as Hl.
  unfold byTime_Less in Hl. apply bool_decide_eq_false in Hl. lia.
Qed.

Lemma makeEntries_wf ops :
  (∀ op, op ∈ ops → Call op < Return op) → wf_history (E ops).
Proof.
  intros Ht. split.
  - unfold makeEntries. rewrite sort_perm. apply entries_NoDup.
  - intros A e B Es Hc. assert (e ∈ E ops) as He by (rewrite Es; set_solver).
    apply elem_of_makeEntries in He as (i & op & Hi & [->| ->]); [|done].
    exists (ret_of (Z.of_nat i) op). split; [|done].
    eapply makeEntries_later; [exact Es|apply elem_of_makeEntries; eauto|].
    cbn. apply Ht. eauto with go_lists.
  - intros A e B Es Hr. assert (e ∈ E ops) as He by (rewrite Es; set_solver).
    apply elem_of_makeEntries in He as (i & op & Hi & [->| ->]); [done|].
    exists (call_of (Z.of_nat i) op). split; [|done].
    assert (call_of (Z.of_nat i) op ∈ E ops) as Hc by (apply elem_of_makeEntries; eauto).
    rewrite Es in Hc. apply elem_of_app in Hc as [Hc|[Hc|Hc]%elem_of_cons]; [done|done|].
    exfalso. pose proof (makeEntries_before _ _ _ _ _ Es Hc) as Hle. cbn in Hle.
    assert (op ∈ ops) as Hop by eauto with go_lists. apply Ht in Hop. lia.
Qed.

Lemma makeEntries_checkable ops :
  (∀ op, op ∈ ops → Call op < Return op) → 2 * zlen ops < two64 → checkable (E ops).
Proof.
  intros Ht Hsz. assert (length (E ops) = 2 * length ops)%nat as Hl.
  { unfold makeEntries. by rewrite sort_perm, entries_length. }
  split.
  - by apply makeEntries_wf.
  - intros e (i & op & Hi%lookup_lt_Some & He)%elem_of_makeEntries.
    rewrite Hl, Nat.mul_comm, Nat.div_mul by lia. destruct He as [-> | ->]; cbn; lia.
  - unfold zlen in *. lia.
Qed.

Lemma op_values_makeEntries ops (i : nat) op :
  ops !! i = Some op → op_values (E ops) (Z.of_nat i) (Input op) (Output op).
Proof.
  intros Hi. exists (call_of (Z.of_nat i) op), (ret_of (Z.of_nat i) op).
  rewrite !elem_of_makeEntries. repeat split; eauto 10.
Qed.

(** ** The two notions of linearizability agree *)

(** [ids] lists the positions in [ops] of the operations [σ]. *)
Definition positions ops (ids : list Z) σ : Prop :=
  Forall2 (fun j op => ∃ i : nat, j = Z.of_nat i ∧ ops !! i = Some op) ids σ.

Lemma positions_all ops : positions ops (calls_of (makeEntries_loop 0 ops)) ops.
Proof.
  rewrite calls_of_entries. apply Forall2_fmap_l, Forall2_same_length_lookup_2.
  { by rewrite length_seq. }
  intros i k op Hk Hop. apply lookup_seq in Hk as [-> Hlt]. exists i. split; [cbn; lia|done].
Qed.

Lemma calls_of_makeEntries ops : calls_of (E ops) ≡ₚ calls_of (makeEntries_loop 0 ops).
Proof. unfold calls_of, makeEntries. by rewrite sort_perm. Qed.

Lemma precedes_times ops (i j : nat) a b :
  ops !! i = Some a → ops !! j = Some b →
  (∀ op, op ∈ ops → Call op < Return op) →
  (Return b < Call a → precedes (E ops) (Z.of_nat j) (Z.of_nat i)) ∧
  (precedes (E ops) (Z.of_nat j) (Z.of_nat i) → Return b ≤ Call a).
Proof.
  intros Ha Hb Ht. split.
  - intros Hlt. assert (ret_of (Z.of_nat j) b ∈ E ops) as Hr by (apply elem_of_makeEntries; eauto).
    apply list_elem_of_split in Hr as (A & B & Es).
    exists A, (ret_of (Z.of_nat j) b), B, (call_of (Z.of_nat i) a). repeat split; try done.
    eapply makeEntries_later; [exact Es|apply elem_of_makeEntries; eauto|done].
  - intros (A & r & B & c & Es & Hr & Hrj & Hc & Hcc & Hci).
    pose proof (makeEntries_before _ _ _ _ _ Es Hc) as Hle.
    assert (r = ret_of (Z.of_nat j) b) as ->.
    { assert (r ∈ E ops) as Hin by (rewrite Es; set_solver).
      apply elem_of_makeEntries in Hin as (j' & b' & Hb' & [->| ->]); [done|].
      cbn in Hrj. assert (j' = j) as -> by lia. congruence. }
    assert (c = call_of (Z.of_nat i) a) as ->.
    { assert (c ∈ E ops) as Hin by (rewrite Es; set_solver).
      apply elem_of_makeEntries in Hin as (i' & a' & Ha' & [->| ->]); [|done].
      cbn in Hci. assert (i' = i) as -> by lia. congruence. }
    done.
Qed.

Lemma legal_accepts ops ids σ s :
  (∀ op, op ∈ ops → Call op < Return op) → positions ops ids σ →
  legal m (E ops) s ids ↔ accepts s σ.
Proof.
  intros Ht Hp. revert s.
  induction Hp as [|j op ids σ (i & -> & Hi) Hp IH]; intros s; [split; [done|constructor]|].
  pose proof (op_values_makeEntries _ _ _ Hi) as Hov. cbn [accepts]. split.
  - inversion 1 as [|? s' ? x y ? Hov' Hs Hl]; simplify_eq.
    destruct (op_values_unique _ _ _ _ _ _ (makeEntries_wf _ Ht) Hov Hov') as [<- <-].
    exists s'. by rewrite <- IH.
  - intros (s' & Hs & Hl). econstructor; [exact Hov|exact Hs|]. by apply IH.
Qed.

(** Linearizing the entries linearizes the operations, even with ties. *)
Lemma linearizable_op_linearizable ops :
  (∀ op, op ∈ ops → Call op < Return op) → linearizable m (E ops) → op_linearizable ops.
Proof.
  intros Ht (ids & Hperm & Hresp & Hleg).
  rewrite calls_of_makeEntries in Hperm.
  destruct (Forall2_permute _ _ ids ops (symmetry Hperm) (positions_all ops)) as (σ & Hσ & Hpos).
  exists σ. split; [done|]. split; [|by eapply legal_accepts].
  intros A a B b -> Hb Hlt. apply Forall2_app_inv_r in Hpos as (idA & ids' & _ & Hpos & ->).
  apply Forall2_cons_inv_r in Hpos as (j & idB & (i & -> & Hi) & Hpos & ->).
  destruct (Forall2_elem_r _ _ _ _ Hpos Hb) as (j & Hj & k & -> & Hk).
  eapply Hresp; [done|exact Hj|]. by eapply precedes_times.
Qed.

Lemma op_linearizable_linearizable ops :
  timely ops → op_linearizable ops → linearizable m (E ops).
Proof.
  intros [Ht Hties] (σ & Hσ & Hrt & Hacc).
  assert (Forall2 (fun op j => ∃ i : nat, j = Z.of_nat i ∧ ops !! i = Some op) ops
            (calls_of (makeEntries_loop 0 ops))) as Hpos0
    by apply Forall2_flip, positions_all.
  destruct (Forall2_permute _ _ σ _ (symmetry Hσ) Hpos0) as (ids & Hids & Hpos).
  apply Forall2_flip in Hpos. change (positions ops ids σ) in Hpos.
  exists ids. split; [by rewrite calls_of_makeEntries|]. split; [|by eapply legal_accepts].
  intros A i B j -> Hj Hp. apply Forall2_app_inv_l in Hpos as (σA & σ' & _ & Hpos & ->).
  apply Forall2_cons_inv_l in Hpos as (a & σB & (ni & -> & Ha) & Hpos & ->).
  destruct (Forall2_elem_l _ _ _ _ Hpos Hj) as (b & Hb & nj & -> & Hnj).
  apply (Hrt σA a σB b eq_refl Hb).
  pose proof (proj2 (precedes_times _ _ _ _ _ Ha Hnj Ht) Hp).
  assert (Return b ≠ Call a) by (apply Hties; eauto with go_lists). lia.
Qed.

Lemma makeEntries_linearizable ops :
  timely ops → linearizable m (E ops) ↔ op_linearizable ops.
Proof.
  intros Ht. split.
  - apply linearizable_op_linearizable, Ht.
  - by apply op_linearizable_linearizable.
Qed.

End sorted.
End ops.
