(* ===== verification/PorcupineCheck.v ===== *)
(** * Checking the partitions in parallel, and the public API

    [checkParallel], [checkEvents] and [checkOperations] of
    [labs/src/porcupine/checker.go], and the functions of
    [labs/src/porcupine/porcupine.go].

    [checkParallel] starts one goroutine per partition and waits for their
    results.  What the [select] statement picks, in order, is the argument
    [sched]: the result of partition [i], or the timeout.  Results received
    by the loop were sent before anybody set [kill]; the goroutines drained
    afterwards may see it set ([kills]). *)

From S2P Require Import Prelude PorcupineModel Linearizability CheckSingle CheckSearch.
From S2P Require Import CheckerCorrect OpHistory.
Local Open Scope Z_scope.

Record linearizationInfo (V : Type) := mkInfo {
  li_history : list (list (entry V));
  li_partialLinearizations : list (list (list Z));
}.
Arguments mkInfo {V} _ _.
Arguments li_history {V} _.
Arguments li_partialLinearizations {V} _.

(** What [select] receives. *)
Inductive pevent := Result (i : nat) | TimeoutFires.

Section parallel.
Context {V S : Type} `{!Inhabited V}.

(** The order in which [range] visits a map: any order. *)
Context (mapRange : list nat → list nat).

Section single_model.
Context (fuel : nat) (model : Model V S) (history : list (list (entry V))) (computeInfo : bool).

(** The goroutine of partition [i]. *)
Definition goroutine (kill : nat → bool) (i : nat) : go verdict :=
  match history !! i with
  | Some subhistory => checkSingle model computeInfo fuel kill subhistory
  | None => Stuck
  end.

(** The variables of the loop: [ok], [timedOut], and the results received. *)
Record pstate := mkPState { p_ok : bool; p_timedOut : bool; p_received : list (nat * verdict) }.

Fixpoint select_loop (timeout : Z) (sched : list pevent) (ps : pstate) : go pstate :=
  match sched with
  | [] => Stuck
  | Result i :: sched =>
      v ← goroutine not_killed i;
      let ps := mkPState (p_ok ps && v_ok v) (p_timedOut ps) (p_received ps ++ [(i, v)]) in
      if negb (p_ok ps) && negb computeInfo then Done ps
      else if bool_decide (length history ≤ length (p_received ps))%nat then Done ps
      else select_loop timeout sched ps
  | TimeoutFires :: _ =>
      if bool_decide (0 < timeout)
      then Done (mkPState (p_ok ps) true (p_received ps))
      else Stuck
  end.

(** [longest[i]], once every goroutine has finished. *)
Definition longest_of (received : list (nat * verdict)) (kills : nat → nat → bool) (i : nat)
    : go verdict :=
  match list_find (fun x => x.1 = i) received with
  | Some (_, (_, v)) => Done v
  | None => goroutine (kills i) i
  end.

(** The slices that the distinct pointers of [longest[i]] lead to. *)
Definition partials_of (v : verdict) : go (list (list Z)) :=
  let set := remove_dups (omap id (v_longest v)) in
  go_map (fun k => idx (v_seqs v) (Z.of_nat k)) (mapRange set).

Definition checkParallel (timeout : Z) (sched : list pevent) (kills : nat → nat → bool)
    : go (CheckResult * linearizationInfo V) :=
  ps ← select_loop timeout sched (mkPState true false []);
  info ← (if computeInfo then
            partialLinearizations ←
              go_map (fun i => v ← longest_of (p_received ps) kills i; partials_of v)
                (seq 0 (length history));
            Done (mkInfo history partialLinearizations)
          else Done (mkInfo [] []));
  let result := if negb (p_ok ps) then Illegal
                else if p_timedOut ps then Unknown else Ok in
  Done (result, info).

(** ** What the loop computes *)

(** Every goroutine, not killed, ends with a verdict that can be trusted. *)
Definition good_verdict (i : nat) (v : verdict) : Prop :=
  goroutine not_killed i = Done v ∧
  (∀ h, history !! i = Some h → v_ok v = true ↔ linearizable model h) ∧
  (∀ k p, v_longest v !! k = Some (Some p) → is_Some (v_seqs v !! p)).

Lemma select_loop_good timeout ixs ps :
  (∀ i, i ∈ ixs → ∃ v, good_verdict i v) → ixs ≠ [] →
  (length (p_received ps) + length ixs = length history)%nat →
  ∃ ps' vs, select_loop timeout (Result <$> ixs) ps = Done ps' ∧
    p_timedOut ps' = p_timedOut ps ∧
    (computeInfo = true → p_received ps' = p_received ps ++ zip ixs vs) ∧
    Forall2 good_verdict ixs vs ∧
    p_ok ps' = p_ok ps && forallb v_ok vs.
Proof.
  revert ps. induction ixs as [|i ixs IH]; intros ps Hv Hne Hlen; [done|].
  destruct (Hv i ltac:(set_solver)) as [v Hgv]. pose proof Hgv as [Hg _].
  cbn [fmap list_fmap select_loop]. rewrite Hg. go_simpl. cbn [p_ok p_received p_timedOut].
  assert (∀ i', i' ∈ ixs → ∃ v, good_verdict i' v) as Hv' by set_solver.
  destruct (negb (p_ok ps && v_ok v) && negb computeInfo) eqn:Eb.
  { apply andb_true_iff in Eb as [Eok%negb_true_iff Eci%negb_true_iff].
    assert (∃ vs, Forall2 good_verdict ixs vs) as [vs Hvs].
    { clear -Hv'. induction ixs as [|j ixs IH]; [by exists []|].
      destruct (Hv' j ltac:(set_solver)) as [w Hw]. destruct IH as [ws Hws]; [set_solver|].
      exists (w :: ws). by constructor. }
    eexists _, (v :: vs). split; [done|]. split; [done|]. split; [by rewrite Eci|].
    split; [by constructor|]. cbn. by rewrite andb_assoc, Eok. }
  case_bool_decide as Hl.
  - rewrite length_app in Hl. cbn in Hl, Hlen. assert (ixs = []) as -> by (destruct ixs; [done|cbn in *; lia]).
    eexists _, [v]. split; [done|]. split; [done|]. split; [done|]. split; [constructor; [done|constructor]|].
    cbn. by rewrite andb_true_r.
  - rewrite length_app in Hl. cbn in Hl, Hlen.
    destruct (IH (mkPState (p_ok ps && v_ok v) (p_timedOut ps) (p_received ps ++ [(i, v)])))
      as (ps' & vs & Hr & Ht & Hrec & Hf & Hok);
      [done|by intros ->; cbn in *; lia|cbn; rewrite length_app; cbn; lia|].
    exists ps', (v :: vs). split; [done|]. split; [done|]. split.
    { intros E. rewrite (Hrec E). cbn. by rewrite <- app_assoc. }
    split; [by constructor|]. rewrite Hok. cbn. by rewrite andb_assoc.
Qed.

Lemma longest_of_good ixs vs kills i :
  Forall2 good_verdict ixs vs → i ∈ ixs → ∃ v, longest_of (zip ixs vs) kills i = Done v ∧ good_verdict i v.
Proof.
  intros Hf Hi. unfold longest_of. destruct (list_find _ (zip ixs vs)) as [[k [j v]]|] eqn:El.
  - apply list_find_Some in El as (Hk & E & _). cbn in E. subst j. exists v. split; [done|].
    apply lookup_zip_Some in Hk as [Hk1 Hk2].
    eapply Forall2_lookup_lr in Hf; [|exact Hk1|exact Hk2]. done.
  - exfalso. apply list_find_None in El. rewrite Forall_forall in El.
    apply list_elem_of_lookup in Hi as [k Hk].
    destruct (Forall2_lookup_l _ _ _ _ _ Hf Hk) as (v & Hv & _).
    apply (El (i, v)); [|done]. apply list_elem_of_lookup. exists k. by apply lookup_zip_Some.
Qed.

Lemma partials_of_good i v : mapRange (remove_dups (omap id (v_longest v))) ≡ₚ remove_dups (omap id (v_longest v)) →
  good_verdict i v → ∃ p, partials_of v = Done p.
Proof.
  intros Hr (_ & _ & Hp). unfold partials_of. apply go_map_total. intros k Hk.
  rewrite Hr in Hk. apply elem_of_remove_dups, list_elem_of_omap in Hk as (o & Ho & Eo). cbn in Eo. subst o.
  apply list_elem_of_lookup in Ho as [j Hj]. destruct (Hp _ _ Hj) as [τ Hτ].
  exists τ. by apply idx_nat.
Qed.

(** All results arrive, in some order, and no timeout fires. *)
Lemma checkParallel_all timeout kills ixs :
  (∀ l, mapRange l ≡ₚ l) → (∀ i, i ∈ ixs → ∃ v, good_verdict i v) →
  ixs ≡ₚ seq 0 (length history) → history ≠ [] →
  ∃ r info, checkParallel timeout (Result <$> ixs) kills = Done (r, info) ∧
    (r = Ok ↔ ∀ h, h ∈ history → linearizable model h) ∧
    (r = Illegal ↔ ¬ ∀ h, h ∈ history → linearizable model h).
Proof.
  intros Hr Hv Hperm Hne.
  assert (length ixs = length history) as Hlen by (by rewrite Hperm, length_seq).
  destruct (select_loop_good timeout ixs (mkPState true false []) Hv) as
    (ps & vs & Hsel & Hto & Hrec & Hf & Hok).
  { intros ->. cbn in Hlen. by destruct history. } { done. }
  cbn in Hto, Hok, Hrec.
  assert (forallb v_ok vs = true ↔ ∀ h, h ∈ history → linearizable model h) as Hall.
  { rewrite forallb_forall. setoid_rewrite <- list_elem_of_In. split.
    - intros Hvs h [i Hi]%list_elem_of_lookup.
      assert (i ∈ ixs) as Hin.
      { rewrite Hperm. apply elem_of_seq. apply lookup_lt_Some in Hi. lia. }
      destruct (Forall2_elem_l _ _ _ _ Hf Hin) as (v & Hv1 & _ & Hl & _).
      apply (Hl h Hi). by apply Hvs.
    - intros Hlin v Hvin. destruct (Forall2_elem_r _ _ _ _ Hf Hvin) as (i & Hi & _ & Hl & _).
      rewrite Hperm, elem_of_seq in Hi.
      destruct (lookup_lt_is_Some_2 history i) as [h Hh]; [lia|].
      apply (Hl h Hh), Hlin. eauto with go_lists. }
  unfold checkParallel. rewrite Hsel. go_simpl.
  assert (∃ info, (if computeInfo then
            partialLinearizations ←
              go_map (fun i => v ← longest_of (p_received ps) kills i; partials_of v)
                (seq 0 (length history));
            Done (mkInfo history partialLinearizations)
          else Done (mkInfo [] [])) = Done info) as [info Hinfo].
  { destruct computeInfo; [|eauto]. rewrite (Hrec eq_refl).
    destruct (go_map_total (fun i => v ← longest_of (zip ixs vs) kills i; partials_of v)
      (seq 0 (length history))) as [k Hk]; [|rewrite Hk; go_simpl; eauto].
    intros i Hi. rewrite <- Hperm in Hi.
    destruct (longest_of_good _ _ kills _ Hf Hi) as (v & -> & Hgv). go_simpl.
    by eapply partials_of_good. }
  rewrite Hinfo. go_simpl. eexists _, info. split; [done|]. rewrite <- Hall, Hok, Hto.
  destruct (forallb v_ok vs); cbn; naive_solver.
Qed.

(** Whatever the schedule, [Ok] can be trusted. *)
Lemma select_loop_sound timeout sched ps ps' :
  select_loop timeout sched ps = Done ps' →
  (∀ i v, (i, v) ∈ p_received ps → goroutine not_killed i = Done v ∧ (p_ok ps = true → v_ok v = true)) →
  (∀ i v, (i, v) ∈ p_received ps' → goroutine not_killed i = Done v ∧ (p_ok ps' = true → v_ok v = true)) ∧
  (p_ok ps' = true → p_timedOut ps' = p_timedOut ps →
     (length history ≤ length (p_received ps'))%nat ∨ p_timedOut ps = true) ∧
  (∃ ixs, (p_received ps').*1 = (p_received ps).*1 ++ ixs ∧ (Result <$> ixs) `prefix_of` sched).
Proof.
  revert ps. induction sched as [|[i|] sched IH]; intros ps; [done| |].
  - cbn [select_loop]. intros H Hps. go_inv H. rename a into v. cbn [p_ok p_received p_timedOut] in H.
    assert (∀ j w, (j, w) ∈ p_received ps ++ [(i, v)] →
      goroutine not_killed j = Done w ∧ (p_ok ps && v_ok v = true → v_ok w = true)) as Hps1.
    { intros j w [Hj|[= -> ->]%list_elem_of_singleton]%elem_of_app.
      - apply Hps in Hj as [? Hw]. split; [done|]. intros [? ?]%andb_true_iff. by apply Hw.
      - split; [done|]. by intros [? ?]%andb_true_iff. }
    destruct (negb _ && negb _) eqn:Eb; [|case_bool_decide as Hl].
    + injection H as <-. cbn. split; [done|]. apply andb_true_iff in Eb as [Eb%negb_true_iff _].
      split; [congruence|]. exists [i]. rewrite fmap_app. split; [done|]. cbn.
      by apply prefix_cons, prefix_nil.
    + injection H as <-. cbn. split; [done|]. split; [by left|]. exists [i]. rewrite fmap_app.
      split; [done|]. cbn. by apply prefix_cons, prefix_nil.
    + apply IH in H as (H1 & H2 & ixs & H3 & H4); [|done]. cbn in *. split; [done|]. split; [done|].
      exists (i :: ixs). rewrite H3, fmap_app, <- app_assoc. split; [done|]. cbn.
      by apply prefix_cons.
  - cbn [select_loop]. case_bool_decide; [|done]. intros [= <-] Hps. cbn. split; [done|].
    split; [by right|]. exists []. rewrite app_nil_r. split; [done|]. apply prefix_nil.
Qed.

Lemma select_loop_received timeout sched ps ps' :
  select_loop timeout sched ps = Done ps' → ∃ ixs, p_received ps ++ ixs = p_received ps'.
Proof.
  revert ps. induction sched as [|[i|] sched IH]; intros ps; [done| |]; cbn [select_loop].
  - intros H. go_inv H. destruct (_ && _); [injection H as <-; eauto|].
    case_bool_decide; [injection H as <-; eauto|]. apply IH in H as [ixs <-].
    cbn. rewrite <- app_assoc. eauto.
  - case_bool_decide; [|done]. intros [= <-]. exists []. by rewrite app_nil_r.
Qed.

Lemma select_loop_bad timeout sched ps ps' :
  select_loop timeout sched ps = Done ps' → p_ok ps = true → p_ok ps' = false →
  ∃ i v, (i, v) ∈ p_received ps' ∧ v_ok v = false.
Proof.
  revert ps. induction sched as [|[i|] sched IH]; intros ps; [done| |].
  - cbn [select_loop]. intros H Hok Hok'. go_inv H. rename a into v. cbn [p_ok p_received] in H.
    rewrite Hok in H. cbn [andb] in H. destruct (v_ok v) eqn:Ev; cbn [negb andb] in H.
    + case_bool_decide; [by injection H as <-|]. by apply IH in H.
    + assert (∃ ixs, (p_received ps ++ [(i, v)]) ++ ixs = p_received ps') as [ixs Hr].
      { destruct (negb computeInfo); [|case_bool_decide].
        1,2: injection H as <-; exists []; by rewrite app_nil_r.
        by apply select_loop_received in H. }
      exists i, v. split; [|done]. rewrite <- Hr. set_solver.
  - cbn [select_loop]. case_bool_decide; [|done]. intros [= <-]. cbn. congruence.
Qed.

Lemma received_all (l : list (nat * verdict)) :
  NoDup l.*1 → (length history ≤ length l)%nat →
  (∀ i v, (i, v) ∈ l → goroutine not_killed i = Done v) →
  ∀ i, (i < length history)%nat → ∃ v, (i, v) ∈ l.
Proof.
  intros Hnd Hlen Hg i Hi.
  assert (∀ j, j ∈ l.*1 → (j < length history)%nat) as Hlt.
  { intros j ([j' v] & -> & Hjv)%list_elem_of_fmap. specialize (Hg _ _ Hjv). revert Hg.
    unfold goroutine. cbn. destruct (history !! j') eqn:Ej; [|done].
    intros _. eauto with go_lists. }
  assert (l.*1 ≡ₚ seq 0 (length history)) as Hp.
  { apply submseteq_length_Permutation; [|by rewrite length_seq, length_fmap].
    apply NoDup_submseteq; [done|]. intros j Hj. apply elem_of_seq. specialize (Hlt _ Hj). lia. }
  assert (i ∈ l.*1) as ([j v] & -> & Hv)%list_elem_of_fmap; [rewrite Hp; apply elem_of_seq; lia|].
  by exists v.
Qed.

(** Each goroutine sends one result. *)
Definition result_of (e : pevent) : option nat :=
  match e with Result i => Some i | TimeoutFires => None end.
Definition sends_once (sched : list pevent) : Prop := NoDup (omap result_of sched).

Lemma sends_once_prefix ixs sched :
  (Result <$> ixs) `prefix_of` sched → sends_once sched → NoDup ixs.
Proof.
  intros [rest ->]. unfold sends_once. rewrite omap_app.
  assert (omap result_of (Result <$> ixs) = ixs) as ->.
  { induction ixs as [|i ixs IH]; cbn; [done|]. by rewrite IH. }
  intros Hnd%NoDup_app. tauto.
Qed.

(** C4: whatever the order in which results arrive and whenever the timeout
    fires, a decided result of [checkParallel] can be trusted: [Ok] means that
    every partition is linearizable, [Illegal] that one is not. *)
Theorem checkParallel_sound (eqf : S → S → bool) timeout sched kills r info :
  LawfulModel model eqf →
  (∀ h, h ∈ history → checkable h ∧ steps_defined model h) →
  sends_once sched →
  checkParallel timeout sched kills = Done (r, info) →
  (r = Ok → ∀ h, h ∈ history → linearizable model h) ∧
  (r = Illegal → ∃ h, h ∈ history ∧ ¬ linearizable model h).
Proof.
  intros Hlm Hck Hso H. unfold checkParallel in H. go_inv H. rename a into ps. go_inv H.
  injection H as <- _.
  destruct (select_loop_sound _ _ _ _ E) as (Hrec & Hall & ixs & Hixs & Hpre); [set_solver|].
  assert (∀ i v h, (i, v) ∈ p_received ps → history !! i = Some h →
    v_ok v = true ↔ linearizable model h) as Hverd.
  { intros i v h Hiv Hh. apply Hrec in Hiv as [Hg _]. unfold goroutine in Hg. rewrite Hh in Hg.
    destruct (Hck h) as [Hc Hs]; [eauto with go_lists|].
    destruct (checkSingle_verdict model eqf computeInfo h Hc Hs) as (f & w & Hw & Hl & _).
    assert (w = v) as -> by (by eapply checkSingle_det). done. }
  split.
  - destruct (p_ok ps) eqn:Eok; [|done]. destruct (p_timedOut ps) eqn:Et; [done|]. intros _ h Hh.
    apply list_elem_of_lookup in Hh as [i Hi]. destruct Hall as [Hlen|]; [done|done| |done].
    destruct (received_all (p_received ps)) with (i := i) as [v Hv].
    + rewrite Hixs. cbn. by eapply sends_once_prefix.
    + done.
    + intros j w Hjw. by apply Hrec in Hjw as [? _].
    + eauto with go_lists.
    + apply (Hverd i v h); [done..|]. apply Hrec in Hv as [_ Hv]. by apply Hv.
  - destruct (p_ok ps) eqn:Eok; [by destruct (p_timedOut ps)|]. intros _.
    destruct (select_loop_bad _ _ _ _ E) as (i & v & Hiv & Hv); [done..|].
    pose proof (Hrec _ _ Hiv) as [Hg _]. unfold goroutine in Hg.
    destruct (history !! i) as [h|] eqn:Eh; [|done].
    exists h. split; [eauto with go_lists|]. rewrite <- (Hverd i v h); [|done..]. congruence.
Qed.

(** ** The partial linearizations of a verbose check *)

Lemma select_loop_full timeout sched ps ps' :
  computeInfo = true → TimeoutFires ∉ sched → select_loop timeout sched ps = Done ps' →
  (length history ≤ length (p_received ps'))%nat.
Proof.
  intros Hc. revert ps. induction sched as [|[i|] sched IH]; intros ps Ht; [done| |by destruct Ht; left].
  cbn [select_loop]. intros H. go_inv H. rewrite Hc, andb_false_r in H.
  case_bool_decide; [by injection H as <-|]. apply IH in H; [done|]. by intros ?; apply Ht; right.
Qed.

(** If no timeout fires, the partial linearizations that a verbose check
    reports for a partition are genuine. *)
Lemma checkParallel_partials (eqf : S → S → bool) timeout sched kills r info :
  LawfulModel model eqf → (∀ l, mapRange l ≡ₚ l) →
  (∀ h, h ∈ history → checkable h ∧ steps_defined model h) →
  computeInfo = true → sends_once sched → TimeoutFires ∉ sched →
  checkParallel timeout sched kills = Done (r, info) →
  li_history info = history ∧ length (li_partialLinearizations info) = length history ∧
  ∀ i h ts τ, history !! i = Some h → li_partialLinearizations info !! i = Some ts → τ ∈ ts →
    partial_linearization model h τ ∧ τ ≠ [] ∧ (r = Ok → τ ≡ₚ calls_of h).
Proof.
  intros Hlm Hr Hck Hc Hso Hto H. unfold checkParallel in H. go_inv H. rename a into ps. go_inv H.
  injection H as <- <-. pose proof (select_loop_full _ _ _ _ Hc Hto E) as Hlen.
  rewrite Hc in E0. go_inv E0. injection E0 as <-. rename a0 into pl. cbn.
  split; [done|]. split; [by rewrite (go_map_length _ _ _ E1), length_seq|].
  destruct (select_loop_sound _ _ _ _ E) as (Hrec & _ & ixs & Hixs & Hpre); [set_solver|].
  intros i h ts τ Hh Hts Hτ. destruct (go_map_lookup _ _ _ _ _ E1 Hts) as (i' & Hi' & Hf).
  apply lookup_seq in Hi' as [-> _]. cbn in Hf. go_inv Hf. rename a into v.
  assert (goroutine not_killed i = Done v ∧ (p_ok ps = true → v_ok v = true)) as [Hg Hgok].
  { unfold longest_of in E0. destruct (list_find _ _) as [[k [j w]]|] eqn:El.
    - injection E0 as <-. apply list_find_Some in El as (Hk & Ej & _). cbn in Ej. subst j.
      apply list_elem_of_lookup_2 in Hk. by apply Hrec in Hk.
    - exfalso. apply list_find_None in El. rewrite Forall_forall in El.
      destruct (received_all (p_received ps)) with (i := i) as [w Hw].
      + rewrite Hixs. cbn. by eapply sends_once_prefix.
      + done.
      + intros j w Hjw. by apply Hrec in Hjw as [? _].
      + eauto with go_lists.
      + by apply (El (i, w)). }
  unfold goroutine in Hg. rewrite Hh in Hg. unfold partials_of in Hf.
  apply list_elem_of_lookup in Hτ as [q Hq].
  destruct (go_map_lookup _ _ _ _ _ Hf Hq) as (p & Hp & Hidx). apply list_elem_of_lookup_2 in Hp.
  rewrite Hr in Hp. apply elem_of_remove_dups, list_elem_of_omap in Hp as (o & Ho & Eo). cbn in Eo. subst o.
  apply list_elem_of_lookup in Ho as [k Hk]. apply idx_Done in Hidx as [_ Hidx]. rewrite Nat2Z.id in Hidx.
  destruct (Hck h) as [Hch Hsd]; [eauto with go_lists|].
  destruct (checkSingle_longest model eqf computeInfo h fuel v k p Hch Hsd Hg Hk) as (τ' & Hτ' & ? & ? & Hfull).
  assert (τ = τ') as -> by congruence. split; [done|]. split; [done|]. intros Hok. apply Hfull, Hgok.
  by destruct (p_ok ps).
Qed.

End single_model.

(** With no partitions at all (an empty history given to a model that
    partitions by key) and no timeout, [checkParallel] never returns. *)
Theorem checkParallel_empty_blocks fuel (model : Model V S) computeInfo timeout sched kills :
  timeout ≤ 0 → checkParallel fuel model [] computeInfo timeout sched kills = Stuck.
Proof.
  intros Ht. unfold checkParallel. destruct sched as [|[i|] sched]; cbn; [done|done|].
  by rewrite bool_decide_eq_false_2 by lia.
Qed.

End parallel.

(** ** Checking a history *)

Section api.
Context {V S : Type} `{!Inhabited V, !EqDecision S}.
Context (fmtV : V → string) (fmtS : S → string).
Context (mapRange : list nat → list nat) (sort : list (entry V) → list (entry V)).
Implicit Types (model : Model V S).

Definition checkEvents (fuel : nat) model (history : list (Event V)) (verbose : bool)
    (timeout : Z) (sched : list pevent) (kills : nat → nat → bool)
    : go (CheckResult * linearizationInfo V) :=
  let model := fillDefault fmtV fmtS model in
  partition ← fn (PartitionEvent model);
  partitions ← partition history;
  let l := (fun subhistory => convertEntries (renumber subhistory)) <$> partitions in
  checkParallel mapRange fuel model l verbose timeout sched kills.

Definition checkOperations (fuel : nat) model (history : list (Operation V)) (verbose : bool)
    (timeout : Z) (sched : list pevent) (kills : nat → nat → bool)
    : go (CheckResult * linearizationInfo V) :=
  let model := fillDefault fmtV fmtS model in
  partition ← fn (Partition model);
  partitions ← partition history;
  let l := makeEntries sort <$> partitions in
  checkParallel mapRange fuel model l verbose timeout sched kills.

Definition CheckOperations (fuel : nat) model history sched kills : go bool :=
  '(res, _) ← checkOperations fuel model history false 0 sched kills;
  Done (bool_decide (res = Ok)).

Definition CheckOperationsTimeout (fuel : nat) model history timeout sched kills : go CheckResult :=
  '(res, _) ← checkOperations fuel model history false timeout sched kills;
  Done res.

Definition CheckOperationsVerbose (fuel : nat) model history timeout sched kills
    : go (CheckResult * linearizationInfo V) :=
  checkOperations fuel model history true timeout sched kills.

Definition CheckEvents (fuel : nat) model history sched kills : go bool :=
  '(res, _) ← checkEvents fuel model history false 0 sched kills;
  Done (bool_decide (res = Ok)).

Definition CheckEventsTimeout (fuel : nat) model history timeout sched kills : go CheckResult :=
  '(res, _) ← checkEvents fuel model history false timeout sched kills;
  Done res.

Definition CheckEventsVerbose (fuel : nat) model history timeout sched kills
    : go (CheckResult * linearizationInfo V) :=
  checkEvents fuel model history true timeout sched kills.

(** ** Correctness *)

(** [Step] judges every operation without panicking. *)
Definition op_steps_defined model (ops : list (Operation V)) : Prop :=
  ∀ op s, op ∈ ops → ∃ b s', Step model s (Input op) (Output op) = Done (b, s').

(** A history that [makeEntries] turns into one that can be checked. *)
Record op_checkable model (ops : list (Operation V)) : Prop := {
  oc_timely : timely ops;
  oc_size : 2 * zlen ops < two64;
  oc_steps : op_steps_defined model ops;
}.

Lemma good_verdicts model eqf computeInfo (hs : list (list (entry V))) :
  LawfulModel model eqf →
  (∀ h, h ∈ hs → checkable h ∧ steps_defined model h) →
  ∃ fuel, ∀ i, (i < length hs)%nat → ∃ v, good_verdict fuel model hs computeInfo i v.
Proof.
  clear sort.
  intros Hlm Hhs.
  assert (∃ fuel, ∀ h, h ∈ hs → ∃ v, checkSingle model computeInfo fuel not_killed h = Done v ∧
    (v_ok v = true ↔ linearizable model h) ∧
    reported h v) as [fuel Hfuel].
  { induction hs as [|h hs IH]; [exists 0%nat; set_solver|].
    destruct (Hhs h ltac:(set_solver)) as [Hck Hsd].
    destruct (checkSingle_verdict model eqf computeInfo h Hck Hsd) as (f1 & v & Hr & Hl & _ & Hp).
    destruct IH as [f2 Hf2]; [set_solver|].
    exists (f1 `max` f2)%nat. intros h' [->|Hin]%elem_of_cons.
    - exists v. split; [by eapply checkSingle_mono; [|exact Hr]; lia|done].
    - destruct (Hf2 _ Hin) as (v' & Hr' & ?). exists v'.
      split; [by eapply checkSingle_mono; [|exact Hr']; lia|done]. }
  exists fuel. intros i Hi. destruct (lookup_lt_is_Some_2 _ _ Hi) as [h Hh].
  destruct (Hfuel h) as (v & Hr & Hl & Hp); [eauto with go_lists|].
  exists v. unfold good_verdict, goroutine. rewrite Hh. split; [done|]. split; [by intros h' [= <-]|].
  intros k p Hk. destruct (Hp k p Hk) as (τ & ? & _). eauto.
Qed.

Lemma makeEntries_steps model ops `{!GoSort byTime_Less sort} :
  op_steps_defined model ops → (∀ op, op ∈ ops → Call op < Return op) →
  steps_defined model (makeEntries sort ops).
Proof.
  intros Hs Ht j i o s Hov.
  assert (∃ k op, ops !! k = Some op ∧ j = Z.of_nat k) as (k & op & Hk & ->).
  { destruct Hov as (e & _ & He & Hc & <- & _).
    apply elem_of_makeEntries in He as (k & op & Hk & [->| ->]); [eauto|done..]. }
  destruct (op_values_unique _ _ _ _ _ _ (makeEntries_wf sort ops Ht) Hov
    (op_values_makeEntries sort ops k op Hk)) as [-> ->].
  apply Hs. eauto with go_lists.
Qed.

(** All results arrive: the verdict is that of the specification. *)
Lemma checkParallel_decides (fm : Model V S) eqf (hs : list (list (entry V))) verbose timeout kills ixs :
  LawfulModel fm eqf → (∀ l, mapRange l ≡ₚ l) →
  (∀ h, h ∈ hs → checkable h ∧ steps_defined fm h) → hs ≠ [] → ixs ≡ₚ seq 0 (length hs) →
  ∃ fuel r info,
    checkParallel mapRange fuel fm hs verbose timeout (Result <$> ixs) kills = Done (r, info) ∧
    (r = Ok ↔ ∀ h, h ∈ hs → linearizable fm h) ∧
    (r = Illegal ↔ ¬ ∀ h, h ∈ hs → linearizable fm h).
Proof.
  clear sort. intros Hlm HmapRange Hck Hne Hixs. destruct (good_verdicts fm eqf verbose hs Hlm Hck) as [fuel Hfuel].
  exists fuel. apply (checkParallel_all mapRange fuel fm hs verbose timeout kills ixs); [done| |done|done].
  intros i Hi. apply Hfuel. rewrite Hixs, elem_of_seq in Hi. lia.
Qed.

Section correct.
Context (model : Model V S) (eqf : S → S → bool).
Context `{!LawfulModel (fillDefault fmtV fmtS model) eqf, !GoSort byTime_Less sort}.
Hypothesis HmapRange : ∀ l, mapRange l ≡ₚ l.

Lemma checkOperations_parts history parts partition verbose timeout kills ixs :
  Partition (fillDefault fmtV fmtS model) = Some partition →
  partition history = Done parts → parts ≠ [] → Forall (op_checkable model) parts →
  ixs ≡ₚ seq 0 (length parts) →
  ∃ fuel r info,
    checkOperations fuel model history verbose timeout (Result <$> ixs) kills = Done (r, info) ∧
    (r = Ok ↔ Forall (op_linearizable model) parts) ∧
    (r = Illegal ↔ ¬ Forall (op_linearizable model) parts).
Proof.
  intros Hpart Hparts Hne Hck Hixs. rewrite Forall_forall in Hck.
  set (fm := fillDefault fmtV fmtS model) in *.
  destruct (checkParallel_decides fm eqf (makeEntries sort <$> parts) verbose timeout kills ixs)
    as (fuel & r & info & Hrun & Hok & Hill); [done|done|..].
  { intros h (ops & -> & Hops)%list_elem_of_fmap. destruct (Hck _ Hops) as [Ht Hsz Hst]. split.
    - apply (makeEntries_checkable sort ops); [apply Ht|done].
    - apply (makeEntries_steps fm ops); [done|apply Ht]. }
  { by destruct parts. }
  { by rewrite length_fmap. }
  assert (Forall (op_linearizable model) parts ↔
    ∀ h, h ∈ makeEntries sort <$> parts → linearizable fm h) as Hiff.
  { rewrite Forall_forall. split.
    - intros Hl h (ops & -> & Hops)%list_elem_of_fmap. destruct (Hck _ Hops) as [Ht _ _].
      apply (makeEntries_linearizable fm sort ops Ht). by apply Hl.
    - intros Hl ops Hops. destruct (Hck _ Hops) as [Ht _ _].
      apply (makeEntries_linearizable fm sort ops Ht). apply Hl. by apply list_elem_of_fmap_2. }
  exists fuel, r, info. rewrite Hiff. split; [|done].
  unfold checkOperations. fold fm. rewrite Hpart. cbn [fn]. go_simpl. rewrite Hparts. done.
Qed.

End correct.
End api.
