(* ===== verification/EventHistory.v ===== *)
(** * Histories of events: [checkEvents]

    A test can also record a history as a list of call and return events with
    ids of its own.  [renumber] gives the operations the numbers that
    [checkSingle] expects; this file shows that numbering does not change
    what is linearizable, so that [checkEvents] decides linearizability of
    the events as they were recorded. *)

From S2P Require Import Prelude PorcupineModel Linearizability CheckSingle CheckSearch CheckRefine CheckerCorrect PorcupineCheck.
Local Open Scope Z_scope.

(** ** Renaming operations *)

Section rename.
Context {V S : Type}.
Implicit Types (h : list (entry V)) (ρ : Z → Z).

Definition rename ρ (e : entry V) : entry V :=
  mkEntry (e_kind e) (e_value e) (ρ (e_id e)) (e_time e) (e_clientId e).

Definition injective_on ρ h : Prop :=
  ∀ e e', e ∈ h → e' ∈ h → ρ (e_id e) = ρ (e_id e') → e_id e = e_id e'.

Lemma rename_split ρ h A' e' B' :
  rename ρ <$> h = A' ++ e' :: B' →
  ∃ A e B, h = A ++ e :: B ∧ A' = rename ρ <$> A ∧ e' = rename ρ e ∧ B' = rename ρ <$> B.
Proof.
  intros H. apply fmap_app_inv in H as (A & B0 & -> & HB & ->).
  apply symmetry, fmap_cons_inv in HB as (e & B & -> & -> & ->). by exists A, e, B.
Qed.

Lemma rename_NoDup ρ h : injective_on ρ h → NoDup (tag <$> h) → NoDup (tag <$> (rename ρ <$> h)).
Proof.
  intros Hi Hn. rewrite <- list_fmap_compose. induction h as [|e h IH]; [constructor|].
  cbn in Hn |- *. apply NoDup_cons in Hn as [He Hn]. apply NoDup_cons. split.
  - intros (e' & Ht & He')%list_elem_of_fmap. apply He. injection Ht as Hk Hid.
    apply list_elem_of_fmap. exists e'. split; [|done]. unfold tag. rewrite Hk. f_equal.
    apply Hi; [left|by right|done].
  - apply IH; [|done]. intros a b Ha Hb. apply Hi; by right.
Qed.

Lemma rename_wf ρ h : injective_on ρ h → wf_history h → wf_history (rename ρ <$> h).
Proof.
  intros Hi [Hn Hc Hr]. split.
  - by apply rename_NoDup.
  - intros A' e' B' (A & e & B & Eh & -> & -> & ->)%rename_split He.
    destruct (Hc A e B Eh He) as (r & Hr1 & Hr2 & Hr3). exists (rename ρ r).
    split; [by apply list_elem_of_fmap_2|]. split; [done|]. cbn. by rewrite Hr3.
  - intros A' e' B' (A & e & B & Eh & -> & -> & ->)%rename_split He.
    destruct (Hr A e B Eh He) as (c & Hc1 & Hc2 & Hc3). exists (rename ρ c).
    split; [by apply list_elem_of_fmap_2|]. split; [done|]. cbn. by rewrite Hc3.
Qed.

Lemma rename_calls ρ h : calls_of (rename ρ <$> h) = ρ <$> calls_of h.
Proof.
  unfold calls_of. induction h as [|e h IH]; [done|]. rewrite fmap_cons, !filter_cons.
  destruct (decide (is_call e)) as [Hc|Hc], (decide (is_call (rename ρ e))) as [Hc'|Hc']; try done.
  rewrite !fmap_cons. by f_equal.
Qed.

Lemma rename_precedes ρ h i j :
  injective_on ρ h → i ∈ calls_of h → j ∈ calls_of h →
  precedes (rename ρ <$> h) (ρ j) (ρ i) → precedes h j i.
Proof.
  intros Hi Hci Hcj (A' & e' & B' & c' & E & Hr & Hj & Hc & Hcc & Hi').
  apply rename_split in E as (A & e & B & -> & -> & -> & ->).
  apply list_elem_of_fmap in Hc as (c & -> & Hc).
  apply elem_of_calls_of in Hci as (ei & Hei & _ & <-). apply elem_of_calls_of in Hcj as (ej & Hej & _ & <-).
  exists A, e, B, c. split; [done|]. split; [done|]. split; [apply Hi; [set_solver|done|done]|].
  split; [done|]. split; [done|]. apply Hi; [set_solver|done|done].
Qed.

Lemma rename_legal ρ h (m : Model V S) s σ : legal m h s σ → legal m (rename ρ <$> h) s (ρ <$> σ).
Proof.
  induction 1 as [|s s' j i o σ (e & r & He & Hc & <- & <- & Hr & Hrr & Hid & <-) Hs _ IH]; [constructor|].
  cbn. econstructor; [|exact Hs|exact IH].
  exists (rename ρ e), (rename ρ r). cbn. rewrite Hid.
  repeat split; try done; by apply list_elem_of_fmap_2.
Qed.

Lemma rename_linearizable ρ h (m : Model V S) :
  injective_on ρ h → linearizable m h → linearizable m (rename ρ <$> h).
Proof.
  intros Hi (σ & Hp & Hres & Hleg). exists (ρ <$> σ). split; [by rewrite Hp, rename_calls|]. split.
  - intros A' i' B' j' E Hj Hpre. apply fmap_app_inv in E as (A & B0 & -> & HB & E).
    apply symmetry, fmap_cons_inv in HB as (i & B & -> & -> & ->).
    apply list_elem_of_fmap in Hj as (j & -> & Hj). apply (Hres A i B j); [done|done|].
    eapply rename_precedes; [done|..|done]; rewrite <- Hp, E; set_solver.
  - by apply rename_legal.
Qed.

(** A renaming that can be undone. *)
Lemma rename_iff ρ ρ' h (m : Model V S) :
  (∀ e, e ∈ h → ρ' (ρ (e_id e)) = e_id e) →
  linearizable m (rename ρ <$> h) ↔ linearizable m h.
Proof.
  intros Hinv. assert (injective_on ρ h) as Hi.
  { intros e e' He He' E. by rewrite <- (Hinv e He), <- (Hinv e' He'), E. }
  split; [|by apply rename_linearizable]. intros Hl.
  assert (rename ρ' <$> (rename ρ <$> h) = h) as <-.
  { rewrite <- list_fmap_compose. rewrite <- (list_fmap_id h) at 2. apply list_fmap_ext. intros i e He. cbn.
    unfold rename. cbn. rewrite Hinv by eauto with go_lists. by destruct e. }
  apply rename_linearizable; [|done].
  intros a b (e & -> & He)%list_elem_of_fmap (e' & -> & He')%list_elem_of_fmap. cbn. rewrite !Hinv by done. by intros ->.
Qed.

(** Well-formedness by positions. *)
Lemma wf_by_position h :
  NoDup (tag <$> h) →
  (∀ i e, h !! i = Some e → is_call e → ∃ j e', (i < j)%nat ∧ h !! j = Some e' ∧ is_ret e' ∧ e_id e' = e_id e) →
  (∀ i e, h !! i = Some e → is_ret e → ∃ j e', (j < i)%nat ∧ h !! j = Some e' ∧ is_call e' ∧ e_id e' = e_id e) →
  wf_history h.
Proof.
  intros Hn Hc Hr. split; [done|..]; intros A e B -> He.
  - destruct (Hc (length A) e) as (j & e' & Hj & Hl & ?); [by rewrite list_lookup_middle|done|].
    exists e'. split; [|done]. rewrite lookup_app_r in Hl by lia.
    destruct (j - length A)%nat as [|k] eqn:Ek; [lia|]. cbn in Hl. eauto with go_lists.
  - destruct (Hr (length A) e) as (j & e' & Hj & Hl & ?); [by rewrite list_lookup_middle|done|].
    exists e'. split; [|done]. rewrite lookup_app_l in Hl by lia. eauto with go_lists.
Qed.

(** A well-formed history has as many returns as calls. *)
Lemma wf_length h : wf_history h → length h = (2 * length (calls_of h))%nat.
Proof.
  intros [Hn Hc Hr].
  assert (e_id <$> filter is_ret h ≡ₚ calls_of h) as Hp.
  { apply NoDup_Permutation.
    - clear Hc Hr. induction h as [|e h IH]; [constructor|]. cbn in Hn. apply NoDup_cons in Hn as [He Hn].
      rewrite filter_cons. destruct (decide (is_ret e)) as [Hre|]; [|by apply IH]. cbn. apply NoDup_cons.
      split; [|by apply IH]. intros (e' & E & [Hre' He']%list_elem_of_filter)%list_elem_of_fmap. apply He.
      apply list_elem_of_fmap. exists e'. split; [|done]. by apply tag_eq_ret.
    - by apply calls_of_NoDup.
    - intros x. rewrite elem_of_calls_of, list_elem_of_fmap. split.
      + intros (e & -> & [Hre (A & B & ->)%list_elem_of_split]%list_elem_of_filter).
        destruct (Hr A e B eq_refl Hre) as (c & ? & ? & ?). exists c. split; [set_solver|]. by split.
      + intros (e & (A & B & ->)%list_elem_of_split & Hce & <-).
        destruct (Hc A e B eq_refl Hce) as (r & ? & ? & ?). exists r. split; [done|].
        apply list_elem_of_filter. split; [done|set_solver]. }
  apply Permutation_length in Hp. rewrite length_fmap in Hp. unfold calls_of in *. rewrite length_fmap in *.
  clear Hn Hc Hr. assert (length (filter is_ret h) + length (filter is_call h) = length h)%nat; [|lia].
  clear Hp. induction h as [|e h IH]; [done|]. rewrite !filter_cons. destruct (call_or_ret e) as [He|He].
  - rewrite (decide_True (P:=is_call e)), (decide_False (P:=is_ret e)) by (done || by apply not_call_ret). cbn. lia.
  - rewrite (decide_False (P:=is_call e)), (decide_True (P:=is_ret e))
      by (done || by intros ?%not_call_ret). cbn. lia.
Qed.
End rename.

(** ** [renumber] renames *)

Section renumber.
Context {V : Type}.
Implicit Types (evs : list (Event V)) (m M : gmap Z Z).

(** The numbers given so far are those below their count, each to one id. *)
Definition numbering m : Prop :=
  (∀ k v, m !! k = Some v → 0 ≤ v < Z.of_nat (size m)) ∧
  (∀ k k' v, m !! k = Some v → m !! k' = Some v → k = k').

Definition number m (i : Z) : Z := default 0 (m !! i).
Definition renumbered m (v : Event V) : Event V :=
  mkEvent (ev_ClientId v) (ev_Kind v) (ev_Value v) (number m (ev_Id v)).

Lemma numbering_insert m i : numbering m → m !! i = None → numbering (<[i := Z.of_nat (size m)]> m).
Proof.
  intros [Hr Hi] Hn. split.
  - intros k v Hk. rewrite map_size_insert_None by done. apply lookup_insert_Some in Hk as [[_ <-]|[_ Hk]]; [lia|].
    apply Hr in Hk. lia.
  - intros k k' v Hk Hk'.
    apply lookup_insert_Some in Hk as [[<- <-]|[Hne Hk]]; apply lookup_insert_Some in Hk' as [[<- E]|[Hne' Hk']].
    + done.
    + apply Hr in Hk'. lia.
    + subst v. apply Hr in Hk. lia.
    + by eapply Hi.
Qed.

Lemma renumber_loop_spec m evs :
  numbering m →
  ∃ M, m ⊆ M ∧ numbering M ∧ dom M = dom m ∪ list_to_set (ev_Id <$> evs) ∧
    renumber_loop m (Z.of_nat (size m)) evs = renumbered M <$> evs.
Proof.
  revert m. induction evs as [|v evs IH]; intros m Hm.
  { exists m. split; [done|]. split; [done|]. split; [set_solver|done]. }
  cbn [renumber_loop]. destruct (m !! ev_Id v) as [r|] eqn:E.
  - destruct (IH m Hm) as (M & Hsub & HM & Hd & Hl). exists M. split; [done|]. split; [done|].
    split; [apply elem_of_dom_2 in E; set_solver|].
    rewrite Hl. cbn. unfold renumbered at 2, number. by rewrite (lookup_weaken _ _ _ _ E Hsub).
  - destruct (IH (<[ev_Id v := Z.of_nat (size m)]> m)) as (M & Hsub & HM & Hd & Hl).
    { by apply numbering_insert. }
    exists M. split; [by etrans; [apply insert_subseteq|]|]. split; [done|]. split; [set_solver|].
    rewrite map_size_insert_None in Hl by done. replace (Z.of_nat (size m) + 1) with (Z.of_nat (S (size m))) by lia.
    rewrite Hl. cbn. unfold renumbered at 2, number.
    by rewrite (lookup_weaken _ _ _ _ (lookup_insert_eq _ _ _) Hsub).
Qed.

(** The id that has a number. *)
Definition id_of M (r : Z) : Z := default 0 (fst <$> head (filter (fun p => p.2 = r) (map_to_list M))).

Lemma id_of_number M k : numbering M → k ∈ dom M → id_of M (number M k) = k.
Proof.
  intros [_ Hi] [v Hv]%elem_of_dom. unfold number, id_of. rewrite Hv. cbn.
  assert ((k, v) ∈ filter (fun p : Z * Z => p.2 = v) (map_to_list M)) as Hin.
  { apply list_elem_of_filter. split; [done|]. by apply elem_of_map_to_list. }
  destruct (filter _ (map_to_list M)) as [|[k' v'] l] eqn:E; [by apply not_elem_of_nil in Hin|]. cbn.
  assert ((k', v') ∈ filter (fun p : Z * Z => p.2 = v) (map_to_list M)) as Hin' by (rewrite E; left).
  apply list_elem_of_filter in Hin' as [Ev Hin']. cbn in Ev. subst v'. apply elem_of_map_to_list in Hin'.
  by eapply Hi.
Qed.

Lemma convertEntries_renumbered M evs i :
  convertEntries_loop i (renumbered M <$> evs) = rename (number M) <$> convertEntries_loop i evs.
Proof. revert i. induction evs as [|v evs IH]; intros i; [done|]. cbn. by rewrite IH. Qed.

Lemma convertEntries_ids evs i : e_id <$> convertEntries_loop i evs = ev_Id <$> evs.
Proof. revert i. induction evs as [|v evs IH]; intros i; [done|]. cbn. by rewrite IH. Qed.

Lemma convertEntries_length evs i : length (convertEntries_loop i evs) = length evs.
Proof. revert i. induction evs as [|v evs IH]; intros i; [done|]. cbn. by rewrite IH. Qed.

(** A history of events as recorded is well formed when every operation has a
    call and, later, a return. *)
Definition wf_events evs : Prop := wf_history (convertEntries evs).

Lemma renumber_rename evs :
  wf_events evs →
  ∃ M, numbering M ∧ convertEntries (renumber evs) = rename (number M) <$> convertEntries evs ∧
    size M = (length evs / 2)%nat ∧ ∀ e, e ∈ convertEntries evs → e_id e ∈ dom M.
Proof.
  intros Hwf. destruct (renumber_loop_spec ∅ evs) as (M & _ & HM & Hd & Hl).
  { split; intros *; by rewrite lookup_empty. }
  rewrite map_size_empty in Hl. exists M. split; [done|].
  split; [unfold convertEntries, renumber; change 0 with (Z.of_nat 0) at 2; by rewrite Hl, convertEntries_renumbered|].
  assert (dom M = list_to_set (calls_of (convertEntries evs))) as Hdc.
  { rewrite Hd, dom_empty_L. unfold convertEntries. rewrite <- (convertEntries_ids evs 0).
    rewrite (left_id_L ∅ (∪)). apply set_eq. intros x.
    rewrite !elem_of_list_to_set, elem_of_calls_of, list_elem_of_fmap. split.
    - intros (e & -> & He). destruct (call_or_ret e) as [Hc|Hr]; [by exists e|].
      pose proof He as (A & B & E)%list_elem_of_split. destruct (wf_ret _ Hwf A e B E Hr) as (c & Hc & ? & ?).
      exists c. split; [rewrite E; set_solver|done].
    - intros (e & He & _ & <-). by exists e. }
  split.
  - rewrite <- size_dom, Hdc, size_list_to_set by by apply calls_of_NoDup, Hwf.
    pose proof (wf_length _ Hwf) as Hlen. unfold convertEntries in *. rewrite convertEntries_length in Hlen.
    rewrite Hlen, Nat.mul_comm, Nat.div_mul by done. done.
  - intros e He. rewrite Hd. apply elem_of_union_r, elem_of_list_to_set.
    unfold convertEntries in He. rewrite <- (convertEntries_ids evs 0). by apply list_elem_of_fmap_2.
Qed.

Lemma renumber_checkable evs :
  wf_events evs → zlen evs < two64 → checkable (convertEntries (renumber evs)).
Proof.
  intros Hwf Hsz. destruct (renumber_rename evs Hwf) as (M & HM & E & Hs & Hd). rewrite E. split.
  - apply rename_wf; [|done]. intros a b Ha Hb Hab.
    by rewrite <- (id_of_number M (e_id a)), <- (id_of_number M (e_id b)), Hab by auto.
  - intros e' (e & -> & He)%list_elem_of_fmap. cbn [rename e_id]. rewrite length_fmap. unfold convertEntries.
    rewrite convertEntries_length, <- Hs. apply Hd in He as [v Hv]%elem_of_dom. unfold number. rewrite Hv.
    by eapply HM.
  - unfold zlen in *. rewrite length_fmap. unfold convertEntries. by rewrite convertEntries_length.
Qed.

(** Numbering changes nothing. *)
Lemma renumber_linearizable {S} (m : Model V S) evs :
  wf_events evs → linearizable m (convertEntries (renumber evs)) ↔ linearizable m (convertEntries evs).
Proof.
  intros Hwf. destruct (renumber_rename evs Hwf) as (M & HM & -> & _ & Hd).
  apply (rename_iff (number M) (id_of M)). intros e He. apply id_of_number; [done|]. by apply Hd.
Qed.

Lemma rename_op_values ρ (h : list (entry V)) j i o :
  op_values (rename ρ <$> h) j i o → injective_on ρ h → ∃ j0, j = ρ j0 ∧ op_values h j0 i o.
Proof.
  intros (e' & r' & (e & -> & He)%list_elem_of_fmap & Hc & <- & <- & (r & -> & Hr)%list_elem_of_fmap & Hrr & Hid & <-) Hi.
  exists (e_id e). split; [done|]. exists e, r. cbn in *. repeat split; try done. by apply Hi.
Qed.

End renumber.

(** ** [checkEvents] *)

Section events.
Context {V S : Type} `{!Inhabited V, !EqDecision S}.
Context (fmtV : V → string) (fmtS : S → string) (mapRange : list nat → list nat).
Context (model : Model V S) (eqf : S → S → bool).
Context `{!LawfulModel (fillDefault fmtV fmtS model) eqf}.
Hypothesis HmapRange : ∀ l, mapRange l ≡ₚ l.

(** A recorded history that can be checked: every operation has a call and,
    later, a return, and the model can judge it. *)
Record ev_checkable (evs : list (Event V)) : Prop := {
  ec_wf : wf_events evs;
  ec_size : zlen evs < two64;
  ec_steps : ∀ c r s, c ∈ evs → r ∈ evs → ev_Kind c = CallEvent → ev_Kind r = ReturnEvent → ev_Id c = ev_Id r →
    ∃ b s', Step model s (ev_Value c) (ev_Value r) = Done (b, s');
}.

(** Linearizability of the events as they were recorded. *)
Definition ev_linearizable (evs : list (Event V)) : Prop := linearizable model (convertEntries evs).

(** Defaults for the optional fields of a model do not matter. *)
Lemma linearizable_fill (h : list (entry V)) :
  linearizable (fillDefault fmtV fmtS model) h ↔ linearizable model h.
Proof.
  assert (∀ m m' : Model V S, Step m = Step m' → ∀ s σ, legal m h s σ → legal m' h s σ) as Hleg.
  { intros m m' E s σ. induction 1 as [|s s' j i o σ Hov Hs _ IH]; [constructor|].
    econstructor; [exact Hov|by rewrite <- E|exact IH]. }
  split; intros (σ & Hp & Hr & Hl); exists σ; (split; [done|]; split; [done|]); (eapply Hleg; [|exact Hl]; reflexivity).
Qed.

(** An entry is an event. *)
Lemma convertEntries_event (evs : list (Event V)) i e :
  e ∈ convertEntries_loop i evs →
  ∃ v, v ∈ evs ∧ e_value e = ev_Value v ∧ e_id e = ev_Id v ∧
    (is_call e → ev_Kind v = CallEvent) ∧ (is_ret e → ev_Kind v = ReturnEvent).
Proof.
  revert i. induction evs as [|v evs IH]; intros i He; [by apply not_elem_of_nil in He|]. cbn in He.
  apply elem_of_cons in He as [->|He].
  - exists v. split; [left|]. split; [done|]. split; [done|]. unfold is_call, is_ret. cbn. by destruct (ev_Kind v).
  - destruct (IH _ He) as (w & Hw & ?). exists w. split; [by right|done].
Qed.

Lemma renumber_steps evs :
  ev_checkable evs → steps_defined (fillDefault fmtV fmtS model) (convertEntries (renumber evs)).
Proof.
  intros [Hwf _ Hst] j i o s Hov. destruct (renumber_rename evs Hwf) as (M & HM & E & _ & Hd). rewrite E in Hov.
  apply rename_op_values in Hov as (j0 & _ & (c & r & Hc & Hcc & Hcj & <- & Hr & Hrr & Hrj & <-)).
  - apply convertEntries_event in Hc as (vc & Hvc & -> & Eic & Hkc & _).
    apply convertEntries_event in Hr as (vr & Hvr & -> & Eir & _ & Hkr). apply Hst; auto. congruence.
  - intros a b Ha Hb Hab.
    by rewrite <- (id_of_number M (e_id a)), <- (id_of_number M (e_id b)), Hab by auto.
Qed.


End events.
