(* ===== verification/KvModel.v ===== *)
(** * The key/value model of the test-suite

    [labs/src/models/kv.go]: the model with which the tests of the key/value
    service call the checker, and what a verdict of the checker on it means
    for the service as a whole, a map from keys to values. *)

From S2P Require Import Prelude PorcupineModel Linearizability CheckSearch CheckerCorrect OpHistory.
From S2P Require Import PorcupineCheck.
Local Open Scope Z_scope.

(** ** Data *)

Record KvInput := mkKvInput { kv_Op : Z; kv_Key : string; kv_Value : string }.
Record KvOutput := mkKvOutput { ko_Value : string }.

(** The dynamic values of a history: [nil], a [KvInput] or a [KvOutput]. *)
Inductive kvval := KNil | KIn (i : KvInput) | KOut (o : KvOutput).

#[export] Instance kvval_inhabited : Inhabited kvval := populate KNil.

(** The type assertions [x.(KvInput)] and [x.(KvOutput)]. *)
Definition as_KvInput (v : kvval) : go KvInput :=
  match v with KIn i => Done i | _ => Panic end.
Definition as_KvOutput (v : kvval) : go KvOutput :=
  match v with KOut o => Done o | _ => Panic end.

Notation kvop := (Operation kvval).

(** ** The fields of [KvModel] *)

Section model.

(** The order in which [range] visits a map, and [sort.Strings]. *)
Context (mapKeys : list string → list string) (sortStrings : list string → list string).

Fixpoint kv_group (m : gmap string (list kvop)) (history : list kvop)
    : go (gmap string (list kvop)) :=
  match history with
  | [] => Done m
  | v :: history =>
      inp ← as_KvInput (Input v);
      let key := kv_Key inp in
      kv_group (<[key := default [] (m !! key) ++ [v]]> m) history
  end.

Definition kv_Partition (history : list kvop) : go (list (list kvop)) :=
  m ← kv_group ∅ history;
  let keys := sortStrings (mapKeys (elements (dom m))) in
  Done ((fun k => default [] (m !! k)) <$> keys).

Definition kv_Init : string := "".

Definition kv_Step (state : string) (input output : kvval) : go (bool * string) :=
  inp ← as_KvInput input;
  out ← as_KvOutput output;
  if bool_decide (kv_Op inp = 0) then Done (bool_decide (ko_Value out = state), state)
  else if bool_decide (kv_Op inp = 1) then Done (true, kv_Value inp)
  else Done (true, state +:+ kv_Value inp).

Definition kv_DescribeOperation (input output : kvval) : go string :=
  inp ← as_KvInput input;
  out ← as_KvOutput output;
  Done (if bool_decide (kv_Op inp = 0)
        then "get('" +:+ kv_Key inp +:+ "') -> '" +:+ ko_Value out +:+ "'"
        else if bool_decide (kv_Op inp = 1)
        then "put('" +:+ kv_Key inp +:+ "', '" +:+ kv_Value inp +:+ "')"
        else if bool_decide (kv_Op inp = 2)
        then "append('" +:+ kv_Key inp +:+ "', '" +:+ kv_Value inp +:+ "')"
        else "<invalid>").

Definition KvModel : Model kvval string := {|
  Partition := Some kv_Partition;
  PartitionEvent := None;
  Init := kv_Init;
  Step := kv_Step;
  Equal := None;
  DescribeOperation := Some kv_DescribeOperation;
  DescribeState := None;
|}.

(** ** The service: a map from keys to values *)

(** One operation of the service on its whole state. *)
Definition store_step (st : gmap string string) (op : kvop) : option (gmap string string) :=
  match Input op, Output op with
  | KIn i, KOut o =>
      let old := default "" (st !! kv_Key i) in
      if bool_decide (kv_Op i = 0) then
        if bool_decide (ko_Value o = old) then Some st else None
      else if bool_decide (kv_Op i = 1) then Some (<[kv_Key i := kv_Value i]> st)
      else Some (<[kv_Key i := old +:+ kv_Value i]> st)
  | _, _ => None
  end.

Fixpoint store_accepts (st : gmap string string) (σ : list kvop) : Prop :=
  match σ with
  | [] => True
  | op :: σ => ∃ st', store_step st op = Some st' ∧ store_accepts st' σ
  end.

(** The history can be explained by a sequential execution of the service
    that keeps the real-time order. *)
Definition store_linearizable (ops : list kvop) : Prop :=
  ∃ σ, σ ≡ₚ ops ∧ real_time σ ∧ store_accepts ∅ σ.

(** A history whose values have the types the model asserts. *)
Definition kv_typed (op : kvop) : Prop := ∃ i o, Input op = KIn i ∧ Output op = KOut o.

Definition key_of (op : kvop) : string :=
  match Input op with KIn i => kv_Key i | _ => "" end.

Definition on_key (k : string) (ops : list kvop) : list kvop := filter (fun op => key_of op = k) ops.

(** ** [Partition] groups a history by key *)

Lemma kv_group_spec m history :
  Forall kv_typed history →
  ∃ m', kv_group m history = Done m' ∧
    (∀ k, default [] (m' !! k) = default [] (m !! k) ++ on_key k history) ∧
    (∀ k, k ∈ dom m' ↔ k ∈ dom m ∨ k ∈ key_of <$> history).
Proof.
  revert m. induction history as [|v history IH]; intros m Ht.
  { exists m. split; [done|]. split; [|set_solver]. intros k. by rewrite app_nil_r. }
  inversion_clear Ht as [|? ? (i & o & Ei & Eo) Ht'].
  destruct (IH (<[kv_Key i := default [] (m !! kv_Key i) ++ [v]]> m) Ht') as (m' & Hr & Hl & Hd).
  assert (key_of v = kv_Key i) as Ek by (unfold key_of; by rewrite Ei).
  exists m'. split; [cbn [kv_group]; rewrite Ei; exact Hr|]. split.
  - intros k. rewrite Hl. unfold on_key. rewrite filter_cons. case_decide as Hk.
    + subst k. rewrite Ek, lookup_insert_eq. cbn. by rewrite <- app_assoc.
    + rewrite lookup_insert_ne by congruence. done.
  - intros k. rewrite Hd, dom_insert, fmap_cons, Ek. set_solver.
Qed.

Context `{!GoSort string_less sortStrings}.
Hypothesis HmapKeys : ∀ l, mapKeys l ≡ₚ l.

Lemma kv_Partition_spec history :
  Forall kv_typed history →
  ∃ keys, kv_Partition history = Done ((fun k => on_key k history) <$> keys) ∧
    NoDup keys ∧ (∀ k, k ∈ keys ↔ k ∈ key_of <$> history) ∧
    StronglySorted (fun a b => string_less b a = false) keys.
Proof.
  intros Ht. destruct (kv_group_spec ∅ history Ht) as (m & Hm & Hl & Hd).
  assert (sortStrings (mapKeys (elements (dom m))) ≡ₚ elements (dom m)) as Hp.
  { by rewrite sort_perm, HmapKeys. }
  exists (sortStrings (mapKeys (elements (dom m)))). unfold kv_Partition. rewrite Hm. go_simpl.
  split; [|split; [|split]].
  - f_equal. apply list_fmap_ext. intros _ k _. rewrite Hl. by rewrite lookup_empty.
  - rewrite Hp. apply NoDup_elements.
  - intros k. rewrite Hp, elem_of_elements, Hd. set_solver.
  - apply sort_sorted.
Qed.

End model.

(** ** One key at a time is enough

    The map accepts an order of the operations when, for every key, the
    single-value model accepts the operations on that key. *)

Section locality.
Context (mapKeys sortStrings : list string → list string).
Notation M := (KvModel mapKeys sortStrings).

Lemma store_step_key st op st' :
  store_step st op = Some st' ↔
  ∃ i o s', Input op = KIn i ∧ Output op = KOut o ∧
    kv_Step (default "" (st !! kv_Key i)) (KIn i) (KOut o) = Done (true, s') ∧
    st' = if bool_decide (kv_Op i = 0) then st else <[kv_Key i := s']> st.
Proof.
  unfold store_step, kv_Step. destruct (Input op) as [|i|o1], (Output op) as [|i2|o2]; try naive_solver.
  split.
  - intros H. exists i, o2. go_simpl. cbn [as_KvInput as_KvOutput]. go_simpl.
    repeat case_bool_decide; naive_solver.
  - intros (i' & o' & s' & [= <-] & [= <-] & H & ->). revert H. go_simpl.
    cbn [as_KvInput as_KvOutput]. go_simpl. repeat case_bool_decide; naive_solver.
Qed.

Lemma store_accepts_keys st σ :
  Forall kv_typed σ →
  store_accepts st σ ↔ ∀ k, accepts M (default "" (st !! k)) (on_key k σ).
Proof.
  revert st. induction σ as [|op σ IH]; intros st Ht; [done|].
  inversion_clear Ht as [|? ? (i & o & Ei & Eo) Ht'].
  assert (key_of op = kv_Key i) as Ek by (unfold key_of; by rewrite Ei).
  assert (∀ s' k, kv_Step (default "" (st !! kv_Key i)) (KIn i) (KOut o) = Done (true, s') →
    default "" ((if bool_decide (kv_Op i = 0) then st else <[kv_Key i:=s']> st) !! k) =
    if bool_decide (kv_Key i = k) then s' else default "" (st !! k)) as Hst.
  { intros s' k. unfold kv_Step. go_simpl. cbn [as_KvInput as_KvOutput]. go_simpl.
    case_bool_decide as H0.
    - intros [= _ <-]. case_bool_decide; congruence.
    - intros _. case_bool_decide; subst; [by rewrite lookup_insert_eq|by rewrite lookup_insert_ne]. }
  cbn [store_accepts]. split.
  - intros (st' & (i' & o' & s' & Ei' & Eo' & Hs & ->)%store_step_key & Ha) k.
    rewrite Ei in Ei'. rewrite Eo in Eo'. simplify_eq. rewrite IH in Ha by done. specialize (Ha k).
    rewrite Hst in Ha by done. unfold on_key. rewrite filter_cons, Ek.
    case_decide as Hk; case_bool_decide; try done. subst k. cbn [accepts].
    exists s'. rewrite Ei, Eo. done.
  - intros Ha. pose proof (Ha (kv_Key i)) as Hk. unfold on_key in Hk.
    rewrite filter_cons_True in Hk by done. destruct Hk as (s' & Hs & Ha').
    rewrite Ei, Eo in Hs. cbn [Step KvModel] in Hs.
    eexists. split; [apply store_step_key; exists i, o, s'; done|]. rewrite IH by done. intros k.
    rewrite (Hst s' k Hs). destruct (decide (kv_Key i = k)) as [<-|Hne].
    { by rewrite bool_decide_eq_true_2. }
    rewrite bool_decide_eq_false_2 by done.
    specialize (Ha k). unfold on_key in Ha. by rewrite filter_cons_False in Ha by congruence.
Qed.

(** Merging the linearizations of the keys: operation [op] at time [p]
    between its call and its return. *)
Definition timed (x : Z * kvop) : Prop := Call x.2 ≤ x.1 ≤ Return x.2.
Definition before (x y : Z * kvop) : Prop := x.1 ≤ y.1.

#[local] Instance before_dec x y : Decision (before x y) := Z_le_dec x.1 y.1.
#[local] Instance before_total : Total before.
Proof. intros x y. unfold before. lia. Qed.
#[local] Instance before_trans : Transitive before.
Proof. intros x y z. unfold before. lia. Qed.

Lemma timed_real_time l :
  StronglySorted before l → Forall timed l → real_time l.*2.
Proof.
  intros Hs Ht A a B b E Hb. apply fmap_app_inv in E as (l1 & l2 & -> & E & ->).
  symmetry in E. apply fmap_cons_inv in E as (x & l3 & -> & -> & ->).
  apply list_elem_of_fmap in Hb as (y & -> & Hy).
  pose proof (StronglySorted_pair _ _ _ _ _ Hs Hy) as Hxy. unfold before in Hxy.
  rewrite Forall_forall in Ht. pose proof (Ht x ltac:(set_solver)).
  pose proof (Ht y ltac:(set_solver)). unfold timed in *. lia.
Qed.

Lemma real_time_cons (a : kvop) σ : real_time (a :: σ) → real_time σ ∧ ∀ b, b ∈ σ → Call a ≤ Return b.
Proof.
  intros Hr. split.
  - intros A x B b -> Hb. by apply (Hr (a :: A) x B b).
  - intros b Hb. apply Z.nlt_ge. by apply (Hr [] a σ b).
Qed.

Lemma real_time_timed (σ : list kvop) p :
  real_time σ → (∀ op, op ∈ σ → Call op ≤ Return op ∧ p ≤ Return op) →
  ∃ l, l.*2 = σ ∧ StronglySorted before l ∧ Forall timed l ∧ Forall (fun x => p ≤ x.1) l.
Proof.
  revert p. induction σ as [|a σ IH]; intros p Hr Hc; [by exists []; repeat constructor|].
  apply real_time_cons in Hr as [Hr Ha]. destruct (Hc a) as [Ha1 Ha2]; [left|].
  destruct (IH (p `max` Call a) Hr) as (l & <- & Hs & Ht & Hp).
  { intros b Hb. specialize (Ha b Hb). destruct (Hc b); [by right|]. lia. }
  exists ((p `max` Call a, a) :: l). split; [done|]. split; [|split].
  - constructor; [done|]. eapply Forall_impl; [exact Hp|]. unfold before. cbn. lia.
  - constructor; [unfold timed; cbn; lia|done].
  - constructor; [cbn; lia|]. eapply Forall_impl; [exact Hp|]. cbn. lia.
Qed.

Lemma filter_merge_l (P : Z * kvop → Prop) `{!∀ x, Decision (P x)} l1 l2 :
  Forall (fun x => ¬ P x) l2 → filter P (list_merge before l1 l2) = filter P l1.
Proof.
  revert l2. induction l1 as [|x l1 IH1]; intros l2 Hl2.
  { rewrite list_merge_nil_l. by apply filter_none. }
  induction Hl2 as [|y l2 Hy Hl2 IH2]; [by rewrite list_merge_nil_r|].
  rewrite list_merge_cons. case_decide.
  - rewrite !(filter_cons _ x), IH1 by (by constructor). done.
  - by rewrite (filter_cons_False _ y).
Qed.

Lemma filter_merge_r (P : Z * kvop → Prop) `{!∀ x, Decision (P x)} l1 l2 :
  Forall (fun x => ¬ P x) l1 → filter P (list_merge before l1 l2) = filter P l2.
Proof.
  intros Hl1. revert l2. induction Hl1 as [|x l1 Hx Hl1 IH1]; intros l2; [by rewrite list_merge_nil_l|].
  induction l2 as [|y l2 IH2]; [rewrite list_merge_nil_r; by apply filter_none; constructor|].
  rewrite list_merge_cons. case_decide.
  - by rewrite (filter_cons_False _ x).
  - rewrite !(filter_cons _ y), IH2. done.
Qed.

(** The operations of several keys, each with a linearization of its own,
    have a common one. *)
Lemma merge_keys (keys : list string) ops :
  NoDup keys → (∀ op, op ∈ ops → Call op ≤ Return op) →
  (∀ k, k ∈ keys → op_linearizable M (on_key k ops)) →
  ∃ l, StronglySorted before l ∧ Forall timed l ∧
    (∀ k, k ∈ keys → on_key k l.*2 ≡ₚ on_key k ops ∧ accepts M "" (on_key k l.*2)) ∧
    (∀ x, x ∈ l → key_of x.2 ∈ keys).
Proof.
  induction keys as [|k keys IH]; intros Hnd Hc Hlin.
  { exists []. split; [constructor|]. split; [constructor|]. split; set_solver. }
  apply NoDup_cons in Hnd as [Hk Hnd].
  destruct IH as (l & Hs & Ht & Hkeys & Hin); [done|done|set_solver|].
  destruct (Hlin k) as (σ & Hσ & Hr & Ha); [left|].
  assert (Forall (fun op => key_of op = k) σ) as Hσk.
  { apply Forall_forall. intros op Hop. rewrite Hσ in Hop. by apply list_elem_of_filter in Hop as [? _]. }
  destruct (real_time_timed σ (foldr Z.min 0 (Return <$> σ))) as (l' & El' & Hs' & Ht' & _); [done| |].
  { intros op Hop. split; [apply Hc; rewrite Hσ in Hop; by apply list_elem_of_filter in Hop as [_ ?]|].
    clear -Hop. induction σ as [|a σ IH]; cbn; [set_solver|].
    apply elem_of_cons in Hop as [->|Hop]; [lia|]. specialize (IH Hop). cbn in IH. lia. }
  assert (∀ k', on_key k' (list_merge before l l').*2 =
    if decide (k' = k) then σ else on_key k' l.*2) as Hmerge.
  { intros k'. unfold on_key. rewrite !filter_fmap. case_decide as E.
    - subst k'. rewrite filter_merge_r.
      + pose proof (filter_fmap snd (fun op => key_of op = k) l') as E.
        rewrite El', (filter_all _ σ Hσk) in E. by symmetry.
      + apply Forall_forall. intros x Hx E. cbn in E. apply Hk. rewrite <- E. by apply Hin.
    - rewrite filter_merge_l; [done|]. apply Forall_forall. intros x Hx E'. cbn in E'.
      rewrite Forall_forall in Hσk. apply E. rewrite <- E'. apply Hσk. rewrite <- El'.
      by apply list_elem_of_fmap_2. }
  exists (list_merge before l l'). split; [|split; [|split]].
  - apply Sorted_StronglySorted; [exact before_trans|].
    apply Sorted_list_merge; [exact before_total|by apply StronglySorted_Sorted..].
  - rewrite merge_Permutation. by apply Forall_app.
  - intros k' Hk'. rewrite Hmerge. case_decide as E; [by subst k'|].
    apply Hkeys. set_solver.
  - intros x. rewrite merge_Permutation, elem_of_app, elem_of_cons. intros [Hx|Hx].
    + right. by apply Hin.
    + left. rewrite Forall_forall in Hσk. apply Hσk. rewrite <- El'. by apply list_elem_of_fmap_2.
Qed.

Lemma real_time_filter (P : kvop → Prop) `{!∀ x, Decision (P x)} σ :
  real_time σ → real_time (filter P σ).
Proof.
  intros Hr A a B b (A' & B' & -> & _ & <- & _)%filter_app_cons_inv Hb.
  apply list_elem_of_filter in Hb as [_ Hb]. by apply (Hr A' a B' b).
Qed.

Lemma store_linearizable_keys keys ops :
  NoDup keys → (∀ k, k ∈ keys ↔ k ∈ key_of <$> ops) →
  Forall kv_typed ops → (∀ op, op ∈ ops → Call op ≤ Return op) →
  store_linearizable ops ↔ ∀ k, k ∈ keys → op_linearizable M (on_key k ops).
Proof.
  intros Hnd Hkeys Ht Hc. split.
  - intros (σ & Hσ & Hr & Ha) k _. exists (on_key k σ). split; [|split].
    + unfold on_key. by rewrite Hσ.
    + by apply real_time_filter.
    + rewrite store_accepts_keys in Ha by (by rewrite Hσ). apply (Ha k).
  - intros Hk. destruct (merge_keys keys ops Hnd Hc Hk) as (l & Hs & Htm & Hl & Hin).
    assert (∀ k, k ∉ keys → on_key k l.*2 = [] ∧ on_key k ops = []) as Hnil.
    { intros k Hnk. split; apply filter_none, Forall_forall.
      - intros op (x & -> & Hx)%list_elem_of_fmap <-. by apply Hnk, Hin.
      - intros op Hop <-. apply Hnk, Hkeys. by apply list_elem_of_fmap_2. }
    assert (l.*2 ≡ₚ ops) as Hp.
    { apply (Permutation_parts key_of). intros k. destruct (decide (k ∈ keys)) as [Hin'|Hn].
      - apply (Hl k Hin').
      - destruct (Hnil k Hn) as [E1 E2]. unfold on_key in E1, E2. by rewrite E1, E2. }
    exists l.*2. split; [done|]. split; [by apply timed_real_time|].
    apply store_accepts_keys; [by rewrite Hp|]. intros k. rewrite lookup_empty. cbn [default].
    destruct (decide (k ∈ keys)) as [Hin'|Hn]; [by apply Hl|]. by rewrite (proj1 (Hnil k Hn)).
Qed.

End locality.

(** ** The verdict of the checker on the service *)

Section verdict.
Context (fmtV : kvval → string) (fmtS : string → string).
Context (mapRange : list nat → list nat) (sort : list (entry kvval) → list (entry kvval)).
Context (mapKeys sortStrings : list string → list string).
Context `{!GoSort byTime_Less sort, !GoSort string_less sortStrings}.
Hypothesis HmapRange : ∀ l, mapRange l ≡ₚ l.
Hypothesis HmapKeys : ∀ l, mapKeys l ≡ₚ l.
Notation M := (KvModel mapKeys sortStrings).

#[global] Instance KvModel_lawful : LawfulModel (fillDefault fmtV fmtS M) ShallowEqual.
Proof.
  split; [done|]. unfold ShallowEqual. intros s t i o s' <-%bool_decide_eq_true Hs.
  exists s'. by rewrite bool_decide_eq_true.
Qed.

(** A recorded history of the service. *)
Record kv_history (ops : list kvop) : Prop := {
  kh_typed : Forall kv_typed ops;
  kh_timely : timely ops;
  kh_size : 2 * zlen ops < two64;
}.

Lemma kv_checkable k ops : kv_history ops → op_checkable M (on_key k ops).
Proof.
  intros [Hty [Hord Hties] Hsz]. rewrite Forall_forall in Hty.
  assert (∀ op, op ∈ on_key k ops → op ∈ ops) as Hsub.
  { intros op Hop. by apply list_elem_of_filter in Hop as [_ ?]. }
  split.
  - split; eauto.
  - unfold zlen in *. assert (length (on_key k ops) ≤ length ops)%nat by apply length_filter. lia.
  - intros op s Hop. destruct (Hty op (Hsub _ Hop)) as (i & o & Hi & Ho).
    cbn. rewrite Hi, Ho. unfold kv_Step. cbn. repeat case_bool_decide; eauto.
Qed.

(** [CheckOperations] returns, and decides linearizability of the map. *)
Lemma CheckOperations_decides ops kills ixs parts :
  kv_history ops → ops ≠ [] → kv_Partition mapKeys sortStrings ops = Done parts →
  ixs ≡ₚ seq 0 (length parts) →
  ∃ fuel b, CheckOperations fmtV fmtS mapRange sort fuel M ops (Result <$> ixs) kills = Done b ∧
    (b = true ↔ store_linearizable ops).
Proof.
  intros Hh Hne Hparts Hixs. pose proof Hh as [Hty [Hord _] _].
  destruct (kv_Partition_spec mapKeys sortStrings HmapKeys ops Hty) as (keys & Ep & Hnd & Hk & _).
  rewrite Ep in Hparts. injection Hparts as <-.
  destruct (checkOperations_parts fmtV fmtS mapRange sort M ShallowEqual HmapRange ops
    ((fun k => on_key k ops) <$> keys) (kv_Partition mapKeys sortStrings) false 0 kills ixs)
    as (fuel & r & info & Hrun & Hok & _); [done|done| | |done|].
  { destruct ops as [|op ops]; [done|]. destruct keys; [|done].
    specialize (Hk (key_of op)). set_solver. }
  { apply Forall_forall. intros p (k & -> & _)%list_elem_of_fmap. by apply kv_checkable. }
  exists fuel, (bool_decide (r = Ok)). unfold CheckOperations. rewrite Hrun. split; [done|].
  rewrite bool_decide_eq_true, Hok, (store_linearizable_keys mapKeys sortStrings keys) by
    (first [done | intros op Hop; specialize (Hord op Hop); lia]).
  rewrite Forall_fmap, Forall_forall. done.
Qed.

(** C6: on a non-empty recorded history of the key/value service, with the
    goroutines delivering their results in any order, [CheckOperations]
    returns, and it returns [true] exactly when the history of the service as
    a whole, a map from keys to values, is linearizable: checking key by key
    loses nothing. *)
Theorem CheckOperations_kv ops kills ixs parts :
  kv_history ops → ops ≠ [] → kv_Partition mapKeys sortStrings ops = Done parts →
  ixs ≡ₚ seq 0 (length parts) →
  ∃ fuel b, CheckOperations fmtV fmtS mapRange sort fuel M ops (Result <$> ixs) kills = Done b ∧
    (b = true ↔ store_linearizable ops).
Proof. apply CheckOperations_decides. Qed.

End verdict.
