(* ===== verification/Visualization.v ===== *)
(** * The data behind a visualization ([labs/src/porcupine/visualization.go])

    [computeVisualizationData] lays out the history of every partition and
    replays its partial linearizations on the model, panicking if the model
    rejects one.  [Visualize] and [VisualizePath] are in [VisualizeFile]. *)

From S2P Require Import Prelude PorcupineModel Linearizability CheckSingle CheckSearch.
From S2P Require Import CheckerCorrect PorcupineCheck.
Local Open Scope Z_scope.

Record historyElement := mkHistoryElement {
  he_ClientId : Z; he_Start : Z; he_End : Z; he_Description : string }.
Record linearizationStep := mkLinearizationStep { ls_Index : Z; ls_StateDescription : string }.
Record partitionVisualizationData := mkVisualization {
  History : list historyElement;
  PartialLinearizations : list (list linearizationStep);
  Largest : gmap Z Z;
}.

(** The order of [sort.Slice(partials, ...)]. *)
Definition longer (a b : list Z) : bool := bool_decide (zlen a > zlen b).

#[export] Instance longer_order : LessOrder longer.
Proof. unfold longer. split; intros *; rewrite !bool_decide_eq_false; lia. Qed.

Section visualization.
Context {V S : Type} `{!Inhabited V, !EqDecision S}.
Context (fmtV : V → string) (fmtS : S → string).
Context (sortPartials : list (list Z) → list (list Z)).

(** The variables [history], [callValue] and [returnValue]. *)
Record hstate := mkHState {
  hs_history : list historyElement; callValue : gmap Z V; returnValue : gmap Z V }.

(** A missing key of a map reads as [nil]. *)
Definition value_of (m : gmap Z V) (id : Z) : V := default inhabitant (m !! id).

Section with_model.
Context (model : Model V S).

Definition history_entry (st : hstate) (elem : entry V) : go hstate :=
  x ← idx (hs_history st) (e_id elem);
  match e_kind elem with
  | callEntry =>
      history ← upd (hs_history st) (e_id elem)
        (mkHistoryElement (e_clientId elem) (e_time elem) (he_End x) (he_Description x));
      Done (mkHState history (<[e_id elem := e_value elem]> (callValue st)) (returnValue st))
  | returnEntry =>
      describe ← fn (DescribeOperation model);
      description ← describe (value_of (callValue st) (e_id elem)) (e_value elem);
      history ← upd (hs_history st) (e_id elem)
        (mkHistoryElement (he_ClientId x) (he_Start x) (e_time elem) description);
      Done (mkHState history (callValue st) (<[e_id elem := e_value elem]> (returnValue st)))
  end.

Fixpoint history_loop (h : list (entry V)) (st : hstate) : go hstate :=
  match h with
  | [] => Done st
  | elem :: h => st ← history_entry st elem; history_loop h st
  end.

Record largest := mkLargest { largestIndex : gmap Z Z; largestSize : gmap Z Z }.

Definition note_size (histId i len : Z) (lg : largest) : largest :=
  if bool_decide (default 0 (largestSize lg !! histId) < len)
  then mkLargest (<[histId := i]> (largestIndex lg)) (<[histId := len]> (largestSize lg))
  else lg.

(** Replaying the partial linearization at index [i], of length [len]. *)
Fixpoint partial_loop (st : hstate) (i len : Z) (partial : list Z) (state : S) (lg : largest)
    : go (list linearizationStep * largest) :=
  match partial with
  | [] => Done ([], lg)
  | histId :: partial =>
      '(ok, state) ← Step model state (value_of (callValue st) histId) (value_of (returnValue st) histId);
      if negb ok then Panic
      else
        describe ← fn (DescribeState model);
        '(rest, lg) ← partial_loop st i len partial state (note_size histId i len lg);
        Done (mkLinearizationStep histId (describe state) :: rest, lg)
  end.

Fixpoint partials_loop (st : hstate) (i : Z) (partials : list (list Z)) (lg : largest)
    : go (list (list linearizationStep) * largest) :=
  match partials with
  | [] => Done ([], lg)
  | partial :: partials =>
      '(linearization, lg) ← partial_loop st i (zlen partial) partial (Init model) lg;
      '(rest, lg) ← partials_loop st (i + 1) partials lg;
      Done (linearization :: rest, lg)
  end.

Definition visualize_partition (h : list (entry V)) (partials : list (list Z))
    : go partitionVisualizationData :=
  let n := (length h / 2)%nat in
  st ← history_loop h (mkHState (replicate n (mkHistoryElement 0 0 0 "")) ∅ ∅);
  '(linearizations, lg) ← partials_loop st 0 (sortPartials partials) (mkLargest ∅ ∅);
  Done (mkVisualization (hs_history st) linearizations (largestIndex lg)).

End with_model.

Definition computeVisualizationData (model : Model V S) (info : linearizationInfo V)
    : go (list partitionVisualizationData) :=
  let model := fillDefault fmtV fmtS model in
  go_map (fun partition =>
      h ← idx (li_history info) (Z.of_nat partition);
      partials ← idx (li_partialLinearizations info) (Z.of_nat partition);
      visualize_partition model h partials)
    (seq 0 (length (li_history info))).


(** ** What is displayed *)

Section shown.
Context (m : Model V S) (h : list (entry V)).

(** The steps shown for a partial linearization: its operations, with the
    states the model goes through. *)
Inductive replayed (describe : S → string) : S → list Z → list linearizationStep → Prop :=
| replayed_nil s : replayed describe s [] []
| replayed_cons s s' j i o τ steps :
    op_values h j i o → Step m s i o = Done (true, s') → replayed describe s' τ steps →
    replayed describe s (j :: τ) (mkLinearizationStep j (describe s') :: steps).

(** The element of an operation shows its client, its interval and its
    description. *)
Definition shows (describe : V → V → go string) (hist : list historyElement) : Prop :=
  ∀ e e', e ∈ h → is_call e → e' ∈ h → is_ret e' → e_id e' = e_id e →
  ∃ d, describe (e_value e) (e_value e') = Done d ∧
    hist !! Z.to_nat (e_id e) = Some (mkHistoryElement (e_clientId e) (e_time e) (e_time e') d).

(** [Largest] leads from an operation to the first of the longest partial
    linearizations that contain it. *)
Definition largest_ok (partials : list (list Z)) (lg : gmap Z Z) : Prop :=
  ∀ j, match lg !! j with
       | Some i => ∃ τ, 0 ≤ i ∧ partials !! Z.to_nat i = Some τ ∧ j ∈ τ ∧
           (∀ τ', τ' ∈ partials → j ∈ τ' → zlen τ' ≤ zlen τ) ∧
           ∀ i' τ', (i' < Z.to_nat i)%nat → partials !! i' = Some τ' → j ∈ τ' → zlen τ' < zlen τ
       | None => ∀ τ, τ ∈ partials → j ∉ τ
       end.

Definition partition_ok describe describeState (partials : list (list Z)) (d : partitionVisualizationData) : Prop :=
  length (History d) = (length h / 2)%nat ∧ shows describe (History d) ∧
  Forall2 (replayed describeState (Init m)) (sortPartials partials) (PartialLinearizations d) ∧
  largest_ok (sortPartials partials) (Largest d).

(** *** The history *)

Context (Hck : checkable h) (describe : V → V → go string) (describeState : S → string).
Hypothesis Hop : DescribeOperation m = Some describe.
Hypothesis Hst : DescribeState m = Some describeState.
Hypothesis Hdesc : ∀ j i o, op_values h j i o → ∃ d, describe i o = Done d.

(** After the entries of [A]. *)
Record hist_inv (A : list (entry V)) (st : hstate) : Prop := {
  hi_len : length (hs_history st) = (length h / 2)%nat;
  hi_call : ∀ e, e ∈ A → is_call e → callValue st !! e_id e = Some (e_value e) ∧
    ∃ x, hs_history st !! Z.to_nat (e_id e) = Some x ∧ he_ClientId x = e_clientId e ∧ he_Start x = e_time e;
  hi_ret : ∀ e, e ∈ A → is_ret e → returnValue st !! e_id e = Some (e_value e) ∧
    ∃ x c, hs_history st !! Z.to_nat (e_id e) = Some x ∧ he_End x = e_time e ∧
      callValue st !! e_id e = Some c ∧ describe c (e_value e) = Done (he_Description x);
}.

Lemma id_inj e e' : e ∈ h → e' ∈ h → Z.to_nat (e_id e) = Z.to_nat (e_id e') → e_id e = e_id e'.
Proof. intros H1%(ck_ids _ Hck) H2%(ck_ids _ Hck). lia. Qed.

Lemma not_before A e B : h = A ++ e :: B → e ∉ A.
Proof.
  intros Eh Hin. pose proof (wf_nodup _ (ck_wf _ Hck)) as Hnd. rewrite Eh, fmap_app in Hnd.
  apply NoDup_app in Hnd as (_ & Hd & _). apply (Hd (tag e)); [by apply list_elem_of_fmap_2|left].
Qed.

Lemma fresh_tag A e B e' : h = A ++ e :: B → e' ∈ A → e_kind e' = e_kind e → e_id e' ≠ e_id e.
Proof.
  intros Eh He' Ek Eid. assert (e' = e) as ->; [|by eapply not_before].
  eapply (wf_tag_inj h); [apply Hck|rewrite Eh; set_solver..|]. unfold tag. congruence.
Qed.

(** Nothing of an operation comes before its call. *)
Lemma fresh_call A e B e' : h = A ++ e :: B → is_call e → e' ∈ A → e_id e' ≠ e_id e.
Proof.
  intros Eh He He'. destruct (call_or_ret e') as [Hc|Hr]; [eapply fresh_tag; [done..|congruence]|].
  destruct (list_elem_of_split _ _ He') as (A1 & A2 & ->).
  destruct (wf_ret _ (ck_wf _ Hck) A1 e' (A2 ++ e :: B)) as (c & Hc & Hcc & <-);
    [by rewrite Eh, <- app_assoc|done|].
  eapply (fresh_tag _ e B c); [done|set_solver|congruence].
Qed.

Lemma history_entry_call A e B st :
  h = A ++ e :: B → is_call e → hist_inv A st →
  ∃ st', history_entry m st e = Done st' ∧ hist_inv (A ++ [e]) st'.
Proof.
  intros Eh He [Hlen Hc Hr].
  assert (e ∈ h) as Hin by (rewrite Eh; set_solver). pose proof (ck_ids _ Hck e Hin) as Hid.
  destruct (idx_in_range (hs_history st) (e_id e)) as (x & Hx & Hxl); [unfold zlen; rewrite Hlen; lia|].
  unfold history_entry. rewrite Hx. go_simpl. unfold is_call in He. rewrite He.
  rewrite upd_in_range by (unfold zlen; rewrite Hlen; lia). go_simpl.
  eexists. split; [reflexivity|].
  assert (∀ e', e' ∈ A → e_id e' ≠ e_id e ∧ Z.to_nat (e_id e) ≠ Z.to_nat (e_id e')) as HA.
  { intros e' He'. pose proof (fresh_call _ _ _ _ Eh He He'). split; [done|]. intros ?%id_inj; [congruence|done|].
    rewrite Eh. set_solver. }
  split; cbn.
  - by rewrite length_insert.
  - intros e' [He'|E%list_elem_of_singleton]%elem_of_app Hc'.
    + destruct (HA _ He'). rewrite lookup_insert_ne, list_lookup_insert_ne by done. by apply Hc.
    + subst e'. rewrite lookup_insert_eq, list_lookup_insert_eq by lia. eauto.
  - intros e' [He'|E%list_elem_of_singleton]%elem_of_app Hr'; [|subst; by apply not_call_ret in Hr'].
    destruct (HA _ He'). rewrite lookup_insert_ne, list_lookup_insert_ne by done. by apply Hr.
Qed.

Lemma history_entry_ret A e B st :
  h = A ++ e :: B → is_ret e → hist_inv A st →
  ∃ st', history_entry m st e = Done st' ∧ hist_inv (A ++ [e]) st'.
Proof.
  intros Eh He [Hlen Hc Hr].
  assert (e ∈ h) as Hin by (rewrite Eh; set_solver). pose proof (ck_ids _ Hck e Hin) as Hid.
  destruct (wf_ret _ (ck_wf _ Hck) A e B Eh He) as (c & Hc1 & Hc2 & Hc3).
  destruct (Hc c Hc1 Hc2) as (Hv & x & Hxl & Hx1 & Hx2). rewrite Hc3 in Hv, Hxl.
  destruct (Hdesc (e_id e) (e_value c) (e_value e)) as [d Hd].
  { exists c, e. repeat split; auto. rewrite Eh. set_solver. }
  unfold history_entry. assert (idx (hs_history st) (e_id e) = Done x) as -> by (apply idx_Done; split; [lia|done]).
  go_simpl. unfold is_ret in He. rewrite He, Hop. cbn [fn]. go_simpl. unfold value_of. rewrite Hv.
  cbn [default from_option id]. rewrite Hd. go_simpl.
  rewrite upd_in_range by (unfold zlen; rewrite Hlen; lia). go_simpl.
  eexists. split; [reflexivity|].
  assert (∀ e', e' ∈ A → Z.to_nat (e_id e) = Z.to_nat (e_id e') → e_id e = e_id e') as HA.
  { intros e' He' ?%id_inj; [done..|]. rewrite Eh. set_solver. }
  split; cbn.
  - by rewrite length_insert.
  - intros e' [He'|E%list_elem_of_singleton]%elem_of_app Hc'; [|subst; by apply not_call_ret in Hc'].
    destruct (Hc e' He' Hc') as (H1 & x' & H2 & H3). split; [done|].
    destruct (decide (Z.to_nat (e_id e) = Z.to_nat (e_id e'))) as [Eq|?].
    + rewrite <- Eq in *. rewrite list_lookup_insert_eq by eauto with go_lists. simplify_eq. eauto.
    + rewrite list_lookup_insert_ne by done. eauto.
  - intros e' [He'|E%list_elem_of_singleton]%elem_of_app Hr'.
    + pose proof (fresh_tag _ _ _ _ Eh He' ltac:(congruence)). rewrite lookup_insert_ne by done.
      rewrite list_lookup_insert_ne by (intros ?%HA; congruence). by apply Hr.
    + subst e'. rewrite lookup_insert_eq, list_lookup_insert_eq by lia. split; [done|]. by eexists _, _.
Qed.

Lemma history_loop_inv A B st :
  h = A ++ B → hist_inv A st → ∃ st', history_loop m B st = Done st' ∧ hist_inv h st'.
Proof.
  revert A st. induction B as [|e B IH]; intros A st Eh Hi; cbn [history_loop].
  { rewrite app_nil_r in Eh. subst A. eauto. }
  assert (∃ st', history_entry m st e = Done st' ∧ hist_inv (A ++ [e]) st') as (st' & -> & Hi').
  { destruct (call_or_ret e); [by eapply history_entry_call|by eapply history_entry_ret]. }
  go_simpl. apply (IH (A ++ [e])); [|done]. by rewrite <- app_assoc.
Qed.

Lemma history_loop_shows :
  ∃ st, history_loop m h (mkHState (replicate (length h / 2) (mkHistoryElement 0 0 0 "")) ∅ ∅) = Done st ∧
    hist_inv h st ∧ shows describe (hs_history st).
Proof.
  destruct (history_loop_inv [] h (mkHState (replicate (length h / 2) (mkHistoryElement 0 0 0 "")) ∅ ∅))
    as (st & Hrun & Hi); [done| |].
  { split; cbn; [by rewrite length_replicate|set_solver..]. }
  exists st. split; [done|]. split; [done|]. intros e e' He Hc He' Hr Eid.
  destruct (hi_call _ _ Hi e He Hc) as (Hv & x & Hx & Hx1 & Hx2).
  destruct (hi_ret _ _ Hi e' He' Hr) as (_ & x' & c & Hx' & Hx3 & Hv' & Hd). rewrite Eid in *.
  simplify_eq. exists (he_Description x). split; [done|]. rewrite Hx. by destruct x; cbn in *; subst.
Qed.

(** *** The partial linearizations *)

Lemma values_of st j i o :
  hist_inv h st → op_values h j i o → value_of (callValue st) j = i ∧ value_of (returnValue st) j = o.
Proof.
  intros Hi (e & e' & He & Hc & <- & <- & He' & Hr & Eid & <-).
  destruct (hi_call _ _ Hi e He Hc) as [Hv _]. destruct (hi_ret _ _ Hi e' He' Hr) as [Hv' _].
  unfold value_of. rewrite Eid in Hv'. by rewrite Hv, Hv'.
Qed.

(** What is known of operation [j] after the partial linearizations [P]. *)
Definition noted (P : list (list Z)) (lg : largest) (j : Z) : Prop :=
  match largestIndex lg !! j, largestSize lg !! j with
  | Some i, Some size => ∃ τ, 0 ≤ i ∧ P !! Z.to_nat i = Some τ ∧ j ∈ τ ∧ size = zlen τ ∧
      (∀ τ', τ' ∈ P → j ∈ τ' → zlen τ' ≤ zlen τ) ∧
      ∀ i' τ', (i' < Z.to_nat i)%nat → P !! i' = Some τ' → j ∈ τ' → zlen τ' < zlen τ
  | None, None => ∀ τ, τ ∈ P → j ∉ τ
  | _, _ => False
  end.

Lemma noted_larger P τ lg j :
  noted P lg j → (j ∈ τ → ∃ size, largestSize lg !! j = Some size ∧ zlen τ ≤ size) → noted (P ++ [τ]) lg j.
Proof.
  unfold noted. intros Hn Hle.
  destruct (largestIndex lg !! j) as [i|] eqn:Ei, (largestSize lg !! j) as [size|] eqn:Es; try done.
  - destruct Hn as (τ0 & H0 & Hi & Hj & -> & Hmax & Hfst). exists τ0. split; [done|].
    split; [by apply lookup_app_l_Some|]. split; [done|]. split; [done|]. split.
    + intros τ' [Hτ'|E%list_elem_of_singleton]%elem_of_app Hj'; [by apply Hmax|subst τ'].
      destruct (Hle Hj') as (? & [= <-] & ?). done.
    + intros i' τ' Hlt Hi'. rewrite lookup_app_l in Hi' by (apply lookup_lt_Some in Hi; lia). by eapply Hfst.
  - intros τ' [Hτ'|E%list_elem_of_singleton]%elem_of_app; [by apply Hn|subst τ'].
    intros Hj. destruct (Hle Hj) as (? & ? & _). congruence.
Qed.

Lemma zlen_elem (τ : list Z) j : j ∈ τ → 0 < zlen τ.
Proof. destruct τ; [by intros ?%not_elem_of_nil|unfold zlen; cbn; lia]. Qed.

Lemma note_size_noted P τ lg j :
  noted P lg j → j ∈ τ → noted (P ++ [τ]) (note_size j (zlen P) (zlen τ) lg) j.
Proof.
  intros Hn Hj. unfold note_size. case_bool_decide as Hlt.
  - unfold noted. cbn. rewrite !lookup_insert_eq. exists τ. split; [len|].
    split; [unfold zlen; rewrite Nat2Z.id; by apply list_lookup_middle|]. split; [done|]. split; [done|].
    assert (∀ τ', τ' ∈ P → j ∈ τ' → zlen τ' < zlen τ) as Hless.
    { intros τ' Hτ' Hj'. unfold noted in Hn. destruct (largestIndex lg !! j), (largestSize lg !! j) as [size|]; try done.
      - destruct Hn as (τ0 & _ & _ & _ & -> & Hmax & _). specialize (Hmax τ' Hτ' Hj'). cbn in Hlt. lia.
      - by destruct (Hn τ' Hτ'). }
    split.
    + intros τ' [Hτ'|E%list_elem_of_singleton]%elem_of_app Hj'; [|by subst]. specialize (Hless τ' Hτ' Hj'). lia.
    + intros i' τ' Hlt' Hi'. unfold zlen in Hlt'. rewrite lookup_app_l in Hi' by lia. apply Hless. eauto with go_lists.
  - apply noted_larger; [done|]. intros _. pose proof (zlen_elem _ _ Hj).
    destruct (largestSize lg !! j) as [size|]; cbn in Hlt; [|lia]. exists size. split; [done|lia].
Qed.

Lemma noted_twice P τ lg j : noted (P ++ [τ]) lg j → j ∈ τ → note_size j (zlen P) (zlen τ) lg = lg.
Proof.
  unfold noted, note_size. intros Hn Hj.
  destruct (largestIndex lg !! j), (largestSize lg !! j) as [size|] eqn:Es; try done.
  - destruct Hn as (τ0 & _ & _ & _ & -> & Hmax & _). cbn.
    rewrite bool_decide_eq_false_2; [done|]. specialize (Hmax τ). cbn.
    assert (zlen τ ≤ zlen τ0); [apply Hmax; [set_solver|done]|lia].
  - exfalso. apply (Hn τ); [set_solver|done].
Qed.

Lemma note_size_other P i len lg j k : j ≠ k → noted P lg j → noted P (note_size k i len lg) j.
Proof.
  intros Hne. unfold note_size. case_bool_decide; [|done]. unfold noted. cbn. by rewrite !lookup_insert_ne.
Qed.

Lemma partial_loop_spec st P τ τ1 τ2 s lg :
  hist_inv h st → τ = τ1 ++ τ2 → legal m h s τ2 →
  (∀ j, j ∈ τ1 → noted (P ++ [τ]) lg j) → (∀ j, j ∉ τ1 → noted P lg j) →
  ∃ steps lg', partial_loop m st (zlen P) (zlen τ) τ2 s lg = Done (steps, lg') ∧
    replayed describeState s τ2 steps ∧ ∀ j, noted (P ++ [τ]) lg' j.
Proof.
  intros Hi. revert τ1 s lg. induction τ2 as [|j τ2 IH]; intros τ1 s lg Eτ Hl H1 H2; cbn [partial_loop].
  - rewrite app_nil_r in Eτ. subst τ1. exists [], lg. split; [done|]. split; [constructor|].
    intros j. destruct (decide (j ∈ τ)); [by apply H1|]. apply noted_larger; [by apply H2|done].
  - inversion Hl as [|s0 s' j0 i o σ Hov Hs Hl']; subst s0 j0 σ.
    destruct (values_of _ _ _ _ Hi Hov) as [-> ->]. rewrite Hs. go_simpl. cbn [negb]. rewrite Hst. cbn [fn]. go_simpl.
    assert (j ∈ τ) as Hj by (rewrite Eτ; set_solver).
    destruct (IH (τ1 ++ [j]) s' (note_size j (zlen P) (zlen τ) lg)) as (steps & lg' & -> & Hr & Hn).
    + by rewrite <- app_assoc.
    + done.
    + intros k Hk. destruct (decide (k ∈ τ1)) as [Hk1|Hk1].
      * destruct (decide (k = j)) as [->|Hne]; [rewrite (noted_twice _ _ _ _ (H1 _ Hk1) Hj); auto|].
        by apply note_size_other, H1.
      * assert (k = j) as -> by set_solver. apply note_size_noted; [by apply H2|done].
    + intros k Hk. apply note_size_other; [set_solver|]. apply H2. set_solver.
    + go_simpl. eexists _, lg'. split; [done|]. split; [by econstructor|done].
Qed.

Lemma partials_loop_spec st P ts lg :
  hist_inv h st → Forall (legal m h (Init m)) ts → (∀ j, noted P lg j) →
  ∃ lins lg', partials_loop m st (zlen P) ts lg = Done (lins, lg') ∧
    Forall2 (replayed describeState (Init m)) ts lins ∧ ∀ j, noted (P ++ ts) lg' j.
Proof.
  intros Hi Hl. revert P lg. induction Hl as [|τ ts Hτ Hl IH]; intros P lg Hn; cbn [partials_loop].
  { exists [], lg. rewrite app_nil_r. split; [done|]. split; [constructor|done]. }
  destruct (partial_loop_spec st P τ [] τ (Init m) lg Hi) as (steps & lg1 & -> & Hr & Hn1); [done|done|set_solver|done|].
  go_simpl. replace (zlen P + 1) with (zlen (P ++ [τ])) by len.
  destruct (IH (P ++ [τ]) lg1 Hn1) as (lins & lg2 & -> & Hr2 & Hn2). go_simpl.
  eexists _, lg2. split; [done|]. split; [by constructor|]. intros j. specialize (Hn2 j).
  by rewrite <- app_assoc in Hn2.
Qed.

Lemma visualize_partition_spec partials :
  GoSort longer sortPartials → Forall (legal m h (Init m)) partials →
  ∃ d, visualize_partition m h partials = Done d ∧ partition_ok describe describeState partials d.
Proof.
  intros Hs Hl. destruct history_loop_shows as (st & Hrun & Hi & Hsh).
  destruct (partials_loop_spec st [] (sortPartials partials) (mkLargest ∅ ∅) Hi) as (lins & lg & Hp & Hr & Hn).
  - by rewrite sort_perm.
  - intros j. unfold noted. cbn. rewrite !lookup_empty. set_solver.
  - unfold visualize_partition. rewrite Hrun. go_simpl. change 0 with (zlen (A:=list Z) []). rewrite Hp. go_simpl.
    eexists. split; [done|]. split; [apply Hi|]. split; [done|]. split; [done|]. intros j. specialize (Hn j). unfold noted in Hn.
    cbn in *. destruct (largestIndex lg !! j), (largestSize lg !! j); naive_solver.
Qed.

End shown.

Lemma computeVisualizationData_total (model : Model V S) eqf mapRange fuel hist timeout sched kills r info
    describe describeState :
  let fm := fillDefault fmtV fmtS model in
  GoSort longer sortPartials → LawfulModel fm eqf → (∀ l, mapRange l ≡ₚ l) →
  (∀ h, h ∈ hist → checkable h ∧ steps_defined fm h) → sends_once sched → TimeoutFires ∉ sched →
  DescribeOperation fm = Some describe → DescribeState fm = Some describeState →
  (∀ h j i o, h ∈ hist → op_values h j i o → ∃ d, describe i o = Done d) →
  checkParallel mapRange fuel fm hist true timeout sched kills = Done (r, info) →
  ∃ data, computeVisualizationData model info = Done data ∧ length data = length hist ∧ length (li_partialLinearizations info) = length hist ∧
    (∀ p h ts τ, hist !! p = Some h → li_partialLinearizations info !! p = Some ts → τ ∈ ts →
      partial_linearization fm h τ ∧ τ ≠ [] ∧ (r = Ok → τ ≡ₚ calls_of h)) ∧
    ∀ p h ts d, hist !! p = Some h → li_partialLinearizations info !! p = Some ts → data !! p = Some d →
      partition_ok fm h describe describeState ts d ∧ sortPartials ts ≡ₚ ts ∧
      StronglySorted (fun τ τ' => zlen τ' ≤ zlen τ) (sortPartials ts).
Proof.
  intros fm Hs Hlm Hmr Hck Hso Hto Hop Hst Hd Hrun.
  destruct (checkParallel_partials mapRange fuel fm hist true eqf timeout sched kills r info)
    as (Hh & Hlen & Hpl); [done..|].
  assert (∀ p h ts, hist !! p = Some h → li_partialLinearizations info !! p = Some ts →
    ∃ d, visualize_partition fm h ts = Done d ∧ partition_ok fm h describe describeState ts d) as Hpart.
  { intros p h ts Hp Hts. assert (h ∈ hist) as Hin by eauto with go_lists.
    apply visualize_partition_spec; [by apply Hck|done|done|by intros; eapply Hd|done|].
    apply Forall_forall. intros τ Hτ. by eapply Hpl. }
  unfold computeVisualizationData. fold fm. rewrite Hh.
  match goal with |- context [go_map ?f ?l] => destruct (go_map_total f l) as [data Hdata] end;
    [|exists data; split; [exact Hdata|]].
  { intros p Hp%elem_of_seq. destruct (lookup_lt_is_Some_2 hist p) as [h Hhp]; [lia|].
    destruct (lookup_lt_is_Some_2 (li_partialLinearizations info) p) as [ts Hts]; [lia|].
    cbn. rewrite (idx_nat _ _ _ Hhp). go_simpl. rewrite (idx_nat _ _ _ Hts). go_simpl.
    destruct (Hpart p h ts Hhp Hts) as (d & ? & _). eauto. }
  split; [by rewrite (go_map_length _ _ _ Hdata), length_seq|]. split; [done|]. split; [done|].
  intros p h ts d Hp Hts Hdp. destruct (go_map_lookup _ _ _ _ _ Hdata Hdp) as (p' & Hp' & Hf).
  apply lookup_seq in Hp' as [-> _]. cbn in Hf. rewrite (idx_nat _ _ _ Hp) in Hf. go_simpl in Hf.
  rewrite (idx_nat _ _ _ Hts) in Hf. go_simpl in Hf. destruct (Hpart p h ts Hp Hts) as (d' & Hd' & Hok).
  assert (d = d') as -> by congruence. split; [done|]. split; [apply sort_perm|].
  eapply StronglySorted_weaken; [|apply (sort_sorted (less:=longer))]. intros τ τ'. unfold longer.
  rewrite bool_decide_eq_false. lia.
Qed.

(** The result of a verbose check that did not time out can always be
    displayed: the model accepts every partial linearization that is
    replayed, so [computeVisualizationData] does not panic.  The history shows
    client, interval and description of every operation, the partial
    linearizations appear longest first with the states the model goes
    through, and [Largest] leads to a longest one for every operation. *)
Theorem visualization_faithful (model : Model V S) eqf mapRange fuel hist timeout sched kills r info
    describe describeState :
  let fm := fillDefault fmtV fmtS model in
  GoSort longer sortPartials → LawfulModel fm eqf → (∀ l, mapRange l ≡ₚ l) →
  (∀ h, h ∈ hist → checkable h ∧ steps_defined fm h) → sends_once sched → TimeoutFires ∉ sched →
  DescribeOperation fm = Some describe → DescribeState fm = Some describeState →
  (∀ h j i o, h ∈ hist → op_values h j i o → ∃ d, describe i o = Done d) →
  checkParallel mapRange fuel fm hist true timeout sched kills = Done (r, info) →
  ∃ data, computeVisualizationData model info = Done data ∧ length data = length hist ∧
    ∀ p h ts d, hist !! p = Some h → li_partialLinearizations info !! p = Some ts → data !! p = Some d →
      partition_ok fm h describe describeState ts d ∧ sortPartials ts ≡ₚ ts ∧
      StronglySorted (fun τ τ' => zlen τ' ≤ zlen τ) (sortPartials ts).
Proof.
  intros fm Hs Hlm Hmr Hck Hso Hto Hop Hst Hd Hrun.
  destruct (computeVisualizationData_total model eqf mapRange fuel hist timeout sched kills r info describe describeState)
    as (data & ? & ? & _ & _ & ?); [done..|]. eauto.
Qed.

End visualization.
