(* ===== verification/VisualizeFile.v ===== *)
(** * Writing the page ([labs/src/porcupine/visualization.go])

    [Visualize] prints the page with the data of a verdict to a writer;
    [VisualizePath] does so to a new file.  Encoding to JSON, the constant
    [html] around its verb [%s], writing and creating files are parameters;
    errors are strings. *)

From S2P Require Import Prelude PorcupineModel PorcupineCheck Visualization.
Local Open Scope Z_scope.

Section files.
Context {V S : Type} `{!Inhabited V, !EqDecision S}.
Context (fmtV : V → string) (fmtS : S → string) (sortPartials : list (list Z) → list (list Z)).
(** [json.Marshal]: the text and the error. *)
Context (Marshal : list partitionVisualizationData → string * option string).
(** The parts of [html] before and after [%s]. *)
Context (html_before html_after : string).
(** [Write] on an output that holds a text: what it holds then, and the error. *)
Context (Write : string → string → string * option string).
(** [os.Create]: the error, if the file cannot be created. *)
Context (Create : gmap string string → string → option string).

Definition Visualize (model : Model V S) (info : linearizationInfo V) (output : string) : go (string * option string) :=
  data ← computeVisualizationData fmtV fmtS sortPartials model info;
  let '(jsonData, err) := Marshal data in
  let '(output, err) := Write output (html_before +:+ jsonData +:+ html_after) in
  Done (output, err).

(** The files, and the error or the panic. *)
Definition VisualizePath (model : Model V S) (info : linearizationInfo V) (path : string) (fs : gmap string string)
    : gmap string string * go (option string) :=
  match Create fs path with
  | Some err => (fs, Done (Some err))
  | None =>
      let fs := <[path := ""]> fs in
      match Visualize model info "" with
      | Done (content, err) => (<[path := content]> fs, Done err)
      | Panic => (fs, Panic)
      | Stuck => (fs, Stuck)
      end
  end.

(** What [VisualizePath] does: no file is touched if it cannot be created; a
    verdict that cannot be displayed leaves the file empty; otherwise exactly
    this file is replaced, by what is written for the page, and the error is
    that of writing. *)
Theorem VisualizePath_spec model info path fs :
  let '(fs', r) := VisualizePath model info path fs in
  match Create fs path with
  | Some err => fs' = fs ∧ r = Done (Some err)
  | None =>
      (∀ other, other ≠ path → fs' !! other = fs !! other) ∧
      match computeVisualizationData fmtV fmtS sortPartials model info with
      | Done data =>
          let w := Write "" (html_before +:+ (Marshal data).1 +:+ html_after) in
          fs' !! path = Some w.1 ∧ r = Done w.2
      | _ => fs' !! path = Some "" ∧ ∀ o, r ≠ Done o
      end
  end.
Proof.
  unfold VisualizePath. destruct (Create fs path) as [err|]; [done|]. unfold Visualize.
  destruct (computeVisualizationData fmtV fmtS sortPartials model info) as [data| |]; go_simpl.
  - destruct (Marshal data) as [json merr]. cbn [fst].
    destruct (Write "" (html_before +:+ json +:+ html_after)) as [content werr]. cbn. split.
    + intros other Hne. by rewrite !lookup_insert_ne.
    + by rewrite lookup_insert_eq.
  - split; [intros other Hne; by rewrite lookup_insert_ne|]. by rewrite lookup_insert_eq.
  - split; [intros other Hne; by rewrite lookup_insert_ne|]. by rewrite lookup_insert_eq.
Qed.

(** The error of the encoder is lost: [err] is assigned again. *)
Theorem Visualize_drops_error model info data output json merr content :
  computeVisualizationData fmtV fmtS sortPartials model info = Done data → Marshal data = (json, Some merr) →
  Write output (html_before +:+ json +:+ html_after) = (content, None) →
  Visualize model info output = Done (content, None).
Proof. intros Hd Hm Hw. unfold Visualize. rewrite Hd. go_simpl. by rewrite Hm, Hw. Qed.

End files.
