(* ===== verification/Page.v ===== *)
(** * The page: data and layout ([labs/src/porcupine/visualization.go])

    The constant [html] holds the page that shows a verdict: a script whose
    function [render] gives every event and every linearization point a
    position and draws them.  This file models the first half of [render],
    up to the comment "Solved, now draw UI": the ids of the events, the
    repair of shared timestamps, and the left-to-right scan that maps
    timestamps to x-positions.

    Numbers of the page are exact.  A timestamp is an integer or the mean of
    two of them, and is kept doubled, as an element of [Z]; a position is a
    rational, or [NaN] where the script computes with [undefined].  The
    script's exceptions ([TypeError]) are [Panic]. *)

From Stdlib Require Import QArith Qminmax.
From S2P Require Import Prelude Visualization.
Local Open Scope Z_scope.

(** ** Numbers *)

Inductive num := Num (q : Q) | NaN.

Definition px (z : Z) : num := Num (inject_Z z).

(** What is read where nothing is stored ([undefined]) is not a number. *)
Definition defined (o : option num) : num := match o with Some n => n | None => NaN end.

(** Arithmetic is not a number where an argument is not. *)
Definition lift2 (f : Q → Q → Q) (a b : num) : num :=
  match a, b with Num a, Num b => Num (f a b) | _, _ => NaN end.

(** [a + b], [a - b], [a / 2] and [Math.max(a, b)]. *)
Definition nadd : num → num → num := lift2 Qplus.
Definition nsub : num → num → num := lift2 Qminus.
Definition nhalf (a : num) : num := match a with Num a => Num (a / 2)%Q | NaN => NaN end.
Definition nmax : num → num → num := lift2 Qmax.

Definition PADDING : Z := 10.
Definition BOX_HEIGHT : Z := 30.
Definition BOX_SPACE : Z := 15.
Definition XOFF : Z := 20.
Definition EPSILON : Z := 20.
Definition LINE_BLEED : Z := 5.
Definition BOX_GAP : Z := 20.
Definition BOX_TEXT_PADDING : Z := 10.

(** ** Events

    The objects of all histories live in one store, which is also the map
    [byGid]: the id of an event is its place there, and a partition refers to
    its events by their ids.  [OriginalEnd] is set by the repair. *)

Record el := mkEl {
  el_ClientId : Z; el_Start : Z; el_End : Z; el_OriginalEnd : Z; el_Description : string }.

Record part := mkPart {
  pt_History : list nat;
  pt_PartialLinearizations : list (list linearizationStep);
  pt_Largest : gmap Z Z;
}.

Record prepared := mkPrepared {
  byGid : list el;
  pdata : list part;
  allTimestamps : gset Z;
  startTimestamps : gset Z;
}.

(** [let maxClient = -1; data.forEach(...)] *)
Definition maxClient (data : list partitionVisualizationData) : Z :=
  foldl (fun c partition => foldl (fun c x => c `max` he_ClientId x) c (History partition)) (-1) data.

Definition nClient (data : list partitionVisualizationData) : Z := maxClient data + 1.

(** One event gets its id; [gid] is [length (byGid st)]. *)
Definition give_gid (st : prepared * list nat) (x : historyElement) : prepared * list nat :=
  let '(st, gids) := st in
  let start := 2 * he_Start x in
  let stop := 2 * he_End x in
  (mkPrepared (byGid st ++ [mkEl (he_ClientId x) start stop stop (he_Description x)]) (pdata st)
     ({[ stop ]} ∪ ({[ start ]} ∪ allTimestamps st)) ({[ start ]} ∪ startTimestamps st),
   gids ++ [length (byGid st)]).

Definition give_gids (st : prepared) (partition : partitionVisualizationData) : prepared :=
  let '(st, gids) := foldl give_gid (st, []) (History partition) in
  mkPrepared (byGid st)
    (pdata st ++ [mkPart gids (PartialLinearizations partition) (Largest partition)])
    (allTimestamps st) (startTimestamps st).

Definition prepare (data : list partitionVisualizationData) : prepared :=
  foldl give_gids (mkPrepared [] [] ∅ ∅) data.

(** ** Timestamps *)

Definition ts_less (a b : Z) : bool := bool_decide (a < b).

(** [nextTs]: every timestamp but the last is mapped to the one after it. *)
Fixpoint nextTs (sorted : list Z) : gmap Z Z :=
  match sorted with
  | a :: (b :: _) as rest => <[a := b]> (nextTs rest)
  | _ => ∅
  end.

(** The event after the repair, and the timestamp it adds. *)
Definition tweak_el (starts : gset Z) (next : gmap Z Z) (x : el) : el * option Z :=
  let stop := el_End x in
  if bool_decide (stop ∈ starts) then
    match next !! stop with
    | Some nx =>
        let tweaked := (stop + nx) / 2 in
        (mkEl (el_ClientId x) (el_Start x) tweaked stop (el_Description x), Some tweaked)
    | None => (mkEl (el_ClientId x) (el_Start x) stop stop (el_Description x), None)
    end
  else (mkEl (el_ClientId x) (el_Start x) stop stop (el_Description x), None).

Definition tweak_step (starts : gset Z) (next : gmap Z Z) (st : list el * gset Z) (x : el)
    : list el * gset Z :=
  let '(x, new) := tweak_el starts next x in
  (st.1 ++ [x], match new with Some t => {[ t ]} ∪ st.2 | None => st.2 end).

Definition tweak_loop (starts : gset Z) (next : gmap Z Z) (els : list el) (all : gset Z)
    : list el * gset Z := foldl (tweak_step starts next) ([], all) els.

Section layout.
(** [Array.prototype.sort] on timestamps and on events, and the width that
    the browser gives a text ([getBBox]). *)
Context (sortTs : list Z → list Z).

(** The events and the sorted timestamps after the repair. *)
Definition tweak (p : prepared) : prepared * list Z :=
  let sorted := sortTs (elements (allTimestamps p)) in
  let '(els, all) := tweak_loop (startTimestamps p) (nextTs sorted) (byGid p) (allTimestamps p) in
  (mkPrepared els (pdata p) all (startTimestamps p), sortTs (elements all)).

(** ** What the scan needs *)

Record event := mkEvt { ev_start : Z; ev_end : Z; ev_width : Q; ev_gid : nat }.

Definition event_less (a b : event) : bool := bool_decide (ev_end a < ev_end b).

Context (sortEvents : list event → list event).
Context (textWidth : string → Q).

Definition make_event (els : list el) (gid : nat) : go event :=
  x ← idx els (Z.of_nat gid);
  Done (mkEvt (el_Start x) (el_End x)
          (textWidth (el_Description x) + inject_Z (2 * BOX_TEXT_PADDING))%Q gid).

Definition byEnd (p : prepared) : go (list event) :=
  l ← go_map (make_event (byGid p)) (concat (pt_History <$> pdata p));
  Done (sortEvents l).

(** The tables that lead from an event to the linearizations through it, with
    its position there, and to those it could not extend. *)
Record tables := mkTables {
  eventToLinearizations : list (list (nat * Z));
  eventIllegalLast : list (list nat);
  allLinearizations : list (list nat);
}.

(** [t[gid].push(x)] *)
Definition push_at {A} (t : list (list A)) (gid : nat) (x : A) : go (list (list A)) :=
  l ← idx t (Z.of_nat gid); upd t (Z.of_nat gid) (l ++ [x]).

(** [lin.forEach((id, position) => ...)] *)
Fixpoint globalize (hist : list nat) (lgid : nat) (lin : list linearizationStep) (position : Z)
    (e2l : list (list (nat * Z))) : go (list nat * list (list (nat * Z))) :=
  match lin with
  | [] => Done ([], e2l)
  | id :: lin =>
      gid ← idx hist (ls_Index id);
      e2l ← push_at e2l gid (lgid, position);
      '(globalized, e2l) ← globalize hist lgid lin (position + 1) e2l;
      Done (gid :: globalized, e2l)
  end.

(** The indices of [partition['History']] that a linearization leaves out. *)
Definition left_out (hist : list nat) (lin : list linearizationStep) : list (Z * nat) :=
  filter (fun x => x.1 ∉ ls_Index <$> lin) (zip (Z.of_nat <$> seq 0 (length hist)) hist).

(** [minEnd], with [None] for [Infinity]. *)
Definition min_opt (m : option Z) (z : Z) : option Z :=
  match m with Some m => Some (m `min` z) | None => Some z end.

Definition before (z : Z) (m : option Z) : bool :=
  match m with Some m => bool_decide (z < m) | None => true end.

Definition minEnd (ends : list Z) : option Z := foldl min_opt None ends.

(** The events that could come next: left out, and started before any event
    left out ends. *)
Definition possible_next (els : list el) (hist : list nat) (lin : list linearizationStep)
    : go (list (Z * nat * el)) :=
  rest ← go_map (fun '(index, gid) => x ← idx els (Z.of_nat gid); Done (index, gid, x))
           (left_out hist lin);
  let m := minEnd ((fun x => el_End x.2) <$> rest) in
  Done (filter (fun x => before (el_Start x.2) m) rest).

Fixpoint push_all (lgid : nat) (gids : list nat) (eil : list (list nat)) : go (list (list nat)) :=
  match gids with
  | [] => Done eil
  | gid :: gids => eil ← push_at eil gid lgid; push_all lgid gids eil
  end.

(** One partial linearization; [lgid] is the number of those before. *)
Definition register (els : list el) (hist : list nat) (st : tables) (lin : list linearizationStep)
    : go tables :=
  let lgid := length (allLinearizations st) in
  '(globalized, e2l) ← globalize hist lgid lin 0 (eventToLinearizations st);
  next ← possible_next els hist lin;
  eil ← push_all lgid ((fun x => x.1.2) <$> next) (eventIllegalLast st);
  Done (mkTables e2l eil (allLinearizations st ++ [globalized])).

Fixpoint register_lins els hist (lins : list (list linearizationStep)) (st : tables) : go tables :=
  match lins with
  | [] => Done st
  | lin :: lins => st ← register els hist st lin; register_lins els hist lins st
  end.

Fixpoint register_parts els (parts : list part) (st : tables) : go tables :=
  match parts with
  | [] => Done st
  | p :: parts =>
      st ← register_lins els (pt_History p) (pt_PartialLinearizations p) st;
      register_parts els parts st
  end.

Definition make_tables (p : prepared) : go tables :=
  let n := length (byGid p) in
  register_parts (byGid p) (pdata p) (mkTables (replicate n []) (replicate n []) []).

(** ** The left-to-right scan *)

(** [xPos[t]]; a missing key reads as [undefined]. *)
Definition xpos (xPos : gmap Z num) (t : Z) : num := defined (xPos !! t).

(** [l[l.length-1]] *)
Definition last_num (l : list num) : num := defined (last l).

(** [l[i]] for a number [i], [undefined] out of range. *)
Definition num_at (l : list num) (i : Z) : num :=
  if bool_decide (0 ≤ i) then defined (l !! Z.to_nat i) else NaN.

Section scan.
Context (els : list el) (tb : tables).

(** One more point of the linearization [lin], after the points [pts]. *)
Definition next_point (xPos : gmap Z num) (lin : list nat) (pts : list num) : go (list num) :=
  nextGid ← idx lin (zlen pts);
  x ← idx els (Z.of_nat nextGid);
  let start := xpos xPos (el_Start x) in
  let nextPos :=
    if bool_decide (zlen pts ≠ 0) then nmax start (nadd (last_num pts) (px EPSILON)) else start in
  Done (pts ++ [nextPos]).

Fixpoint add_points (n : nat) (xPos : gmap Z num) (lin : list nat) (pts : list num) : go (list num) :=
  match n with
  | O => Done pts
  | S n => pts ← next_point xPos lin pts; add_points n xPos lin pts
  end.

(** The body of [forEach(li => ...)]. *)
Definition fit_point (xPos : gmap Z num) (st : num * list (list num)) (li : nat * Z)
    : go (num * list (list num)) :=
  let '(pos, lps) := st in
  let '(index, position) := li in
  lin ← idx (allLinearizations tb) (Z.of_nat index);
  pts ← idx lps (Z.of_nat index);
  pts ← add_points (Z.to_nat (position + 1 - zlen pts)) xPos lin pts;
  lps ← upd lps (Z.of_nat index) pts;
  Done (nmax pos (num_at pts position), lps).

Fixpoint fit_points xPos (l : list (nat * Z)) (st : num * list (list num))
    : go (num * list (list num)) :=
  match l with
  | [] => Done st
  | li :: l => st ← fit_point xPos st li; fit_points xPos l st
  end.

Fixpoint fit_illegal (l : list nat) (pos : num) (lps : list (list num)) : go num :=
  match l with
  | [] => Done pos
  | li :: l =>
      lin ← idx lps (Z.of_nat li);
      fit_illegal l (nmax pos (nadd (last_num lin) (px EPSILON))) lps
  end.

(** The points to fit into the box of an event. *)
Definition points_of (gid : nat) : go (list (nat * Z)) :=
  e2l ← idx (eventToLinearizations tb) (Z.of_nat gid);
  eil ← idx (eventIllegalLast tb) (Z.of_nat gid);
  ill ← go_map (fun index => lin ← idx (allLinearizations tb) (Z.of_nat index);
                             Done (index, zlen lin - 1)) eil;
  Done (e2l ++ ill).

(** The body of [while (eventIndex < byEnd.length && ...)]. *)
Definition fit_event (xPos : gmap Z num) (e : event) (st : num * list (list num))
    : go (num * list (list num)) :=
  let '(pos, lps) := st in
  let pos := nmax pos (nadd (xpos xPos (ev_start e)) (Num (ev_width e))) in
  l ← points_of (ev_gid e);
  '(pos, lps) ← fit_points xPos l (pos, lps);
  eil ← idx (eventIllegalLast tb) (Z.of_nat (ev_gid e));
  pos ← fit_illegal eil pos lps;
  Done (pos, lps).

(** The loop; the events from [eventIndex] on are [evs]. *)
Fixpoint fit_events (xPos : gmap Z num) (ts : Z) (evs : list event) (st : num * list (list num))
    : go (num * list (list num) * list event) :=
  match evs with
  | [] => Done (st, [])
  | e :: evs' =>
      if bool_decide (ev_end e ≤ ts)
      then st ← fit_event xPos e st; fit_events xPos ts evs' st
      else Done (st, evs)
  end.

(** [for (let i = 1; ...)]; [prev] is the timestamp before. *)
Fixpoint scan_loop (prev : Z) (rest : list Z) (evs : list event) (xPos : gmap Z num)
    (lps : list (list num)) : go (gmap Z num * list (list num)) :=
  match rest with
  | [] => Done (xPos, lps)
  | ts :: rest =>
      '(pos, lps, evs) ← fit_events xPos ts evs (nadd (xpos xPos prev) (px BOX_GAP), lps);
      scan_loop ts rest evs (<[ts := pos]> xPos) lps
  end.

Definition scan (sorted : list Z) (evs : list event) : go (gmap Z num * list (list num)) :=
  let lps := replicate (length (allLinearizations tb)) [] in
  match sorted with
  | [] => Done (∅, lps)
  | t :: rest => scan_loop t rest evs {[ t := px 0 ]} lps
  end.

End scan.

(** Everything [render] knows when it starts to draw. *)
Record solved := mkSolved {
  sv_page : prepared;
  sv_sorted : list Z;
  sv_xPos : gmap Z num;
  sv_points : list (list num);
}.

Definition solve (data : list partitionVisualizationData) : go solved :=
  let '(p, sorted) := tweak (prepare data) in
  evs ← byEnd p;
  tb ← make_tables p;
  '(xPos, lps) ← scan (byGid p) tb sorted evs;
  Done (mkSolved p sorted xPos lps).

End layout.
