(* ===== verification/PageLayout.v ===== *)
(** * The layout is the least one that fits ([labs/src/porcupine/visualization.go])

    What the comment "Compute layout" of [render] promises: the scan maps
    timestamps to positions so that distinct timestamps are a gap apart,
    every box is wide enough for its text, and every linearization point
    fits into the box of its event; and no other such map places any
    timestamp further to the left. *)

From Stdlib Require Import QArith Qminmax Lqa.
From S2P Require Import Prelude Visualization Page.
Local Open Scope Z_scope.
Local Open Scope Q_scope.

(** ** Points of a linearization *)

(** The leftmost positions of a sequence of points [EPSILON] apart, each not
    before the position of its timestamp. *)
Fixpoint chain (x : Z → Q) (prev : option Q) (ts : list Z) : list Q :=
  match ts with
  | [] => []
  | t :: ts =>
      let q := match prev with Some p => Qmax (x t) (p + inject_Z EPSILON) | None => x t end in
      q :: chain x (Some q) ts
  end.

Lemma chain_length x prev ts : length (chain x prev ts) = length ts.
Proof. revert prev. induction ts as [|t ts IH]; intros prev; cbn; [done|by rewrite IH]. Qed.

Lemma chain_agree x x' prev ts : (∀ t, t ∈ ts → x t = x' t) → chain x prev ts = chain x' prev ts.
Proof.
  revert prev. induction ts as [|t ts IH]; intros prev Ht; [done|]. cbn.
  rewrite (Ht t) by set_solver. f_equal. apply IH. set_solver.
Qed.

Lemma chain_take x prev ts k : take k (chain x prev ts) = chain x prev (take k ts).
Proof. revert prev k. induction ts as [|t ts IH]; intros prev [|k]; cbn; [done..|]. by rewrite IH. Qed.

Lemma chain_snoc x prev ts t :
  chain x prev (ts ++ [t]) = chain x prev ts ++
    [match (match last (chain x prev ts) with Some p => Some p | None => prev end) with
     | Some p => Qmax (x t) (p + inject_Z EPSILON) | None => x t end].
Proof.
  revert prev. induction ts as [|t' ts IH]; intros prev; [done|]. cbn [app chain].
  rewrite IH. cbn [app]. do 2 f_equal. rewrite last_cons. by destruct (last _).
Qed.

(** The points [pts] go through events that start at [ts]: each at or after
    the position of its start, [EPSILON] apart. *)
Inductive points_from (x : Z → Q) : option Q → list Z → list Q → Prop :=
| points_nil prev : points_from x prev [] []
| points_cons prev t ts q qs :
    x t <= q → (∀ p, prev = Some p → p + inject_Z EPSILON <= q) →
    points_from x (Some q) ts qs → points_from x prev (t :: ts) (q :: qs).

Lemma chain_points x prev ts : points_from x prev ts (chain x prev ts).
Proof.
  revert prev. induction ts as [|t ts IH]; intros prev; constructor; [| |apply IH].
  - destruct prev; [apply Q.le_max_l|apply Qle_refl].
  - intros p ->. apply Q.le_max_r.
Qed.

Lemma points_take x prev ts qs k : points_from x prev ts qs → points_from x prev (take k ts) (take k qs).
Proof.
  intros Hq. revert k. induction Hq as [prev|prev t ts q qs Ht Hp Hq IH]; intros [|k]; cbn; constructor; auto.
Qed.

Lemma points_after x prev ts qs (k : nat) q t :
  points_from x prev ts qs → qs !! k = Some q → ts !! k = Some t → x t <= q.
Proof.
  intros Hq. revert k. induction Hq as [prev|prev t' ts q' qs Ht Hp Hq IH]; intros [|k]; cbn; try done; [|apply IH].
  by intros [= <-] [= <-].
Qed.

Definition opt_le (a b : option Q) : Prop :=
  match a, b with Some a, Some b => a <= b | None, _ => True | Some _, None => False end.

(** No choice of points is further to the left. *)
Lemma chain_least x y prev prev' ts qs :
  (∀ t, t ∈ ts → x t <= y t) → opt_le prev prev' → points_from y prev' ts qs →
  Forall2 Qle (chain x prev ts) qs.
Proof.
  intros Hx Hp Hq. revert prev Hp Hx.
  induction Hq as [prev'|prev' t ts q qs Ht Hprev Hq IH]; intros prev Hp Hx; [constructor|].
  cbn [chain]. assert (x t <= y t) by (apply Hx; set_solver). constructor.
  - destruct prev as [p|]; [|lra]. destruct prev' as [p'|]; [|done]. cbn in Hp.
    specialize (Hprev _ eq_refl). apply Q.max_lub; lra.
  - apply IH; [|set_solver]. cbn. destruct prev as [p|]; [|lra]. destruct prev' as [p'|]; [|done].
    cbn in Hp. specialize (Hprev _ eq_refl). apply Q.max_lub; lra.
Qed.

Lemma elem_of_take_le {A} (l : list A) n k x : (n ≤ k)%nat → x ∈ take n l → x ∈ take k l.
Proof. intros Hn. rewrite !elem_of_take. naive_solver lia. Qed.

Lemma elem_of_concat {A} (ls : list (list A)) x : x ∈ concat ls ↔ ∃ l, x ∈ l ∧ l ∈ ls.
Proof.
  induction ls as [|l ls IH]; cbn; [set_solver|]. rewrite elem_of_app, IH. setoid_rewrite elem_of_cons. naive_solver.
Qed.

Definition nums (l : list Q) : list num := Num <$> l.

Lemma nums_length l : length (nums l) = length l.
Proof. apply length_fmap. Qed.

(** ** Known positions *)

Definition known (X : gmap Z num) (t : Z) : Prop := ∃ q, X !! t = Some (Num q).
Definition x_of (X : gmap Z num) (t : Z) : Q := match xpos X t with Num q => q | NaN => 0 end.

Lemma known_xpos X t : known X t → xpos X t = Num (x_of X t).
Proof. intros [q Hq]. unfold x_of, xpos. by rewrite Hq. Qed.

Lemma known_insert X t t' q : known X t → known (<[t' := Num q]> X) t.
Proof.
  intros [q' Hq]. destruct (decide (t' = t)) as [->|Hne].
  - exists q. apply lookup_insert_eq.
  - exists q'. by rewrite lookup_insert_ne.
Qed.

Lemma x_of_insert X t q : x_of (<[t := Num q]> X) t = q.
Proof. unfold x_of, xpos. by rewrite lookup_insert_eq. Qed.

Lemma x_of_insert_ne X t t' q : t' ≠ t → x_of (<[t := Num q]> X) t' = x_of X t'.
Proof. intros. unfold x_of, xpos. by rewrite lookup_insert_ne. Qed.

Lemma nmax_Num a b : nmax (Num a) (Num b) = Num (Qmax a b).
Proof. done. Qed.

Lemma nadd_Num a b : nadd (Num a) (Num b) = Num (a + b).
Proof. done. Qed.

(** ** The scan *)

Section scan.
Context (els : list el) (tb : tables).
Implicit Types (X : gmap Z num) (lps : list (list num)) (e : event).

Definition start_of (gid : nat) : Z := from_option el_Start 0%Z (els !! gid).
Definition lin_of (index : nat) : list nat := default [] (allLinearizations tb !! index).
Definition starts (index : nat) : list Z := start_of <$> lin_of index.

(** The point of linearization [index] at [position], under the map [x]. *)
Definition point (x : Z → Q) (index : nat) (position : Z) : Q :=
  default 0 (chain x None (starts index) !! Z.to_nat position).

(** The points laid out so far. *)
Record pts_ok X lps : Prop := {
  po_len : length lps = length (allLinearizations tb);
  po_pts : ∀ index pts, lps !! index = Some pts →
    pts = nums (chain (x_of X) None (take (length pts) (starts index))) ∧
    (∀ t, t ∈ take (length pts) (starts index) → known X t);
}.

(** The points of linearization [index] up to [position] can be laid out. *)
Record placeable X (li : nat * Z) : Prop := {
  pl_range : (0 ≤ li.2 < zlen (lin_of li.1))%Z;
  pl_gids : ∀ gid, gid ∈ lin_of li.1 → is_Some (els !! gid);
  pl_known : ∀ t, t ∈ take (Z.to_nat (li.2 + 1)) (starts li.1) → known X t;
}.

Lemma placeable_lin X li : placeable X li → allLinearizations tb !! li.1 = Some (lin_of li.1).
Proof.
  intros [Hr _ _]. unfold lin_of in *. destruct (allLinearizations tb !! li.1); [done|].
  unfold zlen in Hr. cbn in Hr. lia.
Qed.

Lemma starts_length index : length (starts index) = length (lin_of index).
Proof. unfold starts. by rewrite length_fmap. Qed.

Lemma next_point_spec X index pts :
  pts = nums (chain (x_of X) None (take (length pts) (starts index))) →
  (length pts < length (lin_of index))%nat →
  (∀ gid, gid ∈ lin_of index → is_Some (els !! gid)) →
  (∀ t, t ∈ take (S (length pts)) (starts index) → known X t) →
  next_point els X (lin_of index) pts =
    Done (nums (chain (x_of X) None (take (S (length pts)) (starts index)))).
Proof.
  intros Hpts Hlt Hg Hk. unfold next_point.
  destruct (lookup_lt_is_Some_2 _ _ Hlt) as [gid Hgid].
  unfold zlen. rewrite (idx_nat _ _ _ Hgid). go_simpl.
  destruct (Hg gid) as [x Hx]; [eauto with go_lists|]. rewrite (idx_nat _ _ _ Hx). go_simpl.
  assert (starts index !! length pts = Some (el_Start x)) as Hs.
  { unfold starts. rewrite list_lookup_fmap, Hgid. cbn. unfold start_of. by rewrite Hx. }
  rewrite (take_S_r _ _ _ Hs) in Hk |- *.
  rewrite (known_xpos X) by (apply Hk; set_solver).
  rewrite chain_snoc. unfold nums. rewrite fmap_app. fold (nums (chain (x_of X) None (take (length pts) (starts index)))).
  rewrite <- Hpts. cbn [fmap list_fmap]. do 3 f_equal.
  set (c := chain (x_of X) None (take (length pts) (starts index))) in *.
  assert (last pts = Num <$> last c) as Hl by (rewrite Hpts; apply fmap_last).
  assert (length pts = length c) as Hlen by (rewrite Hpts at 1; apply nums_length).
  destruct (last c) as [p|] eqn:Elc.
  - rewrite bool_decide_eq_true_2; [|destruct c; [done|rewrite Hlen; cbn; lia]].
    unfold last_num. by rewrite Hl.
  - apply last_None in Elc. rewrite bool_decide_eq_false_2; [done|]. rewrite Hlen, Elc. cbn. lia.
Qed.

Lemma add_points_spec X index n pts :
  pts = nums (chain (x_of X) None (take (length pts) (starts index))) →
  (length pts + n ≤ length (lin_of index))%nat →
  (∀ gid, gid ∈ lin_of index → is_Some (els !! gid)) →
  (∀ t, t ∈ take (length pts + n) (starts index) → known X t) →
  add_points els n X (lin_of index) pts =
    Done (nums (chain (x_of X) None (take (length pts + n) (starts index)))).
Proof.
  revert pts. induction n as [|n IH]; intros pts Hpts Hlt Hg Hk; cbn [add_points].
  { by rewrite Nat.add_0_r, <- Hpts. }
  rewrite (next_point_spec X index pts Hpts); [|lia|done|].
  2:{ intros t Ht. apply Hk. by eapply elem_of_take_le; [|exact Ht]; lia. }
  go_simpl. set (pts' := nums _).
  assert (length pts' = S (length pts)) as Hlen.
  { unfold pts'. rewrite nums_length, chain_length, length_take, starts_length. lia. }
  replace (length pts + S n)%nat with (length pts' + n)%nat in Hk |- * by lia.
  apply (IH pts'); [|lia|done|done]. by rewrite Hlen.
Qed.

(** Positions are compared through their upper bounds: [lub q l] holds when
    [q] is the maximum of [l]. *)
Definition lub (q : Q) (l : list Q) : Prop := ∀ z, q <= z ↔ Forall (fun d => d <= z) l.

Lemma lub_max q l d : lub q l → lub (Qmax q d) (d :: l).
Proof. intros Hq z. rewrite Q.max_lub_iff, (Hq z), Forall_cons. tauto. Qed.

Lemma lub_ge q l d : lub q l → d ∈ l → d <= q.
Proof. intros Hq Hd. assert (Forall (fun d => d <= q) l) as Hf by (apply Hq, Qle_refl).
  rewrite Forall_forall in Hf. by apply Hf. Qed.

Lemma lub_perm q l l' : (∀ d, d ∈ l ↔ d ∈ l') → lub q l → lub q l'.
Proof. intros Hl Hq z. rewrite (Hq z), !Forall_forall. by setoid_rewrite Hl. Qed.

(** [lps'] has at least the points of [lps]. *)
Definition grown lps lps' : Prop :=
  ∀ index pts, lps !! index = Some pts → ∃ pts', lps' !! index = Some pts' ∧ (length pts ≤ length pts')%nat.

#[local] Instance grown_preorder : PreOrder grown.
Proof.
  split; [intros lps index pts ?; eauto|]. intros l1 l2 l3 H1 H2 index pts (pts2 & Hp & ?)%H1.
  destruct (H2 _ _ Hp) as (pts3 & ? & ?). exists pts3. split; [done|lia].
Qed.

(** The points [l] are laid out. *)
Definition laid lps (li : nat * Z) : Prop :=
  ∃ pts, lps !! li.1 = Some pts ∧ (li.2 < zlen pts)%Z.

Lemma laid_grown lps lps' li : grown lps lps' → laid lps li → laid lps' li.
Proof. intros Hg (pts & (pts' & ? & ?)%Hg & ?). exists pts'. split; [done|]. unfold zlen in *. lia. Qed.

Lemma pts_at X lps index pts position :
  pts_ok X lps → lps !! index = Some pts → (0 ≤ position < zlen pts)%Z →
  num_at pts position = Num (point (x_of X) index position).
Proof.
  intros Ho Hp Hr. destruct (po_pts _ _ Ho _ _ Hp) as [Hpts _]. unfold num_at.
  rewrite bool_decide_eq_true_2 by lia.
  destruct (lookup_lt_is_Some_2 pts (Z.to_nat position)) as [o Ho']; [unfold zlen in Hr; lia|].
  rewrite Ho'. cbn. unfold nums in Hpts. rewrite Hpts, list_lookup_fmap, <- chain_take in Ho'.
  apply fmap_Some in Ho' as (q & Hq & ->). apply lookup_take_Some in Hq as [Hq _].
  unfold point. by rewrite Hq.
Qed.

Lemma fit_point_spec X pos q l lps li :
  pts_ok X lps → placeable X li → pos = Num q → lub q l →
  ∃ q' lps', fit_point els tb X (pos, lps) li = Done (Num q', lps') ∧
    lub q' (point (x_of X) li.1 li.2 :: l) ∧ pts_ok X lps' ∧ grown lps lps' ∧ laid lps' li.
Proof.
  intros Ho Hpl -> Hq. pose proof (placeable_lin _ _ Hpl) as Hlin. destruct li as [index position].
  destruct Hpl as [Hr Hg Hk]. cbn [fst snd] in *. unfold fit_point.
  destruct (lookup_lt_is_Some_2 lps index) as [pts Hpts].
  { rewrite (po_len _ _ Ho). eauto with go_lists. }
  rewrite (idx_nat _ _ _ Hlin). go_simpl. rewrite (idx_nat _ _ _ Hpts). go_simpl.
  destruct (po_pts _ _ Ho _ _ Hpts) as [Hc Hkn].
  set (n := Z.to_nat (position + 1 - zlen pts)).
  assert (length pts ≤ length (lin_of index))%nat as Hle.
  { rewrite Hc, nums_length, chain_length, length_take, starts_length. lia. }
  assert (length pts + n ≤ length (lin_of index))%nat as Hlen by (unfold n, zlen in *; lia).
  assert (∀ t, t ∈ take (length pts + n) (starts index) → known X t) as Hkn'.
  { intros t Ht. destruct (decide (length pts + n ≤ length pts)%nat).
    - apply Hkn. by eapply elem_of_take_le; [|exact Ht].
    - apply Hk. eapply elem_of_take_le; [|exact Ht]. unfold n, zlen in *. lia. }
  rewrite (add_points_spec X index n pts Hc Hlen Hg Hkn'). go_simpl.
  set (pts' := nums _).
  assert (length pts' = (length pts + n)%nat) as Hlen'.
  { unfold pts'. rewrite nums_length, chain_length, length_take, starts_length. lia. }
  assert (index < length lps)%nat as Hi by eauto with go_lists.
  rewrite upd_in_range by len. go_simpl. rewrite Nat2Z.id.
  assert (pts_ok X (<[index := pts']> lps)) as Ho'.
  { split; [by rewrite length_insert; apply Ho|]. intros j p. rewrite list_lookup_insert. case_decide as Hj.
    - destruct Hj as [<- _]. intros [= <-]. rewrite Hlen'. done.
    - apply (po_pts _ _ Ho). }
  assert (<[index := pts']> lps !! index = Some pts') as Hins by (by apply list_lookup_insert_eq).
  rewrite (pts_at X _ index pts' position Ho' Hins) by (unfold n, zlen in *; lia). rewrite nmax_Num.
  eexists _, _. split; [done|]. split; [by apply lub_max|]. split; [done|]. split.
  - intros j p Hj. destruct (decide (index = j)) as [<-|Hne].
    + rewrite Hins. exists pts'. simplify_eq. split; [done|lia].
    + rewrite list_lookup_insert_ne by done. eauto.
  - exists pts'. split; [done|]. cbn. unfold n, zlen in *. lia.
Qed.

Lemma fit_points_spec X ps pos q l lps :
  pts_ok X lps → Forall (placeable X) ps → pos = Num q → lub q l →
  ∃ q' lps', fit_points els tb X ps (pos, lps) = Done (Num q', lps') ∧
    lub q' (((fun li => point (x_of X) li.1 li.2) <$> ps) ++ l) ∧
    pts_ok X lps' ∧ grown lps lps' ∧ Forall (laid lps') ps.
Proof.
  intros Ho Hps. revert pos q l lps Ho.
  induction Hps as [|li ps Hli Hps IH]; intros pos q l lps Ho -> Hq; cbn [fit_points].
  { exists q, lps. split; [done|]. split; [done|]. split; [done|]. split; [reflexivity|constructor]. }
  destruct (fit_point_spec X _ q l lps li Ho Hli eq_refl Hq) as (q1 & lps1 & -> & Hq1 & Ho1 & Hg1 & Hl1).
  go_simpl. destruct (IH _ q1 _ lps1 Ho1 eq_refl Hq1) as (q2 & lps2 & -> & Hq2 & Ho2 & Hg2 & Hl2).
  exists q2, lps2. split; [done|]. split; [|split; [done|split; [by etrans|]]].
  - eapply lub_perm; [|exact Hq2]. intros d. rewrite fmap_cons. set_solver.
  - constructor; [by eapply laid_grown|done].
Qed.

(** The point after the last one, for an event that could not come next. *)
Definition beyond (x : Z → Q) (index : nat) : Q :=
  point x index (zlen (lin_of index) - 1) + inject_Z EPSILON.

Lemma fit_illegal_spec X lps ill q l :
  pts_ok X lps → lub q l →
  (∀ index, index ∈ ill → lin_of index ≠ [] ∧ laid lps (index, zlen (lin_of index) - 1)%Z) →
  ∃ q', fit_illegal ill (Num q) lps = Done (Num q') ∧ lub q' ((beyond (x_of X) <$> ill) ++ l).
Proof.
  intros Ho. revert q l. induction ill as [|index ill IH]; intros q l Hq Hill; cbn [fit_illegal]; [eauto|].
  destruct (Hill index ltac:(set_solver)) as (Hne & pts & Hpts & Hlt). cbn [fst snd] in *.
  rewrite (idx_nat _ _ _ Hpts). go_simpl.
  assert (last_num pts = Num (point (x_of X) index (zlen (lin_of index) - 1))) as ->.
  { destruct (po_pts _ _ Ho _ _ Hpts) as [Hc _].
    assert (length pts ≤ length (lin_of index))%nat as Hle.
    { rewrite Hc, nums_length, chain_length, length_take, starts_length. lia. }
    assert (0 < length (lin_of index))%nat by (destruct (lin_of index); [done|cbn; lia]).
    rewrite <- (pts_at X lps index pts) by (unfold zlen in *; first [done|lia]).
    unfold last_num, num_at, zlen in *. rewrite bool_decide_eq_true_2 by lia. rewrite last_lookup.
    do 2 f_equal. lia. }
  unfold px. rewrite nadd_Num, nmax_Num. fold (beyond (x_of X) index).
  destruct (IH _ _ (lub_max q l (beyond (x_of X) index) Hq) ltac:(set_solver)) as (q' & -> & Hq').
  exists q'. split; [done|]. eapply lub_perm; [|exact Hq']. intros d. rewrite fmap_cons. set_solver.
Qed.

Definition e2l_of (gid : nat) : list (nat * Z) := default [] (eventToLinearizations tb !! gid).
Definition ill_of (gid : nat) : list nat := default [] (eventIllegalLast tb !! gid).
Definition last_point (index : nat) : nat * Z := (index, zlen (lin_of index) - 1)%Z.
Definition pts_of (gid : nat) : list (nat * Z) := e2l_of gid ++ (last_point <$> ill_of gid).

(** What has to be at or before the end of the box of [e]. *)
Definition demands (x : Z → Q) e : list Q :=
  (beyond x <$> ill_of (ev_gid e)) ++
  ((fun li => point x li.1 li.2) <$> pts_of (ev_gid e)) ++ [x (ev_start e) + ev_width e].

Context (sorted : list Z).

(** What makes an event fit for the scan: what it refers to exists, and the
    points up to its own belong to events that start before it ends. *)
Record event_ok e : Prop := {
  eo_e2l : is_Some (eventToLinearizations tb !! ev_gid e);
  eo_eil : is_Some (eventIllegalLast tb !! ev_gid e);
  eo_start : ev_start e ∈ sorted ∧ (ev_start e < ev_end e)%Z;
  eo_end : ev_end e ∈ sorted;
  eo_pts : ∀ li, li ∈ pts_of (ev_gid e) →
    (0 ≤ li.2 < zlen (lin_of li.1))%Z ∧ (∀ gid, gid ∈ lin_of li.1 → is_Some (els !! gid)) ∧
    ∀ t, t ∈ take (Z.to_nat (li.2 + 1)) (starts li.1) → t ∈ sorted ∧ (t < ev_end e)%Z;
}.

Lemma lin_of_lookup index : lin_of index ≠ [] → allLinearizations tb !! index = Some (lin_of index).
Proof. unfold lin_of. by destruct (allLinearizations tb !! index). Qed.

Lemma ill_lin e index :
  event_ok e → index ∈ ill_of (ev_gid e) → lin_of index ≠ [].
Proof.
  intros He Hi. destruct (eo_pts _ He (last_point index)) as [Hr _].
  - unfold pts_of. apply elem_of_app. right. by apply list_elem_of_fmap_2.
  - cbn in Hr. destruct (lin_of index); [unfold zlen in Hr; cbn in Hr; lia|done].
Qed.

Lemma points_of_spec e : event_ok e → points_of tb (ev_gid e) = Done (pts_of (ev_gid e)).
Proof.
  intros He. pose proof (ill_lin e) as Hill. destruct (eo_e2l _ He) as [a Ha], (eo_eil _ He) as [b Hb].
  unfold points_of, pts_of, e2l_of, ill_of in *. rewrite Ha, Hb in *. cbn [default from_option id] in *.
  rewrite (idx_nat _ _ _ Ha). go_simpl. rewrite (idx_nat _ _ _ Hb). go_simpl.
  assert (∀ index, index ∈ b → lin_of index ≠ []) as Hb' by (intros; by apply Hill).
  clear Hb Hill. induction b as [|index b IH]; [done|]. cbn [go_map].
  rewrite (idx_nat _ _ _ (lin_of_lookup index (Hb' index ltac:(set_solver)))). go_simpl.
  assert (∀ index, index ∈ b → lin_of index ≠ []) as Hb2 by set_solver.
  specialize (IH Hb2). revert IH. destruct (go_map _ b); go_simpl; [|done..].
  intros [= IH]. apply app_inv_head in IH. by subst.
Qed.

Lemma event_placeable X e :
  event_ok e → (∀ t, t ∈ sorted → (t < ev_end e)%Z → known X t) →
  Forall (placeable X) (pts_of (ev_gid e)).
Proof.
  intros He Hk. apply Forall_forall. intros li Hli. destruct (eo_pts _ He li Hli) as (Hr & Hg & Ht).
  split; [done..|]. intros t Hti. destruct (Ht t Hti). by apply Hk.
Qed.

Lemma fit_event_spec X e q l lps :
  event_ok e → (∀ t, t ∈ sorted → (t < ev_end e)%Z → known X t) → pts_ok X lps → lub q l →
  ∃ q' lps', fit_event els tb X e (Num q, lps) = Done (Num q', lps') ∧
    lub q' (demands (x_of X) e ++ l) ∧ pts_ok X lps'.
Proof.
  intros He Hk Ho Hq. destruct (eo_start _ He) as [Hs1 Hs2]. unfold fit_event.
  rewrite (known_xpos X) by auto. rewrite nadd_Num, nmax_Num, (points_of_spec e He). go_simpl.
  destruct (fit_points_spec X (pts_of (ev_gid e)) _ _ _ lps Ho (event_placeable X e He Hk) eq_refl
    (lub_max q l (x_of X (ev_start e) + ev_width e) Hq)) as (q1 & lps1 & -> & Hq1 & Ho1 & _ & Hl1).
  go_simpl. destruct (eo_eil _ He) as [ill Hill]. rewrite (idx_nat _ _ _ Hill). go_simpl.
  assert (ill_of (ev_gid e) = ill) as Eill by (unfold ill_of; by rewrite Hill).
  destruct (fit_illegal_spec X lps1 ill q1 _ Ho1 Hq1) as (q2 & -> & Hq2).
  { intros index Hi. split; [by apply (ill_lin e); [|rewrite Eill]|]. rewrite Forall_forall in Hl1.
    apply (Hl1 (last_point index)). unfold pts_of. rewrite Eill. apply elem_of_app. right.
    by apply list_elem_of_fmap_2. }
  go_simpl. exists q2, lps1. split; [done|]. split; [|done].
  eapply lub_perm; [|exact Hq2]. intros d. unfold demands. rewrite Eill, !elem_of_app, elem_of_cons.
  rewrite list_elem_of_singleton. tauto.
Qed.

Lemma fit_events_spec X ts evs q l lps :
  Forall event_ok evs → StronglySorted (fun a b => ev_end a ≤ ev_end b)%Z evs →
  (∀ t, t ∈ sorted → (t < ts)%Z → known X t) → pts_ok X lps → lub q l →
  ∃ q' lps' taken evs', fit_events els tb X ts evs (Num q, lps) = Done (Num q', lps', evs') ∧
    evs = taken ++ evs' ∧ Forall (fun e => ev_end e ≤ ts)%Z taken ∧ Forall (fun e => ts < ev_end e)%Z evs' ∧
    lub q' (concat (demands (x_of X) <$> taken) ++ l) ∧ pts_ok X lps'.
Proof.
  intros Hev Hso Hk. revert q l lps. induction Hev as [|e evs He Hev IH]; intros q l lps Ho Hq; cbn [fit_events].
  { exists q, lps, [], []. split_and!; try done; constructor. }
  apply StronglySorted_inv in Hso as [Hso Hf]. case_bool_decide as Hle.
  - destruct (fit_event_spec X e q l lps He) as (q1 & lps1 & -> & Hq1 & Ho1); [|done..|].
    { intros t Ht Hlt. apply Hk; [done|lia]. }
    go_simpl. destruct (IH Hso _ _ _ Ho1 Hq1) as (q2 & lps2 & taken & evs' & -> & -> & Ht & Hr & Hq2 & Ho2).
    exists q2, lps2, (e :: taken), evs'. split_and!; try done; [by constructor|].
    eapply lub_perm; [|exact Hq2]. intros d. cbn. rewrite !elem_of_app. tauto.
  - exists q, lps, [], (e :: evs). split_and!; try done. constructor; [lia|].
    eapply Forall_impl; [exact Hf|]. cbn. intros. lia.
Qed.

Lemma point_agree x x' li :
  (∀ t, t ∈ take (Z.to_nat (li.2 + 1)) (starts li.1) → x t = x' t) → (0 ≤ li.2)%Z →
  point x li.1 li.2 = point x' li.1 li.2.
Proof.
  intros Ht Hr. unfold point.
  assert (∀ z : Z → Q, chain z None (starts li.1) !! Z.to_nat li.2 =
    chain z None (take (Z.to_nat (li.2 + 1)) (starts li.1)) !! Z.to_nat li.2) as Htake.
  { intros z. rewrite <- chain_take. symmetry. apply lookup_take_lt. lia. }
  by rewrite !Htake, (chain_agree x x').
Qed.

Lemma demands_agree x x' e :
  event_ok e → (∀ t, t ∈ sorted → (t < ev_end e)%Z → x t = x' t) → demands x e = demands x' e.
Proof.
  intros He Hx.
  assert (∀ li, li ∈ pts_of (ev_gid e) → point x li.1 li.2 = point x' li.1 li.2) as Hp.
  { intros li Hli. destruct (eo_pts _ He li Hli) as (Hr & _ & Ht). apply point_agree; [|lia].
    intros t Hti. destruct (Ht t Hti). by apply Hx. }
  unfold demands. destruct (eo_start _ He) as [? ?]. rewrite (Hx (ev_start e)) by done. f_equal; [|f_equal].
  - apply list_fmap_ext. intros i index Hi. unfold beyond. f_equal. apply (Hp (last_point index)).
    apply elem_of_app. right. apply list_elem_of_fmap_2. eauto with go_lists.
  - apply list_fmap_ext. intros i li Hi. apply Hp. eauto with go_lists.
Qed.

(** The equation of the scan: a timestamp is placed at the maximum of what
    has to be at or before it. *)
Definition at_end (evs : list event) (t : Z) : list event := filter (fun e => ev_end e = t) evs.

Fixpoint placed (x : Z → Q) (evs : list event) (prev : Z) (rest : list Z) : Prop :=
  match rest with
  | [] => True
  | t :: rest =>
      lub (x t) (concat (demands x <$> at_end evs t) ++ [x prev + inject_Z BOX_GAP]) ∧
      placed x evs t rest
  end.

Lemma at_end_split taken evs t :
  Forall (fun e => ev_end e = t) taken → Forall (fun e => t < ev_end e)%Z evs →
  at_end (taken ++ evs) t = taken.
Proof.
  intros Ht He. unfold at_end. rewrite filter_app, filter_all, filter_none, app_nil_r; [done| |done].
  eapply Forall_impl; [exact He|]. cbn. lia.
Qed.

Lemma placed_later x taken evs prev rest :
  Forall (fun e => ev_end e ≤ prev)%Z taken → Forall (fun t => prev < t)%Z rest →
  placed x evs prev rest → placed x (taken ++ evs) prev rest.
Proof.
  intros Ht Hr. assert (Forall (fun t => Forall (fun e => ev_end e ≠ t) taken) rest) as Hne.
  { eapply Forall_impl; [exact Hr|]. intros t Hlt. eapply Forall_impl; [exact Ht|]. cbn in *. intros e He Hee. lia. }
  clear Ht Hr. revert prev. induction Hne as [|t rest Hn _ IH]; intros prev; [done|]. cbn [placed].
  intros [Hl Hp]. split; [|by apply IH]. unfold at_end in *. rewrite filter_app, (filter_none _ taken); [done|].
  eapply Forall_impl; [exact Hn|]. done.
Qed.

Lemma pts_ok_insert X lps t q :
  (∀ t', known X t' → t' ≠ t) → pts_ok X lps → pts_ok (<[t := Num q]> X) lps.
Proof.
  intros Hne [Hlen Hpts]. split; [done|]. intros index pts Hi. destruct (Hpts index pts Hi) as [Hc Hk]. split.
  - rewrite Hc at 1. f_equal. apply chain_agree. intros t' Ht'. symmetry. apply x_of_insert_ne. auto.
  - intros t' Ht'. apply known_insert. auto.
Qed.

Lemma scan_loop_spec prev rest evs X lps :
  StronglySorted Z.lt (prev :: rest) → Forall event_ok evs →
  StronglySorted (fun a b => ev_end a ≤ ev_end b)%Z evs → Forall (fun e => prev < ev_end e)%Z evs →
  (∀ t, t ∈ sorted → (t ≤ prev)%Z ∨ t ∈ rest) →
  (∀ t, t ∈ sorted → (t ≤ prev)%Z → known X t) → known X prev → (∀ t, known X t → t ≤ prev)%Z → pts_ok X lps →
  ∃ X' lps', scan_loop els tb prev rest evs X lps = Done (X', lps') ∧
    (∀ t, t ∈ sorted → known X' t) ∧ (∀ t, known X t → x_of X' t = x_of X t) ∧
    placed (x_of X') evs prev rest ∧ pts_ok X' lps'.
Proof.
  revert prev evs X lps. induction rest as [|ts rest IH];
    intros prev evs X lps Hso Hev Hes Hgt Hcov Hkn Hkp Hub Ho; cbn [scan_loop].
  { exists X, lps. split_and!; try done. intros t Ht. destruct (Hcov t Ht); [by apply Hkn|set_solver]. }
  apply StronglySorted_inv in Hso as [Hso Hlt]. apply Forall_cons in Hlt as [Hpt Hlt].
  pose proof Hso as [_ Hlt2]%StronglySorted_inv.
  assert (∀ t, t ∈ sorted → (t < ts)%Z → (t ≤ prev)%Z) as Hbelow.
  { intros t Ht Hts. destruct (Hcov t Ht) as [|[->|Hin]%elem_of_cons]; [done|lia|].
    rewrite Forall_forall in Hlt2. specialize (Hlt2 t Hin). lia. }
  rewrite (known_xpos X prev Hkp). unfold px. rewrite nadd_Num.
  destruct (fit_events_spec X ts evs (x_of X prev + inject_Z BOX_GAP) [x_of X prev + inject_Z BOX_GAP] lps Hev Hes)
    as (q & lps1 & taken & evs' & -> & -> & Htk & Hev' & Hq & Ho1); [auto|done| |].
  { intros z. by rewrite Forall_singleton. }
  go_simpl. apply Forall_app in Hev as [Hok1 Hok2]. apply Forall_app in Hgt as [Hgt1 Hgt2].
  assert (Forall (fun e => ev_end e = ts) taken) as Hend.
  { apply Forall_forall. intros e He. rewrite Forall_forall in Hok1, Hgt1, Htk.
    specialize (Hgt1 e He). specialize (Htk e He). pose proof (eo_end _ (Hok1 e He)) as Hin.
    destruct (decide (ev_end e < ts)%Z) as [Hl|]; [specialize (Hbelow _ Hin Hl)|]; cbn in *; lia. }
  assert (∀ t, known X t → t ≠ ts) as Hnk by (intros t Ht%Hub; lia).
  destruct (IH ts evs' (<[ts := Num q]> X) lps1) as (X' & lps' & Hrun & Hk' & Hx' & Hpl & Ho');
    [done|done|by eapply StronglySorted_app_1_r|done| | | | |by apply pts_ok_insert|].
  - intros t Ht. destruct (Hcov t Ht) as [|[->|]%elem_of_cons]; [left; lia|left; lia|by right].
  - intros t Ht Hle. destruct (decide (t = ts)) as [->|Hne]; [exists q; apply lookup_insert_eq|].
    apply known_insert, Hkn; [done|]. apply Hbelow; [done|lia].
  - exists q. apply lookup_insert_eq.
  - intros t [q' Hq']. destruct (decide (t = ts)) as [->|Hne]; [lia|].
    rewrite lookup_insert_ne in Hq' by done. assert (t ≤ prev)%Z by (apply Hub; by exists q'). lia.
  - assert (∀ t, known X t → x_of X' t = x_of X t) as Hxx.
    { intros t Ht. rewrite Hx' by (by apply known_insert). apply x_of_insert_ne. auto. }
    exists X', lps'. split; [done|]. split; [done|]. split; [done|]. split; [|done].
    cbn [placed]. rewrite at_end_split by done. split.
    + rewrite Hx', x_of_insert, Hxx by first [done|exists q; apply lookup_insert_eq].
      replace (demands (x_of X') <$> taken) with (demands (x_of X) <$> taken); [done|].
      apply list_fmap_ext. intros i e He%list_elem_of_lookup_2. rewrite Forall_forall in Hok1, Hend.
      apply demands_agree; [auto|]. intros t Ht Hte. symmetry. apply Hxx, Hkn; [done|]. apply Hbelow; [done|].
      rewrite (Hend e He) in Hte. lia.
    + apply placed_later; [|done|done]. eapply Forall_impl; [exact Hend|]. cbn. lia.
Qed.

(** ** What the equation of the scan gives *)

Lemma placed_gaps x evs prev rest :
  placed x evs prev rest → StronglySorted (fun t t' => x t + inject_Z BOX_GAP <= x t') (prev :: rest).
Proof.
  revert prev. induction rest as [|t rest IH]; intros prev Hp; [repeat constructor|].
  destruct Hp as [Hl Hp]. specialize (IH _ Hp). constructor; [done|].
  assert (x prev + inject_Z BOX_GAP <= x t) as Hle by (eapply lub_ge; [exact Hl|set_solver]).
  constructor; [done|]. apply StronglySorted_inv in IH as [_ IH].
  eapply Forall_impl; [exact IH|]. cbn. intros t' Ht'.
  assert (0 <= inject_Z BOX_GAP) by (by compute). lra.
Qed.

Lemma placed_demand x evs prev rest e d :
  placed x evs prev rest → e ∈ evs → ev_end e ∈ rest → d ∈ demands x e → d <= x (ev_end e).
Proof.
  revert prev. induction rest as [|t rest IH]; intros prev Hp He Hin Hd; [set_solver|].
  destruct Hp as [Hl Hp]. apply elem_of_cons in Hin as [<-|Hin]; [|by eapply IH].
  eapply lub_ge; [exact Hl|]. apply elem_of_app. left. apply elem_of_concat. exists (demands x e).
  split; [done|]. apply list_elem_of_fmap_2, list_elem_of_filter. done.
Qed.

Lemma placed_least x y evs prev rest :
  placed x evs prev rest → StronglySorted Z.lt (prev :: rest) →
  StronglySorted (fun t t' => y t + inject_Z BOX_GAP <= y t') (prev :: rest) →
  (∀ t, t ∈ sorted → (t ≤ prev)%Z ∨ t ∈ rest) → (∀ t, t ∈ sorted → (t ≤ prev)%Z → x t <= y t) → x prev <= y prev →
  (∀ e, e ∈ evs → (∀ t, t ∈ sorted → (t < ev_end e)%Z → x t <= y t) →
    Forall (fun d => d <= y (ev_end e)) (demands x e)) →
  ∀ t, t ∈ sorted → x t <= y t.
Proof.
  revert prev. induction rest as [|ts rest IH]; intros prev Hp Hso Hy Hcov Hle Hpv Hd t Ht.
  { destruct (Hcov t Ht); [by apply Hle|set_solver]. }
  destruct Hp as [Hl Hp]. apply StronglySorted_inv in Hso as [Hso Hlt], Hy as [Hy Hlty].
  apply Forall_cons in Hlt as [Hlt _], Hlty as [Hlty _]. pose proof Hso as [_ Hlt2]%StronglySorted_inv.
  assert (∀ t, t ∈ sorted → (t < ts)%Z → x t <= y t) as Hbelow.
  { intros t' Ht' Hts. destruct (Hcov t' Ht') as [|[->|Hin]%elem_of_cons]; [by apply Hle|lia|].
    rewrite Forall_forall in Hlt2. specialize (Hlt2 t' Hin). lia. }
  assert (x ts <= y ts) as Hts.
  { apply Hl, Forall_app. split; [|apply Forall_singleton; lra].
    apply Forall_forall. intros d (l & Hdl & (e & -> & [He Hin]%list_elem_of_filter)%list_elem_of_fmap)%elem_of_concat.
    subst ts. specialize (Hd e Hin Hbelow). rewrite Forall_forall in Hd. by apply Hd. }
  apply (IH ts); try done.
  - intros t' Ht'. destruct (Hcov t' Ht') as [|[->|]%elem_of_cons]; [left; lia|left; lia|by right].
  - intros t' Ht' Hle'. destruct (decide (t' = ts)) as [->|]; [done|]. apply Hbelow; [done|lia].
Qed.

(** A box has room for its text, for the points through it, and for a point
    after the last one of a linearization that its event could not extend. *)
Lemma demands_text x e z : Forall (fun d => d <= z) (demands x e) → x (ev_start e) + ev_width e <= z.
Proof. rewrite Forall_forall. intros H. apply H. unfold demands. set_solver. Qed.

Lemma demands_point x e z li :
  Forall (fun d => d <= z) (demands x e) → li ∈ e2l_of (ev_gid e) → point x li.1 li.2 <= z.
Proof.
  rewrite Forall_forall. intros H Hli. apply H. unfold demands, pts_of.
  apply elem_of_app. right. apply elem_of_app. left.
  apply (list_elem_of_fmap_2 (fun li => point x li.1 li.2)), elem_of_app. by left.
Qed.

Lemma demands_beyond x e z index :
  Forall (fun d => d <= z) (demands x e) → index ∈ ill_of (ev_gid e) → beyond x index <= z.
Proof.
  rewrite Forall_forall. intros H Hi. apply H. unfold demands. apply elem_of_app. left. by apply list_elem_of_fmap_2.
Qed.

Lemma demands_bound x e z :
  x (ev_start e) + ev_width e <= z → (∀ li, li ∈ e2l_of (ev_gid e) → point x li.1 li.2 <= z) →
  (∀ index, index ∈ ill_of (ev_gid e) → beyond x index <= z) → Forall (fun d => d <= z) (demands x e).
Proof.
  intros Ht Hp Hb. unfold demands, pts_of. rewrite fmap_app, !Forall_app, !Forall_fmap, Forall_singleton.
  split_and!; [|apply Forall_forall; auto| |done]; apply Forall_forall; intros index Hi; cbn.
  - by apply Hb.
  - specialize (Hb index Hi). unfold beyond in Hb. assert (0 <= inject_Z EPSILON) by (by compute). lra.
Qed.

End scan.
