(* ===== verification/PageData.v ===== *)
(** * The page: facts about its preparation ([labs/src/porcupine/visualization.go])

    What [render] knows about the events when the scan starts: their ids, the
    repaired timestamps, and the tables of linearizations. *)

From Stdlib Require Import QArith Qminmax.
From S2P Require Import Prelude Visualization Page PageLayout.
Local Open Scope Z_scope.

(** ** Ids *)

(** The object of a history element before the repair. *)
Definition raw_el (x : historyElement) : el :=
  mkEl (he_ClientId x) (2 * he_Start x) (2 * he_End x) (2 * he_End x) (he_Description x).

Definition elements_of (data : list partitionVisualizationData) : list historyElement :=
  concat (History <$> data).

(** [p] shows the partition [d]; its events are in the store [els]. *)
Record part_of (els : list el) (d : partitionVisualizationData) (p : part) : Prop := {
  pp_hist : Forall2 (fun x gid => els !! gid = Some (raw_el x)) (History d) (pt_History p);
  pp_lins : pt_PartialLinearizations p = PartialLinearizations d;
  pp_largest : pt_Largest p = Largest d;
}.

Record prepared_ok (data : list partitionVisualizationData) (p : prepared) : Prop := {
  pr_els : byGid p = raw_el <$> elements_of data;
  pr_parts : Forall2 (part_of (byGid p)) data (pdata p);
  pr_gids : concat (pt_History <$> pdata p) = seq 0 (length (byGid p));
  pr_all : ∀ t, t ∈ allTimestamps p ↔ ∃ x, x ∈ byGid p ∧ (t = el_Start x ∨ t = el_End x);
  pr_starts : ∀ t, t ∈ startTimestamps p ↔ ∃ x, x ∈ byGid p ∧ t = el_Start x;
}.

Lemma give_gid_loop l st gids :
  ∃ st', foldl give_gid (st, gids) l = (st', gids ++ seq (length (byGid st)) (length l)) ∧
    byGid st' = byGid st ++ (raw_el <$> l) ∧ pdata st' = pdata st ∧
    (∀ t, t ∈ allTimestamps st' ↔ t ∈ allTimestamps st ∨
       ∃ x, x ∈ raw_el <$> l ∧ (t = el_Start x ∨ t = el_End x)) ∧
    (∀ t, t ∈ startTimestamps st' ↔ t ∈ startTimestamps st ∨ ∃ x, x ∈ raw_el <$> l ∧ t = el_Start x).
Proof.
  revert st gids. induction l as [|x l IH]; intros st gids.
  { exists st. cbn. rewrite !app_nil_r. set_solver. }
  cbn [foldl]. destruct (IH (give_gid (st, gids) x).1 (give_gid (st, gids) x).2)
    as (st' & Hrun & Hg & Hd & Ha & Hs).
  exists st'. rewrite <- surjective_pairing in Hrun. rewrite Hrun. cbn in Hg, Hd, Ha, Hs |- *.
  split; [|split; [|split; [done|split]]].
  - rewrite length_app, <- app_assoc. cbn. by rewrite Nat.add_1_r.
  - by rewrite Hg, <- app_assoc.
  - intros t. rewrite Ha, !elem_of_union, !elem_of_singleton. setoid_rewrite elem_of_cons. naive_solver.
  - intros t. rewrite Hs, !elem_of_union, !elem_of_singleton. setoid_rewrite elem_of_cons. naive_solver.
Qed.

Lemma part_of_app els els' d p : part_of els d p → part_of (els ++ els') d p.
Proof.
  intros [Hh Hl Hg]. split; [|done..]. eapply Forall2_impl; [exact Hh|]. cbn. intros. by apply lookup_app_l_Some.
Qed.

Lemma give_gids_ok data d p : prepared_ok data p → prepared_ok (data ++ [d]) (give_gids p d).
Proof.
  intros [He Hp Hg Ha Hs]. unfold give_gids.
  destruct (give_gid_loop (History d) p []) as (st & -> & Hg' & Hd' & Ha' & Hs'). cbn [app].
  assert (∀ x, x ∈ byGid st ↔ x ∈ byGid p ∨ x ∈ raw_el <$> History d) as Hin
    by (intros x; rewrite Hg'; apply elem_of_app).
  split; cbn.
  - unfold elements_of. rewrite Hg', He, fmap_app, concat_app, fmap_app. cbn. by rewrite app_nil_r.
  - rewrite Hd'. apply Forall2_app.
    + rewrite Hg'. eapply Forall2_impl; [exact Hp|]. intros. by apply part_of_app.
    + constructor; [|constructor]. split; [|done..]. cbn. apply Forall2_same_length_lookup_2.
      { by rewrite length_seq. }
      intros i x gid Hx [-> Hlt]%lookup_seq. rewrite Hg', lookup_app_r, list_lookup_fmap by lia.
      replace (length (byGid p) + i - length (byGid p))%nat with i by lia. by rewrite Hx.
  - rewrite Hd', fmap_app, concat_app, Hg, Hg', length_app, length_fmap. cbn. by rewrite app_nil_r, seq_app.
  - intros t. rewrite Ha', Ha. setoid_rewrite Hin. naive_solver.
  - intros t. rewrite Hs', Hs. setoid_rewrite Hin. naive_solver.
Qed.

Lemma prepare_ok data : prepared_ok data (prepare data).
Proof.
  unfold prepare. rewrite <- (app_nil_l data) at 1.
  assert (prepared_ok [] (mkPrepared [] [] ∅ ∅)) as H by (split; cbn; try done; set_solver).
  revert H. generalize (@nil partitionVisualizationData) at 1 2, (mkPrepared [] [] ∅ ∅).
  induction data as [|d data IH]; intros pre p Hp; cbn [foldl].
  - by rewrite app_nil_r.
  - specialize (IH (pre ++ [d]) (give_gids p d) (give_gids_ok _ _ _ Hp)). by rewrite <- app_assoc in IH.
Qed.

(** ** Timestamps *)

#[export] Instance ts_less_order : LessOrder ts_less.
Proof. unfold ts_less. split; intros *; rewrite !bool_decide_eq_false; lia. Qed.

Lemma sorted_set sortTs `{!GoSort ts_less sortTs} (s : gset Z) :
  StronglySorted Z.lt (sortTs (elements s)) ∧ ∀ t, t ∈ sortTs (elements s) ↔ t ∈ s.
Proof.
  assert (∀ t, t ∈ sortTs (elements s) ↔ t ∈ s) as Hin by (intros t; by rewrite (sort_perm (less:=ts_less)), elem_of_elements).
  split; [|done]. pose proof (sort_sorted (less:=ts_less) (elements s)) as Hs.
  assert (NoDup (sortTs (elements s))) as Hnd by (rewrite (sort_perm (less:=ts_less)); apply NoDup_elements).
  clear Hin. induction Hs as [|t l Hs IH Hf]; [constructor|]. apply NoDup_cons in Hnd as [Hni Hnd].
  constructor; [by apply IH|]. apply Forall_forall. intros t' Ht'. rewrite Forall_forall in Hf.
  specialize (Hf t' Ht'). unfold ts_less in Hf. apply bool_decide_eq_false in Hf.
  assert (t ≠ t') by (intros ->; done). lia.
Qed.

(** [nextTs] leads to the next timestamp. *)
Lemma nextTs_spec l a :
  StronglySorted Z.lt l → a ∈ l →
  match nextTs l !! a with
  | Some b => b ∈ l ∧ a < b ∧ ∀ t, t ∈ l → a < t → b ≤ t
  | None => ∀ t, t ∈ l → t ≤ a
  end.
Proof.
  induction l as [|t l IH]; [set_solver|]. intros [Hs Hf]%StronglySorted_inv Ha.
  destruct l as [|t' l]; cbn [nextTs]; [rewrite lookup_empty; set_solver|].
  rewrite Forall_forall in Hf. apply elem_of_cons in Ha as [->|Ha].
  - rewrite lookup_insert_eq. split; [set_solver|]. split; [apply Hf; set_solver|].
    intros u [->|Hu]%elem_of_cons Hlt; [lia|]. apply elem_of_cons in Hu as [->|Hu]; [lia|].
    apply StronglySorted_inv in Hs as [_ Hs]. rewrite Forall_forall in Hs. specialize (Hs u Hu). lia.
  - pose proof (Hf a Ha). rewrite lookup_insert_ne by lia. specialize (IH Hs Ha).
    change (match l with [] => ∅ | b :: _ => <[t' := b]> (nextTs l) end) with (nextTs (t' :: l)).
    destruct (nextTs (t' :: l) !! a) as [b|].
    + destruct IH as (Hb & Hab & Hmin). split; [set_solver|]. split; [done|].
      intros u [->|Hu]%elem_of_cons Hlt; [lia|auto].
    + intros u [->|Hu]%elem_of_cons; [lia|auto].
Qed.

Section tweak.
Context (sortTs : list Z → list Z) `{!GoSort ts_less sortTs}.
Context (data : list partitionVisualizationData) (p : prepared).
Hypothesis Hp : prepared_ok data p.

Definition tw (x : el) : el :=
  (tweak_el (startTimestamps p) (nextTs (sortTs (elements (allTimestamps p)))) x).1.

Lemma tweak_loop_spec starts next els all done :
  ∃ all', foldl (tweak_step starts next) (done, all) els =
    (done ++ ((fun x => (tweak_el starts next x).1) <$> els), all') ∧
    ∀ t, t ∈ all' ↔ t ∈ all ∨ ∃ x, x ∈ els ∧ (tweak_el starts next x).2 = Some t.
Proof.
  revert all done. induction els as [|x els IH]; intros all done; cbn [foldl fmap list_fmap].
  { exists all. rewrite app_nil_r. set_solver. }
  unfold tweak_step at 2. cbn [fst snd]. destruct (tweak_el starts next x) as [x' new] eqn:E.
  destruct (IH (match new with Some t => {[ t ]} ∪ all | None => all end) (done ++ [x'])) as (all' & -> & Hall).
  exists all'. rewrite <- app_assoc. split; [done|]. intros t. rewrite Hall. setoid_rewrite elem_of_cons.
  destruct new as [u|]; [rewrite elem_of_union, elem_of_singleton|]; split.
  - intros [[->|?]|(y & ? & ?)]; [right; exists x; rewrite E; auto|by left|right; eauto].
  - intros [?|(y & [->|?] & Hy)]; [auto|rewrite E in Hy; cbn in Hy; simplify_eq; auto|right; eauto].
  - intros [?|(y & ? & ?)]; [by left|right; eauto].
  - intros [?|(y & [->|?] & Hy)]; [auto|by rewrite E in Hy|right; eauto].
Qed.

(** Every timestamp of the page is an integer before the repair. *)
Lemma raw_even x : x ∈ byGid p → (∃ a, el_Start x = 2 * a) ∧ ∃ b, el_End x = 2 * b.
Proof.
  rewrite (pr_els _ _ Hp). intros (y & -> & _)%list_elem_of_fmap. cbn. eauto.
Qed.

Lemma tw_static x :
  el_Start (tw x) = el_Start x ∧ el_ClientId (tw x) = el_ClientId x ∧
  el_Description (tw x) = el_Description x ∧ el_OriginalEnd (tw x) = el_End x.
Proof. unfold tw, tweak_el. case_bool_decide; [destruct (nextTs _ !! _)|]; done. Qed.

(** How far the repair moves an end: not at all, or to the middle of the way
    to the next timestamp. *)
Lemma tw_end x :
  x ∈ byGid p →
  el_End (tw x) = el_End x ∧ (el_End x ∉ startTimestamps p ∨ ∀ t, t ∈ allTimestamps p → t ≤ el_End x) ∨
  el_End x < el_End (tw x) ∧
    ∃ b, b ∈ allTimestamps p ∧ el_End (tw x) < b ∧ ∀ t, t ∈ allTimestamps p → el_End x < t → b ≤ t.
Proof.
  intros Hx. destruct (sorted_set sortTs (allTimestamps p)) as [Hs Hin].
  unfold tw, tweak_el. case_bool_decide as Hst; [|left; auto].
  assert (el_End x ∈ allTimestamps p) as Hall by (apply (pr_all _ _ Hp); eauto).
  pose proof (nextTs_spec _ (el_End x) Hs (proj2 (Hin _) Hall)) as Hn.
  destruct (nextTs _ !! el_End x) as [b|]; cbn.
  - right. destruct Hn as (Hb & Hlt & Hmin). apply Hin in Hb.
    destruct (raw_even x Hx) as [_ [e He]].
    assert (∃ b', b = 2 * b') as [b' ->].
    { apply (pr_all _ _ Hp) in Hb as (y & Hy & [->| ->]); by apply raw_even. }
    rewrite He in *. replace ((2 * e + 2 * b') / 2) with (e + b')
      by (rewrite <- Z.mul_add_distr_l, Z.mul_comm, Z.div_mul by lia; lia).
    split; [lia|]. exists (2 * b'). split; [done|]. split; [lia|]. intros t Ht Hlt'. apply Hmin; [by apply Hin|done].
  - left. split; [done|]. right. intros t Ht. apply Hn. by apply Hin.
Qed.

(** After the repair, an event that did not end before another started ends
    strictly after that start. *)
Lemma tw_after x y :
  x ∈ byGid p → y ∈ byGid p → (∀ z, z ∈ byGid p → el_Start z < el_End z) →
  el_Start x ≤ el_End y → el_Start (tw x) < el_End (tw y).
Proof.
  intros Hx Hy Htl Hle. destruct (tw_static x) as (-> & _).
  destruct (tw_end y Hy) as [(-> & [Hns|Hmax])|(Hlt & _)]; [| |lia].
  - destruct (decide (el_Start x = el_End y)) as [E|]; [|lia].
    destruct Hns. rewrite <- E. apply (pr_starts _ _ Hp). eauto.
  - specialize (Hmax (el_End x)). specialize (Htl x Hx).
    assert (el_End x ≤ el_End y) by (apply Hmax, (pr_all _ _ Hp); eauto). lia.
Qed.

(** The repair keeps the order of ends. *)
Lemma tw_end_ge x : x ∈ byGid p → el_End x ≤ el_End (tw x).
Proof. intros [(-> & _)|(? & _)]%tw_end; lia. Qed.

Lemma tweak_spec :
  ∃ all', tweak sortTs p =
    (mkPrepared (tw <$> byGid p) (pdata p) all' (startTimestamps p), sortTs (elements all')) ∧
    ∀ t, t ∈ all' ↔ t ∈ allTimestamps p ∨ ∃ x, x ∈ byGid p ∧ t = el_End (tw x).
Proof.
  unfold tweak, tweak_loop.
  destruct (tweak_loop_spec (startTimestamps p) (nextTs (sortTs (elements (allTimestamps p)))) (byGid p)
    (allTimestamps p) []) as (all' & -> & Hall).
  exists all'. split; [done|]. intros t. rewrite Hall. split; (intros [?|(x & Hx & Ht)]; [by left|]).
  - right. exists x. split; [done|]. unfold tw, tweak_el in *. case_bool_decide; [|done].
    destruct (nextTs _ !! _); [|done]. by injection Ht as <-.
  - unfold tw in Ht. destruct (tweak_el _ _ x) as [x' [u|]] eqn:E; cbn in Ht; subst t.
    + right. exists x. split; [done|]. rewrite E. cbn. unfold tweak_el in E. case_bool_decide; [|done].
      destruct (nextTs _ !! _); [|done]. by simplify_eq.
    + left. apply (pr_all _ _ Hp). exists x. split; [done|]. right. unfold tweak_el in E.
      case_bool_decide; [destruct (nextTs _ !! _); [done|]|]; by simplify_eq.
Qed.

End tweak.

(** ** Tables *)

(** The partial linearizations of all partitions, each with the events of its
    partition. *)
Definition flat (parts : list part) : list (list nat * list linearizationStep) :=
  concat ((fun pt => (fun lin => (pt_History pt, lin)) <$> pt_PartialLinearizations pt) <$> parts).

(** The ids of the events of a linearization. *)
Definition glob (hist : list nat) (lin : list linearizationStep) : list nat :=
  omap (fun id => hist !! Z.to_nat (ls_Index id)) lin.

Definition left_out_at (hist : list nat) (lin : list linearizationStep) (i : nat) (gid : nat) : Prop :=
  hist !! i = Some gid ∧ Z.of_nat i ∉ ls_Index <$> lin.

(** [gid] could come next after [lin]: no event left out ended before. *)
Definition next_event (els : list el) (hist : list nat) (lin : list linearizationStep) (gid : nat) : Prop :=
  ∃ i x, left_out_at hist lin i gid ∧ els !! gid = Some x ∧
    ∀ i' gid' x', left_out_at hist lin i' gid' → els !! gid' = Some x' → el_Start x < el_End x'.

(** A linearization of known events. *)
Record lin_ok (els : list el) (hl : list nat * list linearizationStep) : Prop := {
  lk_hist : ∀ gid, gid ∈ hl.1 → (gid < length els)%nat;
  lk_lin : ∀ id, id ∈ hl.2 → 0 ≤ ls_Index id < zlen hl.1;
}.

Section tables.
Context (els : list el).
Implicit Types (hist : list nat) (lin : list linearizationStep) (tb : tables).

Lemma push_at_spec {A} (t : list (list A)) gid x :
  (gid < length t)%nat →
  ∃ t', push_at t gid x = Done t' ∧ length t' = length t ∧
    ∀ g y, y ∈ default [] (t' !! g) ↔ y ∈ default [] (t !! g) ∨ g = gid ∧ y = x.
Proof.
  intros Hlt. destruct (lookup_lt_is_Some_2 _ _ Hlt) as [l Hl]. unfold push_at.
  rewrite (idx_nat _ _ _ Hl). go_simpl. rewrite upd_in_range by len. rewrite Nat2Z.id.
  eexists. split; [done|]. split; [apply length_insert|]. intros g y.
  destruct (decide (g = gid)) as [->|Hne].
  - rewrite list_lookup_insert_eq, Hl by done. cbn. rewrite elem_of_app, list_elem_of_singleton. naive_solver.
  - rewrite list_lookup_insert_ne by done. naive_solver.
Qed.

Lemma globalize_spec hist lgid lin pos e2l :
  lin_ok els (hist, lin) → length e2l = length els → 0 ≤ pos →
  ∃ e2l', globalize hist lgid lin pos e2l = Done (glob hist lin, e2l') ∧ length e2l' = length els ∧
    ∀ g index p, (index, p) ∈ default [] (e2l' !! g) ↔ (index, p) ∈ default [] (e2l !! g) ∨
      index = lgid ∧ pos ≤ p ∧ glob hist lin !! Z.to_nat (p - pos) = Some g.
Proof.
  revert pos e2l. induction lin as [|id lin IH]; intros pos e2l [Hh Hl] Hlen Hpos; cbn [globalize].
  { exists e2l. split; [done|]. split; [done|]. intros. cbn. rewrite lookup_nil. naive_solver. }
  destruct (idx_in_range hist (ls_Index id)) as (gid & Hi & Hlk); [apply Hl; set_solver|].
  rewrite Hi. go_simpl.
  assert (gid < length e2l)%nat as Hlt by (rewrite Hlen; apply Hh; eauto with go_lists).
  destruct (push_at_spec e2l gid (lgid, pos) Hlt) as (e1 & -> & Hlen1 & Hin1). go_simpl.
  destruct (IH (pos + 1) e1) as (e2 & -> & Hlen2 & Hin2); [split; [done|set_solver]|congruence|lia|].
  go_simpl. exists e2. cbn. rewrite Hlk. split; [done|]. split; [done|]. intros g index p.
  rewrite Hin2, Hin1. split.
  - intros [[?|(-> & ?)]|(-> & Hp & Hg)]; [by left| |]; right.
    + simplify_eq. rewrite Z.sub_diag. split; [done|]. split; [lia|done].
    + split; [done|]. split; [lia|]. by replace (Z.to_nat (p - pos)) with (S (Z.to_nat (p - (pos + 1)))) by lia.
  - intros [?|(-> & Hp & Hg)]; [auto|]. destruct (decide (p = pos)) as [->|Hne].
    + rewrite Z.sub_diag in Hg. injection Hg as <-. auto.
    + right. split; [done|]. split; [lia|].
      by replace (Z.to_nat (p - pos)) with (S (Z.to_nat (p - (pos + 1)))) in Hg by lia.
Qed.

Lemma before_min z ends : before z (minEnd ends) = true ↔ ∀ e, e ∈ ends → z < e.
Proof.
  assert (∀ m, before z (foldl min_opt m ends) = true ↔ before z m = true ∧ ∀ e, e ∈ ends → z < e) as H.
  { induction ends as [|e ends IH]; intros m; cbn; [set_solver|]. rewrite IH.
    assert (before z (min_opt m e) = true ↔ before z m = true ∧ z < e) as ->.
    { destruct m as [m|]; cbn; rewrite ?bool_decide_eq_true; [lia|naive_solver]. }
    set_solver. }
  unfold minEnd. rewrite H. naive_solver.
Qed.

Lemma elem_of_left_out hist lin index gid :
  (index, gid) ∈ left_out hist lin ↔ ∃ i, index = Z.of_nat i ∧ left_out_at hist lin i gid.
Proof.
  unfold left_out, left_out_at. rewrite list_elem_of_filter. cbn [fst snd]. split.
  - intros (Hni & [k Hk]%list_elem_of_lookup). apply lookup_zip_with_Some in Hk as (a & b & E & Ha & Hb). simplify_eq.
    apply list_lookup_fmap_Some in Ha as (j & -> & [-> _]%lookup_seq). eauto.
  - intros (i & -> & Hi & Hni). split; [done|]. apply list_elem_of_lookup. exists i. apply lookup_zip_with_Some.
    exists (Z.of_nat i), gid. split; [done|]. split; [|done]. rewrite list_lookup_fmap, lookup_seq_lt; [done|].
    eauto with go_lists.
Qed.

Lemma possible_next_spec hist lin :
  (∀ gid, gid ∈ hist → (gid < length els)%nat) →
  ∃ l, possible_next els hist lin = Done l ∧
    (∀ index gid x, (index, gid, x) ∈ l ↔ els !! gid = Some x ∧
      (∃ i, index = Z.of_nat i ∧ left_out_at hist lin i gid) ∧
      ∀ i' gid' x', left_out_at hist lin i' gid' → els !! gid' = Some x' → el_Start x < el_End x').
Proof.
  intros Hh. unfold possible_next. set (f := fun '(index, gid) => _ : go (Z * nat * el)).
  assert (∀ index gid, (index, gid) ∈ left_out hist lin → ∃ x, els !! gid = Some x ∧ f (index, gid) = Done (index, gid, x)) as Hf.
  { intros index gid (i & -> & Hi & _)%elem_of_left_out. unfold f.
    destruct (lookup_lt_is_Some_2 els gid) as [x Hx]; [apply Hh; eauto with go_lists|].
    exists x. split; [done|]. rewrite (idx_nat _ _ _ Hx). done. }
  destruct (go_map_total f (left_out hist lin)) as [rest Hrest].
  { intros [index gid] Hin. destruct (Hf _ _ Hin) as (x & _ & ?). eauto. }
  assert (∀ index gid x, (index, gid, x) ∈ rest ↔ (index, gid) ∈ left_out hist lin ∧ els !! gid = Some x) as Hin.
  { intros index gid x. rewrite (go_map_elem _ _ _ _ Hrest). split.
    - intros ([index' gid'] & Hin & Heq). destruct (Hf _ _ Hin) as (x' & Hx' & Hfx). rewrite Hfx in Heq. by simplify_eq.
    - intros [Hin Hx]. exists (index, gid). split; [done|]. destruct (Hf _ _ Hin) as (x' & Hx' & Hfx). by simplify_eq. }
  rewrite Hrest. go_simpl. eexists. split; [done|]. intros index gid x.
  rewrite list_elem_of_filter, Hin. cbn [fst snd]. rewrite Is_true_true, before_min, elem_of_left_out. split.
  - intros (Hb & Hlo & Hx). split; [done|]. split; [done|]. intros i' gid' x' Hl' Hx'.
    apply Hb. apply list_elem_of_fmap. exists (Z.of_nat i', gid', x'). split; [done|].
    apply Hin. split; [|done]. apply elem_of_left_out. eauto.
  - intros (Hx & Hlo & Hb). split; [|done]. intros e ([[index' gid'] x'] & -> & [(i' & -> & Hl')%elem_of_left_out Hx']%Hin)%list_elem_of_fmap.
    by eapply Hb.
Qed.

Lemma push_all_spec lgid gids eil :
  (∀ gid, gid ∈ gids → (gid < length eil)%nat) →
  ∃ eil', push_all lgid gids eil = Done eil' ∧ length eil' = length eil ∧
    ∀ g y, y ∈ default [] (eil' !! g) ↔ y ∈ default [] (eil !! g) ∨ y = lgid ∧ g ∈ gids.
Proof.
  revert eil. induction gids as [|gid gids IH]; intros eil Hg; cbn [push_all].
  { exists eil. set_solver. }
  destruct (push_at_spec eil gid lgid) as (e1 & -> & Hlen & Hin); [apply Hg; set_solver|]. go_simpl.
  destruct (IH e1) as (e2 & -> & Hlen2 & Hin2); [intros g' ?; rewrite Hlen; apply Hg; set_solver|].
  exists e2. split; [done|]. split; [congruence|]. intros g y. rewrite Hin2, Hin, elem_of_cons. naive_solver.
Qed.

(** The tables after the linearizations [fl]. *)
Record tables_ok (fl : list (list nat * list linearizationStep)) tb : Prop := {
  tk_e2l_len : length (eventToLinearizations tb) = length els;
  tk_eil_len : length (eventIllegalLast tb) = length els;
  tk_all : allLinearizations tb = (fun hl => glob hl.1 hl.2) <$> fl;
  tk_e2l : ∀ g index p, (index, p) ∈ e2l_of tb g ↔ 0 ≤ p ∧ lin_of tb index !! Z.to_nat p = Some g;
  tk_ill : ∀ g index, index ∈ ill_of tb g ↔
    ∃ hl, fl !! index = Some hl ∧ next_event els hl.1 hl.2 g;
}.

Lemma register_spec fl tb hist lin :
  tables_ok fl tb → lin_ok els (hist, lin) →
  ∃ tb', register els hist tb lin = Done tb' ∧ tables_ok (fl ++ [(hist, lin)]) tb'.
Proof.
  intros [H1 H2 H3 H4 H5] Hok. unfold register.
  assert (length (allLinearizations tb) = length fl) as Hlen by (rewrite H3; apply length_fmap).
  destruct (globalize_spec hist (length (allLinearizations tb)) lin 0 (eventToLinearizations tb) Hok H1)
    as (e2l & -> & Hl1 & Hin1); [lia|]. go_simpl.
  destruct (possible_next_spec hist lin (lk_hist _ _ Hok)) as (next & -> & Hnx). go_simpl.
  assert (∀ gid, gid ∈ (fun x => x.1.2) <$> next ↔ next_event els hist lin gid) as Hgids.
  { intros gid. rewrite list_elem_of_fmap. split.
    - intros ([[index g] x] & -> & (Hx & (i & -> & Hi) & Hb)%Hnx). exists i, x. done.
    - intros (i & x & Hi & Hx & Hb). exists (Z.of_nat i, gid, x). split; [done|]. apply Hnx. eauto. }
  destruct (push_all_spec (length (allLinearizations tb)) ((fun x => x.1.2) <$> next) (eventIllegalLast tb))
    as (eil & -> & Hl2 & Hin2).
  { intros gid (i & x & [Hi _] & _)%Hgids. rewrite H2. apply Hok. eauto with go_lists. }
  go_simpl. eexists. split; [done|]. split; cbn.
  - done.
  - congruence.
  - by rewrite fmap_app, H3.
  - intros g index p. unfold e2l_of, lin_of in *. cbn. rewrite Hin1, H4, Z.sub_0_r, lookup_app.
    destruct (allLinearizations tb !! index) as [l|] eqn:E; cbn.
    + assert (index ≠ length (allLinearizations tb)) by (apply lookup_lt_Some in E; lia). naive_solver.
    + apply lookup_ge_None in E. destruct (decide (index = length (allLinearizations tb))) as [->|Hne].
      * rewrite Nat.sub_diag. cbn. rewrite lookup_nil. naive_solver.
      * rewrite (proj2 (lookup_ge_None [_] (index - _))) by (cbn; lia). cbn. rewrite lookup_nil. naive_solver.
  - intros g index. unfold ill_of in *. cbn. rewrite Hin2, H5, Hgids, Hlen. split.
    + intros [(hl & Hhl & Hn)|[-> Hn]].
      * exists hl. split; [by apply lookup_app_l_Some|done].
      * exists (hist, lin). split; [by apply list_lookup_middle|done].
    + intros (hl & [Hhl|[Hge Hhl]]%lookup_app_Some & Hn); [left; eauto|right].
      apply list_lookup_singleton_Some in Hhl as [? <-]. split; [lia|done].
Qed.

(** [register_parts] goes through the linearizations of [flat]. *)
Fixpoint register_flat (fl : list (list nat * list linearizationStep)) tb : go tables :=
  match fl with
  | [] => Done tb
  | hl :: fl => tb ← register els hl.1 tb hl.2; register_flat fl tb
  end.

Lemma register_flat_app fl fl' tb :
  register_flat (fl ++ fl') tb = (tb ← register_flat fl tb; register_flat fl' tb).
Proof. revert tb. induction fl as [|hl fl IH]; intros tb; cbn; [done|]. destruct (register els hl.1 tb hl.2); go_simpl; [apply IH|done..]. Qed.

Lemma register_parts_flat parts tb : register_parts els parts tb = register_flat (flat parts) tb.
Proof.
  revert tb. induction parts as [|pt parts IH]; intros tb; [done|].
  unfold flat. cbn [fmap list_fmap concat register_parts]. rewrite register_flat_app. fold (flat parts).
  assert (∀ lins tb, register_lins els (pt_History pt) lins tb =
    register_flat ((fun lin => (pt_History pt, lin)) <$> lins) tb) as ->.
  { induction lins as [|lin lins IHl]; intros tb'; cbn [register_lins fmap list_fmap register_flat fst snd]; [done|]. destruct (register els _ tb' lin); go_simpl; [apply IHl|done..]. }
  destruct (register_flat _ tb); go_simpl; [apply IH|done..].
Qed.

Lemma register_flat_spec fl fl' tb :
  tables_ok fl tb → Forall (lin_ok els) fl' →
  ∃ tb', register_flat fl' tb = Done tb' ∧ tables_ok (fl ++ fl') tb'.
Proof.
  intros Htb Hok. revert fl tb Htb. induction Hok as [|[hist lin] fl' Hl Hok IH]; intros fl tb Htb; cbn [register_flat fst snd].
  { exists tb. by rewrite app_nil_r. }
  destruct (register_spec fl tb hist lin Htb Hl) as (tb1 & -> & Htb1). go_simpl.
  destruct (IH _ _ Htb1) as (tb2 & -> & Htb2). exists tb2. split; [done|]. by rewrite <- app_assoc in Htb2.
Qed.

End tables.

Lemma make_tables_spec p :
  Forall (lin_ok (byGid p)) (flat (pdata p)) →
  ∃ tb, make_tables p = Done tb ∧ tables_ok (byGid p) (flat (pdata p)) tb.
Proof.
  intros Hok. unfold make_tables. rewrite register_parts_flat.
  apply (register_flat_spec (byGid p) [] (flat (pdata p))); [|done].
  assert (∀ {A} g, default [] (replicate (length (byGid p)) (@nil A) !! g) = []) as Hnil.
  { intros A g. destruct (replicate _ _ !! g) as [l|] eqn:E; [|done]. by apply lookup_replicate in E as [-> _]. }
  split; cbn; [apply length_replicate..|done| |].
  - intros g index q. unfold e2l_of, lin_of. cbn. rewrite Hnil, lookup_nil. cbn. rewrite lookup_nil. set_solver.
  - intros g index. unfold ill_of. cbn. rewrite Hnil. setoid_rewrite lookup_nil. set_solver.
Qed.
