(* ===== verification/PageCorrect.v ===== *)
(** * Correctness of the layout ([labs/src/porcupine/visualization.go])

    On data that can be shown, the first half of [render] does not throw,
    every timestamp gets a position, and the positions are the least ones
    that meet the criteria of the comment "Compute layout". *)

From Stdlib Require Import QArith Qminmax Lqa.
From S2P Require Import Prelude Visualization Page PageLayout PageData.
Local Open Scope Z_scope.

(** Data that can be shown: every operation takes some time; a partial
    linearization is not empty and consists of operations of the history, in
    an order that real time allows, and leaves no operation out that had
    returned before one of them was called. *)
Record showable (d : partitionVisualizationData) : Prop := {
  sh_timely : ∀ x, x ∈ History d → he_Start x < he_End x;
  sh_nonempty : ∀ lin, lin ∈ PartialLinearizations d → lin ≠ [];
  sh_range : ∀ lin id, lin ∈ PartialLinearizations d → id ∈ lin → 0 ≤ ls_Index id < zlen (History d);
  sh_order : ∀ lin (a b : nat) id id' x x', lin ∈ PartialLinearizations d → (a ≤ b)%nat →
    lin !! a = Some id → lin !! b = Some id' →
    History d !! Z.to_nat (ls_Index id) = Some x → History d !! Z.to_nat (ls_Index id') = Some x' →
    he_Start x ≤ he_End x';
  sh_left : ∀ lin id j x x', lin ∈ PartialLinearizations d → id ∈ lin → Z.of_nat j ∉ ls_Index <$> lin →
    History d !! Z.to_nat (ls_Index id) = Some x → History d !! j = Some x' → he_Start x ≤ he_End x';
}.

Definition end_of (els : list el) (gid : nat) : Z := from_option el_End 0 (els !! gid).

(** The criteria for a map [y] from timestamps to positions: it is
    non-negative, keeps distinct timestamps a gap apart, leaves room for the
    text of every box, and for every linearization there are points, each in
    the box of its event and some way after the point before, with room for
    one more in the box of every event that could have come next. *)
Record fits (textWidth : string → Q) (p : prepared) (sorted : list Z) (y : Z → Q) : Prop := {
  ft_pos : ∀ t, t ∈ sorted → (0 <= y t)%Q;
  ft_gap : ∀ t t', t ∈ sorted → t' ∈ sorted → t < t' → (y t + inject_Z BOX_GAP <= y t')%Q;
  ft_text : ∀ x, x ∈ byGid p →
    (y (el_Start x) + (textWidth (el_Description x) + inject_Z (2 * BOX_TEXT_PADDING)) <= y (el_End x))%Q;
  ft_lins : ∀ pt lin, pt ∈ pdata p → lin ∈ pt_PartialLinearizations pt →
    let gids := glob (pt_History pt) lin in
    ∃ qs, points_from y None (start_of (byGid p) <$> gids) qs ∧
      Forall2 (fun g q => q <= y (end_of (byGid p) g))%Q gids qs ∧
      ∀ g q, next_event (byGid p) (pt_History pt) lin g → last qs = Some q →
        (q + inject_Z EPSILON <= y (end_of (byGid p) g))%Q;
}.

#[export] Instance event_less_order : LessOrder event_less.
Proof. unfold event_less. split; intros *; rewrite !bool_decide_eq_false; lia. Qed.

Lemma glob_spec hist lin :
  (∀ id, id ∈ lin → 0 ≤ ls_Index id < zlen hist) →
  Forall2 (fun id g => hist !! Z.to_nat (ls_Index id) = Some g) lin (glob hist lin).
Proof.
  induction lin as [|id lin IH]; intros Hr; [constructor|]. cbn.
  destruct (lookup_lt_is_Some_2 hist (Z.to_nat (ls_Index id))) as [g Hg].
  { specialize (Hr id ltac:(set_solver)). unfold zlen in Hr. lia. }
  rewrite Hg. constructor; [done|]. apply IH. set_solver.
Qed.

Lemma flat_elem parts hl :
  hl ∈ flat parts ↔ ∃ pt, pt ∈ parts ∧ hl.1 = pt_History pt ∧ hl.2 ∈ pt_PartialLinearizations pt.
Proof.
  unfold flat. rewrite elem_of_concat. split.
  - intros (l & Hl & (pt & -> & Hpt)%list_elem_of_fmap). apply list_elem_of_fmap in Hl as (lin & -> & Hlin). eauto.
  - intros (pt & Hpt & H1 & H2). eexists. split; [|by apply list_elem_of_fmap_2]. cbn.
    destruct hl as [h lin]. cbn in *. subst h. by apply (list_elem_of_fmap_2 (fun lin => (pt_History pt, lin))).
Qed.

Section solve.
Context (sortTs : list Z → list Z) `{!GoSort ts_less sortTs}.
Context (sortEvents : list event → list event) `{!GoSort event_less sortEvents}.
Context (textWidth : string → Q).
Context (data : list partitionVisualizationData).
Hypothesis Hdata : Forall showable data.

Let base := prepare data.
Let twk := tw sortTs base.
Let els := twk <$> byGid base.
Let fl := flat (pdata base).

Lemma base_timely x : x ∈ byGid base → el_Start x < el_End x.
Proof.
  unfold base. rewrite (pr_els _ _ (prepare_ok data)). intros (y & -> & Hy)%list_elem_of_fmap.
  apply elem_of_concat in Hy as (l & Hy & (d & -> & Hd)%list_elem_of_fmap).
  rewrite Forall_forall in Hdata. pose proof (sh_timely _ (Hdata d Hd) y Hy). cbn. lia.
Qed.

Lemma els_lookup gid x : els !! gid = Some x → ∃ y, byGid base !! gid = Some y ∧ x = twk y.
Proof. unfold els. rewrite list_lookup_fmap. intros (y & ? & ->)%fmap_Some. eauto. Qed.

Lemma els_after g g' x x' :
  els !! g = Some x → els !! g' = Some x' →
  (∀ y y', byGid base !! g = Some y → byGid base !! g' = Some y' → el_Start y ≤ el_End y') →
  el_Start x < el_End x'.
Proof.
  intros (y & Hy & ->)%els_lookup (y' & Hy' & ->)%els_lookup Hle. unfold twk.
  eapply (tw_after sortTs data base (prepare_ok data)); eauto using base_timely with go_lists.
Qed.

(** A linearization on the page and the data it comes from. *)
Lemma fl_source hl :
  hl ∈ fl → ∃ d, d ∈ data ∧ hl.2 ∈ PartialLinearizations d ∧
    Forall2 (fun x gid => byGid base !! gid = Some (raw_el x)) (History d) hl.1.
Proof.
  intros (pt & Hpt & -> & Hlin)%flat_elem. pose proof (pr_parts _ _ (prepare_ok data)) as HF.
  apply list_elem_of_lookup in Hpt as [i Hi]. destruct (Forall2_lookup_r _ _ _ _ _ HF Hi) as (d & Hd & [H1 H2 _]).
  exists d. split; [eauto with go_lists|]. split; [by rewrite <- H2|done].
Qed.

Lemma fl_range hl id : hl ∈ fl → id ∈ hl.2 → 0 ≤ ls_Index id < zlen hl.1.
Proof.
  intros (d & Hd & Hlin & HF)%fl_source Hid. rewrite Forall_forall in Hdata.
  pose proof (sh_range _ (Hdata d Hd) _ _ Hlin Hid). apply Forall2_length in HF. unfold zlen in *. lia.
Qed.

Lemma fl_ok : Forall (lin_ok els) fl.
Proof.
  apply Forall_forall. intros hl Hhl. split; [|intros; by eapply fl_range].
  intros gid Hg. destruct (fl_source hl Hhl) as (d & _ & _ & HF).
  apply list_elem_of_lookup in Hg as [i Hi]. destruct (Forall2_lookup_r _ _ _ _ _ HF Hi) as (x & _ & Hx).
  unfold els. rewrite length_fmap. by eapply lookup_lt_Some.
Qed.

Lemma hist_lookup hl d i gid y :
  Forall2 (fun x gid => byGid base !! gid = Some (raw_el x)) (History d) hl →
  hl !! i = Some gid → byGid base !! gid = Some y → ∃ x, History d !! i = Some x ∧ y = raw_el x.
Proof.
  intros HF Hi Hy. destruct (Forall2_lookup_r _ _ _ _ _ HF Hi) as (x & Hx & E). exists x. split; [done|congruence].
Qed.

Lemma fl_glob hl k g : hl ∈ fl → glob hl.1 hl.2 !! k = Some g →
  ∃ id, hl.2 !! k = Some id ∧ hl.1 !! Z.to_nat (ls_Index id) = Some g.
Proof.
  intros Hhl Hg. pose proof (glob_spec hl.1 hl.2 (fun id => fl_range hl id Hhl)) as HF.
  destruct (Forall2_lookup_r _ _ _ _ _ HF Hg) as (id & ? & ?). eauto.
Qed.

(** Points come before the ends of the boxes they have to fit in. *)
Lemma fl_order hl (a b : nat) g g' x x' :
  hl ∈ fl → (a ≤ b)%nat → glob hl.1 hl.2 !! a = Some g → glob hl.1 hl.2 !! b = Some g' →
  els !! g = Some x → els !! g' = Some x' → el_Start x < el_End x'.
Proof.
  intros Hhl Hab (id & Hid & Hg)%(fl_glob hl) (id' & Hid' & Hg')%(fl_glob hl) Hx Hx'; [|done..].
  eapply els_after; [done..|]. intros y y' Hy Hy'. destruct (fl_source hl Hhl) as (d & Hd & Hlin & HF).
  destruct (hist_lookup _ _ _ _ _ HF Hg Hy) as (z & Hz & ->), (hist_lookup _ _ _ _ _ HF Hg' Hy') as (z' & Hz' & ->).
  rewrite Forall_forall in Hdata. cbn. pose proof (sh_order _ (Hdata d Hd) _ _ _ _ _ _ _ Hlin Hab Hid Hid' Hz Hz'). lia.
Qed.

Lemma fl_next hl (a : nat) g g' x x' :
  hl ∈ fl → glob hl.1 hl.2 !! a = Some g → next_event els hl.1 hl.2 g' →
  els !! g = Some x → els !! g' = Some x' → el_Start x < el_End x'.
Proof.
  intros Hhl (id & Hid & Hg)%(fl_glob hl) (i & y0 & [Hg' Hni] & _) Hx Hx'; [|done].
  eapply els_after; [done..|]. intros y y' Hy Hy'. destruct (fl_source hl Hhl) as (d & Hd & Hlin & HF).
  destruct (hist_lookup _ _ _ _ _ HF Hg Hy) as (z & Hz & ->), (hist_lookup _ _ _ _ _ HF Hg' Hy') as (z' & Hz' & ->).
  rewrite Forall_forall in Hdata. cbn.
  pose proof (sh_left _ (Hdata d Hd) _ id _ _ _ Hlin ltac:(eauto with go_lists) Hni Hz Hz'). lia.
Qed.

Lemma fl_nonempty hl : hl ∈ fl → glob hl.1 hl.2 ≠ [].
Proof.
  intros Hhl E. pose proof (glob_spec hl.1 hl.2 (fun id => fl_range hl id Hhl)) as HF. rewrite E in HF.
  apply Forall2_nil_inv_r in HF. destruct (fl_source hl Hhl) as (d & Hd & Hlin & _). rewrite Forall_forall in Hdata.
  by apply (sh_nonempty _ (Hdata d Hd) _ Hlin).
Qed.

(** ** The events of the scan *)

Definition event_of (gid : nat) (x : el) : event :=
  mkEvt (el_Start x) (el_End x) (textWidth (el_Description x) + inject_Z (2 * BOX_TEXT_PADDING))%Q gid.

Lemma byEnd_spec all starts :
  ∃ evs, byEnd sortEvents textWidth (mkPrepared els (pdata base) all starts) = Done evs ∧
    StronglySorted (fun a b => ev_end a ≤ ev_end b) evs ∧
    ∀ e, e ∈ evs ↔ ∃ gid x, els !! gid = Some x ∧ e = event_of gid x.
Proof.
  unfold byEnd. cbn [byGid pdata].
  assert (concat (pt_History <$> pdata base) = seq 0 (length els)) as ->.
  { unfold els. rewrite length_fmap. apply (pr_gids _ _ (prepare_ok data)). }
  assert (∀ gid x, els !! gid = Some x → make_event textWidth els gid = Done (event_of gid x)) as Hm.
  { intros gid x Hx. unfold make_event. by rewrite (idx_nat _ _ _ Hx). }
  destruct (go_map_total (make_event textWidth els) (seq 0 (length els))) as [l Hl].
  { intros gid Hg%elem_of_seq. destruct (lookup_lt_is_Some_2 els gid) as [x Hx]; [lia|]. eauto. }
  rewrite Hl. go_simpl. eexists. split; [done|]. split.
  - eapply StronglySorted_weaken; [|apply (sort_sorted (less:=event_less))]. intros a b.
    unfold event_less. rewrite bool_decide_eq_false. lia.
  - intros e. rewrite (sort_perm (less:=event_less)), (go_map_elem _ _ _ _ Hl). split.
    + intros (gid & Hg%elem_of_seq & He). destruct (lookup_lt_is_Some_2 els gid) as [x Hx]; [lia|].
      rewrite (Hm _ _ Hx) in He. injection He as <-. eauto.
    + intros (gid & x & Hx & ->). exists gid. split; [|by apply Hm]. apply elem_of_seq.
      pose proof (lookup_lt_Some _ _ _ Hx). lia.
Qed.

Section with_tables.
Context (tb : tables) (sorted : list Z).
Hypothesis Htb : tables_ok els fl tb.
Hypothesis Hstart : ∀ gid x, els !! gid = Some x → el_Start x ∈ sorted.
Hypothesis Hend : ∀ gid x, els !! gid = Some x → el_End x ∈ sorted.

Lemma fl_gids hl g : hl ∈ fl → g ∈ glob hl.1 hl.2 → is_Some (els !! g).
Proof.
  intros Hhl [k (id & _ & Hg)%(fl_glob hl)]%list_elem_of_lookup; [|done].
  apply lookup_lt_is_Some_2. pose proof fl_ok as Hok. rewrite Forall_forall in Hok.
  apply (Hok hl Hhl). eauto with go_lists.
Qed.

Lemma lin_of_fl index : lin_of tb index ≠ [] → ∃ hl, fl !! index = Some hl ∧ lin_of tb index = glob hl.1 hl.2.
Proof.
  unfold lin_of. rewrite (tk_all _ _ _ Htb), list_lookup_fmap. destruct (fl !! index) as [hl|]; [|done]. eauto.
Qed.

Lemma fl_lin_of index hl : fl !! index = Some hl → lin_of tb index = glob hl.1 hl.2.
Proof. intros H. unfold lin_of. by rewrite (tk_all _ _ _ Htb), list_lookup_fmap, H. Qed.

(** The starts of a linearization, up to a point whose events start before [u]. *)
Lemma starts_before hl index n u :
  fl !! index = Some hl →
  (∀ a g x, (a < n)%nat → glob hl.1 hl.2 !! a = Some g → els !! g = Some x → el_Start x < u) →
  ∀ t, t ∈ take n (starts els tb index) → t ∈ sorted ∧ t < u.
Proof.
  intros Hhl Hlt t [a [Ha Han]%lookup_take_Some]%list_elem_of_lookup.
  unfold starts in Ha. rewrite (fl_lin_of _ _ Hhl) in Ha. apply list_lookup_fmap_Some in Ha as (g & -> & Hg).
  destruct (fl_gids hl g) as [x Hx]; [eauto with go_lists..|].
  unfold start_of. rewrite Hx. cbn. split; [by eapply Hstart|by eapply Hlt].
Qed.

Lemma events_ok gid x : els !! gid = Some x → event_ok els tb sorted (event_of gid x).
Proof.
  intros Hx. pose proof (lookup_lt_Some _ _ _ Hx) as Hlt. split; cbn.
  - apply lookup_lt_is_Some_2. by rewrite (tk_e2l_len _ _ _ Htb).
  - apply lookup_lt_is_Some_2. by rewrite (tk_eil_len _ _ _ Htb).
  - split; [by eapply Hstart|]. eapply els_after; [done..|]. intros y y' Hy Hy'. simplify_eq.
    apply Z.lt_le_incl, base_timely. eauto with go_lists.
  - by eapply Hend.
  - intros [index p] [Hli|Hli]%elem_of_app; cbn [fst snd].
    + apply (tk_e2l _ _ _ Htb) in Hli as [Hp Hg].
      destruct (lin_of_fl index) as (hl & Hhl & E); [intros E; by rewrite E in Hg|].
      assert (hl ∈ fl) as Hin by eauto with go_lists. rewrite E in Hg |- *.
      pose proof (lookup_lt_Some _ _ _ Hg). split; [unfold zlen; lia|].
      split; [intros g ?; by eapply fl_gids|]. apply (starts_before hl); [done|].
      intros a g y Ha Hga Hy. eapply (fl_order hl a (Z.to_nat p)); [done|lia|done..].
    + apply list_elem_of_fmap in Hli as (index' & [= -> ->] & Hill).
      apply (tk_ill _ _ _ Htb) in Hill as (hl & Hhl & Hn). assert (hl ∈ fl) as Hin by eauto with go_lists.
      rewrite (fl_lin_of _ _ Hhl). pose proof (fl_nonempty hl Hin) as Hne.
      assert (0 < length (glob hl.1 hl.2))%nat by (destruct (glob hl.1 hl.2); [done|cbn; lia]).
      split; [unfold zlen; lia|]. split; [intros g ?; by eapply fl_gids|]. apply (starts_before hl); [done|].
      intros a g y Ha Hga Hy. by eapply (fl_next hl a).
Qed.

(** ** The positions *)

Context (p : prepared) (evs : list event).
Hypothesis Hp1 : byGid p = els.
Hypothesis Hp2 : pdata p = pdata base.
Hypothesis Hevs : ∀ e, e ∈ evs ↔ ∃ gid x, els !! gid = Some x ∧ e = event_of gid x.

(** The criteria, for the tables of the scan. *)
Lemma demands_fits x0 gid x (y : Z → Q) :
  fits textWidth p sorted y → els !! gid = Some x →
  (∀ t, t ∈ sorted → t < el_End x → (x0 t <= y t)%Q) →
  Forall (fun d => d <= y (el_End x))%Q (demands els tb x0 (event_of gid x)).
Proof.
  intros Hf Hx Hle. pose proof (events_ok _ _ Hx) as Hok.
  assert (∀ li, li ∈ pts_of tb gid → ∀ hl qs, fl !! li.1 = Some hl →
    points_from y None (start_of els <$> glob hl.1 hl.2) qs →
    ∃ q, qs !! Z.to_nat li.2 = Some q ∧ (point els tb x0 li.1 li.2 <= q)%Q) as Hpt.
  { intros li Hli hl qs Hhl Hqs. destruct (eo_pts _ _ _ _ Hok li Hli) as (Hr & _ & Ht).
    assert (starts els tb li.1 = start_of els <$> glob hl.1 hl.2) as Es by (unfold starts; by rewrite (fl_lin_of _ _ Hhl)).
    rewrite <- Es in Hqs.
    assert (Forall2 Qle (chain x0 None (take (Z.to_nat (li.2 + 1)) (starts els tb li.1))) (take (Z.to_nat (li.2 + 1)) qs)) as HF.
    { apply (chain_least x0 y None None); [|done|by apply points_take].
      intros t Htt. destruct (Ht t Htt). by apply Hle. }
    rewrite <- chain_take in HF. unfold point.
    destruct (lookup_lt_is_Some_2 (chain x0 None (starts els tb li.1)) (Z.to_nat li.2)) as [c Hc].
    { rewrite chain_length, starts_length. unfold zlen in Hr. lia. }
    rewrite Hc. destruct (Forall2_lookup_l _ _ _ (Z.to_nat li.2) c HF) as (q & Hq & Hcq).
    { rewrite lookup_take_lt by lia. done. }
    apply lookup_take_Some in Hq as [Hq _]. eauto. }
  assert (∀ index hl, fl !! index = Some hl → ∃ qs, points_from y None (start_of els <$> glob hl.1 hl.2) qs ∧
      Forall2 (fun g q => q <= y (end_of els g))%Q (glob hl.1 hl.2) qs ∧
      ∀ g q, next_event els hl.1 hl.2 g → last qs = Some q → (q + inject_Z EPSILON <= y (end_of els g))%Q) as Hlins.
  { intros index hl Hhl. assert (hl ∈ fl) as (pt & Hpt' & -> & Hlin)%flat_elem by eauto with go_lists.
    rewrite <- Hp2 in Hpt'. destruct (ft_lins _ _ _ _ Hf pt _ Hpt' Hlin) as (qs & H1 & H2 & H3). rewrite Hp1 in *. eauto. }
  assert (end_of els gid = el_End x) as Ee by (unfold end_of; by rewrite Hx).
  apply demands_bound; cbn [event_of ev_start ev_width ev_gid].
  - assert (x ∈ byGid p) as Hin by (rewrite Hp1; eauto with go_lists).
    pose proof (ft_text _ _ _ _ Hf x Hin). destruct (eo_start _ _ _ _ Hok) as [Hs1 Hs2].
    specialize (Hle _ Hs1 Hs2). cbn in Hle. lra.
  - intros li Hli. assert (li ∈ pts_of tb gid) as Hin by (apply elem_of_app; by left).
    destruct li as [index q0]. apply (tk_e2l _ _ _ Htb) in Hli as [Hq0 Hg].
    destruct (lin_of_fl index) as (hl & Hhl & E); [intros E; by rewrite E in Hg|]. rewrite E in Hg.
    destruct (Hlins _ _ Hhl) as (qs & Hqs & HF & _). destruct (Hpt _ Hin hl qs Hhl Hqs) as (q & Hq & Hpq).
    cbn [fst snd] in *. pose proof (Forall2_lookup_lr _ _ _ _ _ _ HF Hg Hq) as Hb. cbn in Hb. rewrite Ee in Hb. lra.
  - intros index Hi. assert (last_point tb index ∈ pts_of tb gid) as Hin
      by (apply elem_of_app; right; by apply list_elem_of_fmap_2).
    apply (tk_ill _ _ _ Htb) in Hi as (hl & Hhl & Hn). destruct (Hlins _ _ Hhl) as (qs & Hqs & HF & Hb).
    destruct (Hpt _ Hin hl qs Hhl Hqs) as (q & Hq & Hpq). unfold beyond. cbn [last_point fst snd] in *.
    rewrite <- Ee. assert (last qs = Some q) as Hlast.
    { rewrite last_lookup, <- Hq. f_equal. apply Forall2_length in HF. rewrite (fl_lin_of _ _ Hhl). unfold zlen. lia. }
    specialize (Hb gid q Hn Hlast). lra.
Qed.

Lemma sorted_pairs (R : Z → Z → Prop) l t t' :
  StronglySorted Z.lt l → StronglySorted R l → t ∈ l → t' ∈ l → t < t' → R t t'.
Proof.
  induction l as [|u l IH]; intros Hs HR Ht Ht' Hlt; [set_solver|].
  apply StronglySorted_inv in Hs as [Hs Hsf], HR as [HR HRf]. rewrite Forall_forall in Hsf, HRf.
  apply elem_of_cons in Ht as [->|Ht], Ht' as [->|Ht']; [lia|by apply HRf| |by apply IH].
  specialize (Hsf t Ht). lia.
Qed.

Context (t0 : Z) (rest : list Z) (x : Z → Q).
Hypothesis Hsorted : sorted = t0 :: rest.
Hypothesis Hso : StronglySorted Z.lt sorted.
Hypothesis Hx0 : x t0 = 0%Q.
Hypothesis Hplaced : placed els tb x evs t0 rest.

Lemma after_first t : t ∈ sorted → t = t0 ∨ t0 < t ∧ t ∈ rest.
Proof.
  rewrite Hsorted in *. intros [->|Ht]%elem_of_cons; [by left|right].
  apply StronglySorted_inv in Hso as [_ Hf]. rewrite Forall_forall in Hf. auto.
Qed.

Lemma placed_fits_demands gid y : els !! gid = Some y →
  Forall (fun d => d <= x (el_End y))%Q (demands els tb x (event_of gid y)).
Proof.
  intros Hy. pose proof (events_ok _ _ Hy) as Hok. destruct (eo_start _ _ _ _ Hok) as [Hs1 Hs2]. cbn in Hs1, Hs2.
  apply Forall_forall. intros d Hd. apply (placed_demand els tb x evs t0 rest (event_of gid y)); [done| | |done].
  - apply Hevs. eauto.
  - cbn. destruct (after_first _ (Hend _ _ Hy)) as [E|[_ ?]]; [|done].
    destruct (after_first _ Hs1) as [|[? _]]; lia.
Qed.

Lemma x_gap t t' : t ∈ sorted → t' ∈ sorted → t < t' → (x t + inject_Z BOX_GAP <= x t')%Q.
Proof.
  apply (sorted_pairs (fun t t' => x t + inject_Z BOX_GAP <= x t')%Q); [done|].
  rewrite Hsorted. by apply (placed_gaps els tb x evs).
Qed.

Lemma x_fits : fits textWidth p sorted x.
Proof.
  split.
  - intros t Ht. destruct (after_first t Ht) as [->|[Hlt _]]; [rewrite Hx0; apply Qle_refl|].
    assert (t0 ∈ sorted) as H0 by (rewrite Hsorted; set_solver). pose proof (x_gap t0 t H0 Ht Hlt) as Hg.
    rewrite Hx0 in Hg. assert (0 <= inject_Z BOX_GAP)%Q by (by compute). lra.
  - apply x_gap.
  - intros y Hy. rewrite Hp1 in Hy. apply list_elem_of_lookup in Hy as [gid Hy].
    apply (demands_text els tb x (event_of gid y)). by apply placed_fits_demands.
  - intros pt lin Hpt Hlin gids. assert (glob (pt_History pt) lin = gids) as Eg by done. clearbody gids.
    assert ((pt_History pt, lin) ∈ fl) as Hin by (apply flat_elem; exists pt; by rewrite <- Hp2).
    apply list_elem_of_lookup in Hin as [index Hhl]. pose proof (fl_lin_of _ _ Hhl) as El. cbn [fst snd] in El. rewrite Eg in El.
    exists (chain x None (starts els tb index)). rewrite Hp1. unfold starts. rewrite El.
    split; [apply chain_points|]. split.
    + apply Forall2_same_length_lookup_2; [by rewrite chain_length, length_fmap|].
      intros k g q Hg Hq. destruct (fl_gids (pt_History pt, lin) g) as [y Hy]; [eauto with go_lists|cbn [fst snd]; rewrite Eg; eauto with go_lists|].
      unfold end_of. rewrite Hy. cbn. pose proof (demands_point els tb x _ _ (index, Z.of_nat k) (placed_fits_demands g y Hy)) as Hd.
      unfold point, starts in Hd. cbn in Hd. rewrite El, Nat2Z.id, Hq in Hd. cbn in Hd. apply Hd.
      apply (tk_e2l _ _ _ Htb). rewrite El, Nat2Z.id. split; [lia|done].
    + intros g q Hn Hq. assert (is_Some (els !! g)) as [y Hy] by (destruct Hn as (? & y & _ & ? & _); eauto).
      unfold end_of. rewrite Hy. cbn.
      pose proof (demands_beyond els tb x _ _ index (placed_fits_demands g y Hy)) as Hd.
      unfold beyond, point, starts in Hd. rewrite El in Hd.
      rewrite last_lookup, chain_length, length_fmap in Hq.
      replace (Z.to_nat (zlen gids - 1)) with (Nat.pred (length gids)) in Hd by (unfold zlen; lia).
      rewrite Hq in Hd. cbn in Hd. apply Hd. apply (tk_ill _ _ _ Htb). eauto.
Qed.

Lemma x_least y : fits textWidth p sorted y → ∀ t, t ∈ sorted → (x t <= y t)%Q.
Proof.
  intros Hf. assert (t0 ∈ sorted) as H0 by (rewrite Hsorted; set_solver).
  assert (x t0 <= y t0)%Q as Hx by (rewrite Hx0; by apply (ft_pos _ _ _ _ Hf)).
  apply (placed_least els tb sorted x y evs t0 rest); [done|by rewrite <- Hsorted| | | |done|].
  - rewrite <- Hsorted. pose proof (ft_gap _ _ _ _ Hf) as Hg. clear -Hso Hg.
    assert (∀ l, StronglySorted Z.lt l → l ⊆ sorted → StronglySorted (fun t t' => y t + inject_Z BOX_GAP <= y t')%Q l) as H.
    { induction 1 as [|t l _ IH Hl]; intros Hsub; constructor; [apply IH; set_solver|].
      apply Forall_forall. intros t' Ht'. rewrite Forall_forall in Hl. apply Hg; [set_solver..|by apply Hl]. }
    by apply H.
  - intros t Ht. destruct (after_first t Ht) as [->|[_ ?]]; [left; lia|by right].
  - intros t Ht Hle. destruct (after_first t Ht) as [->|[? _]]; [done|lia].
  - intros e (gid & z & Hz & ->)%Hevs Hle. cbn in *. by apply demands_fits.
Qed.

End with_tables.

Lemma solve_spec :
  ∃ sv tb, solve sortTs sortEvents textWidth data = Done sv ∧ make_tables (sv_page sv) = Done tb ∧
    byGid (sv_page sv) = els ∧ pdata (sv_page sv) = pdata base ∧ tables_ok els fl tb ∧
    (∀ t, t ∈ sv_sorted sv → known (sv_xPos sv) t) ∧
    (∀ gid y, els !! gid = Some y → el_Start y ∈ sv_sorted sv ∧ el_End y ∈ sv_sorted sv) ∧
    pts_ok els tb (sv_xPos sv) (sv_points sv) ∧
    fits textWidth (sv_page sv) (sv_sorted sv) (x_of (sv_xPos sv)) ∧
    ∀ y, fits textWidth (sv_page sv) (sv_sorted sv) y →
      ∀ t, t ∈ sv_sorted sv → (x_of (sv_xPos sv) t <= y t)%Q.
Proof.
  pose proof (prepare_ok data) as Hb. unfold solve.
  destruct (tweak_spec sortTs data base Hb) as (all & Htw & Hall). fold base. rewrite Htw.
  fold twk els. set (p := mkPrepared els (pdata base) all (startTimestamps base)). set (sorted := sortTs (elements all)).
  destruct (byEnd_spec all (startTimestamps base)) as (evs & Hev & Hevs & Hin). fold p in Hev. rewrite Hev. go_simpl.
  destruct (make_tables_spec p) as (tb & Htb & Htk); [apply fl_ok|]. cbn [byGid pdata p] in Htk. fold fl in Htk.
  rewrite Htb. go_simpl. cbn [byGid p].
  destruct (sorted_set sortTs all) as [Hso Hsin]. fold sorted in Hso, Hsin.
  assert (∀ gid y, els !! gid = Some y → el_Start y ∈ sorted ∧ el_End y ∈ sorted) as Hse.
  { intros gid y (z & Hz & ->)%els_lookup. rewrite !Hsin, !Hall. assert (z ∈ byGid base) as Hzin by eauto with go_lists.
    split; [left|right; eauto]. destruct (tw_static sortTs base z) as (E & _). unfold twk. rewrite E.
    apply (pr_all _ _ Hb). eauto. }
  assert (pts_ok els tb ∅ (replicate (length (allLinearizations tb)) [])) as Hpt0.
  { split; [apply length_replicate|]. intros index pts [-> _]%lookup_replicate. cbn. split; [done|set_solver]. }
  assert (∀ gid y, els !! gid = Some y → event_ok els tb sorted (event_of gid y)) as Heok.
  { intros. by apply events_ok; [done|apply Hse..|]. }
  clearbody sorted. destruct sorted as [|t0 rest]; cbn [scan].
  - exists (mkSolved p [] ∅ (replicate (length (allLinearizations tb)) [])), tb.
    assert (els = []) as Eels by (destruct els as [|z l] eqn:E; [done|]; destruct (Hse 0%nat z); [done|set_solver]).
    go_simpl. cbn [sv_page sv_sorted sv_xPos sv_points]. split_and!; try done; [set_solver| |set_solver].
    split; cbn; [set_solver..|rewrite Eels; set_solver|]. intros pt lin Hpt Hlin. exfalso.
    assert ((pt_History pt, lin) ∈ fl) as Hfl by (apply flat_elem; eauto).
    pose proof (fl_nonempty _ Hfl) as Hne. destruct (glob (pt_History pt) lin) as [|g l] eqn:Eg; [done|].
    destruct (fl_gids _ g Hfl) as [z Hz]; [cbn [fst snd]; rewrite Eg; set_solver|]. by rewrite Eels in Hz.
  - destruct (scan_loop_spec els tb (t0 :: rest) t0 rest evs {[ t0 := px 0 ]} (replicate (length (allLinearizations tb)) []))
      as (X & lps & -> & Hk & Hx & Hpl & Hpo).
    + done.
    + apply Forall_forall. intros e (gid & y & Hy & ->)%Hin. by apply Heok.
    + done.
    + apply Forall_forall. intros e (gid & y & Hy & ->)%Hin. destruct (eo_start _ _ _ _ (Heok _ _ Hy)) as [Hs1 Hs2].
      cbn in *. apply elem_of_cons in Hs1 as [<-|Hs1]; [done|]. apply StronglySorted_inv in Hso as [_ Hf].
      rewrite Forall_forall in Hf. specialize (Hf _ Hs1). lia.
    + intros t [->|?]%elem_of_cons; [left; lia|by right].
    + intros t [->|Ht]%elem_of_cons Hle; [eexists; apply lookup_insert_eq|].
      apply StronglySorted_inv in Hso as [_ Hf]. rewrite Forall_forall in Hf. specialize (Hf _ Ht). lia.
    + eexists. apply lookup_insert_eq.
    + intros t [q Hq]. apply lookup_singleton_Some in Hq as [-> _]. lia.
    + split; [apply length_replicate|]. intros index pts [-> _]%lookup_replicate. cbn. split; [done|set_solver].
    + go_simpl. exists (mkSolved p (t0 :: rest) X lps), tb. cbn [sv_page sv_sorted sv_xPos sv_points].
      do 8 (split; [done|]).
      assert (x_of X t0 = 0%Q) as Hx0 by (rewrite Hx; [unfold x_of, xpos; by rewrite lookup_singleton_eq|eexists; apply lookup_insert_eq]).
      assert (∀ gid y, els !! gid = Some y → el_Start y ∈ t0 :: rest) as Hst by (intros; by eapply Hse).
      assert (∀ gid y, els !! gid = Some y → el_End y ∈ t0 :: rest) as Hen by (intros; by eapply Hse).
      split; [by eapply (x_fits tb (t0 :: rest) Htk Hst Hen p evs)|].
      intros y Hy. by eapply (x_least tb (t0 :: rest) Htk Hst Hen p evs).
Qed.

End solve.

(** C13: on data that can be shown, whatever sorting does with ties and
    however wide the browser draws texts, the first half of [render] does not
    throw, and the positions it computes meet the criteria of its comment and
    are the least that do: no other map from timestamps to positions that
    keeps the gaps, fits the texts and fits the linearization points places
    any timestamp further to the left. *)
Theorem layout_optimal sortTs sortEvents textWidth data :
  GoSort ts_less sortTs → GoSort event_less sortEvents → Forall showable data →
  ∃ sv, solve sortTs sortEvents textWidth data = Done sv ∧
    (∀ t, t ∈ sv_sorted sv → ∃ q, sv_xPos sv !! t = Some (Num q)) ∧
    fits textWidth (sv_page sv) (sv_sorted sv) (x_of (sv_xPos sv)) ∧
    ∀ y, fits textWidth (sv_page sv) (sv_sorted sv) y →
      ∀ t, t ∈ sv_sorted sv → (x_of (sv_xPos sv) t <= y t)%Q.
Proof.
  intros Hs1 Hs2 Hd.
  destruct (solve_spec sortTs sortEvents textWidth data Hd) as (sv & tb & Hrun & _ & _ & _ & _ & Hk & _ & _ & Hf & Hl).
  exists sv. done.
Qed.
