(* ===== verification/PageDraw.v ===== *)
(** * The page: drawing ([labs/src/porcupine/visualization.go])

    The middle of [render], after the comment "Solved, now draw UI": the
    boxes of the events, and the points and lines of every partial
    linearization, with the events that could have come next but are
    illegal.  What is drawn is kept as records of attributes. *)

From Stdlib Require Import QArith Qminmax Lqa.
From S2P Require Import Prelude Visualization Page PageLayout PageData PageCorrect.
Local Open Scope Z_scope.

(** ** Shapes *)

Record rect := mkRect { rc_x : num; rc_y : num; rc_width : num; rc_height : num }.

Record text := mkText { tx_x : num; tx_y : num; tx_content : string }.

Inductive line_class := valid_line | valid_point | invalid_line | invalid_point | divider.

#[export] Instance line_class_eq : EqDecision line_class.
Proof. solve_decision. Defined.

Record line := mkLine { ln_class : line_class; ln_x1 : num; ln_x2 : num; ln_y1 : num; ln_y2 : num }.

(** The box of an event; [mouseTarget] has the same place and size as [rects],
    and carries the partition and the index. *)
Record box := mkBox { bx_rect : rect; bx_text : text; bx_target : rect; bx_partition : Z; bx_index : Z }.

Record errorPoint := mkErrorPoint {
  ep_x : num; ep_partition : Z; ep_index : Z;
  ep_lin : Z; (** the layer [element.parentElement] *)
}.

(** ** Background *)

Section draw.
Context (nClients : Z) (lastX : num).

Definition svg_height : num :=
  px (2 * PADDING + BOX_HEIGHT * nClients + BOX_SPACE * (nClients - 1)).
Definition svg_width : num := nadd (px (2 * PADDING + XOFF)) lastX.

Definition row (client : Z) : Z := PADDING + client * (BOX_HEIGHT + BOX_SPACE).

Definition client_label (show : Z → string) (i : Z) : text :=
  mkText (nhalf (px XOFF)) (nadd (nadd (px PADDING) (nhalf (px BOX_HEIGHT))) (px (i * (BOX_HEIGHT + BOX_SPACE))))
    (show i).

Definition divider_line : line :=
  mkLine divider (px (PADDING + XOFF)) (px (PADDING + XOFF)) (px PADDING) (nsub svg_height (px PADDING)).

(** ** Boxes *)

Context (els : list el) (xPos : gmap Z num).

Definition draw_box (partitionIndex elIndex : Z) (x : el) : box :=
  let rx := xpos xPos (el_Start x) in
  let width := nsub (xpos xPos (el_End x)) rx in
  let left := nadd (nadd rx (px XOFF)) (px PADDING) in
  let y := px (row (el_ClientId x)) in
  let r := mkRect left y width (px BOX_HEIGHT) in
  mkBox r (mkText (nadd left (nhalf width)) (nadd y (nhalf (px BOX_HEIGHT))) (el_Description x))
    r partitionIndex elIndex.

Fixpoint draw_boxes (partitionIndex elIndex : Z) (hist : list nat) : go (list box) :=
  match hist with
  | [] => Done []
  | gid :: hist =>
      x ← idx els (Z.of_nat gid);
      rest ← draw_boxes partitionIndex (elIndex + 1) hist;
      Done (draw_box partitionIndex elIndex x :: rest)
  end.

Fixpoint draw_histories (partitionIndex : Z) (parts : list part) : go (list (list box)) :=
  match parts with
  | [] => Done []
  | p :: parts =>
      l ← draw_boxes partitionIndex 0 (pt_History p);
      rest ← draw_histories (partitionIndex + 1) parts;
      Done (l :: rest)
  end.

(** ** Linearizations

    [prevX], [prevY] and [prevEl], [None] while they are [null]. *)

Record pen := mkPen { pen_x : num; pen_y : num; pen_client : Z }.

Definition point_y (client : Z) : num := px (row client - LINE_BLEED).

(** [const x = prevX !== null ? Math.max(hereX, prevX + EPSILON) : hereX] *)
Definition point_x (prev : option pen) (x : el) : num :=
  let hereX := nadd (px (PADDING + XOFF)) (xpos xPos (el_Start x)) in
  match prev with Some pn => nmax hereX (nadd (pen_x pn) (px EPSILON)) | None => hereX end.

(** The line from the point before to the point at [x], [y] of [client]. *)
Definition link (c : line_class) (pn : pen) (x y : num) (client : Z) : line :=
  let bleed := px (BOX_HEIGHT + 2 * LINE_BLEED) in
  mkLine c (pen_x pn) x
    (if bool_decide (pen_client pn >= client) then pen_y pn else nadd (pen_y pn) bleed)
    (if bool_decide (pen_client pn <= client) then y else nadd y bleed).

Definition upright (c : line_class) (x y : num) : line :=
  mkLine c x x y (nadd y (px (BOX_HEIGHT + 2 * LINE_BLEED))).

(** [lin.forEach(id => ...)] *)
Fixpoint draw_steps (hist : list nat) (lin : list linearizationStep) (prev : option pen)
    : go (list line * option pen) :=
  match lin with
  | [] => Done ([], prev)
  | id :: lin =>
      gid ← idx hist (ls_Index id);
      x ← idx els (Z.of_nat gid);
      let here := point_x prev x in
      let y := point_y (el_ClientId x) in
      let l := match prev with Some pn => [link valid_line pn here y (el_ClientId x)] | None => [] end in
      '(rest, last) ← draw_steps hist lin (Some (mkPen here y (el_ClientId x)));
      Done (l ++ upright valid_point here y :: rest, last)
  end.

(** What the loops over the partial linearizations collect. *)
Record collected := mkCollected {
  cl_errorPoints : list errorPoint;
  cl_illegalLast : gset Z;
  cl_largestIllegal : gmap Z Z;
  cl_largestIllegalLength : gmap Z Z;
}.

(** One event that could have come next; the script needs a point before. *)
Definition draw_illegal (partitionIndex linIndex : Z) (lin : list linearizationStep) (prev : option pen)
    (index : Z) (x : el) (st : collected) : go (list line * collected) :=
  let here := point_x prev x in
  let y := point_y (el_ClientId x) in
  match prev, last lin with
  | Some pn, Some id =>
      let len := zlen lin in
      let better := match cl_largestIllegalLength st !! index with
                    | Some l => bool_decide (l < len)
                    | None => true
                    end in
      Done ([link invalid_line pn here y (el_ClientId x); upright invalid_point here y],
        mkCollected (cl_errorPoints st ++ [mkErrorPoint here partitionIndex (ls_Index id) linIndex])
          ({[ index ]} ∪ cl_illegalLast st)
          (if better then <[index := linIndex]> (cl_largestIllegal st) else cl_largestIllegal st)
          (if better then <[index := len]> (cl_largestIllegalLength st) else cl_largestIllegalLength st))
  | _, _ => Panic
  end.

Fixpoint draw_illegals (partitionIndex linIndex : Z) (lin : list linearizationStep) (prev : option pen)
    (next : list (Z * nat * el)) (st : collected) : go (list line * collected) :=
  match next with
  | [] => Done ([], st)
  | (index, _, x) :: next =>
      '(l, st) ← draw_illegal partitionIndex linIndex lin prev index x st;
      '(rest, st) ← draw_illegals partitionIndex linIndex lin prev next st;
      Done (l ++ rest, st)
  end.

Definition draw_lin (hist : list nat) (partitionIndex linIndex : Z) (lin : list linearizationStep)
    (st : collected) : go (list line * collected) :=
  '(l, prev) ← draw_steps hist lin None;
  next ← possible_next els hist lin;
  '(l', st) ← draw_illegals partitionIndex linIndex lin prev next
    (mkCollected (cl_errorPoints st) ∅ (cl_largestIllegal st) (cl_largestIllegalLength st));
  Done (l ++ l', st).

(** The layers of one partition, with [illegalLast] of each linearization. *)
Fixpoint draw_lins (hist : list nat) (partitionIndex linIndex : Z) (lins : list (list linearizationStep))
    (st : collected) : go (list (list line * gset Z) * collected) :=
  match lins with
  | [] => Done ([], st)
  | lin :: lins =>
      '(l, st) ← draw_lin hist partitionIndex linIndex lin st;
      '(rest, st') ← draw_lins hist partitionIndex (linIndex + 1) lins st;
      Done ((l, cl_illegalLast st) :: rest, st')
  end.

(** A partition as drawn. *)
Record layer := mkLayer {
  ly_lins : list (list line * gset Z);
  ly_largestIllegal : gmap Z Z;
}.

Fixpoint draw_partials (partitionIndex : Z) (parts : list part) (eps : list errorPoint)
    : go (list layer * list errorPoint) :=
  match parts with
  | [] => Done ([], eps)
  | p :: parts =>
      '(l, st) ← draw_lins (pt_History p) partitionIndex 0 (pt_PartialLinearizations p)
        (mkCollected eps ∅ ∅ ∅);
      '(rest, eps) ← draw_partials (partitionIndex + 1) parts (cl_errorPoints st);
      Done (mkLayer l (cl_largestIllegal st) :: rest, eps)
  end.

End draw.

(** ** The whole picture *)

Record picture := mkPicture {
  pc_height : num;
  pc_width : num;
  pc_labels : list text;
  pc_divider : line;
  pc_boxes : list (list box);
  pc_layers : list layer;
  pc_errorPoints : list errorPoint;
}.

(** [xPos[sortedTimestamps[sortedTimestamps.length-1]]]; without events both
    [sortedTimestamps[0]] and this key are [undefined], and the scan has
    stored 0 there. *)
Definition last_x (sv : solved) : num :=
  match last (sv_sorted sv) with Some t => xpos (sv_xPos sv) t | None => px 0 end.

Definition draw (show : Z → string) (sortPoints : list errorPoint → list errorPoint)
    (data : list partitionVisualizationData) (sv : solved) : go picture :=
  let n := nClient data in
  let els := byGid (sv_page sv) in
  boxes ← draw_histories els (sv_xPos sv) 0 (pdata (sv_page sv));
  '(layers, eps) ← draw_partials els (sv_xPos sv) 0 (pdata (sv_page sv)) [];
  Done (mkPicture (svg_height n) (svg_width (last_x sv))
    ((fun i => client_label show (Z.of_nat i)) <$> seq 0 (Z.to_nat n)) (divider_line n) boxes layers (sortPoints eps)).

(** ** What is drawn *)

Definition nle (a b : num) : Prop := match a, b with Num a, Num b => (a <= b)%Q | _, _ => False end.
Definition neq (a b : num) : Prop := match a, b with Num a, Num b => (a == b)%Q | _, _ => False end.

(** The upright line [l] goes through the box [r] and sticks out of it above
    and below. *)
Record spans (r : rect) (l : line) : Prop := {
  sp_upright : ln_x2 l = ln_x1 l;
  sp_left : nle (rc_x r) (ln_x1 l);
  sp_right : nle (ln_x1 l) (nadd (rc_x r) (rc_width r));
  sp_top : neq (nadd (ln_y1 l) (px LINE_BLEED)) (rc_y r);
  sp_bottom : neq (ln_y2 l) (nadd (nadd (rc_y r) (rc_height r)) (px LINE_BLEED));
}.

Lemma px_add a b : neq (nadd (px a) (px b)) (px (a + b)).
Proof. cbn. by rewrite inject_Z_plus. Qed.

Definition points_of_class (c : line_class) (ls : list line) : list line :=
  filter (fun l => ln_class l = c) ls.

Lemma points_of_class_app c l l' : points_of_class c (l ++ l') = points_of_class c l ++ points_of_class c l'.
Proof. apply filter_app. Qed.

Section drawn.
Context (els : list el) (xPos : gmap Z num).
Let x := x_of xPos.

(** [l] is drawn at position [q], in the row of event [g]. *)
Definition drawn_at (c : line_class) (g : nat) (q : Q) (l : line) : Prop :=
  ∃ z a, els !! g = Some z ∧ l = upright c (Num a) (point_y (el_ClientId z)) ∧
    (a == q + inject_Z (PADDING + XOFF))%Q.

Definition pen_at (prev : option pen) (q : option Q) : Prop :=
  match prev, q with
  | None, None => True
  | Some pn, Some q => ∃ a, pen_x pn = Num a ∧ (a == q + inject_Z (PADDING + XOFF))%Q
  | _, _ => False
  end.

(** Every drawn event exists, and its start has a position. *)
Definition placed_event (g : nat) : Prop := ∃ z, els !! g = Some z ∧ known xPos (el_Start z).

Definition next_q (prev : option Q) (t : Z) : Q :=
  match prev with Some p => Qmax (x t) (p + inject_Z EPSILON) | None => x t end.

Lemma point_x_spec prev q z :
  pen_at prev q → known xPos (el_Start z) →
  ∃ a, point_x xPos prev z = Num a ∧ (a == next_q q (el_Start z) + inject_Z (PADDING + XOFF))%Q.
Proof.
  intros Hp Hk. unfold point_x. rewrite (known_xpos _ _ Hk). fold x. cbn [nadd lift2 px].
  destruct prev as [pn|], q as [q|]; cbn [pen_at] in Hp; try done; [|eexists; split; [done|]; cbn [next_q]; lra].
  destruct Hp as (a & -> & Ha). cbn [nadd nmax lift2 px next_q]. eexists. split; [done|].
  destruct (Q.max_spec (x (el_Start z)) (q + inject_Z EPSILON)) as [[? ->]|[? ->]].
  - rewrite Q.max_r; lra.
  - rewrite Q.max_l; lra.
Qed.

Lemma draw_steps_spec hist lin gids prev q :
  Forall2 (fun id g => hist !! Z.to_nat (ls_Index id) = Some g) lin gids →
  (∀ id, id ∈ lin → 0 ≤ ls_Index id) → Forall placed_event gids → pen_at prev q →
  ∃ ls last, draw_steps els xPos hist lin prev = Done (ls, last) ∧
    Forall2 (fun gq l => drawn_at valid_point gq.1 gq.2 l)
      (zip gids (chain x q (start_of els <$> gids))) (points_of_class valid_point ls) ∧
    points_of_class invalid_point ls = [] ∧
    pen_at last (match list.last (chain x q (start_of els <$> gids)) with Some p => Some p | None => q end).
Proof.
  intros HF. revert prev q. induction HF as [|id g lin gids Hg HF IH]; intros prev q Hr Hpl Hpen; cbn [draw_steps].
  { eexists [], prev. split; [done|]. split; [constructor|]. done. }
  apply Forall_cons in Hpl as [(z & Hz & Hk) Hpl].
  rewrite (proj2 (idx_Done hist (ls_Index id) g)) by (split; [apply Hr; set_solver|done]). go_simpl.
  rewrite (idx_nat _ _ _ Hz). go_simpl.
  destruct (point_x_spec prev q z Hpen Hk) as (a & -> & Ha).
  destruct (IH (Some (mkPen (Num a) (point_y (el_ClientId z)) (el_ClientId z))) (Some (next_q q (el_Start z))))
    as (ls & last & -> & Hls & Hinv & Hlast); [set_solver|done|by exists a|]. go_simpl.
  assert (start_of els g = el_Start z) as Es by (unfold start_of; by rewrite Hz).
  eexists _, last. split; [done|]. cbn [fmap list_fmap chain]. rewrite Es. fold (next_q q (el_Start z)).
  split; [|split].
  - rewrite points_of_class_app.
    replace (points_of_class valid_point (match prev with Some pn => [_] | None => [] end)) with (@nil line)
      by (by destruct prev).
    cbn [app zip zip_with points_of_class filter list_filter upright ln_class decide]. constructor; [|done].
    exists z, a. done.
  - rewrite points_of_class_app. unfold points_of_class at 2. rewrite filter_cons_False by done.
    fold (points_of_class invalid_point ls). rewrite Hinv. by destruct prev.
  - rewrite last_cons. by destruct (list.last _).
Qed.

(** What one linearization leaves in [largestIllegal] and
    [largestIllegalLength]: for the indices that could come next, its number
    [i] and length [len] where none longer, or as long and earlier, was found. *)
Definition note_illegal (i len : Z) (index : Z) (st : gmap Z Z * gmap Z Z) : gmap Z Z * gmap Z Z :=
  if match st.2 !! index with Some l => bool_decide (l < len) | None => true end
  then (<[index := i]> st.1, <[index := len]> st.2) else st.

Lemma draw_illegals_spec p i lin id pn q next st :
  last lin = Some id → pen_at (Some pn) (Some q) →
  (∀ index g z, (index, g, z) ∈ next → els !! g = Some z ∧ known xPos (el_Start z)) →
  ∃ ls st' eps, draw_illegals xPos p i lin (Some pn) next st = Done (ls, st') ∧
    points_of_class valid_point ls = [] ∧
    Forall2 (fun n l => drawn_at invalid_point n.1.2 (next_q (Some q) (el_Start n.2)) l) next
      (points_of_class invalid_point ls) ∧
    cl_illegalLast st' = list_to_set ((fun n => n.1.1) <$> next) ∪ cl_illegalLast st ∧
    cl_errorPoints st' = cl_errorPoints st ++ eps ∧
    Forall (fun e => ep_partition e = p ∧ ep_lin e = i ∧ ep_index e = ls_Index id ∧ ∃ a, ep_x e = Num a) eps ∧
    (next ≠ [] ↔ eps ≠ []) ∧
    (cl_largestIllegal st', cl_largestIllegalLength st') =
      foldl (fun s index => note_illegal i (zlen lin) index s)
        (cl_largestIllegal st, cl_largestIllegalLength st) ((fun n => n.1.1) <$> next).
Proof.
  intros Hid Hpen. revert st. induction next as [|[[index g] z] next IH]; intros st Hn; cbn [draw_illegals].
  { exists [], st, []. split; [done|]. split; [done|]. split; [constructor|]. split; [cbn; set_solver|].
    split; [by rewrite app_nil_r|]. split; [constructor|]. done. }
  destruct (Hn index g z ltac:(set_solver)) as [Hz Hk].
  destruct (point_x_spec (Some pn) (Some q) z Hpen Hk) as (a & Hx & Ha).
  unfold draw_illegal. rewrite Hid, Hx. go_simpl.
  match goal with |- context [draw_illegals _ _ _ _ _ _ ?s] => destruct (IH s) as
    (ls & st' & eps & -> & Hv & Hi & Hil & He & Hf & _ & Hla) end.
  { intros index' g' z' Hin. apply (Hn index'). by right. }
  go_simpl. cbn [cl_illegalLast cl_errorPoints cl_largestIllegal cl_largestIllegalLength] in *.
  eexists _, st', (mkErrorPoint (Num a) p (ls_Index id) i :: eps). split; [done|]. split_and!.
  - rewrite points_of_class_app, Hv. done.
  - rewrite points_of_class_app. cbn [points_of_class filter list_filter link upright ln_class decide app].
    constructor; [|done]. exists z, a. done.
  - rewrite Hil. cbn [fmap list_fmap list_to_set foldr]. cbn. set_solver.
  - by rewrite He, <- app_assoc.
  - constructor; [|done]. cbn. eauto.
  - done.
  - rewrite Hla. cbn [fmap list_fmap foldl fst]. f_equal. unfold note_illegal. cbn [snd fst].
    by destruct (match cl_largestIllegalLength st !! index with Some l => _ | None => _ end).
Qed.

(** ** One linearization *)

(** The box of event [g]. *)
Definition rect_of (g : nat) : rect :=
  match els !! g with Some z => bx_rect (draw_box xPos 0 0 z) | None => mkRect NaN NaN NaN NaN end.

Lemma spans_drawn c g q l z :
  drawn_at c g q l → els !! g = Some z → known xPos (el_Start z) → known xPos (el_End z) →
  (x (el_Start z) <= q)%Q → (q <= x (el_End z))%Q → spans (rect_of g) l.
Proof.
  intros (z' & a & Hz' & -> & Ha) Hz Hs He H1 H2. assert (z' = z) as -> by congruence. unfold rect_of. rewrite Hz. cbn [draw_box bx_rect].
  rewrite (known_xpos _ _ Hs), (known_xpos _ _ He). fold x.
  assert (inject_Z (PADDING + XOFF) == inject_Z XOFF + inject_Z PADDING)%Q as E1 by (by compute).
  split; cbn; [done|lra|lra| |].
  - unfold row. rewrite <- inject_Z_plus. by replace (_ - LINE_BLEED + LINE_BLEED) with (PADDING + el_ClientId z * (BOX_HEIGHT + BOX_SPACE)) by lia.
  - rewrite <- !inject_Z_plus. unfold row.
    by replace (PADDING + el_ClientId z * (BOX_HEIGHT + BOX_SPACE) - LINE_BLEED + (BOX_HEIGHT + 2 * LINE_BLEED))
      with (PADDING + el_ClientId z * (BOX_HEIGHT + BOX_SPACE) + BOX_HEIGHT + LINE_BLEED) by lia.
Qed.

(** The event at [index] is left out of [lin], and could have come next. *)
Definition illegal_next (hist : list nat) (lin : list linearizationStep) (index : Z) : Prop :=
  ∃ i g z, index = Z.of_nat i ∧ left_out_at hist lin i g ∧ els !! g = Some z ∧
    ∀ i' g' z', left_out_at hist lin i' g' → els !! g' = Some z' → el_Start z < el_End z'.

(** A linearization as drawn: a point for every step, in the box of its event,
    [EPSILON] or more after the point before, and a red point in the box of
    every event that could have come next. *)
Record lin_picture (hist : list nat) (lin : list linearizationStep) (d : list line * gset Z) : Prop := {
  lp_points : Forall2 (fun g l => spans (rect_of g) l) (glob hist lin) (points_of_class valid_point d.1);
  lp_apart : ∀ k l l', points_of_class valid_point d.1 !! k = Some l →
    points_of_class valid_point d.1 !! S k = Some l' → nle (nadd (ln_x1 l) (px EPSILON)) (ln_x1 l');
  lp_errors : ∃ gs, Forall2 (fun g l => spans (rect_of g) l) gs (points_of_class invalid_point d.1) ∧
    ∀ g, g ∈ gs ↔ next_event els hist lin g;
  lp_illegal : ∀ index, index ∈ d.2 ↔ illegal_next hist lin index;
}.

Lemma points_apart prev ts qs (k : nat) q q' :
  points_from x prev ts qs → qs !! k = Some q → qs !! S k = Some q' → (q + inject_Z EPSILON <= q')%Q.
Proof.
  intros Hp. revert k. induction Hp as [|prev t ts q0 qs Ht Hpr Hp IH]; intros k; [done|].
  destruct k as [|k]; cbn; [|by apply IH]. intros [= <-] Hq'.
  inversion Hp as [|? t1 ts1 q1 qs1 Ht1 Hp1 Hp1']; subst; [done|]. injection Hq' as <-. by apply Hp1.
Qed.

(** What the scan gives for one linearization. *)
Record laid_out (hist : list nat) (lin : list linearizationStep) : Prop := {
  lo_nonempty : lin ≠ [];
  lo_gids : Forall2 (fun id g => hist !! Z.to_nat (ls_Index id) = Some g) lin (glob hist lin);
  lo_index : ∀ id, id ∈ lin → 0 ≤ ls_Index id;
  lo_hist : ∀ g, g ∈ hist → ∃ z, els !! g = Some z ∧ known xPos (el_Start z) ∧ known xPos (el_End z) ∧ (x (el_Start z) <= x (el_End z))%Q;
  lo_in : Forall2 (fun g q => q <= x (end_of els g))%Q (glob hist lin) (chain x None (start_of els <$> glob hist lin));
  lo_next : ∀ g q, next_event els hist lin g → last (chain x None (start_of els <$> glob hist lin)) = Some q →
    (q + inject_Z EPSILON <= x (end_of els g))%Q;
}.

Lemma glob_in_hist hist lin g : g ∈ glob hist lin → g ∈ hist.
Proof. unfold glob. rewrite list_elem_of_omap. intros (id & _ & ?). eauto with go_lists. Qed.

Lemma draw_lin_spec hist p i lin st :
  laid_out hist lin →
  ∃ ls st' eps id idxs, draw_lin els xPos hist p i lin st = Done (ls, st') ∧
    lin_picture hist lin (ls, cl_illegalLast st') ∧ last lin = Some id ∧
    cl_errorPoints st' = cl_errorPoints st ++ eps ∧
    Forall (fun e => ep_partition e = p ∧ ep_lin e = i ∧ ep_index e = ls_Index id ∧ ∃ a, ep_x e = Num a) eps ∧
    (idxs ≠ [] ↔ eps ≠ []) ∧ cl_illegalLast st' = list_to_set idxs ∧
    (cl_largestIllegal st', cl_largestIllegalLength st') =
      foldl (fun s index => note_illegal i (zlen lin) index s)
        (cl_largestIllegal st, cl_largestIllegalLength st) idxs.
Proof.
  intros [Hne Hgl Hix Hh Hin Hnx]. unfold draw_lin.
  destruct (draw_steps_spec hist lin (glob hist lin) None None Hgl Hix) as (ls & lastp & -> & Hls & Hinv & Hpen); [|done|].
  { apply Forall_forall. intros g Hg%glob_in_hist. destruct (Hh g Hg) as (z & ? & ? & _). exists z. done. }
  go_simpl. destruct (possible_next_spec els hist lin) as (next & -> & Hnext).
  { intros g Hg. destruct (Hh g Hg) as (z & Hz & _). eauto with go_lists. }
  go_simpl. set (c := chain x None (start_of els <$> glob hist lin)) in *.
  assert (length c = length lin) as Hlc by (unfold c; rewrite chain_length, length_fmap; by rewrite <- (Forall2_length _ _ _ Hgl)).
  destruct (last lin) as [id|] eqn:Eid; [|by apply last_None in Eid].
  destruct (last c) as [q|] eqn:Eq; [|apply last_None in Eq; rewrite Eq in Hlc; by destruct lin].
  destruct lastp as [pn|]; [|done].
  assert (∀ index g z, (index, g, z) ∈ next → els !! g = Some z ∧ g ∈ hist ∧ next_event els hist lin g) as Hn.
  { intros index g z (Hz & (i' & -> & Hlo) & Hb)%Hnext. split; [done|]. split; [destruct Hlo; eauto with go_lists|].
    exists i', z. done. }
  assert (∀ index g z, (index, g, z) ∈ next → els !! g = Some z ∧ known xPos (el_Start z)) as Hn'.
  { intros index g z (Hz & Hg & _)%Hn. destruct (Hh g Hg) as (z' & ? & ? & _). by simplify_eq. }
  destruct (draw_illegals_spec p i lin id pn q next
    (mkCollected (cl_errorPoints st) ∅ (cl_largestIllegal st) (cl_largestIllegalLength st)) Eid Hpen Hn')
    as (ls' & st' & eps & -> & Hv' & Hi' & Hil & He & Hf & Hne' & Hla).
  go_simpl. cbn [cl_illegalLast cl_errorPoints cl_largestIllegal cl_largestIllegalLength] in *.
  rewrite (right_id_L ∅ (∪)) in Hil.
  assert (points_of_class valid_point (ls ++ ls') = points_of_class valid_point ls) as Ev
    by (by rewrite points_of_class_app, Hv', app_nil_r).
  exists (ls ++ ls'), st', eps, id, ((fun n => n.1.1) <$> next). split; [done|]. split; [|split_and!; try done].
  2:{ rewrite <- Hne'. by destruct next. }
  assert (∀ k g q0 l, glob hist lin !! k = Some g → c !! k = Some q0 → points_of_class valid_point ls !! k = Some l →
    drawn_at valid_point g q0 l) as Hat.
  { intros k g q0 l Hg Hq Hl. apply (Forall2_lookup_lr _ _ _ k (g, q0) l Hls); [|done].
    apply lookup_zip_with_Some. eauto 10. }
  assert (length (glob hist lin) = length (points_of_class valid_point ls)) as Hlp.
  { rewrite <- (Forall2_length _ _ _ Hls), length_zip_with. unfold c. rewrite chain_length, length_fmap. lia. }
  assert (length (glob hist lin) = length c) as Hlg by (unfold c; by rewrite chain_length, length_fmap).
  split; cbn [fst snd]; rewrite ?Ev.
  - apply Forall2_same_length_lookup_2; [done|]. intros k g l Hg Hl.
    destruct (lookup_lt_is_Some_2 c k) as [q0 Hq0]; [rewrite <- Hlg; eauto with go_lists|].
    destruct (Hh g) as (z & Hz & Hks & Hke & _); [apply (glob_in_hist _ lin); eauto with go_lists|].
    pose proof (Forall2_lookup_lr _ _ _ _ _ _ Hin Hg Hq0) as Hle. cbn in Hle. unfold end_of in Hle. rewrite Hz in Hle.
    eapply spans_drawn; [by eapply Hat|done..| |done].
    eapply (points_after x None (start_of els <$> glob hist lin) c k); [apply chain_points|done|].
    rewrite list_lookup_fmap, Hg. cbn. unfold start_of. by rewrite Hz.
  - intros k l l' Hl Hl'.
    destruct (lookup_lt_is_Some_2 c k) as [q0 Hq0]; [rewrite <- Hlg, Hlp; eauto with go_lists|].
    destruct (lookup_lt_is_Some_2 c (S k)) as [q1 Hq1]; [rewrite <- Hlg, Hlp; eauto with go_lists|].
    destruct (lookup_lt_is_Some_2 (glob hist lin) k) as [g Hg]; [rewrite Hlp; eauto with go_lists|].
    destruct (lookup_lt_is_Some_2 (glob hist lin) (S k)) as [g' Hg']; [rewrite Hlp; eauto with go_lists|].
    destruct (Hat _ _ _ _ Hg Hq0 Hl) as (z & a & _ & -> & Ha), (Hat _ _ _ _ Hg' Hq1 Hl') as (z' & a' & _ & -> & Ha').
    pose proof (points_apart None _ c k q0 q1 (chain_points _ _ _) Hq0 Hq1). cbn. lra.
  - exists ((fun n => n.1.2) <$> next). rewrite points_of_class_app, Hinv. cbn [app]. split.
    + apply Forall2_fmap_l. apply Forall2_same_length_lookup_2; [by rewrite (Forall2_length _ _ _ Hi')|].
      intros k [[index g] z] l Hk Hl. pose proof (Forall2_lookup_lr _ _ _ _ _ _ Hi' Hk Hl) as Hd. cbn in Hd |- *.
      destruct (Hn index g z) as (Hz & Hg & Hnev); [eauto with go_lists|].
      destruct (Hh g Hg) as (z' & Hz' & Hks & Hke & Hse). assert (z' = z) as -> by congruence.
      specialize (Hnx g q Hnev eq_refl). unfold end_of in Hnx. rewrite Hz in Hnx. cbn in Hnx.
      eapply spans_drawn; [exact Hd|done..|cbn [next_q]; apply Q.le_max_l|]. cbn [next_q]. by apply Q.max_lub.
    + intros g. rewrite list_elem_of_fmap. split.
      * intros ([[index g'] z] & -> & Hx). by apply Hn in Hx as (_ & _ & ?).
      * intros (i' & z & Hlo & Hz & Hb). exists (Z.of_nat i', g, z). split; [done|]. apply Hnext. eauto 10.
  - intros index. rewrite Hil, elem_of_list_to_set, list_elem_of_fmap. split.
    + intros ([[index' g] z] & -> & (Hz & (i' & -> & Hlo) & Hb)%Hnext). exists i', g, z. done.
    + intros (i' & g & z & -> & Hlo & Hz & Hb). exists (Z.of_nat i', g, z). split; [done|]. apply Hnext. eauto 10.
Qed.

(** ** All linearizations of a partition *)

(** What [largestIllegal] knows after linearizations of these lengths with
    these illegal indices: a longest one for every index that is illegal
    somewhere. *)
Definition noted_illegal (L : list (Z * gset Z)) (st : gmap Z Z * gmap Z Z) : Prop :=
  ∀ index, match st.1 !! index, st.2 !! index with
  | Some i, Some len => ∃ ill, 0 ≤ i ∧ L !! Z.to_nat i = Some (len, ill) ∧ index ∈ ill ∧
      ∀ len' ill', (len', ill') ∈ L → index ∈ ill' → len' ≤ len
  | None, None => ∀ len ill, (len, ill) ∈ L → index ∉ ill
  | _, _ => False
  end.

Lemma note_illegal_other i len index j st :
  j ≠ index → (note_illegal i len index st).1 !! j = st.1 !! j ∧ (note_illegal i len index st).2 !! j = st.2 !! j.
Proof.
  intros Hne. unfold note_illegal. destruct (match st.2 !! index with Some l => _ | None => _ end); [|done].
  cbn. by rewrite !lookup_insert_ne.
Qed.

Lemma note_illegal_again i len index st :
  note_illegal i len index (note_illegal i len index st) = note_illegal i len index st.
Proof.
  unfold note_illegal at 1. destruct (match (note_illegal i len index st).2 !! index with Some l => _ | None => _ end) eqn:E; [|done].
  exfalso. revert E. unfold note_illegal.
  destruct (st.2 !! index) as [l|] eqn:El; [case_bool_decide as Hl|]; cbn; rewrite ?lookup_insert_eq, ?El, ?bool_decide_eq_true; lia.
Qed.

Lemma note_illegal_local i len j st st' :
  st.1 !! j = st'.1 !! j → st.2 !! j = st'.2 !! j →
  (note_illegal i len j st).1 !! j = (note_illegal i len j st').1 !! j ∧
  (note_illegal i len j st).2 !! j = (note_illegal i len j st').2 !! j.
Proof.
  intros E1 E2. unfold note_illegal. rewrite E2.
  destruct (match st'.2 !! j with Some l => _ | None => _ end); cbn; [|done]. by rewrite !lookup_insert_eq.
Qed.

Lemma note_illegals_lookup i len idxs st j :
  let st' := foldl (fun s index => note_illegal i len index s) st idxs in
  let one := if bool_decide (j ∈ idxs) then note_illegal i len j st else st in
  st'.1 !! j = one.1 !! j ∧ st'.2 !! j = one.2 !! j.
Proof.
  cbn zeta. revert st. induction idxs as [|index idxs IH]; intros st; cbn [foldl]; [done|].
  destruct (IH (note_illegal i len index st)) as [-> ->]. destruct (decide (j = index)) as [->|Hne].
  - rewrite (bool_decide_eq_true_2 (index ∈ index :: idxs)) by set_solver.
    case_bool_decide; [by rewrite note_illegal_again|done].
  - destruct (note_illegal_other i len index j st Hne) as [E1 E2].
    destruct (decide (j ∈ idxs)).
    + rewrite !bool_decide_eq_true_2 by set_solver. by apply note_illegal_local.
    + by rewrite !bool_decide_eq_false_2 by set_solver.
Qed.

Lemma noted_illegal_step L st len idxs :
  noted_illegal L st →
  noted_illegal (L ++ [(len, list_to_set idxs)])
    (foldl (fun s index => note_illegal (zlen L) len index s) st idxs).
Proof.
  intros Hn index. destruct (note_illegals_lookup (zlen L) len idxs st index) as [-> ->]. specialize (Hn index).
  assert (∀ len' ill', (len', ill') ∈ L ++ [(len, list_to_set idxs : gset Z)] →
    (len', ill') ∈ L ∨ len' = len ∧ ill' = list_to_set idxs) as Happ
    by (intros len' ill' [?|[= <- <-]%list_elem_of_singleton]%elem_of_app; auto).
  case_bool_decide as Hin.
  - assert (index ∈ (list_to_set idxs : gset Z)) as Hs by (by apply elem_of_list_to_set).
    unfold note_illegal. destruct (st.2 !! index) as [l|] eqn:El, (st.1 !! index) as [i|] eqn:Ei; try done.
    + destruct Hn as (ill & Hi & Hlk & Hil & Hmax). case_bool_decide as Hlt; cbn.
      * rewrite !lookup_insert_eq. exists (list_to_set idxs). split; [len|].
        unfold zlen. rewrite Nat2Z.id. split; [by apply list_lookup_middle|]. split; [done|].
        intros len' ill' [Hx|[-> ->]]%Happ Hi'; [|lia]. specialize (Hmax _ _ Hx Hi'). lia.
      * rewrite Ei, El. exists ill. split; [done|]. split; [by apply lookup_app_l_Some|]. split; [done|].
        intros len' ill' [Hx|[-> ->]]%Happ Hi'; [by eapply Hmax|lia].
    + cbn. rewrite !lookup_insert_eq. exists (list_to_set idxs). split; [len|].
      unfold zlen. rewrite Nat2Z.id. split; [by apply list_lookup_middle|]. split; [done|].
      intros len' ill' [Hx|[-> ->]]%Happ Hi'; [|lia]. by destruct (Hn _ _ Hx).
  - assert (index ∉ (list_to_set idxs : gset Z)) as Hs by (by rewrite elem_of_list_to_set).
    destruct (st.2 !! index) as [l|], (st.1 !! index) as [i|]; try done.
    + destruct Hn as (ill & Hi & Hlk & Hil & Hmax). exists ill. split; [done|]. split; [by apply lookup_app_l_Some|].
      split; [done|]. intros len' ill' [Hx|[-> ->]]%Happ Hi'; [by eapply Hmax|done].
    + intros len' ill' [Hx|[-> ->]]%Happ; [by eapply Hn|done].
Qed.

(** A red point of partition [p] is attached to the layer of a linearization
    and carries the index of its last step. *)
Definition error_ok (p first : Z) (lins : list (list linearizationStep)) (e : errorPoint) : Prop :=
  ep_partition e = p ∧ (∃ a, ep_x e = Num a) ∧
  ∃ (k : nat) lin id, ep_lin e = first + Z.of_nat k ∧ lins !! k = Some lin ∧ last lin = Some id ∧ ep_index e = ls_Index id.

(** The linearizations with an illegal next event have red points. *)
Definition errors_shown (first : Z) (layers : list (list line * gset Z)) (eps : list errorPoint) : Prop :=
  ∀ (k : nat) d, layers !! k = Some d → d.2 ≠ ∅ ↔ ∃ e, e ∈ eps ∧ ep_lin e = first + Z.of_nat k.

Lemma draw_lins_spec hist p lins L st :
  Forall (laid_out hist) lins → noted_illegal L (cl_largestIllegal st, cl_largestIllegalLength st) →
  ∃ layers st' eps, draw_lins els xPos hist p (zlen L) lins st = Done (layers, st') ∧
    Forall2 (lin_picture hist) lins layers ∧ cl_errorPoints st' = cl_errorPoints st ++ eps ∧
    Forall (error_ok p (zlen L) lins) eps ∧ errors_shown (zlen L) layers eps ∧
    noted_illegal (L ++ zip (zlen <$> lins) (snd <$> layers)) (cl_largestIllegal st', cl_largestIllegalLength st').
Proof.
  intros Hlins. revert L st. induction Hlins as [|lin lins Hlin Hlins IH]; intros L st Hn; cbn [draw_lins].
  { exists [], st, []. rewrite !app_nil_r. split; [done|]. split; [constructor|]. split; [done|]. split; [constructor|].
    split; [|done]. intros k d Hk. done. }
  destruct (draw_lin_spec hist p (zlen L) lin st Hlin)
    as (ls & st1 & eps1 & id & idxs & -> & Hpic & Hid & He1 & Hf1 & Hne & Hil & Hla). go_simpl.
  assert (zlen L + 1 = zlen (L ++ [(zlen lin, cl_illegalLast st1)])) as -> by len.
  destruct (IH (L ++ [(zlen lin, cl_illegalLast st1)]) st1) as (layers & st2 & eps2 & -> & HF & He2 & Hf2 & Hs2 & Hn2).
  { rewrite Hla, Hil. by apply noted_illegal_step. }
  go_simpl. exists ((ls, cl_illegalLast st1) :: layers), st2, (eps1 ++ eps2).
  assert (zlen (L ++ [(zlen lin, cl_illegalLast st1)]) = zlen L + 1) as Hl1 by len. rewrite Hl1 in Hf2, Hs2.
  split; [done|]. split; [by constructor|]. split; [by rewrite He2, He1, app_assoc|]. split; [|split].
  - apply Forall_app. split.
    + eapply Forall_impl; [exact Hf1|]. intros e (? & ? & ? & ?). split; [done|]. split; [done|].
      exists 0%nat, lin, id. split; [lia|done].
    + eapply Forall_impl; [exact Hf2|]. intros e (? & ? & k & lin' & id' & ? & ? & ? & ?). split; [done|]. split; [done|].
      exists (S k), lin', id'. split; [lia|done].
  - rewrite Forall_forall in Hf1, Hf2. intros [|k] d Hd; cbn in Hd.
    + injection Hd as <-. cbn [snd]. assert (cl_illegalLast st1 ≠ ∅ ↔ eps1 ≠ []) as ->.
      { rewrite <- Hne, Hil. destruct idxs; cbn; [done|]. split; [done|]. intros _. set_solver. }
      split.
      * destruct eps1 as [|e eps1]; [done|]. intros _. exists e. split; [set_solver|].
        destruct (Hf1 e ltac:(set_solver)) as (_ & ? & _). lia.
      * intros (e & [He|He]%elem_of_app & El); [by intros ->; apply not_elem_of_nil in He|].
        destruct (Hf2 e He) as (_ & _ & k & _ & _ & ? & _). lia.
    + rewrite (Hs2 k d Hd). split; intros (e & He & El).
      * exists e. split; [set_solver|lia].
      * apply elem_of_app in He as [He|He]; [destruct (Hf1 e He) as (_ & ? & _); lia|]. exists e. split; [done|lia].
  - cbn [fmap list_fmap zip zip_with snd]. by rewrite <- app_assoc in Hn2.
Qed.

Record layer_ok (pt : part) (ly : layer) : Prop := {
  ly_drawn : Forall2 (lin_picture (pt_History pt)) (pt_PartialLinearizations pt) (ly_lins ly);
  ly_largest : ∃ lens, noted_illegal (zip (zlen <$> pt_PartialLinearizations pt) (snd <$> ly_lins ly))
    (ly_largestIllegal ly, lens);
}.

(** The red points: each belongs to a linearization of its partition. *)
Definition error_of (first : Z) (parts : list part) (e : errorPoint) : Prop :=
  ∃ (k : nat) pt, parts !! k = Some pt ∧ error_ok (first + Z.of_nat k) 0 (pt_PartialLinearizations pt) e.

Definition all_errors_shown (first : Z) (layers : list layer) (eps : list errorPoint) : Prop :=
  ∀ (k j : nat) ly d, layers !! k = Some ly → ly_lins ly !! j = Some d → d.2 ≠ ∅ ↔
    ∃ e, e ∈ eps ∧ ep_partition e = first + Z.of_nat k ∧ ep_lin e = Z.of_nat j.

Lemma draw_partials_spec first parts eps :
  Forall (fun pt => Forall (laid_out (pt_History pt)) (pt_PartialLinearizations pt)) parts →
  ∃ layers new, draw_partials els xPos first parts eps = Done (layers, eps ++ new) ∧
    Forall2 layer_ok parts layers ∧ Forall (error_of first parts) new ∧ all_errors_shown first layers new.
Proof.
  intros Hp. revert first eps. induction Hp as [|pt parts Hpt Hp IH]; intros first eps; cbn [draw_partials].
  { exists [], []. rewrite app_nil_r. split; [done|]. split; [constructor|]. split; [constructor|]. by intros k j ly d Hk. }
  destruct (draw_lins_spec (pt_History pt) first (pt_PartialLinearizations pt) [] (mkCollected eps ∅ ∅ ∅) Hpt)
    as (layers & st & new & Hrun & HF & He & Hf & Hs & Hn).
  { intros index. cbn. rewrite !lookup_empty. set_solver. }
  change (zlen (A:=Z * gset Z) []) with 0 in *. rewrite Hrun. go_simpl. cbn [cl_errorPoints app] in *. rewrite He.
  destruct (IH (first + 1) (eps ++ new)) as (rest & new2 & -> & HF2 & Hf2 & Hs2). go_simpl.
  exists (mkLayer layers (cl_largestIllegal st) :: rest), (new ++ new2). rewrite <- app_assoc. split; [done|].
  split; [constructor; [split; [done|eauto]|done]|]. split.
  - apply Forall_app. split.
    + eapply Forall_impl; [exact Hf|]. intros e Hok. exists 0%nat, pt. rewrite Z.add_0_r. done.
    + eapply Forall_impl; [exact Hf2|]. intros e (k & pt' & Hk & Hok). exists (S k), pt'. split; [done|].
      by replace (first + Z.of_nat (S k)) with (first + 1 + Z.of_nat k) by lia.
  - rewrite Forall_forall in Hf, Hf2. intros [|k] j ly d Hk Hj; cbn in Hk.
    + injection Hk as <-. rewrite (Hs j d Hj). split.
      * intros (e & Hin & ?). exists e. split; [set_solver|]. destruct (Hf e Hin) as (? & _). lia.
      * intros (e & [Hee|Hee]%elem_of_app & Ep & El); [by exists e|].
        destruct (Hf2 e Hee) as (k & _ & _ & ? & _). lia.
    + rewrite (Hs2 k j ly d Hk Hj). split; intros (e & Hee & Ep & El).
      * exists e. split; [set_solver|]. split; [lia|done].
      * apply elem_of_app in Hee as [Hee|Hee]; [destruct (Hf e Hee) as (? & _); lia|]. exists e. split; [done|]. split; [lia|done].
Qed.

Lemma draw_boxes_spec p i hist :
  (∀ g, g ∈ hist → is_Some (els !! g)) →
  ∃ l, draw_boxes els xPos p i hist = Done l ∧ length l = length hist ∧
    ∀ (k : nat) g b, hist !! k = Some g → l !! k = Some b → ∃ z, els !! g = Some z ∧ b = draw_box xPos p (i + Z.of_nat k) z.
Proof.
  revert i. induction hist as [|g hist IH]; intros i Hg; cbn [draw_boxes]; [by exists []|].
  destruct (Hg g ltac:(set_solver)) as [z Hz]. rewrite (idx_nat _ _ _ Hz). go_simpl.
  destruct (IH (i + 1)) as (l & -> & Hlen & Hl); [set_solver|]. go_simpl.
  eexists. split; [done|]. split; [cbn; lia|]. intros [|k] g' b Hg' Hb; cbn in Hg', Hb.
  - injection Hg' as <-. injection Hb as <-. exists z. rewrite Z.add_0_r. done.
  - destruct (Hl k g' b Hg' Hb) as (z' & ? & ->). exists z'. split; [done|].
    by replace (i + Z.of_nat (S k)) with (i + 1 + Z.of_nat k) by lia.
Qed.

Lemma draw_histories_spec p parts :
  (∀ pt g, pt ∈ parts → g ∈ pt_History pt → is_Some (els !! g)) →
  ∃ l, draw_histories els xPos p parts = Done l ∧
    Forall2 (fun pt boxes => length boxes = length (pt_History pt) ∧ ∀ (k : nat) g b,
      pt_History pt !! k = Some g → boxes !! k = Some b → ∃ z pi, els !! g = Some z ∧ b = draw_box xPos pi (Z.of_nat k) z) parts l.
Proof.
  revert p. induction parts as [|pt parts IH]; intros p Hg; cbn [draw_histories]; [by exists []|].
  destruct (draw_boxes_spec p 0 (pt_History pt)) as (l & -> & Hlen & Hl); [set_solver|]. go_simpl.
  destruct (IH (p + 1)) as (rest & -> & HF); [set_solver|]. go_simpl.
  eexists. split; [done|]. constructor; [|done]. split; [done|]. intros k g b Hk Hb.
  destruct (Hl k g b Hk Hb) as (z & ? & ->). exists z, p. done.
Qed.

End drawn.
