(* ===== verification/PagePicture.v ===== *)
(** * The picture is faithful ([labs/src/porcupine/visualization.go])

    On data that can be shown, [render] draws without throwing.  Boxes lie in
    the row of their client, inside the picture, have room for their text,
    and show the real-time order of the operations; points of partial
    linearizations, and the red ones that could not follow, lie in the boxes
    of their events. *)

From Stdlib Require Import QArith Qminmax Lqa.
From S2P Require Import Prelude Visualization Page PageLayout PageData PageCorrect PageDraw.
Local Open Scope Z_scope.

(** The greedy points are in the boxes whenever some points are. *)
Lemma fits_chain textWidth p sorted y pt lin :
  fits textWidth p sorted y → pt ∈ pdata p → lin ∈ pt_PartialLinearizations pt →
  let gids := glob (pt_History pt) lin in
  let c := chain y None (start_of (byGid p) <$> gids) in
  Forall2 (fun g q => q <= y (end_of (byGid p) g))%Q gids c ∧
  ∀ g q, next_event (byGid p) (pt_History pt) lin g → last c = Some q →
    (q + inject_Z EPSILON <= y (end_of (byGid p) g))%Q.
Proof.
  intros Hf Hpt Hlin gids c. destruct (ft_lins _ _ _ _ Hf pt lin Hpt Hlin) as (qs & Hqs & HF & Hn).
  assert (Forall2 Qle c qs) as Hle.
  { apply (chain_least y y None None); [|done|done]. intros. apply Qle_refl. }
  split.
  - apply Forall2_same_length_lookup_2; [unfold c; by rewrite chain_length, length_fmap|].
    intros k g q Hg Hq. destruct (Forall2_lookup_l _ _ _ _ _ Hle Hq) as (q' & Hq' & ?).
    pose proof (Forall2_lookup_lr _ _ _ _ _ _ HF Hg Hq') as Hb. cbn in Hb. lra.
  - intros g q Hg Hq. rewrite last_lookup in Hq. destruct (Forall2_lookup_l _ _ _ _ _ Hle Hq) as (q' & Hq' & ?).
    assert (last qs = Some q') as Hl by (by rewrite last_lookup, <- (Forall2_length _ _ _ Hle)).
    specialize (Hn g q' Hg Hl). lra.
Qed.

(** A box shows the operation [x], in a picture of width [w] and height [h]. *)
Record box_ok (textWidth : string → Q) (w h : num) (x : historyElement) (b : box) : Prop := {
  bo_row : rc_y (bx_rect b) = px (row (he_ClientId x));
  bo_text : tx_content (bx_text b) = he_Description x;
  bo_wide : nle (Num (textWidth (he_Description x) + inject_Z (2 * BOX_TEXT_PADDING))) (rc_width (bx_rect b));
  bo_left : nle (px (PADDING + XOFF)) (rc_x (bx_rect b));
  bo_right : nle (nadd (rc_x (bx_rect b)) (rc_width (bx_rect b))) (nsub w (px PADDING));
  bo_bottom : nle (nadd (rc_y (bx_rect b)) (rc_height (bx_rect b))) (nsub h (px PADDING));
  bo_target : bx_target b = bx_rect b;
}.

Definition box_end (b : box) : num := nadd (rc_x (bx_rect b)) (rc_width (bx_rect b)).

(** [b] is left of [b'], with a gap. *)
Definition left_of (b b' : box) : Prop := nle (nadd (box_end b) (px BOX_GAP)) (rc_x (bx_rect b')).

(** The box of operation [i] of partition [p]. *)
Definition box_at (pic : picture) (p i : nat) : option box := l ← pc_boxes pic !! p; l !! i.
Definition op_at (data : list partitionVisualizationData) (p i : nat) : option historyElement :=
  d ← data !! p; History d !! i.

Lemma maxClient_ge data : -1 ≤ maxClient data ∧ ∀ x, x ∈ elements_of data → he_ClientId x ≤ maxClient data.
Proof.
  unfold maxClient, elements_of.
  assert (∀ l c, c ≤ foldl (fun c x => c `max` he_ClientId x) c l ∧
    ∀ x, x ∈ l → he_ClientId x ≤ foldl (fun c x => c `max` he_ClientId x) c l) as Hin.
  { induction l as [|y l IH]; intros c; cbn; [set_solver by lia|]. destruct (IH (c `max` he_ClientId y)) as [H1 H2].
    split; [lia|]. intros x [->|?]%elem_of_cons; [lia|auto]. }
  generalize (-1). induction data as [|d data IH]; intros c; cbn; [split; [lia|set_solver]|].
  destruct (Hin (History d) c) as [H1 H2].
  destruct (IH (foldl (fun c x => c `max` he_ClientId x) c (History d))) as [H3 H4].
  split; [lia|]. intros x [Hx|Hx]%elem_of_app; [specialize (H2 x Hx); lia|auto].
Qed.

Section picture.
Context (sortTs : list Z → list Z) `{!GoSort ts_less sortTs}.
Context (sortEvents : list event → list event) `{!GoSort event_less sortEvents}.
Context (textWidth : string → Q) (show : Z → string) (sortPoints : list errorPoint → list errorPoint).
Context (data : list partitionVisualizationData).
Hypothesis Hdata : Forall showable data.

Let base := prepare data.
Let twk := tw sortTs base.

Context (sv : solved).
Hypothesis Hels : byGid (sv_page sv) = twk <$> byGid base.
Hypothesis Hparts : pdata (sv_page sv) = pdata base.
Hypothesis Hknown : ∀ t, t ∈ sv_sorted sv → known (sv_xPos sv) t.
Hypothesis Hin : ∀ gid y, byGid (sv_page sv) !! gid = Some y → el_Start y ∈ sv_sorted sv ∧ el_End y ∈ sv_sorted sv.
Hypothesis Hfits : fits textWidth (sv_page sv) (sv_sorted sv) (x_of (sv_xPos sv)).
Hypothesis Hso : StronglySorted Z.lt (sv_sorted sv).

Let els := byGid (sv_page sv).
Let X := sv_xPos sv.
Let x := x_of X.

Lemma x_mono t t' : t ∈ sv_sorted sv → t' ∈ sv_sorted sv → t ≤ t' → (x t <= x t')%Q.
Proof.
  intros Ht Ht' Hle. destruct (decide (t = t')) as [->|Hne]; [apply Qle_refl|].
  pose proof (ft_gap _ _ _ _ Hfits t t' Ht Ht' ltac:(lia)). unfold x.
  assert (0 <= inject_Z BOX_GAP)%Q by (by compute). unfold X. lra.
Qed.

Lemma els_of gid z : els !! gid = Some z → ∃ y, byGid base !! gid = Some y ∧ z = twk y ∧ el_Start z < el_End z.
Proof.
  unfold els. rewrite Hels, list_lookup_fmap. intros (y & Hy & ->)%fmap_Some. exists y. split; [done|]. split; [done|].
  pose proof (base_timely data Hdata y ltac:(eauto with go_lists)).
  eapply (tw_after sortTs data base (prepare_ok data)); eauto with go_lists; [by apply base_timely|]. lia.
Qed.

(** The events of a partition. *)
Lemma part_hist pt : pt ∈ pdata (sv_page sv) → ∃ d, d ∈ data ∧ part_of (byGid base) d pt.
Proof.
  rewrite Hparts. intros [i Hi]%list_elem_of_lookup.
  destruct (Forall2_lookup_r _ _ _ _ _ (pr_parts _ _ (prepare_ok data)) Hi) as (d & Hd & ?). eauto with go_lists.
Qed.

Lemma hist_event pt g :
  pt ∈ pdata (sv_page sv) → g ∈ pt_History pt →
  ∃ z, els !! g = Some z ∧ known X (el_Start z) ∧ known X (el_End z) ∧ (x (el_Start z) <= x (el_End z))%Q.
Proof.
  intros (d & Hd & [HF _ _])%part_hist [i Hi]%list_elem_of_lookup.
  destruct (Forall2_lookup_r _ _ _ _ _ HF Hi) as (y & _ & Hy).
  assert (els !! g = Some (twk (raw_el y))) as Hz by (unfold els; by rewrite Hels, list_lookup_fmap, Hy).
  destruct (Hin _ _ Hz) as [H1 H2]. destruct (els_of _ _ Hz) as (_ & _ & _ & Hlt).
  exists (twk (raw_el y)). split; [done|]. split; [by apply Hknown|]. split; [by apply Hknown|].
  apply x_mono; [done..|lia].
Qed.

Lemma all_laid_out :
  Forall (fun pt => Forall (laid_out els X (pt_History pt)) (pt_PartialLinearizations pt)) (pdata (sv_page sv)).
Proof.
  apply Forall_forall. intros pt Hpt. apply Forall_forall. intros lin Hlin.
  destruct (part_hist pt Hpt) as (d & Hd & [HF Hl _]). pose proof (proj1 (Forall_forall _ _) Hdata d Hd) as Hsd.
  rewrite Hl in Hlin. pose proof (sh_range _ Hsd lin) as Hr.
  assert (∀ id, id ∈ lin → 0 ≤ ls_Index id < zlen (pt_History pt)) as Hrange.
  { intros id Hid. specialize (Hr id Hlin Hid). unfold zlen in *. by rewrite <- (Forall2_length _ _ _ HF). }
  rewrite <- Hl in Hlin. destruct (fits_chain _ _ _ _ pt lin Hfits Hpt Hlin) as [H1 H2].
  split; [by apply (sh_nonempty _ Hsd); rewrite <- Hl|by apply glob_spec|intros id Hid; by apply Hrange| |done|done].
  intros g Hg. by apply (hist_event pt).
Qed.

Lemma box_of_op p i y b pic :
  draw show sortPoints data sv = Done pic → op_at data p i = Some y → box_at pic p i = Some b →
  ∃ pi g, byGid base !! g = Some (raw_el y) ∧ els !! g = Some (twk (raw_el y)) ∧ b = draw_box X pi (Z.of_nat i) (twk (raw_el y)).
Proof.
  intros Hrun Hop Hbox. unfold draw in Hrun. fold els X in Hrun.
  destruct (draw_histories_spec els X 0 (pdata (sv_page sv))) as (boxes & Hb & HF).
  { intros pt g Hpt Hg. destruct (hist_event pt g Hpt Hg) as (z & ? & _). eauto. }
  rewrite Hb in Hrun. go_simpl in Hrun. go_inv Hrun. destruct a as [layers eps]. injection Hrun as <-.
  unfold box_at, op_at in *. cbn [pc_boxes] in Hbox.
  destruct (data !! p) as [d|] eqn:Hd; [|done]. destruct (boxes !! p) as [l|] eqn:Hl; [|done]. cbn in Hop, Hbox.
  destruct (Forall2_lookup_r _ _ _ _ _ HF Hl) as (pt & Hpt & Hlen & Hboxes). rewrite Hparts in Hpt.
  pose proof (Forall2_lookup_lr _ _ _ _ _ _ (pr_parts _ _ (prepare_ok data)) Hd Hpt) as [HFh _ _].
  destruct (Forall2_lookup_l _ _ _ _ _ HFh Hop) as (g & Hg & Hy).
  destruct (Hboxes i g b Hg Hbox) as (z & pi & Hz & ->).
  fold base in Hy. assert (els !! g = Some (twk (raw_el y))) as Hz' by (unfold els; by rewrite Hels, list_lookup_fmap, Hy).
  exists pi, g. split; [done|]. split; [done|]. congruence.
Qed.

(** Where a box is. *)
Lemma box_geometry g z pi i :
  els !! g = Some z →
  ∃ a w, rc_x (bx_rect (draw_box X pi i z)) = Num a ∧ rc_width (bx_rect (draw_box X pi i z)) = Num w ∧
    (a == x (el_Start z) + inject_Z (PADDING + XOFF))%Q ∧ (w == x (el_End z) - x (el_Start z))%Q.
Proof.
  intros Hz. destruct (Hin _ _ Hz) as [H1 H2]. cbn [draw_box bx_rect rc_x rc_width].
  rewrite (known_xpos X _ (Hknown _ H1)), (known_xpos X _ (Hknown _ H2)). fold x.
  eexists _, _. split; [done|]. split; [done|]. split; [|lra].
  assert (inject_Z (PADDING + XOFF) == inject_Z XOFF + inject_Z PADDING)%Q by (by compute). lra.
Qed.

Lemma last_is_max t : t ∈ sv_sorted sv → ∃ u, last (sv_sorted sv) = Some u ∧ u ∈ sv_sorted sv ∧ t ≤ u.
Proof.
  destruct (sv_sorted sv) as [|t0 l0] using rev_ind; [set_solver|]. intros Ht. exists t0.
  rewrite last_snoc. split; [done|]. split; [set_solver|].
  apply elem_of_app in Ht as [Ht| ->%list_elem_of_singleton]; [|lia].
  apply StronglySorted_app in Hso as (Hlt & _). apply Z.lt_le_incl, Hlt; [done|set_solver].
Qed.

Lemma drawn_box_ok p i y b pic :
  draw show sortPoints data sv = Done pic → op_at data p i = Some y → box_at pic p i = Some b →
  box_ok textWidth (pc_width pic) (pc_height pic) y b.
Proof.
  intros Hrun Hop Hbox. destruct (box_of_op p i y b pic Hrun Hop Hbox) as (pi & g & Hraw & Hz & ->).
  destruct (box_geometry g _ pi (Z.of_nat i) Hz) as (a & w & Ha & Hw & Ea & Ew).
  set (z := twk (raw_el y)) in *. destruct (Hin _ _ Hz) as [H1 H2].
  destruct (tw_static sortTs base (raw_el y)) as (Es & Ec & Ed & Eo). fold twk z in Es, Ec, Ed, Eo.
  destruct (last_is_max _ H2) as (u & Hu & Huin & Hle).
  assert (pc_width pic = Num (inject_Z (2 * PADDING + XOFF) + x u) ∧ pc_height pic = svg_height (nClient data)) as [Ew' Eh].
  { unfold draw in Hrun. go_inv Hrun. go_inv Hrun. destruct a1. injection Hrun as <-. cbn [pc_width pc_height]. split; [|done].
    unfold svg_width, last_x. rewrite Hu, (known_xpos _ _ (Hknown _ Huin)). done. }
  pose proof (x_mono _ _ H2 Huin Hle) as Hxu. pose proof (ft_pos _ _ _ _ Hfits _ H1) as Hpos. fold X x in Hpos.
  assert (z ∈ byGid (sv_page sv)) as Hzin by (eapply list_elem_of_lookup_2; exact Hz).
  pose proof (ft_text _ _ _ _ Hfits z Hzin) as Htext. fold X x in Htext. rewrite Ed in Htext. cbn [raw_el el_Description] in Htext.
  assert (he_ClientId y ≤ maxClient data) as Hcl.
  { apply maxClient_ge. unfold op_at in Hop. destruct (data !! p) as [d|] eqn:Hd; [|done]. cbn in Hop.
    unfold elements_of. apply elem_of_concat. exists (History d). split; [eauto with go_lists|].
    apply list_elem_of_fmap_2. eauto with go_lists. }
  split; rewrite ?Ew', ?Eh, ?Ha, ?Hw.
  - cbn. by rewrite Ec.
  - cbn. by rewrite Ed.
  - cbn. lra.
  - cbn. lra.
  - cbn. assert (inject_Z (2 * PADDING + XOFF) == inject_Z (PADDING + XOFF) + inject_Z PADDING)%Q by (by compute). lra.
  - cbn [draw_box bx_rect rc_y rc_height nadd nsub lift2 px svg_height nle]. unfold Qminus.
    rewrite <- inject_Z_opp, <- !inject_Z_plus, <- Zle_Qle, Ec. unfold row, nClient, PADDING, BOX_HEIGHT, BOX_SPACE. cbn. lia.
  - done.
Qed.

(** Boxes show the real-time order. *)
Lemma drawn_order p i y b p' i' y' b' pic :
  draw show sortPoints data sv = Done pic →
  op_at data p i = Some y → box_at pic p i = Some b → op_at data p' i' = Some y' → box_at pic p' i' = Some b' →
  left_of b b' ↔ he_End y < he_Start y'.
Proof.
  intros Hrun Hy Hb Hy' Hb'. destruct (box_of_op p i y b pic Hrun Hy Hb) as (pi & g & Hraw & Hz & ->).
  destruct (box_of_op p' i' y' b' pic Hrun Hy' Hb') as (pi' & g' & Hraw' & Hz' & ->).
  destruct (box_geometry g _ pi (Z.of_nat i) Hz) as (a & w & Ha & Hw & Ea & Ew).
  destruct (box_geometry g' _ pi' (Z.of_nat i') Hz') as (a' & w' & Ha' & Hw' & Ea' & Ew').
  unfold left_of, box_end. rewrite Ha, Hw, Ha'. cbn [nadd lift2 px nle].
  destruct (Hin _ _ Hz) as [_ H2], (Hin _ _ Hz') as [H1' _].
  destruct (tw_static sortTs base (raw_el y')) as (Es' & _). fold twk in Es'.
  assert (raw_el y ∈ byGid base) as Hr by eauto with go_lists. assert (raw_el y' ∈ byGid base) as Hr' by eauto with go_lists.
  split.
  - intros Hle. apply Z.lt_nge. intros Hge.
    pose proof (tw_after sortTs data base (prepare_ok data) (raw_el y') (raw_el y) Hr' Hr (base_timely data Hdata) ltac:(cbn; lia)) as Hlt.
    fold twk in Hlt. pose proof (ft_gap _ _ _ _ Hfits _ _ H1' H2 Hlt) as Hg. fold X x in Hg.
    assert (0 < inject_Z BOX_GAP)%Q by (by compute). lra.
  - intros Hlt. assert (el_End (twk (raw_el y)) < el_Start (twk (raw_el y'))) as Hlt'.
    { rewrite Es'. destruct (tw_end sortTs data base (prepare_ok data) (raw_el y) Hr) as [[E _]|(_ & c & _ & Hc & Hmin)].
      - fold twk in E. rewrite E. cbn. lia.
      - fold twk in Hc. specialize (Hmin (el_Start (raw_el y'))). cbn in *.
        assert (c ≤ 2 * he_Start y'); [|lia]. apply Hmin; [|lia]. apply (pr_all _ _ (prepare_ok data)).
        exists (raw_el y'). auto. }
    pose proof (ft_gap _ _ _ _ Hfits _ _ H2 H1' Hlt') as Hg. fold X x in Hg. lra.
Qed.

(** ** The whole picture *)

Lemma draw_total :
  ∃ pic, draw show sortPoints data sv = Done pic ∧
    Forall2 (layer_ok els X) (pdata (sv_page sv)) (pc_layers pic) ∧
    (∃ eps, pc_errorPoints pic = sortPoints eps ∧ Forall (error_of 0 (pdata (sv_page sv))) eps ∧
      all_errors_shown 0 (pc_layers pic) eps) ∧
    (∀ p i y, op_at data p i = Some y → is_Some (box_at pic p i)).
Proof.
  unfold draw. fold els X.
  destruct (draw_histories_spec els X 0 (pdata (sv_page sv))) as (boxes & -> & HF).
  { intros pt g Hpt Hg. destruct (hist_event pt g Hpt Hg) as (z & ? & _). eauto. }
  go_simpl. destruct (draw_partials_spec els X 0 (pdata (sv_page sv)) [] all_laid_out) as (layers & eps & -> & HL & He & Hs).
  go_simpl. cbn [app]. eexists. split; [done|]. cbn [pc_layers pc_errorPoints pc_boxes]. split; [done|]. split; [by exists eps|].
  intros p i y Hop. unfold op_at, box_at in *. cbn [pc_boxes]. destruct (data !! p) as [d|] eqn:Hd; [|done]. cbn in Hop.
  destruct (Forall2_lookup_l _ _ _ _ _ (pr_parts _ _ (prepare_ok data)) Hd) as (pt & Hpt & [HFh _ _]).
  fold base in Hpt. rewrite <- Hparts in Hpt. destruct (Forall2_lookup_l _ _ _ _ _ HF Hpt) as (l & -> & Hlen & _). cbn.
  apply lookup_lt_is_Some_2. rewrite Hlen, <- (Forall2_length _ _ _ HFh). eauto with go_lists.
Qed.

(** The points of a linearization, by the boxes they go through. *)
Lemma drawn_points p d l lin pic :
  draw show sortPoints data sv = Done pic → data !! p = Some d → PartialLinearizations d !! l = Some lin →
  ∃ ly dl, pc_layers pic !! p = Some ly ∧ ly_lins ly !! l = Some dl ∧
    length (points_of_class valid_point dl.1) = length lin ∧
    (∀ (k : nat) id ln, lin !! k = Some id → points_of_class valid_point dl.1 !! k = Some ln →
      ∃ b, box_at pic p (Z.to_nat (ls_Index id)) = Some b ∧ spans (bx_rect b) ln) ∧
    (∀ k ln ln', points_of_class valid_point dl.1 !! k = Some ln → points_of_class valid_point dl.1 !! S k = Some ln' →
      nle (nadd (ln_x1 ln) (px EPSILON)) (ln_x1 ln')) ∧
    (∀ ln, ln ∈ points_of_class invalid_point dl.1 →
      ∃ i b, Z.of_nat i ∉ ls_Index <$> lin ∧ box_at pic p i = Some b ∧ spans (bx_rect b) ln).
Proof.
  intros Hrun Hd Hlin. destruct draw_total as (pic' & Hrun' & HL & _ & Hbox). assert (pic' = pic) as -> by congruence.
  destruct (Forall2_lookup_l _ _ _ _ _ (pr_parts _ _ (prepare_ok data)) Hd) as (pt & Hpt & [HFh Hl _]).
  fold base in Hpt. rewrite <- Hparts in Hpt. destruct (Forall2_lookup_l _ _ _ _ _ HL Hpt) as (ly & Hly & [Hdr _]).
  rewrite Hl in Hdr. destruct (Forall2_lookup_l _ _ _ _ _ Hdr Hlin) as (dl & Hdl & [Hp Ha He _]).
  assert (∀ i g ln, pt_History pt !! i = Some g → spans (rect_of els X g) ln →
    ∃ b, box_at pic p i = Some b ∧ spans (bx_rect b) ln) as Hrect.
  { intros i g ln Hg Hsp. destruct (Forall2_lookup_r _ _ _ _ _ HFh Hg) as (y & Hy & Hraw).
    assert (op_at data p i = Some y) as Hop by (unfold op_at; rewrite Hd; done).
    destruct (Hbox p i y Hop) as [b Hb]. exists b. split; [done|].
    destruct (box_of_op p i y b pic Hrun Hop Hb) as (pi & g' & _ & _ & ->). fold base in Hraw.
    assert (els !! g = Some (twk (raw_el y))) as Hz by (unfold els; by rewrite Hels, list_lookup_fmap, Hraw).
    unfold rect_of in Hsp. by rewrite Hz in Hsp. }
  pose proof all_laid_out as Hlo. rewrite Forall_forall in Hlo. specialize (Hlo pt ltac:(eauto with go_lists)).
  rewrite Forall_forall, Hl in Hlo. destruct (Hlo lin ltac:(eauto with go_lists)) as [_ Hgids _ _ _ _].
  exists ly, dl. split; [done|]. split; [done|].
  split; [by rewrite <- (Forall2_length _ _ _ Hp), <- (Forall2_length _ _ _ Hgids)|]. split; [|split; [done|]].
  - intros k id ln Hk Hln. destruct (Forall2_lookup_l _ _ _ _ _ Hgids Hk) as (g & Hg & Hhg).
    apply (Hrect _ g); [done|]. apply (Forall2_lookup_lr _ _ _ _ _ _ Hp Hg Hln).
  - intros ln Hln. destruct He as (gs & HF & Hgs). apply list_elem_of_lookup in Hln as [j Hj].
    destruct (Forall2_lookup_r _ _ _ _ _ HF Hj) as (g & Hg & Hsp).
    destruct (proj1 (Hgs g) ltac:(eauto with go_lists)) as (i & z & [Hi Hni] & _).
    destruct (Hrect i g ln Hi Hsp) as (b & ? & ?). eauto 10.
Qed.

End picture.

(** The facts about [solve] that drawing needs. *)
Lemma solve_sorted sortTs `{!GoSort ts_less sortTs} sortEvents textWidth data sv :
  solve sortTs sortEvents textWidth data = Done sv → StronglySorted Z.lt (sv_sorted sv).
Proof.
  unfold solve. destruct (tweak sortTs (prepare data)) as [p sorted] eqn:Et. intros Hrun.
  go_inv Hrun. go_inv Hrun. go_inv Hrun. destruct a1. injection Hrun as <-. cbn.
  unfold tweak in Et. destruct (tweak_loop _ _ _ _) as [els all]. injection Et as _ <-. apply sorted_set, _.
Qed.

(** C16: on data that can be shown, [render] draws its picture without
    throwing.  Every operation has a box in the row of its client, inside the
    picture and wide enough for its text; a box is left of another exactly
    when the one operation returned before the other was called.  Every step
    of a partial linearization has a point in the box of its operation, some
    way after the point before; every red point is in the box of an operation
    that the linearization leaves out. *)
Theorem picture_faithful sortTs sortEvents textWidth show sortPoints data :
  GoSort ts_less sortTs → GoSort event_less sortEvents → Forall showable data →
  ∃ sv pic, solve sortTs sortEvents textWidth data = Done sv ∧ draw show sortPoints data sv = Done pic ∧
    (∀ p i y, op_at data p i = Some y →
      ∃ b, box_at pic p i = Some b ∧ box_ok textWidth (pc_width pic) (pc_height pic) y b) ∧
    (∀ p i y b p' i' y' b', op_at data p i = Some y → box_at pic p i = Some b →
      op_at data p' i' = Some y' → box_at pic p' i' = Some b' → left_of b b' ↔ he_End y < he_Start y') ∧
    (∀ p d l lin, data !! p = Some d → PartialLinearizations d !! l = Some lin →
      ∃ ly dl, pc_layers pic !! p = Some ly ∧ ly_lins ly !! l = Some dl ∧
        length (points_of_class valid_point dl.1) = length lin ∧
        (∀ (k : nat) id ln, lin !! k = Some id → points_of_class valid_point dl.1 !! k = Some ln →
          ∃ b, box_at pic p (Z.to_nat (ls_Index id)) = Some b ∧ spans (bx_rect b) ln) ∧
        (∀ k ln ln', points_of_class valid_point dl.1 !! k = Some ln → points_of_class valid_point dl.1 !! S k = Some ln' →
          nle (nadd (ln_x1 ln) (px EPSILON)) (ln_x1 ln')) ∧
        (∀ ln, ln ∈ points_of_class invalid_point dl.1 →
          ∃ i b, Z.of_nat i ∉ ls_Index <$> lin ∧ box_at pic p i = Some b ∧ spans (bx_rect b) ln)).
Proof.
  intros Hs1 Hs2 Hd.
  destruct (solve_spec sortTs sortEvents textWidth data Hd)
    as (sv & tb & Hrun & _ & Hels & Hparts & _ & Hk & Hin & _ & Hf & _).
  pose proof (solve_sorted _ _ _ _ _ Hrun) as Hso. rewrite <- Hels in Hin.
  destruct (draw_total sortTs textWidth show sortPoints data Hd sv Hels Hparts Hk Hin Hf) as (pic & Hpic & _ & _ & Hbox).
  exists sv, pic. split; [done|]. split; [done|]. split; [|split].
  - intros p i y Hop. destruct (Hbox p i y Hop) as [b Hb]. exists b. split; [done|]. by eapply drawn_box_ok.
  - intros. by eapply (drawn_order sortTs textWidth show sortPoints data Hd sv Hels Hparts Hk Hin Hf).
  - intros. by eapply (drawn_points sortTs textWidth show sortPoints data Hd sv Hels Hparts Hk Hin Hf).
Qed.
