(* ===== verification/PageUi.v ===== *)
(** * The page: user interface ([labs/src/porcupine/visualization.go])

    The event handlers at the end of [render]: hovering over a box shows the
    longest partial linearization through it and a tooltip, a click selects a
    box, and a link leads to the first error.  The state is what the handlers
    share: the variables [selected], [selectedIndex] and [lastTooltip], the
    classes [hidden] and [selected] of the drawn layers and boxes, the
    tooltip, and the link. *)

From Stdlib Require Import QArith.
From S2P Require Import Prelude Visualization Page PageDraw.
Local Open Scope Z_scope.

Record tipKey := mkTipKey {
  tk_partition : Z; tk_index : Z; tk_selected : bool; tk_sPartition : Z; tk_sIndex : Z }.

#[export] Instance tipKey_eq : EqDecision tipKey.
Proof. solve_decision. Defined.

Record ui := mkUi {
  selected : bool;
  selectedIndex : Z * Z;
  histHidden : list bool;          (** class [hidden] of [historyLayers] *)
  linHidden : list (list bool);    (** class [hidden] of [partialLayers] *)
  rectSelected : list (list bool); (** class [selected] of [historyRects] *)
  tipShown : bool;                 (** [tooltip.style.opacity] *)
  tipHtml : string;
  tipPlace : Z * Z;
  lastTooltip : option tipKey;     (** [None] for [[null, null, ...]] *)
  jumpActive : bool;               (** the link lacks the class [inactive] *)
  jumpPoint : option errorPoint;   (** what [jump.onclick] refers to *)
}.

(** What the user does; a box is given by its partition and index. *)
Inductive action :=
| MouseOver (partition index : Z)
| MouseMove (partition index pageX pageY : Z)
| MouseOut
| Click (partition index : Z)
| BgClick
| JumpClick.

(** A class on every element of a list: element [i] has it when [f i]. *)
Definition flags {A} (f : nat → bool) (l : list A) : list bool := imap (fun i _ => f i) l.

Section handlers.
Context (page : prepared) (pic : picture) (showTime : Z → string).
Implicit Types (s : ui).

(** ** The state after drawing *)

Definition drawn_ui : ui :=
  mkUi false (-1, -1) (flags (fun _ => false) (pdata page))
    ((fun ly => flags (fun _ => false) (ly_lins ly)) <$> pc_layers pic)
    ((fun l : list box => flags (fun _ => false) l) <$> pc_boxes pic) false "" (0, 0) None true None.

(** ** Layers *)

Definition linearizationIndex (partition index : Z) : go (option Z) :=
  d ← idx (pdata page) partition;
  match pt_Largest d !! index with
  | Some i => Done (Some i)
  | None =>
      ly ← idx (pc_layers pic) partition;
      Done (ly_largestIllegal ly !! index)
  end.

Definition set_layers s hist lins : ui :=
  mkUi (selected s) (selectedIndex s) hist lins (rectSelected s) (tipShown s) (tipHtml s) (tipPlace s)
    (lastTooltip s) (jumpActive s) (jumpPoint s).

(** [pt.element.parentElement.classList.contains('hidden')] *)
Definition point_hidden (lins : list (list bool)) (pt : errorPoint) : go bool :=
  l ← idx lins (ep_partition pt); idx l (ep_lin pt).

Fixpoint find_visible (lins : list (list bool)) (pts : list errorPoint) : go (option errorPoint) :=
  match pts with
  | [] => Done None
  | pt :: pts =>
      hidden ← point_hidden lins pt;
      if hidden : bool then find_visible lins pts else Done (Some pt)
  end.

Definition updateJump s : go ui :=
  point ← find_visible (linHidden s) (pc_errorPoints pic);
  Done (mkUi (selected s) (selectedIndex s) (histHidden s) (linHidden s) (rectSelected s) (tipShown s) (tipHtml s)
    (tipPlace s) (lastTooltip s) (bool_decide (is_Some point))
    (match point with Some pt => Some pt | None => jumpPoint s end)).

Definition highlight s (partition index : Z) : go ui :=
  let hist := flags (fun i => bool_decide (Z.of_nat i ≠ partition)) (histHidden s) in
  let lins := (fun l : list bool => flags (fun _ => true) l) <$> linHidden s in
  maxIndex ← linearizationIndex partition index;
  lins ← match maxIndex with
         | Some i => l ← idx lins partition; l ← upd l i false; upd lins partition l
         | None => Done lins
         end;
  updateJump (set_layers s hist lins).

Definition resetHighlight s : go ui :=
  updateJump (set_layers s (flags (fun _ => false) (histHidden s))
    ((fun l : list bool => flags (fun i => bool_decide (i ≠ 0%nat)) l) <$> linHidden s)).

(** ** Selection *)

Definition mark s (partition index : Z) (b : bool) : go ui :=
  l ← idx (rectSelected s) partition;
  l ← upd l index b;
  rects ← upd (rectSelected s) partition l;
  Done (mkUi (selected s) (selectedIndex s) (histHidden s) (linHidden s) rects (tipShown s) (tipHtml s) (tipPlace s)
    (lastTooltip s) (jumpActive s) (jumpPoint s)).

Definition set_selected s (b : bool) (i : Z * Z) : ui :=
  mkUi b i (histHidden s) (linHidden s) (rectSelected s) (tipShown s) (tipHtml s) (tipPlace s) (lastTooltip s)
    (jumpActive s) (jumpPoint s).

Definition select s (partition index : Z) : go ui :=
  s ← highlight (set_selected s true (partition, index)) partition index;
  mark s partition index true.

Definition deselect s : go ui :=
  if negb (selected s) then Done s
  else
    s ← resetHighlight (set_selected s false (selectedIndex s));
    mark s (selectedIndex s).1 (selectedIndex s).2 false.

(** ** Handlers *)

Definition set_tip s (shown : bool) (html : string) (place : Z * Z) (last : option tipKey) : ui :=
  mkUi (selected s) (selectedIndex s) (histHidden s) (linHidden s) (rectSelected s) shown html place last
    (jumpActive s) (jumpPoint s).

Definition handleMouseOver s (partition index : Z) : go ui :=
  s ← (if negb (selected s) then highlight s partition index else Done s);
  Done (set_tip s true (tipHtml s) (tipPlace s) (lastTooltip s)).

Definition handleMouseOut s : go ui :=
  s ← (if negb (selected s) then resetHighlight s else Done s);
  Done (set_tip s false (tipHtml s) (tipPlace s) None).

(** The loop over [lin]: the step of [index] and the one before it. *)
Fixpoint find_step (lin : list linearizationStep) (index : Z) (curr : option linearizationStep)
    : option (option linearizationStep * linearizationStep) :=
  match lin with
  | [] => None
  | id :: lin => if bool_decide (ls_Index id = index) then Some (curr, id) else find_step lin index (Some id)
  end.

Definition call_return (x : el) : string :=
  "<br><br>Call: " +:+ showTime (el_Start x) +:+ "<br><br>Return: " +:+ showTime (el_OriginalEnd x).

(** The text of the tooltip of the box at [partition], [index]. *)
Definition tip_text (k : tipKey) : go string :=
  let partition := tk_partition k in
  let index := tk_index k in
  maxIndex ← (if negb (tk_selected k) then linearizationIndex partition index
              else linearizationIndex (tk_sPartition k) (tk_sIndex k));
  if tk_selected k && bool_decide (tk_sPartition k ≠ partition)
  then Done "Not part of selected partition."
  else
    match maxIndex with
    | None =>
        if negb (tk_selected k) then Done "Not part of any partial linearization."
        else Done "Selected element is not part of any partial linearization."
    | Some maxIndex =>
        d ← idx (pdata page) partition;
        lin ← idx (pt_PartialLinearizations d) maxIndex;
        gid ← idx (pt_History d) index;
        x ← idx (byGid page) (Z.of_nat gid);
        match find_step lin index None with
        | Some (prev, curr) =>
            Done (match prev with
                  | Some prev => "<strong>Previous state:</strong><br>" +:+ ls_StateDescription prev +:+ "<br><br>"
                  | None => ""
                  end +:+ "<strong>New state:</strong><br>" +:+ ls_StateDescription curr +:+ call_return x)
        | None =>
            ly ← idx (pc_layers pic) partition;
            dl ← idx (ly_lins ly) maxIndex;
            if bool_decide (index ∈ dl.2) then
              match last lin with
              | Some prev =>
                  Done ("<strong>Previous state:</strong><br>" +:+ ls_StateDescription prev +:+
                        "<br><br><strong>New state:</strong><br>&langle;invalid op&rangle;" +:+ call_return x)
              | None => Panic
              end
            else Done "Not part of selected element's partial linearization."
        end
    end.

Definition tip_key s (partition index : Z) : tipKey :=
  mkTipKey partition index (selected s) (selectedIndex s).1 (selectedIndex s).2.

Definition handleMouseMove s (partition index pageX pageY : Z) : go ui :=
  let this := tip_key s partition index in
  s ← (if bool_decide (lastTooltip s ≠ Some this) then
         html ← tip_text this;
         Done (set_tip s (tipShown s) html (tipPlace s) (Some this))
       else Done s);
  Done (set_tip s (tipShown s) (tipHtml s) (pageX + 20, pageY + 20) (lastTooltip s)).

Definition handleClick s (partition index : Z) : go ui :=
  if selected s then
    let '(sPartition, sIndex) := selectedIndex s in
    if bool_decide (partition = sPartition ∧ index = sIndex) then deselect s
    else
      s ← mark s sPartition sIndex false;
      select s partition index
  else select s partition index.

Definition handleBgClick s : go ui := deselect s.

(** [jump.onclick]; an inactive link is not displayed and cannot be clicked. *)
Definition jump_onclick s : go ui :=
  if negb (jumpActive s) then Stuck
  else
    match jumpPoint s with
    | Some pt => if negb (selected s) then select s (ep_partition pt) (ep_index pt) else Done s
    | None => Done s
    end.

Definition init_ui : go ui := handleMouseOut drawn_ui.

Definition act s (a : action) : go ui :=
  match a with
  | MouseOver p i => handleMouseOver s p i
  | MouseMove p i x y => handleMouseMove s p i x y
  | MouseOut => handleMouseOut s
  | Click p i => handleClick s p i
  | BgClick => handleBgClick s
  | JumpClick => jump_onclick s
  end.

End handlers.
