(* ===== verification/PageUiCorrect.v ===== *)
(** * The user interface displays what is selected ([labs/src/porcupine/visualization.go])

    The handlers implement a small machine: what is in view is the selected
    box, else the box the mouse is over, else everything.  Layers, marks and
    the link to the first error are functions of that, and the tooltip is
    never stale. *)

From Stdlib Require Import QArith.
From S2P Require Import Prelude Visualization Page PageDraw PageUi.
Local Open Scope Z_scope.

(** ** Classes *)

Lemma flags_length {A} f (l : list A) : length (flags f l) = length l.
Proof. unfold flags. by rewrite length_imap. Qed.

Lemma flags_lookup {A} f (l : list A) i : flags f l !! i = (fun _ => f i) <$> l !! i.
Proof. unfold flags. by rewrite list_lookup_imap. Qed.

Lemma flags_flags {A} f g (l : list A) : flags f (flags g l) = flags f l.
Proof. apply list_eq. intros i. rewrite !flags_lookup. by destruct (l !! i). Qed.

Lemma flags_ext {A} f g (l : list A) : (∀ i, (i < length l)%nat → f i = g i) → flags f l = flags g l.
Proof.
  intros Hfg. apply list_eq. intros i. rewrite !flags_lookup. destruct (l !! i) eqn:E; [|done].
  cbn. by rewrite Hfg by eauto with go_lists.
Qed.

Lemma flags_upd {A} f (l : list A) (i : nat) b :
  (i < length l)%nat → upd (flags f l) (Z.of_nat i) b = Done (flags (fun j => if bool_decide (j = i) then b else f j) l).
Proof.
  intros Hi. rewrite upd_in_range by (unfold zlen; rewrite flags_length; lia). f_equal. apply list_eq. intros j.
  rewrite Nat2Z.id, list_lookup_insert, !flags_lookup, flags_length. case_decide as Hj.
  - destruct Hj as [<- _]. rewrite bool_decide_eq_true_2 by done. destruct (lookup_lt_is_Some_2 _ _ Hi) as [x ->]. done.
  - destruct (l !! j) as [x|] eqn:E; [|done]. cbn. rewrite bool_decide_eq_false_2; [done|].
    intros ->. by apply Hj.
Qed.

(** The same for the elements of several lists. *)
Definition flags2 {A} (f : nat → nat → bool) (ll : list (list A)) : list (list bool) := imap (fun p l => flags (f p) l) ll.

Lemma flags2_lookup {A} f (ll : list (list A)) p : flags2 f ll !! p = flags (f p) <$> ll !! p.
Proof. unfold flags2. by rewrite list_lookup_imap. Qed.

Lemma flags2_const {A} f g (ll : list (list A)) :
  (fun l : list bool => flags g l) <$> flags2 f ll = flags2 (fun _ => g) ll.
Proof.
  apply list_eq. intros p. rewrite list_lookup_fmap, !flags2_lookup. destruct (ll !! p); [|done]. cbn. by rewrite flags_flags.
Qed.

Lemma flags2_ext {A} f g (ll : list (list A)) :
  (∀ p i l, ll !! p = Some l → (i < length l)%nat → f p i = g p i) → flags2 f ll = flags2 g ll.
Proof.
  intros Hfg. apply list_eq. intros p. rewrite !flags2_lookup. destruct (ll !! p) eqn:E; [|done].
  cbn. f_equal. apply flags_ext. eauto.
Qed.

(** Setting one class. *)
Lemma flags2_upd {A} f (ll : list (list A)) p i l b :
  ll !! p = Some l → (i < length l)%nat →
  (l ← idx (flags2 f ll) (Z.of_nat p); l ← upd l (Z.of_nat i) b; upd (flags2 f ll) (Z.of_nat p) l) =
  Done (flags2 (fun p' i' => if bool_decide (p' = p ∧ i' = i) then b else f p' i') ll).
Proof.
  intros Hl Hi. assert (flags2 f ll !! p = Some (flags (f p) l)) as Hlk by (by rewrite flags2_lookup, Hl).
  rewrite (idx_nat _ _ _ Hlk). go_simpl. rewrite flags_upd by done. go_simpl.
  assert (p < length (flags2 f ll))%nat as Hp by eauto with go_lists.
  rewrite upd_in_range by (unfold zlen; lia). f_equal. apply list_eq. intros q. rewrite Nat2Z.id.
  destruct (decide (q = p)) as [->|Hne].
  - rewrite list_lookup_insert_eq, flags2_lookup, Hl by done. cbn. f_equal. apply flags_ext. intros j _.
    destruct (decide (j = i)) as [->|]; [by rewrite !bool_decide_eq_true_2|by rewrite !bool_decide_eq_false_2 by tauto].
  - rewrite list_lookup_insert_ne, !flags2_lookup by done. destruct (ll !! q); [|done]. cbn. f_equal.
    apply flags_ext. intros j _. by rewrite bool_decide_eq_false_2 by tauto.
Qed.

(** ** What is in view *)

Section ui.
Context (page : prepared) (pic : picture) (showTime : Z → string).
Implicit Types (s : ui) (v : option (Z * Z)).

Definition lin_layers : list (list (list line * gset Z)) := ly_lins <$> pc_layers pic.

(** The box at [p], [i] exists. *)
Definition is_box (b : Z * Z) : Prop :=
  ∃ (p i : nat) boxes pt, b = (Z.of_nat p, Z.of_nat i) ∧ pc_boxes pic !! p = Some boxes ∧ (i < length boxes)%nat ∧
    pdata page !! p = Some pt ∧ length boxes = length (pt_History pt).

(** What drawing guarantees about the lists the handlers look into. *)
Record ui_ready : Prop := {
  ur_len : length (pc_layers pic) = length (pdata page);
  ur_index : ∀ b i, is_box b → linearizationIndex page pic b.1 b.2 = Done (Some i) →
    ∃ l, lin_layers !! Z.to_nat b.1 = Some l ∧ 0 ≤ i < zlen l;
  ur_errors : ∀ e, e ∈ pc_errorPoints pic → is_box (ep_partition e, ep_index e) ∧
    ∃ l, lin_layers !! Z.to_nat (ep_partition e) = Some l ∧ 0 ≤ ep_lin e < zlen l;
  ur_tip : ∀ k, is_box (tk_partition k, tk_index k) →
    (tk_selected k = true → is_box (tk_sPartition k, tk_sIndex k)) → ∃ html, tip_text page pic showTime k = Done html;
}.

(** The linearization in view for a box. *)
Definition lin_index (b : Z * Z) : option Z :=
  match linearizationIndex page pic b.1 b.2 with Done o => o | _ => None end.

Definition hist_hidden v (p : nat) : bool :=
  match v with Some b => bool_decide (Z.of_nat p ≠ b.1) | None => false end.

(** With a box in view, only its linearization is shown; otherwise the first,
    longest, one of every partition is. *)
Definition lin_hidden v (p l : nat) : bool :=
  match v with
  | Some b => negb (bool_decide (Z.of_nat p = b.1 ∧ lin_index b = Some (Z.of_nat l)))
  | None => bool_decide (l ≠ 0%nat)
  end.

(** The first red point in view. *)
Definition error_visible v (e : errorPoint) : bool :=
  negb (lin_hidden v (Z.to_nat (ep_partition e)) (Z.to_nat (ep_lin e))).
Definition first_error v : option errorPoint :=
  snd <$> list_find (fun e => error_visible v e = true) (pc_errorPoints pic).

Record displays v s : Prop := {
  sw_hist : histHidden s = flags (hist_hidden v) (pdata page);
  sw_lins : linHidden s = flags2 (lin_hidden v) lin_layers;
  sw_active : jumpActive s = bool_decide (is_Some (first_error v));
  sw_point : ∀ e, first_error v = Some e → jumpPoint s = Some e;
}.

(** Everything but the layers and the link. *)
Definition same_rest s s' : Prop :=
  selected s' = selected s ∧ selectedIndex s' = selectedIndex s ∧ rectSelected s' = rectSelected s ∧
  tipShown s' = tipShown s ∧ tipHtml s' = tipHtml s ∧ tipPlace s' = tipPlace s ∧ lastTooltip s' = lastTooltip s.

Hypothesis Hready : ui_ready.

Lemma point_hidden_spec v e :
  e ∈ pc_errorPoints pic →
  point_hidden (flags2 (lin_hidden v) lin_layers) e = Done (negb (error_visible v e)).
Proof.
  intros He. destruct (ur_errors Hready e He) as ((p & i & boxes & pt & [= Ep Ei] & _) & l & Hl & Hr).
  unfold point_hidden, error_visible. rewrite negb_involutive.
  rewrite (proj2 (idx_Done _ (ep_partition e) (flags (lin_hidden v (Z.to_nat (ep_partition e))) l))).
  - go_simpl. apply idx_Done. split; [lia|]. rewrite flags_lookup.
    destruct (lookup_lt_is_Some_2 l (Z.to_nat (ep_lin e))) as [x ->]; [unfold zlen in Hr; lia|done].
  - split; [lia|]. by rewrite flags2_lookup, Hl.
Qed.

Lemma find_visible_spec v pts :
  pts ⊆ pc_errorPoints pic →
  find_visible (flags2 (lin_hidden v) lin_layers) pts = Done (snd <$> list_find (fun e => error_visible v e = true) pts).
Proof.
  induction pts as [|e pts IH]; intros Hsub; [done|]. cbn [find_visible list_find].
  rewrite (point_hidden_spec v e) by set_solver. go_simpl. case_decide as He.
  - by rewrite He.
  - apply not_true_is_false in He. rewrite He. cbn. rewrite IH by set_solver.
    destruct (list_find _ pts) as [[j x]|]; done.
Qed.

Lemma updateJump_shows v s :
  histHidden s = flags (hist_hidden v) (pdata page) → linHidden s = flags2 (lin_hidden v) lin_layers →
  ∃ s', updateJump pic s = Done s' ∧ displays v s' ∧ same_rest s s'.
Proof.
  intros Hh Hl. unfold updateJump. rewrite Hl, find_visible_spec by done. go_simpl. fold (first_error v).
  eexists. split; [done|]. split; [split; cbn; [done..|by intros e ->]|by unfold same_rest].
Qed.

Lemma linearizationIndex_total b : is_box b → linearizationIndex page pic b.1 b.2 = Done (lin_index b).
Proof.
  intros (p & i & boxes & pt & -> & _ & _ & Hpt & _). unfold lin_index, linearizationIndex. cbn [fst snd].
  rewrite (idx_nat _ _ _ Hpt). go_simpl. destruct (pt_Largest pt !! Z.of_nat i); [done|].
  destruct (lookup_lt_is_Some_2 (pc_layers pic) p) as [ly Hly]; [rewrite (ur_len Hready); eauto with go_lists|].
  by rewrite (idx_nat _ _ _ Hly).
Qed.

Lemma highlight_shows v s b :
  displays v s → is_box b → ∃ s', highlight page pic s b.1 b.2 = Done s' ∧ displays (Some b) s' ∧ same_rest s s'.
Proof.
  intros [Hh Hl _ _] Hb. unfold highlight. rewrite (linearizationIndex_total b Hb). go_simpl.
  rewrite Hh, Hl, flags_flags, flags2_const.
  destruct (lin_index b) as [i|] eqn:Ei.
  - destruct (ur_index Hready b i Hb) as (l & Hlk & Hr); [by rewrite linearizationIndex_total, Ei|].
    destruct (Z_of_nat_complete i) as [j ->]; [lia|]. pose proof Hb as (p & i0 & boxes & pt & -> & _). cbn [fst snd] in *.
    rewrite Nat2Z.id in Hlk. rewrite (flags2_upd _ lin_layers p j l false Hlk) by (unfold zlen in Hr; lia). go_simpl.
    match goal with |- context [updateJump pic ?t] => destruct (updateJump_shows (Some (Z.of_nat p, Z.of_nat i0)) t) as (s' & -> & Hs & Hsame) end.
    + done.
    + cbn. apply flags2_ext. intros p' l' l0 _ _. unfold lin_hidden. rewrite Ei. cbn [fst].
      destruct (decide (p' = p ∧ l' = j)) as [[-> ->]|Hn].
      * by rewrite !bool_decide_eq_true_2.
      * rewrite !bool_decide_eq_false_2; [done| |tauto]. intros [E1%Nat2Z.inj [= E2%Nat2Z.inj]]. by apply Hn.
    + exists s'. split; [done|]. split; [done|]. exact Hsame.
  - go_simpl. match goal with |- context [updateJump pic ?t] => destruct (updateJump_shows (Some b) t) as (s' & -> & Hs & Hsame) end.
    + done.
    + cbn. apply flags2_ext. intros p' l' l0 _ _. unfold lin_hidden. rewrite Ei.
      rewrite bool_decide_eq_false_2; [done|]. by intros [_ ?].
    + exists s'. split; [done|]. split; [done|]. exact Hsame.
Qed.

Lemma reset_shows f g s :
  histHidden s = flags f (pdata page) → linHidden s = flags2 g lin_layers →
  ∃ s', resetHighlight pic s = Done s' ∧ displays None s' ∧ same_rest s s'.
Proof.
  intros Hh Hl. unfold resetHighlight. rewrite Hh, Hl, flags_flags, flags2_const.
  match goal with |- context [updateJump pic ?t] => destruct (updateJump_shows None t) as (s' & -> & Hs & Hsame) end; [done..|].
  exists s'. split; [done|]. split; [done|]. exact Hsame.
Qed.

(** ** Marks *)

(** The box that is marked. *)
Definition marks v : list (list bool) :=
  flags2 (fun p i => bool_decide (v = Some (Z.of_nat p, Z.of_nat i))) (pc_boxes pic).

Lemma mark_spec s v v' b bit :
  is_box b → rectSelected s = marks v → (bit = true → v = None ∧ v' = Some b) → (bit = false → v = Some b ∧ v' = None) →
  ∃ s', mark s b.1 b.2 bit = Done s' ∧ rectSelected s' = marks v' ∧
    (∀ w, displays w s → displays w s') ∧ selected s' = selected s ∧ selectedIndex s' = selectedIndex s ∧
    tipHtml s' = tipHtml s ∧ lastTooltip s' = lastTooltip s.
Proof.
  intros (p & i & boxes & pt & -> & Hb & Hi & _) Hm H1 H2. cbn [fst snd].
  pose proof (flags2_upd (fun p i => bool_decide (v = Some (Z.of_nat p, Z.of_nat i))) (pc_boxes pic) p i boxes bit Hb Hi) as Hu.
  unfold mark. rewrite Hm. fold (marks v) in Hu.
  destruct (idx (marks v) (Z.of_nat p)) as [l| |]; go_simpl in Hu; try done. go_simpl.
  destruct (upd l (Z.of_nat i) bit) as [l'| |]; go_simpl in Hu; try done. go_simpl. rewrite Hu. go_simpl.
  eexists. split; [done|]. cbn. split; [|split; [by intros w [? ? ? ?]; split|done]].
  apply flags2_ext. intros p' i' l0 _ _.
  destruct (decide (p' = p ∧ i' = i)) as [[-> ->]|Hn].
  - rewrite (bool_decide_eq_true_2 (p = p ∧ i = i)) by done. destruct bit.
    + destruct (H1 eq_refl) as [_ ->]. by rewrite bool_decide_eq_true_2.
    + destruct (H2 eq_refl) as [_ ->]. by rewrite bool_decide_eq_false_2.
  - rewrite (bool_decide_eq_false_2 (p' = p ∧ i' = i)) by done.
    assert (Some (Z.of_nat p, Z.of_nat i) ≠ Some (Z.of_nat p', Z.of_nat i')) as Hne
      by (intros [= E1%Nat2Z.inj E2%Nat2Z.inj]; apply Hn; done).
    destruct bit; [destruct (H1 eq_refl) as [-> ->]|destruct (H2 eq_refl) as [-> ->]]; by rewrite !bool_decide_eq_false_2.
Qed.

(** ** The machine *)

(** What the user has selected, and the box the mouse went over. *)
Record focus := mkFocus { f_sel : option (Z * Z); f_hover : option (Z * Z) }.

Definition view (f : focus) : option (Z * Z) := match f_sel f with Some b => Some b | None => f_hover f end.

Definition focus_step (f : focus) (a : action) : focus :=
  match a with
  | MouseOver p i => match f_sel f with Some _ => f | None => mkFocus None (Some (p, i)) end
  | MouseMove _ _ _ _ => f
  | MouseOut => mkFocus (f_sel f) None
  | Click p i => if bool_decide (f_sel f = Some (p, i)) then mkFocus None None else mkFocus (Some (p, i)) None
  | BgClick => match f_sel f with Some _ => mkFocus None None | None => f end
  | JumpClick =>
      match f_sel f, first_error (view f) with
      | None, Some e => mkFocus (Some (ep_partition e, ep_index e)) None
      | _, _ => f
      end
  end.

(** The state of the page shows the focus [f], and the tooltip is not stale. *)
Record implements (f : focus) s : Prop := {
  im_shows : displays (view f) s;
  im_marks : rectSelected s = marks (f_sel f);
  im_sel : selected s = bool_decide (is_Some (f_sel f));
  im_index : ∀ b, f_sel f = Some b → selectedIndex s = b ∧ is_box b;
  im_tip : ∀ k, lastTooltip s = Some k → tip_text page pic showTime k = Done (tipHtml s);
}.

(** Only boxes that exist, and the link when it is displayed, can be used. *)
Definition enabled s (a : action) : Prop :=
  match a with
  | MouseOver p i | MouseMove p i _ _ | Click p i => is_box (p, i)
  | JumpClick => jumpActive s = true
  | MouseOut | BgClick => True
  end.

Lemma implements_selected f s : implements f s → selected s = false → f_sel f = None.
Proof. intros Him. rewrite (im_sel _ _ Him). destruct (f_sel f); [done|done]. Qed.

Lemma select_implements v s b :
  displays v s → (∀ k, lastTooltip s = Some k → tip_text page pic showTime k = Done (tipHtml s)) →
  is_box b → rectSelected s = marks None →
  ∃ s', select page pic s b.1 b.2 = Done s' ∧ implements (mkFocus (Some b) None) s'.
Proof.
  intros Hs Ht Hb Hm. unfold select. destruct b as [p i]. cbn [fst snd].
  destruct (highlight_shows v (set_selected s true (p, i)) (p, i)) as (s1 & Hrun & Hs1 & H1 & H2 & H3 & _ & H5 & _ & H7);
    [by destruct Hs; split|done|].
  cbn [fst snd] in Hrun. rewrite Hrun. go_simpl.
  destruct (mark_spec s1 None (Some (p, i)) (p, i) true) as (s2 & Hrun2 & Hm2 & Hw & E1 & E2 & E3 & E4);
    [done|by rewrite H3|done|done|].
  cbn [fst snd] in Hrun2. exists s2. split; [done|]. cbn in H1, H2, H5, H7. split; cbn.
  - by apply Hw.
  - done.
  - by rewrite E1, H1.
  - intros b' [= <-]. by rewrite E2, H2.
  - intros k. rewrite E3, E4, H5, H7. apply Ht.
Qed.

Lemma deselect_implements f s b :
  implements f s → f_sel f = Some b → ∃ s', deselect pic s = Done s' ∧ implements (mkFocus None None) s'.
Proof.
  intros [Hs Hm Hsel Hix Ht] Eb. destruct (Hix b Eb) as [Ei Hb]. unfold deselect. rewrite Hsel, Eb. cbn [negb].
  rewrite bool_decide_eq_true_2 by eauto. cbn [negb].
  destruct (reset_shows (hist_hidden (view f)) (lin_hidden (view f)) (set_selected s false (selectedIndex s)))
    as (s1 & -> & Hs1 & H1 & H2 & H3 & _ & H5 & _ & H7); [by destruct Hs..|].
  go_simpl. cbn in H1, H2, H3, H5, H7. rewrite H2, Ei.
  destruct (mark_spec s1 (Some b) None b false) as (s2 & -> & Hm2 & Hw & E1 & E2 & E3 & E4);
    [done|by rewrite H3, Hm, Eb|done|done|].
  exists s2. split; [done|]. split; cbn.
  - by apply Hw.
  - done.
  - by rewrite E1, H1.
  - done.
  - intros k. rewrite E3, E4, H5, H7. apply Ht.
Qed.

Lemma first_error_elem v e : first_error v = Some e → e ∈ pc_errorPoints pic.
Proof.
  unfold first_error. intros ([i x] & (Hi & _)%list_find_Some & ->)%fmap_Some. eauto with go_lists.
Qed.

Lemma move_implements f s p i x y :
  implements f s → is_box (p, i) →
  ∃ s', handleMouseMove page pic showTime s p i x y = Done s' ∧ implements f s' ∧
    tip_text page pic showTime (tip_key s p i) = Done (tipHtml s').
Proof.
  intros [Hs Hm Hsel Hix Ht] Hb. unfold handleMouseMove.
  destruct (decide (lastTooltip s = Some (tip_key s p i))) as [El|Hl].
  - rewrite bool_decide_eq_false_2 by tauto. go_simpl. eexists. split; [done|].
    split; [destruct Hs; split; [by split|done..]|]. cbn. by apply Ht.
  - rewrite bool_decide_eq_true_2 by done.
    destruct (ur_tip Hready (tip_key s p i)) as [html Hhtml]; [done| |].
    { cbn [tip_key tk_selected tk_sPartition tk_sIndex]. rewrite Hsel.
      destruct (f_sel f) as [b|]; [|done]. intros _. destruct (Hix b eq_refl) as [-> ?]. by destruct b. }
    rewrite Hhtml. go_simpl. eexists. split; [done|]. split; [|done].
    destruct Hs. split; [by split|done..|]. intros k [= <-]. done.
Qed.

Lemma tip_implements f s shown last :
  implements f s → last = None ∨ last = lastTooltip s →
  implements f (set_tip s shown (tipHtml s) (tipPlace s) last).
Proof.
  intros [[Hw1 Hw2 Hw3 Hw4] ? ? ? Ht] Hl. split; [by split|done..|].
  cbn. intros k Hk. destruct Hl as [->| ->]; [done|]. by apply Ht.
Qed.

(** The handlers implement the machine: whatever the user can do, the handler
    does not throw and the page shows the new focus. *)
Lemma act_implements f s a :
  implements f s → enabled s a →
  ∃ s', act page pic showTime s a = Done s' ∧ implements (focus_step f a) s' ∧
    (∀ p i x y, a = MouseMove p i x y → tip_text page pic showTime (tip_key s p i) = Done (tipHtml s')).
Proof.
  intros Him Hen. pose proof Him as [Hs Hm Hsel Hix Ht].
  destruct a as [p i|p i x y| |p i| |]; cbn [act enabled focus_step] in *.
  - unfold handleMouseOver. rewrite Hsel. destruct (f_sel f) as [b|] eqn:Eb.
    + rewrite bool_decide_eq_true_2 by eauto. cbn [negb]. go_simpl. eexists. split; [done|]. split; [|done].
      apply tip_implements; auto.
    + rewrite bool_decide_eq_false_2 by (by intros []). cbn [negb].
      destruct (highlight_shows (view f) s (p, i) Hs Hen) as (s1 & Hrun & Hs1 & H1 & H2 & H3 & H4 & H5 & H6 & H7).
      cbn [fst snd] in Hrun. rewrite Hrun. go_simpl. eexists. split; [done|]. split; [|done].
      apply tip_implements; [|by right]. split; cbn; [done|by rewrite H3, Hm|by rewrite H1, Hsel|done|].
      intros k. rewrite H5, H7. apply Ht.
  - destruct (move_implements f s p i x y Him Hen) as (s' & -> & Hi' & Htx). exists s'. split; [done|]. split; [done|].
    by intros ? ? ? ? [= <- <- <- <-].
  - unfold handleMouseOut. rewrite Hsel. destruct (f_sel f) as [b|] eqn:Eb.
    + rewrite bool_decide_eq_true_2 by eauto. cbn [negb]. go_simpl. eexists. split; [done|]. split; [|done].
      apply tip_implements; [|by left]. destruct Him as [Hs' ? ? ? ?]. unfold view in Hs'. rewrite Eb in *. by split.
    + rewrite bool_decide_eq_false_2 by (by intros []). cbn [negb].
      destruct (reset_shows _ _ s (sw_hist _ _ Hs) (sw_lins _ _ Hs)) as (s1 & -> & Hs1 & H1 & H2 & H3 & H4 & H5 & H6 & H7).
      go_simpl. eexists. split; [done|]. split; [|done].
      apply tip_implements; [|by left]. split; cbn; [done|by rewrite H3, Hm|by rewrite H1, Hsel|done|].
      intros k. rewrite H5, H7. apply Ht.
  - unfold handleClick. rewrite Hsel. destruct (f_sel f) as [b|] eqn:Eb.
    + rewrite bool_decide_eq_true_2 by eauto. destruct (Hix b eq_refl) as [Ei Hb]. rewrite Ei. destruct b as [bp bi].
      destruct (decide (p = bp ∧ i = bi)) as [[-> ->]|Hne].
      * rewrite !bool_decide_eq_true_2 by done.
        destruct (deselect_implements f s (bp, bi) Him Eb) as (s' & -> & ?). exists s'. done.
      * rewrite !bool_decide_eq_false_2 by first [done|intros [= -> ->]; by apply Hne].
        destruct (mark_spec s (Some (bp, bi)) None (bp, bi) false) as (s1 & Hrun & Hm1 & Hw & E1 & E2 & E3 & E4); [done..|].
        cbn [fst snd] in Hrun. rewrite Hrun. go_simpl.
        destruct (select_implements (view f) s1 (p, i)) as (s' & Hrun' & ?); [by apply Hw| |done|done|].
        { intros k. rewrite E3, E4. apply Ht. }
        exists s'. done.
    + rewrite bool_decide_eq_false_2 by (by intros []). rewrite bool_decide_eq_false_2 by done.
      destruct (select_implements (view f) s (p, i) Hs Ht Hen) as (s' & Hrun' & ?); [by rewrite Hm|]. exists s'. done.
  - unfold handleBgClick. destruct (f_sel f) as [b|] eqn:Eb.
    + destruct (deselect_implements f s b Him Eb) as (s' & -> & ?). exists s'. done.
    + unfold deselect. rewrite Hsel. rewrite bool_decide_eq_false_2 by (by intros []). exists s. done.
  - unfold jump_onclick. rewrite Hen. cbn [negb]. pose proof (sw_active _ _ Hs) as Ha. rewrite Hen in Ha.
    symmetry in Ha. apply bool_decide_eq_true in Ha as [e He]. rewrite (sw_point _ _ Hs e He), He, Hsel.
    destruct (f_sel f) as [b|] eqn:Eb.
    + rewrite bool_decide_eq_true_2 by eauto. exists s. done.
    + rewrite bool_decide_eq_false_2 by (by intros []). cbn [negb].
      destruct (ur_errors Hready e (first_error_elem _ _ He)) as [Hbox _].
      destruct (select_implements (view f) s (ep_partition e, ep_index e) Hs Ht Hbox) as (s' & Hrun' & ?); [by rewrite Hm|]. exists s'. done.
Qed.

(** ** Reachable states *)

Inductive reaches_focus : focus → ui → Prop :=
| rf_init s : init_ui page pic = Done s → reaches_focus (mkFocus None None) s
| rf_act f s a s' :
    reaches_focus f s → enabled s a → act page pic showTime s a = Done s' → reaches_focus (focus_step f a) s'.

Lemma init_implements : ∃ s, init_ui page pic = Done s ∧ implements (mkFocus None None) s.
Proof.
  unfold init_ui, handleMouseOut. cbn [drawn_ui selected negb].
  destruct (reset_shows (fun _ => false) (fun _ _ => false) (drawn_ui page pic)) as (s & Hrun & Hs & H1 & H2 & H3 & _ & H5 & _ & H7).
  { done. }
  { cbn. unfold lin_layers. apply list_eq. intros p. rewrite flags2_lookup, !list_lookup_fmap. by destruct (pc_layers pic !! p). }
  fold (drawn_ui page pic). rewrite Hrun. go_simpl. eexists. split; [done|]. cbn in H1, H2, H3, H5, H7.
  apply tip_implements; [|by left]. split; cbn; [done| |by rewrite H1|done|by rewrite H7].
  rewrite H3. unfold marks. apply list_eq. intros p. rewrite flags2_lookup, list_lookup_fmap.
  destruct (pc_boxes pic !! p); done.
Qed.

Lemma reaches_implements f s : reaches_focus f s → implements f s.
Proof.
  induction 1 as [s Hs|f s a s' Hr IH Hen Hact].
  - destruct init_implements as (s' & Hs' & ?). by assert (s' = s) as -> by congruence.
  - destruct (act_implements f s a IH Hen) as (s1 & Hs1 & ? & _). by assert (s1 = s') as -> by congruence.
Qed.

End ui.
