(* ===== verification/PageApp.v ===== *)
(** * The page at work ([labs/src/porcupine/visualization.go])

    [render] as a whole: on data that can be shown, the page draws itself, and
    from then on every action of the user is handled without an exception and
    displays what it should. *)

From Stdlib Require Import QArith Qminmax.
From S2P Require Import Prelude Visualization Page PageLayout PageData PageCorrect PageDraw PagePicture PageUi PageUiCorrect.
Local Open Scope Z_scope.

(** [Largest] leads to linearizations that exist, and leads to the first one
    for the operations of the first one. *)
Record navigable (d : partitionVisualizationData) : Prop := {
  nv_range : ∀ j i, Largest d !! j = Some i → 0 ≤ i < zlen (PartialLinearizations d);
  nv_first : ∀ lin id, PartialLinearizations d !! 0%nat = Some lin → id ∈ lin → Largest d !! ls_Index id = Some 0;
}.

(** [errorPoints.sort((a, b) => a.x - b.x)]: the order is only determined
    where the positions are numbers. *)
Definition is_num (n : num) : Prop := ∃ q, n = Num q.

Class PointSort (sortPoints : list errorPoint → list errorPoint) : Prop := {
  ps_perm : ∀ l, sortPoints l ≡ₚ l;
  ps_sorted : ∀ l, Forall (fun e => is_num (ep_x e)) l →
    StronglySorted (fun e e' => nle (ep_x e) (ep_x e')) (sortPoints l);
}.

Section app.
Context (sortTs : list Z → list Z) `{!GoSort ts_less sortTs}.
Context (sortEvents : list event → list event) `{!GoSort event_less sortEvents}.
Context (sortPoints : list errorPoint → list errorPoint) `{!PointSort sortPoints}.
Context (textWidth : string → Q) (show showTime : Z → string).
Context (data : list partitionVisualizationData).
Hypothesis Hshow : Forall showable data.
Hypothesis Hnav : Forall navigable data.

(** A picture that [render] draws for [data]. *)
Definition rendered (sv : solved) (pic : picture) : Prop :=
  solve sortTs sortEvents textWidth data = Done sv ∧ draw show sortPoints data sv = Done pic.

Record drawn_facts (sv : solved) (pic : picture) : Prop := {
  df_parts : Forall2 (part_of (byGid (prepare data))) data (pdata (sv_page sv));
  df_layers : Forall2 (layer_ok (byGid (sv_page sv)) (sv_xPos sv)) (pdata (sv_page sv)) (pc_layers pic);
  df_errors : ∃ eps, pc_errorPoints pic = sortPoints eps ∧ Forall (error_of 0 (pdata (sv_page sv))) eps ∧
    all_errors_shown 0 (pc_layers pic) eps;
  df_boxes : Forall2 (fun pt boxes => length boxes = length (pt_History pt)) (pdata (sv_page sv)) (pc_boxes pic);
  df_gids : ∀ pt g, pt ∈ pdata (sv_page sv) → g ∈ pt_History pt → is_Some (byGid (sv_page sv) !! g);
}.

Lemma render_total : ∃ sv pic, rendered sv pic ∧ drawn_facts sv pic.
Proof.
  destruct (solve_spec sortTs sortEvents textWidth data Hshow)
    as (sv & tb & Hrun & _ & Hels & Hparts & _ & Hk & Hin & _ & Hf & _). rewrite <- Hels in Hin.
  destruct (draw_total sortTs textWidth show sortPoints data Hshow sv Hels Hparts Hk Hin Hf) as (pic & Hpic & HL & He & _).
  exists sv, pic. split; [done|].
  assert (∀ pt g, pt ∈ pdata (sv_page sv) → g ∈ pt_History pt → is_Some (byGid (sv_page sv) !! g)) as Hg.
  { intros pt g Hpt Hg. destruct (hist_event sortTs textWidth data Hshow sv Hels Hparts Hk Hin Hf pt g Hpt Hg) as (z & ? & _). eauto. }
  split; [rewrite Hparts; apply prepare_ok|done|done| |done].
  unfold draw in Hpic.
  destruct (draw_histories_spec (byGid (sv_page sv)) (sv_xPos sv) 0 (pdata (sv_page sv)) Hg) as (boxes & Hb & HF).
  rewrite Hb in Hpic. go_simpl in Hpic. go_inv Hpic. destruct a. injection Hpic as <-. cbn.
  eapply Forall2_impl; [exact HF|]. by intros ? ? [? _].
Qed.

Section facts.
Context (sv : solved) (pic : picture).
Hypothesis Hdf : drawn_facts sv pic.

Lemma layers_lookup p ly : pc_layers pic !! p = Some ly → lin_layers pic !! p = Some (ly_lins ly).
Proof. intros H. unfold lin_layers. by rewrite list_lookup_fmap, H. Qed.

Lemma part_facts p pt :
  pdata (sv_page sv) !! p = Some pt →
  ∃ d ly, data !! p = Some d ∧ showable d ∧ navigable d ∧ pt_PartialLinearizations pt = PartialLinearizations d ∧
    pt_Largest pt = Largest d ∧ length (pt_History pt) = length (History d) ∧
    pc_layers pic !! p = Some ly ∧ layer_ok (byGid (sv_page sv)) (sv_xPos sv) pt ly.
Proof.
  intros Hpt. destruct (Forall2_lookup_r _ _ _ _ _ (df_parts _ _ Hdf) Hpt) as (d & Hd & [HF Hl Hlg]).
  destruct (Forall2_lookup_l _ _ _ _ _ (df_layers _ _ Hdf) Hpt) as (ly & Hly & Hok).
  exists d, ly. split; [done|]. rewrite Forall_lookup in Hshow, Hnav. split; [by eapply Hshow|]. split; [by eapply Hnav|].
  split_and!; try done. by rewrite <- (Forall2_length _ _ _ HF).
Qed.

Lemma index_range p pt ly (i : Z) j :
  pdata (sv_page sv) !! p = Some pt → pc_layers pic !! p = Some ly →
  linearizationIndex (sv_page sv) pic (Z.of_nat p) j = Done (Some i) →
  0 ≤ i < zlen (ly_lins ly) ∧ zlen (ly_lins ly) = zlen (pt_PartialLinearizations pt).
Proof.
  intros Hpt Hly. destruct (part_facts p pt Hpt) as (d & ly' & Hd & Hsh & Hnv & Hl & Hlg & _ & Hly' & [HF [lens Hn]]).
  assert (ly' = ly) as -> by congruence.
  assert (zlen (ly_lins ly) = zlen (pt_PartialLinearizations pt)) as Elen by (unfold zlen; by rewrite (Forall2_length _ _ _ HF)).
  unfold linearizationIndex. rewrite (idx_nat _ _ _ Hpt). go_simpl. rewrite Hlg.
  destruct (Largest d !! j) as [i'|] eqn:El.
  - intros [= <-]. split; [|done]. rewrite Elen, Hl. by eapply (nv_range _ Hnv).
  - rewrite (idx_nat _ _ _ Hly). go_simpl. intros [= Ei]. split; [|done]. specialize (Hn j). cbn in Hn. rewrite Ei in Hn.
    destruct (lens !! j) as [len|]; [|done]. destruct Hn as (ill & Hi & Hz & _).
    apply lookup_zip_with_Some in Hz as (a & b & _ & _ & Hb). apply list_lookup_fmap_Some in Hb as (x & _ & Hx).
    apply lookup_lt_Some in Hx. unfold zlen. lia.
Qed.

Lemma box_part b : is_box (sv_page sv) pic b →
  ∃ (p i : nat) pt, b = (Z.of_nat p, Z.of_nat i) ∧ pdata (sv_page sv) !! p = Some pt ∧ (i < length (pt_History pt))%nat.
Proof. intros (p & i & boxes & pt & -> & _ & Hi & Hpt & Hlen). exists p, i, pt. split; [done|]. split; [done|lia]. Qed.

Lemma part_box (p i : nat) pt :
  pdata (sv_page sv) !! p = Some pt → (i < length (pt_History pt))%nat → is_box (sv_page sv) pic (Z.of_nat p, Z.of_nat i).
Proof.
  intros Hpt Hi. destruct (Forall2_lookup_l _ _ _ _ _ (df_boxes _ _ Hdf) Hpt) as (boxes & Hb & Hlen).
  exists p, i, boxes, pt. split_and!; try done. by rewrite Hlen.
Qed.

(** A red point leads to its linearization and to the last operation of it. *)
Lemma error_facts e :
  e ∈ pc_errorPoints pic →
  ∃ (p l : nat) pt ly lin id, ep_partition e = Z.of_nat p ∧ ep_lin e = Z.of_nat l ∧ pdata (sv_page sv) !! p = Some pt ∧
    pc_layers pic !! p = Some ly ∧ pt_PartialLinearizations pt !! l = Some lin ∧ last lin = Some id ∧
    ep_index e = ls_Index id ∧ 0 ≤ ls_Index id < zlen (pt_History pt) ∧ is_num (ep_x e).
Proof.
  destruct (df_errors _ _ Hdf) as (eps & -> & Hf & _). rewrite ps_perm. intros He. rewrite Forall_forall in Hf.
  destruct (Hf e He) as (p & pt & Hpt & Ep & Hx & l & lin & id & El & Hlin & Hid & Ei).
  destruct (part_facts p pt Hpt) as (d & ly & Hd & Hsh & _ & Hl & _ & Hlen & Hly & _).
  exists p, l, pt, ly, lin, id. rewrite Z.add_0_l in *. split_and!; try done; rewrite Hl in Hlin;
    destruct (sh_range _ Hsh lin id) as [? ?]; eauto with go_lists.
  - apply list_elem_of_lookup. rewrite last_lookup in Hid. eauto.
  - apply list_elem_of_lookup. rewrite last_lookup in Hid. eauto.
  - unfold zlen in *. by rewrite Hlen.
Qed.

Lemma page_ready : ui_ready (sv_page sv) pic showTime.
Proof.
  split.
  - by rewrite (Forall2_length _ _ _ (df_layers _ _ Hdf)).
  - intros b i (p & j & pt & -> & Hpt & _)%box_part Hidx. cbn [fst snd] in *.
    destruct (part_facts p pt Hpt) as (_ & ly & _ & _ & _ & _ & _ & _ & Hly & _). rewrite Nat2Z.id.
    exists (ly_lins ly). split; [by apply layers_lookup|]. by eapply index_range.
  - intros e (p & l & pt & ly & lin & id & Ep & El & Hpt & Hly & Hlin & _ & Ei & Hr & _)%error_facts. rewrite Ep, Ei, El, Nat2Z.id. split.
    + destruct (Z_of_nat_complete (ls_Index id)) as [i Ei2]; [lia|]. rewrite Ei2 in *. apply (part_box _ _ pt); [done|unfold zlen in Hr; lia].
    + exists (ly_lins ly). split; [by apply layers_lookup|].
      destruct (part_facts p pt Hpt) as (_ & ly' & _ & _ & _ & _ & _ & _ & Hly' & [HF _]). assert (ly' = ly) as -> by congruence.
      unfold zlen. rewrite <- (Forall2_length _ _ _ HF). apply lookup_lt_Some in Hlin. lia.
  - intros [kp ki ksel ksp ksi] Hb Hs. unfold tip_text. cbn [tk_partition tk_index tk_selected tk_sPartition tk_sIndex] in *.
    destruct (box_part _ Hb) as (p & i & pt & [= -> ->] & Hpt & Hi).
    destruct (part_facts p pt Hpt) as (d & ly & Hd & Hsh & _ & Hl & _ & _ & Hly & [HF _]).
    set (b := if negb ksel then (Z.of_nat p, Z.of_nat i) else (ksp, ksi)).
    assert (is_box (sv_page sv) pic b) as Hbb by (unfold b; destruct ksel; cbn; auto).
    assert (∃ o, (if negb ksel then linearizationIndex (sv_page sv) pic (Z.of_nat p) (Z.of_nat i)
      else linearizationIndex (sv_page sv) pic ksp ksi) = Done o ∧ linearizationIndex (sv_page sv) pic b.1 b.2 = Done o) as (o & -> & Ho).
    { destruct (box_part b Hbb) as (p' & i' & pt' & Eb & Hpt' & _).
      destruct (part_facts p' pt' Hpt') as (_ & ly' & _ & _ & _ & _ & _ & _ & Hly' & _).
      assert (∃ o, linearizationIndex (sv_page sv) pic b.1 b.2 = Done o) as [o Ho].
      { rewrite Eb. unfold linearizationIndex. cbn. rewrite (idx_nat _ _ _ Hpt'). go_simpl.
        destruct (pt_Largest pt' !! Z.of_nat i'); [eauto|]. rewrite (idx_nat _ _ _ Hly'). go_simpl. eauto. }
      exists o. split; [|done]. rewrite <- Ho. unfold b. by destruct ksel. }
    go_simpl. destruct (ksel && bool_decide (ksp ≠ Z.of_nat p)) eqn:Esel; [eauto|].
    destruct o as [m|]; [|destruct ksel; cbn; eauto].
    assert (b.1 = Z.of_nat p) as Ebp.
    { unfold b. destruct ksel; cbn in *; [|done]. apply bool_decide_eq_false in Esel. by apply dec_stable. }
    rewrite Ebp in Ho. destruct (index_range p pt ly m _ Hpt Hly Ho) as [Hm Elen].
    destruct (idx_in_range (ly_lins ly) m Hm) as (dl & Hdl & Hdl'). rewrite Elen in Hm.
    destruct (idx_in_range (pt_PartialLinearizations pt) m Hm) as (lin & Hlin & Hlin').
    rewrite (idx_nat _ _ _ Hpt). go_simpl. rewrite Hlin. go_simpl.
    destruct (lookup_lt_is_Some_2 _ _ Hi) as [g Hg]. rewrite (idx_nat _ _ _ Hg). go_simpl.
    destruct (df_gids _ _ Hdf pt g) as [z Hz]; [eauto with go_lists..|]. rewrite (idx_nat _ _ _ Hz). go_simpl.
    destruct (find_step lin (Z.of_nat i) None) as [[prev curr]|]; [by eexists|].
    rewrite (idx_nat _ _ _ Hly). go_simpl. rewrite Hdl. go_simpl. destruct (bool_decide (Z.of_nat i ∈ dl.2)); [|by eexists].
    destruct (last lin) as [id|] eqn:Elast; [by eexists|]. apply last_None in Elast. rewrite Hl in Hlin'.
    exfalso. apply (sh_nonempty _ Hsh lin); [eauto with go_lists|done].
Qed.

(** ** The first error *)

Lemma visible_first e : e ∈ pc_errorPoints pic → error_visible (sv_page sv) pic None e = true ↔ ep_lin e = 0.
Proof.
  intros (p & l & _ & _ & _ & _ & _ & El & _)%error_facts. unfold error_visible, lin_hidden.
  rewrite negb_true_iff, bool_decide_eq_false, El, Nat2Z.id. split; [|lia]. intros H. apply dec_stable in H. lia.
Qed.

Lemma first_error_leftmost e e' :
  first_error (sv_page sv) pic None = Some e → e' ∈ pc_errorPoints pic → ep_lin e' = 0 → nle (ep_x e) (ep_x e').
Proof.
  unfold first_error. intros ([i x] & (Hi & _ & Hmin)%list_find_Some & [= ->])%fmap_Some He' H0.
  assert (StronglySorted (fun e e' => nle (ep_x e) (ep_x e')) (pc_errorPoints pic)) as Hs.
  { destruct (df_errors _ _ Hdf) as (eps & -> & Hf & _). apply ps_sorted. eapply Forall_impl; [exact Hf|].
    intros e0 (_ & _ & _ & _ & Hx & _). exact Hx. }
  apply list_elem_of_lookup in He' as [j Hj]. destruct (decide (j = i)) as [->|Hne].
  - assert (e' = x) as -> by congruence. destruct (error_facts x) as (_ & _ & _ & _ & _ & _ & _ & _ & _ & _ & _ & _ & _ & _ & q & ->);
      [eauto with go_lists|apply Qle_refl].
  - destruct (decide (j < i)%nat) as [Hlt|Hge].
    + destruct (Hmin j e' Hj Hlt). apply visible_first; [eauto with go_lists|done].
    + apply (StronglySorted_pair (fun e e' => nle (ep_x e) (ep_x e')) (take i (pc_errorPoints pic)) x (drop (S i) (pc_errorPoints pic))).
      * by rewrite take_drop_middle.
      * apply list_elem_of_lookup. exists (j - S i)%nat. rewrite lookup_drop. by replace (S i + (j - S i))%nat with j by lia.
Qed.

(** The box that the link selects leads back to the red point. *)
Lemma jump_visible e :
  e ∈ pc_errorPoints pic → ep_lin e = 0 →
  error_visible (sv_page sv) pic (Some (ep_partition e, ep_index e)) e = true.
Proof.
  intros He E0. destruct (error_facts e He) as (p & l & pt & ly & lin & id & Ep & El & Hpt & Hly & Hlin & Hid & Ei & Hr & _).
  destruct (part_facts p pt Hpt) as (d & ly' & Hd & Hsh & Hnv & Hl & Hlg & _).
  assert (l = 0%nat) as -> by lia. rewrite Hl in Hlin.
  assert (Largest d !! ls_Index id = Some 0) as Hfst.
  { eapply (nv_first _ Hnv); [done|]. apply list_elem_of_lookup. rewrite last_lookup in Hid. eauto. }
  unfold error_visible, lin_hidden. cbn [fst]. rewrite negb_involutive. apply bool_decide_eq_true.
  rewrite Ep, El, Nat2Z.id. split; [done|]. unfold lin_index, linearizationIndex. cbn [fst snd].
  rewrite (idx_nat _ _ _ Hpt). go_simpl. by rewrite Hlg, Ei, Hfst.
Qed.

Lemma first_error_exists :
  is_Some (first_error (sv_page sv) pic None) ↔
  ∃ p ly dl, pc_layers pic !! p = Some ly ∧ ly_lins ly !! 0%nat = Some dl ∧ dl.2 ≠ ∅.
Proof.
  destruct (df_errors _ _ Hdf) as (eps & Eeps & Hf & Hs). split.
  - intros [e He]. pose proof (first_error_elem _ _ _ _ He) as Hin. pose proof Hin as Hin'. rewrite Eeps, ps_perm in Hin'.
    unfold first_error in He. apply fmap_Some in He as ([i x] & (_ & Hv & _)%list_find_Some & [= ->]).
    apply visible_first in Hv as E0; [|done].
    destruct (error_facts x Hin) as (p & l & pt & ly & lin & id & Ep & El & Hpt & Hly & Hlin & Hid & Ei & Hr & _).
    assert (l = 0%nat) as -> by lia.
    destruct (part_facts p pt Hpt) as (_ & ly' & _ & _ & _ & _ & _ & _ & Hly' & [HF _]). assert (ly' = ly) as -> by congruence.
    destruct (Forall2_lookup_l _ _ _ _ _ HF Hlin) as (dl & Hdl & _). exists p, ly, dl. split; [done|]. split; [done|].
    apply (Hs p 0%nat ly dl Hly Hdl). exists x. split; [done|]. split; [lia|done].
  - intros (p & ly & dl & Hly & Hdl & Hne). destruct (proj1 (Hs p 0%nat ly dl Hly Hdl) Hne) as (e & He & Ep & El).
    unfold first_error. destruct (list_find _ _) as [[i x]|] eqn:E; [eauto|]. apply list_find_None in E.
    rewrite Forall_forall in E. exfalso. apply (E e); [by rewrite Eeps, ps_perm|].
    apply visible_first; [by rewrite Eeps, ps_perm|]. lia.
Qed.

End facts.
End app.


