(* ===== verification/PageVerdict.v ===== *)
(** * The page of a verdict ([labs/src/porcupine/visualization.go])

    From the checker to the screen: what a verbose check reports can be shown,
    so that the page for it draws itself, shows the operations with their
    real-time order, and shows an error only where the verdict has one. *)

From Stdlib Require Import QArith Qminmax.
From S2P Require Import Prelude PorcupineModel Linearizability CheckSingle CheckSearch CheckerCorrect OpHistory.
From S2P Require Import PorcupineCheck EventHistory Visualization.
From S2P Require Import Page PageLayout PageData PageCorrect PageDraw PagePicture PageUi PageUiCorrect PageApp.
Local Open Scope Z_scope.

Section verdict.
Context {V S : Type} `{!Inhabited V, !EqDecision S}.
Implicit Types (h : list (entry V)) (τ : list Z).

(** The entries are in the order of their times, and every operation takes
    some time. *)
Record timed h : Prop := {
  tm_sorted : StronglySorted (fun a b => e_time a ≤ e_time b) h;
  tm_span : ∀ e e', e ∈ h → is_call e → e' ∈ h → is_ret e' → e_id e' = e_id e → e_time e < e_time e';
}.

(** Ids number the operations without gaps. *)
Lemma checkable_calls h : checkable h → calls_of h ≡ₚ seqZ 0 (Z.of_nat (length h / 2)).
Proof.
  intros [Hwf Hids _]. pose proof (wf_length h Hwf) as Hlen.
  assert (length h / 2 = length (calls_of h))%nat as Hl by (rewrite Hlen, Nat.mul_comm; by apply Nat.div_mul).
  apply submseteq_length_Permutation.
  - apply NoDup_submseteq; [apply calls_of_NoDup, Hwf|]. intros i (e & He & _ & <-)%elem_of_calls_of.
    apply elem_of_seqZ. specialize (Hids e He). lia.
  - rewrite length_seqZ. lia.
Qed.

Lemma call_exists h (i : nat) :
  checkable h → (i < length h / 2)%nat →
  ∃ e e', e ∈ h ∧ is_call e ∧ e_id e = Z.of_nat i ∧ e' ∈ h ∧ is_ret e' ∧ e_id e' = e_id e.
Proof.
  intros Hck Hi. assert (Z.of_nat i ∈ calls_of h) as (e & He & Hc & Eid)%elem_of_calls_of
    by (rewrite checkable_calls by done; apply elem_of_seqZ; lia).
  destruct (list_elem_of_split _ _ He) as (A & B & ->).
  destruct (wf_call _ (ck_wf _ Hck) A e B eq_refl Hc) as (e' & He' & Hr & E). exists e, e'. set_solver.
Qed.

(** An operation that did not return before another was called. *)
Lemma not_precedes_time h e e' :
  timed h → e ∈ h → is_call e → e' ∈ h → is_ret e' → ¬ precedes h (e_id e') (e_id e) → e_time e ≤ e_time e'.
Proof.
  intros Ht He Hc He' Hr Hnp. destruct (list_elem_of_split _ _ He') as (A & B & ->).
  apply elem_of_app in He as [He|[->|He]%elem_of_cons].
  - pose proof (tm_sorted _ Ht) as Hs. by apply (StronglySorted_app_1_elem_of _ _ _ _ _ Hs He), elem_of_cons; left.
  - by destruct (not_call_ret _ Hc).
  - destruct Hnp. exists A, e', B, e. done.
Qed.

Context (m : Model V S).

Lemma replayed_indices h describe s τ steps : replayed m h describe s τ steps → ls_Index <$> steps = τ.
Proof. induction 1 as [|? ? ? ? ? ? ? ? ? ? IH]; [done|]. cbn. by rewrite IH. Qed.

Section partition.
Context (h : list (entry V)) (ts : list (list Z)) (sortPartials : list (list Z) → list (list Z)) (d : partitionVisualizationData).
Context (describe : V → V → go string) (describeState : S → string).
Hypothesis Hck : checkable h.
Hypothesis Htm : timed h.
Hypothesis Hok : partition_ok sortPartials m h describe describeState ts d.
Hypothesis Hperm : sortPartials ts ≡ₚ ts.
Hypothesis Hpl : ∀ τ, τ ∈ ts → partial_linearization m h τ ∧ τ ≠ [].

Lemma history_entry_at (i : nat) x :
  History d !! i = Some x →
  ∃ e e', e ∈ h ∧ is_call e ∧ e_id e = Z.of_nat i ∧ e' ∈ h ∧ is_ret e' ∧ e_id e' = e_id e ∧
    he_Start x = e_time e ∧ he_End x = e_time e' ∧ he_ClientId x = e_clientId e.
Proof.
  intros Hx. destruct Hok as (Hlen & Hsh & _).
  destruct (call_exists h i Hck) as (e & e' & He & Hc & Eid & He' & Hr & Eid'); [rewrite <- Hlen; eauto with go_lists|].
  destruct (Hsh e e' He Hc He' Hr Eid') as (ds & _ & Hl). rewrite Eid, Nat2Z.id, Hx in Hl. injection Hl as ->.
  exists e, e'. done.
Qed.

Lemma lin_source lin : lin ∈ PartialLinearizations d → ∃ τ, τ ∈ ts ∧ ls_Index <$> lin = τ.
Proof.
  intros [k Hk]%list_elem_of_lookup. destruct Hok as (_ & _ & HF & _).
  destruct (Forall2_lookup_r _ _ _ _ _ HF Hk) as (τ & Hτ & Hr). exists τ. split; [|by eapply replayed_indices].
  rewrite <- Hperm. eauto with go_lists.
Qed.

Lemma verdict_showable : showable d.
Proof.
  split.
  - intros x [i (e & e' & He & Hc & _ & He' & Hr & E & -> & -> & _)%history_entry_at]%list_elem_of_lookup. by eapply tm_span.
  - intros lin (τ & Hτ & E)%lin_source ->. by apply Hpl in Hτ as [_ []].
  - intros lin id (τ & Hτ & E)%lin_source Hid. destruct (Hpl τ Hτ) as [Hp _].
    assert (ls_Index id ∈ τ) as Hin by (rewrite <- E; by apply list_elem_of_fmap_2).
    apply (pl_calls _ _ _ Hp) in Hin. rewrite checkable_calls in Hin by done. apply elem_of_seqZ in Hin.
    destruct Hok as (Hlen & _). unfold zlen. rewrite Hlen. lia.
  - intros lin a b id id' x x' (τ & Hτ & E)%lin_source Hab Ha Hb
      (e & e1 & He & Hc & Eid & He1 & Hr1 & E1 & -> & _ & _)%history_entry_at
      (e' & e1' & He' & Hc' & Eid' & He1' & Hr1' & E1' & _ & -> & _)%history_entry_at.
    destruct (Hpl τ Hτ) as [Hp _].
    assert (∀ k i, lin !! k = Some i → τ !! k = Some (ls_Index i) ∧ 0 ≤ ls_Index i) as Hlk.
    { intros k i Hk. split; [by rewrite <- E, list_lookup_fmap, Hk|].
      assert (ls_Index i ∈ τ) as Hin by (rewrite <- E; apply list_elem_of_fmap_2; eauto with go_lists).
      apply (pl_calls _ _ _ Hp), elem_of_calls_of in Hin as (z & Hz & _ & <-). by apply (ck_ids _ Hck). }
    destruct (Hlk a id Ha) as [Ha' Hi], (Hlk b id' Hb) as [Hb' Hi']. rewrite Z2Nat.id in Eid, Eid' by done.
    destruct (decide (a = b)) as [->|Hne].
    + assert (id' = id) as -> by congruence. apply Z.lt_le_incl. eapply (tm_span _ Htm e e1'); [done..|congruence].
    + apply (not_precedes_time h e e1'); [done..|]. rewrite E1', Eid', Eid.
      apply (pl_respects _ _ _ Hp (take a τ) _ (drop (Datatypes.S a) τ)); [by rewrite take_drop_middle|].
      apply list_elem_of_lookup. exists (b - Datatypes.S a)%nat. rewrite lookup_drop.
      by replace (Datatypes.S a + (b - Datatypes.S a))%nat with b by lia.
  - intros lin id j x x' (τ & Hτ & E)%lin_source Hid Hj
      (e & e1 & He & Hc & Eid & He1 & Hr1 & E1 & -> & _ & _)%history_entry_at
      (e' & e1' & He' & Hc' & Eid' & He1' & Hr1' & E1' & _ & -> & _)%history_entry_at.
    destruct (Hpl τ Hτ) as [Hp _].
    assert (ls_Index id ∈ τ) as Hin by (rewrite <- E; by apply list_elem_of_fmap_2).
    apply (not_precedes_time h e e1'); [done..|]. rewrite E1', Eid', Eid. intros Hpre.
    assert (0 ≤ ls_Index id) by (apply (pl_calls _ _ _ Hp), elem_of_calls_of in Hin as (z & Hz & _ & <-); by apply (ck_ids _ Hck)).
    rewrite Z2Nat.id in Hpre by done. apply Hj. rewrite E. apply (pl_closed _ _ _ Hp (ls_Index id)); [done| |done].
    apply elem_of_calls_of. exists e'. done.
Qed.

Lemma verdict_navigable :
  StronglySorted (fun τ τ' => zlen τ' ≤ zlen τ) (sortPartials ts) → navigable d.
Proof.
  intros Hs. destruct Hok as (_ & _ & HF & Hlg). split.
  - intros j i Hi. specialize (Hlg j). rewrite Hi in Hlg. destruct Hlg as (τ & Hi0 & Hτ & _).
    apply lookup_lt_Some in Hτ. rewrite (Forall2_length _ _ _ HF) in Hτ. unfold zlen. lia.
  - intros lin id Hlin Hid. destruct (Forall2_lookup_r _ _ _ _ _ HF Hlin) as (τ0 & Hτ0 & Hr).
    assert (ls_Index id ∈ τ0) as Hin by (rewrite <- (replayed_indices _ _ _ _ _ Hr); by apply list_elem_of_fmap_2).
    specialize (Hlg (ls_Index id)). destruct (Largest d !! ls_Index id) as [i|].
    + destruct Hlg as (τ & Hi0 & Hτ & _ & _ & Hfst). f_equal. destruct (decide (i = 0)) as [|Hne]; [done|exfalso].
      specialize (Hfst 0%nat τ0 ltac:(lia) Hτ0 Hin). destruct (sortPartials ts) as [|u l]; [done|]. injection Hτ0 as ->.
      apply StronglySorted_inv in Hs as [_ Hf]. rewrite Forall_forall in Hf.
      specialize (Hf τ). replace (Z.to_nat i) with (Datatypes.S (Z.to_nat i - 1)) in Hτ by lia.
      assert (zlen τ ≤ zlen τ0) by (apply Hf; eauto with go_lists). lia.
    + exfalso. apply (Hlg τ0); [eauto with go_lists|done].
Qed.

End partition.
End verdict.

(** ** Histories of operations *)

Section operations.
Context {V S : Type} `{!Inhabited V, !EqDecision S}.
Context (sort : list (entry V) → list (entry V)) `{!GoSort byTime_Less sort}.

Lemma makeEntries_timed (ops : list (Operation V)) :
  (∀ op, op ∈ ops → Call op < Return op) → timed (makeEntries sort ops).
Proof.
  intros Ht. split.
  - unfold makeEntries. eapply StronglySorted_weaken; [|apply (sort_sorted (less:=byTime_Less))]. intros a b.
    unfold byTime_Less. rewrite bool_decide_eq_false. lia.
  - intros e e' He Hc He' Hr Eid.
    apply elem_of_makeEntries in He as (i & op & Hi & [->| ->]), He' as (i' & op' & Hi' & [->| ->]); try done.
    cbn in *. assert (i' = i) as -> by lia. assert (op' = op) as -> by congruence. apply Ht. eauto with go_lists.
Qed.

(** The element of an operation. *)
Lemma operation_shown describe hist (ops : list (Operation V)) (i : nat) op :
  shows (makeEntries sort ops) describe hist → ops !! i = Some op →
  ∃ d, hist !! i = Some (mkHistoryElement (op_ClientId op) (Call op) (Return op) d).
Proof.
  intros Hs Hi. destruct (Hs (call_of (Z.of_nat i) op) (ret_of (Z.of_nat i) op)) as (d & _ & Hd); [|done| |done|done|].
  - apply (elem_of_makeEntries sort). exists i, op. auto.
  - apply (elem_of_makeEntries sort). exists i, op. auto.
  - cbn in Hd. rewrite Nat2Z.id in Hd. eauto.
Qed.

End operations.

(** If every linearization is complete, nothing is drawn in red. *)
Lemma complete_no_errors sortPoints `{!PointSort sortPoints} data sv pic :
  drawn_facts sortPoints data sv pic →
  (∀ p d lin i, data !! p = Some d → lin ∈ PartialLinearizations d → (i < length (History d))%nat → Z.of_nat i ∈ ls_Index <$> lin) →
  pc_errorPoints pic = [].
Proof.
  intros Hdf Hfull. destruct (df_errors _ _ _ _ Hdf) as (eps & -> & Hf & Hs).
  assert (eps = []) as ->; [|by apply Permutation_nil_r, ps_perm].
  destruct eps as [|e eps]; [done|exfalso]. apply Forall_cons in Hf as [(p & pt & Hpt & Ep & _ & l & lin & id & El & Hlin & _) _].
  destruct (Forall2_lookup_l _ _ _ _ _ (df_layers _ _ _ _ Hdf) Hpt) as (ly & Hly & [HF _]).
  destruct (Forall2_lookup_r _ _ _ _ _ (df_parts _ _ _ _ Hdf) Hpt) as (d & Hd & [HFh Hl _]).
  destruct (Forall2_lookup_l _ _ _ _ _ HF Hlin) as (dl & Hdl & Hpic).
  assert (dl.2 ≠ ∅) as [index Hindex]%set_choose_L.
  { apply (Hs p l ly dl Hly Hdl). exists e. split; [set_solver|]. split; [lia|lia]. }
  apply (lp_illegal _ _ _ _ _ Hpic) in Hindex as (i & g & z & -> & [Hi Hni] & _). apply Hni.
  apply (Hfull p d); [done|rewrite <- Hl; eauto with go_lists|].
  rewrite (Forall2_length _ _ _ HFh). eauto with go_lists.
Qed.

(** A partition of the history, as the page gets it. *)
Definition verdict_part {V S} (fm : Model V S) sortPartials sort describe describeState (r : CheckResult)
    (ops : list (Operation V)) (d : partitionVisualizationData) : Prop :=
  ∃ ts, partition_ok sortPartials fm (makeEntries sort ops) describe describeState ts d ∧ sortPartials ts ≡ₚ ts ∧
    StronglySorted (fun τ τ' => zlen τ' ≤ zlen τ) (sortPartials ts) ∧ checkable (makeEntries sort ops) ∧
    timed (makeEntries sort ops) ∧
    ∀ τ, τ ∈ ts → partial_linearization fm (makeEntries sort ops) τ ∧ τ ≠ [] ∧
      (r = Ok → τ ≡ₚ calls_of (makeEntries sort ops)).

Lemma verdict_part_shown {V S} (fm : Model V S) sortPartials sort describe describeState r ops d :
  verdict_part fm sortPartials sort describe describeState r ops d → showable d ∧ navigable d.
Proof.
  intros (ts & H1 & H2 & H3 & H4 & H5 & H6). split; [|by eapply verdict_navigable].
  eapply (verdict_showable fm _ ts sortPartials d describe describeState H4 H5 H1 H2).
  intros τ Hτ. by destruct (H6 τ Hτ) as (? & ? & _).
Qed.

(** A positive verdict comes with complete linearizations. *)
Lemma verdict_part_complete {V S} (fm : Model V S) sortPartials sort describe describeState r ops d lin (i : nat) :
  verdict_part fm sortPartials sort describe describeState r ops d → r = Ok → lin ∈ PartialLinearizations d →
  (i < length (History d))%nat → Z.of_nat i ∈ ls_Index <$> lin.
Proof.
  intros (ts & Hpok & Hprm & _ & Hck & _ & Hfull) Hr Hlin Hi.
  destruct (lin_source fm _ ts sortPartials d describe describeState Hpok Hprm lin Hlin) as (τ & Hτ & ->).
  destruct (Hfull τ Hτ) as (_ & _ & Hf). rewrite (Hf Hr), checkable_calls by done.
  destruct Hpok as (Hl & _). rewrite Hl in Hi. apply elem_of_seqZ. lia.
Qed.

Lemma verdict_data {V S} `{!Inhabited V, !EqDecision S} (fmtV : V → string) (fmtS : S → string)
    sortPartials sort mapRange (model : Model V S) eqf partition history parts fuel timeout sched kills r info
    describe describeState :
  let fm := fillDefault fmtV fmtS model in
  GoSort longer sortPartials → GoSort byTime_Less sort →
  LawfulModel fm eqf → (∀ l, mapRange l ≡ₚ l) →
  Partition fm = Some partition → partition history = Done parts →
  (∀ ops, ops ∈ parts → (∀ op, op ∈ ops → Call op < Return op) ∧ 2 * zlen ops < two64 ∧ op_steps_defined fm ops) →
  DescribeOperation fm = Some describe → DescribeState fm = Some describeState →
  (∀ ops op, ops ∈ parts → op ∈ ops → ∃ d, describe (Input op) (Output op) = Done d) →
  sends_once sched → TimeoutFires ∉ sched →
  CheckOperationsVerbose fmtV fmtS mapRange sort fuel model history timeout sched kills = Done (r, info) →
  ∃ data, computeVisualizationData fmtV fmtS sortPartials model info = Done data ∧
    Forall2 (verdict_part fm sortPartials sort describe describeState r) parts data.
Proof.
  intros fm Hs1 Hs2 Hlm Hmr Hpf Hparts Hops Hop Hst Hdesc Hso Hto Hrun.
  unfold CheckOperationsVerbose, checkOperations in Hrun. fold fm in Hrun. rewrite Hpf in Hrun. cbn [fn] in Hrun.
  go_simpl in Hrun. rewrite Hparts in Hrun. go_simpl in Hrun.
  assert (∀ h, h ∈ makeEntries sort <$> parts → ∃ ops, ops ∈ parts ∧ h = makeEntries sort ops) as Hh
    by (intros h (ops & -> & ?)%list_elem_of_fmap; eauto).
  destruct (computeVisualizationData_total fmtV fmtS sortPartials model eqf mapRange fuel (makeEntries sort <$> parts)
    timeout sched kills r info describe describeState) as (data & Hdata & Hlen & Hlen' & Hpl & Hpo); [done..| |done|done|done|done| |done|].
  { intros h (ops & Hin & ->)%Hh. destruct (Hops ops Hin) as (Ht & Hsz & Hsd).
    split; [by apply makeEntries_checkable|by apply makeEntries_steps]. }
  { intros h j i o (ops & Hin & ->)%Hh Hov. destruct (Hops ops Hin) as (Ht & Hsz & Hsd).
    pose proof Hov as (e & _ & He & Hc & <- & _). apply (elem_of_makeEntries sort) in He as (k & op & Hk & [->| ->]); [|done].
    destruct (op_values_unique _ _ _ _ _ _ (makeEntries_wf sort ops Ht) Hov (op_values_makeEntries sort ops k op Hk)) as [-> ->].
    apply (Hdesc ops); [done|eauto with go_lists]. }
  fold fm in Hpl, Hpo. rewrite length_fmap in Hlen, Hlen'.
  exists data. split; [done|]. apply Forall2_same_length_lookup_2; [done|]. intros p ops d Hps Hd.
  destruct (lookup_lt_is_Some_2 (li_partialLinearizations info) p) as [ts Hts]; [rewrite Hlen'; eauto with go_lists|].
  assert ((makeEntries sort <$> parts) !! p = Some (makeEntries sort ops)) as Hm by (by rewrite list_lookup_fmap, Hps).
  destruct (Hpo p _ ts d Hm Hts Hd) as (H1 & H2 & H3). destruct (Hops ops) as (Ht & Hsz & Hsd); [eauto with go_lists|].
  exists ts. split_and!; try done; [by apply makeEntries_checkable|by apply makeEntries_timed|].
  intros τ Hτ. by eapply Hpl.
Qed.

