(* ===== verification/PorcupineExamples.v ===== *)
(** * The checker on concrete histories

    A history of the key/value service evaluated by the checker, and the
    theorems on the checker applied to it. *)

From S2P Require Import Prelude PorcupineModel Linearizability CheckSingle CheckSearch CheckRefine.
From S2P Require Import CheckerCorrect OpHistory PorcupineCheck EventHistory KvModel Visualization.
Local Open Scope Z_scope.

Definition kv_put (c : Z) (k v : string) (t t' : Z) : kvop :=
  mkOperation c (KIn (mkKvInput 1 k v)) t (KOut (mkKvOutput "")) t'.
Definition kv_get (c : Z) (k v : string) (t t' : Z) : kvop :=
  mkOperation c (KIn (mkKvInput 0 k "")) t (KOut (mkKvOutput v)) t'.

(** [put x a] overlaps [get x], which may see either value. *)
Definition good_ops : list kvop :=
  [kv_put 0 "x" "a" 0 10; kv_get 1 "x" "" 2 6; kv_get 2 "x" "a" 3 8; kv_put 1 "y" "b" 7 9].

(** [get x] sees the old value after another client saw the new one. *)
Definition stale_ops : list kvop :=
  [kv_put 0 "x" "a" 0 10; kv_get 1 "x" "a" 2 4; kv_get 2 "x" "" 5 8].

Notation sortEntries := (go_sort byTime_Less).
Notation kvmodel := (KvModel id (go_sort string_less)).
Notation fkvmodel := (fillDefault (fun _ => "") id kvmodel).
Definition run_kv (ops : list kvop) (ixs : list nat) : go bool :=
  CheckOperations (fun _ => "") id id sortEntries 100 kvmodel ops (Result <$> ixs) (fun _ _ => false).

Example run_good : run_kv good_ops [1; 0]%nat = Done true.
Proof. vm_compute. reflexivity. Qed.
Example run_stale : run_kv stale_ops [0]%nat = Done false.
Proof. vm_compute. reflexivity. Qed.

Lemma good_history : kv_history good_ops.
Proof.
  split; [| |done].
  - repeat constructor; eexists _, _; done.
  - split.
    + intros op. unfold good_ops. set_unfold. intros; destruct_or?; subst; done.
    + intros a b. unfold good_ops. set_unfold. intros; destruct_or?; subst; done.
Qed.

(** The operations on [x], as the entries that [checkSingle] receives. *)
Definition x_ops : list kvop := on_key "x" good_ops.
Definition x_entries : list (entry kvval) := makeEntries sortEntries x_ops.

Lemma x_checkable : checkable x_entries.
Proof.
  destruct (kv_checkable id (go_sort string_less) "x" good_ops good_history) as [[? ?] ? ?].
  by apply (makeEntries_checkable sortEntries x_ops).
Qed.

Lemma x_steps : steps_defined fkvmodel x_entries.
Proof.
  destruct (kv_checkable id (go_sort string_less) "x" good_ops good_history) as [[? ?] ? ?].
  by apply (makeEntries_steps sortEntries fkvmodel x_ops).
Qed.

Definition x_verdict : verdict :=
  match checkSingle fkvmodel true 100 not_killed x_entries with
  | Done v => v
  | _ => mkVerdict false [] []
  end.

Lemma checkSingle_correct_witness :
  ∃ fuel v, checkSingle fkvmodel true fuel not_killed x_entries = Done v ∧
    (v_ok v = true ↔ linearizable fkvmodel x_entries).
Proof. exact (checkSingle_correct fkvmodel ShallowEqual true x_entries x_checkable x_steps). Defined.

Lemma checkSingle_killed_sound_witness : linearizable fkvmodel x_entries.
Proof.
  eapply (checkSingle_killed_sound fkvmodel ShallowEqual true x_entries 100 (fun k => bool_decide (k = 50%nat)));
    [exact x_checkable|exact x_steps|vm_compute; reflexivity|reflexivity].
Defined.

Lemma checkSingle_partials_witness :
  ∃ τ, partial_linearization fkvmodel x_entries τ.
Proof.
  edestruct (checkSingle_partials fkvmodel ShallowEqual true x_entries 100 x_verdict 0 1)
    as (τ & _ & Hτ & _); [exact x_checkable|exact x_steps|vm_compute; reflexivity|reflexivity|].
  exists τ. exact Hτ.
Defined.

Lemma checkParallel_sound_witness : linearizable fkvmodel x_entries.
Proof.
  eapply (checkParallel_sound id 100 fkvmodel [x_entries; x_entries] false ShallowEqual 0
    [Result 1; Result 0] (fun _ _ => false) Ok (mkInfo [] [])).
  - exact (KvModel_lawful _ _ _ _).
  - intros h Hh. assert (h = x_entries) as -> by set_solver.
    split; [exact x_checkable|exact x_steps].
  - vm_compute. repeat constructor; set_solver.
  - vm_compute. reflexivity.
  - reflexivity.
  - left.
Defined.

Lemma checkParallel_empty_witness :
  checkParallel id 100 fkvmodel [] false 0 [TimeoutFires] (fun _ _ => false) = Stuck.
Proof. apply (checkParallel_empty_blocks id 100 fkvmodel). reflexivity. Defined.

Lemma CheckOperations_kv_witness :
  ∃ fuel b, CheckOperations (fun _ => "") id id sortEntries fuel kvmodel good_ops
    (Result <$> [1; 0]%nat) (fun _ _ => false) = Done b ∧ (b = true ↔ store_linearizable good_ops).
Proof.
  eapply (CheckOperations_kv (fun _ => "") id id sortEntries id (go_sort string_less)).
  - exact (fun l => reflexivity l).
  - exact (fun l => reflexivity l).
  - exact good_history.
  - discriminate.
  - vm_compute. reflexivity.
  - cbn. apply perm_swap.
Defined.

(** ** Events *)

(** A put and a get that overlap, recorded under the ids 7 and 3. *)
Definition x_events : list (Event kvval) :=
  [mkEvent 0 CallEvent (KIn (mkKvInput 1 "x" "a")) 7; mkEvent 1 CallEvent (KIn (mkKvInput 0 "x" "")) 3;
   mkEvent 1 ReturnEvent (KOut (mkKvOutput "a")) 3; mkEvent 0 ReturnEvent (KOut (mkKvOutput "")) 7].

Lemma x_events_wf : wf_events x_events.
Proof.
  apply wf_by_position.
  - vm_compute. repeat constructor; set_solver.
  - intros [|[|[|[|i]]]] e [= <-] He; try discriminate He.
    + exists 3%nat. eexists. split; [lia|]. split; [reflexivity|]. split; reflexivity.
    + exists 2%nat. eexists. split; [lia|]. split; [reflexivity|]. split; reflexivity.
  - intros [|[|[|[|i]]]] e [= <-] He; try discriminate He.
    + exists 1%nat. eexists. split; [lia|]. split; [reflexivity|]. split; reflexivity.
    + exists 0%nat. eexists. split; [lia|]. split; [reflexivity|]. split; reflexivity.
Qed.

Lemma x_events_checkable : ev_checkable kvmodel x_events.
Proof.
  split; [exact x_events_wf|reflexivity|]. intros c r s Hc Hr.
  repeat (apply elem_of_cons in Hc as [->|Hc]); [..|by apply not_elem_of_nil in Hc];
    repeat (apply elem_of_cons in Hr as [->|Hr]); try by apply not_elem_of_nil in Hr.
  all: cbn; intros; try discriminate; eexists _, _; reflexivity.
Qed.


Example run_events :
  fst <$> checkEvents (fun _ => "") id id 100 kvmodel x_events false 0 [Result 0] (fun _ _ => false) = Done Ok.
Proof. vm_compute. reflexivity. Qed.

(** ** Displaying the result *)

Definition x_info : linearizationInfo kvval :=
  match checkParallel id 100 fkvmodel [x_entries] true 0 [Result 0] (fun _ _ => false) with
  | Done (_, info) => info
  | _ => mkInfo [] []
  end.

(** Every entry of the history is a call with an input or a return with an
    output. *)
Lemma x_described j i o : op_values x_entries j i o → ∃ d, kv_DescribeOperation i o = Done d.
Proof.
  assert (Forall (fun e => match e_value e with KIn _ => is_call e | KOut _ => is_ret e | KNil => False end) x_entries) as Hf.
  { vm_compute. repeat constructor. }
  rewrite Forall_forall in Hf. intros (e & e' & He & Hc & _ & <- & He' & Hr & _ & <-).
  apply Hf in He, He'. unfold is_call, is_ret in *. destruct (e_value e), (e_value e'); try done; try congruence.
  by eexists.
Qed.

Lemma visualization_witness :
  ∃ data, computeVisualizationData (fun _ => "") id (go_sort longer) kvmodel x_info = Done data ∧
    length data = 1%nat.
Proof.
  edestruct (visualization_faithful (fun _ => "") id (go_sort longer) kvmodel ShallowEqual id 100
    [x_entries] 0 [Result 0] (fun _ _ => false) Ok x_info) as (data & H1 & H2 & _).
  - exact _.
  - exact (KvModel_lawful _ _ _ _).
  - exact (fun l => reflexivity l).
  - intros h Hh. assert (h = x_entries) as -> by set_solver. split; [exact x_checkable|exact x_steps].
  - vm_compute. repeat constructor; set_solver.
  - set_solver.
  - reflexivity.
  - reflexivity.
  - intros h j i o Hh. assert (h = x_entries) as -> by set_solver. apply x_described.
  - vm_compute. reflexivity.
  - exists data. split; [exact H1|exact H2].
Defined.
