(* ===== verification/PageExamples.v ===== *)
(** * The page on small examples *)

From Stdlib Require Import QArith Qminmax.
From stdpp Require Import pretty.
From S2P Require Import Prelude PorcupineModel Linearizability CheckSingle CheckSearch CheckerCorrect OpHistory.
From S2P Require Import PorcupineCheck EventHistory KvModel Visualization PorcupineExamples.
From S2P Require Import Page PageLayout PageData PageCorrect PageDraw PagePicture PageUi PageUiCorrect PageApp PageVerdict.
Local Open Scope Z_scope.

(** ** An implementation of the last sort *)

Definition num_of (n : num) : Q := match n with Num q => q | NaN => 0%Q end.
Definition point_less (a b : errorPoint) : bool := negb (Qle_bool (num_of (ep_x b)) (num_of (ep_x a))).

#[export] Instance point_less_order : LessOrder point_less.
Proof.
  unfold point_less. split; intros *; rewrite !negb_false_iff, !Qle_bool_iff.
  - apply Qle_trans.
  - destruct (Qlt_le_dec (num_of (ep_x x)) (num_of (ep_x y))) as [H%Qlt_le_weak|H]; auto.
Qed.

#[export] Instance go_sort_PointSort : PointSort (go_sort point_less).
Proof.
  split; [apply (sort_perm (less:=point_less))|]. intros l Hl.
  pose proof (sort_sorted (less:=point_less) l) as Hs.
  assert (Forall (fun e => is_num (ep_x e)) (go_sort point_less l)) as Hl' by (by rewrite (sort_perm (less:=point_less))).
  clear Hl. induction Hs as [|e l' Hs IH Hf]; [constructor|]. apply Forall_cons in Hl' as [[q Hq] Hl'].
  constructor; [by apply IH|]. apply Forall_forall. intros e' He'. rewrite Forall_forall in Hf, Hl'.
  specialize (Hf e' He'). destruct (Hl' e' He') as [q' Hq']. rewrite Hq, Hq'. unfold point_less in Hf.
  rewrite Hq, Hq' in Hf. cbn in *. apply negb_false_iff, Qle_bool_iff in Hf. done.
Qed.

(** ** A history that is not linearizable

    Client 0 and client 1 overlap; the third operation starts at the very
    instant the second one returns, and cannot follow. *)

Definition ex_data : list partitionVisualizationData :=
  [mkVisualization
     [mkHistoryElement 0 0 10 "put"; mkHistoryElement 1 5 20 "get"; mkHistoryElement 0 20 30 "bad"]
     [[mkLinearizationStep 0 "x"; mkLinearizationStep 1 "x"]]
     {[ 0 := 0; 1 := 0 ]}].

Definition ex_width (_ : string) : Q := 30.

Lemma ex_showable : Forall showable ex_data.
Proof.
  constructor; [split; cbn [ex_data History PartialLinearizations]|constructor].
  - intros x. rewrite !elem_of_cons, elem_of_nil. naive_solver lia.
  - intros lin. rewrite elem_of_cons, elem_of_nil. naive_solver.
  - intros lin id. rewrite elem_of_cons, elem_of_nil. intros [->|[]]. rewrite !elem_of_cons, elem_of_nil.
    intros [->|[->|[]]]; cbn; unfold zlen; cbn; lia.
  - intros lin a b id id' x x'. rewrite elem_of_cons, elem_of_nil. intros [->|[]] Hab.
    destruct a as [|[|a]], b as [|[|b]]; try lia; try done; intros [= <-] [= <-] [= <-] [= <-]; done.
  - intros lin id j x x'. rewrite elem_of_cons, elem_of_nil. intros [->|[]]. rewrite !elem_of_cons, elem_of_nil.
    intros Hid Hj. destruct j as [|[|[|j]]]; cbn in *; [set_solver|set_solver| |done].
    destruct Hid as [->|[->|[]]]; intros [= <-] [= <-]; done.
Qed.

Lemma ex_navigable : Forall navigable ex_data.
Proof.
  constructor; [split; cbn [ex_data Largest PartialLinearizations]|constructor].
  - intros j i. rewrite lookup_insert_Some, lookup_singleton_Some. unfold zlen. cbn. naive_solver lia.
  - intros lin id. cbn. intros [= <-]. rewrite !elem_of_cons, elem_of_nil. intros [->|[->|[]]]; reflexivity.
Qed.

(** The positions on the page; timestamps are doubled, and 50 is the repaired
    end of the second operation. *)
Example ex_positions :
  (sv ← solve (go_sort ts_less) (go_sort event_less) ex_width ex_data;
   Done (sv_sorted sv, (fun t => match sv_xPos sv !! t with Some (Num q) => Qred q | _ => (-1)%Q end) <$> sv_sorted sv)) =
  Done ([0; 10; 20; 40; 50; 60], [0; 20; 50; 70; 90; 120]%Q).
Proof. vm_compute. reflexivity. Qed.

Lemma layout_optimal_witness :
  ∃ sv, solve (go_sort ts_less) (go_sort event_less) ex_width ex_data = Done sv ∧
    fits ex_width (sv_page sv) (sv_sorted sv) (x_of (sv_xPos sv)).
Proof.
  destruct (layout_optimal (go_sort ts_less) (go_sort event_less) ex_width ex_data _ _ ex_showable)
    as (sv & H1 & _ & H2 & _). exists sv. split; [exact H1|exact H2].
Defined.

Definition show_int (z : Z) : string := pretty z.

(** The timestamps of the example are integers. *)
Definition show_time (z : Z) : string := pretty (z / 2).

Lemma picture_faithful_witness :
  ∃ sv pic, solve (go_sort ts_less) (go_sort event_less) ex_width ex_data = Done sv ∧
    draw show_int (go_sort point_less) ex_data sv = Done pic.
Proof.
  destruct (picture_faithful (go_sort ts_less) (go_sort event_less) ex_width show_int (go_sort point_less) ex_data _ _ ex_showable)
    as (sv & pic & H1 & H2 & _). exists sv, pic. split; [exact H1|exact H2].
Defined.



(** The page of the example, used: the link leads to the red point in the
    third box and selects the second operation, the last one linearized; the
    tooltip of the third operation says that it is invalid; a click on the
    background shows everything again. *)
Definition ex_run (l : list action) : go (bool * Z * Z * list (list bool) * bool * string) :=
  sv ← solve (go_sort ts_less) (go_sort event_less) ex_width ex_data;
  pic ← draw show_int (go_sort point_less) ex_data sv;
  s ← init_ui (sv_page sv) pic;
  s ← foldl (fun s a => s ← s; act (sv_page sv) pic show_time s a) (Done s) l;
  Done (selected s, (selectedIndex s).1, (selectedIndex s).2, rectSelected s, jumpActive s, tipHtml s).

Example ex_jump : ex_run [JumpClick] = Done (true, 0, 1, [[false; true; false]], true, "").
Proof. vm_compute. reflexivity. Qed.

Example ex_tip :
  ex_run [JumpClick; MouseOver 0 2; MouseMove 0 2 5 5] =
  Done (true, 0, 1, [[false; true; false]], true,
    "<strong>Previous state:</strong><br>x<br><br><strong>New state:</strong><br>&langle;invalid op&rangle;<br><br>Call: 20<br><br>Return: 30").
Proof. vm_compute. reflexivity. Qed.

Example ex_deselect :
  ex_run [JumpClick; BgClick] = Done (false, 0, 1, [[false; false; false]], true, "").
Proof. vm_compute. reflexivity. Qed.

(** ** The page of a verdict *)

Definition x_verbose : go (CheckResult * linearizationInfo kvval) :=
  CheckOperationsVerbose (fun _ => "") id id sortEntries 100 kvmodel good_ops 0 [Result 1; Result 0] (fun _ _ => false).

Definition good_info : linearizationInfo kvval :=
  match x_verbose with Done (_, info) => info | _ => mkInfo [] [] end.


(** ** An operation that takes no time

    An operation whose call and return are both at the last timestamp: the
    repair finds no later timestamp to average with, the scan reads the
    position of the start before it has one, and the page is drawn with
    coordinates that are not numbers. *)
Definition instant_data : list partitionVisualizationData :=
  [mkVisualization [mkHistoryElement 0 0 10 "put"; mkHistoryElement 1 10 10 "get"] [] ∅].

Theorem instant_event_not_a_number :
  ∃ sv pic, solve (go_sort ts_less) (go_sort event_less) ex_width instant_data = Done sv ∧
    draw show_int (go_sort point_less) instant_data sv = Done pic ∧ xpos (sv_xPos sv) 20 = NaN ∧ pc_width pic = NaN.
Proof. eexists _, _. split; [vm_compute; reflexivity|]. split; [vm_compute; reflexivity|]. split; vm_compute; reflexivity. Qed.

(** A partial linearization without a step, which the checker does not
    report, would make the script read a property of [null]. *)
Example empty_linearization_throws :
  (sv ← solve (go_sort ts_less) (go_sort event_less) ex_width [mkVisualization [mkHistoryElement 0 0 10 "put"] [[]] ∅];
   draw show_int (go_sort point_less) [mkVisualization [mkHistoryElement 0 0 10 "put"] [[]] ∅] sv) = Panic.
Proof. vm_compute. reflexivity. Qed.
