(* ===== verification/Gob.v ===== *)
(** * Encoding values into bytes

    [encoding/gob], as the repository uses it through [labgob]: an encoder
    appends the encoding of a value to a buffer, a decoder takes one value
    off the front of a buffer.  [Gob] is the interface the other components
    rely on; [countable_gob] is an implementation of it, for any countable
    type. *)

From S2P Require Import Prelude.
From Stdlib Require Export Strings.Byte.

Notation bytes := (list byte).

Class GobCodec (A : Type) := {
  gob_encode : A → bytes;
  gob_decode : bytes → option A * bytes;
}.

(** [gob_decode] returns what is left of the buffer, on failure too.

    What is written can be read back, whatever follows it, and takes space. *)
Class Gob (A : Type) `{!GobCodec A} : Prop := {
  gob_roundtrip : ∀ (x : A) rest, gob_decode (gob_encode x ++ rest) = (Some x, rest);
  gob_nonempty : ∀ x : A, gob_encode x ≠ [];
}.

(** ** An implementation *)

Fixpoint put_positive (p : positive) : bytes :=
  match p with
  | xH => [x02]
  | xO p => x00 :: put_positive p
  | xI p => x01 :: put_positive p
  end.

Fixpoint get_positive (b : bytes) : option (positive * bytes) :=
  match b with
  | x02 :: b => Some (xH, b)
  | x00 :: b => '(p, r) ← get_positive b; Some (xO p, r)
  | x01 :: b => '(p, r) ← get_positive b; Some (xI p, r)
  | _ => None
  end.

Lemma get_put_positive p rest : get_positive (put_positive p ++ rest) = Some (p, rest).
Proof. induction p as [p IH|p IH|]; cbn; rewrite ?IH; done. Qed.

Section countable.
Context (A : Type) `{Countable A}.

Definition countable_codec : GobCodec A := {|
  gob_encode x := put_positive (encode x);
  gob_decode b := match get_positive b with
                  | Some (p, r) => (decode p, r)
                  | None => (None, [])
                  end;
|}.

Lemma countable_gob : @Gob A countable_codec.
Proof.
  split; cbn.
  - intros x rest. by rewrite get_put_positive, decode_encode.
  - intros x. by destruct (encode x).
Qed.

End countable.
