(* ===== verification/RaftNode.v ===== *)
(** * A Raft server ([labs/src/raft/raft.go], [persister.go])

    The state of one server and its code, one definition per critical
    section: every method takes the lock once or twice, and what it does
    while it holds the lock is one function on the state.  [go] values make
    the panics (indexing the log out of range) explicit.  Requests started
    with [go rf.send...] are returned as lists of messages to send.

    Go's [int]s are modelled as unbounded integers; terms, indexes and vote
    counts stay far below 2^63. *)

From S2P Require Import Prelude Gob.
Local Open Scope Z_scope.

(** ** Persister *)

Module Persister.

Record t := mk { raftstate : bytes; snapshot : bytes }.

Definition MakePersister : t := mk [] [].
Definition Copy (ps : t) : t := mk (raftstate ps) (snapshot ps).
Definition SaveRaftState (ps : t) (state : bytes) : t := mk state (snapshot ps).
Definition ReadRaftState (ps : t) : bytes := raftstate ps.
Definition RaftStateSize (ps : t) : Z := zlen (raftstate ps).
Definition SaveStateAndSnapshot (ps : t) (state snapshot : bytes) : t := mk state snapshot.
Definition ReadSnapshot (ps : t) : bytes := snapshot ps.
Definition SnapshotSize (ps : t) : Z := zlen (snapshot ps).

End Persister.

(** ** Data *)

Inductive role := LEADER | CANDIDATE | FOLLOWER.
#[export] Instance role_eq_dec : EqDecision role.
Proof. solve_decision. Defined.

Definition ELECTION_TIMEOUT_MIN : Z := 300.
Definition ELECTION_TIMEOUT_MAX : Z := 500.

Section raft.
Context {C : Type} `{!Inhabited C}.

Record ApplyMsg := mkApplyMsg { CommandValid : bool; am_Command : C; CommandIndex : Z }.

Record Log := mkLog { Term : Z; Command : C }.

Record Raft := mkRaft {
  peers : nat;
  persister : Persister.t;
  me : Z;
  dead : bool;
  state : role;
  currentTerm : Z;
  votedFor : Z;
  log : list Log;
  commitIndex : Z;
  lastApplied : Z;
  nextIndex : list Z;
  matchIndex : list Z;
  electionTimeout : Z;
  lastHeard : Z;
  voteCount : Z;
}.

Record RequestVoteArgs := mkRVArgs {
  rva_Term : Z; CandidateID : Z; LastLogIndex : Z; LastLogTerm : Z }.
Record RequestVoteReply := mkRVReply { rvr_Term : Z; VoteGranted : bool }.
Record AppendEntriesArgs := mkAEArgs {
  aea_Term : Z; LeaderID : Z; PrevLogIndex : Z; PrevLogTerm : Z;
  Entries : list Log; LeaderCommit : Z }.
Record AppendEntriesReply := mkAEReply {
  aer_Term : Z; Success : bool; ConflictTerm : Z; ConflictIndex : Z; LogLen : Z }.

(** The zero value of a reply. *)
Definition noReply : AppendEntriesReply := mkAEReply 0 false 0 0 0.

(** ** Field assignments *)

Definition set_persister (ps : Persister.t) (rf : Raft) : Raft :=
  mkRaft (peers rf) ps (me rf) (dead rf) (state rf) (currentTerm rf) (votedFor rf) (log rf)
    (commitIndex rf) (lastApplied rf) (nextIndex rf) (matchIndex rf) (electionTimeout rf)
    (lastHeard rf) (voteCount rf).
Definition set_dead (d : bool) (rf : Raft) : Raft :=
  mkRaft (peers rf) (persister rf) (me rf) d (state rf) (currentTerm rf) (votedFor rf) (log rf)
    (commitIndex rf) (lastApplied rf) (nextIndex rf) (matchIndex rf) (electionTimeout rf)
    (lastHeard rf) (voteCount rf).
Definition set_state (s : role) (rf : Raft) : Raft :=
  mkRaft (peers rf) (persister rf) (me rf) (dead rf) s (currentTerm rf) (votedFor rf) (log rf)
    (commitIndex rf) (lastApplied rf) (nextIndex rf) (matchIndex rf) (electionTimeout rf)
    (lastHeard rf) (voteCount rf).
Definition set_currentTerm (t : Z) (rf : Raft) : Raft :=
  mkRaft (peers rf) (persister rf) (me rf) (dead rf) (state rf) t (votedFor rf) (log rf)
    (commitIndex rf) (lastApplied rf) (nextIndex rf) (matchIndex rf) (electionTimeout rf)
    (lastHeard rf) (voteCount rf).
Definition set_votedFor (v : Z) (rf : Raft) : Raft :=
  mkRaft (peers rf) (persister rf) (me rf) (dead rf) (state rf) (currentTerm rf) v (log rf)
    (commitIndex rf) (lastApplied rf) (nextIndex rf) (matchIndex rf) (electionTimeout rf)
    (lastHeard rf) (voteCount rf).
Definition set_log (l : list Log) (rf : Raft) : Raft :=
  mkRaft (peers rf) (persister rf) (me rf) (dead rf) (state rf) (currentTerm rf) (votedFor rf) l
    (commitIndex rf) (lastApplied rf) (nextIndex rf) (matchIndex rf) (electionTimeout rf)
    (lastHeard rf) (voteCount rf).
Definition set_commitIndex (n : Z) (rf : Raft) : Raft :=
  mkRaft (peers rf) (persister rf) (me rf) (dead rf) (state rf) (currentTerm rf) (votedFor rf)
    (log rf) n (lastApplied rf) (nextIndex rf) (matchIndex rf) (electionTimeout rf)
    (lastHeard rf) (voteCount rf).
Definition set_lastApplied (n : Z) (rf : Raft) : Raft :=
  mkRaft (peers rf) (persister rf) (me rf) (dead rf) (state rf) (currentTerm rf) (votedFor rf)
    (log rf) (commitIndex rf) n (nextIndex rf) (matchIndex rf) (electionTimeout rf)
    (lastHeard rf) (voteCount rf).
Definition set_indexes (next mtch : list Z) (rf : Raft) : Raft :=
  mkRaft (peers rf) (persister rf) (me rf) (dead rf) (state rf) (currentTerm rf) (votedFor rf)
    (log rf) (commitIndex rf) (lastApplied rf) next mtch (electionTimeout rf)
    (lastHeard rf) (voteCount rf).
Definition set_timer (timeout heard : Z) (rf : Raft) : Raft :=
  mkRaft (peers rf) (persister rf) (me rf) (dead rf) (state rf) (currentTerm rf) (votedFor rf)
    (log rf) (commitIndex rf) (lastApplied rf) (nextIndex rf) (matchIndex rf) timeout
    heard (voteCount rf).
Definition set_voteCount (n : Z) (rf : Raft) : Raft :=
  mkRaft (peers rf) (persister rf) (me rf) (dead rf) (state rf) (currentTerm rf) (votedFor rf)
    (log rf) (commitIndex rf) (lastApplied rf) (nextIndex rf) (matchIndex rf) (electionTimeout rf)
    (lastHeard rf) n.

(** ** Stable storage *)

Context `{!GobCodec Z, !GobCodec (list Log)}.

Definition persist (rf : Raft) : Raft :=
  let data := gob_encode (currentTerm rf) ++ gob_encode (votedFor rf) ++ gob_encode (log rf) in
  set_persister (Persister.SaveRaftState (persister rf) data) rf.

(** One evaluation of the condition of the [for] loop of [readPersist], and
    what is left of the buffer. *)
Definition decode_state (data : bytes) : option (Z * Z * list Log) * bytes :=
  match gob_decode data with
  | (None, r) => (None, r)
  | (Some term, r) =>
      match gob_decode r with
      | (None, r) => (None, r)
      | (Some voted, r) =>
          match gob_decode r with
          | (None, r) => (None, r)
          | (Some l, r) => (Some (term, voted, l), r)
          end
      end
  end.

(** [retries] more failures are tolerated. *)
Fixpoint decode_loop (retries : nat) (data : bytes) : go (Z * Z * list Log) :=
  match decode_state data with
  | (Some x, _) => Done x
  | (None, r) => match retries with
                 | O => Panic
                 | Datatypes.S retries => decode_loop retries r
                 end
  end.

Definition readPersist (rf : Raft) (data : bytes) : go Raft :=
  if bool_decide (data = []) then Done rf
  else
    '(term, voted, l) ← decode_loop 5 data;
    Done (set_log l (set_votedFor voted (set_currentTerm term rf))).

(** ** Small methods *)

Definition GetState (rf : Raft) : Z * bool :=
  (currentTerm rf, bool_decide (state rf = LEADER)).

(** [interval] is what [rand.Intn] returned plus the minimum; [now] the clock. *)
Definition resetTimer (interval now : Z) (rf : Raft) : Raft := set_timer interval now rf.

Definition Kill (rf : Raft) : Raft := set_dead true rf.
Definition killed (rf : Raft) : bool := dead rf.

Definition min (x y : Z) : Z := if bool_decide (x < y) then x else y.

(** [rf.log[i].Term] *)
Definition termAt (l : list Log) (i : Z) : go Z := e ← idx l i; Done (Term e).

(** ** Election *)

(** The election timer of a server: is it time for an election? *)
Definition timerFires (rf : Raft) (now : Z) : bool :=
  bool_decide (lastHeard rf + electionTimeout rf < now).

(** The other peers. *)
Definition others (rf : Raft) : list Z :=
  filter (fun i => i ≠ me rf) (seqZ 0 (Z.of_nat (peers rf))).

(** [candidate], up to the start of the goroutines that ask for votes. *)
Definition candidate_start (rf : Raft) : go (Raft * list (Z * RequestVoteArgs)) :=
  let rf := set_currentTerm (currentTerm rf + 1) rf in
  let rf := set_state CANDIDATE rf in
  let rf := set_votedFor (me rf) rf in
  let rf := persist rf in
  let rf := set_voteCount 1 rf in
  let lastLogIndex := zlen (log rf) - 1 in
  lastLogTerm ← termAt (log rf) lastLogIndex;
  let args := mkRVArgs (currentTerm rf) (me rf) lastLogIndex lastLogTerm in
  Done (rf, (fun i => (i, args)) <$> others rf).

(** One round of the polling loop of [candidate], started in term [term]. *)
Inductive poll := BecomeLeader | BecomeFollower | GiveUp | KeepWaiting | Exit.

Definition candidate_poll (rf : Raft) (term : Z) : poll :=
  if killed rf then Exit
  else if bool_decide (voteCount rf > Z.of_nat (peers rf) / 2) then BecomeLeader
  else if bool_decide (state rf = FOLLOWER) then BecomeFollower
  else if bool_decide (currentTerm rf > term) then GiveUp
  else KeepWaiting.

(** Handler; the flag says whether [resetTimer] follows. *)
Definition RequestVote (rf : Raft) (args : RequestVoteArgs)
    : go (Raft * RequestVoteReply * bool) :=
  if bool_decide (rva_Term args < currentTerm rf) then
    Done (rf, mkRVReply (currentTerm rf) false, false)
  else
    let rf := if bool_decide (rva_Term args > currentTerm rf)
              then persist (set_votedFor (-1) (set_state FOLLOWER (set_currentTerm (rva_Term args) rf)))
              else rf in
    if bool_decide (votedFor rf ≠ -1) then
      Done (rf, mkRVReply (currentTerm rf) false, false)
    else
      lastTerm ← termAt (log rf) (zlen (log rf) - 1);
      if bool_decide (LastLogTerm args < lastTerm) ||
         (bool_decide (LastLogTerm args = lastTerm) &&
          bool_decide (LastLogIndex args < zlen (log rf) - 1)) then
        Done (rf, mkRVReply (currentTerm rf) false, false)
      else
        Done (set_votedFor (CandidateID args) rf, mkRVReply (currentTerm rf) true, true).

(** What [sendRequestVote] does with a reply. *)
Definition sendRequestVote_reply (rf : Raft) (args : RequestVoteArgs) (reply : RequestVoteReply)
    : Raft :=
  if bool_decide (rvr_Term reply ≠ rva_Term args) then rf
  else if bool_decide (rvr_Term reply > currentTerm rf) then
    set_state FOLLOWER (persist (set_currentTerm (rvr_Term reply) rf))
  else if VoteGranted reply then set_voteCount (voteCount rf + 1) rf
  else rf.

(** ** Log replication: the follower *)

(** First critical section of [AppendEntries]: [Some reply] when it returns. *)
Definition AppendEntries_term (rf : Raft) (args : AppendEntriesArgs)
    : Raft * option AppendEntriesReply :=
  if bool_decide (aea_Term args < currentTerm rf) then
    (rf, Some (mkAEReply (currentTerm rf) false 0 0 0))
  else if bool_decide (aea_Term args > currentTerm rf) then
    (persist (set_votedFor (-1) (set_state FOLLOWER (set_currentTerm (aea_Term args) rf))), None)
  else (rf, None).

(** The loop that looks for the first index of the conflicting term. *)
Fixpoint conflict_loop (l : list Log) (conflictTerm : Z) (i : nat) : go Z :=
  match i with
  | O => Done 0
  | Datatypes.S i' =>
      t ← termAt l (Z.of_nat i');
      if bool_decide (t ≠ conflictTerm) then Done (Z.of_nat i)
      else conflict_loop l conflictTerm i'
  end.

(** The loop that looks for the first entry that the log does not have: the
    log cut there, and the entries still to append. *)
Fixpoint merge_loop (l : list Log) (prev : Z) (i : Z) (entries : list Log)
    : go (option (list Log * list Log)) :=
  match entries with
  | [] => Done None
  | e :: rest =>
      if bool_decide (zlen l - 1 < prev + i + 1) then
        Done (Some (take (Z.to_nat (prev + i + 1)) l, entries))
      else
        t ← termAt l (prev + i + 1);
        if bool_decide (Term e ≠ t) then
          Done (Some (take (Z.to_nat (prev + i + 1)) l, entries))
        else merge_loop l prev (i + 1) rest
  end.

(** Second critical section of [AppendEntries]. *)
Definition AppendEntries_log (rf : Raft) (args : AppendEntriesArgs)
    : go (Raft * AppendEntriesReply) :=
  if bool_decide (zlen (log rf) - 1 < PrevLogIndex args) then
    Done (rf, mkAEReply (currentTerm rf) false 0 0 (zlen (log rf) - 1))
  else
    t ← termAt (log rf) (PrevLogIndex args);
    if bool_decide (t ≠ PrevLogTerm args) then
      ci ← conflict_loop (log rf) t (Z.to_nat (PrevLogIndex args));
      Done (rf, mkAEReply (currentTerm rf) false t ci 0)
    else
      let reply := mkAEReply (currentTerm rf) true 0 0 0 in
      if bool_decide (Entries args = []) then Done (rf, reply)
      else
        m ← merge_loop (log rf) (PrevLogIndex args) 0 (Entries args);
        let rf := match m with
                  | Some (kept, new) => set_log (kept ++ new) rf
                  | None => rf
                  end in
        let rf := persist rf in
        let rf := if bool_decide (LeaderCommit args > commitIndex rf)
                  then set_commitIndex
                         (min (LeaderCommit args) (PrevLogIndex args + zlen (Entries args))) rf
                  else rf in
        Done (rf, reply).

(** ** Log replication: the leader *)

Definition leader_init (rf : Raft) : Raft :=
  let rf := set_votedFor (-1) (set_state LEADER rf) in
  set_indexes (replicate (peers rf) (zlen (log rf))) (replicate (peers rf) 0) rf.

(** One round of [startHeartBeat]; [None] when it returns. *)
Definition heartbeat (rf : Raft) : go (option (list (Z * AppendEntriesArgs))) :=
  if killed rf || bool_decide (state rf ≠ LEADER) then Done None
  else
    let prevLogIndex := zlen (log rf) - 1 in
    prevLogTerm ← termAt (log rf) prevLogIndex;
    Done (Some ((fun i => (i, mkAEArgs (currentTerm rf) (me rf) prevLogIndex prevLogTerm []
                                (commitIndex rf))) <$> others rf)).

(** The messages that replicate the log, for the servers from [server] on. *)
Fixpoint replicate_loop (rf : Raft) (server : Z) (next : list Z)
    : go (list (Z * AppendEntriesArgs)) :=
  match next with
  | [] => Done []
  | index :: next =>
      if bool_decide (zlen (log rf) - 1 >= index) then
        t ← termAt (log rf) (index - 1);
        let args := mkAEArgs (currentTerm rf) (me rf) (index - 1) t
                      (drop (Z.to_nat index) (log rf)) (commitIndex rf) in
        msgs ← replicate_loop rf (server + 1) next;
        Done ((server, args) :: msgs)
      else replicate_loop rf (server + 1) next
  end.

Definition matchNum (rf : Raft) (n : Z) : Z :=
  zlen (filter (fun index => index >= n) (matchIndex rf)).

(** The loop from [len(rf.log)-1] down to [commitIndex]: what to commit.
    [k] is the number of rounds left. *)
Fixpoint commit_loop (rf : Raft) (k : nat) (n : Z) : go (option Z) :=
  match k with
  | O => Done None
  | Datatypes.S k =>
      t ← termAt (log rf) n;
      if bool_decide (t ≠ currentTerm rf) then commit_loop rf k (n - 1)
      else if bool_decide (matchNum rf n > Z.of_nat (peers rf) / 2) then Done (Some n)
      else commit_loop rf k (n - 1)
  end.

(** One round of the loop of [leader]; [None] when it returns. *)
Definition leader_round (rf : Raft) : go (option (Raft * list (Z * AppendEntriesArgs))) :=
  if killed rf then Done None
  else if bool_decide (state rf = FOLLOWER) then Done None
  else
    msgs ← replicate_loop rf 0 (nextIndex rf);
    let last := zlen (log rf) - 1 in
    c ← commit_loop rf (Z.to_nat (last - commitIndex rf)) last;
    let rf := match c with Some n => set_commitIndex n rf | None => rf end in
    Done (Some (rf, msgs)).

(** The last index, above 0, at which the log has term [t]. *)
Fixpoint last_of_term (l : list Log) (t : Z) (i : nat) : go (option Z) :=
  match i with
  | O => Done None
  | Datatypes.S i' =>
      t' ← termAt l (Z.of_nat i);
      if bool_decide (t' = t) then Done (Some (Z.of_nat i)) else last_of_term l t i'
  end.

(** What [sendAppendEntries] does with a reply. *)
Definition sendAppendEntries_reply (rf : Raft) (server : Z) (args : AppendEntriesArgs)
    (reply : AppendEntriesReply) : go Raft :=
  if bool_decide (aea_Term args ≠ aer_Term reply) then Done rf
  else if bool_decide (aer_Term reply > currentTerm rf) then
    Done (set_state FOLLOWER (persist (set_currentTerm (aer_Term reply) rf)))
  else if Success reply then
    let m := PrevLogIndex args + zlen (Entries args) in
    match_ ← upd (matchIndex rf) server m;
    next ← upd (nextIndex rf) server (m + 1);
    Done (set_indexes next match_ rf)
  else
    n ← (if bool_decide (ConflictIndex reply = 0) then Done (LogLen reply)
         else
           o ← last_of_term (log rf) (ConflictTerm reply) (Z.to_nat (zlen (log rf) - 1));
           Done (match o with Some i => i + 1 | None => ConflictIndex reply end));
    next ← upd (nextIndex rf) server n;
    Done (set_indexes next (matchIndex rf) rf).

(** ** Clients and the service *)

Definition Start (rf : Raft) (command : C) : Raft * (Z * Z * bool) :=
  if killed rf || bool_decide (state rf ≠ LEADER) then
    (rf, (zlen (log rf), currentTerm rf, false))
  else
    let rf := persist (set_log (log rf ++ [mkLog (currentTerm rf) command]) rf) in
    (rf, (zlen (log rf) - 1, currentTerm rf, true)).

(** The inner loop of [applier]: [k] messages from [lastApplied + 1] on. *)
Fixpoint apply_loop (l : list Log) (k : nat) (lastApplied : Z) : go (list ApplyMsg) :=
  match k with
  | O => Done []
  | Datatypes.S k =>
      e ← idx l (lastApplied + 1);
      msgs ← apply_loop l k (lastApplied + 1);
      Done (mkApplyMsg true (Command e) (lastApplied + 1) :: msgs)
  end.

(** One round of [applier]; [None] when it returns or waits. *)
Definition applier_round (rf : Raft) : go (option (Raft * list ApplyMsg)) :=
  if killed rf then Done None
  else if bool_decide (commitIndex rf <= lastApplied rf) then Done None
  else
    msgs ← apply_loop (log rf) (Z.to_nat (commitIndex rf - lastApplied rf)) (lastApplied rf);
    Done (Some (set_lastApplied (commitIndex rf) rf, msgs)).

Definition Make (n : nat) (id : Z) (ps : Persister.t) (interval now : Z) : go Raft :=
  let rf := mkRaft n ps id false FOLLOWER 0 (-1) [mkLog 0 inhabitant] 0 0
              (replicate n 0) (replicate n 0) 0 0 0 in
  let rf := resetTimer interval now rf in
  readPersist rf (Persister.ReadRaftState ps).

End raft.
Arguments Log _ : clear implicits.
Arguments Raft _ : clear implicits.
Arguments AppendEntriesArgs _ : clear implicits.
Arguments ApplyMsg _ : clear implicits.
