(* ===== verification/RaftSafety.v ===== *)
(** * A Raft server against an arbitrary environment

    The critical sections of [RaftNode], run in any order, with any incoming
    requests and replies: what holds of every such run holds of the server in
    any cluster, whatever the network, the clocks and the other servers do.

    Crash and restart ([ARestart]) throw away everything but the persister. *)

From S2P Require Import Prelude Gob RaftNode.
Local Open Scope Z_scope.

Section node.
Context {C : Type} `{!Inhabited C, !GobCodec Z, !GobCodec (list (Log C))}.
Notation Raft := (Raft C).
Implicit Types (rf : Raft) (l : list (Log C)).

(** ** The critical sections as steps *)

Inductive nact :=
| AResetTimer (interval now : Z)
| ACandidate
| ARequestVote (args : RequestVoteArgs)
| AVoteReply (args : RequestVoteArgs) (reply : RequestVoteReply)
| AAppendTerm (args : AppendEntriesArgs C)
| AAppendLog (args : AppendEntriesArgs C)
| ALeaderInit
| ALeaderRound
| AAppendReply (server : Z) (args : AppendEntriesArgs C) (reply : AppendEntriesReply)
| AStart (command : C)
| AApply
| AKill
| ARestart (interval now : Z).

(** What a step lets the outside see. *)
Inductive nout :=
| ONone
| OVote (args : RequestVoteArgs) (reply : RequestVoteReply)
| OApplied (msgs : list (ApplyMsg C)).

Definition node_step rf (a : nact) : go (Raft * nout) :=
  match a with
  | AResetTimer interval now => Done (resetTimer interval now rf, ONone)
  | ACandidate => '(rf', _) ← candidate_start rf; Done (rf', ONone)
  | ARequestVote args => '(rf', reply, _) ← RequestVote rf args; Done (rf', OVote args reply)
  | AVoteReply args reply => Done (sendRequestVote_reply rf args reply, ONone)
  | AAppendTerm args => Done ((AppendEntries_term rf args).1, ONone)
  | AAppendLog args => '(rf', _) ← AppendEntries_log rf args; Done (rf', ONone)
  | ALeaderInit => Done (leader_init rf, ONone)
  | ALeaderRound =>
      o ← leader_round rf;
      Done (match o with Some (rf', _) => rf' | None => rf end, ONone)
  | AAppendReply server args reply =>
      rf' ← sendAppendEntries_reply rf server args reply; Done (rf', ONone)
  | AStart command => Done ((Start rf command).1, ONone)
  | AApply =>
      o ← applier_round rf;
      Done (match o with Some (rf', msgs) => (rf', OApplied msgs) | None => (rf, ONone) end)
  | AKill => Done (Kill rf, ONone)
  | ARestart interval now =>
      rf' ← Make (peers rf) (me rf) (Persister.Copy (persister rf)) interval now; Done (rf', ONone)
  end.

Fixpoint node_run rf (acts : list nact) : go (Raft * list nout) :=
  match acts with
  | [] => Done (rf, [])
  | a :: acts =>
      '(rf1, o) ← node_step rf a;
      '(rf2, os) ← node_run rf1 acts;
      Done (rf2, o :: os)
  end.

(** A server that [Make] created on an empty persister. *)
Definition fresh (n : nat) (id : Z) : Raft :=
  mkRaft n Persister.MakePersister id false FOLLOWER 0 (-1) [mkLog 0 inhabitant] 0 0
    (replicate n 0) (replicate n 0) 0 0 0.

(** The terms and the log as the persister has them. *)
Definition saved_as (ps : Persister.t) (t : Z) l : Prop :=
  (Persister.raftstate ps = [] ∧ t = 0 ∧ l = [mkLog 0 inhabitant]) ∨
  ∃ v : Z, Persister.raftstate ps = gob_encode t ++ gob_encode v ++ gob_encode l.

Definition durable rf : Prop := saved_as (persister rf) (currentTerm rf) (log rf).

(** ** Every section keeps the persister up to date and the term growing *)

Lemma durable_persist rf : durable (persist rf).
Proof. right. by exists (votedFor rf). Qed.

Lemma durable_ext rf rf' :
  persister rf' = persister rf → currentTerm rf' = currentTerm rf → log rf' = log rf →
  durable rf → durable rf'.
Proof. unfold durable. by intros -> -> ->. Qed.

(** [rf'] is as good as [rf] in stable storage, and its term is not smaller. *)
Definition advances rf rf' : Prop :=
  currentTerm rf ≤ currentTerm rf' ∧ (durable rf → durable rf').

Lemma advances_persist rf rf' :
  currentTerm rf ≤ currentTerm rf' → advances rf (persist rf').
Proof. split; [done|]. intros _. apply durable_persist. Qed.

Lemma advances_same rf rf' :
  persister rf' = persister rf → currentTerm rf' = currentTerm rf → log rf' = log rf →
  advances rf rf'.
Proof. intros Hp Ht Hl. split; [lia|]. by apply durable_ext. Qed.

Lemma advances_then rf rf1 rf2 :
  advances rf rf1 → persister rf2 = persister rf1 → currentTerm rf2 = currentTerm rf1 →
  log rf2 = log rf1 → advances rf rf2.
Proof.
  intros [Ht Hd] Hp Ht2 Hl. split; [lia|]. intros H%Hd. by eapply durable_ext.
Qed.

Ltac advance :=
  first
    [ by apply advances_same
    | apply advances_persist; cbn; lia
    | eapply advances_then; [apply advances_persist|..]; cbn; [lia|done|done|done] ].

Lemma RequestVote_advances rf args rf' reply b :
  RequestVote rf args = Done (rf', reply, b) → advances rf rf'.
Proof.
  unfold RequestVote.
  destruct (bool_decide (rva_Term args < currentTerm rf)) eqn:El; [intros [= <- _ _]; advance|].
  apply bool_decide_eq_false in El.
  destruct (bool_decide (rva_Term args > currentTerm rf)) eqn:Eg;
    (destruct (bool_decide (votedFor _ ≠ -1)); [intros [= <- _ _]; advance|]);
    intros H; go_inv H; destruct (_ || _); injection H as <- _ _; advance.
Qed.

Lemma AppendEntries_term_advances rf args : advances rf (AppendEntries_term rf args).1.
Proof. unfold AppendEntries_term. repeat case_bool_decide; cbn; advance. Qed.

Lemma AppendEntries_log_advances rf args rf' reply :
  AppendEntries_log rf args = Done (rf', reply) → advances rf rf'.
Proof.
  unfold AppendEntries_log. case_bool_decide; [intros [= <- <-]; advance|].
  intros H'. go_inv H'. case_bool_decide; [go_inv H'; injection H' as <- <-; advance|].
  case_bool_decide; [injection H' as <- <-; advance|].
  go_inv H'. injection H' as <- <-. destruct a0 as [[kept new]|]; case_bool_decide; advance.
Qed.

Lemma sendRequestVote_advances rf args reply : advances rf (sendRequestVote_reply rf args reply).
Proof.
  unfold sendRequestVote_reply. repeat case_bool_decide; [advance|advance|].
  destruct (VoteGranted reply); advance.
Qed.

Lemma sendAppendEntries_advances rf server args reply rf' :
  sendAppendEntries_reply rf server args reply = Done rf' → advances rf rf'.
Proof.
  unfold sendAppendEntries_reply. case_bool_decide; [intros [= <-]; advance|].
  case_bool_decide; [intros [= <-]; advance|].
  destruct (Success reply); intros H'; do 2 go_inv H'; injection H' as <-; advance.
Qed.

Lemma Start_advances rf c : advances rf (Start rf c).1.
Proof. unfold Start. destruct (_ || _); cbn; advance. Qed.

Lemma leader_round_advances rf rf' msgs :
  leader_round rf = Done (Some (rf', msgs)) → advances rf rf'.
Proof.
  unfold leader_round. destruct (killed rf); [done|]. case_bool_decide; [done|].
  intros H'. do 2 go_inv H'. injection H' as <- <-. destruct a0; advance.
Qed.

Lemma applier_round_advances rf rf' msgs :
  applier_round rf = Done (Some (rf', msgs)) → advances rf rf'.
Proof.
  unfold applier_round. destruct (killed rf); [done|]. case_bool_decide; [done|].
  intros H'. go_inv H'. injection H' as <- <-. advance.
Qed.

(** ** Recovery *)

Context `{!Gob Z, !Gob (list (Log C))}.

Lemma decode_saved t v l : decode_loop 5 (gob_encode t ++ gob_encode v ++ gob_encode l) = Done (t, v, l).
Proof.
  unfold decode_loop, decode_state. rewrite !gob_roundtrip.
  by rewrite <- (app_nil_r (gob_encode l)), gob_roundtrip.
Qed.

Lemma Make_saved n id ps t l interval now :
  saved_as ps t l →
  ∃ v, Make n id ps interval now =
    Done (mkRaft n ps id false FOLLOWER t v l 0 0 (replicate n 0) (replicate n 0) interval now 0).
Proof.
  intros [(E & -> & ->)|[v E]]; unfold Make, readPersist, Persister.ReadRaftState; rewrite E.
  - by exists (-1).
  - exists v. rewrite bool_decide_eq_false_2, decode_saved; [done|].
    intros [H _]%app_nil. by apply gob_nonempty in H.
Qed.

Lemma Copy_id ps : Persister.Copy ps = ps.
Proof. by destruct ps. Qed.

Lemma restart_advances rf interval now rf' :
  durable rf →
  Make (peers rf) (me rf) (Persister.Copy (persister rf)) interval now = Done rf' →
  advances rf rf' ∧ currentTerm rf' = currentTerm rf ∧ log rf' = log rf.
Proof.
  intros Hd Hm. rewrite Copy_id in Hm.
  destruct (Make_saved (peers rf) (me rf) (persister rf) _ _ interval now Hd) as [v Hv].
  rewrite Hv in Hm. injection Hm as <-. cbn. split; [|done]. split; cbn; [lia|done].
Qed.

Lemma node_step_advances rf a rf' o :
  durable rf → node_step rf a = Done (rf', o) → advances rf rf'.
Proof.
  intros Hd. destruct a; cbn [node_step].
  - intros [= <- _]. advance.
  - intros H. go_inv H. destruct a as [rf1 msgs]. injection H as <- _.
    unfold candidate_start in E. go_inv E. injection E as <- _. advance.
  - intros H. go_inv H. destruct a as [[rf1 reply] b]. injection H as <- _.
    by eapply RequestVote_advances.
  - intros [= <- _]. apply sendRequestVote_advances.
  - intros [= <- _]. apply AppendEntries_term_advances.
  - intros H. go_inv H. destruct a as [rf1 reply]. injection H as <- _.
    by eapply AppendEntries_log_advances.
  - intros [= <- _]. advance.
  - intros H. go_inv H. injection H as <- _. destruct a as [[rf1 msgs]|]; [|advance].
    by eapply leader_round_advances.
  - intros H. go_inv H. injection H as <- _. by eapply sendAppendEntries_advances.
  - intros [= <- _]. apply Start_advances.
  - intros H. go_inv H. destruct a as [[rf1 msgs]|]; injection H as <- _; [|advance].
    by eapply applier_round_advances.
  - intros [= <- _]. advance.
  - intros H. go_inv H. injection H as <- _. by eapply restart_advances.
Qed.

Lemma node_run_advances rf acts rf' os :
  durable rf → node_run rf acts = Done (rf', os) → advances rf rf'.
Proof.
  revert rf os. induction acts as [|a acts IH]; intros rf os Hd.
  { intros [= <- _]. by apply advances_same. }
  cbn [node_run]. intros H. go_inv H. destruct a0 as [rf1 o]. go_inv H. destruct a0 as [rf2 os'].
  injection H as <- _. destruct (node_step_advances _ _ _ _ Hd E) as [Ht1 Hd1].
  destruct (IH rf1 os' (Hd1 Hd) E0) as [Ht2 Hd2]. split; [lia|]. auto.
Qed.

Lemma durable_fresh n id : durable (fresh n id).
Proof. by left. Qed.

(** In any run of a server (any requests, replies, timeouts, crashes and
    restarts), the current term never decreases. *)
Theorem term_monotone n id acts1 acts2 rf1 rf2 os1 os2 :
  node_run (fresh n id) acts1 = Done (rf1, os1) → node_run rf1 acts2 = Done (rf2, os2) →
  currentTerm rf1 ≤ currentTerm rf2.
Proof.
  intros H1 H2. apply node_run_advances in H1 as [_ Hd]; [|apply durable_fresh].
  apply node_run_advances in H2 as [Ht _]; [done|]. apply Hd, durable_fresh.
Qed.

(** At any moment of any run, a crash loses neither the term nor the log:
    a server restarted from the persister returns from [Make] without a
    panic and has the current term and the log of the one that crashed. *)
Theorem crash_recovers n id acts rf os interval now :
  node_run (fresh n id) acts = Done (rf, os) →
  ∃ rf', Make (peers rf) (me rf) (Persister.Copy (persister rf)) interval now = Done rf' ∧
    currentTerm rf' = currentTerm rf ∧ log rf' = log rf ∧ state rf' = FOLLOWER ∧
    commitIndex rf' = 0 ∧ lastApplied rf' = 0.
Proof.
  intros H. apply node_run_advances in H as [_ Hd]; [|apply durable_fresh].
  specialize (Hd (durable_fresh n id)).
  destruct (Make_saved (peers rf) (me rf) (Persister.Copy (persister rf)) (currentTerm rf) (log rf)
    interval now) as [v ->]; [by rewrite Copy_id|].
  by eexists.
Qed.

End node.
