(* ===== verification/RaftLog.v ===== *)
(** * Log replication

    What the two sides of [AppendEntries] do to the logs: the follower's
    merge loop computes the reference function [overwrite], its replies point
    at the right place, and a follower that accepts the leader's entries ends
    up with the leader's log. *)

From S2P Require Import Prelude Gob RaftNode.
Local Open Scope Z_scope.

Section log.
Context {C : Type} `{!Inhabited C, !GobCodec Z, !GobCodec (list (Log C))}.
Notation Raft := (Raft C).
Implicit Types (rf : Raft) (l L F M es : list (Log C)) (p : nat).

Lemma termAt_nat l (i : nat) e : l !! i = Some e → termAt l (Z.of_nat i) = Done (Term e).
Proof. intros Hi. unfold termAt. by rewrite (idx_nat _ _ _ Hi). Qed.

(** ** The merge loop *)

(** Reference: put [es] in place of the front of [tail], keeping what already
    agrees in term; entries beyond [es] survive only if nothing conflicts. *)
Fixpoint overwrite (tail es : list (Log C)) {struct es} : list (Log C) :=
  match es, tail with
  | [], _ => tail
  | _, [] => es
  | e :: es', x :: tail' =>
      if bool_decide (Term e = Term x) then x :: overwrite tail' es' else es
  end.

Definition merged l p es : list (Log C) := take (Datatypes.S p) l ++ overwrite (drop (Datatypes.S p) l) es.

Lemma merge_loop_spec l p (i : nat) es :
  (p < length l)%nat →
  ∃ m, merge_loop l (Z.of_nat p) (Z.of_nat i) es = Done m ∧
    match m with Some (kept, new) => kept ++ new | None => l end =
    take (p + i + 1) l ++ overwrite (drop (p + i + 1) l) es.
Proof.
  intros Hp. revert i. induction es as [|e es IH]; intros i; cbn [merge_loop].
  { exists None. split; [done|]. cbn. by rewrite take_drop. }
  assert (Z.of_nat p + Z.of_nat i + 1 = Z.of_nat (p + i + 1)) as -> by lia.
  case_bool_decide as Hl.
  { eexists. split; [done|]. cbn. rewrite Nat2Z.id. f_equal.
    unfold zlen in Hl. rewrite drop_ge by lia. done. }
  destruct (lookup_lt_is_Some_2 l (p + i + 1)) as [x Hx]; [unfold zlen in Hl; lia|].
  rewrite (termAt_nat _ _ _ Hx). go_simpl.
  rewrite (drop_S _ _ _ Hx). cbn [overwrite]. destruct (decide (Term e = Term x)) as [Ht|Ht].
  2: { rewrite bool_decide_eq_true_2, bool_decide_eq_false_2 by done.
       eexists. split; [done|]. cbn. by rewrite Nat2Z.id. }
  - rewrite bool_decide_eq_false_2, bool_decide_eq_true_2 by naive_solver.
    destruct (IH (i + 1)%nat) as (m & Hm & E). rewrite Nat2Z.inj_add in Hm. cbn in Hm.
    exists m. split; [done|]. rewrite E.
    replace (p + (i + 1) + 1)%nat with (Datatypes.S (p + i + 1)) by lia.
    rewrite (take_S_r _ _ _ Hx), <- app_assoc. done.
Qed.

Lemma overwrite_idemp tail es : overwrite (overwrite tail es) es = overwrite tail es.
Proof.
  revert tail. induction es as [|e es IH]; intros tail; [done|].
  assert (overwrite (e :: es) (e :: es) = e :: es) as Hself.
  { clear. induction (e :: es) as [|x k IH]; [done|]. cbn. rewrite bool_decide_eq_true_2 by done.
    by rewrite IH. }
  destruct tail as [|x tail]; [done|]. cbn [overwrite]. case_bool_decide as Ht; [|done].
  cbn [overwrite]. rewrite bool_decide_eq_true_2 by done. by rewrite IH.
Qed.

Lemma merged_idemp l p es : (p < length l)%nat → merged (merged l p es) p es = merged l p es.
Proof.
  intros Hp. unfold merged. assert (length (take (Datatypes.S p) l) = Datatypes.S p) as Hl
    by (rewrite length_take; lia).
  rewrite take_app_length', drop_app_length' by done. by rewrite overwrite_idemp.
Qed.

(** The state after the entries were accepted. *)
Definition accept_entries rf (args : AppendEntriesArgs C) l : Raft :=
  let rf := persist (set_log l rf) in
  if bool_decide (LeaderCommit args > commitIndex rf)
  then set_commitIndex (LeaderCommit args `min` (PrevLogIndex args + zlen (Entries args))) rf
  else rf.

Lemma accept_entries_twice rf args l :
  accept_entries (accept_entries rf args l) args l = accept_entries rf args l.
Proof.
  unfold accept_entries.
  repeat (case_bool_decide; cbn [commitIndex persist set_log set_persister set_commitIndex] in * );
    first [done|lia].
Qed.

Lemma min_Z x y : min x y = x `min` y.
Proof. unfold min. case_bool_decide; lia. Qed.

Lemma set_log_same rf : set_log (log rf) rf = rf.
Proof. by destruct rf. Qed.

Lemma AppendEntries_log_accept rf args p e :
  PrevLogIndex args = Z.of_nat p → log rf !! p = Some e → Term e = PrevLogTerm args →
  Entries args ≠ [] →
  AppendEntries_log rf args =
    Done (accept_entries rf args (merged (log rf) p (Entries args)),
          mkAEReply (currentTerm rf) true 0 0 0).
Proof.
  intros Hp He Ht Hne. pose proof (lookup_lt_Some _ _ _ He) as Hlt.
  unfold AppendEntries_log. rewrite Hp, (termAt_nat _ _ _ He). go_simpl.
  rewrite (bool_decide_eq_false_2 (_ < _)) by len.
  rewrite (bool_decide_eq_false_2 (_ ≠ _)) by tauto.
  rewrite (bool_decide_eq_false_2 (_ = [])) by done.
  destruct (merge_loop_spec (log rf) p 0 (Entries args) Hlt) as (m & Hm & E).
  change (Z.of_nat 0) with 0 in Hm. rewrite Hm. go_simpl. f_equal. f_equal.
  replace (p + 0 + 1)%nat with (Datatypes.S p) in E by lia.
  unfold accept_entries, merged. rewrite <- E, Hp.
  destruct m as [[kept new]|]; cbn; rewrite ?min_Z, ?set_log_same; done.
Qed.

(** ** Log matching *)

(** Two logs that agree on the term at an index agree up to that index. *)
Definition log_matching L F : Prop :=
  ∀ i x y, L !! i = Some x → F !! i = Some y → Term x = Term y →
    take (Datatypes.S i) L = take (Datatypes.S i) F.

Lemma log_matching_sym L F : log_matching L F → log_matching F L.
Proof. intros H i x y Hx Hy Ht. symmetry. by apply (H i y x). Qed.

Lemma overwrite_matching L F p x y :
  log_matching L F → L !! p = Some x → F !! p = Some y → Term x = Term y →
  merged F p (drop (Datatypes.S p) L) = L ∨
  (merged F p (drop (Datatypes.S p) L) = F ∧ L `prefix_of` F).
Proof.
  intros Hlm. unfold merged.
  remember (length L - p)%nat as k eqn:Ek. revert p x y Ek.
  induction k as [|k IH]; intros p x y Ek Hx Hy Ht.
  { apply lookup_lt_Some in Hx. lia. }
  pose proof (Hlm _ _ _ Hx Hy Ht) as Htk.
  destruct (drop (Datatypes.S p) L) as [|e es] eqn:Ed.
  { right. cbn. rewrite take_drop. split; [done|].
    rewrite <- (take_drop (Datatypes.S p) L), Ed, app_nil_r, Htk. apply prefix_take. }
  assert (L !! Datatypes.S p = Some e) as He.
  { rewrite <- (Nat.add_0_r (Datatypes.S p)), <- lookup_drop, Ed. done. }
  assert (drop (Datatypes.S (Datatypes.S p)) L = es) as Ed2.
  { rewrite <- Nat.add_1_r, <- drop_drop, Ed. done. }
  destruct (drop (Datatypes.S p) F) as [|z zs] eqn:Ez.
  { left. cbn. rewrite <- Htk, <- Ed. apply take_drop. }
  assert (F !! Datatypes.S p = Some z) as Hz.
  { rewrite <- (Nat.add_0_r (Datatypes.S p)), <- lookup_drop, Ez. done. }
  assert (drop (Datatypes.S (Datatypes.S p)) F = zs) as Ez2.
  { rewrite <- Nat.add_1_r, <- drop_drop, Ez. done. }
  cbn [overwrite]. case_bool_decide as Hez; [|left; rewrite <- Htk, <- Ed; apply take_drop].
  specialize (IH (Datatypes.S p) e z). rewrite Ed2, Ez2, (take_S_r _ _ _ Hz), <- app_assoc in IH.
  apply IH; [lia|done..].
Qed.

(** C10: a follower that accepts the entries which a leader took off its own
    log, with their predecessor, and whose log matches the leader's, ends up
    with the leader's log as a prefix of its own: either exactly the leader's
    log, or, when nothing conflicts, its own log, of which the leader's is a
    prefix (a delayed message never truncates it).  Log matching with any
    third log is preserved. *)
Theorem AppendEntries_replicates rf args L p x :
  L !! p = Some x →
  PrevLogIndex args = Z.of_nat p → PrevLogTerm args = Term x →
  Entries args = drop (Datatypes.S p) L → Entries args ≠ [] →
  log_matching L (log rf) →
  ∀ rf' reply, AppendEntries_log rf args = Done (rf', reply) → Success reply = true →
    (log rf' = L ∨ (log rf' = log rf ∧ L `prefix_of` log rf)) ∧
    (∀ M, log_matching L M → log_matching (log rf) M → log_matching (log rf') M).
Proof.
  intros Hx Hp Ht Hes Hne Hlm rf' reply Hrun Hok.
  assert (∃ y, log rf !! p = Some y ∧ Term y = Term x) as (y & Hy & Hty).
  { revert Hrun. unfold AppendEntries_log. rewrite Hp. case_on (_ < _) as Hl; [by intros [= _ <-]|].
    destruct (lookup_lt_is_Some_2 (log rf) p) as [y Hy]; [unfold zlen in *; lia|].
    rewrite (termAt_nat _ _ _ Hy). go_simpl. case_on (_ ≠ _) as Hyt.
    - intros H'. go_inv H'. by injection H' as _ <-.
    - intros _. exists y. split; [done|]. rewrite <- Ht. by apply dec_stable. }
  rewrite (AppendEntries_log_accept rf args p y) in Hrun by congruence.
  injection Hrun as <- _.
  assert (log (accept_entries rf args (merged (log rf) p (Entries args))) =
    merged (log rf) p (Entries args)) as ->.
  { unfold accept_entries. by case_bool_decide. }
  rewrite Hes. destruct (overwrite_matching L (log rf) p x y) as [->|[-> Hpre]]; [done..| |].
  - split; [by left|]. auto.
  - split; [by right|]. auto.
Qed.

(** [AppendEntries] is idempotent: when a request that was accepted is
    processed again, the server accepts it again and nothing changes. *)
Theorem AppendEntries_idempotent rf args p e :
  PrevLogIndex args = Z.of_nat p → log rf !! p = Some e → Term e = PrevLogTerm args →
  Entries args ≠ [] →
  ∃ rf' reply, AppendEntries_log rf args = Done (rf', reply) ∧ Success reply = true ∧
    AppendEntries_log rf' args = Done (rf', reply).
Proof.
  intros Hp He Ht Hne. pose proof (lookup_lt_Some _ _ _ He) as Hlt.
  rewrite (AppendEntries_log_accept rf args p e) by done.
  set (rf' := accept_entries rf args (merged (log rf) p (Entries args))).
  assert (log rf' = merged (log rf) p (Entries args)) as Hl.
  { unfold rf', accept_entries. by case_bool_decide. }
  eexists _, _. split; [done|]. split; [done|].
  rewrite (AppendEntries_log_accept rf' args p e); [| |rewrite Hl|done|done].
  - rewrite Hl, merged_idemp by done. f_equal. f_equal.
    + apply accept_entries_twice.
    + f_equal. unfold rf', accept_entries. by case_bool_decide.
  - done.
  - unfold merged. rewrite lookup_app_l by (rewrite length_take; lia).
    by rewrite lookup_take_lt by lia.
Qed.

(** ** Rejections *)

Lemma conflict_loop_spec l c (i : nat) :
  (i ≤ length l)%nat →
  ∃ r : nat, conflict_loop l c i = Done (Z.of_nat r) ∧ (r ≤ i)%nat ∧
    (∀ j e, (r ≤ j < i)%nat → l !! j = Some e → Term e = c) ∧
    (r ≠ 0%nat → ∃ e, l !! (r - 1)%nat = Some e ∧ Term e ≠ c).
Proof.
  induction i as [|i IH]; intros Hi; cbn [conflict_loop].
  { exists 0%nat. split; [done|]. split; [done|]. split; [lia|done]. }
  destruct (lookup_lt_is_Some_2 l i) as [x Hx]; [lia|].
  rewrite (termAt_nat _ _ _ Hx). go_simpl. case_on (_ ≠ _) as Ht.
  - exists (Datatypes.S i). split; [done|]. split; [done|]. split; [lia|].
    intros _. exists x. replace (Datatypes.S i - 1)%nat with i by lia. done.
  - destruct IH as (r & Hr & Hle & Hall & Hst); [lia|].
    exists r. split; [done|]. split; [lia|]. split; [|done].
    intros j e Hj He. destruct (decide (j = i)) as [->|]; [|apply (Hall j); [lia|done]].
    rewrite Hx in He. injection He as <-. by apply dec_stable.
Qed.

Lemma reject_short rf args p :
  PrevLogIndex args = Z.of_nat p → log rf !! p = None →
  AppendEntries_log rf args = Done (rf, mkAEReply (currentTerm rf) false 0 0 (zlen (log rf) - 1)).
Proof.
  intros Hp Ep%lookup_ge_None. unfold AppendEntries_log. rewrite Hp.
  by rewrite bool_decide_eq_true_2 by len.
Qed.

(** [r] is the first index of the run of entries of term [t] that ends at [p]. *)
Definition run_start l (t : Z) (r p : nat) : Prop :=
  (1 ≤ r ≤ p)%nat ∧ (∀ j x, (r ≤ j ≤ p)%nat → l !! j = Some x → Term x = t) ∧
  (∀ x, l !! (r - 1)%nat = Some x → Term x ≠ t).

Lemma reject_conflict rf args p e0 e :
  PrevLogIndex args = Z.of_nat p → log rf !! 0%nat = Some e0 → log rf !! p = Some e →
  Term e ≠ PrevLogTerm args → Term e ≠ Term e0 →
  ∃ r : nat, AppendEntries_log rf args =
      Done (rf, mkAEReply (currentTerm rf) false (Term e) (Z.of_nat r) 0) ∧
    run_start (log rf) (Term e) r p.
Proof.
  intros Hp H0 Ep Hne Hne0. pose proof (lookup_lt_Some _ _ _ Ep).
  unfold AppendEntries_log. rewrite Hp.
  rewrite bool_decide_eq_false_2 by len.
  rewrite (termAt_nat _ _ _ Ep). go_simpl. rewrite bool_decide_eq_true_2, Nat2Z.id by done.
  destruct (conflict_loop_spec (log rf) (Term e) p) as (r & -> & Hr & Hall & Hst); [lia|].
  exists r. split; [done|].
  assert (r ≠ 0%nat) as Hr0.
  { intros ->. destruct (decide (p = 0%nat)) as [->|]; [by simplify_eq|].
    apply Hne0. symmetry. apply (Hall 0%nat); [lia|done]. }
  split; [lia|]. split.
  - intros j x Hj Hx. destruct (decide (j = p)) as [->|]; [congruence|].
    apply (Hall j); [lia|done].
  - intros x Hx. destruct (Hst Hr0) as (y & Hy & Hyt). congruence.
Qed.

(** A request whose previous entry is missing or of another term is
    rejected without touching the state.  If the log is too short, the reply
    carries its last index; otherwise it carries the term found and the first
    index of the run of entries of that term around the previous index. *)
Theorem AppendEntries_rejects rf args p e0 :
  PrevLogIndex args = Z.of_nat p → log rf !! 0%nat = Some e0 →
  (∀ e, log rf !! p = Some e → Term e ≠ PrevLogTerm args ∧ Term e ≠ Term e0) →
  ∃ reply, AppendEntries_log rf args = Done (rf, reply) ∧ Success reply = false ∧
    aer_Term reply = currentTerm rf ∧
    match log rf !! p with
    | None => ConflictIndex reply = 0 ∧ LogLen reply = zlen (log rf) - 1
    | Some e =>
        ConflictTerm reply = Term e ∧
        ∃ r : nat, ConflictIndex reply = Z.of_nat r ∧ run_start (log rf) (Term e) r p
    end.
Proof.
  intros Hp H0 He. destruct (log rf !! p) as [e|] eqn:Ep.
  - destruct (He e eq_refl) as [Hne Hne0].
    destruct (reject_conflict rf args p e0 e Hp H0 Ep Hne Hne0) as (r & -> & Hr).
    eexists. split; [done|]. do 3 (split; [done|]). by exists r.
  - rewrite (reject_short rf args p Hp Ep). eexists. split; [done|]. done.
Qed.

(** ** The leader *)

(** The requests that replicate the log of [rf] to the server whose next
    index is [index]. *)
Definition replication_args rf (index : Z) (t : Z) : AppendEntriesArgs C :=
  mkAEArgs (currentTerm rf) (me rf) (index - 1) t (drop (Z.to_nat index) (log rf)) (commitIndex rf).

Lemma replicate_loop_spec rf server next :
  Forall (fun index => 1 ≤ index) next →
  ∃ msgs, replicate_loop rf server next = Done msgs ∧
    ∀ s args, (s, args) ∈ msgs ↔
      ∃ (k : nat) (index : Z) x, next !! k = Some index ∧ s = server + Z.of_nat k ∧
        index ≤ zlen (log rf) - 1 ∧ log rf !! Z.to_nat (index - 1) = Some x ∧
        args = replication_args rf index (Term x).
Proof.
  intros Hn. revert server. induction Hn as [|index next Hi _ IH]; intros server; cbn [replicate_loop].
  { exists []. split; [done|]. intros s args. rewrite elem_of_nil. split; [done|]. by intros (? & ? & ? & ? & _). }
  destruct (IH (server + 1)) as (msgs & Hm & Hspec).
  assert (∀ s args, (s, args) ∈ msgs ↔ ∃ (k : nat) (ix : Z) x,
    (index :: next) !! Datatypes.S k = Some ix ∧ s = server + Z.of_nat (Datatypes.S k) ∧
    ix ≤ zlen (log rf) - 1 ∧ log rf !! Z.to_nat (ix - 1) = Some x ∧
    args = replication_args rf ix (Term x)) as Hspec'.
  { intros s args. rewrite Hspec.
    split; intros (k & ix & x & ? & ? & ?); exists k, ix, x; (split; [done|]); (split; [lia|done]). }
  case_on (_ >= _) as Hc.
  - destruct (lookup_lt_is_Some_2 (log rf) (Z.to_nat (index - 1))) as [x Hx]; [unfold zlen in Hc; lia|].
    unfold termAt at 1. rewrite (proj2 (idx_Done _ (index - 1) x)) by (split; [lia|done]).
    go_simpl. rewrite Hm. go_simpl. eexists. split; [done|]. intros s args.
    rewrite elem_of_cons, Hspec'. split.
    + intros [[= -> ->]|(k & ?)]; [|by exists (Datatypes.S k)].
      exists 0%nat, index, x. cbn. split; [done|]. split; [lia|]. split; [lia|done].
    + intros ([|k] & ix & y & Hk & Hs & Hr); [|right; by exists k, ix, y].
      left. cbn in Hk. injection Hk as <-. destruct Hr as (_ & Hy & ->).
      rewrite Hx in Hy. injection Hy as <-. f_equal. lia.
  - rewrite Hm. exists msgs. split; [done|]. intros s args. rewrite Hspec'. split.
    + intros (k & ?). by exists (Datatypes.S k).
    + intros ([|k] & ix & y & Hk & Hs & Hr); [|by exists k, ix, y].
      cbn in Hk. injection Hk as <-. lia.
Qed.

(** The leader may commit up to [n]. *)
Definition committable rf (n : Z) : Prop :=
  commitIndex rf < n ∧ n < zlen (log rf) ∧
  (∃ x, log rf !! Z.to_nat n = Some x ∧ Term x = currentTerm rf) ∧
  matchNum rf n > Z.of_nat (peers rf) / 2.

Lemma commit_loop_spec rf (k : nat) n :
  0 ≤ commitIndex rf → n = commitIndex rf + Z.of_nat k → n < zlen (log rf) →
  ∃ c, commit_loop rf k n = Done c ∧
    match c with
    | Some m => committable rf m ∧ m ≤ n ∧ (∀ m', m < m' ≤ n → ¬ committable rf m')
    | None => ∀ m', m' ≤ n → ¬ committable rf m'
    end.
Proof.
  intros H0. revert n. induction k as [|k IH]; intros n Hn Hl; cbn [commit_loop].
  { exists None. split; [done|]. intros m' Hm' [Hc _]. lia. }
  destruct (lookup_lt_is_Some_2 (log rf) (Z.to_nat n)) as [x Hx]; [unfold zlen in Hl; lia|].
  unfold termAt at 1. rewrite (proj2 (idx_Done _ n x)) by (split; [lia|done]). go_simpl.
  assert (¬ committable rf n → ∃ c, commit_loop rf k (n - 1) = Done c ∧
    match c with
    | Some m => committable rf m ∧ m ≤ n ∧ (∀ m', m < m' ≤ n → ¬ committable rf m')
    | None => ∀ m', m' ≤ n → ¬ committable rf m'
    end) as Hskip.
  { intros Hnc. destruct (IH (n - 1)) as (c & Hc & Hs); [lia|lia|]. exists c. split; [done|].
    destruct c as [m|].
    - destruct Hs as (? & ? & Hmax). split; [done|]. split; [lia|]. intros m' Hm'.
      destruct (decide (m' = n)) as [->|]; [done|]. apply Hmax. lia.
    - intros m' Hm'. destruct (decide (m' = n)) as [->|]; [done|]. apply Hs. lia. }
  case_on (Term x ≠ _) as Ht.
  { apply Hskip. intros (_ & _ & (y & Hy & Hyt) & _). congruence. }
  case_on (_ > _) as Hm.
  - eexists. split; [done|]. cbn. split; [|split; [lia|intros m' Hm'; lia]]. split; [lia|]. split; [lia|].
    split; [|done]. exists x. split; [done|]. by apply dec_stable.
  - apply Hskip. by intros (_ & _ & _ & ?).
Qed.

(** A round of a leader whose next indexes are all at least 1 does not
    panic.  It sends exactly one request to every server whose next index is
    within the log: the entries from there on, with the term of the entry
    before them.  It commits the largest index above the commit index that
    holds an entry of the current term and that a majority of the match
    indexes has reached, and commits nothing if there is none. *)
Theorem leader_round_spec rf :
  dead rf = false → state rf ≠ FOLLOWER → 0 ≤ commitIndex rf < zlen (log rf) →
  Forall (fun index => 1 ≤ index) (nextIndex rf) →
  ∃ rf' msgs, leader_round rf = Done (Some (rf', msgs)) ∧
    (∀ s args, (s, args) ∈ msgs ↔
      ∃ (k : nat) (index : Z) x, nextIndex rf !! k = Some index ∧ s = Z.of_nat k ∧
        index ≤ zlen (log rf) - 1 ∧ log rf !! Z.to_nat (index - 1) = Some x ∧
        args = replication_args rf index (Term x)) ∧
    ((∃ n, committable rf n ∧ (∀ n', n < n' → ¬ committable rf n') ∧
        rf' = set_commitIndex n rf) ∨
     ((∀ n, ¬ committable rf n) ∧ rf' = rf)).
Proof.
  intros Hd Hs Hc Hn. unfold leader_round, killed. rewrite Hd, bool_decide_eq_false_2 by done.
  destruct (replicate_loop_spec rf 0 (nextIndex rf) Hn) as (msgs & -> & Hmsgs). go_simpl.
  destruct (commit_loop_spec rf (Z.to_nat (zlen (log rf) - 1 - commitIndex rf)) (zlen (log rf) - 1))
    as (c & -> & Hcs); [lia|lia|lia|]. go_simpl. eexists _, msgs. split; [done|].
  split; [intros s args; rewrite Hmsgs; by setoid_rewrite Z.add_0_l|].
  assert (∀ n, committable rf n → n ≤ zlen (log rf) - 1) as Hub.
  { intros n (_ & ? & _). lia. }
  destruct c as [n|]; [left|right].
  - destruct Hcs as (? & ? & Hmax). exists n. split; [done|]. split; [|done].
    intros n' Hn' Hcn'. apply (Hmax n'); [|done]. specialize (Hub _ Hcn'). lia.
  - split; [|done]. intros n Hcn. apply (Hcs n); [|done]. by apply Hub.
Qed.

(** ** Rolling back after a rejection *)

Lemma last_of_term_spec l t (i : nat) :
  (i < length l)%nat ∨ i = 0%nat →
  ∃ o, last_of_term l t i = Done o ∧
    match o with
    | Some r => ∃ (k : nat) x, r = Z.of_nat k ∧ (1 ≤ k ≤ i)%nat ∧ l !! k = Some x ∧ Term x = t
    | None => ∀ (j : nat) x, (1 ≤ j ≤ i)%nat → l !! j = Some x → Term x ≠ t
    end.
Proof.
  induction i as [|i IH]; intros Hi; cbn [last_of_term].
  { exists None. split; [done|]. lia. }
  destruct (lookup_lt_is_Some_2 l (Datatypes.S i)) as [x Hx]; [lia|].
  rewrite (termAt_nat _ _ _ Hx). go_simpl. case_on (_ = _) as Ht.
  - eexists. split; [done|]. exists (Datatypes.S i), x. split; [done|]. split; [lia|done].
  - destruct IH as (o & Ho & Hs); [lia|]. exists o. split; [done|]. destruct o as [r|].
    + destruct Hs as (k & y & ? & ? & ?). exists k, y. split; [done|]. split; [lia|done].
    + intros j y Hj Hy. destruct (decide (j = Datatypes.S i)) as [->|]; [congruence|].
      apply (Hs j); [lia|done].
Qed.

(** Terms never decrease along the log. *)
Definition terms_sorted l : Prop :=
  ∀ i j x y, (i ≤ j)%nat → l !! i = Some x → l !! j = Some y → Term x ≤ Term y.

(** Index [i] holds the first entry of its term. *)
Definition first_of l (t : Z) (i : nat) : Prop :=
  (∃ x, l !! i = Some x ∧ Term x = t) ∧ ∀ j y, (j < i)%nat → l !! j = Some y → Term y ≠ t.

(** The entries of a term start at the same index in both logs, if both have
    entries of that term: the leader of a term appends them in order. *)
Definition same_starts L F : Prop :=
  ∀ t i j, first_of L t i → first_of F t j → i = j.

Lemma first_of_exists l t i x :
  l !! i = Some x → Term x = t → ∃ k, (k ≤ i)%nat ∧ first_of l t k.
Proof.
  revert x. induction (lt_wf i) as [i _ IH]. intros x Hx Ht.
  destruct (decide (Exists (fun y => Term y = t) (take i l))) as [He|He].
  - apply Exists_exists in He as (y & Hy & Hyt). apply list_elem_of_lookup in Hy as [j Hj].
    apply lookup_take_Some in Hj as [Hj Hji].
    destruct (IH j Hji y Hj Hyt) as (k & Hk & Hf). exists k. split; [lia|done].
  - exists i. split; [done|]. split; [by exists x|]. intros j y Hj Hy Hyt. apply He.
    apply Exists_exists. exists y. split; [|done]. apply list_elem_of_lookup. exists j.
    by apply lookup_take_Some.
Qed.

(** In a log with sorted terms, a run starts with the first entry of its term. *)
Lemma run_first l t r p :
  terms_sorted l → run_start l t r p → (p < length l)%nat → first_of l t r.
Proof.
  intros Hs (Hr & Hall & Hst0) Hpf.
  destruct (lookup_lt_is_Some_2 l r) as [z Hz]; [lia|].
  assert (Term z = t) as Hzt by (apply (Hall r); [lia|done]).
  split; [by exists z|]. intros j w Hj Hw Hwt.
  destruct (lookup_lt_is_Some_2 l (r - 1)) as [u Hu]; [lia|].
  assert (Term w ≤ Term u) by (eapply (Hs j (r - 1)%nat); [lia|done|done]).
  assert (Term u ≤ Term z) by (eapply (Hs (r - 1)%nat r); [lia|done|done]).
  apply (Hst0 u Hu). lia.
Qed.

(** What the leader's last entry of the conflicting term says: it is before
    the index that was rejected. *)
Lemma last_before_conflict L F t r p k x y :
  terms_sorted L → same_starts L F → first_of F t r → (r ≤ p)%nat →
  L !! p = Some x → Term x ≠ t → L !! k = Some y → Term y = t → (k < p)%nat.
Proof.
  intros Hs Hst Hf Hrp Hx Hne Hy Hyt. destruct (first_of_exists _ _ _ _ Hy Hyt) as (k0 & Hk0 & Hf0).
  assert (k0 = r) as -> by (by eapply Hst). destruct (decide (k < p)%nat); [done|exfalso].
  destruct Hf0 as [(z & Hz & Hzt) _].
  assert (Term z ≤ Term x) by (eapply (Hs r p); [lia|done|done]).
  assert (Term x ≤ Term y) by (eapply (Hs p k); [lia|done|done]). lia.
Qed.

(** Where the leader goes back to. *)
Lemma rollback_target rf f args p x e0 reply :
  PrevLogIndex args = Z.of_nat p → log rf !! p = Some x → PrevLogTerm args = Term x →
  log f !! 0%nat = Some e0 →
  (∀ e, log f !! p = Some e → Term e ≠ PrevLogTerm args ∧ Term e ≠ Term e0) →
  terms_sorted (log rf) → terms_sorted (log f) → same_starts (log rf) (log f) →
  AppendEntries_log f args = Done (f, reply) →
  Success reply = false ∧
  ∃ n, (if bool_decide (ConflictIndex reply = 0) then Done (LogLen reply)
        else
          o ← last_of_term (log rf) (ConflictTerm reply) (Z.to_nat (zlen (log rf) - 1));
          Done (match o with Some i => i + 1 | None => ConflictIndex reply end)) = Done n ∧
    0 ≤ n < Z.of_nat p + 1.
Proof.
  intros Hp Hx Hpt H0 He Hsort Hfsort Hstart Hrun.
  pose proof (lookup_lt_Some _ _ _ H0). pose proof (lookup_lt_Some _ _ _ Hx) as Hpl.
  destruct (log f !! p) as [e|] eqn:Ep.
  - destruct (He e eq_refl) as [Hne Hne0].
    destruct (reject_conflict f args p e0 e Hp H0 Ep Hne Hne0) as (r & Hr & Hrs).
    rewrite Hrun in Hr. injection Hr as ->. cbn [Success ConflictIndex ConflictTerm]. split; [done|].
    pose proof (run_first _ _ _ _ Hfsort Hrs (lookup_lt_Some _ _ _ Ep)) as Hfr. destruct Hrs as (Hr & _ & _).
    rewrite bool_decide_eq_false_2 by lia.
    destruct (last_of_term_spec (log rf) (Term e) (Z.to_nat (zlen (log rf) - 1)))
      as (o & -> & Ho); [left; len|]. go_simpl.
    destruct o as [i|]; [|eexists; split; [done|]; lia].
    destruct Ho as (k & y & -> & Hk & Hy & Hyt). eexists. split; [done|].
    assert (k < p)%nat; [|lia]. eapply (last_before_conflict (log rf) (log f)); [done..|lia|done| |done|done].
    congruence.
  - rewrite (reject_short f args p Hp Ep) in Hrun. injection Hrun as <-. split; [done|]. cbn.
    apply lookup_ge_None in Ep. eexists. split; [done|]. unfold zlen. lia.
Qed.

(** The next index of a follower that rejects a replication request
    strictly decreases, so the search for the point where the logs agree
    terminates: for a leader and a follower whose entries of a common term
    start at the same index. *)
Theorem rollback_decreases rf f args p x e0 reply server next' :
  PrevLogIndex args = Z.of_nat p → log rf !! p = Some x → PrevLogTerm args = Term x →
  log f !! 0%nat = Some e0 →
  (∀ e, log f !! p = Some e → Term e ≠ PrevLogTerm args ∧ Term e ≠ Term e0) →
  terms_sorted (log rf) → terms_sorted (log f) → same_starts (log rf) (log f) →
  AppendEntries_log f args = Done (f, reply) →
  aer_Term reply = aea_Term args → aer_Term reply ≤ currentTerm rf →
  upd (nextIndex rf) server 0 = Done next' →
  ∃ rf' n, sendAppendEntries_reply rf server args reply = Done rf' ∧
    nextIndex rf' !! Z.to_nat server = Some n ∧ 0 ≤ n < Z.of_nat p + 1.
Proof.
  intros Hp Hx Hpt H0 He Hsort Hfsort Hstart Hrun Hterm Hcur Hupd.
  destruct (rollback_target rf f args p x e0 reply) as (Hfail & n & Hn & Hlt); [done..|].
  unfold sendAppendEntries_reply. rewrite Hfail.
  rewrite (bool_decide_eq_false_2 (_ ≠ _)) by naive_solver.
  rewrite (bool_decide_eq_false_2 (_ > _)) by lia.
  rewrite Hn. go_simpl. apply upd_Done in Hupd as [Hsv _]. rewrite upd_in_range by done.
  go_simpl. eexists _, n. split; [done|]. cbn. split; [|done].
  apply list_lookup_insert_eq. unfold zlen in Hsv. lia.
Qed.

(** ** A next index of 0 *)

Lemma replicate_loop_panics rf server next :
  log rf ≠ [] → Exists (fun index => index <= 0) next → replicate_loop rf server next = Panic.
Proof.
  intros Hne. revert server. induction next as [|index next IH]; intros server He; [by inversion He|].
  assert (0 < zlen (log rf)) by (unfold zlen; destruct (log rf); [done|cbn; lia]).
  cbn [replicate_loop]. case_on (_ >= _) as Hc.
  - destruct (decide (index <= 0)).
    + unfold termAt at 1, idx. by rewrite bool_decide_eq_true_2 by lia.
    + apply Exists_cons in He as [?|He]; [lia|].
      destruct (lookup_lt_is_Some_2 (log rf) (Z.to_nat (index - 1))) as [x Hx]; [unfold zlen in Hc; lia|].
      unfold termAt at 1. rewrite (proj2 (idx_Done _ (index - 1) x)) by (split; [lia|done]).
      go_simpl. by rewrite IH.
  - apply Exists_cons in He as [?|He]; [lia|]. by apply IH.
Qed.

(** A follower whose log is empty (it holds only the entry at index 0)
    answers a request it is too short for with [LogLen] 0; the leader then
    sets the follower's next index to 0, and its next round panics, indexing
    the log at -1. *)
Theorem empty_follower_panics_leader rf f args server next' :
  dead rf = false → state rf ≠ FOLLOWER → log rf ≠ [] →
  length (log f) = 1%nat → 0 < PrevLogIndex args →
  aea_Term args = currentTerm f → currentTerm f ≤ currentTerm rf →
  upd (nextIndex rf) server 0 = Done next' →
  ∃ reply rf', AppendEntries_log f args = Done (f, reply) ∧
    sendAppendEntries_reply rf server args reply = Done rf' ∧
    leader_round rf' = Panic.
Proof.
  intros Hd Hs Hne Hf Hp Ht Hc Hu. unfold AppendEntries_log.
  rewrite bool_decide_eq_true_2 by (unfold zlen; rewrite Hf; cbn; lia).
  eexists _, _. split; [done|]. unfold sendAppendEntries_reply. cbn [aer_Term Success ConflictIndex LogLen].
  rewrite Ht. rewrite (bool_decide_eq_false_2 (_ ≠ _)) by naive_solver.
  rewrite (bool_decide_eq_false_2 (_ > _)) by lia. rewrite bool_decide_eq_true_2 by done.
  go_simpl. apply upd_Done in Hu as [Hsv _]. rewrite upd_in_range by done. go_simpl.
  split; [done|]. unfold leader_round, killed. cbn [dead set_indexes state nextIndex].
  rewrite Hd, bool_decide_eq_false_2 by done. rewrite replicate_loop_panics; [done|done|].
  apply Exists_exists. exists 0. split; [|lia].
  unfold zlen in *. rewrite Hf. apply list_elem_of_lookup. exists (Z.to_nat server).
  rewrite list_lookup_insert_eq by lia. done.
Qed.

End log.
