(* ===== verification/RaftVotes.v ===== *)
(** * Votes and delivered commands

    Properties of every run of one server: it votes at most once per term
    while it neither becomes leader nor restarts, and it hands committed
    commands to the service in order and without gaps. *)

From S2P Require Import Prelude Gob RaftNode RaftSafety RaftLog.
Local Open Scope Z_scope.

Section votes.
Context {C : Type} `{!Inhabited C, !GobCodec Z, !GobCodec (list (Log C))}.
Notation Raft := (Raft C).
Implicit Types (rf : Raft) (l : list (Log C)).

(** ** Votes *)

(** The server has voted in term [t], or is past it. *)
Definition voted_in rf (t : Z) : Prop :=
  (currentTerm rf = t ∧ votedFor rf ≠ -1) ∨ t < currentTerm rf.

Definition is_restart (a : nact (C:=C)) : bool := match a with ARestart _ _ => true | _ => false end.
Definition is_leader_init (a : nact (C:=C)) : bool := match a with ALeaderInit => true | _ => false end.

(** Candidates are numbered from 0. *)
Definition proper_act (a : nact (C:=C)) : Prop :=
  match a with ARequestVote args => 0 ≤ CandidateID args | _ => True end.

Definition granted (o : nout (C:=C)) (t : Z) : Prop :=
  ∃ args reply, o = OVote args reply ∧ VoteGranted reply = true ∧ rvr_Term reply = t.

(** What a call to [RequestVote] may do. *)
Lemma RequestVote_cases rf args rf' reply b :
  RequestVote rf args = Done (rf', reply, b) →
  (VoteGranted reply = false ∧
     ((currentTerm rf' = currentTerm rf ∧ votedFor rf' = votedFor rf) ∨
      currentTerm rf < currentTerm rf')) ∨
  (VoteGranted reply = true ∧ rvr_Term reply = currentTerm rf' ∧ votedFor rf' = CandidateID args ∧
     ((currentTerm rf' = currentTerm rf ∧ votedFor rf = -1) ∨ currentTerm rf < currentTerm rf')).
Proof.
  unfold RequestVote. case_on (_ < _) as El; [intros [= <- <- _]; auto|].
  case_on (_ > _) as Eg.
  - rewrite bool_decide_eq_false_2 by (cbn; tauto). intros H. go_inv H.
    destruct (_ || _); injection H as <- <- _; cbn; [left|right]; repeat split; lia.
  - case_on (_ ≠ _) as Ev; [intros [= <- <- _]; auto|]. intros H. go_inv H.
    destruct (_ || _); injection H as <- <- _; cbn; [by auto|right].
    repeat split. left. split; [done|]. by apply dec_stable.
Qed.

(** [rf'] has the term and the vote of [rf], or a greater term. *)
Definition keeps_vote rf rf' : Prop :=
  (currentTerm rf' = currentTerm rf ∧ votedFor rf' = votedFor rf) ∨
  currentTerm rf < currentTerm rf'.

Lemma AppendEntries_log_frame rf args rf' reply :
  AppendEntries_log rf args = Done (rf', reply) →
  currentTerm rf' = currentTerm rf ∧ votedFor rf' = votedFor rf ∧ lastApplied rf' = lastApplied rf.
Proof.
  unfold AppendEntries_log. intros H. go_cases H; simplify_eq; try done.
  repeat case_match; subst; done.
Qed.

Lemma leader_round_frame rf rf' msgs :
  leader_round rf = Done (Some (rf', msgs)) →
  currentTerm rf' = currentTerm rf ∧ votedFor rf' = votedFor rf ∧ lastApplied rf' = lastApplied rf.
Proof.
  unfold leader_round. intros H. go_cases H; try done. simplify_eq. repeat case_match; subst; done.
Qed.

Lemma sendAppendEntries_frame rf server args reply rf' :
  sendAppendEntries_reply rf server args reply = Done rf' →
  keeps_vote rf rf' ∧ lastApplied rf' = lastApplied rf.
Proof.
  unfold sendAppendEntries_reply, keeps_vote. intros H. go_cases H; simplify_eq; cbn; auto with lia.
Qed.

(** Every section but [RequestVote], the start of [leader] and a restart
    keeps the vote of the current term. *)
Lemma node_step_keeps_vote rf a rf' o :
  is_restart a = false → is_leader_init a = false →
  match a with ARequestVote _ => False | _ => True end →
  node_step rf a = Done (rf', o) → keeps_vote rf rf' ∧ (∀ t, ¬ granted o t).
Proof.
  intros Hr Hl Ha Hs. destruct a; cbn [node_step] in Hs; try done; go_cases Hs;
    try (destruct a as [[rf1 msgs]|]); simplify_eq;
    (split; [|by intros t (? & ? & ? & _)]); try (by left).
  - unfold candidate_start in E. go_cases E. simplify_eq. right. cbn. lia.
  - unfold sendRequestVote_reply. repeat case_bool_decide; [by left|right; cbn; lia|].
    left. by destruct (VoteGranted reply).
  - unfold AppendEntries_term. repeat case_bool_decide; [by left|right; cbn; lia|by left].
  - apply AppendEntries_log_frame in E as (? & ? & _). by left.
  - apply leader_round_frame in E as (? & ? & _). by left.
  - by apply sendAppendEntries_frame in E as [? _].
  - left. unfold Start. by destruct (_ || _).
  - unfold applier_round in E. go_cases E; try done. simplify_eq. by left.
Qed.

Lemma node_step_voted rf a rf' o t :
  is_restart a = false → is_leader_init a = false → proper_act a →
  node_step rf a = Done (rf', o) →
  (voted_in rf t → voted_in rf' t ∧ ¬ granted o t) ∧ (granted o t → voted_in rf' t).
Proof.
  intros Hr Hl Hp Hs.
  assert ((∃ args, a = ARequestVote args) ∨ match a with ARequestVote _ => False | _ => True end)
    as [[args ->]|Ha] by (destruct a; eauto).
  - cbn [node_step] in Hs. go_cases Hs. simplify_eq.
    cbn in Hp. apply RequestVote_cases in E. unfold voted_in, granted. split.
    + intros Hv. split; [intuition lia|]. intros (? & ? & ? & ? & ?). simplify_eq.
      destruct E as [[? _]|(_ & ? & _ & [[? ?]|?])]; [congruence|lia|lia].
    + intros (? & ? & ? & ? & ?). simplify_eq. left.
      destruct E as [[? _]|(_ & ? & ? & _)]; [congruence|lia].
  - destruct (node_step_keeps_vote rf a rf' o Hr Hl Ha Hs) as [Hk Hg].
    split; [|by intros ?%Hg]. unfold voted_in, keeps_vote in *. intros Hv. split; [|apply Hg].
    destruct Hk as [[-> ->]|?]; [done|]. right. lia.
Qed.

Lemma node_run_voted rf acts rf' os t :
  Forall (fun a => is_restart a = false ∧ is_leader_init a = false ∧ proper_act a) acts →
  node_run rf acts = Done (rf', os) →
  (voted_in rf t → Forall (fun o => ¬ granted o t) os) ∧
  (∀ i j o o', os !! i = Some o → os !! j = Some o' → granted o t → granted o' t → i = j).
Proof.
  intros Ha. revert rf os. induction Ha as [|a acts (Hr & Hl & Hp) Ha IH]; intros rf os Hs.
  { injection Hs as <- <-. split; [constructor|]. intros i j o o' Hi. done. }
  cbn [node_run] in Hs. go_cases Hs. simplify_eq. rename n into o, l into os'.
  destruct (node_step_voted _ _ _ _ t Hr Hl Hp E) as [Hk Hg].
  destruct (IH _ _ E0) as [Hnone Hone]. split.
  - intros [Hv Hng]%Hk. constructor; [done|]. by apply Hnone.
  - intros [|i] [|j] o1 o2 Hi Hj Hg1 Hg2; cbn in Hi, Hj; simplify_eq; [done|exfalso..|].
    + specialize (Hnone (Hg Hg1)). rewrite Forall_lookup in Hnone. by eapply Hnone.
    + specialize (Hnone (Hg Hg2)). rewrite Forall_lookup in Hnone. by eapply Hnone.
    + f_equal. by eapply Hone.
Qed.

(** As long as a server does not become leader and does not restart, it
    grants at most one vote per term. *)
Theorem one_vote_per_term rf acts rf' os t i j o o' :
  Forall (fun a => is_restart a = false ∧ is_leader_init a = false ∧ proper_act a) acts →
  node_run rf acts = Done (rf', os) →
  os !! i = Some o → os !! j = Some o' → granted o t → granted o' t → i = j.
Proof. intros Ha Hs. apply (node_run_voted _ _ _ _ t Ha Hs). Qed.

(** ** Commands handed to the service *)

Lemma apply_loop_spec l k n msgs :
  apply_loop l k n = Done msgs →
  (CommandIndex <$> msgs = seqZ (n + 1) (Z.of_nat k)) ∧
  Forall (fun m => CommandValid m = true ∧
    ∃ e, 0 ≤ CommandIndex m ∧ l !! Z.to_nat (CommandIndex m) = Some e ∧ am_Command m = Command e) msgs.
Proof.
  revert n msgs. induction k as [|k IH]; intros n msgs H; cbn [apply_loop] in H; go_cases H; simplify_eq.
  { split; [done|constructor]. }
  destruct (IH _ _ E0) as [Hi Hf]. apply idx_Done in E as [Hn He]. split.
  - cbn. rewrite Hi. rewrite Nat2Z.inj_succ, (seqZ_cons (n + 1) (Z.succ (Z.of_nat k))) by lia.
    by rewrite Z.pred_succ.
  - constructor; [|done]. cbn. split; [done|]. by exists a.
Qed.

Definition applied (os : list (nout (C:=C))) : list (ApplyMsg C) :=
  flat_map (fun o => match o with OApplied msgs => msgs | _ => [] end) os.

Lemma node_step_applied rf a rf' o :
  is_restart a = false → node_step rf a = Done (rf', o) →
  lastApplied rf ≤ lastApplied rf' ∧
  CommandIndex <$> applied [o] = seqZ (lastApplied rf + 1) (lastApplied rf' - lastApplied rf).
Proof.
  intros Hr Hs.
  assert ((∃ msgs, applier_round rf = Done (Some (rf', msgs)) ∧ o = OApplied msgs) ∨
    (lastApplied rf' = lastApplied rf ∧ applied [o] = [])) as [(msgs & H & ->)|[-> ->]].
  { destruct a; cbn [node_step] in Hs; try done; go_cases Hs;
      try (destruct a as [[rf1 msgs]|]); simplify_eq; try (right; split; reflexivity).
    - unfold candidate_start in E. go_cases E. simplify_eq. by right.
    - unfold RequestVote in E. right. split; [|done].
      go_cases E; simplify_eq; repeat case_bool_decide; done.
    - unfold sendRequestVote_reply. right. split; [|done].
      repeat case_bool_decide; [done|done|by destruct (VoteGranted reply)].
    - unfold AppendEntries_term. right. split; [|done]. repeat case_bool_decide; done.
    - apply AppendEntries_log_frame in E as (_ & _ & ?). by right.
    - apply leader_round_frame in E as (_ & _ & ?). by right.
    - apply sendAppendEntries_frame in E as [_ ?]. by right.
    - unfold Start. right. by destruct (_ || _).
    - left. eauto. }
  - unfold applier_round in H. go_cases H; try done. simplify_eq. cbn. rewrite app_nil_r.
    apply apply_loop_spec in E as [-> _]. split; [lia|]. f_equal. lia.
  - rewrite Z.sub_diag. done.
Qed.

Lemma applied_spec rf acts rf' os :
  Forall (fun a => is_restart a = false) acts →
  node_run rf acts = Done (rf', os) →
  lastApplied rf ≤ lastApplied rf' ∧
  CommandIndex <$> applied os = seqZ (lastApplied rf + 1) (lastApplied rf' - lastApplied rf).
Proof.
  intros Ha. revert rf os. induction Ha as [|a acts Hr Ha IH]; intros rf os Hs.
  { injection Hs as <- <-. by rewrite Z.sub_diag. }
  cbn [node_run] in Hs. go_cases Hs. simplify_eq. rename n into o, l into os', r into rf1.
  destruct (node_step_applied _ _ _ _ Hr E) as [Hle1 H1].
  destruct (IH _ _ E0) as [Hle2 H2]. split; [lia|].
  change (applied (o :: os')) with ((match o with OApplied msgs => msgs | _ => [] end) ++ applied os').
  cbn [applied flat_map] in H1. rewrite app_nil_r in H1. rewrite fmap_app, H1, H2.
  replace (lastApplied rf' - lastApplied rf) with
    ((lastApplied rf1 - lastApplied rf) + (lastApplied rf' - lastApplied rf1)) by lia.
  rewrite seqZ_app by lia. f_equal. f_equal. lia.
Qed.

(** [m] is a committed entry of the log of [rf]. *)
Definition committed_entry rf (m : ApplyMsg C) : Prop :=
  CommandValid m = true ∧ CommandIndex m ≤ commitIndex rf ∧
  ∃ e, log rf !! Z.to_nat (CommandIndex m) = Some e ∧ am_Command m = Command e.

Lemma node_step_committed rf a rf' o m :
  node_step rf a = Done (rf', o) → m ∈ applied [o] → a = AApply ∧ committed_entry rf m.
Proof.
  intros Hs Hm. assert (∃ msgs, o = OApplied msgs ∧ m ∈ msgs) as (msgs & -> & Hin).
  { destruct o; cbn in Hm; rewrite ?app_nil_r in Hm; [set_solver|set_solver|eauto]. }
  destruct a; cbn [node_step] in Hs; go_cases Hs; try done.
  destruct a as [[rf1 msgs']|]; simplify_eq. split; [done|].
  unfold applier_round in E. go_cases E; try done. simplify_eq.
  apply apply_loop_spec in E0 as [Hix Hall]. rewrite Forall_forall in Hall.
  destruct (Hall m Hin) as (Hv & e & _ & He & Hc). split; [done|]. split; [|eauto].
  assert (CommandIndex m ∈ seqZ (lastApplied rf + 1) (Z.of_nat (Z.to_nat (commitIndex rf - lastApplied rf))))
    as Hs by (rewrite <- Hix; by apply list_elem_of_fmap_2).
  apply elem_of_seqZ in Hs. lia.
Qed.

Lemma applied_committed rf acts rf' os m :
  node_run rf acts = Done (rf', os) → m ∈ applied os →
  ∃ acts1 acts2 rf1 os1, acts = acts1 ++ AApply :: acts2 ∧
    node_run rf acts1 = Done (rf1, os1) ∧ committed_entry rf1 m.
Proof.
  revert rf os. induction acts as [|a acts IH]; intros rf os Hs Hm.
  { injection Hs as <- <-. by apply elem_of_nil in Hm. }
  cbn [node_run] in Hs. go_cases Hs. simplify_eq. rename n into o, l into os', r into rf1.
  change (applied (o :: os')) with ((match o with OApplied msgs => msgs | _ => [] end) ++ applied os') in Hm.
  apply elem_of_app in Hm as [Hm|Hm].
  - destruct (node_step_committed _ _ _ _ m E) as [-> Hc].
    { cbn. by rewrite app_nil_r. }
    exists [], acts, rf, []. done.
  - destruct (IH _ _ E0 Hm) as (acts1 & acts2 & rf2 & os2 & -> & Hr & Hc).
    exists (a :: acts1), acts2, rf2, (o :: os2). split; [done|]. split; [|done].
    cbn [node_run]. rewrite E. go_simpl. by rewrite Hr.
Qed.

(** C17: between restarts, the commands that a server hands to the service
    carry consecutive indexes, starting right after the last one applied
    before (no index is skipped, repeated or out of order), and each is the
    committed entry at its index in the log at the time. *)
Theorem applied_in_order rf acts rf' os :
  Forall (fun a => is_restart a = false) acts →
  node_run rf acts = Done (rf', os) →
  CommandIndex <$> applied os = seqZ (lastApplied rf + 1) (lastApplied rf' - lastApplied rf) ∧
  ∀ m, m ∈ applied os → ∃ acts1 acts2 rf1 os1, acts = acts1 ++ AApply :: acts2 ∧
    node_run rf acts1 = Done (rf1, os1) ∧ committed_entry rf1 m.
Proof.
  intros Ha Hs. split; [by eapply (applied_spec rf acts rf' os)|].
  intros m. by eapply applied_committed.
Qed.

End votes.
