(* ===== verification/RaftWf.v ===== *)
(** * Well-formed logs

    The log of a server stays well formed as long as the requests it receives
    are, and the requests it builds from a well-formed log are well formed. *)

From S2P Require Import Prelude Gob RaftNode RaftSafety RaftLog RaftVotes.
Local Open Scope Z_scope.

Section wf.
Context {C : Type} `{!Inhabited C, !GobCodec Z, !GobCodec (list (Log C))}.
Notation Raft := (Raft C).
Implicit Types (rf : Raft) (l es tail : list (Log C)).

(** Index 0 holds the placeholder of term 0, terms never decrease along the
    log and do not exceed the current term. *)
Record log_ok rf : Prop := {
  lo_first : ∃ e, log rf !! 0%nat = Some e ∧ Term e = 0;
  lo_sorted : terms_sorted (log rf);
  lo_bound : ∀ e, e ∈ log rf → Term e ≤ currentTerm rf;
}.

(** A request whose entries continue a well-formed log of its term. *)
Record args_ok (args : AppendEntriesArgs C) : Prop := {
  ao_prev : 0 ≤ PrevLogIndex args;
  ao_sorted : terms_sorted (Entries args);
  ao_low : ∀ e, e ∈ Entries args → PrevLogTerm args ≤ Term e;
  ao_bound : ∀ e, e ∈ Entries args → Term e ≤ aea_Term args;
}.

Lemma terms_sorted_app l es :
  terms_sorted l → terms_sorted es →
  (∀ x y, x ∈ l → y ∈ es → Term x ≤ Term y) → terms_sorted (l ++ es).
Proof.
  intros Hl Hes Hx i j x y Hij Hi Hj.
  apply lookup_app_Some in Hi as [Hi|[Hi1 Hi]]; apply lookup_app_Some in Hj as [Hj|[Hj1 Hj]].
  - by apply (Hl i j).
  - apply Hx; eauto with go_lists.
  - apply lookup_lt_Some in Hj. lia.
  - apply (Hes (i - length l)%nat (j - length l)%nat); [lia|done|done].
Qed.

Lemma terms_sorted_sub l l' (f : nat → nat) :
  (∀ i j, (i ≤ j)%nat → (f i ≤ f j)%nat) → (∀ i, l' !! i = l !! f i ∨ l' !! i = None) →
  terms_sorted l → terms_sorted l'.
Proof.
  intros Hf Hl Hs i j x y Hij Hi Hj. destruct (Hl i) as [E1|E1], (Hl j) as [E2|E2]; try congruence.
  apply (Hs (f i) (f j)); [auto|congruence|congruence].
Qed.

Lemma terms_sorted_take l n : terms_sorted l → terms_sorted (take n l).
Proof.
  apply (terms_sorted_sub _ _ id); [done|]. intros i.
  destruct (decide (i < n)%nat); [left; by apply lookup_take_lt|right; apply lookup_take_ge; lia].
Qed.

Lemma terms_sorted_drop l n : terms_sorted l → terms_sorted (drop n l).
Proof.
  apply (terms_sorted_sub _ _ (fun i => n + i)%nat); [lia|]. intros i. left. apply lookup_drop.
Qed.

Lemma overwrite_form tail es :
  overwrite tail es = tail ∨
  ∃ k, overwrite tail es = take k tail ++ drop k es ∧
    ∀ i x, (i < k)%nat → tail !! i = Some x → ∃ e, es !! i = Some e ∧ Term x = Term e.
Proof.
  revert tail. induction es as [|e es IH]; intros tail; [by left|].
  destruct tail as [|x tail]; [right; exists 0%nat; split; [done|lia]|].
  cbn [overwrite]. case_bool_decide as Ht.
  - destruct (IH tail) as [->|(k & -> & Hk)]; [by left|]. right. exists (Datatypes.S k).
    split; [done|]. intros [|i] y Hi Hy; cbn in Hy; simplify_eq; [by exists e|].
    apply Hk; [lia|done].
  - right. exists 0%nat. split; [done|lia].
Qed.

Lemma merged_ok l p es x :
  terms_sorted l → terms_sorted es → l !! p = Some x → (∀ e, e ∈ es → Term x ≤ Term e) →
  terms_sorted (merged l p es) ∧ (∀ e, e ∈ merged l p es → e ∈ l ∨ e ∈ es) ∧
  merged l p es !! 0%nat = l !! 0%nat.
Proof.
  intros Hl Hes Hp Hlow. unfold merged. pose proof (lookup_lt_Some _ _ _ Hp) as Hlt.
  assert ((take (Datatypes.S p) l ++ overwrite (drop (Datatypes.S p) l) es) !! 0%nat = l !! 0%nat) as H0.
  { rewrite lookup_app_l by (rewrite length_take; lia). apply lookup_take_lt. lia. }
  split; [|split; [|done]].
  - destruct (overwrite_form (drop (Datatypes.S p) l) es) as [->|(k & -> & Hk)].
    { by rewrite take_drop. }
    rewrite app_assoc. apply terms_sorted_app.
    + rewrite take_take_drop. by apply terms_sorted_take.
    + by apply terms_sorted_drop.
    + intros y z Hy Hz. apply elem_of_app in Hy as [Hy|Hy].
      * apply list_elem_of_lookup in Hy as [i Hi]. apply lookup_take_Some in Hi as [Hi Hip].
        assert (Term y ≤ Term x) by (apply (Hl i p); [lia|done|done]).
        assert (z ∈ es) as Hze by (by eapply subseteq_drop).
        specialize (Hlow z Hze). lia.
      * apply list_elem_of_lookup in Hy as [i Hi]. apply lookup_take_Some in Hi as [Hi Hik].
        destruct (Hk i y Hik Hi) as (e & He & ->). apply list_elem_of_lookup in Hz as [j Hj].
        rewrite lookup_drop in Hj. apply (Hes i (k + j)%nat); [lia|done|done].
  - intros e [He|He]%elem_of_app; [left; by eapply subseteq_take|].
    destruct (overwrite_form (drop (Datatypes.S p) l) es) as [E|(k & E & _)]; rewrite E in He.
    { left. by eapply subseteq_drop. }
    apply elem_of_app in He as [He|He]; [left|right; by eapply subseteq_drop].
    eapply subseteq_drop. by eapply subseteq_take.
Qed.

Lemma log_ok_grow rf rf' :
  log rf' = log rf → currentTerm rf ≤ currentTerm rf' → log_ok rf → log_ok rf'.
Proof.
  intros El Ht [H0 Hs Hb]. split; rewrite El; [done|done|]. intros e He. specialize (Hb e He). lia.
Qed.

(** The log after the second critical section of [AppendEntries]. *)
Lemma AppendEntries_log_result rf args rf' reply :
  0 ≤ PrevLogIndex args → AppendEntries_log rf args = Done (rf', reply) →
  log rf' = log rf ∨
  ∃ p x, PrevLogIndex args = Z.of_nat p ∧ log rf !! p = Some x ∧ Term x = PrevLogTerm args ∧
    log rf' = merged (log rf) p (Entries args).
Proof.
  intros Hp Hrun. set (p := Z.to_nat (PrevLogIndex args)).
  assert (PrevLogIndex args = Z.of_nat p) as Ep by lia.
  destruct (log rf !! p) as [x|] eqn:Ex.
  2: { rewrite (reject_short rf args p Ep Ex) in Hrun. left. by injection Hrun as <- _. }
  destruct (decide (Term x = PrevLogTerm args ∧ Entries args ≠ [])) as [[Ht Hne]|Hn].
  - right. exists p, x. do 3 (split; [done|]).
    rewrite (AppendEntries_log_accept rf args p x) in Hrun by done. injection Hrun as <- _.
    unfold accept_entries. by case_bool_decide.
  - left. revert Hrun. unfold AppendEntries_log. rewrite Ep, (termAt_nat _ _ _ Ex). intros H.
    go_cases H; simplify_eq; try done. exfalso. apply Hn. split; [by apply dec_stable|done].
Qed.

Lemma AppendEntries_log_ok rf args rf' reply :
  log_ok rf → args_ok args → aea_Term args ≤ currentTerm rf →
  AppendEntries_log rf args = Done (rf', reply) → log_ok rf'.
Proof.
  intros Hok [Hp Hs Hlow Hb] Ht Hrun. pose proof (AppendEntries_log_frame _ _ _ _ Hrun) as (Et & _).
  destruct (AppendEntries_log_result _ _ _ _ Hp Hrun) as [El|(p & x & Ep & Hx & Htx & El)].
  { apply (log_ok_grow rf); [done|lia|done]. }
  destruct Hok as [H0 Hsl Hbl].
  destruct (merged_ok (log rf) p (Entries args) x) as (Hm & Hin & Hz); [done..| |].
  { rewrite Htx. apply Hlow. }
  split; rewrite El.
  - by rewrite Hz.
  - done.
  - intros e [He|He]%Hin; rewrite Et; [by apply Hbl|]. specialize (Hb e He). lia.
Qed.

Lemma Start_ok rf c : log_ok rf → log_ok (Start rf c).1.
Proof.
  intros Hok. unfold Start. destruct (_ || _); [done|]. cbn [fst].
  destruct Hok as [(e0 & H0 & Ht0) Hs Hb]. split; cbn.
  - exists e0. split; [|done]. rewrite lookup_app_l; [done|]. eauto with go_lists.
  - apply terms_sorted_app; [done| |].
    + intros [|i] [|j] x y _ Hi Hj; cbn in *; simplify_eq; done.
    + intros x y Hx ->%list_elem_of_singleton. cbn. by apply Hb.
  - intros e [He|He]%elem_of_app; [by apply Hb|]. by apply list_elem_of_singleton in He as ->.
Qed.

Context `{!Gob Z, !Gob (list (Log C))}.

(** The second section of [AppendEntries] is given well-formed requests of a
    term the server has reached: the first section saw to the latter. *)
Definition request_ok rf (a : nact (C:=C)) : Prop :=
  match a with
  | AAppendLog args => args_ok args ∧ aea_Term args ≤ currentTerm rf
  | _ => True
  end.

(** The sections that leave the log alone. *)
Lemma node_step_log rf a rf' o :
  durable rf → match a with AAppendLog _ | AStart _ => False | _ => True end →
  node_step rf a = Done (rf', o) → log rf' = log rf.
Proof.
  intros Hd Ha Hs. destruct a; cbn [node_step] in Hs; try done; go_cases Hs;
    try (destruct a as [[rf1 msgs]|]); simplify_eq; try reflexivity.
  - unfold candidate_start in E. go_cases E. by simplify_eq.
  - unfold RequestVote in E. go_cases E; simplify_eq; repeat case_bool_decide; done.
  - unfold sendRequestVote_reply. repeat case_bool_decide; [done|done|by destruct (VoteGranted reply)].
  - unfold AppendEntries_term. repeat case_bool_decide; done.
  - unfold leader_round in E. go_cases E; try done. simplify_eq. by destruct a0.
  - unfold sendAppendEntries_reply in E. go_cases E; by simplify_eq.
  - unfold applier_round in E. go_cases E; try done. by simplify_eq.
  - by apply restart_advances in E as (_ & _ & ?).
Qed.

Lemma node_step_ok rf a rf' o :
  durable rf → log_ok rf → request_ok rf a → node_step rf a = Done (rf', o) → log_ok rf'.
Proof.
  intros Hd Hok Ha Hs.
  assert ((∃ args, a = AAppendLog args) ∨ (∃ c, a = AStart c) ∨
    match a with AAppendLog _ | AStart _ => False | _ => True end) as [ [args ->] | [ [c ->] | Hn] ]
    by (destruct a; eauto).
  - cbn [node_step] in Hs. go_cases Hs. simplify_eq. destruct Ha as [Ha Ht].
    by eapply AppendEntries_log_ok.
  - injection Hs as <- _. by apply Start_ok.
  - apply (log_ok_grow rf); [by eapply node_step_log|by eapply node_step_advances|done].
Qed.

(** All the requests of a run are well formed when they are handled. *)
Fixpoint requests_ok rf (acts : list (nact (C:=C))) : Prop :=
  match acts with
  | [] => True
  | a :: acts =>
      request_ok rf a ∧
      match node_step rf a with Done (rf', _) => requests_ok rf' acts | _ => True end
  end.

Lemma node_run_ok rf acts rf' os :
  durable rf → log_ok rf → requests_ok rf acts → node_run rf acts = Done (rf', os) → log_ok rf'.
Proof.
  revert rf os. induction acts as [|a acts IH]; intros rf os Hd Hok Ha Hs.
  { by injection Hs as <- _. }
  cbn [node_run requests_ok] in *. go_cases Hs. simplify_eq. rewrite E in Ha. destruct Ha as [Ha Has].
  destruct (node_step_advances _ _ _ _ Hd E) as [_ Hd1].
  eapply IH; [by apply Hd1|by eapply node_step_ok|done|done].
Qed.

Lemma log_ok_fresh n id : log_ok (fresh n id).
Proof.
  split; cbn.
  - by eexists.
  - intros [|i] [|j] x y _ Hi Hj; cbn in *; simplify_eq; done.
  - by intros e ->%list_elem_of_singleton.
Qed.

(** What a leader sends is well formed. *)
Lemma replicate_loop_ok rf server next msgs :
  log_ok rf → replicate_loop rf server next = Done msgs →
  Forall (fun m => args_ok m.2 ∧ aea_Term m.2 = currentTerm rf) msgs.
Proof.
  intros [H0 Hs Hb]. revert server msgs. induction next as [|index next IH]; intros server msgs H;
    cbn [replicate_loop] in H; go_cases H; simplify_eq; [constructor| |by eapply IH].
  constructor; [|by eapply IH]. cbn. split; [|done].
  unfold termAt in E. go_cases E. simplify_eq. apply idx_Done in E1 as [Hi Hx].
  split; cbn.
  - lia.
  - by apply terms_sorted_drop.
  - intros e He. apply list_elem_of_lookup in He as [j Hj]. rewrite lookup_drop in Hj.
    eapply (Hs (Z.to_nat (index - 1))); [|exact Hx|exact Hj]. lia.
  - intros e He. apply Hb. by eapply subseteq_drop.
Qed.

Lemma heartbeat_ok rf msgs :
  log_ok rf → heartbeat rf = Done (Some msgs) →
  Forall (fun m => args_ok m.2 ∧ aea_Term m.2 = currentTerm rf) msgs.
Proof.
  intros [(e & He & _) _ _]. unfold heartbeat. intros H. go_cases H; [done|]. simplify_eq.
  apply Forall_fmap, Forall_forall. intros i _. cbn. split; [|done].
  apply lookup_lt_Some in He. split; cbn.
  - unfold zlen. lia.
  - by intros i' j x y _ ?.
  - by intros x ?%elem_of_nil.
  - by intros x ?%elem_of_nil.
Qed.

(** C18: in every run of a server whose incoming [AppendEntries] requests are
    well formed, across crashes and restarts, the log stays well formed: the
    placeholder of term 0 comes first, terms never decrease and do not exceed
    the current term.  Every request the server then builds, to replicate its
    log or as a heartbeat, is well formed in turn. *)
Theorem log_wellformed n id acts rf os :
  requests_ok (fresh n id) acts → node_run (fresh n id) acts = Done (rf, os) →
  log_ok rf ∧
  (∀ rf' msgs, leader_round rf = Done (Some (rf', msgs)) →
     Forall (fun m => args_ok m.2 ∧ aea_Term m.2 = currentTerm rf) msgs) ∧
  (∀ msgs, heartbeat rf = Done (Some msgs) →
     Forall (fun m => args_ok m.2 ∧ aea_Term m.2 = currentTerm rf) msgs).
Proof.
  intros Hreq Hrun.
  assert (log_ok rf) as Hok by
    (by eapply node_run_ok; [apply durable_fresh|apply log_ok_fresh|done|done]).
  split; [done|]. split; [|intros msgs; by apply heartbeat_ok].
  intros rf' msgs H. unfold leader_round in H. go_cases H; try done. simplify_eq.
  by eapply replicate_loop_ok.
Qed.

End wf.
