(* ===== verification/RaftCluster.v ===== *)
(** * A cluster of Raft servers

    The goroutines of [raft.go], started and ended the way the code does it,
    over servers that exchange requests through a network that delivers each
    message at most once, in any order, or drops it ([labrpc]).  One step
    runs one critical section of one goroutine.

    A goroutine is represented by the place where it stands.  Handlers run in
    goroutines of the receiving server. *)

From S2P Require Import Prelude Gob RaftNode RaftSafety.
Local Open Scope Z_scope.

Section cluster.
Context {C : Type} `{!Inhabited C, !GobCodec Z, !GobCodec (list (Log C))}.
Notation Raft := (Raft C).

Inductive thread :=
| TElectionTimer
| TCandidate
| TCandidateReset (term : Z) (msgs : list (Z * RequestVoteArgs))
| TCandidatePoll (term : Z)
| TLeaderInit
| TLeader
| THeartBeat
| TApplier
| TVoteReset (client : nat) (args : RequestVoteArgs) (reply : RequestVoteReply)
| TAppendReset (client : nat) (args : AppendEntriesArgs C)
| TAppendLog (client : nat) (args : AppendEntriesArgs C).

(** [from] waits in [Call] until the reply comes back. *)
Inductive packet :=
| PVote (from to : nat) (args : RequestVoteArgs)
| PVoteReply (from to : nat) (args : RequestVoteArgs) (reply : RequestVoteReply)
| PAppend (from to : nat) (args : AppendEntriesArgs C)
| PAppendReply (from to : nat) (args : AppendEntriesArgs C) (reply : AppendEntriesReply).

Record server := mkServer { node : Raft; threads : list thread; delivered : list (ApplyMsg C) }.
Record cluster := mkCluster { servers : list server; net : list packet }.

(** What a section of goroutine does: the server, the goroutines that take
    its place, the packets sent and the messages on [applyCh]. *)
Record outcome := mkOutcome {
  o_node : Raft; o_threads : list thread; o_packets : list packet; o_applied : list (ApplyMsg C) }.

Definition run_thread (i : nat) (rf : Raft) (th : thread) (interval now : Z) : go outcome :=
  match th with
  | TElectionTimer =>
      if killed rf then Done (mkOutcome rf [] [] [])
      else if timerFires rf now then Done (mkOutcome rf [TCandidate] [] [])
      else Done (mkOutcome rf [TElectionTimer] [] [])
  | TCandidate =>
      '(rf, msgs) ← candidate_start rf;
      Done (mkOutcome rf [TCandidateReset (currentTerm rf) msgs] [] [])
  | TCandidateReset term msgs =>
      Done (mkOutcome (resetTimer interval now rf) [TCandidatePoll term; TElectionTimer] ((fun m => PVote i (Z.to_nat m.1) m.2) <$> msgs) [])
  | TCandidatePoll term =>
      match candidate_poll rf term with
      | BecomeLeader => Done (mkOutcome rf [TLeaderInit] [] [])
      | BecomeFollower => Done (mkOutcome rf [TElectionTimer] [] [])
      | GiveUp | Exit => Done (mkOutcome rf [] [] [])
      | KeepWaiting => Done (mkOutcome rf [TCandidatePoll term] [] [])
      end
  | TLeaderInit => Done (mkOutcome (leader_init rf) [TLeader; THeartBeat] [] [])
  | TLeader =>
      o ← leader_round rf;
      match o with
      | None => Done (mkOutcome rf (if killed rf then [] else [TElectionTimer]) [] [])
      | Some (rf, msgs) =>
          Done (mkOutcome rf [TLeader] ((fun m => PAppend i (Z.to_nat m.1) m.2) <$> msgs) [])
      end
  | THeartBeat =>
      o ← heartbeat rf;
      match o with
      | None => Done (mkOutcome rf [] [] [])
      | Some msgs => Done (mkOutcome rf [THeartBeat] ((fun m => PAppend i (Z.to_nat m.1) m.2) <$> msgs) [])
      end
  | TApplier =>
      o ← applier_round rf;
      match o with
      | None => Done (mkOutcome rf (if killed rf then [] else [TApplier]) [] [])
      | Some (rf, msgs) => Done (mkOutcome rf [TApplier] [] msgs)
      end
  | TVoteReset client args reply =>
      Done (mkOutcome (resetTimer interval now rf) [] [PVoteReply client i args reply] [])
  | TAppendReset client args => Done (mkOutcome (resetTimer interval now rf) [TAppendLog client args] [] [])
  | TAppendLog client args =>
      '(rf, reply) ← AppendEntries_log rf args;
      Done (mkOutcome rf [] [PAppendReply client i args reply] [])
  end.

(** A packet arrives: the server it concerns and what happens there. *)
Definition target (p : packet) : nat :=
  match p with PVote _ to _ | PAppend _ to _ => to | PVoteReply from _ _ _ | PAppendReply from _ _ _ => from end.

Definition deliver (rf : Raft) (p : packet) : go outcome :=
  match p with
  | PVote from to args =>
      '(rf, reply, reset) ← RequestVote rf args;
      if (reset : bool) then Done (mkOutcome rf [TVoteReset from args reply] [] [])
      else Done (mkOutcome rf [] [PVoteReply from to args reply] [])
  | PVoteReply _ _ args reply => Done (mkOutcome (sendRequestVote_reply rf args reply) [] [] [])
  | PAppend from to args =>
      let '(rf, o) := AppendEntries_term rf args in
      match o with
      | Some reply => Done (mkOutcome rf [] [PAppendReply from to args reply] [])
      | None => Done (mkOutcome rf [TAppendReset from args] [] [])
      end
  | PAppendReply _ to args reply =>
      rf ← sendAppendEntries_reply rf (Z.of_nat to) args reply;
      Done (mkOutcome rf [] [] [])
  end.

Inductive cact :=
| CRun (i k : nat) (interval now : Z)
| CDeliver (k : nat)
| CDrop (k : nat)
| CStart (i : nat) (command : C)
| CKill (i : nat)
| CRestart (i : nat) (interval now : Z).

Definition lookup_go {A} (l : list A) (i : nat) : go A :=
  match l !! i with Some x => Done x | None => Stuck end.

(** Install the outcome of a section of server [i], whose remaining
    goroutines are [ths]. *)
Definition install (cl : cluster) (i : nat) (sv : server) (ths : list thread) (net : list packet)
    (o : outcome) : cluster :=
  mkCluster (<[i := mkServer (o_node o) (ths ++ o_threads o) (delivered sv ++ o_applied o)]>
               (servers cl)) (net ++ o_packets o).

Definition cstep (cl : cluster) (a : cact) : go cluster :=
  match a with
  | CRun i k interval now =>
      sv ← lookup_go (servers cl) i;
      th ← lookup_go (threads sv) k;
      o ← run_thread i (node sv) th interval now;
      Done (install cl i sv (delete k (threads sv)) (net cl) o)
  | CDeliver k =>
      p ← lookup_go (net cl) k;
      sv ← lookup_go (servers cl) (target p);
      o ← deliver (node sv) p;
      Done (install cl (target p) sv (threads sv) (delete k (net cl)) o)
  | CDrop k => Done (mkCluster (servers cl) (delete k (net cl)))
  | CStart i command =>
      sv ← lookup_go (servers cl) i;
      Done (install cl i sv (threads sv) (net cl) (mkOutcome (Start (node sv) command).1 [] [] []))
  | CKill i =>
      sv ← lookup_go (servers cl) i;
      Done (install cl i sv (threads sv) (net cl) (mkOutcome (Kill (node sv)) [] [] []))
  | CRestart i interval now =>
      sv ← lookup_go (servers cl) i;
      rf ← Make (peers (node sv)) (me (node sv)) (Persister.Copy (persister (node sv))) interval now;
      Done (mkCluster (<[i := mkServer rf [TElectionTimer; TApplier] []]> (servers cl)) (net cl))
  end.

Fixpoint crun (cl : cluster) (acts : list cact) : go cluster :=
  match acts with
  | [] => Done cl
  | a :: acts => cl ← cstep cl a; crun cl acts
  end.

(** [n] servers started on empty persisters. *)
Definition cluster_init (n : nat) : cluster :=
  mkCluster ((fun i => mkServer (fresh n (Z.of_nat i)) [TElectionTimer; TApplier] []) <$> seq 0 n) [].

(** ** Every step of the cluster is a step of one server *)

Lemma run_thread_node i rf th interval now rf' ths ps msgs :
  run_thread i rf th interval now = Done (mkOutcome rf' ths ps msgs) →
  rf' = rf ∨ ∃ a o, node_step rf a = Done (rf', o).
Proof.
  intros H. destruct th; cbn [run_thread] in H.
  - go_cases H; simplify_eq; by left.
  - right. go_cases H. simplify_eq. exists ACandidate, ONone. cbn. by rewrite E.
  - right. go_cases H. simplify_eq. by exists (AResetTimer interval now), ONone.
  - destruct (candidate_poll rf term); go_cases H; simplify_eq; by left.
  - right. go_cases H. simplify_eq. by exists ALeaderInit, ONone.
  - go_cases H; simplify_eq; [|by left].
    right. exists ALeaderRound, ONone. cbn. by rewrite E.
  - go_cases H; simplify_eq; by left.
  - go_cases H; simplify_eq; [|by left].
    right. exists AApply, (OApplied msgs). cbn. by rewrite E.
  - right. go_cases H. simplify_eq. by exists (AResetTimer interval now), ONone.
  - right. go_cases H. simplify_eq. by exists (AResetTimer interval now), ONone.
  - right. go_cases H. simplify_eq. exists (AAppendLog args), ONone. cbn. by rewrite E.
Qed.

Lemma deliver_node rf p rf' ths ps msgs :
  deliver rf p = Done (mkOutcome rf' ths ps msgs) → rf' = rf ∨ ∃ a o, node_step rf a = Done (rf', o).
Proof.
  intros H. destruct p; cbn [deliver] in H.
  - right. go_cases H; simplify_eq; exists (ARequestVote args); eexists; cbn; by rewrite E.
  - right. go_cases H. simplify_eq. by exists (AVoteReply args reply), ONone.
  - right. destruct (AppendEntries_term rf args) as [rf1 [r|]] eqn:E; go_cases H; simplify_eq;
      exists (AAppendTerm args), ONone; cbn; by rewrite E.
  - right. go_cases H. simplify_eq. exists (AAppendReply (Z.of_nat to) args reply), ONone.
    cbn. by rewrite E.
Qed.

(** A step of the cluster leaves a server as it is, or is a step of it. *)
Lemma cstep_node cl a cl' i sv' :
  cstep cl a = Done cl' → servers cl' !! i = Some sv' →
  ∃ sv, servers cl !! i = Some sv ∧
    (node sv' = node sv ∨ ∃ b o, node_step (node sv) b = Done (node sv', o)).
Proof.
  assert (∀ j sv ths nt o, servers cl !! j = Some sv →
    (o_node o = node sv ∨ ∃ b o', node_step (node sv) b = Done (o_node o, o')) →
    servers (install cl j sv ths nt o) !! i = Some sv' →
    ∃ sv, servers cl !! i = Some sv ∧
      (node sv' = node sv ∨ ∃ b o, node_step (node sv) b = Done (node sv', o))) as Hinst.
  { intros j sv ths nt o Hj Ho Hi. cbn in Hi.
    apply list_lookup_insert_Some in Hi as [(-> & <- & _)|[_ Hi]]; [by exists sv|].
    exists sv'. by auto. }
  assert (∀ A (l : list A) k x, lookup_go l k = Done x → l !! k = Some x) as Hlk.
  { intros A l k x. unfold lookup_go. by destruct (l !! k); intros [= ->]. }
  intros H Hi. destruct a; cbn [cstep] in H; go_cases H; subst cl'.
  - apply Hlk in E. destruct a1 as [rf' ths ps msgs]. eapply Hinst; [done| |done].
    by eapply run_thread_node.
  - apply Hlk in E0. destruct a1 as [rf' ths ps msgs]. eapply Hinst; [done| |done].
    by eapply deliver_node.
  - exists sv'. auto.
  - apply Hlk in E. eapply Hinst; [done| |done]. right. by exists (AStart command), ONone.
  - apply Hlk in E. eapply Hinst; [done| |done]. right. by exists AKill, ONone.
  - apply Hlk in E. cbn in Hi.
    apply list_lookup_insert_Some in Hi as [(-> & <- & _)|[_ Hi]]; [|exists sv'; by auto].
    exists a. split; [done|]. right. exists (ARestart interval now), ONone. cbn. by rewrite E0.
Qed.

Context `{!Gob Z, !Gob (list (Log C))}.

Definition all_durable (cl : cluster) : Prop :=
  ∀ i sv, servers cl !! i = Some sv → durable (node sv).

Lemma crun_advances cl acts cl' :
  all_durable cl → crun cl acts = Done cl' →
  all_durable cl' ∧ ∀ i sv', servers cl' !! i = Some sv' →
    ∃ sv, servers cl !! i = Some sv ∧ currentTerm (node sv) ≤ currentTerm (node sv').
Proof.
  revert cl. induction acts as [|a acts IH]; intros cl Hd H; cbn [crun] in H.
  { injection H as <-. split; [done|]. intros i sv' Hi. exists sv'. split; [done|lia]. }
  go_cases H. rename a0 into cl1.
  assert (∀ i sv', servers cl1 !! i = Some sv' → ∃ sv, servers cl !! i = Some sv ∧
    advances (node sv) (node sv')) as Hstep.
  { intros i sv' Hi. destruct (cstep_node _ _ _ _ _ E Hi) as (sv & Hsv & [->|(b & o & Hb)]);
      exists sv; (split; [done|]); [by apply advances_same|].
    eapply node_step_advances; [by eapply Hd|done]. }
  destruct (IH cl1) as [Hd' Ht]; [|done|].
  { intros i sv' Hi. destruct (Hstep i sv' Hi) as (sv & Hsv & [_ Ha]). by eapply Ha, Hd. }
  split; [done|]. intros i sv' Hi. destruct (Ht i sv' Hi) as (sv1 & H1 & Hle).
  destruct (Hstep i sv1 H1) as (sv & Hsv & [Hle' _]). exists sv. split; [done|lia].
Qed.

Lemma all_durable_init n : all_durable (cluster_init n).
Proof.
  intros i sv Hi. cbn in Hi. apply list_lookup_fmap_Some in Hi as (j & -> & _). apply durable_fresh.
Qed.

(** C19: whatever a cluster does, with whatever message losses, reorderings,
    crashes and restarts, the term of no server ever decreases, and at any
    moment every server could be restarted from its persister without a
    panic, with its term and its log intact. *)
Theorem cluster_terms_and_storage n acts1 acts2 cl1 cl2 i sv2 :
  crun (cluster_init n) acts1 = Done cl1 → crun cl1 acts2 = Done cl2 →
  servers cl2 !! i = Some sv2 →
  (∃ sv1, servers cl1 !! i = Some sv1 ∧ currentTerm (node sv1) ≤ currentTerm (node sv2)) ∧
  ∀ interval now, ∃ cl3 sv3, cstep cl2 (CRestart i interval now) = Done cl3 ∧
    servers cl3 !! i = Some sv3 ∧ currentTerm (node sv3) = currentTerm (node sv2) ∧
    log (node sv3) = log (node sv2) ∧ state (node sv3) = FOLLOWER.
Proof.
  intros H1 H2 Hi. apply crun_advances in H1 as [Hd1 _]; [|apply all_durable_init].
  apply crun_advances in H2 as [Hd2 Ht]; [|done]. split; [by apply Ht|].
  intros interval now. cbn [cstep]. unfold lookup_go. rewrite Hi. go_simpl.
  destruct (Make_saved (peers (node sv2)) (me (node sv2)) (Persister.Copy (persister (node sv2)))
    (currentTerm (node sv2)) (log (node sv2)) interval now) as [v ->].
  { rewrite Copy_id. by eapply Hd2. }
  go_simpl. eexists _, _. split; [done|]. cbn. rewrite list_lookup_insert_eq; [done|].
  eauto with go_lists.
Qed.

End cluster.
Arguments cluster _ : clear implicits.
Arguments packet _ : clear implicits.
Arguments thread _ : clear implicits.
Arguments server _ : clear implicits.
Arguments cact _ : clear implicits.
