(* ===== verification/RaftMatching.v ===== *)
(** * Log matching in a cluster

    [AppendEntries] compares the term of one entry and takes over what
    follows it.  That this is enough to keep logs equal up to their last
    common point is a property of all the logs and all the requests that ever
    existed, proved here for every run of a cluster in which [Start] does not
    return the same index and term twice. *)

From S2P Require Import Prelude Gob RaftNode RaftSafety RaftLog RaftWf RaftCluster.
Local Open Scope Z_scope.

Section matching.
Context {C : Type} `{!Inhabited C, !GobCodec Z, !GobCodec (list (Log C))}.
Notation Raft := (Raft C).
Implicit Types (rf : Raft) (l L M : list (Log C)) (cl : cluster C)
  (G : list (list (Log C))) (P : list (Z * Z)).

(** ** What [Start] answers *)

(** The index and the term that an accepted command was promised. *)
Definition promised cl (a : cact C) : list (Z * Z) :=
  match a with
  | CStart i command =>
      match servers cl !! i with
      | Some sv =>
          let '(_, (index, term, isLeader)) := Start (node sv) command in
          if (isLeader : bool) then [(index, term)] else []
      | None => []
      end
  | _ => []
  end.

Fixpoint promises cl (acts : list (cact C)) : list (Z * Z) :=
  match acts with
  | [] => []
  | a :: acts =>
      promised cl a ++ match cstep cl a with Done cl' => promises cl' acts | _ => [] end
  end.

(** ** The logs that ever existed *)

(** The request [args] was cut out of the log [L]. *)
Definition cut_from L (args : AppendEntriesArgs C) : Prop :=
  ∃ p x, L !! p = Some x ∧ PrevLogIndex args = Z.of_nat p ∧ PrevLogTerm args = Term x ∧
    Entries args = drop (Datatypes.S p) L.

Definition thread_args (th : thread C) : option (AppendEntriesArgs C) :=
  match th with TAppendReset _ args | TAppendLog _ args => Some args | _ => None end.

Definition packet_args (p : packet C) : option (AppendEntriesArgs C) :=
  match p with PAppend _ _ args => Some args | _ => None end.

(** [G] is a set of logs that match pairwise, whose entries were all
    promised, and that accounts for the logs of the servers and for the
    requests that are on their way. *)
Record logs_ok (P : list (Z * Z)) (G : list (list (Log C))) : Prop := {
  G_matching : ∀ L M, L ∈ G → M ∈ G → log_matching L M;
  G_promised : ∀ L (i : nat) x, L ∈ G → L !! i = Some x → i ≠ 0%nat → (Z.of_nat i, Term x) ∈ P;
  G_nonempty : ∀ L, L ∈ G → L ≠ [];
}.

Definition args_from G (o : option (AppendEntriesArgs C)) : Prop :=
  ∀ args, o = Some args → ∃ L, L ∈ G ∧ cut_from L args.

Record server_ok G (sv : server C) : Prop := {
  sv_durable : durable (node sv);
  sv_log : log (node sv) ∈ G;
  sv_threads : ∀ th, th ∈ threads sv → args_from G (thread_args th);
}.

Record cluster_ok P G cl : Prop := {
  cl_logs : logs_ok P G;
  cl_servers : ∀ i sv, servers cl !! i = Some sv → server_ok G sv;
  cl_net : ∀ p, p ∈ net cl → args_from G (packet_args p);
}.

Lemma logs_ok_extend P G l t c :
  logs_ok P G → l ∈ G → (zlen l, t) ∉ P →
  logs_ok ((zlen l, t) :: P) ((l ++ [mkLog t c]) :: G).
Proof.
  intros [Hm Hp Hn] Hl Hfresh.
  assert (∀ M, M ∈ G → log_matching (l ++ [mkLog t c]) M) as Hnew.
  { intros M HM i x y Hx Hy Ht. apply lookup_app_Some in Hx as [Hx|[Hi Hx]].
    - rewrite take_app_le by (apply lookup_lt_Some in Hx; lia). by apply (Hm l M Hl HM i x y).
    - assert (i = length l) as -> by (apply lookup_lt_Some in Hx; cbn in Hx; lia).
      rewrite Nat.sub_diag in Hx. injection Hx as <-. exfalso. apply Hfresh.
      unfold zlen. cbn in Ht. rewrite Ht. eapply Hp; [exact HM|exact Hy|].
      specialize (Hn l Hl). by destruct l. }
  split.
  - intros L M [->|HL]%elem_of_cons [->|HM]%elem_of_cons.
    + by intros i x y Hx Hy _.
    + by apply Hnew.
    + by apply log_matching_sym, Hnew.
    + by apply Hm.
  - intros L i x [->|HL]%elem_of_cons Hx Hi; [|right; by eapply Hp].
    apply lookup_app_Some in Hx as [Hx|[Hle Hx]]; [right; by eapply Hp|].
    assert (i = length l) as -> by (apply lookup_lt_Some in Hx; cbn in Hx; lia).
    rewrite Nat.sub_diag in Hx. injection Hx as <-. left.
  - intros L [->|HL]%elem_of_cons; [by destruct l|by apply Hn].
Qed.

(** ** Requests are cut out of the log of their sender *)

Lemma termAt_Done l i t :
  termAt l i = Done t → ∃ x, 0 ≤ i ∧ l !! Z.to_nat i = Some x ∧ t = Term x.
Proof.
  unfold termAt. intros H. go_cases H. subst t. apply idx_Done in E as [? ?]. by exists a.
Qed.

Lemma replicate_loop_cut rf server next msgs :
  replicate_loop rf server next = Done msgs → Forall (fun m => cut_from (log rf) m.2) msgs.
Proof.
  revert server msgs. induction next as [|index next IH]; intros server msgs H;
    cbn [replicate_loop] in H; go_cases H; simplify_eq; [constructor| |by eapply IH].
  constructor; [|by eapply IH]. apply termAt_Done in E as (x & Hi & Hx & ->).
  exists (Z.to_nat (index - 1)), x. cbn. split; [done|]. split; [lia|]. split; [done|].
  f_equal. lia.
Qed.

Lemma leader_round_cut rf rf' msgs :
  leader_round rf = Done (Some (rf', msgs)) → Forall (fun m => cut_from (log rf) m.2) msgs.
Proof. unfold leader_round. intros H. go_cases H; simplify_eq. by eapply replicate_loop_cut. Qed.

Lemma heartbeat_cut rf msgs :
  heartbeat rf = Done (Some msgs) → Forall (fun m => cut_from (log rf) m.2) msgs.
Proof.
  unfold heartbeat. intros H. go_cases H; simplify_eq.
  apply termAt_Done in E as (x & Hi & Hx & ->). apply Forall_fmap, Forall_forall. intros i _. cbn.
  exists (Z.to_nat (zlen (log rf) - 1)), x. cbn. split; [done|]. split; [lia|]. split; [done|].
  rewrite drop_ge; [done|]. len.
Qed.

(** A server that handles a request keeps its log or takes the sender's. *)
Lemma AppendEntries_log_cut rf args rf' reply L :
  log_matching L (log rf) → cut_from L args →
  AppendEntries_log rf args = Done (rf', reply) → log rf' = log rf ∨ log rf' = L.
Proof.
  intros Hm (p & x & Hx & Hp & Ht & He) Hrun.
  destruct (AppendEntries_log_result rf args rf' reply) as [->|(p' & y & Hp' & Hy & Hty & ->)];
    [lia|done|by left|].
  assert (p' = p) as -> by lia. rewrite He.
  destruct (overwrite_matching L (log rf) p x y) as [->|[-> _]]; [done..|congruence|by right|by left].
Qed.

(** ** Every step accounts for the logs and requests it makes *)

Context `{!Gob Z, !Gob (list (Log C))}.

Record outcome_ok G (o : outcome (C:=C)) : Prop := {
  o_durable : durable (o_node o);
  o_log : log (o_node o) ∈ G;
  o_threads_ok : ∀ th, th ∈ o_threads o → args_from G (thread_args th);
  o_packets_ok : ∀ p, p ∈ o_packets o → args_from G (packet_args p);
}.

Lemma args_from_none G : args_from G None.
Proof. by intros args. Qed.
#[local] Hint Resolve args_from_none : core.

Lemma args_from_sent G l i (msgs : list (Z * AppendEntriesArgs C)) p :
  l ∈ G → Forall (fun m => cut_from l m.2) msgs →
  p ∈ (fun m => PAppend i (Z.to_nat m.1) m.2) <$> msgs → args_from G (packet_args p).
Proof.
  intros Hl Hf (m & -> & Hm)%list_elem_of_fmap args [= <-]. exists l. split; [done|].
  rewrite Forall_forall in Hf. by apply Hf.
Qed.

(** Steps that leave the log as it is and send no entries. *)
Lemma outcome_quiet G rf a rf' o ths ps ms :
  durable rf → log rf ∈ G →
  match a with AAppendLog _ | AStart _ => False | _ => True end →
  node_step rf a = Done (rf', o) →
  (∀ th, th ∈ ths → args_from G (thread_args th)) →
  (∀ p, p ∈ ps → args_from G (packet_args p)) →
  outcome_ok G (mkOutcome rf' ths ps ms).
Proof.
  intros Hd Hl Ha Hs Ht Hp. split; cbn; [|by erewrite node_step_log|done|done].
  by eapply node_step_advances.
Qed.

Lemma outcome_same G rf ths ps ms :
  durable rf → log rf ∈ G → (∀ th, th ∈ ths → args_from G (thread_args th)) →
  (∀ p, p ∈ ps → args_from G (packet_args p)) → outcome_ok G (mkOutcome rf ths ps ms).
Proof. by split. Qed.

(** No goroutine in [ths] carries a request. *)
Ltac no_args :=
  intros ? Hx; repeat (apply elem_of_cons in Hx as [->|Hx]; [by apply args_from_none|]);
  by apply elem_of_nil in Hx.

Lemma run_thread_ok P G i rf th interval now o :
  logs_ok P G → durable rf → log rf ∈ G → args_from G (thread_args th) →
  run_thread i rf th interval now = Done o → outcome_ok G o.
Proof.
  intros HG Hd Hl Hth H. destruct th; cbn [run_thread] in H.
  - go_cases H; subst o; apply outcome_same; no_args || done.
  - go_cases H. subst o. eapply (outcome_quiet G rf ACandidate); [done..| |no_args|no_args].
    cbn. by rewrite E.
  - go_cases H. subst o. eapply (outcome_quiet G rf (AResetTimer interval now)); [done..|no_args|].
    by intros p (m & -> & _)%list_elem_of_fmap.
  - destruct (candidate_poll rf term); go_cases H; subst o; apply outcome_same; no_args || done.
  - go_cases H. subst o. eapply (outcome_quiet G rf ALeaderInit); [done..|no_args|no_args].
  - go_cases H; subst o; [|apply outcome_same; [done..|destruct (killed rf); no_args|no_args] ].
    eapply (outcome_quiet G rf ALeaderRound); [done..| |no_args|].
    + cbn. by rewrite E.
    + intros p. eapply args_from_sent; [done|by eapply leader_round_cut].
  - go_cases H; subst o; apply outcome_same; try no_args || done.
    intros p. eapply args_from_sent; [done|by eapply heartbeat_cut].
  - go_cases H; subst o; [|apply outcome_same; [done..|destruct (killed rf); no_args|no_args] ].
    eapply (outcome_quiet G rf AApply); [done..| |no_args|no_args]. cbn. by rewrite E.
  - go_cases H. subst o. eapply (outcome_quiet G rf (AResetTimer interval now)); [done..|no_args|no_args].
  - go_cases H. subst o. eapply (outcome_quiet G rf (AResetTimer interval now)); [done..| |no_args].
    by intros ? ->%list_elem_of_singleton.
  - go_cases H. subst o. destruct (Hth args eq_refl) as (L & HL & Hcut). split; cbn.
    + eapply (node_step_advances rf (AAppendLog args)); [done|cbn; by rewrite E|done].
    + destruct (AppendEntries_log_cut _ _ _ _ L (G_matching _ _ HG _ _ HL Hl) Hcut E) as [->| ->]; done.
    + no_args.
    + no_args.
Qed.

Lemma deliver_ok G rf p o :
  durable rf → log rf ∈ G → args_from G (packet_args p) → deliver rf p = Done o → outcome_ok G o.
Proof.
  intros Hd Hl Hp H. destruct p; cbn [deliver] in H.
  - go_cases H; subst o; (eapply (outcome_quiet G rf (ARequestVote args)); [done..| |no_args|no_args]);
      cbn; by rewrite E.
  - go_cases H. subst o.
    eapply (outcome_quiet G rf (AVoteReply args reply)); [done..|no_args|no_args].
  - destruct (AppendEntries_term rf args) as [rf1 [r|]] eqn:E; go_cases H; subst o;
      (eapply (outcome_quiet G rf (AAppendTerm args)); [done..|cbn; by rewrite E| |no_args]).
    + no_args.
    + by intros ? ->%list_elem_of_singleton.
  - go_cases H. subst o.
    eapply (outcome_quiet G rf (AAppendReply (Z.of_nat to) args reply)); [done..| |no_args|no_args].
    cbn. by rewrite E.
Qed.

(** ** The invariant *)

Lemma args_from_mono G G' o : G ⊆ G' → args_from G o → args_from G' o.
Proof. intros Hs Ha args Ho. destruct (Ha args Ho) as (L & HL & Hc). exists L. auto. Qed.

Lemma install_ok P G cl P' G' i sv ths nt o :
  cluster_ok P G cl → logs_ok P' G' → G ⊆ G' → servers cl !! i = Some sv →
  ths ⊆ threads sv → nt ⊆ net cl → outcome_ok G' o →
  cluster_ok P' G' (install cl i sv ths nt o).
Proof.
  intros [HG Hs Hn] HG' Hsub Hi Hths Hnt [Hd Hl Hot Hop]. split; [done| |].
  - intros j sv' Hj. cbn in Hj. apply list_lookup_insert_Some in Hj as [(-> & <- & _)|[_ Hj]].
    + split; cbn; [done|done|]. intros th [Hth|Hth]%elem_of_app; [|by apply Hot].
      eapply args_from_mono; [done|]. by apply (Hs _ _ Hi), Hths.
    + destruct (Hs _ _ Hj) as [Hd' Hl' Ht']. split; [done|by apply Hsub|].
      intros th Hth. eapply args_from_mono; [done|]. by apply Ht'.
  - intros p. cbn. intros [Hp|Hp]%elem_of_app; [|by apply Hop].
    eapply args_from_mono; [done|]. by apply Hn, Hnt.
Qed.

Lemma delete_subseteq {A} (k : nat) (l : list A) : delete k l ⊆ l.
Proof. apply list_subseteq_delete. Qed.

Lemma lookup_go_Done {A} (l : list A) k x : lookup_go l k = Done x → l !! k = Some x.
Proof. unfold lookup_go. by destruct (l !! k); intros [= ->]. Qed.

Lemma cstep_ok P G cl a cl' :
  cluster_ok P G cl → NoDup (promised cl a) → (∀ q, q ∈ promised cl a → q ∉ P) →
  cstep cl a = Done cl' → ∃ G', G ⊆ G' ∧ cluster_ok (promised cl a ++ P) G' cl'.
Proof.
  intros Hcl Hnd Hfr H. destruct a; cbn [cstep] in H; go_cases H; subst cl'; cbn [promised app];
    repeat match goal with E : lookup_go _ _ = Done _ |- _ => apply lookup_go_Done in E end.
  - exists G. split; [done|]. pose proof (cl_servers _ _ _ Hcl _ _ E) as [Hd Hl Ht].
    eapply install_ok; [done|apply Hcl|done|done|apply delete_subseteq|done|].
    eapply run_thread_ok; [apply Hcl|done|done| |done]. apply Ht. eauto with go_lists.
  - exists G. split; [done|]. pose proof (cl_servers _ _ _ Hcl _ _ E0) as [Hd Hl Ht].
    eapply install_ok; [done|apply Hcl|done|done|done|apply delete_subseteq|].
    eapply deliver_ok; [done|done| |done]. eapply cl_net; [done|]. eauto with go_lists.
  - exists G. split; [done|]. destruct Hcl as [HG Hs Hn]. split; [done|done|].
    intros p Hp%delete_subseteq. by apply Hn.
  - cbn [promised] in Hfr. rewrite E in Hfr |- *. pose proof (cl_servers _ _ _ Hcl _ _ E) as [Hd Hl Ht].
    unfold Start in *. destruct (_ || _).
    + exists G. split; [done|]. eapply install_ok; [done|apply Hcl|done|done|done|done|]. by split; cbn; try no_args.
    + cbn in Hfr. assert (zlen (log (node a) ++ [mkLog (currentTerm (node a)) command]) - 1 =
        zlen (log (node a))) as Ez by len.
      rewrite Ez in Hfr. cbn. rewrite Ez.
      exists ((log (node a) ++ [mkLog (currentTerm (node a)) command]) :: G).
      assert (G ⊆ (log (node a) ++ [mkLog (currentTerm (node a)) command]) :: G) as Hsub
        by (intros x Hx; by right).
      split; [done|]. eapply install_ok; [done| |done|done|done|done|].
      * apply logs_ok_extend; [apply Hcl|done|]. apply Hfr. left.
      * split; cbn; [apply durable_persist|left|no_args|no_args].
  - exists G. split; [done|]. pose proof (cl_servers _ _ _ Hcl _ _ E) as [Hd Hl Ht].
    eapply install_ok; [done|apply Hcl|done|done|done|done|].
    split; cbn; [|done|no_args|no_args]. by eapply durable_ext.
  - exists G. split; [done|]. pose proof (cl_servers _ _ _ Hcl _ _ E) as [Hd Hl Ht].
    destruct Hcl as [HG Hs Hn]. split; [done| |done].
    intros j sv' Hj. cbn in Hj. apply list_lookup_insert_Some in Hj as [(-> & <- & _)|[_ Hj]]; [|by eapply Hs].
    assert (node_step (node a) (ARestart interval now) = Done (a0, ONone)) as Hst by (cbn; by rewrite E0).
    split; cbn; [by eapply node_step_advances|by rewrite (node_step_log _ (ARestart interval now) _ _ Hd I Hst)|no_args].
Qed.

Lemma crun_ok P G cl acts cl' :
  cluster_ok P G cl → NoDup (promises cl acts) → (∀ q, q ∈ promises cl acts → q ∉ P) →
  crun cl acts = Done cl' →
  ∃ P' G', G ⊆ G' ∧ cluster_ok P' G' cl' ∧ ∀ q, q ∈ P' → q ∈ P ∨ q ∈ promises cl acts.
Proof.
  revert P G cl. induction acts as [|a acts IH]; intros P G cl Hcl Hnd Hfr H; cbn [crun promises] in *.
  { injection H as <-. exists P, G. auto. }
  go_cases H. rewrite E in *. apply NoDup_app in Hnd as (Hn1 & Hd & Hn2).
  destruct (cstep_ok P G cl a a0) as (G1 & Hs1 & HG1); [done|done|set_solver|done|].
  destruct (IH _ _ _ HG1 Hn2) as (P' & G' & Hs & HG' & HP); [set_solver|done|].
  exists P', G'. split; [by etrans|]. split; [done|]. set_solver.
Qed.

Lemma crun_app cl acts1 acts2 cl1 :
  crun cl acts1 = Done cl1 → crun cl (acts1 ++ acts2) = crun cl1 acts2.
Proof.
  revert cl. induction acts1 as [|a acts IH]; intros cl H; cbn in *; [by injection H as ->|].
  go_cases H. rewrite E. cbn. by apply IH.
Qed.

Lemma promises_app cl acts1 acts2 cl1 :
  crun cl acts1 = Done cl1 → promises cl (acts1 ++ acts2) = promises cl acts1 ++ promises cl1 acts2.
Proof.
  revert cl. induction acts1 as [|a acts IH]; intros cl H; cbn in *; [by injection H as ->|].
  go_cases H. rewrite E, <- app_assoc. f_equal. by apply IH.
Qed.

Lemma cluster_ok_init n : cluster_ok [] [ [mkLog 0 inhabitant] ] (cluster_init n).
Proof.
  split.
  - split.
    + by intros L M ->%list_elem_of_singleton ->%list_elem_of_singleton i x y Hx Hy.
    + intros L [|i] x ->%list_elem_of_singleton Hx Hi; done.
    + by intros L ->%list_elem_of_singleton.
  - intros i sv Hi. cbn in Hi. apply list_lookup_fmap_Some in Hi as (j & -> & _).
    split; cbn; [apply durable_fresh|left|no_args].
  - intros p Hp. by apply elem_of_nil in Hp.
Qed.


End matching.
