(* ===== verification/RaftTraces.v ===== *)
(** * Concrete runs of Raft

    Runs of a server and of a cluster of three, with integers as commands:
    executions in which the code elects two leaders for one term, commits
    different commands at one index, votes twice in one term and lets a
    leader lose what it committed, and instances of the theorems on servers and logs. *)

From S2P Require Import Prelude Gob RaftNode RaftSafety RaftLog RaftVotes RaftWf RaftCluster RaftMatching.
Local Open Scope Z_scope.

#[local] Instance Log_Z_eq_dec : EqDecision (Log Z).
Proof. solve_decision. Defined.
#[local] Program Instance Log_Z_countable : Countable (Log Z) :=
  inj_countable' (fun e => (Term e, Command e)) (fun p => mkLog p.1 p.2) _.
Next Obligation. by intros []. Qed.

#[local] Instance Z_nil : Inhabited Z := populate 0.
#[local] Instance codec_Z : GobCodec Z := countable_codec Z.
#[local] Instance codec_log : GobCodec (list (Log Z)) := countable_codec (list (Log Z)).
#[local] Instance gob_Z : Gob Z := countable_gob Z.
#[local] Instance gob_log : Gob (list (Log Z)) := countable_gob (list (Log Z)).

(** ** Two leaders in one term *)

(** Servers 0 and 2 time out at the same time and start an election of term
    1; server 1 votes for server 0, which becomes leader and, in [leader],
    forgets whom it voted for; it then votes for server 2. *)
Definition split_election : list (cact Z) :=
  [ CRun 0 0 400 500; CRun 0 1 400 500; CRun 0 1 400 500;
    CRun 2 0 400 500; CRun 2 1 400 500; CRun 2 1 400 500;
    CDeliver 0; CRun 1 2 400 510; CDeliver 3; CRun 0 1 0 0; CRun 0 2 0 0;
    CDeliver 1; CRun 0 4 400 520; CDeliver 2; CRun 2 1 0 0; CRun 2 2 0 0 ].

Definition go_or {A} (d : A) (m : go A) : A := match m with Done a => a | _ => d end.

Definition roles (cl : cluster Z) : list (role * Z) :=
  (fun sv => (state (node sv), currentTerm (node sv))) <$> servers cl.

(** Each of the two leaders then replicates a command of its own to server 1
    and to itself.  Server 1 already has an entry of term 1 at index 1 when
    the second one arrives, so it keeps it and reports success. *)
Definition replicate_by (i : nat) : list (cact Z) :=
  [ CRun i 2 0 0; CDrop (if bool_decide (i = 0%nat) then 2 else 0);
    CDeliver (if bool_decide (i = 0%nat) then 1 else 0); CRun 1 2 0 0; CRun 1 2 0 0;
    CDeliver 0; CRun i 4 0 0; CRun i 4 0 0; CDeliver 0; CDeliver 0;
    CRun i 3 0 0; CDrop 0; CRun i 0 0 0 ].

Definition divergence : list (cact Z) :=
  split_election ++ [CDrop 0; CDrop 0; CStart 0 10; CStart 2 20] ++ replicate_by 0 ++ replicate_by 2.

Definition delivered_by (cl : cluster Z) : list (list (Z * Z)) :=
  (fun sv => (fun m => (CommandIndex m, am_Command m)) <$> delivered sv) <$> servers cl.


(** ** Two votes in one term *)

Definition ask (term cand : Z) : nact (C:=Z) := ARequestVote (mkRVArgs term cand 0 0).

(** The vote is not in stable storage when it is granted: a server that
    restarts after voting votes again, for another candidate, in the same
    term. *)
Theorem vote_lost_on_restart :
  ∃ acts rf os a1 a2, node_run (fresh (C:=Z) 3 0) acts = Done (rf, os) ∧
    Forall (fun a => is_leader_init a = false) acts ∧
    OVote a1 (mkRVReply 1 true) ∈ os ∧ OVote a2 (mkRVReply 1 true) ∈ os ∧
    CandidateID a1 ≠ CandidateID a2.
Proof.
  exists [ask 1 1; ARestart 400 0; ask 1 2]. eexists _, _, _, _.
  split; [vm_compute; reflexivity|]. split; [by repeat constructor|].
  split; [left|]. split; [right; right; left|]. done.
Qed.

(** ** A leader that loses committed entries *)

(** Server 0 is elected in term 1 and sends a command to server 2, where
    [AppendEntries] accepts the term and gives up the lock.  Before it takes
    the lock again, server 2 is elected in term 2, commits two commands with
    server 1 and delivers them; then the old request goes on, and overwrites
    them. *)
Definition stale_append : list (cact Z) :=
  [ CRun 0 0 400 500; CRun 0 1 400 500; CRun 0 1 400 500;
    CDeliver 0; CRun 1 2 400 510; CDeliver 1; CRun 0 1 0 0; CRun 0 2 0 0;
    CStart 0 10; CDrop 0; CRun 0 2 0 0; CDeliver 2; CDrop 0; CDrop 0;
    CRun 2 0 400 2000; CRun 2 2 400 2000; CRun 2 2 400 2000; CDrop 0;
    CDeliver 0; CRun 1 2 400 2010; CDeliver 0; CRun 2 2 0 0; CRun 2 3 0 0;
    CStart 2 20; CStart 2 21; CRun 2 3 0 0; CDrop 0; CDeliver 0; CRun 1 2 0 0; CRun 1 2 0 0;
    CDeliver 1; CDeliver 0; CRun 2 5 0 0; CRun 2 5 0 0; CDeliver 0; CRun 2 4 0 0;
    CRun 2 0 0 0; CRun 2 0 0 0; CRun 2 4 0 0; CStart 2 22 ].

Definition leaders (cl : cluster Z) : list (Z * Z) :=
  omap (fun sv => if bool_decide (state (node sv) = LEADER)
                  then Some (currentTerm (node sv), me (node sv)) else None) (servers cl).

(** The terms and their leaders, over a whole run. *)
Fixpoint leaders_seen (cl : cluster Z) (acts : list (cact Z)) : list (Z * Z) :=
  leaders cl ++
  match acts with
  | [] => []
  | a :: acts => match cstep cl a with Done cl' => leaders_seen cl' acts | _ => [] end
  end.

Definition logs_of (cl : cluster Z) : list (list (Z * Z)) :=
  (fun sv => (fun e => (Term e, Command e)) <$> log (node sv)) <$> servers cl.

(** C21: one leader per term is not enough.  [AppendEntries] does not look at
    the term again after it has given up the lock: in a run in which every
    term has a single leader and no server fails, a request of term 1 that
    was still being handled overwrites the log of the leader of term 2, which
    loses two commands it has committed and delivered, and then promises an
    index and a term a second time, so that log matching fails. *)
Theorem stale_append_overwrites_leader :
  ∃ acts cl, crun (cluster_init (C:=Z) 3) acts = Done cl ∧
    (∀ t i j, (t, i) ∈ leaders_seen (cluster_init 3) acts →
              (t, j) ∈ leaders_seen (cluster_init 3) acts → i = j) ∧
    promises (cluster_init 3) acts = [(1, 1); (1, 2); (2, 2); (2, 2)] ∧
    delivered_by cl = [ []; []; [(1, 20); (2, 21)] ] ∧
    logs_of cl = [ [(0, 0); (1, 10)]; [(0, 0); (2, 20); (2, 21)]; [(0, 0); (1, 10); (2, 22)] ].
Proof.
  exists stale_append. eexists. split; [vm_compute; reflexivity|]. split; [|repeat split].
  assert (Forall (fun p => Forall (fun q => p.1 = q.1 → p.2 = q.2)
    (leaders_seen (cluster_init 3) stale_append)) (leaders_seen (cluster_init 3) stale_append)) as H
    by (eapply bool_decide_unpack; vm_compute; exact I).
  intros t i j Hi Hj. rewrite Forall_forall in H. specialize (H _ Hi). rewrite Forall_forall in H.
  by apply (H _ Hj).
Qed.

(** ** Instances *)

Definition entry1 : Log Z := mkLog 1 10.
Definition entry2 : Log Z := mkLog 1 11.

(** A server that follows a leader of term 1. *)
Definition append1 : AppendEntriesArgs Z := mkAEArgs 1 1 0 0 [entry1; entry2] 1.
Definition follow : list (nact (C:=Z)) :=
  [ask 1 1; AResetTimer 400 0; AAppendTerm append1; AAppendLog append1; AApply].
Definition follower : Raft Z := go_or (fresh 3 0) (fst <$> node_run (fresh 3 0) follow).
Definition follow_out : list nout := go_or [] (snd <$> node_run (fresh 3 0) follow).

Lemma follower_run : node_run (fresh 3 0) follow = Done (follower, follow_out).
Proof. vm_compute. reflexivity. Qed.

Lemma term_monotone_witness :
  currentTerm follower ≤ currentTerm (go_or follower (fst <$> node_run follower [ARestart 400 0; ask 7 2])).
Proof.
  eapply (term_monotone (C:=Z) 3 0 follow [ARestart 400 0; ask 7 2]); vm_compute; reflexivity.
Defined.

Lemma crash_recovers_witness :
  ∃ rf', Make (peers follower) (me follower) (Persister.Copy (persister follower)) 400 0 = Done rf' ∧
    currentTerm rf' = currentTerm follower ∧ log rf' = log follower ∧ state rf' = FOLLOWER ∧
    commitIndex rf' = 0 ∧ lastApplied rf' = 0.
Proof. apply (crash_recovers 3 0 follow follower follow_out). vm_compute. reflexivity. Defined.

(** The log of a leader that extends the follower's. *)
Definition leader_log : list (Log Z) := [mkLog 0 0; entry1; mkLog 2 12].
Definition append2 : AppendEntriesArgs Z := mkAEArgs 2 1 1 1 [mkLog 2 12] 0.

Lemma leader_log_matching : log_matching leader_log (log follower).
Proof.
  assert (log follower = [mkLog 0 0; entry1; entry2]) as -> by (vm_compute; reflexivity).
  intros [|[|[|i]]] x y Hx Hy; cbn in Hx, Hy; simplify_eq; try done.
Qed.

Definition accepted : Raft Z := go_or follower (fst <$> AppendEntries_log follower append2).
Definition accepted_reply : AppendEntriesReply := go_or noReply (snd <$> AppendEntries_log follower append2).

Lemma AppendEntries_replicates_witness :
  log accepted = leader_log ∨ (log accepted = log follower ∧ leader_log `prefix_of` log follower).
Proof.
  eapply (AppendEntries_replicates follower append2 leader_log 1 entry1) with (reply := accepted_reply).
  - reflexivity.
  - reflexivity.
  - reflexivity.
  - reflexivity.
  - discriminate.
  - exact leader_log_matching.
  - vm_compute. reflexivity.
  - vm_compute. reflexivity.
Defined.

Lemma AppendEntries_idempotent_witness :
  ∃ rf' reply, AppendEntries_log follower append2 = Done (rf', reply) ∧ Success reply = true ∧
    AppendEntries_log rf' append2 = Done (rf', reply).
Proof.
  apply (AppendEntries_idempotent follower append2 1 entry1); [reflexivity|vm_compute; reflexivity|reflexivity|discriminate].
Defined.

Definition append3 : AppendEntriesArgs Z := mkAEArgs 3 1 2 2 [mkLog 3 13] 0.

Lemma follower_rejects e :
  log follower !! 2%nat = Some e → Term e ≠ PrevLogTerm append3 ∧ Term e ≠ Term (mkLog 0 0).
Proof. vm_compute. intros [= <-]. done. Qed.

Lemma AppendEntries_rejects_witness :
  ∃ reply, AppendEntries_log follower append3 = Done (follower, reply) ∧ Success reply = false ∧
    aer_Term reply = currentTerm follower ∧
    match log follower !! 2%nat with
    | None => ConflictIndex reply = 0 ∧ LogLen reply = zlen (log follower) - 1
    | Some e => ConflictTerm reply = Term e ∧
        ∃ r : nat, ConflictIndex reply = Z.of_nat r ∧ run_start (log follower) (Term e) r 2
    end.
Proof.
  apply (AppendEntries_rejects follower append3 2 (mkLog 0 0)).
  - reflexivity.
  - vm_compute. reflexivity.
  - exact follower_rejects.
Defined.

(** A leader of term 1 with two entries, and one of term 3 with others. *)
Definition lead : list (nact (C:=Z)) := [ACandidate; ALeaderInit; AStart 10; AStart 11].
Definition leader1 : Raft Z := go_or (fresh 3 0) (fst <$> node_run (fresh 3 0) lead).

Lemma leader_round_witness :
  ∃ rf' msgs, leader_round leader1 = Done (Some (rf', msgs)) ∧
    (∀ s args, (s, args) ∈ msgs ↔
      ∃ (k : nat) (index : Z) x, nextIndex leader1 !! k = Some index ∧ s = Z.of_nat k ∧
        index ≤ zlen (log leader1) - 1 ∧ log leader1 !! Z.to_nat (index - 1) = Some x ∧
        args = replication_args leader1 index (Term x)) ∧
    ((∃ n, committable leader1 n ∧ (∀ n', n < n' → ¬ committable leader1 n') ∧
        rf' = set_commitIndex n leader1) ∨
     ((∀ n, ¬ committable leader1 n) ∧ rf' = leader1)).
Proof.
  apply (leader_round_spec leader1).
  - reflexivity.
  - vm_compute. discriminate.
  - vm_compute. split; [discriminate|reflexivity].
  - assert (nextIndex leader1 = [1; 1; 1]) as -> by (vm_compute; reflexivity).
    repeat constructor; lia.
Defined.

Definition leader3 : Raft Z :=
  go_or (fresh 3 1) (fst <$> node_run (fresh 3 1)
    [ACandidate; ACandidate; ACandidate; ALeaderInit; AStart 12; AStart 13]).
Definition probe : AppendEntriesArgs Z := mkAEArgs 1 1 2 3 [] 0.
Definition probe_reply : AppendEntriesReply := go_or noReply (snd <$> AppendEntries_log follower probe).

Lemma sorted_small (l : list (Log Z)) :
  StronglySorted (fun x y => Term x ≤ Term y) l → terms_sorted l.
Proof.
  intros Hs i j x y Hij Hi Hj. destruct (decide (i = j)) as [->|Hne].
  { rewrite Hi in Hj. injection Hj as ->. lia. }
  rewrite <- (take_drop_middle l i x Hi) in Hs. apply (StronglySorted_pair _ _ _ _ y Hs).
  apply list_elem_of_lookup. exists (j - Datatypes.S i)%nat. rewrite lookup_drop.
  replace (Datatypes.S i + (j - Datatypes.S i))%nat with j by lia. done.
Qed.

Lemma starts_example : same_starts (log leader3) (log follower).
Proof.
  assert (log leader3 = [mkLog 0 0; mkLog 3 12; mkLog 3 13]) as -> by (vm_compute; reflexivity).
  assert (log follower = [mkLog 0 0; entry1; entry2]) as -> by (vm_compute; reflexivity).
  intros t i j [(x & Hx & Hxt) Hi] [(y & Hy & Hyt) Hj].
  destruct i as [|[|[|i]]], j as [|[|[|j]]]; cbn in *; simplify_eq; try done.
Qed.

Lemma rollback_decreases_witness :
  ∃ rf' n, sendAppendEntries_reply leader3 0 probe probe_reply = Done rf' ∧
    nextIndex rf' !! Z.to_nat 0 = Some n ∧ 0 ≤ n < Z.of_nat 2 + 1.
Proof.
  eapply (rollback_decreases leader3 follower probe 2 (mkLog 3 13) (mkLog 0 0) probe_reply 0).
  - reflexivity.
  - vm_compute. reflexivity.
  - reflexivity.
  - vm_compute. reflexivity.
  - vm_compute. intros e [= <-]. split; discriminate.
  - assert (log leader3 = [mkLog 0 0; mkLog 3 12; mkLog 3 13]) as -> by (vm_compute; reflexivity).
    apply sorted_small. repeat constructor; cbn; lia.
  - assert (log follower = [mkLog 0 0; entry1; entry2]) as -> by (vm_compute; reflexivity).
    apply sorted_small. repeat constructor; cbn; lia.
  - exact starts_example.
  - vm_compute. reflexivity.
  - vm_compute. reflexivity.
  - vm_compute. discriminate.
  - vm_compute. reflexivity.
Defined.

Lemma empty_follower_witness :
  ∃ reply rf', AppendEntries_log (fresh 3 2) (mkAEArgs 0 0 2 1 [] 0) = Done (fresh 3 2, reply) ∧
    sendAppendEntries_reply leader1 2 (mkAEArgs 0 0 2 1 [] 0) reply = Done rf' ∧
    leader_round rf' = Panic.
Proof.
  eapply (empty_follower_panics_leader leader1 (fresh 3 2) (mkAEArgs 0 0 2 1 [] 0) 2).
  - reflexivity.
  - vm_compute. discriminate.
  - vm_compute. discriminate.
  - reflexivity.
  - reflexivity.
  - reflexivity.
  - vm_compute. discriminate.
  - vm_compute. reflexivity.
Defined.

Lemma one_vote_witness :
  ¬ (granted (C:=Z) (OVote (mkRVArgs 1 1 0 0) (mkRVReply 1 true)) 1 ∧
     granted (C:=Z) (OVote (mkRVArgs 1 2 0 0) (mkRVReply 1 false)) 1).
Proof.
  intros [H1 H2].
  enough (0%nat = 1%nat) by discriminate.
  eapply (one_vote_per_term (fresh 3 0) [ask 1 1; ask 1 2]) with (t := 1);
    [repeat constructor; cbn; lia|vm_compute; reflexivity|reflexivity|reflexivity|exact H1|exact H2].
Defined.

Lemma applied_in_order_witness :
  CommandIndex <$> applied follow_out =
    seqZ (lastApplied (fresh (C:=Z) 3 0) + 1) (lastApplied follower - lastApplied (fresh (C:=Z) 3 0)).
Proof.
  eapply (applied_in_order (fresh 3 0) follow); [repeat constructor|exact follower_run].
Defined.

Lemma requests_follow : requests_ok (fresh 3 0) follow.
Proof.
  unfold follow. repeat (split; [done|]). split; [|by vm_compute].
  split; [|by vm_compute]. split; cbn; [lia| | |].
  - apply sorted_small. repeat constructor; cbn; lia.
  - intros e He. repeat (apply elem_of_cons in He as [->|He]; [cbn; lia|]). by apply elem_of_nil in He.
  - intros e He. repeat (apply elem_of_cons in He as [->|He]; [cbn; lia|]). by apply elem_of_nil in He.
Qed.

Lemma log_wellformed_witness : log_ok follower.
Proof. eapply (log_wellformed 3 0 follow); [exact requests_follow|exact follower_run]. Defined.

Definition split_cluster : cluster Z := go_or (cluster_init 3) (crun (cluster_init 3) split_election).
Definition server0 : server Z :=
  go_or (mkServer follower [] []) (lookup_go (servers split_cluster) 0).

Lemma cluster_witness :
  ∃ sv, servers (cluster_init (C:=Z) 3) !! 0%nat = Some sv ∧
    currentTerm (node sv) ≤ currentTerm (node server0).
Proof.
  eapply (cluster_terms_and_storage (C:=Z) 3 [] split_election (cluster_init 3) split_cluster 0 server0);
    [reflexivity|vm_compute; reflexivity|vm_compute; reflexivity].
Defined.

(** The run up to the command that is overwritten promises every index once. *)
Definition before_overwrite : list (cact Z) := take 37 stale_append.
Definition matched : cluster Z := go_or (cluster_init 3) (crun (cluster_init 3) before_overwrite).
Definition node_at (cl : cluster Z) (i : nat) : server Z :=
  go_or (mkServer follower [] []) (lookup_go (servers cl) i).

