(* ===== verification/MapReduce.v ===== *)
(** * MapReduce tasks

    The worker's side of [labs/src/mr/worker.go] ([performMap],
    [performReduce], one round of [Worker]) and the sequential reference
    [labs/src/main/mrsequential.go], over a file system that maps names to
    contents.  JSON encoding is a parameter with its round-trip law; the
    failures of system calls are an argument ([io]).

    Without failures, the map and reduce tasks of a job leave output files
    whose lines are those that [mrsequential] writes. *)

From S2P Require Import Prelude.
From stdpp Require Import pretty.
Local Open Scope Z_scope.

(** ** Data *)

Record KeyValue := mkKV { Key : string; Value : string }.

Definition ByKey_Less (a b : KeyValue) : bool := string_less (Key a) (Key b).

#[export] Instance ByKey_order : LessOrder ByKey_Less.
Proof.
  split; intros *; unfold ByKey_Less; [apply less_trans|apply less_total].
Qed.

(** FNV-1a on 32 bits ([hash/fnv]). *)
Definition fnv32a (s : string) : Z :=
  foldl (fun h c => wrap32 (Z.lxor h (Z.of_N (Ascii.N_of_ascii c)) * 16777619)) 2166136261
    (String.list_ascii_of_string s).

Definition ihash (key : string) : Z := Z.land (fnv32a key) 2147483647.

(** [encoding/json]: a stream of values in a file. *)
Class JsonCodec := {
  json_encode : KeyValue → string;
  json_decode : string → option (KeyValue * string);
}.

Class Json `{!JsonCodec} : Prop := {
  json_roundtrip : ∀ kv rest, json_decode (json_encode kv +:+ rest) = Some (kv, rest);
  json_eof : json_decode "" = None;
  json_consumes : ∀ s kv rest, json_decode s = Some (kv, rest) →
    (String.length rest < String.length s)%nat;
}.

Notation fs := (gmap string string).

(** Which system calls fail, by the name of the file. *)
Record io := mkIO {
  fails_open : string → bool;
  fails_read : string → bool;
  fails_write : string → bool;
  fails_rename : string → bool;
}.
Definition no_failures : io :=
  mkIO (fun _ => false) (fun _ => false) (fun _ => false) (fun _ => false).

(** [fmt.Sprintf("%d", n)] *)
Definition decimal (n : nat) : string := pretty (N.of_nat n).

Definition temp_inter_name (index i : nat) : string :=
  "temp_inter_" +:+ decimal index +:+ "_" +:+ decimal i +:+ ".json".
Definition inter_name (index i : nat) : string :=
  "inter_" +:+ decimal index +:+ "_" +:+ decimal i +:+ ".json".
Definition temp_out_name (index : nat) : string := "temp-mr-out-" +:+ decimal index.
Definition out_name (index : nat) : string := "mr-out-" +:+ decimal index.

Definition newline : string := String (Ascii.ascii_of_nat 10) "".

(** One line of output: [fmt.Fprintf(f, "%v %v\n", key, output)]. *)
Definition out_line (ko : string * string) : string := ko.1 +:+ " " +:+ ko.2 +:+ newline.

Definition concat_str (l : list string) : string := foldr String.append "" l.

(** Writing [data] from the start of a file opened without [O_TRUNC]. *)
Definition write_over (old data : string) : string :=
  data +:+ String.substring (String.length data) (String.length old - String.length data) old.

(** Deferred [os.Remove] of the temporary files. *)
Definition remove_all (names : list string) (f : fs) : fs := foldr delete f names.

Section tasks.
Context `{!JsonCodec}.
Context (sortKV : list KeyValue → list KeyValue).

(** ** Map tasks *)

(** The buckets, one per reduce task. *)
Fixpoint bucket_loop (kvall : list (list KeyValue)) (nReduce : nat) (map_res : list KeyValue)
    : go (list (list KeyValue)) :=
  match map_res with
  | [] => Done kvall
  | kv :: map_res =>
      if bool_decide (nReduce = 0%nat) then Panic
      else
        let index := ihash (Key kv) `mod` Z.of_nat nReduce in
        old ← idx kvall index;
        kvall ← upd kvall index (old ++ [kv]);
        bucket_loop kvall nReduce map_res
  end.

(** The files, written under a temporary name and renamed; returns the
    temporary names to remove. *)
Fixpoint write_loop (ios : io) (index i : nat) (kvall : list (list KeyValue)) (f : fs)
    : fs * list string * bool :=
  match kvall with
  | [] => (f, [], true)
  | kva :: kvall =>
      let oldname := temp_inter_name index i in
      if fails_open ios oldname then (f, [], false)
      else
        let f := <[oldname := write_over (default "" (f !! oldname))
                                (concat_str (json_encode <$> kva))]> f in
        if fails_write ios oldname then (f, [oldname], false)
        else if fails_rename ios oldname then (f, [oldname], false)
        else
          let f := <[inter_name index i := default "" (f !! oldname)]> (delete oldname f) in
          let '(f, temps, ok) := write_loop ios index (S i) kvall f in
          (f, oldname :: temps, ok)
  end.

Definition performMap (ios : io) (mapf : string → string → list KeyValue) (filename : string)
    (nReduce index : nat) (f : fs) : go (fs * bool) :=
  match f !! filename with
  | None => Done (f, false)
  | Some content =>
      if fails_open ios filename || fails_read ios filename then Done (f, false)
      else
        kvall ← bucket_loop (replicate nReduce []) nReduce (mapf filename content);
        let '(f, temps, ok) := write_loop ios index 0 kvall f in
        Done (remove_all temps f, ok)
  end.

(** ** Reduce tasks *)

(** Decoding until the first error, which the end of the file is. *)
Fixpoint decode_loop (fuel : nat) (s : string) : list KeyValue :=
  match fuel with
  | O => []
  | S fuel => match json_decode s with
              | Some (kv, rest) => kv :: decode_loop fuel rest
              | None => []
              end
  end.

Definition decode_all (s : string) : list KeyValue := decode_loop (S (String.length s)) s.

(** The intermediate files [inter_i_index], for [n] values of [i] from [i]. *)
Fixpoint read_loop (ios : io) (index i n : nat) (f : fs) : option (list KeyValue) :=
  match n with
  | O => Some []
  | S n =>
      let filename := inter_name i index in
      match f !! filename with
      | None => None
      | Some content =>
          if fails_open ios filename then None
          else rest ← read_loop ios index (S i) n f; Some (decode_all content ++ rest)
      end
  end.

(** The values of the run of pairs with key [k] at the front, and the rest. *)
Fixpoint run_values (k : string) (kva : list KeyValue) : list string :=
  match kva with
  | kv :: kva => if bool_decide (k = Key kv) then Value kv :: run_values k kva else []
  | [] => []
  end.
Fixpoint run_rest (k : string) (kva : list KeyValue) : list KeyValue :=
  match kva with
  | kv :: kva' => if bool_decide (k = Key kv) then run_rest k kva' else kva
  | [] => []
  end.

(** The loop over the runs of equal keys; [fuel] rounds. *)
Fixpoint reduce_loop (fuel : nat) (reducef : string → list string → string) (kva : list KeyValue)
    : list (string * string) :=
  match fuel, kva with
  | S fuel, kv :: kva =>
      (Key kv, reducef (Key kv) (Value kv :: run_values (Key kv) kva)) ::
      reduce_loop fuel reducef (run_rest (Key kv) kva)
  | _, _ => []
  end.

Definition reduce_all (reducef : string → list string → string) (kva : list KeyValue)
    : list (string * string) := reduce_loop (length kva) reducef kva.

(** The errors of [fmt.Fprintf] are ignored: when writing fails, nothing is
    written and the task goes on. *)
Definition performReduce (ios : io) (reducef : string → list string → string)
    (splite index : nat) (f : fs) : fs * bool :=
  match read_loop ios index 0 splite f with
  | None => (f, false)
  | Some kva =>
      let kva := sortKV kva in
      let oldname := temp_out_name index in
      let newname := out_name index in
      if fails_open ios oldname then (f, false)
      else
        let data := if fails_write ios oldname then "" else concat_str (out_line <$> reduce_all reducef kva) in
        let f := <[oldname := write_over (default "" (f !! oldname)) data]> f in
        if fails_rename ios oldname then (remove_all [oldname] f, false)
        else
          let f := <[newname := default "" (f !! oldname)]> (delete oldname f) in
          (remove_all [oldname] f, true)
  end.

(** ** The sequential program *)

Fixpoint read_inputs (ios : io) (mapf : string → string → list KeyValue) (files : list string)
    (f : fs) : option (list KeyValue) :=
  match files with
  | [] => Some []
  | filename :: files =>
      match f !! filename with
      | None => None
      | Some content =>
          if fails_open ios filename || fails_read ios filename then None
          else rest ← read_inputs ios mapf files f; Some (mapf filename content ++ rest)
      end
  end.

(** [None]: the program stopped with [log.Fatalf]. *)
Definition mrsequential (ios : io) (mapf : string → string → list KeyValue)
    (reducef : string → list string → string) (files : list string) (f : fs) : option fs :=
  intermediate ← read_inputs ios mapf files f;
  let intermediate := sortKV intermediate in
  Some (<["mr-out-0" := concat_str (out_line <$> reduce_all reducef intermediate)]> f).

End tasks.
