(* ===== verification/MapReduceCorrect.v ===== *)
(** * A MapReduce job computes what the sequential program computes

    Correctness of the map and reduce tasks, and of a whole job, against
    [mrsequential]. *)

From S2P Require Import Prelude MapReduce.
From stdpp Require Import pretty.
Local Open Scope Z_scope.

(** ** Hashing *)

Lemma fold_wrap32 (g : Z → Ascii.ascii → Z) l h :
  0 ≤ h < two32 → 0 ≤ foldl (fun h c => wrap32 (g h c)) h l < two32.
Proof.
  revert h. induction l as [|c l IH]; intros h Hh; [done|]. cbn. apply IH, wrap32_range.
Qed.

Lemma fnv32a_range s : 0 ≤ fnv32a s < two32.
Proof. unfold fnv32a. apply (fold_wrap32 (fun h c => Z.lxor h (Z.of_N (Ascii.N_of_ascii c)) * 16777619)). done. Qed.

Lemma ihash_range k : 0 ≤ ihash k < 2 ^ 31.
Proof.
  unfold ihash. change 2147483647 with (Z.ones 31). rewrite Z.land_ones by lia.
  apply Z.mod_pos_bound. lia.
Qed.

(** ** Names *)

Fixpoint free_of (c : Ascii.ascii) (s : string) : Prop :=
  match s with
  | EmptyString => True
  | String a s => a ≠ c ∧ free_of c s
  end.

Lemma sep_inj c s1 s2 t1 t2 :
  free_of c s1 → free_of c s2 → s1 +:+ String c t1 = s2 +:+ String c t2 → s1 = s2 ∧ t1 = t2.
Proof.
  revert s2. induction s1 as [|a s1 IH]; intros [|b s2]; cbn; intros H1 H2 E.
  - by injection E.
  - injection E as -> _. tauto.
  - injection E as -> _. tauto.
  - injection E as -> E. destruct (IH s2) as [-> ->]; tauto.
Qed.

Lemma free_of_digits c x s :
  (∀ d, (d < 10)%N → pretty_N_char d ≠ c) → free_of c s → free_of c (pretty_N_go x s).
Proof.
  intros Hd. revert s. induction (N.lt_wf_0 x) as [x _ IH]. intros s Hs.
  destruct (decide (x = 0)%N) as [->|Hx]; [by rewrite pretty_N_go_0|].
  rewrite pretty_N_go_step by lia. apply IH; [apply N.div_lt; lia|].
  cbn. split; [|done]. apply Hd. apply N.mod_lt. lia.
Qed.

Lemma digit_cases (c : Ascii.ascii) :
  Forall (fun d => pretty_N_char d ≠ c) [0; 1; 2; 3; 4; 5; 6; 7; 8; 9]%N →
  ∀ d, (d < 10)%N → pretty_N_char d ≠ c.
Proof.
  intros Hf d Hd. rewrite Forall_forall in Hf. apply Hf.
  assert (d = 0 ∨ d = 1 ∨ d = 2 ∨ d = 3 ∨ d = 4 ∨ d = 5 ∨ d = 6 ∨ d = 7 ∨ d = 8 ∨ d = 9)%N as Hc by lia.
  repeat destruct Hc as [->|Hc]; [..|subst]; set_solver.
Qed.

Lemma decimal_free c n :
  Forall (fun d => pretty_N_char d ≠ c) [0; 1; 2; 3; 4; 5; 6; 7; 8; 9]%N → free_of c (decimal n).
Proof.
  intros Hf. pose proof (digit_cases c Hf) as Hd. unfold decimal, pretty, pretty_N.
  case_decide; [|by apply free_of_digits]. cbn. split; [|done]. apply (Hd 0%N). lia.
Qed.

Lemma decimal_inj n m : decimal n = decimal m → n = m.
Proof. unfold decimal. intros E%(inj pretty). lia. Qed.

Lemma decimal_pair_inj m i m' i' :
  decimal m +:+ "_" +:+ decimal i +:+ ".json" = decimal m' +:+ "_" +:+ decimal i' +:+ ".json" →
  m = m' ∧ i = i'.
Proof.
  intros E. apply sep_inj in E as [Em E]; [|apply decimal_free; by repeat constructor..].
  apply sep_inj in E as [Ei _]; [|apply decimal_free; by repeat constructor..].
  split; by apply decimal_inj.
Qed.

Lemma inter_name_inj m i m' i' : inter_name m i = inter_name m' i' → m = m' ∧ i = i'.
Proof. unfold inter_name. intros E. injection E as E. by apply decimal_pair_inj. Qed.

Lemma out_name_inj i i' : out_name i = out_name i' → i = i'.
Proof. unfold out_name. intros E. injection E as E. by apply decimal_inj. Qed.

Definition is_temp (s : string) : Prop :=
  (∃ m i, s = temp_inter_name m i) ∨ (∃ i, s = temp_out_name i).
Definition is_output (s : string) : Prop := (∃ m i, s = inter_name m i) ∨ (∃ i, s = out_name i).

Lemma temp_not_output s : is_temp s → ¬ is_output s.
Proof. intros [(m & i & ->)|(i & ->)] [(m' & i' & E)|(i' & E)]; discriminate. Qed.

Lemma inter_not_out m i j : inter_name m i ≠ out_name j.
Proof. discriminate. Qed.

(** ** Strings *)

Lemma string_app_nil_r (s : string) : s +:+ "" = s.
Proof. induction s as [|c s IH]; [done|]. change (String c (s +:+ "") = String c s). by rewrite IH. Qed.

Lemma write_over_empty data : write_over "" data = data.
Proof.
  unfold write_over. rewrite <- (string_app_nil_r data) at 4. f_equal.
  by destruct (String.length data).
Qed.

Lemma string_app_length (s t : string) :
  String.length (s +:+ t) = (String.length s + String.length t)%nat.
Proof.
  induction s as [|c s IH]; [done|].
  change (S (String.length (s +:+ t)) = S (String.length s + String.length t)). by rewrite IH.
Qed.

Section correct.
Context `{!JsonCodec, !Json}.

Lemma decode_loop_spec l fuel :
  (String.length (concat_str (json_encode <$> l)) < fuel)%nat →
  decode_loop fuel (concat_str (json_encode <$> l)) = l.
Proof.
  revert fuel. induction l as [|kv l IH]; intros [|fuel] Hf; cbn in *; [lia| |lia|].
  - by rewrite json_eof.
  - rewrite json_roundtrip. f_equal. apply IH.
    pose proof (json_consumes _ _ _ (json_roundtrip kv (concat_str (json_encode <$> l)))) as Hc.
    unfold concat_str in *. lia.
Qed.

Lemma decode_all_spec l : decode_all (concat_str (json_encode <$> l)) = l.
Proof. apply decode_loop_spec. lia. Qed.

(** ** Buckets *)

Definition in_bucket (n : nat) (r : nat) (kv : KeyValue) : Prop :=
  ihash (Key kv) `mod` Z.of_nat n = Z.of_nat r.
#[export] Instance in_bucket_dec n r kv : Decision (in_bucket n r kv) := Z.eq_dec _ _.

Lemma bucket_loop_spec kvall n res :
  (n ≠ 0)%nat → length kvall = n →
  ∃ kvall', bucket_loop kvall n res = Done kvall' ∧ length kvall' = n ∧
    ∀ r old, kvall !! r = Some old → kvall' !! r = Some (old ++ filter (in_bucket n r) res).
Proof.
  intros Hn. revert kvall. induction res as [|kv res IH]; intros kvall Hl; cbn [bucket_loop].
  { exists kvall. split; [done|]. split; [done|]. intros r old Hr. by rewrite app_nil_r. }
  rewrite bool_decide_eq_false_2 by done.
  pose proof (Z.mod_pos_bound (ihash (Key kv)) (Z.of_nat n) ltac:(lia)) as Hb.
  set (ix := ihash (Key kv) `mod` Z.of_nat n) in *.
  destruct (idx_in_range kvall ix) as (old & Hi & Hold); [len|]. rewrite Hi. go_simpl.
  rewrite upd_in_range by len. go_simpl.
  destruct (IH (<[Z.to_nat ix := old ++ [kv]]> kvall)) as (k' & -> & Hl' & Hk'); [by rewrite length_insert|].
  exists k'. split; [done|]. split; [done|]. intros r o Hr.
  destruct (decide (r = Z.to_nat ix)) as [->|Hne].
  - rewrite Hold in Hr. injection Hr as <-.
    rewrite (Hk' (Z.to_nat ix) (old ++ [kv])) by (apply list_lookup_insert_eq; lia).
    rewrite (filter_cons_True _ kv), <- app_assoc; [done|]. unfold in_bucket. fold ix. lia.
  - rewrite (Hk' r o) by (by rewrite list_lookup_insert_ne).
    rewrite (filter_cons_False _ kv); [done|]. unfold in_bucket. fold ix. lia.
Qed.

(** ** Map tasks *)

(** No temporary file is around. *)
Definition clean (f : fs) : Prop := ∀ s, is_temp s → f !! s = None.

Lemma remove_all_lookup names f s :
  remove_all names f !! s = if decide (s ∈ names) then None else f !! s.
Proof.
  induction names as [|n names IH]; [by rewrite decide_False by set_solver|].
  change (remove_all (n :: names) f) with (delete n (remove_all names f)).
  destruct (decide (s = n)) as [->|Hne].
  - rewrite lookup_delete_eq. by rewrite decide_True by set_solver.
  - rewrite lookup_delete_ne, IH by done.
    destruct (decide (s ∈ names)); [rewrite decide_True by set_solver|rewrite decide_False by set_solver]; done.
Qed.

Lemma write_loop_spec index i kvall f :
  clean f →
  ∃ f' temps, write_loop no_failures index i kvall f = (f', temps, true) ∧ clean f' ∧
    Forall is_temp temps ∧
    (∀ j kva, kvall !! j = Some kva →
       f' !! inter_name index (i + j) = Some (concat_str (json_encode <$> kva))) ∧
    (∀ s, (∀ j, (j < length kvall)%nat → s ≠ inter_name index (i + j)) → f' !! s = f !! s).
Proof.
  revert i f. induction kvall as [|kva kvall IH]; intros i f Hc; cbn [write_loop].
  { exists f, []. split; [done|]. split; [done|]. split; [done|]. split; [by intros j kva|done]. }
  cbn [fails_open fails_write fails_rename no_failures].
  assert (is_temp (temp_inter_name index i)) as Htemp by (left; eauto).
  rewrite (Hc _ Htemp), lookup_insert_eq. cbn [default]. rewrite write_over_empty.
  set (f1 := <[inter_name index i := _]> _).
  assert (∀ s, s ≠ inter_name index i → f1 !! s = f !! s) as Hf1.
  { intros s Hs. unfold f1. rewrite lookup_insert_ne by done.
    destruct (decide (s = temp_inter_name index i)) as [->|Hne].
    - rewrite lookup_delete_eq. by rewrite (Hc _ Htemp).
    - by rewrite lookup_delete_ne, lookup_insert_ne. }
  assert (clean f1) as Hc1.
  { intros s Hs. rewrite Hf1; [by apply Hc|]. intros ->. eapply temp_not_output; [done|]. left; eauto. }
  destruct (IH (S i) f1 Hc1) as (f' & temps & -> & Hc' & Ht & Hin & Hout).
  eexists _, _. split; [done|]. split; [done|]. split; [by constructor|]. split.
  - intros [|j] kva' Hj; cbn in Hj.
    + injection Hj as <-. rewrite Nat.add_0_r, Hout.
      * unfold f1. by rewrite lookup_insert_eq.
      * intros j _ E%inter_name_inj. lia.
    + rewrite <- Nat.add_succ_comm. by apply Hin.
  - intros s Hs. rewrite Hout.
    + apply Hf1. specialize (Hs 0%nat). rewrite Nat.add_0_r in Hs. apply Hs. cbn. lia.
    + intros j Hj. rewrite Nat.add_succ_comm. apply Hs. cbn. lia.
Qed.

Lemma performMap_spec mapf filename content n index f :
  n ≠ 0%nat → clean f → f !! filename = Some content →
  ∃ f', performMap no_failures mapf filename n index f = Done (f', true) ∧ clean f' ∧
    (∀ r, (r < n)%nat → f' !! inter_name index r =
       Some (concat_str (json_encode <$> filter (in_bucket n r) (mapf filename content)))) ∧
    (∀ s, (∀ r, s ≠ inter_name index r) → f' !! s = f !! s).
Proof.
  intros Hn Hc Hf. unfold performMap. rewrite Hf. cbn [fails_open fails_read no_failures orb].
  destruct (bucket_loop_spec (replicate n []) n (mapf filename content)) as (kvall & -> & Hl & Hk);
    [done|by rewrite length_replicate|]. go_simpl.
  destruct (write_loop_spec index 0 kvall f Hc) as (f' & temps & -> & Hc' & Ht & Hin & Hout).
  assert (∀ s, remove_all temps f' !! s = f' !! s) as Hrm.
  { intros s. rewrite remove_all_lookup. case_decide as Hs; [|done].
    rewrite Forall_forall in Ht. symmetry. apply Hc'. by apply Ht. }
  eexists. split; [done|]. split; [|split].
  - intros s Hs. rewrite Hrm. by apply Hc'.
  - intros r Hr. rewrite Hrm. apply (Hin r).
    rewrite (Hk r []) by (by apply lookup_replicate_2). done.
  - intros s Hs. rewrite Hrm. apply Hout. intros j _. apply Hs.
Qed.

(** The same with failures: what is left after the temporary files are gone. *)
Lemma write_loop_any ios index i kvall f :
  clean f →
  ∃ f' temps ok, write_loop ios index i kvall f = (f', temps, ok) ∧
    clean (remove_all temps f') ∧
    (∀ j kva, kvall !! j = Some kva →
       remove_all temps f' !! inter_name index (i + j) = Some (concat_str (json_encode <$> kva)) ∨
       (ok = false ∧ remove_all temps f' !! inter_name index (i + j) = f !! inter_name index (i + j))) ∧
    (∀ s, (∀ j, (j < length kvall)%nat → s ≠ inter_name index (i + j)) →
       remove_all temps f' !! s = f !! s).
Proof.
  revert i f. induction kvall as [|kva kvall IH]; intros i f Hc; cbn [write_loop].
  { exists f, [], true. split; [done|]. split; [done|]. split; [by intros j kva|done]. }
  set (old := temp_inter_name index i).
  assert (is_temp old) as Htemp by (left; eauto).
  rewrite (Hc _ Htemp). cbn [default]. rewrite write_over_empty, lookup_insert_eq. cbn [default].
  set (c := concat_str (json_encode <$> kva)).
  assert (∀ s, remove_all [old] (<[old:=c]> f) !! s = f !! s) as Hundo.
  { intros s. rewrite remove_all_lookup. case_decide as Hs.
    - apply list_elem_of_singleton in Hs as ->. symmetry. by apply Hc.
    - apply not_elem_of_cons in Hs as [Hs _]. by rewrite lookup_insert_ne. }
  destruct (fails_open ios old); [|destruct (fails_write ios old || fails_rename ios old) eqn:Efail].
  - exists f, [], false. split; [done|]. split; [done|]. split; [by right|done].
  - eexists _, [old], false. split; [by destruct (fails_write ios old), (fails_rename ios old)|].
    split; [|split].
    + intros s Hs. rewrite Hundo. by apply Hc.
    + intros j kva' _. right. split; [done|]. apply Hundo.
    + intros s _. apply Hundo.
  - apply orb_false_iff in Efail as [-> ->].
    match goal with |- context [write_loop _ _ (S i) _ ?g] => set (f1 := g) end.
    assert (∀ s, s ≠ inter_name index i → f1 !! s = f !! s) as Hf1.
    { intros s Hs. unfold f1. rewrite lookup_insert_ne by done.
      destruct (decide (s = old)) as [->|Hne]; [by rewrite lookup_delete_eq, (Hc _ Htemp)|].
      by rewrite lookup_delete_ne, lookup_insert_ne. }
    assert (clean f1) as Hc1.
    { intros s Hs. rewrite Hf1; [by apply Hc|]. intros ->. eapply temp_not_output; [done|]. left; eauto. }
    destruct (IH (S i) f1 Hc1) as (f' & temps & ok & -> & Hc' & Hin & Hout).
    assert (∀ s, remove_all (old :: temps) f' !! s = remove_all temps f' !! s) as Hrm.
    { intros s. change (remove_all (old :: temps) f') with (delete old (remove_all temps f')).
      destruct (decide (s = old)) as [->|Hne]; [|by rewrite lookup_delete_ne].
      rewrite lookup_delete_eq. symmetry. by apply Hc'. }
    eexists _, _, _. split; [done|]. split; [intros s Hs; rewrite Hrm; by apply Hc'|]. split.
    + intros [|j] kva' Hj; rewrite Hrm; cbn in Hj.
      * injection Hj as <-. left. rewrite Nat.add_0_r, Hout.
        -- unfold f1. by rewrite lookup_insert_eq.
        -- intros j _ E%inter_name_inj. lia.
      * rewrite <- Nat.add_succ_comm. destruct (Hin j kva' Hj) as [?|[-> ->]]; [by left|].
        right. split; [done|]. apply Hf1. intros E%inter_name_inj. lia.
    + intros s Hs. rewrite Hrm, Hout.
      * apply Hf1. specialize (Hs 0%nat). rewrite Nat.add_0_r in Hs. apply Hs. cbn. lia.
      * intros j Hj. rewrite Nat.add_succ_comm. apply Hs. cbn. lia.
Qed.

Lemma performMap_outcome ios mapf filename n index f :
  n ≠ 0%nat → clean f →
  ∃ f' ok, performMap ios mapf filename n index f = Done (f', ok) ∧ clean f' ∧
    (∀ s, (∀ r, s ≠ inter_name index r) → f' !! s = f !! s) ∧
    (∀ r, (r < n)%nat →
       (∃ content, f !! filename = Some content ∧ f' !! inter_name index r =
          Some (concat_str (json_encode <$> filter (in_bucket n r) (mapf filename content)))) ∨
       (ok = false ∧ f' !! inter_name index r = f !! inter_name index r)).
Proof.
  intros Hn Hc. unfold performMap. destruct (f !! filename) as [content|] eqn:Ef.
  2: { exists f, false. split; [done|]. split; [done|]. split; [done|]. by right. }
  destruct (fails_open ios filename || fails_read ios filename).
  { exists f, false. split; [done|]. split; [done|]. split; [done|]. by right. }
  destruct (bucket_loop_spec (replicate n []) n (mapf filename content)) as (kvall & -> & Hl & Hk);
    [done|by rewrite length_replicate|]. go_simpl.
  destruct (write_loop_any ios index 0 kvall f Hc) as (f' & temps & ok & -> & Hc' & Hin & Hout).
  eexists _, _. split; [done|]. split; [done|]. split; [intros s Hs; apply Hout; intros j _; apply Hs|].
  intros r Hr. destruct (Hin r (filter (in_bucket n r) (mapf filename content))) as [Hw|Hw].
  - rewrite (Hk r []) by (by apply lookup_replicate_2). done.
  - left. by exists content.
  - by right.
Qed.


End correct.

(** ** Grouping a sorted list by key *)

Section grouping.

Definition values (k : string) (kva : list KeyValue) : list string :=
  Value <$> filter (fun kv => Key kv = k) kva.

#[export] Instance values_perm k : Proper ((≡ₚ) ==> (≡ₚ)) (values k).
Proof. intros l l' Hl. unfold values. by rewrite Hl. Qed.

Notation sorted := (StronglySorted (fun x y => ByKey_Less y x = false)).

Lemma key_antisym a b : ByKey_Less a b = false → ByKey_Less b a = false → Key a = Key b.
Proof.
  unfold ByKey_Less, string_less. rewrite !negb_false_iff. intros H1 H2.
  by apply String.leb_antisym.
Qed.

(** In a sorted list whose keys are not below [k], the run of [k] is all of [k]. *)
Lemma run_spec kv kva :
  sorted kva → Forall (fun x => ByKey_Less x kv = false) kva →
  run_values (Key kv) kva = values (Key kv) kva ∧
  run_rest (Key kv) kva = filter (fun x => Key x ≠ Key kv) kva.
Proof.
  intros Hs. induction Hs as [|x kva Hs IH Hx]; intros Hk; [done|].
  inversion_clear Hk as [|? ? Hkx Hk']. cbn [run_values run_rest]. unfold values.
  rewrite !filter_cons. case_on (Key kv = Key x) as E.
  - rewrite decide_True, decide_False by (rewrite E; tauto). destruct (IH Hk') as [-> ->]. done.
  - rewrite decide_False, decide_True by congruence.
    assert (Forall (fun y => Key y ≠ Key kv) kva) as Hne.
    { rewrite Forall_forall in Hx, Hk' |- *. intros y Hy Ey. apply E. symmetry.
      apply key_antisym; [done|]. specialize (Hx y Hy). unfold ByKey_Less in *. by rewrite <- Ey. }
    rewrite filter_none by done. split; [done|]. f_equal. symmetry. by apply filter_all.
Qed.

Lemma sorted_filter (P : KeyValue → Prop) `{!∀ x, Decision (P x)} kva :
  sorted kva → sorted (filter P kva).
Proof.
  induction 1 as [|x kva Hs IH Hx]; [constructor|]. rewrite filter_cons. case_decide; [|done].
  constructor; [done|]. rewrite Forall_forall in Hx |- *. intros y Hy.
  apply list_elem_of_filter in Hy as [_ Hy]. by apply Hx.
Qed.

Lemma values_filter_ne k k' kva :
  k' ≠ k → values k' (filter (fun x => Key x ≠ k) kva) = values k' kva.
Proof.
  intros Hne. unfold values. rewrite list_filter_filter. f_equal. apply filter_ext_elem.
  intros x _. naive_solver.
Qed.

Lemma reduce_loop_spec reducef fuel kva :
  (length kva ≤ fuel)%nat → sorted kva →
  NoDup (reduce_loop fuel reducef kva).*1 ∧
  ∀ k v, (k, v) ∈ reduce_loop fuel reducef kva ↔
    k ∈ Key <$> kva ∧ v = reducef k (values k kva).
Proof.
  revert kva. induction fuel as [|fuel IH]; intros [|kv kva] Hl Hs; cbn [reduce_loop].
  1,3: split; [constructor|set_solver].
  { cbn in Hl. lia. }
  apply StronglySorted_inv in Hs as [Hs Hk].
  destruct (run_spec kv kva Hs Hk) as [-> ->].
  destruct (IH (filter (fun x => Key x ≠ Key kv) kva)) as [Hnd Hin].
  { cbn in Hl. assert (length (filter (fun x => Key x ≠ Key kv) kva) ≤ length kva)%nat
      by apply length_filter. lia. }
  { by apply sorted_filter. }
  assert (∀ k, k ∈ Key <$> filter (fun x => Key x ≠ Key kv) kva ↔ k ∈ Key <$> kva ∧ k ≠ Key kv) as Hkeys.
  { intros k. rewrite !list_elem_of_fmap. setoid_rewrite list_elem_of_filter. naive_solver. }
  split.
  - cbn. constructor; [|done]. intros ([k v] & E & Hx)%list_elem_of_fmap. cbn in E. subst k.
    apply Hin in Hx as [Hx _]. apply Hkeys in Hx. tauto.
  - intros k v. rewrite elem_of_cons, Hin, Hkeys, fmap_cons, elem_of_cons.
    destruct (decide (k = Key kv)) as [->|Hne].
    + assert (values (Key kv) (kv :: kva) = Value kv :: values (Key kv) kva) as ->.
      { unfold values. by rewrite filter_cons_True. }
      naive_solver.
    + assert (values k (kv :: kva) = values k kva) as ->.
      { unfold values. by rewrite filter_cons_False. }
      rewrite values_filter_ne by done. naive_solver.
Qed.

Context (sortKV : list KeyValue → list KeyValue) `{!GoSort ByKey_Less sortKV}.

(** The result of reducing [kva], whatever the order of equal keys. *)
Definition order_free (reducef : string → list string → string) : Prop :=
  ∀ k vs vs', vs ≡ₚ vs' → reducef k vs = reducef k vs'.

Lemma reduce_sorted reducef kva :
  order_free reducef →
  NoDup (reduce_all reducef (sortKV kva)).*1 ∧
  ∀ k v, (k, v) ∈ reduce_all reducef (sortKV kva) ↔
    k ∈ Key <$> kva ∧ v = reducef k (values k kva).
Proof.
  intros Hof. destruct (reduce_loop_spec reducef (length (sortKV kva)) (sortKV kva)) as [Hnd Hin].
  { done. } { apply sort_sorted. }
  split; [done|]. intros k v. unfold reduce_all. rewrite Hin.
  assert (reducef k (values k (sortKV kva)) = reducef k (values k kva)) as ->.
  { apply Hof. by rewrite (sort_perm kva). }
  assert (k ∈ Key <$> sortKV kva ↔ k ∈ Key <$> kva) as ->; [|done].
  by rewrite (sort_perm kva).
Qed.

End grouping.

(** ** Reduce tasks *)

Section jobs.
Context `{!JsonCodec, !Json}.
Context (sortKV : list KeyValue → list KeyValue) `{!GoSort ByKey_Less sortKV}.

(** Reading succeeds unless a file cannot be opened. *)
Lemma read_loop_spec ios index i n f (l : nat → list KeyValue) :
  (∀ j, (i ≤ j < i + n)%nat → f !! inter_name j index = Some (concat_str (json_encode <$> l j))) →
  read_loop ios index i n f = Some (concat (l <$> seq i n)) ∨
  read_loop ios index i n f = None ∧ ∃ s, fails_open ios s = true.
Proof.
  revert i. induction n as [|n IH]; intros i Hf; cbn [read_loop]; [by left|].
  rewrite (Hf i) by lia. destruct (fails_open ios (inter_name i index)) eqn:Eo; [right; eauto|].
  destruct (IH (S i)) as [->|[-> ?]]; [intros j Hj; apply Hf; lia|left; by rewrite decode_all_spec|by right].
Qed.

(** Whatever fails to open or to rename, a reduce task leaves a complete
    output file or none, and no temporary file. *)
Lemma performReduce_outcome ios reducef n index f (l : nat → list KeyValue) :
  clean f → (∀ s, fails_write ios s = false) →
  (∀ j, (j < n)%nat → f !! inter_name j index = Some (concat_str (json_encode <$> l j))) →
  ∃ f' ok, performReduce sortKV ios reducef n index f = (f', ok) ∧ clean f' ∧
    (∀ s, s ≠ out_name index → f' !! s = f !! s) ∧
    (f' !! out_name index =
       Some (concat_str (out_line <$> reduce_all reducef (sortKV (concat (l <$> seq 0 n))))) ∨
     ok = false ∧ f' !! out_name index = f !! out_name index) ∧
    ((∀ s, fails_open ios s = false) → (∀ s, fails_rename ios s = false) → ok = true).
Proof.
  intros Hc Hw Hf. unfold performReduce.
  destruct (read_loop_spec ios index 0 n f l) as [->|[-> [s0 Hs0]]]; [intros j Hj; apply Hf; lia| |].
  2: { exists f, false. split; [done|]. split; [done|]. split; [done|]. split; [by right|]. congruence. }
  destruct (fails_open ios (temp_out_name index)) eqn:Eo.
  { exists f, false. split; [done|]. split; [done|]. split; [done|]. split; [by right|]. congruence. }
  rewrite Hw. assert (is_temp (temp_out_name index)) as Ht by (right; eauto).
  rewrite (Hc _ Ht). cbn [default]. rewrite write_over_empty. set (c := concat_str _).
  destruct (fails_rename ios (temp_out_name index)) eqn:Er.
  - exists (remove_all [temp_out_name index] (<[temp_out_name index:=c]> f)), false.
    assert (∀ s, remove_all [temp_out_name index] (<[temp_out_name index:=c]> f) !! s = f !! s) as Hl.
    { intros s. rewrite remove_all_lookup. case_decide as Hs.
      - apply list_elem_of_singleton in Hs as ->. symmetry. by apply Hc.
      - apply not_elem_of_cons in Hs as [Hs _]. by rewrite lookup_insert_ne. }
    split; [done|]. split; [intros s Hs; rewrite Hl; by apply Hc|]. split; [by intros|].
    split; [by right|]. congruence.
  - rewrite lookup_insert_eq. cbn [default].
    assert (∀ s, remove_all [temp_out_name index]
      (<[out_name index:=c]> (delete (temp_out_name index) (<[temp_out_name index:=c]> f))) !! s =
      if decide (s = out_name index) then Some c else f !! s) as Hl.
    { intros s. rewrite remove_all_lookup. case_decide as Hs.
      - apply list_elem_of_singleton in Hs as ->. rewrite decide_False by discriminate.
        symmetry. by apply Hc.
      - apply not_elem_of_cons in Hs as [Hs _]. case_decide as Ho; [subst; by rewrite lookup_insert_eq|].
        by rewrite lookup_insert_ne, lookup_delete_ne, lookup_insert_ne. }
    eexists _, true. split; [done|]. split; [|split; [|split; [left|done]]].
    + intros s Hs. rewrite Hl. rewrite decide_False; [by apply Hc|].
      intros ->. eapply temp_not_output; [done|]. right. eauto.
    + intros s Hs. by rewrite Hl, decide_False.
    + by rewrite Hl, decide_True.
Qed.

Lemma performReduce_spec reducef n index f (l : nat → list KeyValue) :
  clean f →
  (∀ j, (j < n)%nat → f !! inter_name j index = Some (concat_str (json_encode <$> l j))) →
  ∃ f', performReduce sortKV no_failures reducef n index f = (f', true) ∧ clean f' ∧
    f' !! out_name index =
      Some (concat_str (out_line <$> reduce_all reducef (sortKV (concat (l <$> seq 0 n))))) ∧
    (∀ s, s ≠ out_name index → f' !! s = f !! s).
Proof.
  intros Hc Hf. destruct (performReduce_outcome no_failures reducef n index f l)
    as (f' & ok & Hr & Hc' & Hout & Ho & Hok); [done..|].
  rewrite Hok in * by done. exists f'. split; [done|]. split; [done|]. split; [by destruct Ho as [|[? _]]|done].
Qed.

(** ** A job *)

(** The tasks of a job, and what runs them one after the other. *)
Inductive task := TMap (index : nat) | TReduce (index : nat).

Section job.
Context (mapf : string → string → list KeyValue) (reducef : string → list string → string).
Context (files : list string) (nReduce : nat).

Definition run_task (t : task) (f : fs) : go fs :=
  match t with
  | TMap index =>
      match files !! index with
      | Some filename =>
          '(f', ok) ← performMap no_failures mapf filename nReduce index f;
          if (ok : bool) then Done f' else Stuck
      | None => Stuck
      end
  | TReduce index =>
      let '(f', ok) := performReduce sortKV no_failures reducef (length files) index f in
      if (ok : bool) then Done f' else Stuck
  end.

Fixpoint run_tasks (ts : list task) (f : fs) : go fs :=
  match ts with
  | [] => Done f
  | t :: ts => f' ← run_task t f; run_tasks ts f'
  end.

(** The pairs that map task [m] emits. *)
Definition emitted (f : fs) (m : nat) : list KeyValue :=
  match files !! m with
  | Some filename => mapf filename (default "" (f !! filename))
  | None => []
  end.

(** Inputs are there, and are not named like files of the job; nothing is
    left over from another one. *)
Record job_ready (f : fs) : Prop := {
  jr_clean : clean f;
  jr_inputs : ∀ file, file ∈ files → is_Some (f !! file) ∧ ¬ is_output file;
}.

(** [f] has the inputs of [f0]. *)
Definition same_inputs (f0 f : fs) : Prop := ∀ file, file ∈ files → f !! file = f0 !! file.

Lemma same_inputs_emitted f0 f m : same_inputs f0 f → emitted f m = emitted f0 m.
Proof.
  intros Hs. unfold emitted. destruct (files !! m) as [file|] eqn:E; [|done].
  rewrite (Hs file); [done|]. eauto with go_lists.
Qed.

(** Map task [m] has left its intermediate files. *)
Definition mapped (f0 f : fs) (m : nat) : Prop :=
  ∀ r, (r < nReduce)%nat → f !! inter_name m r =
    Some (concat_str (json_encode <$> filter (in_bucket nReduce r) (emitted f0 m))).

Lemma run_map f0 f m :
  nReduce ≠ 0%nat → job_ready f0 → clean f → same_inputs f0 f → (m < length files)%nat →
  ∃ f', run_task (TMap m) f = Done f' ∧ clean f' ∧ same_inputs f0 f' ∧ mapped f0 f' m ∧
    (∀ m', m' ≠ m → mapped f0 f m' → mapped f0 f' m').
Proof.
  intros Hn [_ Hin] Hc Hs Hm. cbn [run_task].
  destruct (lookup_lt_is_Some_2 files m Hm) as [file Hfile]. rewrite Hfile.
  assert (file ∈ files) as Hff by eauto with go_lists.
  destruct (Hin file Hff) as [[content Hcont] _].
  destruct (performMap_spec mapf file content nReduce m f) as (f' & -> & Hc' & Hr & Hout).
  { done. } { done. } { by rewrite Hs. }
  go_simpl. exists f'. split; [done|]. split; [done|]. split; [|split].
  - intros s Hss. rewrite Hout; [by apply Hs|]. intros r ->. destruct (Hin _ Hss) as [_ Hno].
    apply Hno. left. eauto.
  - intros r Hlt. rewrite Hr by done. unfold emitted. by rewrite Hfile, Hcont.
  - intros m' Hne Hm' r Hlt. rewrite Hout; [by apply Hm'|]. intros r' E%inter_name_inj. tauto.
Qed.

Lemma run_maps f0 f ms (S : nat → Prop) :
  nReduce ≠ 0%nat → job_ready f0 → clean f → same_inputs f0 f →
  (∀ m, m ∈ ms → (m < length files)%nat) → (∀ m, S m → mapped f0 f m) →
  ∃ f', run_tasks (TMap <$> ms) f = Done f' ∧ clean f' ∧ same_inputs f0 f' ∧
    (∀ m, m ∈ ms ∨ S m → mapped f0 f' m).
Proof.
  intros Hn Hj. revert f S. induction ms as [|m ms IH]; intros f S Hc Hs Hms HS; cbn [fmap list_fmap run_tasks].
  { exists f. split; [done|]. split; [done|]. split; [done|]. intros m [Hm|Hm]; [set_solver|auto]. }
  destruct (run_map f0 f m) as (f1 & -> & Hc1 & Hs1 & Hm1 & Hk1); [done..|apply Hms; left|].
  go_simpl. destruct (IH f1 (fun m' => m' = m ∨ S m')) as (f' & -> & Hc' & Hs' & Hall).
  { done. } { done. } { intros m' Hm'. apply Hms. by right. }
  { intros m' HS'. destruct (decide (m' = m)) as [->|Hne]; [done|]. apply Hk1; [done|].
    apply HS. tauto. }
  exists f'. split; [done|]. split; [done|]. split; [done|]. intros m' Hm'.
  rewrite elem_of_cons in Hm'. apply Hall. tauto.
Qed.

Definition all_mapped (f0 f : fs) : Prop := ∀ m, (m < length files)%nat → mapped f0 f m.

(** What reduce task [r] outputs. *)
Definition reduce_input (f0 : fs) (r : nat) : list KeyValue :=
  concat ((fun m => filter (in_bucket nReduce r) (emitted f0 m)) <$> seq 0 (length files)).
Definition reduce_output (f0 : fs) (r : nat) : list (string * string) :=
  reduce_all reducef (sortKV (reduce_input f0 r)).

Definition reduced (f0 f : fs) (r : nat) : Prop :=
  f !! out_name r = Some (concat_str (out_line <$> reduce_output f0 r)).

Lemma run_reduce f0 f r :
  clean f → all_mapped f0 f → (r < nReduce)%nat →
  ∃ f', run_task (TReduce r) f = Done f' ∧ clean f' ∧ all_mapped f0 f' ∧ reduced f0 f' r ∧
    (∀ r', r' ≠ r → reduced f0 f r' → reduced f0 f' r').
Proof.
  intros Hc Hm Hr. cbn [run_task].
  destruct (performReduce_spec reducef (length files) r f
    (fun m => filter (in_bucket nReduce r) (emitted f0 m))) as (f' & -> & Hc' & Ho & Hout).
  { done. } { intros j Hj. by apply Hm. }
  exists f'. split; [done|]. split; [done|]. split; [|split].
  - intros m Hlt r' Hr'. rewrite Hout by apply inter_not_out. by apply Hm.
  - done.
  - intros r' Hne Hr'. unfold reduced. rewrite Hout; [done|]. by intros ?%out_name_inj.
Qed.

Lemma run_reduces f0 f rs (S : nat → Prop) :
  clean f → all_mapped f0 f → (∀ r, r ∈ rs → (r < nReduce)%nat) → (∀ r, S r → reduced f0 f r) →
  ∃ f', run_tasks (TReduce <$> rs) f = Done f' ∧ (∀ r, r ∈ rs ∨ S r → reduced f0 f' r).
Proof.
  revert f S. induction rs as [|r rs IH]; intros f S Hc Hm Hrs HS; cbn [fmap list_fmap run_tasks].
  { exists f. split; [done|]. intros r [Hr|Hr]; [set_solver|auto]. }
  destruct (run_reduce f0 f r) as (f1 & -> & Hc1 & Hm1 & Hr1 & Hk1); [done|done|apply Hrs; left|].
  go_simpl. destruct (IH f1 (fun r' => r' = r ∨ S r')) as (f' & -> & Hall).
  { done. } { done. } { intros r' Hr'. apply Hrs. by right. }
  { intros r' HS'. destruct (decide (r' = r)) as [->|Hne]; [done|]. apply Hk1; [done|].
    apply HS. tauto. }
  exists f'. split; [done|]. intros r' Hr'. rewrite elem_of_cons in Hr'. apply Hall. tauto.
Qed.

Lemma run_tasks_app ts1 ts2 f f1 :
  run_tasks ts1 f = Done f1 → run_tasks (ts1 ++ ts2) f = run_tasks ts2 f1.
Proof.
  revert f. induction ts1 as [|t ts1 IH]; intros f Hr; cbn [run_tasks app] in *; [by injection Hr as <-|].
  go_inv Hr. rewrite E. go_simpl. by apply IH.
Qed.

(** ** Against the sequential program *)

Definition all_emitted (f0 : fs) : list KeyValue := concat (emitted f0 <$> seq 0 (length files)).

Lemma concat_filter (P : KeyValue → Prop) `{!∀ x, Decision (P x)} (g : nat → list KeyValue) l :
  concat ((fun m => filter P (g m)) <$> l) = filter P (concat (g <$> l)).
Proof. induction l as [|m l IH]; [done|]. cbn. rewrite filter_app. f_equal. apply IH. Qed.

Lemma read_inputs_spec f0 :
  job_ready f0 → read_inputs no_failures mapf files f0 = Some (all_emitted f0).
Proof.
  intros [_ Hin]. unfold all_emitted, emitted.
  assert (∀ fl, (∀ file, file ∈ fl → is_Some (f0 !! file)) →
    read_inputs no_failures mapf fl f0 = Some (concat ((fun m => match fl !! m with
      | Some filename => mapf filename (default "" (f0 !! filename)) | None => [] end) <$> seq 0 (length fl)))) as Hgen.
  { induction fl as [|file fl IH]; intros Hf; [done|]. cbn [read_inputs].
    destruct (Hf file) as [c Hc]; [left|]. rewrite Hc. cbn [fails_open fails_read no_failures orb].
    rewrite IH by (intros file' ?; apply Hf; by right). cbn. rewrite Hc. cbn. do 3 f_equal.
    rewrite <- (fmap_S_seq 0 (length fl)), <- list_fmap_compose. done. }
  apply Hgen. intros file Hf. by apply Hin.
Qed.

Lemma NoDup_concat_tagged {A} (tag : A → nat) (g : nat → list A) rs :
  NoDup rs → (∀ r, NoDup (g r)) → (∀ r x, x ∈ g r → tag x = r) → NoDup (concat (g <$> rs)).
Proof.
  intros Hnd Hg Ht. induction Hnd as [|r rs Hr Hnd IH]; [constructor|]. cbn.
  apply NoDup_app. split; [done|]. split; [|done]. intros x Hx Hc.
  apply list_elem_of_In, in_concat in Hc as (l & (r' & <- & Hr')%in_map_iff & Hl).
  apply list_elem_of_In in Hl, Hr'. apply Hr. by rewrite <- (Ht _ _ Hx), (Ht _ _ Hl).
Qed.

Lemma reduce_outputs_perm f0 :
  nReduce ≠ 0%nat → order_free reducef →
  concat (reduce_output f0 <$> seq 0 nReduce) ≡ₚ reduce_all reducef (sortKV (all_emitted f0)).
Proof.
  intros Hn Hof. destruct (reduce_sorted sortKV reducef (all_emitted f0) Hof) as [Hnd Hseq].
  assert (∀ r, reduce_input f0 r = filter (in_bucket nReduce r) (all_emitted f0)) as Hri.
  { intros r. unfold reduce_input, all_emitted. by rewrite concat_filter. }
  pose (h k := Z.to_nat (ihash k `mod` Z.of_nat nReduce)).
  assert (∀ r k v, (k, v) ∈ reduce_output f0 r ↔
    h k = r ∧ (k, v) ∈ reduce_all reducef (sortKV (all_emitted f0))) as Hr.
  { intros r k v. unfold reduce_output. destruct (reduce_sorted sortKV reducef (reduce_input f0 r) Hof) as [_ ->].
    rewrite Hseq, Hri.
    pose proof (Z.mod_pos_bound (ihash k) (Z.of_nat nReduce) ltac:(lia)) as Hb.
    assert (k ∈ Key <$> filter (in_bucket nReduce r) (all_emitted f0) ↔
      h k = r ∧ k ∈ Key <$> all_emitted f0) as ->.
    { rewrite !list_elem_of_fmap. setoid_rewrite list_elem_of_filter. unfold in_bucket, h. split.
      - intros (kv & -> & Hb' & Hin). split; [lia|]. eauto.
      - intros [Hh (kv & -> & Hin)]. exists kv. split; [done|]. split; [lia|done]. }
    destruct (decide (h k = r)) as [<-|Hne]; [|tauto].
    assert (values k (filter (in_bucket nReduce (h k)) (all_emitted f0)) = values k (all_emitted f0))
      as ->; [|tauto].
    unfold values. rewrite list_filter_filter. f_equal. apply filter_ext_elem. intros x _.
    unfold in_bucket, h. split; [tauto|]. intros <-. split; [done|]. lia. }
  apply NoDup_Permutation.
  - apply (NoDup_concat_tagged (fun x => h x.1)); [apply NoDup_seq| |].
    + intros r. eapply NoDup_fmap_1. apply (reduce_sorted sortKV reducef (reduce_input f0 r) Hof).
    + intros r [k v] Hx. by apply Hr in Hx as [? _].
  - by eapply NoDup_fmap_1.
  - intros [k v]. rewrite list_elem_of_In, in_concat. split.
    + intros (l & (r & <- & _)%in_map_iff & Hl%list_elem_of_In). by apply Hr in Hl as [_ ?].
    + intros Hx. exists (reduce_output f0 (h k)). split.
      * apply in_map_iff. exists (h k). split; [done|]. apply list_elem_of_In, elem_of_seq.
        pose proof (Z.mod_pos_bound (ihash k) (Z.of_nat nReduce) ltac:(lia)). unfold h. lia.
      * apply list_elem_of_In. by apply Hr.
Qed.

(** Complete output files hold the lines of the sequential program. *)
Lemma outputs_match f0 f :
  nReduce ≠ 0%nat → order_free reducef → job_ready f0 → (∀ r, (r < nReduce)%nat → reduced f0 f r) →
  ∃ fseq outs lines,
    mrsequential sortKV no_failures mapf reducef files f0 = Some fseq ∧
    (∀ r, (r < nReduce)%nat → f !! out_name r = Some (concat_str (outs r))) ∧
    fseq !! "mr-out-0" = Some (concat_str lines) ∧
    concat (outs <$> seq 0 nReduce) ≡ₚ lines.
Proof.
  intros Hn Hof Hj Hr.
  exists (<["mr-out-0" := concat_str (out_line <$> reduce_all reducef (sortKV (all_emitted f0)))]> f0),
    (fun r => out_line <$> reduce_output f0 r), (out_line <$> reduce_all reducef (sortKV (all_emitted f0))).
  split; [|split; [done|split]].
  - unfold mrsequential. by rewrite (read_inputs_spec f0 Hj).
  - by rewrite lookup_insert_eq.
  - rewrite <- (reduce_outputs_perm f0 Hn Hof).
    assert (∀ l, concat ((fun r => out_line <$> reduce_output f0 r) <$> l) =
      out_line <$> concat (reduce_output f0 <$> l)) as ->; [|done].
    intros l. induction l as [|r l IH]; [done|]. cbn. rewrite fmap_app. by f_equal.
Qed.


End job.
End jobs.
