(* ===== verification/MapReduceApps.v ===== *)
(** * MapReduce applications

    The map and reduce functions of [labs/src/mrapps]: word count ([wc.go]),
    inverted index ([indexer.go]), and the functions of [crash.go] and
    [nocrash.go] (the test applications, whose [maybeCrash] only decides
    whether the worker dies).  [fields] is
    [strings.FieldsFunc(s, func(r rune) bool { return !unicode.IsLetter(r) })].

    None of the reduce functions depends on the order of its values, so jobs
    that run them compute what the sequential program computes. *)

From S2P Require Import Prelude MapReduce MapReduceCorrect.
Local Open Scope Z_scope.

Section apps.
Context (fields : string → list string).
Context (sortStrings : list string → list string).
(** The order in which [range] visits a map. *)
Context (mapKeys : list string → list string).

(** [strconv.Itoa] of a length. *)
Definition Itoa (n : nat) : string := decimal n.

(** [strings.Join] *)
Fixpoint Join (l : list string) (sep : string) : string :=
  match l with
  | [] => ""
  | [x] => x
  | x :: l => x +:+ sep +:+ Join l sep
  end.

(** ** wc.go *)

Definition wc_Map (filename contents : string) : list KeyValue :=
  (fun w => mkKV w "1") <$> fields contents.

Definition wc_Reduce (key : string) (values : list string) : string := Itoa (length values).

(** ** indexer.go *)

Definition indexer_Map (document value : string) : list KeyValue :=
  let m : gset string := list_to_set (fields value) in
  (fun w => mkKV w document) <$> mapKeys (elements m).

Definition indexer_Reduce (key : string) (values : list string) : string :=
  let values := sortStrings values in
  decimal (length values) +:+ " " +:+ Join values ",".

(** ** crash.go and nocrash.go *)

Definition crash_Map (filename contents : string) : list KeyValue :=
  [mkKV "a" filename; mkKV "b" (Itoa (String.length filename));
   mkKV "c" (Itoa (String.length contents)); mkKV "d" "xyzzy"].

Definition crash_Reduce (key : string) (values : list string) : string :=
  let vv := sortStrings values in Join vv " ".

(** ** rtiming.go: the map function *)

Definition rtiming_Map (filename contents : string) : list KeyValue :=
  (fun k => mkKV k "1") <$> ["a"; "b"; "c"; "d"; "e"; "f"; "g"; "h"; "i"; "j"].

Context `{!GoSort string_less sortStrings}.

Lemma string_less_antisym a b : string_less a b = false → string_less b a = false → a = b.
Proof. unfold string_less. rewrite !negb_false_iff. intros H1 H2. by apply String.leb_antisym. Qed.

(** Sorting forgets the order. *)
Lemma sortStrings_perm vs vs' : vs ≡ₚ vs' → sortStrings vs = sortStrings vs'.
Proof.
  intros Hp. assert (AntiSymm (=) (fun x y => string_less y x = false)).
  { intros a b H1 H2. by apply string_less_antisym. }
  apply (StronglySorted_unique (fun x y => string_less y x = false)); [apply sort_sorted..|].
  by rewrite !sort_perm.
Qed.

(** The reduce functions of the applications do not depend on the order
    of the values they are given. *)
Theorem apps_order_free :
  order_free wc_Reduce ∧ order_free indexer_Reduce ∧ order_free crash_Reduce.
Proof.
  split; [|split]; intros k vs vs' Hp.
  - unfold wc_Reduce. by rewrite Hp.
  - unfold indexer_Reduce. by rewrite (sortStrings_perm _ _ Hp).
  - unfold crash_Reduce. by rewrite (sortStrings_perm _ _ Hp).
Qed.

Lemma wc_order_free : order_free wc_Reduce.
Proof. intros k vs vs' Hp. unfold wc_Reduce. by rewrite Hp. Qed.

Context (sortKV : list KeyValue → list KeyValue) `{!GoSort ByKey_Less sortKV}.

(** The number of times [w] occurs in the files. *)
Definition occurrences (contents : list string) (w : string) : nat :=
  length (filter (fun w' => w' = w) (concat (fields <$> contents))).

(** Word count counts words: the output of the reduction of everything
    that [Map] emitted has one line for every word of the files, with the
    number of its occurrences. *)
Theorem wc_counts (inputs : list (string * string)) w n :
  (w, n) ∈ reduce_all wc_Reduce (sortKV (concat ((fun i => wc_Map i.1 i.2) <$> inputs))) ↔
  w ∈ concat (fields <$> inputs.*2) ∧ n = Itoa (occurrences inputs.*2 w).
Proof.
  destruct (reduce_sorted sortKV wc_Reduce (concat ((fun i => wc_Map i.1 i.2) <$> inputs)) wc_order_free)
    as [_ ->].
  assert (concat ((fun i => wc_Map i.1 i.2) <$> inputs) =
    (fun w => mkKV w "1") <$> concat (fields <$> inputs.*2)) as ->.
  { induction inputs as [|i inputs IH]; [done|]. cbn. rewrite fmap_app. f_equal. apply IH. }
  rewrite <- list_fmap_compose. cbn. rewrite list_fmap_id.
  unfold wc_Reduce, occurrences, values. rewrite length_fmap, filter_fmap, length_fmap. done.
Qed.

End apps.
