(* ===== verification/TimingApps.v ===== *)
(** * The timing and the crashing applications

    [labs/src/mrapps/mtiming.go] and [rtiming.go] test that workers run
    tasks in parallel: [nparallel] leaves a file named after the phase and
    the worker's process id in the shared directory, lists the directory,
    and counts the names whose process is alive.  Several workers run it at
    once, other programs write files of their own beside them, and a worker
    can die anywhere (its file then stays), so it is a step relation on the
    directory and the processes.  [Sscanf_d] is [fmt.Sscanf] for a pattern
    of literal text followed by [%d], on ASCII names.  Process ids are not
    given out twice, and one [Readdirnames] sees the directory at one
    moment.

    [crash.go] and [nocrash.go] differ in [maybeCrash] alone.  The random
    draws ([crand.Int]) and the text of the time of day are parameters. *)

From stdpp Require Import pretty.
From S2P Require Import Prelude MapReduce MapReduceApps.
From Stdlib Require Import Ascii.
Local Open Scope Z_scope.

(** ** fmt.Sscanf *)

(** The literal part of the pattern. *)
Fixpoint literal (lit s : string) : option string :=
  match lit, s with
  | EmptyString, _ => Some s
  | String a lit, String b s => if decide (a = b) then literal lit s else None
  | String _ _, EmptyString => None
  end.

(** [SkipSpace]: a newline is an error. *)
Fixpoint SkipSpace (s : string) : option string :=
  match s with
  | EmptyString => Some s
  | String a s' =>
      let c := N_of_ascii a in
      if (c =? 10)%N then None
      else if ((c =? 32) || (9 <=? c) && (c <=? 13))%N then SkipSpace s'
      else Some s
  end.

Definition digit (a : ascii) : option N :=
  let c := N_of_ascii a in
  if ((48 <=? c) && (c <=? 57))%N then Some (c - 48)%N else None.

(** The digits that follow; what comes after them is left unread. *)
Fixpoint scanNumber (v : N) (s : string) : N :=
  match s with
  | EmptyString => v
  | String a s =>
      match digit a with
      | Some d => scanNumber (v * 10 + d) s
      | None => v
      end
  end.

(** [accept(sign)]: whether the sign was a minus, and the rest. *)
Definition accept_sign (s : string) : bool * string :=
  match s with
  | EmptyString => (false, s)
  | String a s' =>
      if decide (a = "-"%char) then (true, s')
      else if decide (a = "+"%char) then (false, s')
      else (false, s)
  end.

(** An optional sign, at least one digit, a value of 64 bits. *)
Definition scanInt (s : string) : option Z :=
  s ← SkipSpace s;
  let '(neg, s) := accept_sign s in
  match s with
  | EmptyString => None
  | String a s =>
      d ← digit a;
      let v := Z.of_N (scanNumber d s) in
      let v := if neg : bool then - v else v in
      if decide (- 2 ^ 63 ≤ v < 2 ^ 63) then Some v else None
  end.

Definition Sscanf_d (lit name : string) : option Z :=
  s ← literal lit name; scanInt s.

(** ** crash.go and nocrash.go *)

(** What becomes of the process in [maybeCrash]: [os.Exit(1)], or it goes
    on after a delay of some milliseconds. *)
Inductive fate := Exit | Goes_on (delay : Z).

Definition maybeCrash (rr ms : Z) : fate :=
  if rr <? 330 then Exit else if rr <? 660 then Goes_on ms else Goes_on 0.

Definition nocrash_maybeCrash (rr : Z) : fate :=
  if false && (rr <? 500) then Exit else Goes_on 0.

(** The result of a function that begins with [maybeCrash]. *)
Definition after {A} (f : fate) (a : A) : option A :=
  match f with Exit => None | Goes_on _ => Some a end.

Section crash.
Context (sortStrings : list string → list string).

Definition crashing_Map (rr ms : Z) (filename contents : string) : option (list KeyValue) :=
  after (maybeCrash rr ms) (crash_Map filename contents).

Definition crashing_Reduce (rr ms : Z) (key : string) (values : list string) : option string :=
  after (maybeCrash rr ms) (crash_Reduce sortStrings key values).

Definition nocrash_Map (rr : Z) (filename contents : string) : option (list KeyValue) :=
  after (nocrash_maybeCrash rr) (crash_Map filename contents).

Definition nocrash_Reduce (rr : Z) (key : string) (values : list string) : option string :=
  after (nocrash_maybeCrash rr) (crash_Reduce sortStrings key values).

(** [nocrash.go] always returns; [crash.go] exits on the draws below 330
    and otherwise returns the same: a job that outlives the crashes has
    the results of the job that has none. *)
Theorem crash_agrees rr ms rr' filename contents key values :
  (crashing_Map rr ms filename contents =
     (if rr <? 330 then None else nocrash_Map rr' filename contents)) ∧
  (crashing_Reduce rr ms key values =
     (if rr <? 330 then None else nocrash_Reduce rr' key values)) ∧
  is_Some (nocrash_Map rr' filename contents) ∧ is_Some (nocrash_Reduce rr' key values).
Proof.
  unfold crashing_Map, crashing_Reduce, nocrash_Map, nocrash_Reduce, maybeCrash, nocrash_maybeCrash.
  cbn [andb after]. split_and!; try done; destruct (rr <? 330); try done; by destruct (rr <? 660).
Qed.

(** ** mtiming.go: the reduce function *)

Definition mtiming_Reduce (key : string) (values : list string) : string :=
  let vv := sortStrings values in Join vv " ".
End crash.

(** ** nparallel *)

Section nparallel.
(** [syscall.Kill] with signal 0 on a process group. *)
Context (group : Z → bool).
Context (phase : string).

Definition pat : string := "mr-worker-" +:+ phase +:+ "-".
Definition myfilename (pid : N) : string := pat +:+ pretty pid.

(** Where a worker's process is: outside [nparallel]; after [WriteFile];
    in the loop, with the names still to look at and the count; asleep, the
    count made; no more. *)
Inductive pc :=
| Outside
| Created
| Scanning (names : list string) (ret : Z)
| Asleep (ret : Z)
| Dead.

Record world := mkWorld { files : list string; procs : gmap N pc }.

Definition alive (w : world) (p : N) : bool :=
  match procs w !! p with Some Dead | None => false | Some _ => true end.

(** [syscall.Kill(xpid, 0) == nil] *)
Definition kill (w : world) (xpid : Z) : bool :=
  if 0 <? xpid then alive w (Z.to_N xpid) else group xpid.

(** What the loop adds to [ret] for a name. *)
Definition look (w : world) (name : string) : Z :=
  match Sscanf_d pat name with
  | Some xpid => if kill w xpid then 1 else 0
  | None => 0
  end.

(** [dd.Readdirnames(1000000)]: [io.EOF] when there is nothing to list. *)
Definition Readdirnames (n : N) (dir : list string) : option (list string) :=
  match dir with [] => None | _ => Some (take (N.to_nat n) dir) end.

Definition set_pc (p : N) (c : pc) (w : world) : world := mkWorld (files w) (<[p := c]> (procs w)).

(** One step of process [p]. *)
Inductive step (p : N) : world → world → Prop :=
| SStart w :
    procs w !! p = None → (0 < p < 2 ^ 63)%N → step p w (set_pc p Outside w)
| SWrite w fs :
    procs w !! p = Some Outside →
    fs ≡ₚ (if decide (myfilename p ∈ files w) then files w else myfilename p :: files w) →
    step p w (set_pc p Created (mkWorld fs (procs w)))
| SList w dir names :
    procs w !! p = Some Created → dir ≡ₚ files w → Readdirnames 1000000 dir = Some names →
    step p w (set_pc p (Scanning names 0) w)
| SListEof w :
    procs w !! p = Some Created → Readdirnames 1000000 (files w) = None →
    step p w (set_pc p Dead w)
| SLook w name names ret :
    procs w !! p = Some (Scanning (name :: names) ret) →
    step p w (set_pc p (Scanning names (ret + look w name)) w)
| SSleep w ret :
    procs w !! p = Some (Scanning [] ret) → step p w (set_pc p (Asleep ret) w)
| SRemove w ret :
    procs w !! p = Some (Asleep ret) → myfilename p ∈ files w →
    step p w (set_pc p Outside (mkWorld (filter (fun f => f ≠ myfilename p) (files w)) (procs w)))
| SRemoveFails w ret :
    procs w !! p = Some (Asleep ret) → myfilename p ∉ files w → step p w (set_pc p Dead w)
| SDie w c :
    procs w !! p = Some c → step p w (set_pc p Dead w).

(** Other programs leave the names that [Sscanf] accepts alone. *)
Definition others (w w' : world) : Prop :=
  procs w' = procs w ∧ NoDup (files w') ∧
  ∀ name, is_Some (Sscanf_d pat name) → name ∈ files w' ↔ name ∈ files w.

Definition nstep (w w' : world) : Prop := others w w' ∨ ∃ p, step p w w'.

(** A directory swept clean, and no worker yet. *)
Definition fresh (w : world) : Prop :=
  procs w = ∅ ∧ NoDup (files w) ∧ Forall (fun name => Sscanf_d pat name = None) (files w).

End nparallel.

(** ** The map function of mtiming.go and the reduce function of rtiming.go

    [ts] is the time of day printed with [%.1f]; [n] what [nparallel]
    returned. *)

Definition mtiming_Map (ts : string) (pid : N) (n : Z) (filename contents : string) : list KeyValue :=
  [mkKV ("times-" +:+ pretty pid) ts; mkKV ("parallel-" +:+ pretty pid) (pretty n)].

Definition rtiming_Reduce (n : Z) (key : string) (values : list string) : string := pretty n.
