(* ===== verification/TimingCorrect.v ===== *)
(** * What nparallel counts

    Reading back the name of a worker's file gives its process id
    ([scan_myfilename]); the directory then always tells which workers are
    inside [nparallel] ([directory_ok]), and the number a worker returns
    lies between the workers that were inside when it listed the directory
    and are still alive, and all that were inside then
    ([nparallel_counts]): two workers that overlap see each other. *)

From stdpp Require Import pretty.
From S2P Require Import Prelude MapReduce MapReduceApps TimingApps.
From Stdlib Require Import Ascii.
Local Open Scope Z_scope.

(** ** Printing and scanning a process id *)

Lemma literal_app lit s : literal lit (lit +:+ s) = Some s.
Proof. induction lit as [|a lit IH]; [done|]. 
  change (String a lit +:+ s) with (String a (lit +:+ s)). cbn [literal]. by rewrite decide_True. Qed.

Lemma literal_inv lit s s' : literal lit s = Some s' → s = lit +:+ s'.
Proof.
  revert s. induction lit as [|a lit IH]; intros s; [by intros [= ->]|].
  destruct s as [|b s]; [done|]. cbn [literal String.append]. case_decide; [subst|done]. intros H. by rewrite (IH _ H).
Qed.

Lemma digit_char x : (x < 10)%N → digit (pretty_N_char x) = Some x.
Proof.
  intros Hx. assert (x = 0 ∨ x = 1 ∨ x = 2 ∨ x = 3 ∨ x = 4 ∨ x = 5 ∨ x = 6 ∨ x = 7 ∨ x = 8 ∨ x = 9)%N
    as Hc by lia. naive_solver.
Qed.

Lemma scanNumber_go x s : scanNumber 0 (pretty_N_go x s) = scanNumber x s.
Proof.
  revert s. induction (N.lt_wf_0 x) as [x _ IH]; intros s.
  destruct (decide (x = 0)%N) as [->|Hx]; [done|].
  rewrite pretty_N_go_step by lia. rewrite IH by (apply N.div_lt; lia). cbn [scanNumber].
  rewrite digit_char by (apply N.mod_lt; lia). f_equal. pose proof (N.div_mod x 10). lia.
Qed.

Lemma pretty_scan p : scanNumber 0 (pretty p) = p.
Proof.
  unfold pretty, pretty_N. case_decide; [by subst|]. by rewrite scanNumber_go.
Qed.

(** What [%d] prints begins with a digit. *)
Lemma pretty_go_head x s : ∃ a s', pretty_N_go x s = String a s' ∧ is_Some (digit a) ∨ x = 0%N.
Proof.
  revert s. induction (N.lt_wf_0 x) as [x _ IH]; intros s.
  destruct (decide (x = 0)%N) as [->|Hx]; [exists Ascii.zero, ""; by right|].
  rewrite pretty_N_go_step by lia.
  destruct (IH (x / 10)%N ltac:(apply N.div_lt; lia) (String (pretty_N_char (x mod 10)) s))
    as (a & s' & [H|H]); [exists a, s'; by left|].
  rewrite H, pretty_N_go_0. do 2 eexists. left. split; [done|].
  rewrite digit_char; [done|apply N.mod_lt; lia].
Qed.

Lemma pretty_head (p : N) : ∃ a s, pretty p = String a s ∧ is_Some (digit a).
Proof.
  unfold pretty, pretty_N. case_decide as H; [by do 2 eexists|].
  destruct (pretty_go_head p "") as (a & s & [?|?]); [by exists a, s|done].
Qed.

Lemma digit_range a d : digit a = Some d → (48 ≤ N_of_ascii a ≤ 57 ∧ d = N_of_ascii a - 48)%N.
Proof. unfold digit. case_match eqn:E; [|done]. intros [= <-]. apply andb_true_iff in E as [?%N.leb_le ?%N.leb_le]. lia. Qed.

Lemma digit_not_sign a : is_Some (digit a) → a ≠ "-"%char ∧ a ≠ "+"%char.
Proof. intros [d Hd]. split; intros ->; done. Qed.

(** A digit is neither blank nor a sign. *)
Lemma scanInt_digit a s d :
  digit a = Some d → (scanNumber d s < 2 ^ 63)%N →
  scanInt (String a s) = Some (Z.of_N (scanNumber d s)).
Proof.
  intros Hd Hlt. pose proof (digit_range _ _ Hd) as [Hr _].
  destruct (digit_not_sign a ltac:(eauto)) as [H1 H2].
  assert (SkipSpace (String a s) = Some (String a s)) as E.
  { cbn. destruct (N_of_ascii a =? 10)%N eqn:?; [apply N.eqb_eq in Heqb; lia|].
    case_match eqn:E; [|done].
    apply orb_true_iff in E as [?%N.eqb_eq|[_ ?%N.leb_le]%andb_true_iff]; lia. }
  unfold scanInt. rewrite E. cbn [mbind option_bind].
  unfold accept_sign. rewrite !decide_False by done.
  cbn. rewrite Hd. cbn. rewrite decide_True; [done|]. lia.
Qed.

(** A worker's name reads back as its process id. *)
Theorem scan_myfilename phase p :
  (p < 2 ^ 63)%N → Sscanf_d (pat phase) (myfilename phase p) = Some (Z.of_N p).
Proof.
  intros Hp. unfold Sscanf_d, myfilename. rewrite literal_app. cbn [mbind option_bind].
  destruct (pretty_head p) as (a & s & E & d & Hd). pose proof (pretty_scan p) as Hs.
  rewrite E in Hs |- *. cbn [scanNumber] in Hs. rewrite Hd in Hs. change (0 * 10 + d)%N with d in Hs.
  rewrite (scanInt_digit a s d Hd); by rewrite Hs.
Qed.

Lemma myfilename_inj phase p q : myfilename phase p = myfilename phase q → p = q.
Proof.
  unfold myfilename. intros H. apply (inj (String.append (pat phase))) in H.
  by apply (inj pretty) in H.
Qed.

(** ** The directory tells who is inside *)

Definition inside (c : pc) : Prop := c ≠ Outside ∧ c ≠ Dead.
#[export] Instance inside_dec c : Decision (inside c).
Proof. destruct c; (left; by split) || (right; by intros []). Defined.

(** The living workers that are inside [nparallel]. *)
Definition insiders (w : world) : gset N := dom (filter (fun x => inside x.2) (procs w)).

Lemma elem_of_insiders w p : p ∈ insiders w ↔ ∃ c, procs w !! p = Some c ∧ inside c.
Proof.
  unfold insiders. rewrite elem_of_dom. split.
  - intros [c Hc]. apply map_lookup_filter_Some in Hc as [??]. eauto.
  - intros (c & ? & ?). exists c. by apply map_lookup_filter_Some.
Qed.

Lemma alive_true w p : alive w p ↔ ∃ c, procs w !! p = Some c ∧ c ≠ Dead.
Proof.
  unfold alive. destruct (procs w !! p) as [c|]; [|naive_solver].
  destruct c; cbn; split; try done; (intros; eexists; by split) || naive_solver.
Qed.

Section counts.
Context (group : Z → bool) (phase : string).
Notation name_of := (myfilename phase).
Notation scans := (Sscanf_d (pat phase)).
Notation step := (step group phase).
Notation nstep := (nstep group phase).

(** What the directory says of the processes: a worker inside has its
    file there, one outside has not, and every name the loop would accept
    belongs to a worker that is inside or died inside. *)
Record directory_ok (w : world) : Prop := {
  dir_nodup : NoDup (files w);
  dir_pid p c : procs w !! p = Some c → (0 < p < 2 ^ 63)%N;
  dir_in p c : procs w !! p = Some c → inside c → name_of p ∈ files w;
  dir_out p : procs w !! p = Some Outside → name_of p ∉ files w;
  dir_names name x : name ∈ files w → scans name = Some x →
    ∃ p c, x = Z.of_N p ∧ name = name_of p ∧ procs w !! p = Some c ∧ c ≠ Outside
}.

Lemma fresh_ok w : fresh phase w → directory_ok w.
Proof.
  intros (Hp & Hn & Hf). split; try done; rewrite Hp; try by intros.
  intros name x Hin Hx. rewrite Forall_forall in Hf. specialize (Hf _ Hin). by rewrite Hx in Hf.
Qed.

Lemma others_ok w w' : others phase w w' → directory_ok w → directory_ok w'.
Proof.
  intros (Hp & Hn & Hf) [H1 H2 H3 H4 H5].
  assert (∀ p c, procs w !! p = Some c → name_of p ∈ files w' ↔ name_of p ∈ files w) as Hmy.
  { intros p c Hc. apply Hf. rewrite scan_myfilename; [done|]. by apply (H2 p c). }
  split; rewrite ?Hp; try done.
  - intros p c Hc Hi. rewrite Hmy by done. eauto.
  - intros p Hc. rewrite Hmy by done. eauto.
  - intros name x Hin Hx. rewrite Hf in Hin by done. eauto.
Qed.

(** A step that changes only where [p] is. *)
Lemma move_ok p c c' w :
  directory_ok w → procs w !! p = Some c → (inside c' → inside c) → c' ≠ Outside →
  directory_ok (set_pc p c' w).
Proof.
  intros [H1 H2 H3 H4 H5] Hc Hi Hno. split; cbn; try done.
  - intros q d. rewrite lookup_insert_Some. intros [[<- _]|[_ ?]]; eauto.
  - intros q d. rewrite lookup_insert_Some. intros [[<- <-]|[_ ?]]; eauto.
  - intros q. rewrite lookup_insert_Some. intros [[_ ?]|[_ ?]]; [done|eauto].
  - intros name x Hin Hx. destruct (H5 name x Hin Hx) as (q & d & -> & -> & Hq & Hd).
    destruct (decide (q = p)) as [->|Hne].
    + exists p, c'. by rewrite lookup_insert_eq.
    + exists q, d. by rewrite lookup_insert_ne by done.
Qed.

Lemma scan_of p c w : directory_ok w → procs w !! p = Some c → scans (name_of p) = Some (Z.of_N p).
Proof. intros H Hc. apply scan_myfilename. by apply (dir_pid w H p c). Qed.

(** A name in the directory is that of a known process. *)
Lemma listed_known w p : directory_ok w → (p < 2 ^ 63)%N → name_of p ∈ files w →
  ∃ c, procs w !! p = Some c ∧ c ≠ Outside.
Proof.
  intros H Hp Hin. destruct (dir_names w H _ _ Hin (scan_myfilename phase p Hp))
    as (q & c & _ & Hq%myfilename_inj & ?). subst. eauto.
Qed.

Lemma worker_start_ok p w :
  directory_ok w → procs w !! p = None → (0 < p < 2 ^ 63)%N → directory_ok (set_pc p Outside w).
Proof.
  intros H Hp Hr. pose proof H as [H1 H2 H3 H4 H5]. split; cbn; try done.
  - intros q d. rewrite lookup_insert_Some. intros [[<- _]|[_ ?]]; eauto.
  - intros q d. rewrite lookup_insert_Some. intros [[_ <-]|[_ ?]]; [|eauto]. by intros [].
  - intros q. rewrite lookup_insert_Some. intros [[<- _]|[_ ?]]; [|eauto].
    intros Hin. destruct (listed_known w p H ltac:(lia) Hin) as (c & ? & _). congruence.
  - intros name x Hin Hx. destruct (H5 name x Hin Hx) as (q & d & -> & -> & Hq & Hd).
    exists q, d. rewrite lookup_insert_ne by congruence. done.
Qed.

Lemma worker_write_ok p w fs :
  directory_ok w → procs w !! p = Some Outside → fs ≡ₚ name_of p :: files w →
  directory_ok (set_pc p Created (mkWorld fs (procs w))).
Proof.
  intros H Hp Hfs. pose proof H as [H1 H2 H3 H4 H5].
  split; cbn.
  - rewrite Hfs. constructor; [by apply H4|done].
  - intros q d. rewrite lookup_insert_Some. intros [[<- _]|[_ ?]]; eauto.
  - intros q d. rewrite lookup_insert_Some, Hfs, elem_of_cons. intros [[<- <-]|[_ ?]]; eauto.
  - intros q. rewrite lookup_insert_Some, Hfs, elem_of_cons. intros [[_ ?]|[Hne ?]]; [done|].
    intros [Hq%myfilename_inj|Hq]; [done|]. by apply (H4 q).
  - intros name x. rewrite Hfs, elem_of_cons. intros [->|Hin] Hx.
    + rewrite (scan_of p _ w H Hp) in Hx. injection Hx as <-. exists p, Created. by rewrite lookup_insert_eq.
    + destruct (H5 name x Hin Hx) as (q & d & -> & -> & Hq & Hd).
      exists q, d. rewrite lookup_insert_ne by congruence. done.
Qed.

Lemma worker_remove_ok p c w :
  directory_ok w → procs w !! p = Some c →
  directory_ok (set_pc p Outside (mkWorld (filter (fun f => f ≠ name_of p) (files w)) (procs w))).
Proof.
  intros H Hp. pose proof H as [H1 H2 H3 H4 H5]. split; cbn.
  - by apply NoDup_filter.
  - intros q d. rewrite lookup_insert_Some. intros [[<- _]|[_ ?]]; eauto.
  - intros q d. rewrite lookup_insert_Some, list_elem_of_filter. intros [[_ <-]|[Hne ?]]; [by intros []|].
    intros. split; [by intros ?%myfilename_inj|eauto].
  - intros q. rewrite lookup_insert_Some, list_elem_of_filter. intros [[<- _]|[_ ?]]; [by intros []|].
    intros [_ ?]. by apply (H4 q).
  - intros name x [Hne Hin]%list_elem_of_filter Hx.
    destruct (H5 name x Hin Hx) as (q & d & -> & -> & Hq & Hd).
    exists q, d. rewrite lookup_insert_ne by congruence. done.
Qed.

Lemma step_ok p w w' : step p w w' → directory_ok w → directory_ok w'.
Proof.
  intros Hs H. destruct Hs.
  - by apply worker_start_ok.
  - apply worker_write_ok; [done..|]. rewrite decide_False in * by by apply (dir_out w H). done.
  - by apply (move_ok p Created).
  - by apply (move_ok p Created).
  - by eapply move_ok.
  - by eapply move_ok.
  - by eapply worker_remove_ok.
  - by eapply move_ok.
  - eapply move_ok; [done..| |done]. by intros [].
Qed.

Lemma nstep_ok w w' : nstep w w' → directory_ok w → directory_ok w'.
Proof. intros [Ho|[p Hs]]; [by apply others_ok|by apply (step_ok p)]. Qed.

Lemma reachable_ok w0 w : fresh phase w0 → rtc nstep w0 w → directory_ok w.
Proof. intros Hf Hr. apply fresh_ok in Hf. induction Hr; eauto using nstep_ok. Qed.

(** ** The count *)

(** The processes of [w] are still known in [w'], and none came back to
    life. *)
Definition later (w w' : world) : Prop :=
  ∀ q, is_Some (procs w !! q) → is_Some (procs w' !! q) ∧ (alive w' q → alive w q).

#[local] Instance later_preorder : PreOrder later.
Proof.
  split; [by intros w q|]. intros w1 w2 w3 H1 H2 q Hq.
  destruct (H1 q Hq) as [Hq2 ?], (H2 q Hq2). eauto.
Qed.

Lemma set_pc_later p c c' fs w :
  procs w !! p = Some c → c ≠ Dead ∨ c' = Dead → later w (set_pc p c' (mkWorld fs (procs w))).
Proof.
  intros Hp Hd q Hq. unfold alive. cbn. destruct (decide (q = p)) as [->|].
  - rewrite lookup_insert_eq, Hp. split; [done|]. destruct Hd as [?| ->]; by destruct c.
  - by rewrite lookup_insert_ne.
Qed.

Lemma nstep_later w w' : nstep w w' → later w w'.
Proof.
  intros [(Hp & _)|[p Hs]].
  - intros q Hq. unfold alive. by rewrite Hp.
  - destruct Hs; [|eapply (set_pc_later _ _ _ _ w); [done|by (left + right)]..].
    intros q Hq. unfold alive. cbn. rewrite lookup_insert_ne; [done|].
    intros ->. by destruct Hq; simplify_eq.
Qed.

(** The process ids that the loop reads off the names. *)
Definition pids (names : list string) : list N := omap (fun n => Z.to_N <$> scans n) names.

Lemma pids_app l k : pids (l ++ k) = pids l ++ pids k.
Proof. apply omap_app. Qed.

Lemma elem_of_pids w q : directory_ok w →
  q ∈ pids (files w) ↔ ∃ c, procs w !! q = Some c ∧ c ≠ Outside ∧ name_of q ∈ files w.
Proof.
  intros H. unfold pids. rewrite list_elem_of_omap. split.
  - intros (n & Hin & Hn). apply fmap_Some in Hn as (x & Hx & ->).
    destruct (dir_names w H n x Hin Hx) as (p & c & -> & -> & ? & ?). rewrite N2Z.id. eauto.
  - intros (c & Hc & _ & Hin). exists (name_of q). split; [done|].
    rewrite (scan_of q c w H Hc). cbn. by rewrite N2Z.id.
Qed.

Lemma pids_nodup w l : directory_ok w → l ⊆ files w → NoDup l → NoDup (pids l).
Proof.
  intros H Hl. induction 1 as [|n l Hn _ IH]; [constructor|]. unfold pids. cbn.
  assert (NoDup (pids l)) as IHl by (apply IH; set_solver).
  destruct (scans n) as [x|] eqn:Ex; cbn; [|done]. constructor; [|done].
  destruct (dir_names w H n x) as (p & c & -> & -> & _); [set_solver|done|]. rewrite N2Z.id.
  intros (n' & Hin & Hn')%list_elem_of_omap. apply fmap_Some in Hn' as (x' & Hx' & Hp).
  destruct (dir_names w H n' x') as (p' & c' & -> & -> & _); [set_solver|done|].
  rewrite N2Z.id in Hp. by subst.
Qed.

(** Those counted so far: at least the ones alive now, at most the ones
    alive when the directory was listed. *)
Definition between (w1 w : world) (seen : list string) (ret : Z) : Prop :=
  Z.of_nat (length (filter (fun q => alive w q) (pids seen))) ≤ ret ≤
  Z.of_nat (length (filter (fun q => alive w1 q) (pids seen))).

Definition progress (w1 : world) (L : list string) (p : N) (w : world) : Prop :=
  later w1 w ∧
  ∃ seen ret, between w1 w seen ret ∧
    ((∃ rest, procs w !! p = Some (Scanning rest ret) ∧ L = seen ++ rest) ∨
     (procs w !! p = Some (Asleep ret) ∧ L = seen)).

Lemma filter_length_mono (P Q : N → Prop) `{!∀ x, Decision (P x), !∀ x, Decision (Q x)} l :
  (∀ x, x ∈ l → P x → Q x) → (length (filter P l) ≤ length (filter Q l))%nat.
Proof.
  induction l as [|x l IH]; intros HPQ; [done|]. rewrite !filter_cons.
  assert (length (filter P l) ≤ length (filter Q l))%nat by (apply IH; set_solver).
  destruct (decide (P x)) as [HP|]; [rewrite decide_True by (apply HPQ; set_solver); cbn; lia|].
  case_decide; cbn; lia.
Qed.

Lemma between_later w1 w w' seen ret :
  (∀ q, q ∈ pids seen → is_Some (procs w !! q)) → later w w' →
  between w1 w seen ret → between w1 w' seen ret.
Proof.
  intros Hk Hl [? ?]. split; [|done]. trans (Z.of_nat (length (filter (fun q => alive w q) (pids seen)))); [|done].
  apply inj_le, filter_length_mono. intros q Hq. by apply (Hl q (Hk q Hq)).
Qed.

(** One turn of the loop. *)
Lemma between_look w1 w seen n ret :
  directory_ok w1 → later w1 w → n ∈ files w1 →
  between w1 w seen ret → between w1 w (seen ++ [n]) (ret + look group phase w n).
Proof.
  intros H Hl Hin [Hlo Hhi]. unfold between. rewrite pids_app, !filter_app, !length_app.
  change (pids [n]) with (match Z.to_N <$> scans n with Some q => [q] | None => [] end).
  unfold look. destruct (scans n) as [x|] eqn:Ex; cbn [fmap option_fmap option_map];
    rewrite ?filter_nil; [|cbn [length]; lia].
  destruct (dir_names w1 H n x Hin Ex) as (q & c & -> & -> & Hq & _).
  pose proof (dir_pid w1 H q c Hq) as Hr. unfold kill. rewrite (proj2 (Z.ltb_lt _ _)) by lia.
  rewrite !N2Z.id, !filter_cons, !filter_nil.
  destruct (Hl q ltac:(eauto)) as [_ Ha].
  destruct (alive w q), (alive w1 q); rewrite ?decide_True, ?decide_False by (done || by intros []);
    cbn [length]; try lia. by destruct (Ha I).
Qed.

(** [p] is past the listing and has not returned. *)
Definition counting (p : N) (w : world) : Prop :=
  (∃ rest ret, procs w !! p = Some (Scanning rest ret)) ∨ ∃ ret, procs w !! p = Some (Asleep ret).

Lemma pids_known w1 w l : directory_ok w1 → later w1 w → l ⊆ files w1 →
  ∀ q, q ∈ pids l → is_Some (procs w !! q).
Proof.
  intros H Hl Hsub q Hq. apply Hl.
  assert (q ∈ pids (files w1)) as (c & Hc & _)%elem_of_pids; [|eauto|done].
  unfold pids in *. rewrite list_elem_of_omap in *. destruct Hq as (n & ? & ?). exists n. set_solver.
Qed.

(** A step of another process, or of other programs. *)
Lemma progress_other w1 L p w w' :
  directory_ok w1 → L ⊆ files w1 → later w w' → procs w' !! p = procs w !! p →
  progress w1 L p w → progress w1 L p w'.
Proof.
  intros H HL Hl Hp (Hlw & seen & ret & Hb & Hpc). split; [by trans w|].
  exists seen, ret. rewrite Hp. split; [|done].
  apply (between_later w1 w); [|done..]. apply (pids_known w1 w); [done..|].
  destruct Hpc as [(rest & _ & ->)|[_ ->]]; set_solver.
Qed.

(** A step of the worker itself. *)
Lemma progress_self w1 L p w w' :
  directory_ok w1 → L ⊆ files w1 → step p w w' → counting p w' →
  progress w1 L p w → progress w1 L p w'.
Proof.
  intros H HL Hs Hc (Hlw & seen & ret & Hb & Hpc).
  assert (later w w') as Hl by (apply nstep_later; right; eauto).
  split; [by trans w|]. unfold counting in Hc.
  destruct Hs; cbn in *; rewrite ?lookup_insert_eq in Hc; try naive_solver.
  - destruct Hpc as [(rest & Hr & HLeq)|[Hr _]]; simplify_eq.
    exists (seen ++ [name]), (ret0 + look group phase w name). rewrite lookup_insert_eq. split.
    + apply (between_later w1 w); [|done|].
      * apply (pids_known w1 w); [done..|set_solver].
      * apply between_look; [done..|set_solver|done].
    + left. exists names. split; [done|]. by rewrite <- app_assoc.
  - destruct Hpc as [(rest & Hr & HLeq)|[Hr _]]; simplify_eq.
    exists seen, ret0. rewrite lookup_insert_eq, app_nil_r in *. split; [|by right].
    apply (between_later w1 w); [|done..]. by apply (pids_known w1 w).
Qed.

Lemma progress_nstep w1 L p w w' :
  directory_ok w1 → L ⊆ files w1 → nstep w w' → counting p w' →
  progress w1 L p w → progress w1 L p w'.
Proof.
  intros H HL Hn Hc Hp. pose proof (nstep_later _ _ Hn). destruct Hn as [(Hpr & _)|[q Hs]].
  - apply (progress_other w1 L p w); [done..|by rewrite Hpr|done].
  - destruct (decide (q = p)) as [->|]; [by apply (progress_self w1 L p w)|].
    apply (progress_other w1 L p w); [done..| |done].
    by destruct Hs; cbn; rewrite lookup_insert_ne.
Qed.

(** The listing has every name, unless there are more than a million. *)
Lemma Readdirnames_all n dir names :
  (length dir ≤ N.to_nat n)%nat → Readdirnames n dir = Some names → names = dir.
Proof.
  intros Hn. destruct dir as [|f dir]; [done|]. unfold Readdirnames. intros [= <-]. by apply take_ge.
Qed.

Lemma listing_complete p w w' rest :
  (length (files w) ≤ N.to_nat 1000000)%nat → procs w !! p = Some Created →
  step p w w' → procs w' !! p = Some (Scanning rest 0) → rest ≡ₚ files w.
Proof.
  intros Hlen Hp Hs Hr.
  destruct Hs as [| |w dir names _ Hdir Hnames| | | | | |]; cbn [set_pc procs] in *; simplify_map_eq.
  apply Readdirnames_all in Hnames as ->; [done|]. by rewrite (Permutation_length Hdir).
Qed.

(** Steps of the system while [p] counts. *)
Definition while_counting (p : N) (w w' : world) : Prop := nstep w w' ∧ counting p w'.

Lemma progress_run w1 L p w w' :
  directory_ok w1 → L ⊆ files w1 → rtc (while_counting p) w w' →
  progress w1 L p w → progress w1 L p w'.
Proof.
  intros H HL Hr. induction Hr as [|w w' w'' [Hn Hc] _ IH]; [done|]. intros Hp.
  apply IH. by apply (progress_nstep w1 L p w).
Qed.

(** C35: a worker [p] lists a directory of at most a million names in [w1]; the
    system runs on while [p] counts, until it is asleep with the result
    [n].  Then [n] is at most the number of workers that were inside
    [nparallel] when [p] listed the directory, itself included; at least
    that of any set of them that are still alive; and [p] is one of them. *)
Theorem nparallel_counts w0 w1 w2 w3 p n rest :
  fresh phase w0 → rtc nstep w0 w1 → (length (files w1) ≤ N.to_nat 1000000)%nat →
  procs w1 !! p = Some Created → step p w1 w2 → procs w2 !! p = Some (Scanning rest 0) →
  rtc (while_counting p) w2 w3 → procs w3 !! p = Some (Asleep n) →
  n ≤ Z.of_nat (size (insiders w1)) ∧
  (∀ X : gset N, X ⊆ insiders w1 → (∀ q, q ∈ X → alive w3 q) → Z.of_nat (size X) ≤ n) ∧
  1 ≤ n.
Proof.
  intros Hf Hr Hlen Hp Hs H2 H23 H3. assert (directory_ok w1) as H by by eapply reachable_ok.
  assert (rest ≡ₚ files w1) as HL by by apply (listing_complete p w1 w2).
  assert (later w1 w2) as Hl by (apply nstep_later; right; eauto).
  assert (rest ⊆ files w1) as Hsub by (intros ?; by rewrite HL).
  assert (progress w1 rest p w3) as (_ & seen & ret & Hb & Hpc).
  { eapply progress_run; [done..|]. split; [done|]. exists [], 0. split; [by split|].
    left. by exists rest. }
  destruct Hpc as [(? & ? & _)|[? <-]]; simplify_eq. destruct Hb as [Hlo Hhi].
  assert (∀ q, q ∈ pids rest ↔ q ∈ pids (files w1)) as Hpids.
  { intros q. unfold pids. rewrite !list_elem_of_omap. by setoid_rewrite HL. }
  assert (NoDup (pids rest)) as Hnd.
  { apply (pids_nodup w1); [done..|]. rewrite HL. apply H. }
  assert (∀ X : gset N, X ⊆ insiders w1 → (∀ q, q ∈ X → alive w3 q) → Z.of_nat (size X) ≤ n) as Hlow.
  { intros X HX Ha. etrans; [|exact Hlo]. apply inj_le. unfold size, set_size. cbn.
    apply submseteq_length, NoDup_submseteq; [apply NoDup_elements|].
    intros q Hq%elem_of_elements. apply list_elem_of_filter. split; [by apply Ha|].
    apply Hpids, elem_of_pids; [done|]. destruct (proj1 (elem_of_insiders w1 q) (HX q Hq)) as (c & Hc & Hi).
    exists c. split_and!; [done|apply Hi|by apply (dir_in w1 H q c)]. }
  split_and!; [|done|].
  - etrans; [exact Hhi|]. apply inj_le. unfold size, set_size. cbn.
    apply submseteq_length, NoDup_submseteq; [by apply NoDup_filter|].
    intros q [Ha Hq]%list_elem_of_filter. apply elem_of_elements, elem_of_insiders.
    apply Hpids, elem_of_pids in Hq as (c & Hc & ? & _); [|done]. exists c. split; [done|]. split; [done|].
    apply alive_true in Ha as (c' & Hc' & ?). by simplify_eq.
  - change 1 with (Z.of_nat 1). rewrite <- (size_singleton (C:=gset N) p). apply Hlow.
    + intros q ->%elem_of_singleton. apply elem_of_insiders. by exists Created.
    + intros q ->%elem_of_singleton. apply alive_true. by exists (Asleep n).
Qed.
End counts.

(** ** Two workers that overlap *)

Definition no_group (x : Z) : bool := false.
Notation my := (myfilename "map").

(** A directory with other files, among them one whose name only begins
    like the pattern. *)
Definition start : world := mkWorld ["mr-out-0"; "mr-worker-map-x"] ∅.
Definition both_in : world := mkWorld [my 12; my 7; "mr-out-0"; "mr-worker-map-x"]
  (<[12%N := Created]> (<[7%N := Created]> ∅)).
Definition listed : list string := [my 7; my 12; "mr-out-0"; "mr-worker-map-x"].

(** The files of workers 7 and 12 are both there when worker 7 lists the
    directory; it returns 2. *)
Lemma nparallel_counts_witness :
  ∃ w3, rtc (while_counting no_group "map" 7) (set_pc 7 (Scanning listed 0) both_in) w3 ∧
    procs w3 !! 7%N = Some (Asleep 2) ∧ 2 ≤ Z.of_nat (size (insiders both_in)).
Proof.
  assert (∃ w3, rtc (while_counting no_group "map" 7) (set_pc 7 (Scanning listed 0) both_in) w3 ∧
    procs w3 !! 7%N = Some (Asleep 2)) as (w3 & Hr & H3).
  { eexists. split; [|shelve]. unfold listed.
    do 4 (eapply rtc_l; [split; [right; exists 7%N; by eapply SLook|left; by do 2 eexists]|]).
    eapply rtc_l; [split; [right; exists 7%N; by eapply SSleep|right; by eexists]|]. apply rtc_refl.
    Unshelve. by vm_compute. }
  exists w3. split_and!; [done..|].
  eapply (nparallel_counts no_group "map" start both_in (set_pc 7 (Scanning listed 0) both_in) w3 7 2 listed).
  - split_and!; [done|by apply (bool_decide_unpack _); vm_compute|]. repeat constructor.
  - eapply rtc_l; [right; exists 7%N; by apply SStart|].
    eapply rtc_l; [right; exists 12%N; by apply SStart|].
    eapply rtc_l; [right; exists 7%N; by eapply (SWrite _ _ _ _ [my 7; "mr-out-0"; "mr-worker-map-x"])|].
    eapply rtc_l; [right; exists 12%N; by eapply (SWrite _ _ _ _ (files both_in))|]. apply rtc_refl.
  - apply (Nat.le_trans _ (N.to_nat 4)); [done|]. lia.
  - done.
  - apply (SList _ _ _ _ listed); [done| |].
    + apply perm_swap.
    + unfold Readdirnames, listed. rewrite take_ge; [done|]. cbn. lia.
  - done.
  - done.
  - done.
Defined.
