(* ===== verification/MRMaster.v ===== *)
(** * The MapReduce master ([labs/src/mr/master.go], [rpc.go])

    The master's tasks and counters, its RPC handlers, and the goroutines
    that wait for a task to finish.  [HandleResponse] changes the task and the
    counter in two critical sections; both are steps here, so that requests
    may come in between.

    Time is in seconds. *)

From S2P Require Import Prelude.
Local Open Scope Z_scope.

(** ** Data *)

Inductive tstate := IDLE | IN_PROGRESS | COMPLETED.
#[export] Instance tstate_eq_dec : EqDecision tstate.
Proof. solve_decision. Defined.

Record Task := mkTask { filename : string; tk_state : tstate; timestamp : Z }.

Record Master := mkMaster {
  map_remain : Z;
  reduce_remain : Z;
  mtasks : list Task;
  rtasks : list Task;
}.

Record AskReply := mkAskReply {
  Kind : string; File : string; Splite : Z; NReduce : Z; Index : Z }.
Record ResponseArgs := mkResponseArgs { ra_Kind : string; ra_Index : Z }.

(** Which of the two slices a task is in. *)
Inductive slice := MTASKS | RTASKS.
#[export] Instance slice_eq_dec : EqDecision slice.
Proof. solve_decision. Defined.

Definition tasks_of (m : Master) (k : slice) : list Task :=
  match k with MTASKS => mtasks m | RTASKS => rtasks m end.
Definition set_tasks (k : slice) (ts : list Task) (m : Master) : Master :=
  match k with
  | MTASKS => mkMaster (map_remain m) (reduce_remain m) ts (rtasks m)
  | RTASKS => mkMaster (map_remain m) (reduce_remain m) (mtasks m) ts
  end.
Definition remain (m : Master) (k : slice) : Z :=
  match k with MTASKS => map_remain m | RTASKS => reduce_remain m end.

(** ** Handlers *)

(** The loop of [HandleAsk]: the first idle task, from index [i] on. *)
Fixpoint first_idle (i : nat) (ts : list Task) : option (nat * Task) :=
  match ts with
  | [] => None
  | task :: ts =>
      if bool_decide (tk_state task = IDLE) then Some (i, task) else first_idle (S i) ts
  end.

(** The task that the [wait] goroutine started by [HandleAsk] watches. *)
Definition HandleAsk (m : Master) (now : Z) : Master * AskReply * option (slice * nat) :=
  if bool_decide (map_remain m ≠ 0) then
    match first_idle 0 (mtasks m) with
    | Some (i, task) =>
        (set_tasks MTASKS (<[i := mkTask (filename task) IN_PROGRESS now]> (mtasks m)) m,
         mkAskReply "map" (filename task) 0 (zlen (rtasks m)) (Z.of_nat i), Some (MTASKS, i))
    | None => (m, mkAskReply "none" "" 0 0 0, None)
    end
  else
    match first_idle 0 (rtasks m) with
    | Some (i, task) =>
        (set_tasks RTASKS (<[i := mkTask (filename task) IN_PROGRESS now]> (rtasks m)) m,
         mkAskReply "reduce" "" (zlen (mtasks m)) 0 (Z.of_nat i), Some (RTASKS, i))
    | None => (m, mkAskReply "none" "" 0 0 0, None)
    end.

(** [wait], when its ten seconds are over. *)
Definition wait (m : Master) (k : slice) (i : nat) : Master :=
  match tasks_of m k !! i with
  | Some task =>
      if bool_decide (tk_state task = COMPLETED) then m
      else set_tasks k (<[i := mkTask (filename task) IDLE (timestamp task)]> (tasks_of m k)) m
  | None => m
  end.

Definition slice_of (args : ResponseArgs) : slice :=
  if bool_decide (ra_Kind args = "map") then MTASKS else RTASKS.

(** [HandleResponse], up to the change of the task: [true] when the response
    came in time, and the counter is to be decremented. *)
Definition HandleResponse_task (m : Master) (args : ResponseArgs) (now : Z) : go (Master * bool) :=
  let k := slice_of args in
  task ← idx (tasks_of m k) (ra_Index args);
  if bool_decide (now < timestamp task + 10) then
    ts ← upd (tasks_of m k) (ra_Index args) (mkTask (filename task) COMPLETED (timestamp task));
    Done (set_tasks k ts m, true)
  else Done (m, false).

(** [HandleResponse], the counter. *)
Definition HandleResponse_count (m : Master) (k : slice) : Master :=
  match k with
  | MTASKS => mkMaster (map_remain m - 1) (reduce_remain m) (mtasks m) (rtasks m)
  | RTASKS => mkMaster (map_remain m) (reduce_remain m - 1) (mtasks m) (rtasks m)
  end.

Definition Done_ (m : Master) : bool := bool_decide (reduce_remain m = 0).

Definition MakeMaster (files : list string) (nReduce : nat) : Master :=
  mkMaster (zlen files) (Z.of_nat nReduce)
    ((fun file => mkTask file IDLE 0) <$> files) (replicate nReduce (mkTask "" IDLE 0)).

(** ** The master at work *)

(** [timers]: the [wait] goroutines; [counts]: responses whose counter is
    still to be decremented; [accepted]: the tasks of the responses that came
    in time, so far. *)
Record mstate := mkMState {
  master : Master;
  timers : list (slice * nat);
  counts : list slice;
  accepted : list (slice * nat);
}.

Inductive mact :=
| MAsk (now : Z)
| MWait (k : nat)
| MResponse (args : ResponseArgs) (now : Z)
| MCount (k : nat).

Definition mstep (s : mstate) (a : mact) : go mstate :=
  match a with
  | MAsk now =>
      let '(m, _, timer) := HandleAsk (master s) now in
      Done (mkMState m (timers s ++ option_list timer) (counts s) (accepted s))
  | MWait k =>
      match timers s !! k with
      | Some (sl, i) =>
          Done (mkMState (wait (master s) sl i) (delete k (timers s)) (counts s) (accepted s))
      | None => Stuck
      end
  | MResponse args now =>
      '(m, ok) ← HandleResponse_task (master s) args now;
      Done (if (ok : bool)
            then mkMState m (timers s) (counts s ++ [slice_of args])
                   (accepted s ++ [(slice_of args, Z.to_nat (ra_Index args))])
            else mkMState m (timers s) (counts s) (accepted s))
  | MCount k =>
      match counts s !! k with
      | Some sl =>
          Done (mkMState (HandleResponse_count (master s) sl) (timers s) (delete k (counts s)) (accepted s))
      | None => Stuck
      end
  end.

Fixpoint mrun (s : mstate) (acts : list mact) : go mstate :=
  match acts with
  | [] => Done s
  | a :: acts => s' ← mstep s a; mrun s' acts
  end.

Definition minit (files : list string) (nReduce : nat) : mstate :=
  mkMState (MakeMaster files nReduce) [] [] [].

(** ** What the counters count *)

Definition is_completed (m : Master) (k : slice) (i : nat) : Prop :=
  ∃ t, tasks_of m k !! i = Some t ∧ tk_state t = COMPLETED.

Definition count_slice (k : slice) (l : list slice) : Z := zlen (filter (fun x => x = k) l).
Definition accepted_of (k : slice) (l : list (slice * nat)) : list nat :=
  (filter (fun x => x.1 = k) l).*2.

(** Sizes, completed tasks, and counters of the state after any run. *)
Record minv (files : list string) (nReduce : nat) (s : mstate) : Prop := {
  mi_size : ∀ k, length (tasks_of (master s) k) =
    match k with MTASKS => length files | RTASKS => nReduce end;
  mi_done : ∀ k i, is_completed (master s) k i ↔ i ∈ accepted_of k (accepted s);
  mi_range : ∀ k i, i ∈ accepted_of k (accepted s) → (i < length (tasks_of (master s) k))%nat;
  mi_remain : ∀ k, remain (master s) k =
    Z.of_nat (length (tasks_of (master s) k)) - zlen (accepted_of k (accepted s)) +
    count_slice k (counts s);
}.

Lemma tasks_set_same m k ts : tasks_of (set_tasks k ts m) k = ts.
Proof. by destruct k. Qed.
Lemma tasks_set_other m k k' ts : k' ≠ k → tasks_of (set_tasks k ts m) k' = tasks_of m k'.
Proof. by destruct k, k'. Qed.
Lemma remain_set m k k' ts : remain (set_tasks k ts m) k' = remain m k'.
Proof. by destruct k, k'. Qed.

(** Replacing a task by one that is completed if and only if it was. *)
Lemma set_task_completed m k i t t' :
  tasks_of m k !! i = Some t → (tk_state t' = COMPLETED ↔ tk_state t = COMPLETED) →
  ∀ k' j, is_completed (set_tasks k (<[i := t']> (tasks_of m k)) m) k' j ↔ is_completed m k' j.
Proof.
  intros Hi Ht k' j. unfold is_completed. destruct (decide (k' = k)) as [->|Hne].
  - rewrite tasks_set_same. destruct (decide (j = i)) as [->|Hji].
    + rewrite list_lookup_insert_eq by eauto with go_lists. naive_solver.
    + by rewrite list_lookup_insert_ne.
  - by rewrite tasks_set_other.
Qed.

Lemma minv_set_task files n s k i t t' timers' :
  minv files n s → tasks_of (master s) k !! i = Some t →
  (tk_state t' = COMPLETED ↔ tk_state t = COMPLETED) →
  minv files n (mkMState (set_tasks k (<[i := t']> (tasks_of (master s) k)) (master s)) timers'
                  (counts s) (accepted s)).
Proof.
  intros [Hsz Hd Hr Hc] Hi Ht.
  assert (∀ k', length (tasks_of (set_tasks k (<[i := t']> (tasks_of (master s) k)) (master s)) k') =
    length (tasks_of (master s) k')) as Hl.
  { intros k'. destruct (decide (k' = k)) as [->|Hne]; [by rewrite tasks_set_same, length_insert|].
    by rewrite tasks_set_other. }
  split; cbn [master accepted counts].
  - intros k'. by rewrite Hl.
  - intros k' j. by rewrite (set_task_completed _ _ _ t t').
  - intros k' j. rewrite Hl. apply Hr.
  - intros k'. by rewrite remain_set, Hl.
Qed.

Lemma first_idle_spec i ts j t :
  first_idle i ts = Some (j, t) →
  ∃ n, j = (i + n)%nat ∧ ts !! n = Some t ∧ tk_state t = IDLE ∧
    ∀ n' t', (n' < n)%nat → ts !! n' = Some t' → tk_state t' ≠ IDLE.
Proof.
  revert i. induction ts as [|x ts IH]; intros i; cbn; [done|]. case_bool_decide as Hx.
  - intros [= <- <-]. exists 0%nat. split; [lia|]. split; [done|]. split; [done|]. lia.
  - intros H. apply IH in H as (n & -> & Hn & Ht & Hb). exists (S n). split; [lia|].
    split; [done|]. split; [done|]. intros [|n'] t' Hlt Ht'; cbn in Ht'; [by simplify_eq|].
    apply (Hb n'); [lia|done].
Qed.

Lemma accepted_app k l k' i :
  accepted_of k (l ++ [(k', i)]) = accepted_of k l ++ (if decide (k' = k) then [i] else []).
Proof.
  unfold accepted_of. rewrite filter_app, fmap_app. f_equal. rewrite filter_cons. cbn.
  by case_decide.
Qed.

Lemma count_app k l k' :
  count_slice k (l ++ [k']) = count_slice k l + (if decide (k' = k) then 1 else 0).
Proof.
  unfold count_slice, zlen. rewrite filter_app, length_app, filter_cons. cbn. case_decide; cbn; lia.
Qed.

Lemma count_delete k l n k' :
  l !! n = Some k' → count_slice k (delete n l) = count_slice k l - (if decide (k' = k) then 1 else 0).
Proof.
  intros Hn. assert (count_slice k l = count_slice k (k' :: delete n l)) as ->.
  { unfold count_slice. by rewrite (delete_Permutation l n k' Hn) at 1. }
  unfold count_slice, zlen. rewrite filter_cons. case_decide; cbn; lia.
Qed.

(** A response that comes in time is one more accepted one. *)
Lemma response_inv files n s args now s' :
  minv files n s → mstep s (MResponse args now) = Done s' → minv files n s'.
Proof.
  intros Hi Hs.
  cbn [mstep] in Hs. go_cases Hs. rename m into m', b into ok. unfold HandleResponse_task in E.
  apply go_bind_done in E as (t & Ht & E). apply idx_Done in Ht as [Hix Ht].
  case_bool_decide as Hnow; [|injection E as <- <-; subst; by destruct Hi].
  apply go_bind_done in E as (ts & Hts & E). injection E as <- <-. subst s'.
  apply upd_Done in Hts as [_ ->]. set (k := slice_of args) in *. set (i := Z.to_nat (ra_Index args)) in *.
  destruct Hi as [Hsz Hd Hr Hc].
  assert (∀ k', length (tasks_of (set_tasks k (<[i := mkTask (filename t) COMPLETED (timestamp t)]>
    (tasks_of (master s) k)) (master s)) k') = length (tasks_of (master s) k')) as Hl.
  { intros k'. destruct (decide (k' = k)) as [->|Hne]; [by rewrite tasks_set_same, length_insert|].
    by rewrite tasks_set_other. }
  pose proof (lookup_lt_Some _ _ _ Ht) as Hlt. split; cbn [master accepted counts].
  - intros k'. by rewrite Hl.
  - intros k' j. rewrite accepted_app, elem_of_app, <- Hd. unfold is_completed.
    destruct (decide (k = k')) as [<-|Hne].
    + rewrite tasks_set_same, list_elem_of_singleton. destruct (decide (j = i)) as [->|Hji].
      * rewrite list_lookup_insert_eq by done. naive_solver.
      * rewrite list_lookup_insert_ne by done. naive_solver.
    + rewrite tasks_set_other by done. set_solver.
  - intros k' j. rewrite accepted_app, elem_of_app, Hl. intros [Hj|Hj]; [by apply Hr|].
    case_decide; [|set_solver]. apply list_elem_of_singleton in Hj. by subst.
  - intros k'. rewrite remain_set, Hl, Hc, accepted_app, count_app. unfold zlen.
    rewrite length_app. case_decide; cbn; lia.
Qed.

Lemma mstep_inv files n s a s' : minv files n s → mstep s a = Done s' → minv files n s'.
Proof.
  intros Hi Hs. destruct a as [now|k|args now|k]; cbn [mstep] in Hs.
  - unfold HandleAsk in Hs.
    assert (∀ k j t, first_idle 0 (tasks_of (master s) k) = Some (j, t) →
      ∀ tm, minv files n (mkMState (set_tasks k (<[j := mkTask (filename t) IN_PROGRESS now]>
        (tasks_of (master s) k)) (master s)) tm (counts s) (accepted s))) as Hask.
    { intros k j t (n' & -> & Hn & Ht & _)%first_idle_spec tm. cbn.
      apply (minv_set_task _ _ _ _ _ t); [done|done|]. cbn. rewrite Ht. done. }
    destruct (bool_decide _).
    + destruct (first_idle 0 (mtasks (master s))) as [[j t]|] eqn:E; injection Hs as <-.
      * by apply (Hask MTASKS).
      * cbn. rewrite app_nil_r. by destruct s.
    + destruct (first_idle 0 (rtasks (master s))) as [[j t]|] eqn:E; injection Hs as <-.
      * by apply (Hask RTASKS).
      * cbn. rewrite app_nil_r. by destruct s.
  - destruct (timers s !! k) as [[sl i]|]; [|done]. injection Hs as <-. unfold wait.
    destruct (tasks_of (master s) sl !! i) as [t|] eqn:Et; [|by destruct Hi].
    case_bool_decide as Hc; [by destruct Hi|].
    apply (minv_set_task _ _ _ _ _ t); [done|done|]. cbn. split; [done|tauto].
  - by eapply response_inv.
  - destruct (counts s !! k) as [sl|] eqn:Ek; [|done]. injection Hs as <-.
    destruct Hi as [Hsz Hd Hr Hc].
    assert (∀ k', tasks_of (HandleResponse_count (master s) sl) k' = tasks_of (master s) k') as Ht
      by (by destruct sl, k').
    split; cbn [master accepted counts].
    + intros k'. by rewrite Ht.
    + intros k' j. unfold is_completed. by rewrite Ht, <- Hd.
    + intros k' j. rewrite Ht. apply Hr.
    + intros k'. rewrite Ht, (count_delete _ _ _ _ Ek). specialize (Hc k').
      case_decide; destruct sl, k'; try congruence;
        cbn [remain HandleResponse_count map_remain reduce_remain] in *; lia.
Qed.

Lemma minv_init files n : minv files n (minit files n).
Proof.
  split; cbn.
  - intros []; cbn; [by rewrite length_fmap|by rewrite length_replicate].
  - intros k i. split; [|set_solver]. intros (t & Ht & Hc). exfalso. destruct k; cbn in Ht.
    + apply list_lookup_fmap_Some in Ht as (f & -> & _). done.
    + apply lookup_replicate in Ht as [-> _]. done.
  - set_solver.
  - intros []; unfold zlen, count_slice; cbn [remain tasks_of map_remain reduce_remain MakeMaster mtasks rtasks];
      unfold zlen; rewrite ?length_fmap, ?length_replicate; cbn [accepted_of filter list_filter fmap list_fmap length]; lia.
Qed.

Lemma mrun_inv files n s acts s' : minv files n s → mrun s acts = Done s' → minv files n s'.
Proof.
  revert s. induction acts as [|a acts IH]; intros s Hi Hs; cbn [mrun] in Hs; [by injection Hs as <-|].
  go_inv Hs. eapply IH; [by eapply mstep_inv|done].
Qed.

(** ** Correctness *)

Lemma accepted_nodup k l : NoDup l → NoDup (accepted_of k l).
Proof.
  intros Hnd. unfold accepted_of. apply NoDup_fmap_2_strong; [|by apply NoDup_filter].
  intros [k1 i1] [k2 i2] H1 H2. apply list_elem_of_filter in H1 as [H1 _], H2 as [H2 _].
  cbn in *. by intros ->; subst.
Qed.

(** When no response was accepted twice, a counter at 0 means that every task
    of its kind is completed. *)
Lemma remain_zero files n s k :
  minv files n s → NoDup (accepted s) → remain (master s) k = 0 →
  ∀ i, (i < length (tasks_of (master s) k))%nat → is_completed (master s) k i.
Proof.
  intros [Hsz Hd Hr Hc] Hnd H0 i Hi. apply Hd.
  pose proof (accepted_nodup k _ Hnd) as Hnd'.
  specialize (Hc k). rewrite H0 in Hc.
  assert (0 ≤ count_slice k (counts s)) by (unfold count_slice, zlen; lia).
  assert (accepted_of k (accepted s) ≡ₚ seq 0 (length (tasks_of (master s) k))) as ->; [|apply elem_of_seq; lia].
  apply submseteq_length_Permutation.
  - apply NoDup_submseteq; [done|]. intros j Hj%Hr. apply elem_of_seq. lia.
  - rewrite length_seq. unfold zlen in Hc. lia.
Qed.

(** As long as no task's response is accepted twice, the master declares
    the job done only when every reduce task is completed, and gives out a
    reduce task only when every map task is. *)
Theorem master_phases files nReduce acts s now m reply timer :
  mrun (minit files nReduce) acts = Done s → NoDup (accepted s) →
  HandleAsk (master s) now = (m, reply, timer) →
  (Done_ (master s) = true → ∀ i, (i < nReduce)%nat → is_completed (master s) RTASKS i) ∧
  (Kind reply = "reduce" → ∀ i, (i < length files)%nat → is_completed (master s) MTASKS i).
Proof.
  intros Hr Hnd Ha. apply (mrun_inv files nReduce) in Hr; [|apply minv_init].
  pose proof (mi_size _ _ _ Hr RTASKS) as HsR. pose proof (mi_size _ _ _ Hr MTASKS) as HsM.
  cbn in HsR, HsM. split.
  - unfold Done_. rewrite bool_decide_eq_true. intros H0 i Hi.
    apply (remain_zero files nReduce s RTASKS Hr Hnd H0). cbn. lia.
  - intros Hk i Hi. apply (remain_zero files nReduce s MTASKS Hr Hnd); [|cbn; lia]. cbn.
    unfold HandleAsk in Ha. destruct (decide (map_remain (master s) = 0)) as [|H0]; [done|].
    rewrite bool_decide_eq_true_2 in Ha by done. exfalso. destruct (first_idle 0 (mtasks (master s))) as [[j t]|]; injection Ha as <- <- <-; done.
Qed.

(** [HandleAsk] gives out the first idle task of the current phase,
    marks it in progress, starts its timer and changes nothing else; it
    answers "none" only when no task of the phase is idle. *)
Theorem HandleAsk_spec m now :
  let k := if bool_decide (map_remain m ≠ 0) then MTASKS else RTASKS in
  (∃ i t, tasks_of m k !! i = Some t ∧ tk_state t = IDLE ∧
     (∀ j t', (j < i)%nat → tasks_of m k !! j = Some t' → tk_state t' ≠ IDLE) ∧
     ∃ reply, HandleAsk m now =
       (set_tasks k (<[i := mkTask (filename t) IN_PROGRESS now]> (tasks_of m k)) m, reply, Some (k, i)) ∧
       Index reply = Z.of_nat i ∧
       Kind reply = (match k with MTASKS => "map" | RTASKS => "reduce" end)) ∨
  ((∀ i t, tasks_of m k !! i = Some t → tk_state t ≠ IDLE) ∧
   ∃ reply, HandleAsk m now = (m, reply, None) ∧ Kind reply = "none").
Proof.
  assert (∀ i ts, first_idle i ts = None → ∀ j t, ts !! j = Some t → tk_state t ≠ IDLE) as Hnone.
  { intros i ts. revert i. induction ts as [|x ts IH]; intros i; cbn; [done|].
    case_bool_decide as Hx; [done|]. intros H [|j] t Ht; cbn in Ht; [by simplify_eq|by eapply IH]. }
  unfold HandleAsk. destruct (bool_decide (map_remain m ≠ 0)); cbn.
  - destruct (first_idle 0 (mtasks m)) as [[i t]|] eqn:E.
    + left. apply first_idle_spec in E as (n & -> & Hn & Ht & Hb). exists n, t.
      split; [done|]. split; [done|]. split; [done|]. eexists. split; [done|]. done.
    + right. split; [by eapply Hnone|]. eexists. done.
  - destruct (first_idle 0 (rtasks m)) as [[i t]|] eqn:E.
    + left. apply first_idle_spec in E as (n & -> & Hn & Ht & Hb). exists n, t.
      split; [done|]. split; [done|]. split; [done|]. eexists. split; [done|]. done.
    + right. split; [by eapply Hnone|]. eexists. done.
Qed.
