(* ===== verification/Programs.v ===== *)
(** * The programs of [labs/src/main]

    The command lines of [diskvd], [lockc], [lockd], [pbc], [pbd], [viewd],
    [mrmaster] and [mrworker], and [loadPlugin].  The services that most of
    them start are not in the repository: what a server is started with is
    the result, and the calls of the clerks are parameters.  [strconv.ParseInt],
    [Atoi] and [ParseBool] are modelled with the value they return beside an
    error, since [diskvd] ignores the error. *)

From stdpp Require Import pretty.
From S2P Require Import Prelude MapReduce MRMaster TimingApps TimingCorrect.
From Stdlib Require Import Ascii.
Local Open Scope Z_scope.

(** A program prints and exits, or runs on with [a]. *)
Inductive program (A : Type) := Exits (out : string) (status : Z) | Runs (a : A).
Arguments Exits {A}. Arguments Runs {A}.

(** ** strconv *)

Fixpoint digits_value (v : N) (s : string) : option N :=
  match s with
  | EmptyString => Some v
  | String a s => d ← digit a; digits_value (v * 10 + d) s
  end.

(** [strconv.ParseInt(s, 10, 64)] and [strconv.Atoi(s)]: 0 for what is not a
    number, the nearest of 64 bits for what is too large. *)
Definition ParseInt (s : string) : Z :=
  let '(neg, s) := accept_sign s in
  match s with
  | EmptyString => 0
  | _ =>
      match digits_value 0 s with
      | None => 0
      | Some v =>
          if neg : bool then Z.max (- 2 ^ 63) (- Z.of_N v) else Z.min (2 ^ 63 - 1) (Z.of_N v)
      end
  end.

Definition ParseBool (s : string) : bool :=
  bool_decide (s ∈ ["1"; "t"; "T"; "TRUE"; "true"; "True"]).

(** ** diskvd.go *)

Record diskv := mkDiskv {
  gid : Z; masters : list string; replicas : list string; me : Z; unreliable : bool;
  dirname : string; restart : bool }.

Definition diskv0 : diskv := mkDiskv (-1) [] [] (-1) false "" false.

(** One option; [None]: [usage()]. *)
Definition diskvd_option (a0 a1 : string) (c : diskv) : option diskv :=
  if bool_decide (a0 = "-g") then
    Some (mkDiskv (ParseInt a1) (masters c) (replicas c) (me c) (unreliable c) (dirname c) (restart c))
  else if bool_decide (a0 = "-m") then
    Some (mkDiskv (gid c) (masters c ++ [a1]) (replicas c) (me c) (unreliable c) (dirname c) (restart c))
  else if bool_decide (a0 = "-s") then
    Some (mkDiskv (gid c) (masters c) (replicas c ++ [a1]) (me c) (unreliable c) (dirname c) (restart c))
  else if bool_decide (a0 = "-i") then
    Some (mkDiskv (gid c) (masters c) (replicas c) (ParseInt a1) (unreliable c) (dirname c) (restart c))
  else if bool_decide (a0 = "-u") then
    Some (mkDiskv (gid c) (masters c) (replicas c) (me c) (ParseBool a1) (dirname c) (restart c))
  else if bool_decide (a0 = "-d") then
    Some (mkDiskv (gid c) (masters c) (replicas c) (me c) (unreliable c) a1 (restart c))
  else if bool_decide (a0 = "-r") then
    Some (mkDiskv (gid c) (masters c) (replicas c) (me c) (unreliable c) (dirname c) (ParseBool a1))
  else None.

(** [for i := 1; i+1 < len(os.Args); i += 2], on the arguments from [i]. *)
Fixpoint diskvd_options (args : list string) (c : diskv) : option diskv :=
  match args with
  | a0 :: a1 :: args => c ← diskvd_option a0 a1 c; diskvd_options args c
  | _ => Some c
  end.

Definition diskvd_usage : string :=
  "Usage: diskvd -g gid -m master... -s server... -i my-index -d dir" +:+ newline.

(** [Runs c]: [diskv.StartServer] with [c]. *)
Definition diskvd_main (args : list string) : program diskv :=
  match diskvd_options (tail args) diskv0 with
  | None => Exits diskvd_usage 1
  | Some c =>
      if bool_decide (gid c < 0) || bool_decide (me c < 0) || bool_decide (zlen (masters c) < 1) ||
         bool_decide (me c >= zlen (replicas c)) || bool_decide (dirname c = "")
      then Exits diskvd_usage 1
      else Runs c
  end.

(** ** lockc.go, lockd.go, pbc.go, pbd.go, viewd.go *)

Definition show_bool (b : bool) : string := if b then "true" else "false".

Definition lockc_usage : string := "Usage: lockc -l|-u primaryport backupport lockname" +:+ newline.

(** [Lock] and [Unlock] of a clerk of the two ports. *)
Definition lockc_main (Lock Unlock : string → string → string → bool) (args : list string) : program unit :=
  match args with
  | [_; a1; a2; a3; a4] =>
      if bool_decide (a1 = "-l") then Exits ("reply: " +:+ show_bool (Lock a2 a3 a4) +:+ newline) 0
      else if bool_decide (a1 = "-u") then Exits ("reply: " +:+ show_bool (Unlock a2 a3 a4) +:+ newline) 0
      else Exits lockc_usage 1
  | _ => Exits lockc_usage 1
  end.

(** The arguments of [lockservice.StartServer]. *)
Definition lockd_main (args : list string) : program (string * string * bool) :=
  match args with
  | [_; a1; a2; a3] =>
      if bool_decide (a1 = "-p") then Runs (a2, a3, true)
      else if bool_decide (a1 = "-b") then Runs (a2, a3, false)
      else Exits ("Usage: lockd -p|-b primaryport backupport" +:+ newline) 1
  | _ => Exits ("Usage: lockd -p|-b primaryport backupport" +:+ newline) 1
  end.

(** [Get] and [Put] of a clerk of the view server, on the service's state. *)
Definition pbc_main {S} (Get : string → string → S → S * string) (Put : string → string → string → S → S)
    (args : list string) (s : S) : S * program unit :=
  match args with
  | [_; a1; a2] => let '(s, v) := Get a1 a2 s in (s, Exits (v +:+ newline) 0)
  | [_; a1; a2; a3] => (Put a1 a2 a3 s, Exits "" 0)
  | _ => (s, Exits ("Usage: pbc viewport key" +:+ newline +:+
                    "       pbc viewport key value" +:+ newline) 1)
  end.

Definition pbd_main (args : list string) : program (string * string) :=
  match args with
  | [_; a1; a2] => Runs (a1, a2)
  | _ => Exits ("Usage: pbd viewport myport" +:+ newline) 1
  end.

Definition viewd_main (args : list string) : program string :=
  match args with
  | [_; a1] => Runs a1
  | _ => Exits ("Usage: viewd port" +:+ newline) 1
  end.

(** ** mrmaster.go and mrworker.go *)

(** What is printed goes to the standard error here. *)
Definition mrmaster_start (args : list string) : program Master :=
  if bool_decide (zlen args < 2) then Exits ("Usage: mrmaster inputfiles..." +:+ newline) 1
  else Runs (MakeMaster (tail args) 10).

(** [for m.Done() == false { time.Sleep(time.Second) }]: the masters that
    [Done] looks at, one after the other; whether the loop has been left. *)
Fixpoint mrmaster_wait (seen : list Master) : bool :=
  match seen with
  | [] => false
  | m :: seen => if Done_ m then true else mrmaster_wait seen
  end.

Notation mapfun := (string → string → list KeyValue) (only parsing).
Notation reducefun := (string → list string → string) (only parsing).

(** A symbol of a plugin, by its type. *)
Inductive symbol := SMap (f : mapfun) | SReduce (f : reducefun) | SOther.

(** [log.Fatalf], a failed type assertion, or the two functions. *)
Inductive loaded := Fatal (msg : string) | BadType | Loaded (mapf : mapfun) (reducef : reducefun).

Definition loadPlugin (open : string → option (string → option symbol)) (filename : string) : loaded :=
  match open filename with
  | None => Fatal ("cannot load plugin " +:+ filename)
  | Some lookup =>
      match lookup "Map" with
      | None => Fatal ("cannot find Map in " +:+ filename)
      | Some (SMap mapf) =>
          match lookup "Reduce" with
          | None => Fatal ("cannot find Reduce in " +:+ filename)
          | Some (SReduce reducef) => Loaded mapf reducef
          | Some _ => BadType
          end
      | Some _ => BadType
      end
  end.

Definition mrworker_main (open : string → option (string → option symbol)) (args : list string)
    : program loaded :=
  match args with
  | [_; a1] => Runs (loadPlugin open a1)
  | _ => Exits ("Usage: mrworker xxx.so" +:+ newline) 1
  end.

(** ** mrsequential.go *)

(** How the program ends: with a message and a status, with a failed type
    assertion, with the message that some input file cannot be opened or
    read, or with its output file; [log.Fatalf] exits with status 1. *)
Inductive ended := ExitWith (msg : string) (status : Z) | Asserts | CannotRead | Wrote (f : fs).

Definition mrsequential_main (sortKV : list KeyValue → list KeyValue) (ios : io)
    (open : string → option (string → option symbol)) (args : list string) (f : fs) : ended :=
  match args with
  | _ :: a1 :: a2 :: rest =>
      match loadPlugin open a1 with
      | Fatal msg => ExitWith msg 1
      | BadType => Asserts
      | Loaded mapf reducef =>
          match mrsequential sortKV ios mapf reducef (a2 :: rest) f with
          | Some f => Wrote f
          | None => CannotRead
          end
      end
  | _ => ExitWith ("Usage: mrsequential xxx.so inputfiles..." +:+ newline) 1
  end.

(** ** Theorems *)

Lemma digits_value_go x s : digits_value 0 (pretty_N_go x s) = digits_value x s.
Proof.
  revert s. induction (N.lt_wf_0 x) as [x _ IH]; intros s.
  destruct (decide (x = 0)%N) as [->|Hx]; [done|].
  rewrite pretty_N_go_step by lia. rewrite IH by (apply N.div_lt; lia). cbn [digits_value].
  rewrite digit_char by (apply N.mod_lt; lia). cbn. f_equal. pose proof (N.div_mod x 10). lia.
Qed.

(** Numbers of 63 bits are read as they are printed. *)
Theorem ParseInt_print z : 0 ≤ z < 2 ^ 63 → ParseInt (pretty (Z.to_N z)) = z.
Proof.
  intros Hz. assert (digits_value 0 (pretty (Z.to_N z)) = Some (Z.to_N z)) as Hv.
  { unfold pretty, pretty_N. case_decide as E; [by rewrite E|]. by rewrite digits_value_go. }
  destruct (pretty_head (Z.to_N z)) as (a & s & E & Hd). destruct (digit_not_sign a Hd) as [? ?].
  unfold ParseInt. rewrite E in *. unfold accept_sign. rewrite !decide_False by done. rewrite Hv. lia.
Qed.

Lemma ParseInt_range s : - 2 ^ 63 ≤ ParseInt s < 2 ^ 63.
Proof.
  unfold ParseInt. destruct (accept_sign s) as [[] [|a s']]; [lia| |lia|];
    destruct (digits_value 0 (String a s')); lia.
Qed.

(** The values given with a flag, in their order. *)
Fixpoint values_of (flag : string) (args : list string) : list string :=
  match args with
  | a0 :: a1 :: args => (if bool_decide (a0 = flag) then [a1] else []) ++ values_of flag args
  | _ => []
  end.

(** Induction on arguments two by two. *)
Lemma pairs_ind (P : list string → Prop) :
  P [] → (∀ a, P [a]) → (∀ a0 a1 args, P args → P (a0 :: a1 :: args)) → ∀ args, P args.
Proof.
  intros H0 H1 H2 args. enough (P args ∧ ∀ a, P (a :: args)) by naive_solver.
  induction args as [|a args [IH1 IH2]]; split; auto.
Qed.

Lemma diskvd_option_lists a0 a1 c c' : diskvd_option a0 a1 c = Some c' →
  masters c' = masters c ++ (if bool_decide (a0 = "-m") then [a1] else []) ∧
  replicas c' = replicas c ++ (if bool_decide (a0 = "-s") then [a1] else []) ∧
  (gid c < 2 ^ 63 → gid c' < 2 ^ 63).
Proof.
  unfold diskvd_option.
  repeat (case_bool_decide; [intros [= <-]; cbn; subst; rewrite ?app_nil_r; split_and!; try done; intros; by apply ParseInt_range|]).
  done.
Qed.

Lemma diskvd_options_lists args c c' : diskvd_options args c = Some c' →
  masters c' = masters c ++ values_of "-m" args ∧ replicas c' = replicas c ++ values_of "-s" args ∧
  (gid c < 2 ^ 63 → gid c' < 2 ^ 63).
Proof.
  revert c. induction args as [|a|a0 a1 args IH] using pairs_ind; intros c.
  - intros [= <-]. by rewrite !app_nil_r.
  - intros [= <-]. by rewrite !app_nil_r.
  - cbn [diskvd_options]. destruct (diskvd_option a0 a1 c) as [c1|] eqn:E1; [|done].
    intros (-> & -> & ?)%IH. apply diskvd_option_lists in E1 as (-> & -> & ?). cbn [values_of].
    rewrite !app_assoc. split_and!; auto.
Qed.

(** A server is started only with a group, a directory, masters and an index
    of one of its replicas; masters and replicas are those of the command
    line, in its order. *)
Theorem diskvd_starts args c :
  diskvd_main args = Runs c →
  0 ≤ gid c < 2 ^ 63 ∧ masters c = values_of "-m" (tail args) ∧ masters c ≠ [] ∧
  replicas c = values_of "-s" (tail args) ∧ is_Some (replicas c !! Z.to_nat (me c)) ∧ dirname c ≠ "".
Proof.
  unfold diskvd_main. destruct (diskvd_options (tail args) diskv0) as [c'|] eqn:E; [|done].
  case_match eqn:Eg; [done|]. intros [= ->].
  rewrite !orb_false_iff, !bool_decide_eq_false in Eg. destruct Eg as ((((? & ?) & Hm) & Hr) & ?).
  apply diskvd_options_lists in E as (Hms & Hrs & ?). cbn in Hms, Hrs. unfold zlen in Hm, Hr.
  assert (gid c < 2 ^ 63) by (cbn in *; lia).
  split_and!; [lia|lia|done| |done| |done].
  - intros E. rewrite E in Hm. cbn in Hm. lia.
  - apply lookup_lt_is_Some. lia.
Qed.

(** The command line for [c]. *)
Definition command_line (c : diskv) : list string :=
  ["diskvd"; "-g"; pretty (Z.to_N (gid c))] ++
  concat ((fun m => ["-m"; m]) <$> masters c) ++ concat ((fun r => ["-s"; r]) <$> replicas c) ++
  ["-i"; pretty (Z.to_N (me c)); "-u"; show_bool (unreliable c); "-d"; dirname c; "-r"; show_bool (restart c)].

Lemma options_cons a0 a1 args c :
  diskvd_options (a0 :: a1 :: args) c = (c ← diskvd_option a0 a1 c; diskvd_options args c).
Proof. done. Qed.

Lemma some_bind {A B} (x : A) (k : A → option B) : Some x ≫= k = k x.
Proof. done. Qed.

(** The branches of the loop, for the flags that are given once. *)
Lemma option_g a c : diskvd_option "-g" a c =
  Some (mkDiskv (ParseInt a) (masters c) (replicas c) (me c) (unreliable c) (dirname c) (restart c)).
Proof. done. Qed.
Lemma option_i a c : diskvd_option "-i" a c =
  Some (mkDiskv (gid c) (masters c) (replicas c) (ParseInt a) (unreliable c) (dirname c) (restart c)).
Proof. done. Qed.
Lemma option_u a c : diskvd_option "-u" a c =
  Some (mkDiskv (gid c) (masters c) (replicas c) (me c) (ParseBool a) (dirname c) (restart c)).
Proof. done. Qed.
Lemma option_d a c : diskvd_option "-d" a c =
  Some (mkDiskv (gid c) (masters c) (replicas c) (me c) (unreliable c) a (restart c)).
Proof. done. Qed.
Lemma option_r a c : diskvd_option "-r" a c =
  Some (mkDiskv (gid c) (masters c) (replicas c) (me c) (unreliable c) (dirname c) (ParseBool a)).
Proof. done. Qed.

Lemma options_masters ms args c :
  diskvd_options (concat ((fun m => ["-m"; m]) <$> ms) ++ args) c =
  diskvd_options args (mkDiskv (gid c) (masters c ++ ms) (replicas c) (me c) (unreliable c) (dirname c) (restart c)).
Proof.
  revert c. induction ms as [|m ms IH]; intros [g l r i u d b]; [by rewrite app_nil_r|].
  etrans; [exact (IH (mkDiskv g (l ++ [m]) r i u d b))|]. cbn. by rewrite <- app_assoc.
Qed.

Lemma options_replicas rs args c :
  diskvd_options (concat ((fun r => ["-s"; r]) <$> rs) ++ args) c =
  diskvd_options args (mkDiskv (gid c) (masters c) (replicas c ++ rs) (me c) (unreliable c) (dirname c) (restart c)).
Proof.
  revert c. induction rs as [|m rs IH]; intros [g l r i u d b]; [by rewrite app_nil_r|].
  etrans; [exact (IH (mkDiskv g l (r ++ [m]) i u d b))|]. cbn. by rewrite <- app_assoc.
Qed.

Lemma ParseBool_print b : ParseBool (show_bool b) = b.
Proof. by destruct b. Qed.

(** Every server that [diskvd] can start has a command line that starts it. *)
Theorem diskvd_roundtrip c :
  0 ≤ gid c < 2 ^ 63 → 0 ≤ me c < zlen (replicas c) → me c < 2 ^ 63 → masters c ≠ [] → dirname c ≠ "" →
  diskvd_main (command_line c) = Runs c.
Proof.
  intros Hg Hme Hme' Hm Hd. unfold diskvd_main, command_line. cbn [tail app].
  rewrite options_cons, (option_g _ diskv0), some_bind, options_masters, options_replicas, options_cons, option_i, some_bind,
    options_cons, option_u, some_bind, options_cons, option_d, some_bind, options_cons, option_r, some_bind.
  cbn [diskvd_options gid masters replicas me unreliable dirname restart diskv0 app].
  rewrite !ParseInt_print by lia. rewrite !ParseBool_print.
  rewrite !bool_decide_eq_false_2; [by destruct c|..]; try lia; try done.
  unfold zlen. destruct (masters c); [done|]. cbn. lia.
Qed.

(** A group that is not a number is taken for group 0. *)
Lemma diskvd_takes_any_group :
  diskvd_main ["diskvd"; "-g"; "one"; "-m"; "m0"; "-s"; "s0"; "-i"; "zero"; "-d"; "data"] =
  Runs (mkDiskv 0 ["m0"] ["s0"] 0 false "data" false).
Proof. vm_compute. reflexivity. Qed.

(** [loadPlugin] returns exactly when the plugin has both functions with
    their types. *)
Theorem loadPlugin_spec open filename mapf reducef :
  loadPlugin open filename = Loaded mapf reducef ↔
  ∃ lookup, open filename = Some lookup ∧ lookup "Map" = Some (SMap mapf) ∧
    lookup "Reduce" = Some (SReduce reducef).
Proof.
  unfold loadPlugin. split.
  - destruct (open filename) as [lookup|]; [|done].
    destruct (lookup "Map") as [[mf| |]|] eqn:Em; try done.
    destruct (lookup "Reduce") as [[|rf|]|] eqn:Er; try done. intros [= <- <-]. eauto.
  - intros (lookup & -> & -> & ->). done.
Qed.

(** [mrmaster] runs a master with one map task for every file and ten reduce
    tasks; as long as no task's response is accepted twice, it leaves its
    loop only when all ten are completed. *)
Theorem mrmaster_exits args m0 seen :
  mrmaster_start args = Runs m0 →
  (∀ m, m ∈ seen → ∃ acts s, mrun (minit (tail args) 10) acts = Done s ∧ NoDup (accepted s) ∧ m = master s) →
  length (mtasks m0) = (length args - 1)%nat ∧
  (mrmaster_wait seen = true → ∃ m, m ∈ seen ∧ ∀ i, (i < 10)%nat → is_completed m RTASKS i).
Proof.
  unfold mrmaster_start. case_bool_decide; [done|]. intros [= <-] Hseen. split.
  { cbn. rewrite length_fmap. destruct args; cbn; lia. }
  induction seen as [|m seen IH]; [done|]. cbn [mrmaster_wait]. destruct (Done_ m) eqn:Ed; intros Hw.
  - destruct (Hseen m) as (acts & s & Hr & Hnd & ->); [left|]. exists (master s). split; [left|].
    destruct (HandleAsk (master s) 0) as [[m1 reply] timer] eqn:Ea.
    by apply (master_phases (tail args) 10 acts s 0 m1 reply timer).
  - destruct IH as (m' & ? & ?); [|done|exists m'; split; [by right|done]].
    intros m' Hm'. apply Hseen. by right.
Qed.
