(* ===== verification/MRSystem.v ===== *)
(** * The MapReduce system: a master and its workers

    The loop of [Worker] ([labs/src/mr/worker.go]) against the handlers of the
    master ([labs/src/mr/master.go]) and a shared file system.  Workers ask,
    perform and respond in any interleaving, may be slow, and may die at any
    time; opening, reading and renaming files may fail.  One task is performed
    in one step.

    When the master declares the job done, the output files hold what the
    sequential program writes, provided that no response was counted twice. *)

From S2P Require Import Prelude MapReduce MapReduceCorrect MRMaster.
Local Open Scope Z_scope.

(** Where a worker is in the loop of [Worker]. *)
Inductive wphase :=
| WIdle
| WHas (reply : AskReply)
| WDone (args : ResponseArgs)
| WGone.

Record sys := mkSys { mst : mstate; disk : fs; workers : list wphase }.

Inductive sact :=
| SAsk (w : nat) (now : Z)
| SPerform (w : nat) (ios : io)
| SRespond (w : nat) (now : Z)
| SExit (w : nat)
| SWait (k : nat)
| SCount (k : nat).

Section system.
Context `{!JsonCodec}.
Context (sortKV : list KeyValue → list KeyValue).
Context (mapf : string → string → list KeyValue) (reducef : string → list string → string).

(** What [Worker] does with the answer of the master: the files it leaves, and
    the response it sends, if it sends one. *)
Definition Worker_task (ios : io) (reply : AskReply) (f : fs) : go (fs * option ResponseArgs) :=
  if bool_decide (Kind reply = "none") then Done (f, None)
  else if bool_decide (Kind reply = "map") then
    '(f', ok) ← performMap ios mapf (File reply) (Z.to_nat (NReduce reply)) (Z.to_nat (Index reply)) f;
    Done (f', if (ok : bool) then Some (mkResponseArgs "map" (Index reply)) else None)
  else
    let '(f', ok) := performReduce sortKV ios reducef (Z.to_nat (Splite reply)) (Z.to_nat (Index reply)) f in
    Done (f', if (ok : bool) then Some (mkResponseArgs "reduce" (Index reply)) else None).

(** The rounds of [Worker], interleaved. *)
Definition sstep (s : sys) (a : sact) : go sys :=
  match a with
  | SAsk w now =>
      match workers s !! w with
      | Some WIdle =>
          let '(_, reply, _) := HandleAsk (master (mst s)) now in
          m ← mstep (mst s) (MAsk now);
          Done (mkSys m (disk s) (<[w := WHas reply]> (workers s)))
      | _ => Stuck
      end
  | SPerform w ios =>
      match workers s !! w with
      | Some (WHas reply) =>
          '(f, resp) ← Worker_task ios reply (disk s);
          Done (mkSys (mst s) f
            (<[w := match resp with Some args => WDone args | None => WIdle end]> (workers s)))
      | _ => Stuck
      end
  | SRespond w now =>
      match workers s !! w with
      | Some (WDone args) =>
          m ← mstep (mst s) (MResponse args now);
          Done (mkSys m (disk s) (<[w := WIdle]> (workers s)))
      | _ => Stuck
      end
  | SExit w => Done (mkSys (mst s) (disk s) (<[w := WGone]> (workers s)))
  | SWait k => m ← mstep (mst s) (MWait k); Done (mkSys m (disk s) (workers s))
  | SCount k => m ← mstep (mst s) (MCount k); Done (mkSys m (disk s) (workers s))
  end.

Fixpoint srun (s : sys) (acts : list sact) : go sys :=
  match acts with
  | [] => Done s
  | a :: acts => s' ← sstep s a; srun s' acts
  end.

Lemma srun_app s acts acts' : srun s (acts ++ acts') = (s' ← srun s acts; srun s' acts').
Proof.
  revert s. induction acts as [|a acts IH]; intros s; [done|]. cbn [app srun].
  destruct (sstep s a); [|done..]. go_simpl. apply IH.
Qed.


Definition sinit (files : list string) (nReduce : nat) (f : fs) (n : nat) : sys :=
  mkSys (minit files nReduce) f (replicate n WIdle).

(** Writing never fails. *)
Definition writes_ok (a : sact) : Prop :=
  match a with SPerform _ ios => ∀ s, fails_write ios s = false | _ => True end.

(** ** Invariant *)

Context `{!Json, !GoSort ByKey_Less sortKV}.
Context (files : list string) (nReduce : nat) (f0 : fs).
Context (Hn : nReduce ≠ 0%nat) (Hready : job_ready files f0).

Notation mapped := (mapped mapf files nReduce f0).
Notation reduced := (reduced sortKV mapf reducef files nReduce f0).
Notation all_mapped := (all_mapped mapf files nReduce f0).

(** The work of a response is on disk. *)
Definition work_done (f : fs) (k : slice) (i : nat) : Prop :=
  match k with MTASKS => mapped f i | RTASKS => reduced f i end.

Definition worker_ok (f : fs) (p : wphase) : Prop :=
  match p with
  | WHas reply =>
      Kind reply = "none" ∨
      Kind reply = "map" ∧ (∃ i, Index reply = Z.of_nat i ∧ files !! i = Some (File reply)) ∧
        NReduce reply = Z.of_nat nReduce ∨
      Kind reply = "reduce" ∧ (∃ i, Index reply = Z.of_nat i ∧ (i < nReduce)%nat) ∧
        Splite reply = Z.of_nat (length files) ∧ all_mapped f
  | WDone args => ∃ i, ra_Index args = Z.of_nat i ∧ work_done f (slice_of args) i
  | _ => True
  end.

Record sinv (s : sys) : Prop := {
  si_minv : minv files nReduce (mst s);
  si_files : filename <$> mtasks (master (mst s)) = files;
  si_clean : clean (disk s);
  si_inputs : same_inputs files f0 (disk s);
  si_done : ∀ k i, i ∈ accepted_of k (accepted (mst s)) → work_done (disk s) k i;
  si_workers : Forall (worker_ok (disk s)) (workers s);
}.

(** A file system that has all the work of another one. *)
Definition keeps (f f' : fs) : Prop :=
  clean f' ∧ same_inputs files f0 f' ∧ ∀ k i, work_done f k i → work_done f' k i.

Lemma keeps_worker f f' p : keeps f f' → worker_ok f p → worker_ok f' p.
Proof.
  intros (_ & _ & Hk). destruct p as [|reply|args|]; cbn; [done| |naive_solver|done].
  intros [?|[?|(? & ? & ? & Ha)]]; [by left|by right; left|]. right; right.
  split; [done|]. split; [done|]. split; [done|]. intros m Hm. by apply (Hk MTASKS), Ha.
Qed.

(** *** Tasks *)

Lemma map_task ios f i file :
  files !! i = Some file → clean f → same_inputs files f0 f →
  ∃ f' ok, performMap ios mapf file nReduce i f = Done (f', ok) ∧ keeps f f' ∧ (ok = true → mapped f' i).
Proof.
  intros Hi Hc Hs. destruct (performMap_outcome ios mapf file nReduce i f Hn Hc) as (f' & ok & -> & Hc' & Hout & Hin).
  assert (∀ r, (r < nReduce)%nat → (f' !! inter_name i r =
      Some (concat_str (json_encode <$> filter (in_bucket nReduce r) (emitted mapf files f0 i)))) ∨
    ok = false ∧ f' !! inter_name i r = f !! inter_name i r) as Hin'.
  { intros r Hr. destruct (Hin r Hr) as [(content & Hf & ?)|?]; [left|by right].
    unfold emitted. rewrite Hi, <- (Hs file) by eauto with go_lists. by rewrite Hf. }
  exists f', ok. split; [done|]. split; [|intros -> r Hr; by destruct (Hin' r Hr) as [|[? _]]].
  split; [done|]. split.
  - intros s Hss. rewrite Hout; [by apply Hs|]. intros r ->. destruct (jr_inputs _ _ Hready _ Hss) as [_ Hno].
    apply Hno. left. eauto.
  - intros [] j; cbn.
    + intros Hm r Hr. destruct (decide (j = i)) as [->|Hne].
      * destruct (Hin' r Hr) as [|[_ ->]]; [done|by apply Hm].
      * rewrite Hout; [by apply Hm|]. intros r' E%inter_name_inj. tauto.
    + unfold MapReduceCorrect.reduced. intros Hr. rewrite Hout; [done|]. intros r E. by eapply inter_not_out.
Qed.

Lemma reduce_task ios f r :
  (∀ s, fails_write ios s = false) → (r < nReduce)%nat → clean f → same_inputs files f0 f → all_mapped f →
  ∃ f' ok, performReduce sortKV ios reducef (length files) r f = (f', ok) ∧ keeps f f' ∧
    (ok = true → reduced f' r).
Proof.
  intros Hw Hr Hc Hs Hm.
  destruct (performReduce_outcome sortKV ios reducef (length files) r f
    (fun m => filter (in_bucket nReduce r) (emitted mapf files f0 m))) as (f' & ok & -> & Hc' & Hout & Ho & _).
  { done. } { done. } { intros j Hj. by apply Hm. }
  exists f', ok. split; [done|]. split; [|intros ->; by destruct Ho as [|[? _]]].
  split; [done|]. split.
  - intros s Hss. rewrite Hout; [by apply Hs|]. intros ->. destruct (jr_inputs _ _ Hready _ Hss) as [_ Hno].
    apply Hno. right. eauto.
  - intros [] j; cbn.
    + intros Hj r' Hr'. rewrite Hout by apply inter_not_out. by apply Hj.
    + unfold MapReduceCorrect.reduced. intros Hj. destruct (decide (j = r)) as [->|Hne].
      * by destruct Ho as [|[_ ->]].
      * rewrite Hout; [done|]. by intros ?%out_name_inj.
Qed.

(** *** The master *)

Lemma filename_insert (ts : list Task) i t t' :
  ts !! i = Some t → filename t' = filename t → filename <$> <[i := t']> ts = filename <$> ts.
Proof.
  intros Hi Hf. rewrite list_fmap_insert. apply list_insert_id. by rewrite list_lookup_fmap, Hi, Hf.
Qed.

Lemma mstep_frame s a s' :
  mstep s a = Done s' →
  filename <$> mtasks (master s') = filename <$> mtasks (master s) ∧
  accepted s' = accepted s ++
    match a with
    | MResponse args now =>
        match HandleResponse_task (master s) args now with
        | Done (_, true) => [(slice_of args, Z.to_nat (ra_Index args))]
        | _ => []
        end
    | _ => []
    end.
Proof.
  destruct a as [now|k|args now|k]; cbn [mstep]; intros Hs.
  - rewrite app_nil_r. unfold HandleAsk in Hs. destruct (bool_decide _).
    + destruct (first_idle 0 (mtasks (master s))) as [[j t]|] eqn:E; injection Hs as <-; [|done].
      apply first_idle_spec in E as (n' & -> & Hn' & _). split; [|done]. by apply (filename_insert _ _ t).
    + by destruct (first_idle 0 (rtasks (master s))) as [[j t]|]; injection Hs as <-.
  - rewrite app_nil_r. destruct (timers s !! k) as [[sl i]|]; [|done]. injection Hs as <-. split; [|done].
    cbn [master]. unfold wait. destruct (tasks_of (master s) sl !! i) as [t|] eqn:Et; [|done].
    case_bool_decide; [done|]. destruct sl; [by apply (filename_insert _ _ t)|done].
  - go_cases Hs. subst s'. rewrite E. split.
    + unfold HandleResponse_task in E. go_cases E; [|by injection E as <- <-].
      injection E as <- <-. apply idx_Done in E0 as [_ Ht]. apply upd_Done in E1 as [_ ->]. cbn [master].
      destruct (slice_of args); [by apply (filename_insert _ _ a)|done].
    + destruct b; cbn; by rewrite ?app_nil_r.
  - rewrite app_nil_r. destruct (counts s !! k) as [sl|]; [|done]. injection Hs as <-. by destruct sl.
Qed.

Lemma sinv_master s a m ws :
  sinv s → mstep (mst s) a = Done m → Forall (worker_ok (disk s)) ws →
  match a with
  | MResponse args _ => ∃ i, ra_Index args = Z.of_nat i ∧ work_done (disk s) (slice_of args) i
  | _ => True
  end → sinv (mkSys m (disk s) ws).
Proof.
  intros [Hm Hf Hc Hi Hd Hw] Hs Hws Ha. destruct (mstep_frame _ _ _ Hs) as [Hfn Hacc].
  split; cbn; try done.
  - by eapply mstep_inv.
  - by rewrite Hfn.
  - intros k i. rewrite Hacc. unfold accepted_of. rewrite filter_app, fmap_app, elem_of_app.
    intros [Hin|Hin]; [by apply Hd|]. destruct a as [| |args now|]; [by apply elem_of_nil in Hin..| |by apply elem_of_nil in Hin].
    destruct (HandleResponse_task _ _ _) as [[? []]| |]; [|by apply elem_of_nil in Hin..].
    rewrite filter_cons in Hin. case_decide as Ek; cbn in Hin; [|by apply elem_of_nil in Hin].
    apply list_elem_of_singleton in Hin as ->. cbn in Ek. destruct Ha as (j & -> & Hj).
    rewrite Nat2Z.id. by subst k.
Qed.

Lemma ask_ok s now m reply t :
  sinv s → NoDup (accepted (mst s)) → HandleAsk (master (mst s)) now = (m, reply, t) →
  worker_ok (disk s) (WHas reply).
Proof.
  intros [Hm Hf Hc Hi Hd Hw] Hnd Ha. pose proof (mi_size _ _ _ Hm RTASKS) as HsR.
  pose proof (mi_size _ _ _ Hm MTASKS) as HsM. cbn in HsR, HsM. unfold HandleAsk in Ha.
  destruct (bool_decide (map_remain (master (mst s)) ≠ 0)) eqn:Hz.
  - destruct (first_idle 0 (mtasks (master (mst s)))) as [[j tk]|] eqn:E; injection Ha as <- <- <-; [|by left].
    right; left. cbn. split; [done|]. unfold zlen. rewrite HsR. split; [|done].
    apply first_idle_spec in E as (n' & -> & Hn' & _). exists n'. split; [done|].
    by rewrite <- Hf, list_lookup_fmap, Hn'.
  - destruct (first_idle 0 (rtasks (master (mst s)))) as [[j tk]|] eqn:E; injection Ha as <- <- <-; [|by left].
    right; right. cbn. split; [done|]. unfold zlen. rewrite HsM. split; [|split; [done|]].
    + apply first_idle_spec in E as (n' & -> & Hn' & _). exists n'. split; [done|].
      rewrite <- HsR. eauto with go_lists.
    + intros i Hi'. apply (Hd MTASKS), (mi_done _ _ _ Hm).
      apply (remain_zero files nReduce (mst s) MTASKS Hm Hnd); [|cbn; lia]. cbn.
      apply bool_decide_eq_false in Hz. lia.
Qed.

Lemma perform_ok s ios reply f resp :
  sinv s → (∀ x, fails_write ios x = false) → worker_ok (disk s) (WHas reply) →
  Worker_task ios reply (disk s) = Done (f, resp) →
  keeps (disk s) f ∧ worker_ok f (match resp with Some args => WDone args | None => WIdle end).
Proof.
  intros [Hm Hf Hc Hi Hd Hw] Hio Hr Ht. unfold Worker_task in Ht.
  case_bool_decide as Hnone; [injection Ht as <- <-; done|].
  destruct Hr as [Hr|[(Hk & (i & Hix & Hfile) & Hnr)|(Hk & (i & Hix & Hlt) & Hsp & Hall)]]; [done|..].
  - rewrite bool_decide_eq_true_2 in Ht by done. rewrite Hix, Hnr, !Nat2Z.id in Ht.
    destruct (map_task ios (disk s) i (File reply) Hfile Hc Hi) as (f' & ok & Hp & Hkeep & Hok).
    rewrite Hp in Ht. go_simpl in Ht. injection Ht as <- <-. split; [done|].
    destruct ok; [|done]. exists i. split; [done|]. by apply Hok.
  - rewrite bool_decide_eq_false_2 in Ht by congruence. rewrite Hix, Hsp, !Nat2Z.id in Ht.
    destruct (reduce_task ios (disk s) i Hio Hlt Hc Hi Hall) as (f' & ok & Hp & Hkeep & Hok).
    rewrite Hp in Ht. injection Ht as <- <-. split; [done|].
    destruct ok; [|done]. exists i. split; [done|]. by apply Hok.
Qed.

Lemma sstep_inv s a s' :
  NoDup (accepted (mst s)) → writes_ok a → sinv s → sstep s a = Done s' → sinv s'.
Proof.
  intros Hnd Hwr Hs Hst. pose proof (si_workers _ Hs) as Hws. destruct a as [w now|w ios|w now|w|k|k]; cbn [sstep] in Hst.
  - destruct (workers s !! w) as [[]|] eqn:Ew; [|done..].
    destruct (HandleAsk (master (mst s)) now) as [[m0 reply] t] eqn:Ea.
    go_inv Hst. injection Hst as <-. eapply sinv_master; [done|exact E| |done].
    apply Forall_insert; [done|]. by eapply ask_ok.
  - destruct (workers s !! w) as [[]|] eqn:Ew; [done| |done..]. go_inv Hst. destruct a as [f resp].
    injection Hst as <-. rewrite Forall_lookup in Hws.
    destruct (perform_ok s ios _ f resp Hs Hwr (Hws _ _ Ew) E) as [Hk Hok].
    pose proof Hk as (Hc' & Hi' & Hd'). destruct Hs as [Hm Hf Hc Hi Hd Hw]. split; cbn; try done.
    + intros k i Hin. by apply Hd', Hd.
    + apply Forall_insert; [|done]. eapply Forall_impl; [exact Hw|]. intros p. by apply keeps_worker.
  - destruct (workers s !! w) as [[]|] eqn:Ew; [done|done| |done..]. go_inv Hst. injection Hst as <-.
    eapply sinv_master; [done|exact E|by apply Forall_insert|]. rewrite Forall_lookup in Hws. exact (Hws _ _ Ew).
  - injection Hst as <-. destruct Hs as [Hm Hf Hc Hi Hd Hw]. split; cbn; try done. by apply Forall_insert.
  - go_inv Hst. injection Hst as <-. by eapply sinv_master.
  - go_inv Hst. injection Hst as <-. by eapply sinv_master.
Qed.

Lemma sstep_accepted s a s' : sstep s a = Done s' → ∃ l, accepted (mst s') = accepted (mst s) ++ l.
Proof.
  assert (∀ x m, mstep (mst s) x = Done m → ∃ l, accepted m = accepted (mst s) ++ l) as Hm.
  { intros x m [_ ->]%mstep_frame. eauto. }
  destruct a as [w now|w ios|w now|w|k|k]; cbn [sstep]; intros Hst.
  - destruct (workers s !! w) as [[]|]; [|done..]. destruct (HandleAsk _ _) as [[? ?] ?].
    go_inv Hst. injection Hst as <-. by eapply Hm.
  - destruct (workers s !! w) as [[]|]; [done| |done..]. go_inv Hst. destruct a. injection Hst as <-.
    exists []. by rewrite app_nil_r.
  - destruct (workers s !! w) as [[]|]; [done|done| |done..]. go_inv Hst. injection Hst as <-. by eapply Hm.
  - injection Hst as <-. exists []. by rewrite app_nil_r.
  - go_inv Hst. injection Hst as <-. by eapply Hm.
  - go_inv Hst. injection Hst as <-. by eapply Hm.
Qed.

Lemma srun_accepted s acts s' : srun s acts = Done s' → ∃ l, accepted (mst s') = accepted (mst s) ++ l.
Proof.
  revert s. induction acts as [|a acts IH]; intros s Hr; cbn [srun] in Hr.
  - injection Hr as <-. exists []. by rewrite app_nil_r.
  - go_inv Hr. destruct (sstep_accepted _ _ _ E) as [l1 E1]. destruct (IH _ Hr) as [l2 ->].
    rewrite E1, <- app_assoc. eauto.
Qed.

(** What is accepted twice stays accepted twice. *)
Lemma srun_accepted_nodup s acts s' :
  srun s acts = Done s' → NoDup (accepted (mst s')) → NoDup (accepted (mst s)).
Proof. intros [l ->]%srun_accepted. rewrite NoDup_app. by intros [? _]. Qed.

Lemma srun_inv s acts s' :
  Forall writes_ok acts → sinv s → srun s acts = Done s' → NoDup (accepted (mst s')) → sinv s'.
Proof.
  intros Hw. revert s. induction Hw as [|a acts Ha Hw IH]; intros s Hs Hr Hnd; cbn [srun] in Hr.
  { by injection Hr as <-. }
  go_inv Hr. apply (IH a0); [|done..]. eapply sstep_inv; [|done..].
  apply (srun_accepted_nodup s [a] a0); [cbn; by rewrite E|]. by eapply srun_accepted_nodup.
Qed.

Lemma sinit_inv n : sinv (sinit files nReduce f0 n).
Proof.
  split; cbn; try done.
  - apply minv_init.
  - rewrite <- list_fmap_compose. cbn. apply list_fmap_id.
  - apply Hready.
  - intros k i Hi. by apply elem_of_nil in Hi.
  - by apply Forall_replicate.
Qed.

(** A master that has counted everything down: the outputs are there. *)
Lemma sinv_outputs s :
  order_free reducef → sinv s → NoDup (accepted (mst s)) → reduce_remain (master (mst s)) = 0 →
  ∃ fseq outs lines,
    mrsequential sortKV no_failures mapf reducef files f0 = Some fseq ∧
    (∀ r, (r < nReduce)%nat → disk s !! out_name r = Some (concat_str (outs r))) ∧
    fseq !! "mr-out-0" = Some (concat_str lines) ∧
    concat (outs <$> seq 0 nReduce) ≡ₚ lines.
Proof.
  intros Hof [Hm _ _ _ Hdone _] Hnd Hz.
  apply (outputs_match sortKV mapf reducef files nReduce f0 (disk s)); [done..|].
  intros r Hr. apply (Hdone RTASKS), (mi_done _ _ _ Hm).
  apply (remain_zero files nReduce (mst s) RTASKS Hm Hnd Hz). by rewrite (mi_size _ _ _ Hm).
Qed.


End system.
