(* ===== verification/MRProcess.v ===== *)
(** * A worker as a process

    [call], [Worker] and [CallExample] of [labs/src/mr/worker.go], with the
    connection to the master: dialing may be refused, the connection may break
    before or after the master has run the handler.  [masterSock] of [rpc.go],
    [Example] and [server] of [master.go].

    A worker process is a run of [MRSystem] in which one worker acts
    ([Worker_refines]), so what is proved there holds with workers that leave
    as [Worker] leaves; its exit status tells how the master was lost
    ([Worker_status]). *)

From stdpp Require Import pretty.
From S2P Require Import Prelude MapReduce MRMaster MRSystem.
Local Open Scope Z_scope.

(** ** Calls *)

(** What becomes of one call. *)
Inductive link :=
| Refused
| Broken (handled : bool)
| Served.

(** The end of the process, or what [call] returns: a reply, or [false]. *)
Inductive called (R : Type) := Exited (status : Z) | Returned (reply : option R).
Arguments Exited {R}. Arguments Returned {R}.

Definition call {S R} (l : link) (handler : S → go (S * R)) (s : S) : go (S * called R) :=
  match l with
  | Refused => Done (s, Exited 1)
  | Broken false => Done (s, Returned None)
  | Broken true => '(s', _) ← handler s; Done (s', Returned None)
  | Served => '(s', r) ← handler s; Done (s', Returned (Some r))
  end.

(** ** The example *)

Definition masterSock (uid : N) : string := "/var/tmp/824-mr-" +:+ pretty uid.

(** [m.server()]: the sockets in use; [None]: "listen error". *)
Definition server (uid : N) (fails : bool) (socks : gset string) : option (gset string) :=
  let socks := socks ∖ {[masterSock uid]} in
  if fails then None else Some (socks ∪ {[masterSock uid]}).

Definition Example_ (X : Z) : Z := X + 1.

(** The number [CallExample] prints: [reply] is 0 when the call fails. *)
Definition CallExample {S} (l : link) (s : S) : go (S * called Z) :=
  '(s, c) ← call l (fun s => Done (s, Example_ 99)) s;
  Done (s, match c with
           | Exited st => Exited st
           | Returned r => Returned (Some (default 0 r))
           end).

(** ** Worker *)

(** The outside of one round: the connections, the clock of the master and
    the failures of the file system. *)
Record round := mkRound {
  r_ask : link; r_now : Z; r_ios : io; r_resp : link; r_then : Z }.

Definition ask_rpc (now : Z) (m : mstate) : go (mstate * AskReply) :=
  m' ← mstep m (MAsk now); Done (m', (HandleAsk (master m) now).1.2).

Definition response_rpc (args : ResponseArgs) (now : Z) (m : mstate) : go (mstate * unit) :=
  m' ← mstep m (MResponse args now); Done (m', tt).

Section worker.
Context `{!JsonCodec}.
Context (sortKV : list KeyValue → list KeyValue).
Context (mapf : string → string → list KeyValue) (reducef : string → list string → string).

(** One round of the loop of [Worker]; the status if the process exits. *)
Definition Worker_round (r : round) (m : mstate) (f : fs) : go (mstate * fs * option Z) :=
  '(m, c) ← call (r_ask r) (ask_rpc (r_now r)) m;
  match c with
  | Exited st => Done (m, f, Some st)
  | Returned None => Done (m, f, Some 0)
  | Returned (Some reply) =>
      '(f, resp) ← Worker_task sortKV mapf reducef (r_ios r) reply f;
      match resp with
      | None => Done (m, f, None)
      | Some args =>
          '(m, c) ← call (r_resp r) (response_rpc args (r_then r)) m;
          Done (m, f, match c with
                      | Exited st => Some st
                      | Returned None => Some 0
                      | Returned (Some _) => None
                      end)
      end
  end.

Fixpoint Worker (rs : list round) (m : mstate) (f : fs) : go (mstate * fs * option Z) :=
  match rs with
  | [] => Done (m, f, None)
  | r :: rs =>
      '(m, f, st) ← Worker_round r m f;
      match st with
      | Some st => Done (m, f, Some st)
      | None => Worker rs m f
      end
  end.

(** ** The steps of the system that a worker makes *)

Notation sstep := (sstep sortKV mapf reducef).
Notation srun := (srun sortKV mapf reducef).

Definition leaving (st : option Z) : wphase := if st is Some _ then WGone else WIdle.

Definition phase {R} (k : R → wphase) (c : called R) : wphase :=
  match c with Returned (Some r) => k r | _ => WGone end.

(** A call is a step of the system, or the worker leaves, or both. *)
Lemma call_refines {R} (l : link) (handler : mstate → go (mstate * R)) (k : R → wphase) act m m1 c f ws w :
  (w < length ws)%nat → writes_ok act →
  (∀ m' r, handler m = Done (m', r) → sstep (mkSys m f ws) act = Done (mkSys m' f (<[w := k r]> ws))) →
  call l handler m = Done (m1, c) →
  ∃ acts, srun (mkSys m f ws) acts = Done (mkSys m1 f (<[w := phase k c]> ws)) ∧ Forall writes_ok acts.
Proof.
  intros Hw Hact Hstep E. destruct l as [|[]|]; cbn in E; simplify_eq;
    try (exists [SExit w]; split; [done|by repeat constructor]);
    go_inv E; destruct a as [m' r]; simplify_eq; apply Hstep in E0.
  - exists [act; SExit w]. split; [|by repeat constructor].
    cbn. rewrite E0. cbn. by rewrite list_insert_insert_eq.
  - exists [act]. split; [|by repeat constructor]. cbn. by rewrite E0.
Qed.

Lemma Worker_round_refines r m f m' f' st ws w :
  ws !! w = Some WIdle → Worker_round r m f = Done (m', f', st) →
  ∃ acts, srun (mkSys m f ws) acts = Done (mkSys m' f' (<[w := leaving st]> ws)) ∧
    ((∀ s, fails_write (r_ios r) s = false) → Forall writes_ok acts).
Proof.
  intros Hw E. pose proof (lookup_lt_Some _ _ _ Hw) as Hlt.
  assert (Hset : ∀ x, <[w := x]> ws !! w = Some x) by (intros; by apply list_lookup_insert_eq).
  unfold Worker_round in E. go_inv E. destruct a as [m1 c].
  eapply (call_refines _ _ WHas (SAsk w (r_now r)) _ _ _ f ws w Hlt I) in E0 as (acts1 & Hrun1 & Hok1).
  2: { intros m2 reply Hh. unfold ask_rpc in Hh. go_inv Hh. simplify_eq. cbn in E1 |- *. rewrite Hw.
       destruct (HandleAsk (master m) (r_now r)) as [[? ?] ?]. cbn in *. by simplify_eq. }
  destruct c as [st1|[reply|]]; [by simplify_eq; eauto| |by simplify_eq; eauto].
  go_inv E. destruct a as [f2 resp].
  assert (Hperf : srun (mkSys m f ws) (acts1 ++ [SPerform w (r_ios r)]) =
    Done (mkSys m1 f2 (<[w := match resp with Some args => WDone args | None => WIdle end]> ws))).
  { rewrite srun_app, Hrun1. cbn. rewrite Hset. cbn. rewrite E0. cbn. by rewrite list_insert_insert_eq. }
  assert (Hios : (∀ s, fails_write (r_ios r) s = false) → Forall writes_ok (acts1 ++ [SPerform w (r_ios r)])).
  { intros. apply Forall_app. split; [done|]. by repeat constructor. }
  destruct resp as [args|]; [|by simplify_eq; eauto].
  go_inv E. destruct a as [m2 c].
  eapply (call_refines _ _ (fun _ => WIdle) (SRespond w (r_then r)) _ _ _ f2 (<[w := WDone args]> ws) w)
    in E1 as (acts2 & Hrun2 & Hok2); [|by rewrite length_insert|done|].
  2: { intros m3 [] Hh. unfold response_rpc in Hh. go_inv Hh. simplify_eq. cbn [MRSystem.sstep workers mst].
       rewrite Hset, E2. cbn. by rewrite list_insert_insert_eq. }
  simplify_eq. exists ((acts1 ++ [SPerform w (r_ios r)]) ++ acts2). split.
  - rewrite srun_app, Hperf. go_simpl. rewrite Hrun2, list_insert_insert_eq. by destruct c as [|[|]].
  - intros. apply Forall_app. auto.
Qed.

(** Worker [w], running as a process beside others that do nothing meanwhile,
    makes a run of the system: it is gone at the end if it has exited, and
    about to ask otherwise. *)
Theorem Worker_refines rs m f m' f' st ws w :
  ws !! w = Some WIdle → Worker rs m f = Done (m', f', st) →
  ∃ acts, srun (mkSys m f ws) acts = Done (mkSys m' f' (<[w := leaving st]> ws)) ∧
    (Forall (fun r => ∀ s, fails_write (r_ios r) s = false) rs → Forall writes_ok acts).
Proof.
  revert m f ws. induction rs as [|r rs IH]; intros m f ws Hw E; cbn in E.
  { simplify_eq. exists []. split; [|done]. cbn. by rewrite list_insert_id. }
  go_inv E. destruct a as [[m1 f1] st1].
  apply (Worker_round_refines _ _ _ _ _ _ ws w Hw) in E0 as (acts1 & Hrun1 & Hok1).
  destruct st1 as [st1|].
  { simplify_eq. exists acts1. split; [done|]. intros [??]%Forall_cons. auto. }
  apply (IH _ _ (<[w := WIdle]> ws)) in E as (acts2 & Hrun2 & Hok2).
  2: { apply list_lookup_insert_eq. by eapply lookup_lt_Some. }
  exists (acts1 ++ acts2). split.
  - rewrite srun_app, Hrun1. cbn [leaving]. go_simpl. rewrite Hrun2. by rewrite list_insert_insert_eq.
  - intros [??]%Forall_cons. apply Forall_app. auto.
Qed.

(** ** Exit status *)

(** The status a failed call leads to. *)
Definition lost (l : link) : option Z :=
  match l with Refused => Some 1 | Broken _ => Some 0 | Served => None end.

Lemma call_lost {S R} l (handler : S → go (S * R)) s s' c :
  call l handler s = Done (s', c) →
  lost l = match c with Exited v => Some v | Returned None => Some 0 | Returned (Some _) => None end.
Proof. intros E. destruct l as [|[]|]; cbn in E; go_cases E; by simplify_eq. Qed.

(** The process exits in the first round in which a call fails that it makes:
    with status 1 if the master could not be dialed, and with 0 if the
    connection broke. *)
Theorem Worker_status rs m f m' f' st :
  Worker rs m f = Done (m', f', st) →
  match st with
  | None => Forall (fun r => lost (r_ask r) = None) rs
  | Some v => ∃ before r after, rs = before ++ r :: after ∧
      Forall (fun r => lost (r_ask r) = None) before ∧
      (lost (r_ask r) = Some v ∨ lost (r_ask r) = None ∧ lost (r_resp r) = Some v)
  end.
Proof.
  revert m f. induction rs as [|r rs IH]; intros m f E; cbn in E; [by simplify_eq|].
  go_inv E. destruct a as [[m1 f1] st1].
  assert (Hr : if st1 is Some v then lost (r_ask r) = Some v ∨ lost (r_ask r) = None ∧ lost (r_resp r) = Some v
               else lost (r_ask r) = None).
  { unfold Worker_round in E0. go_inv E0. destruct a as [m2 c]. apply call_lost in E1.
    destruct c as [v|[reply|]]; [by simplify_eq; left| |by simplify_eq; left].
    go_inv E0. destruct a as [f2 [args|]]; [|by simplify_eq]. go_inv E0. destruct a as [m3 c].
    apply call_lost in E3. destruct c as [v|[]]; simplify_eq; auto. }
  destruct st1 as [v|].
  - simplify_eq. exists [], r, rs. eauto.
  - apply IH in E. destruct st as [v|]; [|by constructor].
    destruct E as (before & r' & after & -> & Hb & Hor). exists (r :: before), r', after. auto.
Qed.
End worker.

(** ** The example call *)

Lemma CallExample_prints {S} (s : S) : CallExample Served s = Done (s, Returned (Some 100)).
Proof. done. Qed.

(** Masters of different users do not meet. *)
Lemma masterSock_inj uid uid' : masterSock uid = masterSock uid' → uid = uid'.
Proof. unfold masterSock. intros E. apply (inj _) in E. by apply (inj _) in E. Qed.
