(* ===== verification/MapReduceExamples.v ===== *)
(** * Concrete MapReduce runs

    A codec for intermediate files, a word count job over two files, and runs
    of the master, among them one in which a task that is completed twice
    makes the master declare the job done too early. *)

From S2P Require Import Prelude MapReduce MapReduceCorrect MapReduceApps MRMaster MRSystem MRLiveness.
From Stdlib Require Import Strings.Ascii.
Local Open Scope Z_scope.

(** ** A codec *)

Fixpoint put_pos (p : positive) : string :=
  match p with
  | xH => "."
  | xO p => String "0"%char (put_pos p)
  | xI p => String "1"%char (put_pos p)
  end.

Fixpoint get_pos (s : string) : option (positive * string) :=
  match s with
  | EmptyString => None
  | String c s =>
      if bool_decide (c = "."%char) then Some (xH, s)
      else if bool_decide (c = "0"%char) then '(p, r) ← get_pos s; Some (xO p, r)
      else if bool_decide (c = "1"%char) then '(p, r) ← get_pos s; Some (xI p, r)
      else None
  end.

Lemma get_put_pos p rest : get_pos (put_pos p +:+ rest) = Some (p, rest).
Proof.
  induction p as [p IH|p IH|]; [| |done].
  - change (('(q, r) ← get_pos (put_pos p +:+ rest); Some (xI q, r)) = Some (xI p, rest)). by rewrite IH.
  - change (('(q, r) ← get_pos (put_pos p +:+ rest); Some (xO q, r)) = Some (xO p, rest)). by rewrite IH.
Qed.

Lemma get_pos_consumes s p r : get_pos s = Some (p, r) → (String.length r < String.length s)%nat.
Proof.
  revert p. induction s as [|c s IH]; intros p; [done|].
  cbn [get_pos String.length]. repeat case_bool_decide.
  - intros [= <- <-]. lia.
  - destruct (get_pos s) as [[q r']|]; [|done]. intros [= <- <-]. specialize (IH q eq_refl). lia.
  - destruct (get_pos s) as [[q r']|]; [|done]. intros [= <- <-]. specialize (IH q eq_refl). lia.
  - done.
Qed.

#[local] Instance kv_codec : JsonCodec := {|
  json_encode kv := put_pos (encode (Key kv, Value kv));
  json_decode s := '(p, r) ← get_pos s; kv ← decode p; Some (mkKV kv.1 kv.2, r);
|}.

#[local] Instance kv_json : Json.
Proof.
  split.
  - intros kv rest. cbn. rewrite get_put_pos. cbn. rewrite decode_encode. cbn. by destruct kv.
  - done.
  - intros s kv rest. cbn. destruct (get_pos s) as [[p r]|] eqn:E; [|done]. cbn.
    destruct (decode p); [|done]. intros [= _ <-]. by eapply get_pos_consumes.
Qed.

(** ** Word count *)

(** Words separated by spaces. *)
Fixpoint words_from (cur : string) (s : string) : list string :=
  match s with
  | EmptyString => if bool_decide (cur = "") then [] else [cur]
  | String c s =>
      if bool_decide (c = " "%char) then
        (if bool_decide (cur = "") then [] else [cur]) ++ words_from "" s
      else words_from (cur +:+ String c EmptyString) s
  end.
Definition words (s : string) : list string := words_from "" s.

Definition inputs : list string := ["pg-a.txt"; "pg-b.txt"].
Definition disk : fs := <["pg-a.txt" := "to be or not to be"]> (<["pg-b.txt" := "not now"]> ∅).

Lemma disk_ready : job_ready inputs disk.
Proof.
  assert (∀ s, s ≠ "pg-a.txt" → s ≠ "pg-b.txt" → disk !! s = None) as Hd.
  { intros s Ha Hb. unfold disk. by rewrite !lookup_insert_ne. }
  split.
  - intros s [(m & i & ->)|(i & ->)]; by apply Hd.
  - intros file Hf. unfold inputs in Hf.
    assert (file = "pg-a.txt" ∨ file = "pg-b.txt") as [-> | ->] by set_solver;
      (split; [by eexists|intros [(m & i & E)|(i & E)]; discriminate]).
Qed.



(** ** The master *)

(** One map task, one reduce task, each given out and answered once. *)
Definition good_job : list mact :=
  [ MAsk 0; MResponse (mkResponseArgs "map" 0) 3; MCount 0; MWait 0;
    MAsk 20; MResponse (mkResponseArgs "reduce" 0) 25; MCount 0 ].
Definition good_end : mstate := match mrun (minit ["pg"] 1) good_job with Done s => s | _ => minit [] 0 end.

Lemma master_phases_witness : is_completed (master good_end) RTASKS 0.
Proof.
  destruct (HandleAsk (master good_end) 30) as [[m reply] timer] eqn:E.
  eapply (master_phases ["pg"] 1 good_job good_end 30 m reply timer).
  - vm_compute. reflexivity.
  - vm_compute. repeat constructor; set_solver.
  - exact E.
  - vm_compute. reflexivity.
  - lia.
Defined.

(** The worker of reduce task 0 is slow; the task is given out again after
    ten seconds, and then both workers answer. *)
Definition slow_worker : list mact :=
  [ MAsk 0; MResponse (mkResponseArgs "map" 0) 3; MCount 0; MWait 0;
    MAsk 20; MWait 0; MAsk 31;
    MResponse (mkResponseArgs "reduce" 0) 32; MResponse (mkResponseArgs "reduce" 0) 33;
    MCount 0; MCount 0 ].

(** A response to the first allocation of a task is accepted after the
    task was given out again, and counted again when the second worker
    answers: with one map and two reduce tasks, the master reports that the
    job is done while reduce task 1 was never given out. *)
Theorem duplicate_response_ends_job :
  ∃ s, mrun (minit ["pg"] 2) slow_worker = Done s ∧ Done_ (master s) = true ∧
    tk_state <$> rtasks (master s) = [COMPLETED; IDLE].
Proof. eexists. split; [vm_compute; reflexivity|]. split; reflexivity. Qed.

(** ** The applications *)

Lemma apps_order_free_witness :
  order_free wc_Reduce ∧ order_free (indexer_Reduce (go_sort string_less)) ∧
  order_free (crash_Reduce (go_sort string_less)).
Proof. apply (apps_order_free (go_sort string_less)). Defined.

Lemma wc_counts_witness :
  ("to", "2") ∈ reduce_all wc_Reduce (go_sort ByKey_Less
    (concat ((fun i => wc_Map words i.1 i.2) <$> [("pg-a.txt", "to be or not to be"); ("pg-b.txt", "not now")]))).
Proof.
  apply (wc_counts words (go_sort ByKey_Less)
    [("pg-a.txt", "to be or not to be"); ("pg-b.txt", "not now")] "to" "2").
  split; [vm_compute; left|vm_compute; reflexivity].
Defined.

(** ** A whole job *)

(** Worker 1 dies with its first task, worker 0 fails to rename a file; both
    tasks are given out again. *)
Definition one_task (now : Z) : list sact :=
  [SAsk 0 now; SPerform 0 no_failures; SRespond 0 (now + 1); SCount 0].
Definition whole_job : list sact :=
  [SAsk 1 0; SExit 1; SAsk 0 1;
   SPerform 0 (mkIO (fun _ => false) (fun _ => false) (fun _ => false)
                 (fun s => bool_decide (s = temp_inter_name 1 1)));
   SWait 0; SWait 0] ++ one_task 12 ++ one_task 14 ++ one_task 16 ++ one_task 18.

Definition job_start : sys := sinit inputs 2 disk 2.
Definition job_end : sys :=
  match srun (go_sort ByKey_Less) (wc_Map words) wc_Reduce job_start whole_job with Done s => s | _ => job_start end.


(** Worker 1 has died with a task, worker 0 is at another one: from there the
    job can be finished. *)
Definition halfway : sys :=
  match srun (go_sort ByKey_Less) (wc_Map words) wc_Reduce job_start [SAsk 1 0; SExit 1; SAsk 0 1] with
  | Done s => s
  | _ => job_start
  end.


Lemma job_hangs_witness :
  ∃ s, srun (go_sort ByKey_Less) (wc_Map words) wc_Reduce (sinit ["pg-a.txt"] 2 disk 2) hanging = Done s ∧
    ∀ acts s', srun (go_sort ByKey_Less) (wc_Map words) wc_Reduce s acts = Done s' → Done_ (master (mst s')) = false.
Proof.
  apply (job_hangs (go_sort ByKey_Less) (wc_Map words) wc_Reduce "pg-a.txt" "to be or not to be" 2 disk).
  - discriminate.
  - exact (jr_clean _ _ disk_ready).
  - intros [(m & i & E)|(i & E)]; discriminate.
  - reflexivity.
Defined.

(** Errors of [Fprintf] go unnoticed: with a full disk, a reduce task reports
    success and leaves an empty file. *)
Lemma reduce_ignores_write_errors :
  ∃ f, performReduce (go_sort ByKey_Less) (mkIO (fun _ => false) (fun _ => false) (fun _ => true) (fun _ => false))
      wc_Reduce 1 0 {["inter_0_0.json" := json_encode (mkKV "to" "1")]} = (f, true) ∧
    f !! "mr-out-0" = Some "".
Proof. eexists. split; [vm_compute; reflexivity|]. vm_compute. reflexivity. Qed.
