(* ===== verification/MRConcurrent.v ===== *)
(** * Several workers inside one map task ([mr/worker.go], [performMap])

    The master gives a task to another worker after ten seconds, while the
    first may still be at it.  Here any number of executions of one map task
    interleave, one system call at a time, on a disk of inodes: all of them
    use the same names for their temporary files, which are opened without
    truncation, and the deferred removals run when an execution returns.
    [kvall] are the buckets that every execution computes from the input. *)

From S2P Require Import Prelude MapReduce MapReduceCorrect.

Notation bytes := (list Ascii.ascii).

(** Names lead to inodes, inodes hold bytes. *)
Record disk := mkDisk { dir : gmap string nat; inodes : list bytes }.

(** [os.OpenFile(name, os.O_RDWR|os.O_CREATE, 0755)] *)
Definition open_file (d : disk) (name : string) : disk * nat :=
  match dir d !! name with
  | Some n => (d, n)
  | None => (mkDisk (<[name := length (inodes d)]> (dir d)) (inodes d ++ [[]]), length (inodes d))
  end.

(** Writing at the offset of the open file. *)
Definition write_at (off : nat) (s old : bytes) : bytes := take off old ++ s ++ drop (off + length s) old.
Definition write_file (d : disk) (n off : nat) (s : bytes) : disk :=
  mkDisk (dir d) (alter (write_at off s) n (inodes d)).

Definition rename_file (d : disk) (old new : string) : option disk :=
  match dir d !! old with
  | Some n => Some (mkDisk (<[new := n]> (delete old (dir d))) (inodes d))
  | None => None
  end.
Definition remove_file (d : disk) (name : string) : disk := mkDisk (delete name (dir d)) (inodes d).

(** What a file holds. *)
Definition content (d : disk) (name : string) : option string :=
  n ← dir d !! name; String.string_of_list_ascii <$> inodes d !! n.

(** ** Pieces written one after the other *)

(** The first [k] pieces. *)
Definition joined (cs : list bytes) (k : nat) : bytes := concat (take k cs).

Lemma joined_S cs j c : cs !! j = Some c → joined cs (S j) = joined cs j ++ c.
Proof. intros Hj. unfold joined. rewrite (take_S_r _ _ _ Hj), concat_app. cbn. by rewrite app_nil_r. Qed.

Lemma joined_app cs j k : j ≤ k → ∃ rest, joined cs k = joined cs j ++ rest.
Proof.
  intros Hle. unfold joined. exists (concat (drop j (take k cs))). rewrite <- concat_app. f_equal.
  rewrite <- (take_drop j (take k cs)) at 1. by rewrite take_take, Nat.min_l.
Qed.

Lemma joined_between cs k m k' :
  k ≤ m → m ≤ k' → joined cs k = joined cs k' → joined cs m = joined cs k'.
Proof.
  intros H1 H2 E. destruct (joined_app cs k m H1) as [r1 E1], (joined_app cs m k' H2) as [r2 E2].
  assert (r2 = []) as ->; [|by rewrite E2, app_nil_r].
  apply (f_equal length) in E. rewrite E2, E1, !length_app in E. apply nil_length_inv. lia.
Qed.

(** Everybody writes the same: what is there stays, or one piece is added. *)
Lemma write_at_joined cs j k c :
  cs !! j = Some c → j ≤ k → write_at (length (joined cs j)) c (joined cs k) = joined cs (k `max` S j).
Proof.
  intros Hj Hle. unfold write_at. destruct (decide (k = j)) as [->|Hne].
  - rewrite take_ge, drop_ge, app_nil_r by lia. rewrite Nat.max_r by lia. by rewrite (joined_S _ _ _ Hj).
  - destruct (joined_app cs (S j) k) as [rest Hr]; [lia|]. rewrite Nat.max_l by lia. rewrite Hr.
    rewrite (joined_S _ _ _ Hj), <- app_assoc, take_app_length. f_equal.
    by rewrite app_assoc, <- length_app, drop_app_length.
Qed.

(** The same as a string. *)
Lemma joined_string (l : list string) k :
  String.string_of_list_ascii (joined (String.list_ascii_of_string <$> l) k) = concat_str (take k l).
Proof.
  unfold joined. rewrite <- fmap_take. induction (take k l) as [|s l' IH]; [done|].
  change (concat_str (s :: l')) with (s +:+ concat_str l'). rewrite <- IH, fmap_cons. cbn [concat].
  induction s as [|c s IHs]; [done|]. cbn. by rewrite IHs.
Qed.

Section concurrent.
Context `{!JsonCodec}.
Context (index : nat) (kvall : list (list KeyValue)).

(** Where an execution is: at the start of a bucket, writing the pairs [rest]
    of a bucket, about to rename, removing its temporary files (latest first)
    before it returns. *)
Inductive epc :=
| EOpen (i : nat)
| EWrite (i n off : nat) (rest : list KeyValue)
| ERename (i : nat)
| EDefer (ok : bool)
| EReturned (ok : bool).
Record exec := mkExec { x_pc : epc; x_temps : list nat }.

Record mstate := mkMState { m_disk : disk; m_execs : list exec }.

Definition encode (kv : KeyValue) : bytes := String.list_ascii_of_string (json_encode kv).

(** One system call of an execution; [fail]: it fails. *)
Definition exec_step (d : disk) (x : exec) (fail : bool) : go (disk * exec) :=
  let returns ok := mkExec (EDefer ok) (x_temps x) in
  match x_pc x with
  | EOpen i =>
      match kvall !! i with
      | None => Done (d, returns true)
      | Some kva =>
          if fail then Done (d, returns false)
          else
            let '(d, n) := open_file d (temp_inter_name index i) in
            Done (d, mkExec (EWrite i n 0 kva) (i :: x_temps x))
      end
  | EWrite i n off [] => Done (d, mkExec (ERename i) (x_temps x))
  | EWrite i n off (kv :: rest) =>
      if fail then Done (d, returns false)
      else Done (write_file d n off (encode kv), mkExec (EWrite i n (off + length (encode kv)) rest) (x_temps x))
  | ERename i =>
      match (if fail then None else rename_file d (temp_inter_name index i) (inter_name index i)) with
      | None => Done (d, returns false)
      | Some d => Done (d, mkExec (EOpen (S i)) (x_temps x))
      end
  | EDefer ok =>
      match x_temps x with
      | [] => Done (d, mkExec (EReturned ok) [])
      | i :: temps => Done (remove_file d (temp_inter_name index i), mkExec (EDefer ok) temps)
      end
  | EReturned _ => Stuck
  end.

(** A worker starts the task, makes a system call, or crashes. *)
Inductive mact := MBegin | MCall (k : nat) (fail : bool) | MCrash (k : nat).

Definition mr_step (st : mstate) (a : mact) : go mstate :=
  match a with
  | MBegin => Done (mkMState (m_disk st) (m_execs st ++ [mkExec (EOpen 0) []]))
  | MCall k fail =>
      match m_execs st !! k with
      | Some x => '(d, x) ← exec_step (m_disk st) x fail; Done (mkMState d (<[k := x]> (m_execs st)))
      | None => Stuck
      end
  | MCrash k => Done (mkMState (m_disk st) (delete k (m_execs st)))
  end.

Fixpoint mr_run (st : mstate) (acts : list mact) : go mstate :=
  match acts with
  | [] => Done st
  | a :: acts => st ← mr_step st a; mr_run st acts
  end.

(** At first there are no files of this task. *)
Definition untouched (d : disk) : Prop :=
  ∀ i, dir d !! temp_inter_name index i = None ∧ dir d !! inter_name index i = None.

(** ** Invariant *)

(** The first [k] pairs of a bucket. *)
Definition written (kva : list KeyValue) (k : nat) : bytes := joined (encode <$> kva) k.

(** An execution has written the pairs before those that are left; [bs] says
    for every inode which bucket it belongs to, if any. *)
Definition exec_ok (d : disk) (bs : list (option nat)) (x : exec) : Prop :=
  match x_pc x with
  | EWrite i n off rest =>
      bs !! n = Some (Some i) ∧ ∃ kva j k, kvall !! i = Some kva ∧ rest = drop j kva ∧ j ≤ k ≤ length kva ∧
        off = length (written kva j) ∧ inodes d !! n = Some (written kva k)
  | _ => True
  end.

Record disk_inv (d : disk) (bs : list (option nat)) : Prop := {
  di_len : length bs = length (inodes d);
  di_temp : ∀ i n, dir d !! temp_inter_name index i = Some n → bs !! n = Some (Some i);
  di_inter : ∀ i n, dir d !! inter_name index i = Some n → bs !! n = Some (Some i);
  di_data : ∀ n i, bs !! n = Some (Some i) →
    ∃ kva k, kvall !! i = Some kva ∧ k ≤ length kva ∧ inodes d !! n = Some (written kva k);
}.

Definition mr_inv (st : mstate) : Prop :=
  ∃ bs, disk_inv (m_disk st) bs ∧ Forall (exec_ok (m_disk st) bs) (m_execs st).

Lemma written_S kva j kv : kva !! j = Some kv → written kva (S j) = written kva j ++ encode kv.
Proof. intros Hj. apply joined_S. by rewrite list_lookup_fmap, Hj. Qed.

(** Inodes keep their bucket, and their content only grows. *)
Definition grows (d : disk) (bs : list (option nat)) (d' : disk) (bs' : list (option nat)) : Prop :=
  ∀ n i kva k, bs !! n = Some (Some i) → kvall !! i = Some kva → k ≤ length kva →
    inodes d !! n = Some (written kva k) →
    bs' !! n = Some (Some i) ∧ ∃ k', k ≤ k' ≤ length kva ∧ inodes d' !! n = Some (written kva k').

Lemma exec_ok_grows d bs d' bs' x : grows d bs d' bs' → exec_ok d bs x → exec_ok d' bs' x.
Proof.
  intros Hg. unfold exec_ok. destruct (x_pc x) as [|i n off rest| | |]; try done.
  intros (Hb & kva & j & k & Hk & -> & Hle & -> & Hd). destruct (Hg n i kva k Hb Hk ltac:(lia) Hd) as (Hb' & k' & Hk' & Hd').
  split; [done|]. exists kva, j, k'. split; [done|]. split; [done|]. split; [lia|done].
Qed.

Lemma grows_same d bs d' : inodes d' = inodes d → grows d bs d' bs.
Proof. intros E n i kva k Hb Hk Hle Hd. split; [done|]. exists k. rewrite E. split; [lia|done]. Qed.

(** ** The system calls *)

Lemma temp_name_inj i i' : temp_inter_name index i = temp_inter_name index i' → i = i'.
Proof. unfold temp_inter_name. intros E. injection E as E. by destruct (decimal_pair_inj _ _ _ _ E). Qed.

Lemma temp_not_inter i i' : temp_inter_name index i ≠ inter_name index i'.
Proof. intros E. apply (temp_not_output (temp_inter_name index i)); [left; eauto|]. rewrite E. left. eauto. Qed.

Lemma open_ok d bs i kva d' n :
  disk_inv d bs → kvall !! i = Some kva → open_file d (temp_inter_name index i) = (d', n) →
  ∃ bs', disk_inv d' bs' ∧ grows d bs d' bs' ∧ bs' !! n = Some (Some i).
Proof.
  intros [Hl Ht Hi Hd] Hk. unfold open_file. destruct (dir d !! temp_inter_name index i) as [n0|] eqn:E; intros [= <- <-].
  { exists bs. split; [done|]. split; [by apply grows_same|]. eauto. }
  exists (bs ++ [Some i]).
  assert (∀ n b, bs !! n = Some b → (bs ++ [Some i]) !! n = Some b) as Hold by (intros n b Hb; by apply lookup_app_l_Some).
  assert ((bs ++ [Some i]) !! length (inodes d) = Some (Some i)) as Hnew by (rewrite <- Hl; by apply list_lookup_middle).
  split; [split; cbn|split; [|done]].
  - rewrite !length_app. cbn. lia.
  - intros i' n Hn. apply lookup_insert_Some in Hn as [[En%temp_name_inj <-]|[_ Hn]]; [by subst|eauto].
  - intros i' n Hn. apply lookup_insert_Some in Hn as [[En _]|[_ Hn]]; [by apply temp_not_inter in En|eauto].
  - intros n i' Hb. apply lookup_app_Some in Hb as [Hb|[Hge Hb]].
    + destruct (Hd n i' Hb) as (kva' & k & ? & ? & Hn). exists kva', k. split; [done|]. split; [done|].
      by apply lookup_app_l_Some.
    + apply list_lookup_singleton_Some in Hb as [En [= <-]]. exists kva, 0. split; [done|]. split; [lia|].
      replace n with (length (inodes d)) by lia. by apply list_lookup_middle.
  - intros n i' kva' k Hb Hk' Hle Hn. split; [by apply Hold|]. exists k. split; [lia|]. by apply lookup_app_l_Some.
Qed.

Lemma write_ok d bs n i kva j k kv :
  disk_inv d bs → bs !! n = Some (Some i) → kvall !! i = Some kva → kva !! j = Some kv → j ≤ k ≤ length kva →
  inodes d !! n = Some (written kva k) →
  let d' := write_file d n (length (written kva j)) (encode kv) in
  disk_inv d' bs ∧ grows d bs d' bs ∧ inodes d' !! n = Some (written kva (k `max` S j)).
Proof.
  intros [Hl Ht Hi Hd] Hb Hk Hj Hle Hn d'. assert (S j ≤ length kva) as Hlj by (apply lookup_lt_Some in Hj; lia).
  assert (inodes d' !! n = Some (written kva (k `max` S j))) as Hn'.
  { cbn. rewrite list_lookup_alter_eq, Hn. cbn. unfold written. rewrite (write_at_joined _ _ _ (encode kv)); [done| |lia]. by rewrite list_lookup_fmap, Hj. }
  assert (∀ n', n' ≠ n → inodes d' !! n' = inodes d !! n') as Hne.
  { intros n' Hnn. cbn. by rewrite list_lookup_alter_ne. }
  split; [split; [cbn; by rewrite length_alter|done|done|]|split; [|done]].
  - intros n' i' Hb'. destruct (decide (n' = n)) as [->|Hnn].
    + rewrite Hb in Hb'. injection Hb' as <-. exists kva, (k `max` S j). split; [done|]. split; [lia|done].
    + destruct (Hd n' i' Hb') as (kva' & k' & ? & ? & ?). exists kva', k'. by rewrite Hne.
  - intros n' i' kva' k' Hb' Hk' Hle' Hn0. split; [done|]. destruct (decide (n' = n)) as [->|Hnn].
    + rewrite Hb in Hb'. injection Hb' as <-. rewrite Hk in Hk'. injection Hk' as <-.
      destruct (decide (k' ≤ k `max` S j)) as [|Hgt]; [exists (k `max` S j); split; [lia|done]|].
      exists k'. split; [lia|]. rewrite Hn'. f_equal. rewrite Hn in Hn0. injection Hn0 as Ek.
      by apply (joined_between _ k (k `max` S j) k'); [lia|lia|].
    + exists k'. rewrite Hne by done. split; [lia|done].
Qed.

Lemma rename_ok d bs i d' :
  disk_inv d bs → rename_file d (temp_inter_name index i) (inter_name index i) = Some d' →
  disk_inv d' bs ∧ inodes d' = inodes d.
Proof.
  intros [Hl Ht Hi Hd]. unfold rename_file.
  destruct (dir d !! temp_inter_name index i) as [n|] eqn:E; intros [= <-]. split; [split; cbn|done].
  - done.
  - intros i' n' Hn. apply lookup_insert_Some in Hn as [[En _]|[_ Hn]]; [by symmetry in En; apply temp_not_inter in En|].
    apply lookup_delete_Some in Hn as [_ Hn]. eauto.
  - intros i' n' Hn. apply lookup_insert_Some in Hn as [[[_ <-]%inter_name_inj <-]|[_ Hn]]; [eauto|].
    apply lookup_delete_Some in Hn as [_ Hn]. eauto.
  - done.
Qed.

Lemma remove_ok d bs name : disk_inv d bs → disk_inv (remove_file d name) bs.
Proof. intros [Hl Ht Hi Hd]. split; cbn; [done| | |done]; intros i n [_ Hn]%lookup_delete_Some; eauto. Qed.

(** An execution's step, and what it does to the others. *)
Lemma exec_step_ok d bs x fail d' x' :
  disk_inv d bs → exec_ok d bs x → exec_step d x fail = Done (d', x') →
  ∃ bs', disk_inv d' bs' ∧ grows d bs d' bs' ∧ exec_ok d' bs' x'.
Proof.
  intros Hd Hx Hs. destruct x as [[i|i n off rest|i|ok|ok] temps]; cbn in Hs.
  - destruct (kvall !! i) as [kva|] eqn:Hk.
    + destruct fail; [injection Hs as <- <-; exists bs; split; [done|]; split; [by apply grows_same|done]|].
      destruct (open_file d (temp_inter_name index i)) as [d1 n] eqn:Eo. injection Hs as <- <-.
      destruct (open_ok d bs i kva d1 n Hd Hk Eo) as (bs' & Hd' & Hg & Hb). exists bs'. split; [done|]. split; [done|].
      split; [done|]. destruct (di_data _ _ Hd' n i Hb) as (kva' & k & Hk' & Hle & Hn).
      rewrite Hk in Hk'. injection Hk' as <-. exists kva, 0, k. split; [done|]. split; [done|]. split; [lia|done].
    + injection Hs as <- <-. exists bs. split; [done|]. split; [by apply grows_same|done].
  - destruct rest as [|kv rest].
    { injection Hs as <- <-. exists bs. split; [done|]. split; [by apply grows_same|done]. }
    destruct fail; injection Hs as <- <-.
    { exists bs. split; [done|]. split; [by apply grows_same|done]. }
    destruct Hx as (Hb & kva & j & k & Hk & Hr & Hle & -> & Hn).
    assert (kva !! j = Some kv) as Hj.
    { rewrite <- (Nat.add_0_r j), <- lookup_drop, <- Hr. done. }
    destruct (write_ok d bs n i kva j k kv Hd Hb Hk Hj Hle Hn) as (Hd' & Hg & Hn'). exists bs.
    split; [done|]. split; [done|]. split; [done|]. exists kva, (S j), (k `max` S j). split; [done|].
    split; [rewrite (drop_S _ _ _ Hj) in Hr; by injection Hr|].
    pose proof (lookup_lt_Some _ _ _ Hj). split; [lia|]. split; [by rewrite (written_S kva j kv Hj), length_app|done].
  - destruct (if fail then None else _) as [d1|] eqn:Er; injection Hs as <- <-.
    + destruct fail; [done|]. destruct (rename_ok d bs i d1 Hd Er) as [Hd' E]. exists bs. split; [done|].
      split; [by apply grows_same|done].
    + exists bs. split; [done|]. split; [by apply grows_same|done].
  - destruct temps as [|i temps]; injection Hs as <- <-; exists bs.
    + split; [done|]. split; [by apply grows_same|done].
    + split; [by apply remove_ok|]. split; [by apply grows_same|done].
  - done.
Qed.

Lemma mr_step_ok st a st' : mr_inv st → mr_step st a = Done st' → mr_inv st'.
Proof.
  intros (bs & Hd & Hf) Hs. destruct a as [|k fail|k]; cbn [mr_step] in Hs.
  - injection Hs as <-. exists bs. split; [done|]. apply Forall_app. split; [done|]. by repeat constructor.
  - destruct (m_execs st !! k) as [x|] eqn:Hk; [|done]. go_inv Hs. destruct a as [d' x']. injection Hs as <-.
    rewrite Forall_lookup in Hf. destruct (exec_step_ok _ bs x fail d' x' Hd (Hf k x Hk) E) as (bs' & Hd' & Hg & Hx').
    exists bs'. split; [done|]. apply Forall_insert; [|done]. apply Forall_lookup. intros k' y Hy.
    by eapply exec_ok_grows, Hf.
  - injection Hs as <-. exists bs. split; [done|]. by apply Forall_delete.
Qed.


End concurrent.
