(* ===== verification/MRConcurrentReduce.v ===== *)
(** * Several workers inside one reduce task ([mr/worker.go], [performReduce])

    As in [MRConcurrent], any number of executions of one reduce task
    interleave, one system call at a time.  All of them read the same
    intermediate files, write their lines through the same temporary file,
    opened without truncation, and rename it to [mr-out-<index>].  The
    errors of [fmt.Fprintf] are ignored, as in the code: a line whose
    writing fails is skipped.

    When no write fails, the output is at any time the lines that one
    execution alone writes, up to some line ([concurrent_reduce]); when
    moreover no worker dies inside, it is complete once all have returned.
    A worker that reports success while another one is inside has no such
    guarantee ([reduce_output_torn]). *)

From S2P Require Import Prelude MapReduce MapReduceCorrect MRConcurrent.

Section reduce.
Context `{!JsonCodec}.
Context (sortKV : list KeyValue → list KeyValue).
Context (reducef : string → list string → string) (splite index : nat).

(** Where an execution is: reading the file of map task [i], the pairs read
    so far; about to open the temporary file; with the lines still to be
    written to inode [n] at offset [off]; about to rename; removing the
    temporary file; returned. *)
Inductive rpc :=
| RRead (i : nat) (kva : list KeyValue)
| ROpen (kva : list KeyValue)
| RWrite (n off : nat) (rest : list string)
| RRename
| RDefer (ok : bool)
| RReturned (ok : bool).

Record rstate := mkRState { r_disk : disk; r_execs : list rpc }.

Definition bytes_of (s : string) : bytes := String.list_ascii_of_string s.

(** One system call of an execution; [fail]: it fails. *)
Definition rexec_step (d : disk) (x : rpc) (fail : bool) : go (disk * rpc) :=
  match x with
  | RRead i kva =>
      if bool_decide (i = splite) then Done (d, ROpen (sortKV kva))
      else
        match (if fail then None else content d (inter_name i index)) with
        | None => Done (d, RReturned false)
        | Some s => Done (d, RRead (S i) (kva ++ decode_all s))
        end
  | ROpen kva =>
      if fail then Done (d, RReturned false)
      else
        let '(d, n) := open_file d (temp_out_name index) in
        Done (d, RWrite n 0 (out_line <$> reduce_all reducef kva))
  | RWrite n off [] => Done (d, RRename)
  | RWrite n off (l :: rest) =>
      if fail then Done (d, RWrite n off rest)
      else Done (write_file d n off (bytes_of l), RWrite n (off + length (bytes_of l)) rest)
  | RRename =>
      match (if fail then None else rename_file d (temp_out_name index) (out_name index)) with
      | None => Done (d, RDefer false)
      | Some d => Done (d, RDefer true)
      end
  | RDefer ok => Done (remove_file d (temp_out_name index), RReturned ok)
  | RReturned _ => Stuck
  end.

(** A worker starts the task, makes a system call, or crashes. *)
Inductive ract := RBegin | RCall (k : nat) (fail : bool) | RCrash (k : nat).

Definition rr_step (st : rstate) (a : ract) : go rstate :=
  match a with
  | RBegin => Done (mkRState (r_disk st) (r_execs st ++ [RRead 0 []]))
  | RCall k fail =>
      match r_execs st !! k with
      | Some x => '(d, x) ← rexec_step (r_disk st) x fail; Done (mkRState d (<[k := x]> (r_execs st)))
      | None => Stuck
      end
  | RCrash k => Done (mkRState (r_disk st) (delete k (r_execs st)))
  end.

Fixpoint rr_run (st : rstate) (acts : list ract) : go rstate :=
  match acts with
  | [] => Done st
  | a :: acts => st ← rr_step st a; rr_run st acts
  end.

(** Along a run no write fails, and, when [calm], no execution crashes. *)
Definition write_fails (st : rstate) (a : ract) : bool :=
  match a with
  | RCall k true => match r_execs st !! k with Some (RWrite _ _ _) => true | _ => false end
  | _ => false
  end.
Definition crashes (a : ract) : bool := match a with RCrash _ => true | _ => false end.

Fixpoint good_run (calm : bool) (st : rstate) (acts : list ract) : bool :=
  match acts with
  | [] => true
  | a :: acts =>
      negb (write_fails st a) && negb (calm && crashes a) &&
      match rr_step st a with Done st' => good_run calm st' acts | _ => true end
  end.

(** ** Invariant *)

(** The files when the first execution starts. *)
Context (f : fs).

Notation read n := (read_loop no_failures index 0 n f).

Lemma read_next i n kva s :
  read_loop no_failures index i n f = Some kva → f !! inter_name (i + n) index = Some s →
  read_loop no_failures index i (S n) f = Some (kva ++ decode_all s).
Proof.
  revert i kva. induction n as [|n IH]; intros i kva.
  - intros [= <-]. rewrite Nat.add_0_r. intros Hs. cbn. rewrite Hs. cbn. by rewrite app_nil_r.
  - intros Hr Hs. change (read_loop no_failures index i (S n) f) with
      (match f !! inter_name i index with
       | Some c => rest ← read_loop no_failures index (S i) n f; Some (decode_all c ++ rest)
       | None => None end) in Hr.
    destruct (f !! inter_name i index) as [c|] eqn:Ec; [|done].
    destruct (read_loop no_failures index (S i) n f) as [rest|] eqn:Er; [|done]. injection Hr as <-.
    change (read_loop no_failures index i (S (S n)) f) with
      (match f !! inter_name i index with
       | Some c => rest ← read_loop no_failures index (S i) (S n) f; Some (decode_all c ++ rest)
       | None => None end).
    rewrite Ec, (IH (S i) rest Er); [|by rewrite Nat.add_succ_comm]. cbn. by rewrite app_assoc.
Qed.

(** The lines of one execution alone. *)
Definition lines : list string :=
  match read splite with
  | Some kva => out_line <$> reduce_all reducef (sortKV kva)
  | None => []
  end.
Notation L := (bytes_of <$> lines).
Notation len := (length lines).

(** [own]: the inodes that executions opened.  Each holds the lines up to
    some line; the input files are others and stay as they are. *)
Record rdisk_ok (d : disk) (own : gset nat) : Prop := {
  ro_range name n : dir d !! name = Some n → n < length (inodes d);
  ro_data n : n ∈ own → is_Some (read splite) ∧ ∃ k, k ≤ len ∧ inodes d !! n = Some (joined L k);
  ro_temp n : dir d !! temp_out_name index = Some n → n ∈ own;
  ro_out n : dir d !! out_name index = Some n → n ∈ own;
  ro_input i n : dir d !! inter_name i index = Some n → n ∉ own;
  ro_same i : content d (inter_name i index) = f !! inter_name i index;
}.

Definition rexec_ok (d : disk) (own : gset nat) (x : rpc) : Prop :=
  match x with
  | RRead i kva => i ≤ splite ∧ read i = Some kva
  | ROpen kva => ∃ kva0, read splite = Some kva0 ∧ kva = sortKV kva0
  | RWrite n off rest => n ∈ own ∧ ∃ j k, rest = drop j lines ∧ off = length (joined L j) ∧
      j ≤ k ≤ len ∧ inodes d !! n = Some (joined L k)
  | RDefer true | RReturned true => is_Some (dir d !! out_name index)
  | _ => True
  end.

(** What a system call does to the others: inodes only grow, and the output
    stays once it is there. *)
Record rgrows (d : disk) (own : gset nat) (d' : disk) (own' : gset nat) : Prop := {
  rg_own : own ⊆ own';
  rg_data n k : n ∈ own → k ≤ len → inodes d !! n = Some (joined L k) →
    ∃ k', k ≤ k' ≤ len ∧ inodes d' !! n = Some (joined L k');
  rg_out : is_Some (dir d !! out_name index) → is_Some (dir d' !! out_name index);
}.

Lemma rgrows_same d own d' :
  inodes d' = inodes d → (is_Some (dir d !! out_name index) → is_Some (dir d' !! out_name index)) →
  rgrows d own d' own.
Proof. intros E Ho. split; [done| |done]. intros n k _ Hk Hn. exists k. rewrite E. split; [lia|done]. Qed.

Lemma rexec_ok_grows d own d' own' x : rgrows d own d' own' → rexec_ok d own x → rexec_ok d' own' x.
Proof.
  intros [Hsub Hg Ho]. destruct x as [| |n off rest| |[]|[]]; try done; try by apply Ho.
  intros (Hn & j & k & -> & -> & Hle & Hd). split; [by apply Hsub|].
  destruct (Hg n k Hn ltac:(lia) Hd) as (k' & Hk' & Hd'). exists j, k'. split_and!; [done..|lia|lia|done].
Qed.

(** ** The system calls *)

Lemma ropen_ok d own d' n :
  rdisk_ok d own → is_Some (read splite) → open_file d (temp_out_name index) = (d', n) →
  ∃ own', rdisk_ok d' own' ∧ rgrows d own d' own' ∧ n ∈ own' ∧ own' ⊆ {[n]} ∪ own.
Proof.
  intros Hok Hr. pose proof Hok as [H1 H2 H3 H4 H5 H6]. unfold open_file.
  destruct (dir d !! temp_out_name index) as [n0|] eqn:E; intros [= <- <-].
  { exists own. split_and!; [done|by apply rgrows_same|by apply H3|set_solver]. }
  set (n := length (inodes d)).
  assert (n ∉ own) as Hfresh.
  { intros Hn. destruct (H2 n Hn) as (_ & k & _ & Hk). apply lookup_lt_Some in Hk. lia. }
  assert (∀ m b, inodes d !! m = Some b → (inodes d ++ [[]]) !! m = Some b) as Hold
    by (intros; by apply lookup_app_l_Some).
  exists ({[n]} ∪ own). split_and!; [split; cbn|split; cbn|set_solver|set_solver].
  - intros name m. rewrite length_app, lookup_insert_Some. cbn. intros [[_ <-]|[_ Hm%H1]]; lia.
  - intros m [->%elem_of_singleton|Hm]%elem_of_union.
    + split; [done|]. exists 0. split; [lia|]. by apply list_lookup_middle.
    + destruct (H2 m Hm) as (? & k & ? & ?). split; [done|]. exists k. by auto.
  - intros m. rewrite lookup_insert_eq. intros [= <-]. set_solver.
  - intros m. rewrite lookup_insert_ne by done. intros Hm%H4. set_solver.
  - intros i m. rewrite lookup_insert_ne by done. intros Hm. pose proof (H1 _ _ Hm). specialize (H5 i m Hm).
    unfold n. set_unfold. intros [->|?]; [lia|done].
  - intros i. rewrite <- H6. unfold content. cbn. rewrite lookup_insert_ne by done.
    destruct (dir d !! inter_name i index) as [m|] eqn:Em; [|done]. cbn. f_equal.
    apply lookup_app_l. by eapply H1.
  - set_solver.
  - intros m k Hm Hk Hd. exists k. split; [lia|]. by apply Hold.
  - by rewrite lookup_insert_ne by done.
Qed.

Lemma rwrite_ok d own n j k l :
  rdisk_ok d own → n ∈ own → lines !! j = Some l → j ≤ k ≤ len → inodes d !! n = Some (joined L k) →
  let d' := write_file d n (length (joined L j)) (bytes_of l) in
  rdisk_ok d' own ∧ rgrows d own d' own ∧ inodes d' !! n = Some (joined L (k `max` S j)).
Proof.
  intros [H1 H2 H3 H4 H5 H6] Hn Hj Hle Hd d'. pose proof (lookup_lt_Some _ _ _ Hj) as Hlj.
  assert (inodes d' !! n = Some (joined L (k `max` S j))) as Hn'.
  { cbn. rewrite list_lookup_alter_eq, Hd. cbn. f_equal. apply write_at_joined; [|lia].
    by rewrite list_lookup_fmap, Hj. }
  assert (∀ m, m ≠ n → inodes d' !! m = inodes d !! m) as Hne by (intros m ?; cbn; by rewrite list_lookup_alter_ne).
  split_and!; [split|split|done]; try done.
  - intros name m. cbn. rewrite length_alter. apply H1.
  - intros m Hm. destruct (H2 m Hm) as (Hr & k' & Hk' & Hm'). split; [done|].
    destruct (decide (m = n)) as [->|]; [exists (k `max` S j); split; [lia|done]|exists k'; by rewrite Hne].
  - intros i. rewrite <- H6. unfold content. change (dir d') with (dir d).
    destruct (dir d !! inter_name i index) as [m|] eqn:Em; [|done]. cbn [mbind option_bind].
    rewrite Hne; [done|]. intros ->. by apply (H5 i n).
  - intros m k' Hm Hk' Hd'. destruct (decide (m = n)) as [->|Hmn]; [|exists k'; rewrite Hne by done; split; [lia|done]].
    destruct (decide (k' ≤ k `max` S j)) as [|Hgt]; [exists (k `max` S j); split; [lia|done]|].
    exists k'. split; [lia|]. rewrite Hn'. f_equal. rewrite Hd in Hd'. injection Hd' as Ek.
    apply (joined_between _ k); [lia|lia|done].
Qed.

Lemma rrename_ok d own d' :
  rdisk_ok d own → rename_file d (temp_out_name index) (out_name index) = Some d' →
  rdisk_ok d' own ∧ rgrows d own d' own ∧ is_Some (dir d' !! out_name index).
Proof.
  intros [H1 H2 H3 H4 H5 H6]. unfold rename_file.
  destruct (dir d !! temp_out_name index) as [n|] eqn:E; intros [= <-].
  assert (is_Some (<[out_name index := n]> (delete (temp_out_name index) (dir d)) !! out_name index)) as Ho
    by (by rewrite lookup_insert_eq).
  split_and!; [split; cbn|by apply rgrows_same|done]; try done.
  - intros name m [[_ <-]|[_ [_ Hm]%lookup_delete_Some]]%lookup_insert_Some; eauto.
  - intros m. rewrite lookup_insert_ne by done. by rewrite lookup_delete_eq.
  - intros m. rewrite lookup_insert_eq. intros [= <-]. by apply H3.
  - intros i m. rewrite lookup_insert_ne, lookup_delete_ne by done. apply H5.
  - intros i. rewrite <- H6. unfold content. cbn. by rewrite lookup_insert_ne, lookup_delete_ne by done.
Qed.

Lemma rremove_ok d own :
  rdisk_ok d own → rdisk_ok (remove_file d (temp_out_name index)) own ∧
    rgrows d own (remove_file d (temp_out_name index)) own.
Proof.
  intros [H1 H2 H3 H4 H5 H6]. split; [split; cbn|apply rgrows_same; [done|]; cbn; by rewrite lookup_delete_ne by done]; try done.
  - intros name m [_ Hm]%lookup_delete_Some. eauto.
  - intros m [_ Hm]%lookup_delete_Some. eauto.
  - intros m [_ Hm]%lookup_delete_Some. eauto.
  - intros i m [_ Hm]%lookup_delete_Some. eauto.
  - intros i. rewrite <- H6. unfold content. cbn. by rewrite lookup_delete_ne by done.
Qed.

(** ** Steps *)

(** Inode [n] holds all the lines; or execution [x] is filling it. *)
Definition full (d : disk) (n : nat) : Prop := inodes d !! n = Some (joined L len).
Definition fills (n : nat) (x : rpc) : Prop := ∃ off rest, x = RWrite n off rest.

Lemma full_grows d own d' own' n : rgrows d own d' own' → n ∈ own → full d n → full d' n.
Proof.
  intros Hg Hn Hf. destruct (rg_data _ _ _ _ Hg n len Hn ltac:(lia) Hf) as (k & Hk & E).
  unfold full. by replace len with k by lia.
Qed.

(** What a system call must do: the others are not disturbed, and the inode
    that the execution was filling is full when it goes on. *)
Definition harmless (d : disk) (own : gset nat) (x : rpc) (d' : disk) (x' : rpc) : Prop :=
  ∃ own', rdisk_ok d' own' ∧ rgrows d own d' own' ∧ rexec_ok d' own' x' ∧
    (∀ n, n ∈ own' → n ∈ own ∨ fills n x') ∧
    (∀ n, fills n x → fills n x' ∨ full d' n).

Lemma harmless_other d own x d' x' :
  rdisk_ok d' own → rgrows d own d' own → rexec_ok d' own x' → (∀ n, ¬ fills n x) → harmless d own x d' x'.
Proof.
  intros Hd Hg Hx Hn. exists own. split; [done|]. split; [done|]. split; [done|]. split; [by left|].
  intros n Hf. by destruct (Hn n).
Qed.

Lemma harmless_quiet d own x x' :
  rdisk_ok d own → rexec_ok d own x' → (∀ n, ¬ fills n x) → harmless d own x d x'.
Proof. intros. apply harmless_other; [done|by apply rgrows_same|done..]. Qed.

Lemma open_harmless d own kva0 d' n :
  rdisk_ok d own → read splite = Some kva0 → open_file d (temp_out_name index) = (d', n) →
  harmless d own (ROpen (sortKV kva0)) d' (RWrite n 0 (out_line <$> reduce_all reducef (sortKV kva0))).
Proof.
  intros Hd Hr Eo. destruct (ropen_ok d own d' n Hd ltac:(eauto) Eo) as (own' & Hd' & Hg & Hn & Hsub).
  destruct (ro_data _ _ Hd' n Hn) as (_ & k & Hk & Hdk). exists own'. split; [done|]. split; [done|]. split.
  - split; [done|]. exists 0, k. split; [unfold lines; by rewrite Hr|]. split; [done|]. split; [lia|done].
  - split; [|by intros m (? & ? & ?)]. intros m Hm.
    destruct (decide (m = n)) as [->|]; [right; by do 2 eexists|left; set_solver].
Qed.

Lemma line_harmless d own n off l rest :
  rdisk_ok d own → rexec_ok d own (RWrite n off (l :: rest)) →
  harmless d own (RWrite n off (l :: rest)) (write_file d n off (bytes_of l))
    (RWrite n (off + length (bytes_of l)) rest).
Proof.
  intros Hd (Hn & j & k & Hr & -> & Hle & Hk).
  assert (lines !! j = Some l) as Hj by (rewrite <- (Nat.add_0_r j), <- lookup_drop, <- Hr; done).
  destruct (rwrite_ok d own n j k l Hd Hn Hj Hle Hk) as (Hd' & Hg & Hk').
  pose proof (lookup_lt_Some _ _ _ Hj). exists own. split; [done|]. split; [done|]. split.
  - split; [done|]. exists (S j), (k `max` S j). split; [rewrite (drop_S _ _ _ Hj) in Hr; by injection Hr|].
    split; [|split; [lia|done]]. rewrite (joined_S _ _ (bytes_of l)), length_app; [done|].
    by rewrite list_lookup_fmap, Hj.
  - split; [by left|]. intros m (? & ? & [= <- _ _]). left. by do 2 eexists.
Qed.

Lemma last_line_harmless d own n off :
  rdisk_ok d own → rexec_ok d own (RWrite n off []) → harmless d own (RWrite n off []) d RRename.
Proof.
  intros Hd (Hn & j & k & Hr & _ & Hle & Hk). exists own. split; [done|]. split; [by apply rgrows_same|].
  split; [done|]. split; [by left|]. intros m (? & ? & [= <- _ _]). right. unfold full.
  assert (len ≤ j).
  { apply (f_equal length) in Hr. rewrite length_drop in Hr. cbn in Hr. lia. }
  by replace len with k by lia.
Qed.

(** One system call of an execution whose writes do not fail. *)
Lemma rexec_step_ok d own x fail d' x' :
  rdisk_ok d own → rexec_ok d own x → (fail = true → ∀ n, ¬ fills n x) →
  rexec_step d x fail = Done (d', x') → harmless d own x d' x'.
Proof.
  intros Hd Hx Hnf Hs.
  destruct x as [i kva|kva|n off [|l rest]| |ok|ok]; cbn [rexec_step] in Hs.
  - assert (∀ n, ¬ fills n (RRead i kva)) as Hno by by intros n (? & ? & ?).
    destruct Hx as [Hle Hx]. case_bool_decide as Hi; [|destruct (if fail then None else _) as [c|] eqn:Ec];
      injection Hs as <- <-; apply harmless_quiet; try done.
    + subst i. by exists kva.
    + destruct fail; [done|]. rewrite (ro_same _ _ Hd) in Ec. split; [lia|]. by apply read_next.
  - destruct fail; [injection Hs as <- <-; apply harmless_quiet; [done..|]; by intros n (? & ? & ?)|].
    destruct Hx as (kva0 & Hr & ->).
    destruct (open_file d (temp_out_name index)) as [d1 n] eqn:Eo. injection Hs as <- <-. by apply open_harmless.
  - injection Hs as <- <-. by apply last_line_harmless.
  - destruct fail; [destruct (Hnf eq_refl n); by do 2 eexists|]. injection Hs as <- <-. by apply line_harmless.
  - assert (∀ n, ¬ fills n RRename) as Hno by by intros n (? & ? & ?).
    destruct (if fail then None else _) as [d1|] eqn:Er; injection Hs as <- <-; [|by apply harmless_quiet].
    destruct fail; [done|]. destruct (rrename_ok d own d1 Hd Er) as (? & ? & ?). by apply harmless_other.
  - injection Hs as <- <-. destruct (rremove_ok d own Hd) as [Hd' Hg].
    apply harmless_other; [done|done| |by intros n (? & ? & ?)]. destruct ok; [|done]. by apply (rg_out _ _ _ _ Hg).
  - done.
Qed.

Record rinv (calm : bool) (st : rstate) (own : gset nat) : Prop := {
  ri_disk : rdisk_ok (r_disk st) own;
  ri_execs : Forall (rexec_ok (r_disk st) own) (r_execs st);
  ri_full n : calm = true → n ∈ own → full (r_disk st) n ∨ ∃ x, x ∈ r_execs st ∧ fills n x;
}.

Lemma rr_step_ok calm st own a st' :
  rinv calm st own → write_fails st a = false → (calm = true → crashes a = false) →
  rr_step st a = Done st' → ∃ own', rinv calm st' own'.
Proof.
  intros [Hd Hx Hf] Hw Hc Hs. destruct a as [|k fail|k]; cbn [rr_step] in Hs.
  - injection Hs as <-. exists own. split; cbn; [done| |].
    + apply Forall_app. split; [done|]. repeat constructor. lia.
    + intros n Hcalm Hn. destruct (Hf n Hcalm Hn) as [|(x & ? & ?)]; [by left|right]. exists x. set_solver.
  - destruct (r_execs st !! k) as [x|] eqn:Hk; [|done]. go_inv Hs. destruct a as [d' x']. injection Hs as <-.
    pose proof (proj1 (Forall_lookup _ _) Hx k x Hk) as Hxk.
    destruct (rexec_step_ok (r_disk st) own x fail d' x' Hd Hxk) as (own' & Hd' & Hg & Hx' & Hnew & Hfill); [|done|].
    { intros -> n (off & rest & ->). cbn in Hw. by rewrite Hk in Hw. }
    exists own'. split; cbn; [done| |].
    + apply Forall_insert; [|done]. eapply Forall_impl; [exact Hx|]. intros y. by apply rexec_ok_grows.
    + intros n Hcalm Hn.
      assert (x' ∈ <[k:=x']> (r_execs st)) as Hin'
        by (apply (list_elem_of_lookup_2 _ k), list_lookup_insert_eq; by eapply lookup_lt_Some).
      destruct (Hnew n Hn) as [Ho|Hw']; [|right; by exists x'].
      destruct (Hf n Hcalm Ho) as [Hfu|(y & [k' Hy]%list_elem_of_lookup_1 & Hyf)]; [left; by eapply full_grows|].
      destruct (decide (k' = k)) as [->|Hne].
      * rewrite Hk in Hy. injection Hy as <-. destruct (Hfill n Hyf) as [?|?]; [right; by exists x'|by left].
      * right. exists y. split; [|done]. apply (list_elem_of_lookup_2 _ k'). by rewrite list_lookup_insert_ne.
  - injection Hs as <-. exists own. split; cbn; [done|by apply Forall_delete|]. intros n Hcalm. by specialize (Hc Hcalm).
Qed.

Lemma rr_run_ok calm acts st own st' :
  rinv calm st own → good_run calm st acts = true → rr_run st acts = Done st' → ∃ own', rinv calm st' own'.
Proof.
  revert st own. induction acts as [|a acts IH]; intros st own Hi Hg Hr; cbn in Hr.
  { injection Hr as <-. eauto. }
  cbn in Hg. apply andb_true_iff in Hg as [[Hw%negb_true_iff Hc%negb_true_iff]%andb_true_iff Hg].
  go_inv Hr. rewrite E in Hg. edestruct (rr_step_ok calm st own a) as [own' Hi']; [done..|by intros ->|exact E|].
  eapply IH; eauto.
Qed.

(** ** The theorem *)

(** What one execution alone leaves, when nothing fails. *)
Lemma performReduce_alone :
  f !! temp_out_name index = None →
  match read splite with
  | Some _ => ∃ f', performReduce sortKV no_failures reducef splite index f = (f', true) ∧
      f' !! out_name index = Some (concat_str lines)
  | None => performReduce sortKV no_failures reducef splite index f = (f, false)
  end.
Proof.
  intros Ht. unfold performReduce, lines. destruct (read splite) as [kva|]; [|done].
  cbn [no_failures fails_open fails_write fails_rename]. eexists. split; [done|].
  unfold remove_all. cbn [foldr]. rewrite lookup_delete_ne by done. rewrite lookup_insert_eq, lookup_insert_eq.
  rewrite Ht. cbn [default]. f_equal. apply write_over_empty.
Qed.

End reduce.
