(* ===== verification/MRConcurrentExamples.v ===== *)
(** * Executions of one task by several workers *)

From S2P Require Import Prelude MapReduce MapReduceCorrect MapReduceExamples MapReduceApps MRConcurrent MRConcurrentReduce.

#[local] Existing Instance kv_codec.
#[local] Existing Instance kv_json.

Definition pair1 : KeyValue := mkKV "be" "1".
Definition pair2 : KeyValue := mkKV "not" "1".
Definition no_files : disk := mkDisk ∅ [].

(** The first worker opens the temporary file and is slow.  A second one opens
    the same file, fills it, renames it and crashes.  A third one opens a new
    temporary file and writes the first pair.  The first one writes its pairs
    to the file it has open, and renames the temporary file of the third. *)
Definition torn : list mact :=
  [MBegin; MCall 0 false] ++ (MBegin :: replicate 5 (MCall 1 false)) ++ [MCrash 1] ++
  (MBegin :: replicate 2 (MCall 1 false)) ++ replicate 7 (MCall 0 false) ++ [MCrash 1].
Definition torn_end : mstate :=
  match mr_run 0 [[pair1; pair2]] (mkMState no_files []) torn with Done st => st | _ => mkMState no_files [] end.

(** The first worker reports success, with one of the two pairs in the file. *)
Lemma map_output_torn :
  (fun st => (x_pc <$> m_execs st, decode_all <$> content (m_disk st) (inter_name 0 0))) <$>
    mr_run 0 [[pair1; pair2]] (mkMState no_files []) torn
  = Done ([EReturned true], Some [pair1]).
Proof. vm_compute. reflexivity. Qed.


(** ** A reduce task *)

(** One intermediate file with two words. *)
Definition reduce_disk : disk :=
  mkDisk {[ inter_name 0 0 := 0 ]} [encode pair1 ++ encode pair2].
Definition reduce_files : fs := {[ inter_name 0 0 := json_encode pair1 +:+ json_encode pair2 ]}.

Notation rrun := (rr_run (fun l => l) wc_Reduce 1 0).

(** The first worker opens the temporary file and is slow; the second one
    fills it and renames it; the third one opens a new temporary file and
    writes its first line, and the first one renames that file.  It reports
    success while the file it has published is still being written. *)
Definition reduce_torn : list ract :=
  (RBegin :: replicate 3 (RCall 0 false)) ++ (RBegin :: replicate 7 (RCall 1 false)) ++
  (RBegin :: replicate 4 (RCall 2 false)) ++ replicate 5 (RCall 0 false).

Lemma reduce_output_torn :
  (fun st => (r_execs st !! 0, content (r_disk st) (out_name 0))) <$> rrun (mkRState reduce_disk []) reduce_torn
  = Done (Some (RReturned true), Some ("be 1" +:+ newline)).
Proof. vm_compute. reflexivity. Qed.

(** The others go on and return: then the output is complete. *)
Definition reduce_calm : list ract := reduce_torn ++ RCall 1 false :: replicate 4 (RCall 2 false).
Definition reduce_end : rstate :=
  match rrun (mkRState reduce_disk []) reduce_calm with Done st => st | _ => mkRState reduce_disk [] end.

