(* ===== verification/Labrpc.v ===== *)
(** * The simulated network ([labs/src/labrpc/labrpc.go])

    Client ends, servers and the network between them.  A [Call] becomes a
    request that the network processes in steps: look up the server, run the
    handler (in a goroutine of its own), notice that the server is gone,
    decide on the outcome, deliver it.  The random choices of the network and
    the timing are the choices of the steps; [log.Fatalf] is [Panic].

    [E] and [N] are the names of ends and of servers, [St] the state on which
    the handlers of the services act.  A [*Server] is an index into the list
    of servers that were made, so that two servers with the same name are told
    apart, as pointers do. *)

From S2P Require Import Prelude Gob.
Local Open Scope Z_scope.

Section labrpc.
Context {E N St : Type} `{Countable E, Countable N}.

(** ** Services and servers *)

(** A method that [MakeService] found suitable: it takes an argument and a
    pointer to the reply. *)
Record Method := mkMethod {
  m_args : Type;
  m_reply : Type;
  m_args_codec : GobCodec m_args;
  m_reply_codec : GobCodec m_reply;
  m_zero : m_args;
  m_func : St → m_args → St * m_reply;
}.

Record Service := mkService { svc_name : string; svc_methods : list (string * Method) }.
Record Server := mkSrv { services : list (string * Service); srv_count : Z }.

(** The latest binding of [k] in an association list. *)
Fixpoint assoc {A} (k : string) (l : list (string * A)) : option A :=
  match l with
  | [] => None
  | (k', x) :: l => if bool_decide (k = k') then Some x else assoc k l
  end.

(** What [reflect] tells of a method of the receiver. *)
Record reflected := mkReflected {
  rf_Name : string;
  rf_PkgPath : string;
  rf_NumIn : Z;
  rf_In2_ptr : bool;
  rf_NumOut : Z;
  rf_Func : Method;
}.

(** [MakeService] keeps the exported methods of two arguments, the second of
    them a pointer, and no result. *)
Definition MakeService (name : string) (typ : list reflected) : Service :=
  mkService name
    (foldl (fun methods m =>
       if negb (bool_decide (rf_PkgPath m = "")) || negb (bool_decide (rf_NumIn m = 3)) ||
          negb (rf_In2_ptr m) || negb (bool_decide (rf_NumOut m = 0))
       then methods else (rf_Name m, rf_Func m) :: methods) [] typ).

Definition MakeServer : Server := mkSrv [] 0.
Definition AddService (rs : Server) (svc : Service) : Server :=
  mkSrv ((svc_name svc, svc) :: services rs) (srv_count rs).
Definition Server_GetCount (rs : Server) : Z := srv_count rs.

(** [strings.LastIndex(s, ".")], and the parts before and after it. *)
Fixpoint split_dot (s : string) : option (string * string) :=
  match s with
  | EmptyString => None
  | String c s' =>
      match split_dot s' with
      | Some (a, b) => Some (String c a, b)
      | None => if bool_decide (Ascii.nat_of_ascii c = 46%nat) then Some (EmptyString, s') else None
      end
  end.

(** The reply of a handler, encoded, and the state it leaves. *)
Definition Service_dispatch (svc : Service) (methname : string) (args : bytes) (st : St)
    : go (St * bytes) :=
  match assoc methname (svc_methods svc) with
  | Some m =>
      let a := match @gob_decode _ (m_args_codec m) args with
               | (Some a, _) => a
               | (None, _) => m_zero m
               end in
      let '(st', r) := m_func m st a in
      Done (st', @gob_encode _ (m_reply_codec m) r)
  | None => Panic
  end.

Definition Server_dispatch (rs : Server) (svcMeth : string) (args : bytes) (st : St)
    : go (Server * St * bytes) :=
  let rs := mkSrv (services rs) (srv_count rs + 1) in
  match split_dot svcMeth with
  | None => Panic
  | Some (serviceName, methodName) =>
      match assoc serviceName (services rs) with
      | Some service =>
          '(st', r) ← Service_dispatch service methodName args st; Done (rs, st', r)
      | None => Panic
      end
  end.

(** ** The network *)

Record Network := mkNetwork {
  reliable : bool;
  longDelays : bool;
  longReordering : bool;
  ends : gset E;
  enabled : gmap E bool;
  servers : gmap N (option nat);
  connections : gmap E (option N);
  closed : bool;
  net_count : Z;
  net_bytes : Z;
}.

Definition MakeNetwork : Network := mkNetwork true false false ∅ ∅ ∅ ∅ false 0 0.

Definition Cleanup (rn : Network) : go Network :=
  if closed rn then Panic
  else Done (mkNetwork (reliable rn) (longDelays rn) (longReordering rn) (ends rn) (enabled rn)
         (servers rn) (connections rn) true (net_count rn) (net_bytes rn)).
Definition Reliable (rn : Network) (yes : bool) : Network :=
  mkNetwork yes (longDelays rn) (longReordering rn) (ends rn) (enabled rn) (servers rn)
    (connections rn) (closed rn) (net_count rn) (net_bytes rn).
Definition LongReordering (rn : Network) (yes : bool) : Network :=
  mkNetwork (reliable rn) (longDelays rn) yes (ends rn) (enabled rn) (servers rn)
    (connections rn) (closed rn) (net_count rn) (net_bytes rn).
Definition LongDelays (rn : Network) (yes : bool) : Network :=
  mkNetwork (reliable rn) yes (longReordering rn) (ends rn) (enabled rn) (servers rn)
    (connections rn) (closed rn) (net_count rn) (net_bytes rn).
Definition MakeEnd (rn : Network) (endname : E) : go Network :=
  if bool_decide (endname ∈ ends rn) then Panic
  else Done (mkNetwork (reliable rn) (longDelays rn) (longReordering rn) ({[endname]} ∪ ends rn)
         (<[endname := false]> (enabled rn)) (servers rn) (<[endname := None]> (connections rn))
         (closed rn) (net_count rn) (net_bytes rn)).
Definition AddServer (rn : Network) (servername : N) (rs : nat) : Network :=
  mkNetwork (reliable rn) (longDelays rn) (longReordering rn) (ends rn) (enabled rn)
    (<[servername := Some rs]> (servers rn)) (connections rn) (closed rn) (net_count rn) (net_bytes rn).
Definition DeleteServer (rn : Network) (servername : N) : Network :=
  mkNetwork (reliable rn) (longDelays rn) (longReordering rn) (ends rn) (enabled rn)
    (<[servername := None]> (servers rn)) (connections rn) (closed rn) (net_count rn) (net_bytes rn).
Definition Connect (rn : Network) (endname : E) (servername : N) : Network :=
  mkNetwork (reliable rn) (longDelays rn) (longReordering rn) (ends rn) (enabled rn) (servers rn)
    (<[endname := Some servername]> (connections rn)) (closed rn) (net_count rn) (net_bytes rn).
Definition Enable (rn : Network) (endname : E) (b : bool) : Network :=
  mkNetwork (reliable rn) (longDelays rn) (longReordering rn) (ends rn)
    (<[endname := b]> (enabled rn)) (servers rn) (connections rn) (closed rn) (net_count rn) (net_bytes rn).
Definition add_traffic (rn : Network) (calls nbytes : Z) : Network :=
  mkNetwork (reliable rn) (longDelays rn) (longReordering rn) (ends rn) (enabled rn) (servers rn)
    (connections rn) (closed rn) (net_count rn + calls) (net_bytes rn + nbytes).
(** [GetCount]: a server that is not there is a [nil] dereference. *)
Definition GetCount (rn : Network) (ms : list Server) (servername : N) : go Z :=
  match mjoin (servers rn !! servername) ≫= (fun i => ms !! i) with
  | Some svr => Done (Server_GetCount svr)
  | None => Panic
  end.
Definition GetTotalCount (rn : Network) : Z := net_count rn.
Definition GetTotalBytes (rn : Network) : Z := net_bytes rn.

(** Whether the end is enabled, and its server. *)
Definition readEndnameInfo (rn : Network) (endname : E) : bool * option N * option nat * bool * bool :=
  let en := default false (enabled rn !! endname) in
  let servername := default None (connections rn !! endname) in
  let server := match servername with
                | Some sn => default None (servers rn !! sn)
                | None => None
                end in
  (en, servername, server, reliable rn, longReordering rn).

Definition isServerDead (rn : Network) (endname : E) (servername : N) (server : nat) : bool :=
  bool_decide (default false (enabled rn !! endname) = false) ||
  bool_decide (default None (servers rn !! servername) ≠ Some server).

(** ** Requests *)

(** What [processReq] knows of a request. *)
Record request := mkRequest {
  endname : E;
  svcMeth : string;
  args : bytes;
  (** Server name, server, [reliable] and [longreordering] as read at the start. *)
  info : option (N * nat * bool * bool);
  (** The state in which the handler ran, and its encoded reply. *)
  ran : option (St * bytes);
  (** How often the handler was called. *)
  runs : nat;
  (** [processReq] has decided what to send on [replyCh]. *)
  decided : option (option bytes);
  (** The message on [replyCh]: [None] is [replyMsg{false, nil}]. *)
  reply : option (option bytes);
}.

Definition set_info (i : N * nat * bool * bool) (r : request) : request :=
  mkRequest (endname r) (svcMeth r) (args r) (Some i) (ran r) (runs r) (decided r) (reply r).
Definition set_ran (x : St * bytes) (r : request) : request :=
  mkRequest (endname r) (svcMeth r) (args r) (info r) (Some x) (S (runs r)) (decided r) (reply r).
Definition decide_reply (d : option bytes) (r : request) : request :=
  mkRequest (endname r) (svcMeth r) (args r) (info r) (ran r) (runs r) (Some d) (reply r).
Definition set_reply (d : option bytes) (r : request) : request :=
  mkRequest (endname r) (svcMeth r) (args r) (info r) (ran r) (runs r) (decided r) (Some d).

Record world := mkWorld {
  network : Network; machines : list Server; app : St; requests : list request }.

Definition set_request (w : world) (k : nat) (r : request) : world :=
  mkWorld (network w) (machines w) (app w) (<[k := r]> (requests w)).

(** The steps. *)
Inductive wact :=
| WCall (endname : E) (svcMeth : string) (args : bytes) (sel : bool)
| WStart (k : nat) (drop : bool)
| WHandler (k : nat)
| WTimeout (k : nat)
| WFinish (k : nat) (drop : bool)
| WDeliver (k : nat)
| WAdmin (f : Network → go Network)
| WApp (st : St).

(** [Call] hands the request to the network.  Once the network is cleaned up,
    [sel] says which of the two ready cases of the [select] is taken. *)
Definition Call (w : world) (e : E) (meth : string) (args : bytes) (sel : bool) : world :=
  if closed (network w) && sel then
    mkWorld (network w) (machines w) (app w)
      (requests w ++ [mkRequest e meth args None None 0 (Some None) (Some None)])
  else
    mkWorld (add_traffic (network w) 1 (zlen args)) (machines w) (app w)
      (requests w ++ [mkRequest e meth args None None 0 None None]).

(** What [Call] does with the message on [replyCh]: [None] is [false], and a
    reply that does not decode is fatal. *)
Definition Call_return {A} `{!GobCodec A} (rep : option bytes) : go (option A) :=
  match rep with
  | Some b => match fst (gob_decode b) with Some x => Done (Some x) | None => Panic end
  | None => Done None
  end.

(** The start of [processReq]; [drop] is the outcome of the random choice. *)
Definition processReq_start (rn : Network) (r : request) (drop : bool) : request :=
  match readEndnameInfo rn (endname r) with
  | (true, Some servername, Some server, rel, longr) =>
      if negb rel && drop then decide_reply None r
      else set_info (servername, server, rel, longr) r
  | _ => decide_reply None r
  end.

(** The 100 ms timeout of the loop that waits for the handler. *)
Definition processReq_timeout (rn : Network) (r : request) : request :=
  match info r with
  | Some (servername, server, _, _) =>
      if isServerDead rn (endname r) servername server then decide_reply None r else r
  | None => r
  end.

(** The handler has returned: what to send. *)
Definition processReq_finish (rn : Network) (r : request) (drop : bool) : request :=
  match info r, ran r with
  | Some (servername, server, rel, _), Some (_, b) =>
      if isServerDead rn (endname r) servername server then decide_reply None r
      else if negb rel && drop then decide_reply None r
      else decide_reply (Some b) r
  | _, _ => r
  end.

Definition wstep (w : world) (a : wact) : go world :=
  match a with
  | WCall e meth args sel => Done (Call w e meth args sel)
  | WStart k drop =>
      match requests w !! k with
      | Some r =>
          match info r, decided r with
          | None, None => Done (set_request w k (processReq_start (network w) r drop))
          | _, _ => Stuck
          end
      | None => Stuck
      end
  | WHandler k =>
      match requests w !! k with
      | Some r =>
          match info r, ran r with
          | Some (_, server, _, _), None =>
              match machines w !! server with
              | Some rs =>
                  '(rs', st', b) ← Server_dispatch rs (svcMeth r) (args r) (app w);
                  Done (mkWorld (network w) (<[server := rs']> (machines w)) st'
                          (<[k := set_ran (app w, b) r]> (requests w)))
              | None => Stuck
              end
          | _, _ => Stuck
          end
      | None => Stuck
      end
  | WTimeout k =>
      match requests w !! k with
      | Some r => match decided r with
                  | None => Done (set_request w k (processReq_timeout (network w) r))
                  | Some _ => Stuck
                  end
      | None => Stuck
      end
  | WFinish k drop =>
      match requests w !! k with
      | Some r => match decided r with
                  | None => Done (set_request w k (processReq_finish (network w) r drop))
                  | Some _ => Stuck
                  end
      | None => Stuck
      end
  | WDeliver k =>
      match requests w !! k with
      | Some r =>
          match decided r, reply r with
          | Some d, None =>
              Done (mkWorld (add_traffic (network w) 0 (zlen (default [] d))) (machines w) (app w)
                      (<[k := set_reply d r]> (requests w)))
          | _, _ => Stuck
          end
      | None => Stuck
      end
  | WAdmin f => rn ← f (network w); Done (mkWorld rn (machines w) (app w) (requests w))
  | WApp st => Done (mkWorld (network w) (machines w) st (requests w))
  end.

Fixpoint wrun (w : world) (acts : list wact) : go world :=
  match acts with
  | [] => Done w
  | a :: acts => w' ← wstep w a; wrun w' acts
  end.

Definition winit (ms : list Server) (st : St) : world := mkWorld MakeNetwork ms st [].

(** ** Guarantees *)

(** The services of a server never change once the network uses it. *)
Definition services_of (w : world) (server : nat) : list (string * Service) :=
  match machines w !! server with Some rs => services rs | None => [] end.

(** The handler ran on server [server] of [svcs], on the request's arguments. *)
Definition handler_ran (svcs : nat → list (string * Service)) (r : request) (st : St) (b : bytes) : Prop :=
  ∃ sn server rel longr sname mname service st',
    info r = Some (sn, server, rel, longr) ∧ split_dot (svcMeth r) = Some (sname, mname) ∧
    assoc sname (svcs server) = Some service ∧
    Service_dispatch service mname (args r) st = Done (st', b).

Record req_ok (svcs : nat → list (string * Service)) (r : request) : Prop := {
  rq_runs : runs r = match ran r with Some _ => 1%nat | None => 0%nat end;
  rq_info : ran r ≠ None → info r ≠ None;
  rq_ran : ∀ st b, ran r = Some (st, b) → handler_ran svcs r st b;
  rq_dec : ∀ b, decided r = Some (Some b) → ∃ st, ran r = Some (st, b);
  rq_rep : ∀ d, reply r = Some d → decided r = Some d;
}.

Definition wok (svcs : nat → list (string * Service)) (w : world) : Prop :=
  (∀ server, services_of w server = svcs server) ∧ Forall (req_ok svcs) (requests w).

Lemma start_ok svcs rn r drop :
  req_ok svcs r → info r = None → decided r = None → req_ok svcs (processReq_start rn r drop).
Proof.
  intros [Hr Hi Hran Hd Hp] Ei Ed.
  assert (ran r = None) as En by (destruct (ran r); [exfalso; by apply Hi|done]).
  assert (reply r = None) as Er by (destruct (reply r) as [d|]; [specialize (Hp d eq_refl); congruence|done]).
  assert (req_ok svcs (decide_reply None r)) as Hnone.
  { split; cbn; rewrite ?En, ?Er in *; try done. }
  unfold processReq_start. destruct (readEndnameInfo rn (endname r)) as [[[[en sn] sv] rel] longr].
  destruct en, sn as [sn|], sv as [sv|]; try done. destruct (negb rel && drop); [done|].
  split; cbn; rewrite ?En, ?Ed, ?Er in *; done.
Qed.

Lemma decide_none_ok svcs r : req_ok svcs r → decided r = None → req_ok svcs (decide_reply None r).
Proof.
  intros [Hr Hi Hran Hd Hp] Ed. split; cbn; try done.
  intros d Hd'. specialize (Hp d Hd'). congruence.
Qed.

Lemma decide_some_ok svcs r st b :
  req_ok svcs r → decided r = None → ran r = Some (st, b) → req_ok svcs (decide_reply (Some b) r).
Proof.
  intros [Hr Hi Hran Hd Hp] Ed En. split; cbn; try done.
  - intros b' [= <-]. eauto.
  - intros d Hd'. specialize (Hp d Hd'). congruence.
Qed.

Lemma wstep_ok svcs w a w' : wok svcs w → wstep w a = Done w' → wok svcs w'.
Proof.
  intros [Hs Hr] H'. destruct a; cbn [wstep] in H'.
  - injection H' as <-. unfold Call. destruct (closed (network w) && sel); (split; [done|]);
      apply Forall_app_2; try done; (constructor; [|constructor]); split; cbn; try done.
  - destruct (requests w !! k) as [r|] eqn:Ek; [|done].
    destruct (info r) eqn:Ei; [done|]. destruct (decided r) eqn:Ed; [done|]. injection H' as <-.
    split; [done|]. apply Forall_insert; [done|]. apply start_ok; [|done|done].
    rewrite Forall_lookup in Hr. eauto.
  - destruct (requests w !! k) as [r|] eqn:Ek; [|done].
    destruct (info r) as [[[[sn server] rel] longr]|] eqn:Ei; [|done].
    destruct (ran r) eqn:En; [done|]. destruct (machines w !! server) as [rs|] eqn:Em; [|done].
    go_cases H'. subst w'. unfold Server_dispatch in E0. go_cases E0.
    destruct (split_dot (svcMeth r)) as [[sname mname]|] eqn:Esp; [|done]. go_cases E0. simplify_eq.
    cbn in *. assert (services_of w server = services rs) as Hsv by (unfold services_of; by rewrite Em).
    split.
    + intros server'. unfold services_of in *. cbn. rewrite <- Hs. unfold services_of.
      destruct (decide (server' = server)) as [->|Hne].
      * rewrite list_lookup_insert_eq by eauto with go_lists. by rewrite Em.
      * by rewrite list_lookup_insert_ne.
    + apply Forall_insert; [done|]. rewrite Forall_lookup in Hr. specialize (Hr _ _ Ek).
      destruct Hr as [Hruns Hi Hran Hd Hp]. split; cbn.
      * rewrite Hruns, En. done.
      * congruence.
      * intros st b' [= <- <-]. eexists _, _, _, _, _, _, _, _. cbn.
        rewrite <- (Hs server), Hsv. done.
      * intros b' Hb'. destruct (Hd b' Hb') as [st ?]. congruence.
      * done.
  - destruct (requests w !! k) as [r|] eqn:Ek; [|done]. destruct (decided r) eqn:Ed; [done|].
    injection H' as <-. split; [done|]. apply Forall_insert; [done|].
    rewrite Forall_lookup in Hr. specialize (Hr _ _ Ek). unfold processReq_timeout.
    destruct (info r) as [[[[sn server] rel] longr]|]; [|done].
    destruct (isServerDead _ _ _ _); [by apply decide_none_ok|done].
  - destruct (requests w !! k) as [r|] eqn:Ek; [|done]. destruct (decided r) eqn:Ed; [done|].
    injection H' as <-. split; [done|]. apply Forall_insert; [done|].
    rewrite Forall_lookup in Hr. specialize (Hr _ _ Ek). unfold processReq_finish.
    destruct (info r) as [[[[sn server] rel] longr]|]; [|done].
    destruct (ran r) as [[st b]|] eqn:En; [|done].
    destruct (isServerDead _ _ _ _); [by apply decide_none_ok|].
    destruct (negb rel && drop); [by apply decide_none_ok|by eapply decide_some_ok].
  - destruct (requests w !! k) as [r|] eqn:Ek; [|done].
    destruct (decided r) as [d|] eqn:Ed; [|done]. destruct (reply r) eqn:Er; [done|].
    injection H' as <-. split; [done|]. apply Forall_insert; [done|].
    rewrite Forall_lookup in Hr. specialize (Hr _ _ Ek). destruct Hr as [Hruns Hi Hran Hd Hp].
    split; cbn; try done. intros d' [= <-]. done.
  - go_cases H'. subst. by split.
  - injection H' as <-. by split.
Qed.

Lemma wrun_ok svcs w acts w' : wok svcs w → wrun w acts = Done w' → wok svcs w'.
Proof.
  revert w. induction acts as [|a acts IH]; intros w Hw H'; cbn [wrun] in H'; [by injection H' as <-|].
  go_inv H'. eapply IH; [by eapply wstep_ok|done].
Qed.

(** C29: whatever the network does (losses, delays, servers that come and go,
    ends enabled and disabled), the handler of a request runs at most once,
    and a [Call] that reports success got the reply that the handler computed
    from the request's own arguments, in the state in which it ran; if the
    handler never ran, the [Call] failed. *)
Theorem call_at_most_once ms st acts w k r :
  wrun (winit ms st) acts = Done w → requests w !! k = Some r →
  (runs r ≤ 1)%nat ∧
  ∀ b, reply r = Some (Some b) → runs r = 1%nat ∧
    ∃ st', ran r = Some (st', b) ∧ handler_ran (services_of (winit ms st)) r st' b.
Proof.
  intros H' Hk. apply (wrun_ok (services_of (winit ms st))) in H'; [|by split].
  destruct H' as [_ Hf]. rewrite Forall_lookup in Hf. destruct (Hf _ _ Hk) as [Hruns Hi Hran Hd Hp].
  split; [destruct (ran r); lia|]. intros b Hb. destruct (Hd b (Hp _ Hb)) as [st' Hst'].
  rewrite Hst' in Hruns. split; [done|]. exists st'. split; [done|]. by apply Hran.
Qed.

(** A request that was given up before its server was looked up. *)
Definition given_up (r : request) : Prop :=
  info r = None ∧ decided r = Some None ∧ (reply r = None ∨ reply r = Some None).

Lemma given_up_step w a w' k r :
  requests w !! k = Some r → given_up r → wstep w a = Done w' →
  ∃ r', requests w' !! k = Some r' ∧ given_up r' ∧ runs r' = runs r.
Proof.
  intros Hk (Hi & Hd & Hr) H'.
  assert (∀ k' x x', requests w !! k' = Some x' → (k' = k → given_up x ∧ runs x = runs r) →
    ∃ r', <[k' := x]> (requests w) !! k = Some r' ∧ given_up r' ∧ runs r' = runs r) as Hins.
  { intros k' x x' Hk' Hx. destruct (decide (k' = k)) as [->|Hne].
    - rewrite list_lookup_insert_eq by eauto with go_lists. exists x. by destruct (Hx eq_refl).
    - rewrite list_lookup_insert_ne by done. exists r. done. }
  destruct a; cbn [wstep] in H'.
  - injection H' as <-. exists r. split; [|done].
    unfold Call. destruct (_ && _); cbn; by apply lookup_app_l_Some.
  - destruct (requests w !! k0) as [x|] eqn:Ex; [|done]. destruct (info x) eqn:?; [done|].
    destruct (decided x) eqn:?; [done|]. injection H' as <-. eapply Hins; [exact Ex|]. intros ->. congruence.
  - destruct (requests w !! k0) as [x|] eqn:Ex; [|done].
    destruct (info x) as [[[[? server] ?] ?]|] eqn:?; [|done]. destruct (ran x); [done|].
    destruct (machines w !! server); [|done]. go_cases H'. subst. eapply Hins; [exact Ex|].
    intros ->. congruence.
  - destruct (requests w !! k0) as [x|] eqn:Ex; [|done]. destruct (decided x) eqn:?; [done|].
    injection H' as <-. eapply Hins; [exact Ex|]. intros ->. congruence.
  - destruct (requests w !! k0) as [x|] eqn:Ex; [|done]. destruct (decided x) eqn:?; [done|].
    injection H' as <-. eapply Hins; [exact Ex|]. intros ->. congruence.
  - destruct (requests w !! k0) as [x|] eqn:Ex; [|done]. destruct (decided x) as [d|] eqn:Ed; [|done].
    destruct (reply x); [done|]. injection H' as <-. eapply Hins; [exact Ex|]. intros ->.
    rewrite Hk in Ex. injection Ex as <-. rewrite Hd in Ed. injection Ed as <-.
    split; [|done]. split; [done|]. split; [done|]. by right.
  - go_cases H'. subst. by exists r.
  - injection H' as <-. by exists r.
Qed.

Lemma given_up_run w acts w' k r :
  requests w !! k = Some r → given_up r → wrun w acts = Done w' →
  ∃ r', requests w' !! k = Some r' ∧ given_up r' ∧ runs r' = runs r.
Proof.
  revert w r. induction acts as [|a acts IH]; intros w r Hk Hg H'; cbn [wrun] in H'.
  { injection H' as <-. by exists r. }
  go_inv H'. destruct (given_up_step _ _ _ _ _ Hk Hg E0) as (r1 & Hk1 & Hg1 & <-). by eapply IH.
Qed.

(** A request from an end that is not enabled, not connected, or
    connected to a server that is not there when the network looks at it
    fails, whatever happens later: no handler ever runs for it, and its [Call]
    can only report failure. *)
Theorem call_unreachable w k r drop acts w1 w2 :
  requests w !! k = Some r → info r = None → reply r = None →
  (let '(en, sn, sv, _, _) := readEndnameInfo (network w) (endname r) in
   en = false ∨ sn = None ∨ sv = None) →
  wstep w (WStart k drop) = Done w1 → wrun w1 acts = Done w2 →
  ∃ r2, requests w2 !! k = Some r2 ∧ runs r2 = runs r ∧ decided r2 = Some None ∧
    (reply r2 = None ∨ reply r2 = Some None).
Proof.
  intros Hk Hi Hr Hu H1 H2. cbn [wstep] in H1. rewrite Hk, Hi in H1.
  destruct (decided r) eqn:Ed; [done|]. injection H1 as <-.
  assert (processReq_start (network w) r drop = decide_reply None r) as Hs.
  { unfold processReq_start. destruct (readEndnameInfo _ _) as [[[[en sn] sv] rel] longr].
    destruct en, sn, sv; try done. naive_solver. }
  destruct (given_up_run (set_request w k (processReq_start (network w) r drop)) acts w2 k
    (decide_reply None r)) as (r2 & Hk2 & (_ & Hd2 & Hr2) & Hruns).
  { rewrite Hs. apply list_lookup_insert_eq. eauto with go_lists. }
  { split; [done|]. split; [done|]. left. exact Hr. }
  { done. }
  exists r2. split; [done|]. split; [exact Hruns|]. by split.
Qed.

(** What a reliable network does with a request that reaches a server. *)
Definition whole_call (e : E) (meth : string) (args : bytes) (k : nat) (drop drop' sel : bool) : list wact :=
  [WCall e meth args sel; WStart k drop; WHandler k; WFinish k drop'; WDeliver k].

(** A server that can be reached is not dead. *)
Lemma reachable_alive rn e sn server rel longr :
  readEndnameInfo rn e = (true, Some sn, Some server, rel, longr) → isServerDead rn e sn server = false.
Proof.
  unfold readEndnameInfo, isServerDead. intros [= He Hc Hs _ _]. rewrite He, Hc in *. cbn in Hs.
  by rewrite Hs, bool_decide_eq_false_2, bool_decide_eq_false_2 by naive_solver.
Qed.

Lemma readEndnameInfo_traffic rn calls nbytes e :
  readEndnameInfo (add_traffic rn calls nbytes) e = readEndnameInfo rn e.
Proof. done. Qed.
Lemma isServerDead_traffic rn calls nbytes e sn server :
  isServerDead (add_traffic rn calls nbytes) e sn server = isServerDead rn e sn server.
Proof. done. Qed.
Lemma lookup_last {A} (l : list A) x : (l ++ [x]) !! length l = Some x.
Proof. by apply list_lookup_middle. Qed.
Lemma insert_last {A} (l : list A) x y : <[length l := y]> (l ++ [x]) = l ++ [y].
Proof. rewrite insert_app_r_alt, Nat.sub_diag by lia. done. Qed.

(** Between an end that is enabled and connected and a server that is
    there, a reliable network makes a [Call] a call: whatever the random
    choices, the method runs once on the arguments as they were given, in the
    state the server has, and [Call] returns its reply. *)
Theorem call_reliable w e meth sname mname sn server longr rs service m (a : m_args m) drop drop' sel :
  closed (network w) = false →
  readEndnameInfo (network w) e = (true, Some sn, Some server, true, longr) →
  machines w !! server = Some rs →
  split_dot meth = Some (sname, mname) →
  assoc sname (services rs) = Some service → assoc mname (svc_methods service) = Some m →
  @Gob _ (m_args_codec m) → @Gob _ (m_reply_codec m) →
  ∃ w' r b,
    wrun w (whole_call e meth (@gob_encode _ (m_args_codec m) a) (length (requests w)) drop drop' sel) = Done w' ∧
    app w' = (m_func m (app w) a).1 ∧
    requests w' !! length (requests w) = Some r ∧ reply r = Some (Some b) ∧
    @Call_return _ (m_reply_codec m) (Some b) = Done (Some (m_func m (app w) a).2).
Proof.
  intros Hc Hi Hm Hs Hsv Hme Ga Gr. unfold whole_call. cbn [wrun wstep]. unfold Call. rewrite Hc. cbn [andb].
  go_simpl. cbn [requests]. rewrite lookup_last. cbn [info decided]. unfold processReq_start. cbn [network endname].
  rewrite readEndnameInfo_traffic, Hi. cbn [negb andb]. go_simpl. unfold set_request. cbn [requests network machines app].
  rewrite insert_last, lookup_last. cbn [info ran set_info]. rewrite Hm.
  unfold Server_dispatch. cbn [svcMeth args set_info]. rewrite Hs. cbn [services]. rewrite Hsv.
  unfold Service_dispatch. rewrite Hme. pose proof (@gob_roundtrip _ _ Ga a []) as Hrt. rewrite app_nil_r in Hrt.
  rewrite Hrt. destruct (m_func m (app w) a) as [st' res] eqn:Ef. go_simpl.
  cbn [requests]. rewrite insert_last, lookup_last. cbn [decided set_ran set_info]. unfold processReq_finish. cbn [info ran set_ran set_info endname network].
  rewrite isServerDead_traffic, (reachable_alive _ _ _ _ _ _ Hi). cbn [negb andb]. go_simpl.
  unfold set_request. cbn [requests network machines app]. go_simpl. cbn [requests network machines app]. rewrite insert_last, lookup_last.
  cbn [decided decide_reply reply set_ran set_info]. go_simpl. rewrite insert_last.
  eexists _, _, _. split; [reflexivity|]. split; [done|]. cbn [requests]. rewrite lookup_last.
  split; [reflexivity|]. split; [reflexivity|].
  unfold Call_return. pose proof (@gob_roundtrip _ _ Gr res []) as Hrt'. rewrite app_nil_r in Hrt'. by rewrite Hrt'.
Qed.

End labrpc.
