(* ===== verification/LabrpcExamples.v ===== *)
(** * Calls over a small network

    One server with one service, an accumulator, and one client end, set up
    the way [labs/src/labrpc/test_test.go] does. *)

From S2P Require Import Prelude Gob Labrpc.
Local Open Scope Z_scope.

(** [func (js *JunkServer) Add(args int, reply *int)]: adds to the state. *)
Definition junk_Add : @Method Z := mkMethod Z Z (countable_codec Z) (countable_codec Z) 0 (fun st a => (st + a, st + a)).
(** Methods that [MakeService] must pass over. *)
Definition junk_type : list (@reflected Z) :=
  [ mkReflected "reset" "labrpc" 3 true 0 junk_Add;
    mkReflected "Add" "" 3 true 0 junk_Add;
    mkReflected "Bad" "" 2 true 0 junk_Add ].
Definition junk_service : Service := MakeService "JunkServer" junk_type.
Definition junk_server : Server := AddService MakeServer junk_service.

Notation wact' := (@wact string string Z _ _ _ _).
Notation world' := (@world string string Z _ _ _ _).

(** The client end is connected to a server that runs, and enabled. *)
Definition setup : list wact' :=
  [ WAdmin (fun rn => MakeEnd rn "end1-99");
    WAdmin (fun rn => Done (AddServer rn "server99" 0%nat));
    WAdmin (fun rn => Done (Connect rn "end1-99" "server99"));
    WAdmin (fun rn => Done (Enable rn "end1-99" true)) ].

Definition add5 : bytes := @gob_encode _ (countable_codec Z) 5.
Definition run_of (acts : list wact') : world' :=
  match wrun (winit [junk_server] 100) acts with Done w => w | _ => winit [] 0 end.
Definition ready : world' := run_of setup.

(** A request whose reply the unreliable network drops, then one that gets
    through. *)
Definition two_calls : list wact' :=
  setup ++ WAdmin (fun rn => Done (Reliable rn false)) ::
  whole_call "end1-99" "JunkServer.Add" add5 0 false true false ++
  whole_call "end1-99" "JunkServer.Add" add5 1 false false false.

Lemma call_at_most_once_witness :
  runs <$> requests (run_of two_calls) = [1; 1]%nat ∧
  ∃ r, requests (run_of two_calls) !! 1%nat = Some r ∧ (runs r ≤ 1)%nat.
Proof.
  split; [vm_compute; reflexivity|].
  destruct (requests (run_of two_calls) !! 1%nat) as [r|] eqn:E; [|vm_compute in E; discriminate E].
  exists r. split; [reflexivity|].
  apply (call_at_most_once [junk_server] 100 two_calls (run_of two_calls) 1 r);
    [vm_compute; reflexivity|exact E].
Defined.

(** The end is disabled when the network looks at the request. *)
Definition cut_off : list wact' :=
  setup ++ [ WAdmin (fun rn => Done (Enable rn "end1-99" false));
             WCall "end1-99" "JunkServer.Add" add5 false ].
Definition cut_start : world' := match wstep (run_of cut_off) (WStart 0 false) with Done w => w | _ => winit [] 0 end.
Definition cut_end : world' :=
  match wrun cut_start [WAdmin (fun rn => Done (Enable rn "end1-99" true)); WDeliver 0] with
  | Done w => w | _ => winit [] 0 end.

Lemma call_unreachable_witness :
  ∃ r2, requests cut_end !! 0%nat = Some r2 ∧ runs r2 = 0%nat ∧ decided r2 = Some None ∧
    (reply r2 = None ∨ reply r2 = Some None).
Proof.
  destruct (requests (run_of cut_off) !! 0%nat) as [r|] eqn:E; [|vm_compute in E; discriminate E].
  assert (runs r = 0%nat) as Hr by (vm_compute in E; injection E as <-; reflexivity).
  destruct (call_unreachable (run_of cut_off) 0 r false
    [WAdmin (fun rn => Done (Enable rn "end1-99" true)); WDeliver 0] cut_start cut_end)
    as (r2 & H1 & H2 & H3); [| | | | | |exists r2; split; [exact H1|split; [congruence|exact H3]]].
  - exact E.
  - vm_compute in E. injection E as <-. reflexivity.
  - vm_compute in E. injection E as <-. reflexivity.
  - vm_compute in E. injection E as <-. left. reflexivity.
  - vm_compute. reflexivity.
  - vm_compute. reflexivity.
Defined.

Lemma call_reliable_witness :
  ∃ w' r b,
    wrun ready (whole_call "end1-99" "JunkServer.Add" add5 0 true true true) = Done w' ∧
    app w' = 105 ∧ requests w' !! 0%nat = Some r ∧ reply r = Some (Some b) ∧
    @Call_return Z (countable_codec Z) (Some b) = Done (Some 105).
Proof.
  apply (call_reliable ready "end1-99" "JunkServer.Add" "JunkServer" "Add" "server99" 0 false junk_server
    junk_service junk_Add 5 true true true).
  - vm_compute. reflexivity.
  - vm_compute. reflexivity.
  - vm_compute. reflexivity.
  - vm_compute. reflexivity.
  - reflexivity.
  - reflexivity.
  - exact (countable_gob Z).
  - exact (countable_gob Z).
Defined.
