(* ===== verification/Labgob.v ===== *)
(** * Checks around encoding ([labs/src/labgob/labgob.go])

    [labgob] wraps [encoding/gob] and counts the mistakes that make an RPC or
    a snapshot lose data: fields that start with a lower-case letter, and
    decoding into variables that are not zero.

    Go types may refer to themselves (a struct with a pointer to its own
    type), so a type is a name, and [env] says what it is made of. *)

From S2P Require Import Prelude.
Local Open Scope Z_scope.

(** ** Types *)

Notation tyname := nat (only parsing).

(** The kinds that [checkType] tells apart. *)
Inductive rkind :=
| KStruct (fields : list (string * tyname))
| KElem (elem : tyname) (* slice, array, pointer *)
| KMap (elem key : tyname)
| KOther.

Section types.
(** [unicode.IsUpper] of the first rune of a field name. *)
Context (isUpper : string → bool) (env : tyname → rkind).

(** The global variables [checked] and [errorCount]. *)
Record gstate := mkG { checked : gset nat; errorCount : Z }.

Definition count_error (b : bool) (g : gstate) : gstate :=
  if b then mkG (checked g) (errorCount g + 1) else g.

(** [None]: out of fuel. *)
Fixpoint checkType (fuel : nat) (t : tyname) (g : gstate) : option gstate :=
  match fuel with
  | O => None
  | S fuel =>
      if bool_decide (t ∈ checked g) then Some g
      else
        let g := mkG ({[t]} ∪ checked g) (errorCount g) in
        match env t with
        | KStruct fields =>
            foldl (fun og f => g ← og; checkType fuel f.2 (count_error (negb (isUpper f.1)) g))
              (Some g) fields
        | KElem e => checkType fuel e g
        | KMap e k => g ← checkType fuel e g; checkType fuel k g
        | KOther => Some g
        end
  end.

(** What a type is made of, and its lower-case fields. *)
Definition parts (t : tyname) : list tyname :=
  match env t with
  | KStruct fields => fields.*2
  | KElem e => [e]
  | KMap e k => [e; k]
  | KOther => []
  end.
Definition lower_fields (t : tyname) : Z :=
  match env t with
  | KStruct fields => zlen (filter (fun f => isUpper f.1 = false) fields)
  | _ => 0
  end.

Definition sum_lower (l : list tyname) : Z := foldr (fun t z => lower_fields t + z) 0 l.

Lemma sum_lower_app l l' : sum_lower (l ++ l') = sum_lower l + sum_lower l'.
Proof. induction l as [|t l IH]; cbn; [done|]. unfold sum_lower in *. rewrite IH. lia. Qed.

(** From [g] to [g'], the types [new] were visited for the first time, each
    once and with all its parts; [extra] errors were counted besides theirs. *)
Record visits (new : list tyname) (extra : Z) (g g' : gstate) : Prop := {
  vi_nodup : NoDup new;
  vi_fresh : ∀ x, x ∈ new → x ∉ checked g;
  vi_checked : checked g' = list_to_set new ∪ checked g;
  vi_errors : errorCount g' = errorCount g + sum_lower new + extra;
  vi_parts : ∀ x y, x ∈ new → y ∈ parts x → y ∈ checked g';
}.

Lemma visits_nil g : visits [] 0 g g.
Proof. split; [constructor|set_solver|set_solver|cbn; lia|set_solver]. Qed.

Lemma visits_trans new1 new2 e1 e2 g1 g2 g3 :
  visits new1 e1 g1 g2 → visits new2 e2 g2 g3 → visits (new1 ++ new2) (e1 + e2) g1 g3.
Proof.
  intros [H1 H2 H3 H4 H5] [J1 J2 J3 J4 J5]. split.
  - apply NoDup_app. split; [done|]. split; [|done]. intros x Hx Hx'. apply (J2 x Hx'). set_solver.
  - intros x [Hx|Hx]%elem_of_app; [by apply H2|]. specialize (J2 x Hx). set_solver.
  - rewrite J3, H3, list_to_set_app_L. set_solver.
  - rewrite J4, H4, sum_lower_app. lia.
  - intros x y [Hx|Hx]%elem_of_app Hy; [|by eapply J5]. specialize (H5 x y Hx Hy). set_solver.
Qed.

Lemma visits_error (b : bool) g : visits [] (if b then 1 else 0) g (count_error b g).
Proof.
  destruct b; [|apply visits_nil]. split; cbn; [constructor|set_solver|set_solver|lia|set_solver].
Qed.

Lemma foldl_none {A} (f : gstate → A → option gstate) l :
  foldl (fun og x => g ← og; f g x) None l = None.
Proof. induction l as [|x l IH]; [done|]. exact IH. Qed.

(** Visiting the fields of a struct. *)
Lemma fields_visits fuel fields g g' :
  (∀ t g g', checkType fuel t g = Some g' → ∃ new, visits new 0 g g' ∧ t ∈ checked g') →
  foldl (fun og f => g ← og; checkType fuel f.2 (count_error (negb (isUpper f.1)) g)) (Some g) fields = Some g' →
  ∃ new, visits new (zlen (filter (fun f => isUpper f.1 = false) fields)) g g' ∧
    ∀ f, f ∈ fields → f.2 ∈ checked g'.
Proof.
  intros IH. revert g. induction fields as [|[name ft] fields IHf]; intros g H.
  { injection H as <-. exists []. split; [apply visits_nil|set_solver]. }
  cbn [foldl mbind option_bind fst snd] in H.
  destruct (checkType fuel ft (count_error (negb (isUpper name)) g)) as [g1|] eqn:E1.
  2: { by rewrite foldl_none in H. }
  destruct (IH _ _ _ E1) as (new1 & Hv1 & Hin1). destruct (IHf g1 H) as (new2 & Hv2 & Hin2).
  exists (new1 ++ new2). split.
  - pose proof (visits_trans _ _ _ _ _ _ _ (visits_error (negb (isUpper name)) g)
      (visits_trans _ _ _ _ _ _ _ Hv1 Hv2)) as Hv. rewrite Z.add_0_l in Hv.
    assert (zlen (filter (fun f => isUpper f.1 = false) ((name, ft) :: fields)) =
      (if negb (isUpper name) then 1 else 0) + zlen (filter (fun f => isUpper f.1 = false) fields)) as ->; [|done].
    rewrite filter_cons. cbn [fst]. unfold zlen.
    destruct (isUpper name); [by rewrite decide_False|rewrite decide_True by done; cbn; lia].
  - intros f [->|Hf]%elem_of_cons; [|by apply Hin2]. cbn. destruct Hv2 as [_ _ -> _ _]. set_solver.
Qed.

Lemma checkType_visits fuel t g g' :
  checkType fuel t g = Some g' → ∃ new, visits new 0 g g' ∧ t ∈ checked g'.
Proof.
  revert t g g'. induction fuel as [|fuel IH]; intros t g g' H; [done|]. cbn [checkType] in H.
  case_bool_decide as Ht; [injection H as <-; exists []; split; [apply visits_nil|done]|].
  set (g0 := mkG ({[t]} ∪ checked g) (errorCount g)) in *.
  assert (∀ new e, visits new e g0 g' → (∀ y, y ∈ parts t → y ∈ checked g') → e = lower_fields t →
    ∃ new, visits new 0 g g' ∧ t ∈ checked g') as Hcons.
  { intros new e [H1 H2 H3 H4 H5] Hp He. exists (t :: new). cbn in *. split; [|rewrite H3; set_solver].
    split.
    - constructor; [|done]. intros Hx. specialize (H2 t Hx). set_solver.
    - intros x [->|Hx]%elem_of_cons; [done|]. specialize (H2 x Hx). set_solver.
    - rewrite H3. cbn. set_solver.
    - rewrite H4, He. cbn. unfold sum_lower. lia.
    - intros x y [->|Hx]%elem_of_cons; [by apply Hp|by apply H5]. }
  destruct (env t) as [fields|e|e k|] eqn:Ee.
  - destruct (fields_visits fuel fields g0 g' IH H) as (new & Hv & Hin).
    eapply Hcons; [exact Hv| |].
    + intros y. unfold parts. rewrite Ee. intros (f & -> & Hf)%list_elem_of_fmap. by apply Hin.
    + unfold lower_fields. by rewrite Ee.
  - destruct (IH _ _ _ H) as (new & Hv & Hin). eapply Hcons; [exact Hv| |].
    + intros y. unfold parts. rewrite Ee. by intros ->%list_elem_of_singleton.
    + unfold lower_fields. by rewrite Ee.
  - destruct (checkType fuel e g0) as [g1|] eqn:E1; [|done]. cbn in H.
    destruct (IH _ _ _ E1) as (new1 & Hv1 & Hin1). destruct (IH _ _ _ H) as (new2 & Hv2 & Hin2).
    eapply Hcons; [exact (visits_trans _ _ _ _ _ _ _ Hv1 Hv2)| |].
    + intros y. unfold parts. rewrite Ee. destruct Hv2 as [_ _ E2 _ _].
      intros [->|Hy]%elem_of_cons; [rewrite E2; set_solver|]. by apply list_elem_of_singleton in Hy as ->.
    + unfold lower_fields. by rewrite Ee.
  - injection H as <-. eapply (Hcons [] 0); [apply visits_nil| |].
    + intros y. unfold parts. rewrite Ee. set_solver.
    + unfold lower_fields. by rewrite Ee.
Qed.

(** The recursion ends: every call marks a type, and there are finitely many. *)
Lemma checkType_total (univ : gset nat) fuel t g :
  (∀ x y, x ∈ univ → y ∈ parts x → y ∈ univ) → t ∈ univ →
  (size (univ ∖ checked g) < fuel)%nat → ∃ g', checkType fuel t g = Some g'.
Proof.
  intros Hcl. revert t g. induction fuel as [|fuel IH]; intros t g Ht Hsz; [lia|]. cbn [checkType].
  case_bool_decide as Hc; [eauto|]. set (g0 := mkG ({[t]} ∪ checked g) (errorCount g)).
  assert (∀ g1, checked g0 ⊆ checked g1 → (size (univ ∖ checked g1) < fuel)%nat) as Hlt.
  { intros g1 Hsub. assert (size (univ ∖ checked g1) < size (univ ∖ checked g))%nat; [|lia].
    apply subset_size. cbn in Hsub. split; [set_solver|]. intros Hs. specialize (Hs t). set_solver. }
  assert (∀ f g1 g2, checkType fuel f g1 = Some g2 → checked g1 ⊆ checked g2) as Hmono.
  { intros f g1 g2 Hf. destruct (checkType_visits _ _ _ _ Hf) as (new & [_ _ -> _ _] & _). set_solver. }
  assert (∀ y, y ∈ parts t → y ∈ univ) as Hparts by (intros y; by apply (Hcl t y)).
  unfold parts in Hparts. destruct (env t) as [fields|e|e k|].
  - assert (∀ g1, checked g0 ⊆ checked g1 → ∃ g', foldl (fun og f => g ← og; checkType fuel f.2
      (count_error (negb (isUpper f.1)) g)) (Some g1) fields = Some g') as Hf; [|by apply Hf].
    induction fields as [|[name ft] fields IHf]; intros g1 Hsub; [by exists g1|].
    cbn [foldl mbind option_bind fst snd].
    destruct (IH ft (count_error (negb (isUpper name)) g1)) as [g2 Hg2].
    { apply Hparts. left. } { apply Hlt. by destruct (isUpper name). }
    rewrite Hg2. apply IHf; [intros y Hy; apply Hparts; by right|].
    pose proof (Hmono _ _ _ Hg2). destruct (isUpper name); cbn in *; set_solver.
  - apply IH; [apply Hparts; left|by apply Hlt].
  - destruct (IH e g0) as [g1 Hg1]; [apply Hparts; left|by apply Hlt|]. rewrite Hg1.
    apply IH; [apply Hparts; right; left|apply Hlt; by eapply Hmono].
  - eauto.
Qed.

(** C32: [checkType] terminates, also on types that refer to themselves.  It
    visits every type that the given one is made of, directly or not, that
    was not visited before, and each only once: the error counter grows by
    exactly the lower-case fields of the types it visits for the first time,
    and a second call adds nothing. *)
Theorem checkType_complains_once (univ : gset nat) t g :
  (∀ x y, x ∈ univ → y ∈ parts x → y ∈ univ) → t ∈ univ →
  ∃ g' new, checkType (S (size univ)) t g = Some g' ∧
    NoDup new ∧ (∀ x, x ∈ new → x ∉ checked g) ∧
    checked g' = list_to_set new ∪ checked g ∧ t ∈ checked g' ∧
    (∀ x y, x ∈ new → y ∈ parts x → y ∈ checked g') ∧
    errorCount g' = errorCount g + sum_lower new ∧
    checkType (S (size univ)) t g' = Some g'.
Proof.
  intros Hcl Ht. destruct (checkType_total univ (S (size univ)) t g Hcl Ht) as [g' Hg'].
  { assert (size (univ ∖ checked g) ≤ size univ)%nat by (apply subseteq_size; set_solver). lia. }
  destruct (checkType_visits _ _ _ _ Hg') as (new & [H1 H2 H3 H4 H5] & Hin).
  exists g', new. repeat (split; [done|]). split; [lia|]. cbn [checkType].
  by rewrite bool_decide_eq_true_2.
Qed.

End types.

(** ** Decoding into variables that are not zero *)

(** A value as [checkDefault1] sees it: a basic value is zero or not. *)
Inductive gval :=
| GStruct (fields : list (string * gval))
| GPtr (elem : option gval)
| GBasic (zero : bool)
| GOther.

(** The number of errors counted at this depth and below. *)
Fixpoint checkDefault1 (value : gval) (depth : Z) : Z :=
  if bool_decide (3 < depth) then 0
  else match value with
       | GStruct fields => foldr (fun f n => checkDefault1 f.2 (depth + 1) + n) 0 fields
       | GPtr None => 0
       | GPtr (Some v) => checkDefault1 v (depth + 1)
       | GBasic zero => if zero then 0 else 1
       | GOther => 0
       end.

(** [nil] is [None]. *)
Definition checkDefault (value : option gval) : Z :=
  match value with Some v => checkDefault1 v 1 | None => 0 end.

(** ** The wrappers: the checks, then [encoding/gob] *)

Section wrappers.
Context (isUpper : string → bool) (env : nat → rkind).
Context {B : Type} (gobEncode : B → gval → B) (gobDecode : B → B * option gval).

(** A value with its type. *)
Definition Encode (fuel : nat) (buf : B) (t : nat) (v : gval) (g : gstate) : option (gstate * B) :=
  g ← checkType isUpper env fuel t g; Some (g, gobEncode buf v).

Definition Decode (fuel : nat) (buf : B) (t : nat) (into : option gval) (g : gstate)
    : option (gstate * (B * option gval)) :=
  g ← checkType isUpper env fuel t g;
  Some (mkG (checked g) (errorCount g + checkDefault into), gobDecode buf).

(** [gob.RegisterName] on its registry, and the name that [gob.Register]
    gives a type. *)
Context {R : Type} (gobRegisterName : R → string → nat → go R) (gobName : nat → string).

Definition checkValue (fuel : nat) (t : nat) (g : gstate) : option gstate := checkType isUpper env fuel t g.

Definition Register (fuel : nat) (t : nat) (g : gstate) (r : R) : option (gstate * go R) :=
  g ← checkValue fuel t g; Some (g, gobRegisterName r (gobName t) t).

Definition RegisterName (fuel : nat) (name : string) (t : nat) (g : gstate) (r : R) : option (gstate * go R) :=
  g ← checkValue fuel t g; Some (g, gobRegisterName r name t).

(** Once a type is registered, under whatever name, encoding a value of it
    reports nothing, and decoding into one only what is not zero. *)
Theorem registered_type_is_quiet fuel fuel' name t g r g' r' buf v into :
  RegisterName fuel name t g r = Some (g', r') ∨ Register fuel t g r = Some (g', r') →
  Encode (S fuel') buf t v g' = Some (g', gobEncode buf v) ∧
  Decode (S fuel') buf t into g' = Some (mkG (checked g') (errorCount g' + checkDefault into), gobDecode buf).
Proof.
  intros H. assert (t ∈ checked g') as Ht.
  { unfold RegisterName, Register, checkValue in H.
    destruct (checkType isUpper env fuel t g) as [g1|] eqn:E; [|naive_solver].
    apply checkType_visits in E as (? & _ & ?). naive_solver. }
  unfold Encode, Decode. cbn [checkType]. by rewrite bool_decide_eq_true_2.
Qed.

End wrappers.

(** A basic value that is not zero, less than [n] levels down. *)
Inductive nonzero_within : gval → nat → Prop :=
| nonzero_basic n : nonzero_within (GBasic false) (S n)
| nonzero_ptr v n : nonzero_within v n → nonzero_within (GPtr (Some v)) (S n)
| nonzero_field name v fields n :
    (name, v) ∈ fields → nonzero_within v n → nonzero_within (GStruct fields) (S n).

Lemma sum_zero {A} (f : A → Z) l :
  (∀ x, x ∈ l → 0 ≤ f x) →
  0 ≤ foldr (fun x n => f x + n) 0 l ∧
  (foldr (fun x n => f x + n) 0 l = 0 ↔ ∀ x, x ∈ l → f x = 0).
Proof.
  induction l as [|x l IH]; intros Hf; cbn; [split; [lia|set_solver]|].
  destruct IH as [Hn Hz]; [intros y Hy; apply Hf; by right|].
  assert (0 ≤ f x) by (apply Hf; left). split; [lia|]. split.
  - intros E y [->|Hy]%elem_of_cons; [lia|]. apply Hz; [lia|done].
  - intros Hall. rewrite (Hall x) by left. rewrite (proj2 Hz); [lia|]. intros y Hy. apply Hall. by right.
Qed.

Lemma checkDefault1_spec n : ∀ v, 0 ≤ checkDefault1 v (4 - Z.of_nat n) ∧
  (checkDefault1 v (4 - Z.of_nat n) = 0 ↔ ¬ nonzero_within v n).
Proof.
  induction n as [|n IH]; intros v.
  { assert (checkDefault1 v (4 - Z.of_nat 0) = 0) as -> by (by destruct v).
    split; [done|]. split; [|done]. intros _ H. by inversion H. }
  assert (4 - Z.of_nat (S n) + 1 = 4 - Z.of_nat n) as Hd by lia.
  destruct v as [fields|[v|]|z|]; cbn [checkDefault1];
    rewrite (bool_decide_eq_false_2 (3 < _)) by lia; rewrite ?Hd.
  - destruct (sum_zero (fun f : string * gval => checkDefault1 f.2 (4 - Z.of_nat n)) fields) as [Hn Hz].
    { intros f _. apply IH. }
    split; [exact Hn|]. rewrite Hz. split.
    + intros Hall H. inversion H as [| |name v ? ? Hin Hnz]; subst.
      specialize (Hall _ Hin). cbn in Hall. by apply IH in Hall.
    + intros Hno [name v] Hin. cbn. apply IH. intros Hnz. apply Hno. by econstructor.
  - destruct (IH v) as [Hn Hz]. split; [done|]. rewrite Hz. split.
    + intros Hno H. inversion H; subst. tauto.
    + intros Hno Hnz. apply Hno. by constructor.
  - split; [lia|]. split; [|done]. intros _ H. inversion H.
  - destruct z; (split; [lia|]); split; try done.
    + intros _ H. inversion H.
    + intros H. exfalso. apply H. constructor.
  - split; [lia|]. split; [|done]. intros _ H. inversion H.
Qed.

(** [checkDefault] complains exactly when the variable to decode into
    holds a basic value that is not zero, at most two levels of structs and
    pointers below the value it is given. *)
Theorem checkDefault_spec v :
  checkDefault (Some v) = 0 ↔ ¬ nonzero_within v 3.
Proof. apply (checkDefault1_spec 3). Qed.

(** A type that points to itself, with a lower-case field. *)
Definition node_env (t : nat) : rkind :=
  match t with
  | 0 => KStruct [("Value", 2%nat); ("next", 1%nat)]
  | 1 => KElem 0%nat
  | _ => KOther
  end%nat.

Lemma checkType_witness :
  ∃ g' new, checkType (fun s => bool_decide (s = "Value")) node_env (S (size ({[0; 1; 2]}%nat : gset nat))) 0%nat (mkG ∅ 0) = Some g' ∧
    0%nat ∈ checked g' ∧ errorCount g' = 0 + sum_lower (fun s => bool_decide (s = "Value")) node_env new.
Proof.
  destruct (checkType_complains_once (fun s => bool_decide (s = "Value")) node_env {[0; 1; 2]}%nat 0%nat (mkG ∅ 0))
    as (g' & new & H1 & _ & _ & _ & H2 & _ & H3 & _).
  - intros x y Hx Hy.
    assert (x = 0%nat ∨ x = 1%nat ∨ x = 2%nat) as [->|[->| ->]] by set_solver; cbn in Hy; set_solver.
  - set_solver.
  - exists g', new. split; [exact H1|]. split; [exact H2|exact H3].
Defined.
