(* ===== verification/RaftConfig.v ===== *)
(** * The test harness of Raft ([labs/src/raft/config.go])

    The harness keeps servers, their persisters and the names of their client
    ends, connects and disconnects servers by enabling the ends, restarts
    them, and checks what they deliver.  [t.Fatalf] and [log.Fatalf] are
    [Panic]. *)

From S2P Require Import Prelude Gob RaftNode Labrpc.
Local Open Scope Z_scope.

Section config.
Context {C St : Type} `{!Inhabited C, !GobCodec Z, !GobCodec (list (Log C)), !EqDecision C}.
Notation Network := (@Network string nat _ _ _ _).

Record config := mkConfig {
  cfg_net : Network;
  cfg_n : nat;
  rafts : list (option (Raft C));
  connected : list bool;
  saved : list (option Persister.t);
  endnames : list (option (list string));
  logs : list (gmap Z C);
  maxIndex : Z;
}.

Definition set_net (net : Network) (cfg : config) : config :=
  mkConfig net (cfg_n cfg) (rafts cfg) (connected cfg) (saved cfg) (endnames cfg) (logs cfg) (maxIndex cfg).
Definition set_connected (c : list bool) (cfg : config) : config :=
  mkConfig (cfg_net cfg) (cfg_n cfg) (rafts cfg) c (saved cfg) (endnames cfg) (logs cfg) (maxIndex cfg).
Definition set_rafts (r : list (option (Raft C))) (cfg : config) : config :=
  mkConfig (cfg_net cfg) (cfg_n cfg) r (connected cfg) (saved cfg) (endnames cfg) (logs cfg) (maxIndex cfg).
Definition set_saved (s : list (option Persister.t)) (cfg : config) : config :=
  mkConfig (cfg_net cfg) (cfg_n cfg) (rafts cfg) (connected cfg) s (endnames cfg) (logs cfg) (maxIndex cfg).
Definition set_endnames (e : list (option (list string))) (cfg : config) : config :=
  mkConfig (cfg_net cfg) (cfg_n cfg) (rafts cfg) (connected cfg) (saved cfg) e (logs cfg) (maxIndex cfg).

(** ** Connecting and disconnecting *)

(** [cfg.endnames[i][j]]; indexing a [nil] slice panics. *)
Definition end_name (cfg : config) (i j : nat) : go string :=
  o ← idx (endnames cfg) (Z.of_nat i);
  match o with Some l => idx l (Z.of_nat j) | None => Panic end.

Definition is_connected (cfg : config) (j : nat) : Prop := connected cfg !! j = Some true.
#[export] Instance is_connected_dec cfg j : Decision (is_connected cfg j) := decide (_ = _).
Definition has_ends (cfg : config) (j : nat) : Prop := ∃ l, endnames cfg !! j = Some (Some l).
#[export] Instance has_ends_dec cfg j : Decision (has_ends cfg j).
Proof.
  destruct (endnames cfg !! j) as [[l|]|] eqn:E; [left; by exists l|right; intros [l' ?]; congruence..].
Defined.

Definition enable_all (names : list string) (b : bool) (net : Network) : Network :=
  foldl (fun net e => Enable net e b) net names.

Definition connect (cfg : config) (i : nat) : go config :=
  c ← upd (connected cfg) (Z.of_nat i) true;
  let cfg := set_connected c cfg in
  let js := filter (is_connected cfg) (seq 0 (cfg_n cfg)) in
  out ← go_map (fun j => end_name cfg i j) js;
  inc ← go_map (fun j => end_name cfg j i) js;
  Done (set_net (enable_all inc true (enable_all out true (cfg_net cfg))) cfg).

Definition disconnect (cfg : config) (i : nat) : go config :=
  c ← upd (connected cfg) (Z.of_nat i) false;
  let cfg := set_connected c cfg in
  out ← go_map (fun j => end_name cfg i j) (filter (fun _ => has_ends cfg i) (seq 0 (cfg_n cfg)));
  inc ← go_map (fun j => end_name cfg j i) (filter (has_ends cfg) (seq 0 (cfg_n cfg)));
  Done (set_net (enable_all inc false (enable_all out false (cfg_net cfg))) cfg).

(** ** Crashing and starting a server *)

(** What [cfg.saved[i]] points to: a running server writes to the same
    persister. *)
Definition saved_now (cfg : config) (i : nat) : go (option Persister.t) :=
  s ← idx (saved cfg) (Z.of_nat i);
  Done (match s, mjoin (rafts cfg !! i) with
        | Some _, Some rf => Some (persister rf)
        | _, _ => s
        end).

Definition crash1 (cfg : config) (i : nat) : go config :=
  cfg ← disconnect cfg i;
  let cfg := set_net (DeleteServer (cfg_net cfg) i) cfg in
  s ← saved_now cfg i;
  sv ← upd (saved cfg) (Z.of_nat i) (Persister.Copy <$> s);
  let cfg := set_saved sv cfg in
  r ← upd (rafts cfg) (Z.of_nat i) None;
  let cfg := set_rafts r cfg in
  s ← idx (saved cfg) (Z.of_nat i);
  sv ← upd (saved cfg) (Z.of_nat i)
         ((fun p => Persister.SaveRaftState Persister.MakePersister (Persister.ReadRaftState p)) <$> s);
  Done (set_saved sv cfg).

(** One fresh client end. *)
Definition make_end (j : nat) (name : string) (net : Network) : go Network :=
  net ← MakeEnd net name; Done (Connect net name j).

Fixpoint make_ends (j : nat) (names : list string) (net : Network) : go Network :=
  match names with
  | [] => Done net
  | name :: names => net ← make_end j name net; make_ends (S j) names net
  end.

(** [names] are the random names, [srv] the new [labrpc] server. *)
Definition start1 (cfg : config) (i : nat) (names : list string) (srv : nat) (interval now : Z)
    : go config :=
  cfg ← crash1 cfg i;
  en ← upd (endnames cfg) (Z.of_nat i) (Some names);
  let cfg := set_endnames en cfg in
  net ← make_ends 0 names (cfg_net cfg);
  let cfg := set_net net cfg in
  s ← idx (saved cfg) (Z.of_nat i);
  let p := match s with Some p => Persister.Copy p | None => Persister.MakePersister end in
  sv ← upd (saved cfg) (Z.of_nat i) (Some p);
  let cfg := set_saved sv cfg in
  rf ← Make (cfg_n cfg) (Z.of_nat i) p interval now;
  r ← upd (rafts cfg) (Z.of_nat i) (Some rf);
  let cfg := set_rafts r cfg in
  Done (set_net (AddServer (cfg_net cfg) i srv) cfg).

(** ** Checking what servers deliver *)

(** The reader of [applyCh] of server [i]: [Panic] on an error. *)
Definition apply_one (cfg : config) (i : nat) (m : ApplyMsg C) : go config :=
  if negb (CommandValid m) then Done cfg
  else
    let v := am_Command m in
    let differs := existsb (fun l => match l !! CommandIndex m with
                                     | Some old => negb (bool_decide (old = v))
                                     | None => false
                                     end) (logs cfg) in
    li ← idx (logs cfg) (Z.of_nat i);
    let prevok := bool_decide (is_Some (li !! (CommandIndex m - 1))) in
    lg ← upd (logs cfg) (Z.of_nat i) (<[CommandIndex m := v]> li);
    if differs || (bool_decide (CommandIndex m > 1) && negb prevok) then Panic
    else Done (mkConfig (cfg_net cfg) (cfg_n cfg) (rafts cfg) (connected cfg) (saved cfg) (endnames cfg)
                 lg (maxIndex cfg `max` CommandIndex m)).

Fixpoint apply_all (cfg : config) (ms : list (nat * ApplyMsg C)) : go config :=
  match ms with
  | [] => Done cfg
  | (i, m) :: ms => cfg ← apply_one cfg i m; apply_all cfg ms
  end.

(** ** Checks *)

(** The connected servers and what [GetState] says of them; a connected
    server that does not exist is a [nil] dereference. *)
Fixpoint states_from (i : nat) (con : list bool) (rs : list (option (Raft C)))
    : go (list (nat * (Z * bool))) :=
  match con, rs with
  | c :: con, r :: rs =>
      rest ← states_from (S i) con rs;
      if (c : bool) then
        match r with Some rf => Done ((i, GetState rf) :: rest) | None => Panic end
      else Done rest
  | _, _ => Done []
  end.

(** One try of [checkOneLeader]: [None] when there is no leader. *)
Definition checkOneLeader_try (cfg : config) : go (option nat) :=
  sts ← states_from 0 (connected cfg) (rafts cfg);
  let leaders := filter (fun x => x.2.2 = true) sts in
  let in_term t := filter (fun x => x.2.1 = t) leaders in
  if bool_decide (Exists (fun x => (1 < length (in_term x.2.1))%nat) leaders) then Panic
  else
    let last := foldr (fun x t => x.2.1 `max` t) (-1) leaders in
    Done (fst <$> head (in_term last)).

Fixpoint checkOneLeader (tries : list config) : go nat :=
  match tries with
  | [] => Panic
  | cfg :: tries =>
      o ← checkOneLeader_try cfg;
      match o with Some i => Done i | None => checkOneLeader tries end
  end.

Definition checkTerms (cfg : config) : go Z :=
  sts ← states_from 0 (connected cfg) (rafts cfg);
  foldl (fun r x => term ← r;
           if bool_decide (term = -1) then Done x.2.1
           else if bool_decide (term ≠ x.2.1) then Panic else Done term) (Done (-1)) sts.

Definition checkNoLeader (cfg : config) : go unit :=
  sts ← states_from 0 (connected cfg) (rafts cfg);
  if bool_decide (Exists (fun x => x.2.2 = true) sts) then Panic else Done ().

(** How many servers delivered an entry at [index], and which command. *)
Fixpoint nCommitted_loop (ls : list (gmap Z C)) (index : Z) (count : Z) (cmd : option C)
    : go (Z * option C) :=
  match ls with
  | [] => Done (count, cmd)
  | l :: ls =>
      match l !! index with
      | Some cmd1 =>
          if bool_decide (count > 0) && negb (bool_decide (cmd = Some cmd1)) then Panic
          else nCommitted_loop ls index (count + 1) (Some cmd1)
      | None => nCommitted_loop ls index count cmd
      end
  end.

Definition nCommitted (cfg : config) (index : Z) : go (Z * option C) :=
  nCommitted_loop (logs cfg) index 0 None.

(** ** Connectivity *)

Definition conn (cfg : config) (i : nat) : bool := default false (connected cfg !! i).
Definition nm (cfg : config) (i j : nat) : option string :=
  l ← mjoin (endnames cfg !! i); l !! j.

(** The names of the ends are all different and known to the network, and the
    end from [i] to [j] is enabled exactly when both are connected. *)
Record net_inv (cfg : config) : Prop := {
  ni_conn : length (connected cfg) = cfg_n cfg;
  ni_ends : length (endnames cfg) = cfg_n cfg;
  ni_len : ∀ i l, endnames cfg !! i = Some (Some l) → length l = cfg_n cfg;
  ni_inj : ∀ i j i' j' e, nm cfg i j = Some e → nm cfg i' j' = Some e → i = i' ∧ j = j';
  ni_known : ∀ i j e, nm cfg i j = Some e → e ∈ ends (cfg_net cfg);
  ni_enabled : ∀ i j e, nm cfg i j = Some e →
    enabled (cfg_net cfg) !! e = Some (conn cfg i && conn cfg j);
  ni_old : ∀ e, enabled (cfg_net cfg) !! e = Some true → ∃ i j, nm cfg i j = Some e;
}.

Lemma enable_all_lookup names b net e :
  enabled (enable_all names b net) !! e =
    (if decide (e ∈ names) then Some b else enabled net !! e) ∧
  ends (enable_all names b net) = ends net.
Proof.
  unfold enable_all. revert net. induction names as [|x names IH]; intros net; cbn [foldl].
  { by rewrite decide_False by set_solver. }
  destruct (IH (Enable net x b)) as [IH1 IH2]. split; [|exact IH2]. rewrite IH1. cbn [enabled Enable].
  destruct (decide (e ∈ names)) as [Hin|Hn]; [by rewrite decide_True by set_solver|].
  destruct (decide (e = x)) as [->|Hne].
  - rewrite lookup_insert_eq. by rewrite decide_True by set_solver.
  - rewrite lookup_insert_ne by done. by rewrite decide_False by set_solver.
Qed.

Lemma end_name_nm cfg i j e : end_name cfg i j = Done e ↔ nm cfg i j = Some e.
Proof.
  unfold end_name, nm. split.
  - intros (o & Ho & H)%go_bind_done. apply idx_Done in Ho as [_ Ho]. rewrite Nat2Z.id in Ho.
    rewrite Ho. destruct o as [l|]; [|done]. apply idx_Done in H as [_ H]. by rewrite Nat2Z.id in H.
  - intros H. destruct (endnames cfg !! i) as [[l|]|] eqn:E; [|done..]. cbn in H.
    rewrite (idx_nat _ _ _ E). go_simpl. by apply idx_nat.
Qed.

Lemma nm_has_ends cfg i j e : nm cfg i j = Some e → has_ends cfg i.
Proof.
  unfold nm, has_ends. destruct (endnames cfg !! i) as [[l|]|]; cbn; [eauto|done..].
Qed.

Lemma conn_true cfg j : is_connected cfg j ↔ conn cfg j = true.
Proof. unfold is_connected, conn. destruct (connected cfg !! j) as [[]|]; naive_solver. Qed.

Lemma conn_set cfg i b c j :
  upd (connected cfg) (Z.of_nat i) b = Done c →
  conn (set_connected c cfg) j = if decide (j = i) then b else conn cfg j.
Proof.
  intros [Hr ->]%upd_Done. unfold conn, zlen in *. cbn. rewrite Nat2Z.id.
  case_decide; [subst; by rewrite list_lookup_insert_eq by lia|by rewrite list_lookup_insert_ne].
Qed.

(** Enabling or disabling ends keeps the rest of the invariant. *)
Lemma net_inv_enable cfg c out inc b net :
  net_inv cfg → length c = cfg_n cfg → net = enable_all inc b (enable_all out b (cfg_net cfg)) →
  (∀ i j e, nm cfg i j = Some e →
     (if decide (e ∈ out ∨ e ∈ inc) then b else conn cfg i && conn cfg j) =
     conn (set_connected c cfg) i && conn (set_connected c cfg) j) →
  (∀ e, e ∈ out ∨ e ∈ inc → b = true → ∃ i j, nm cfg i j = Some e) →
  net_inv (set_net net (set_connected c cfg)).
Proof.
  intros [H1 H2 H3 H4 H5 H6 H7] Hc -> He Hk. split; try done.
  - intros i j e Hn. cbn. rewrite !(proj2 (enable_all_lookup _ _ _ e)). by apply (H5 i j).
  - intros i j e Hn. cbn [cfg_net set_net set_connected].
    change (conn (set_net _ _) ?x) with (conn (set_connected c cfg) x). rewrite <- (He i j e Hn).
    destruct (enable_all_lookup inc b (enable_all out b (cfg_net cfg)) e) as [-> _].
    destruct (enable_all_lookup out b (cfg_net cfg) e) as [-> _].
    rewrite (H6 i j e Hn). repeat case_decide; tauto.
  - intros e. cbn [cfg_net set_net set_connected].
    destruct (enable_all_lookup inc b (enable_all out b (cfg_net cfg)) e) as [-> _].
    destruct (enable_all_lookup out b (cfg_net cfg) e) as [-> _].
    repeat case_decide; [intros [= ->]; apply Hk; auto..|apply H7].
Qed.

Lemma connect_inv cfg i cfg' : net_inv cfg → connect cfg i = Done cfg' → net_inv cfg'.
Proof.
  intros Hi H. unfold connect in H. go_cases H. subst cfg'. rename a into c, a0 into out, a1 into inc.
  pose proof (conn_set cfg i true c) as Hc.
  apply (net_inv_enable cfg c out inc true); [done| |done| |].
  3: { intros e [He|He] _; [apply (go_map_elem _ _ _ _ E0) in He|apply (go_map_elem _ _ _ _ E1) in He];
       destruct He as (j & _ & Hj%end_name_nm); eauto. }
  { apply upd_Done in E as [_ ->]. rewrite length_insert. apply Hi. }
  intros x y e Hn.
  assert (e ∈ out ↔ x = i ∧ conn (set_connected c cfg) y = true) as Ho.
  { rewrite (go_map_elem _ _ _ _ E0). setoid_rewrite end_name_nm. split.
    - intros (j & Hj & Hj'). change (nm cfg i j = Some e) in Hj'.
      destruct (ni_inj _ Hi _ _ _ _ _ Hn Hj') as [-> ->]. split; [done|].
      apply list_elem_of_filter in Hj as [Hj _]. by apply conn_true.
    - intros [-> Hy]. exists y. split; [|done]. apply list_elem_of_filter. split; [by apply conn_true|].
      apply conn_true in Hy. apply elem_of_seq. apply lookup_lt_Some in Hy.
      apply upd_Done in E as [_ ->]. cbn in Hy. rewrite length_insert, (ni_conn _ Hi) in Hy. cbn. lia. }
  assert (e ∈ inc ↔ y = i ∧ conn (set_connected c cfg) x = true) as Hin.
  { rewrite (go_map_elem _ _ _ _ E1). setoid_rewrite end_name_nm. split.
    - intros (j & Hj & Hj'). change (nm cfg j i = Some e) in Hj'.
      destruct (ni_inj _ Hi _ _ _ _ _ Hn Hj') as [-> ->]. split; [done|].
      apply list_elem_of_filter in Hj as [Hj _]. by apply conn_true.
    - intros [-> Hx]. exists x. split; [|done]. apply list_elem_of_filter. split; [by apply conn_true|].
      apply conn_true in Hx. apply elem_of_seq. apply lookup_lt_Some in Hx.
      apply upd_Done in E as [_ ->]. cbn in Hx. rewrite length_insert, (ni_conn _ Hi) in Hx. cbn. lia. }
  rewrite !Hc in *; [|done..].
  destruct (decide (e ∈ out ∨ e ∈ inc)) as [Hd|Hd]; rewrite Ho, Hin in Hd;
    repeat case_decide; destruct (conn cfg x), (conn cfg y); naive_solver.
Qed.

Lemma disconnect_inv cfg i cfg' :
  net_inv cfg → disconnect cfg i = Done cfg' →
  net_inv cfg' ∧ conn cfg' i = false ∧ endnames cfg' = endnames cfg ∧ saved cfg' = saved cfg.
Proof.
  intros Hi H. unfold disconnect in H. go_cases H. subst cfg'. rename a into c, a0 into out, a1 into inc.
  pose proof (conn_set cfg i false c) as Hc.
  split; [|split; [|done]].
  2: { change (conn (set_net _ _) ?x) with (conn (set_connected c cfg) x). rewrite Hc by done.
       by rewrite decide_True. }
  apply (net_inv_enable cfg c out inc false); [done| |done| |done].
  { apply upd_Done in E as [_ ->]. rewrite length_insert. apply Hi. }
  intros x y e Hn.
  assert (∀ a b e', nm cfg a b = Some e' → (b < cfg_n cfg)%nat ∧ (a < cfg_n cfg)%nat) as Hlt.
  { intros a b e' Hab. unfold nm in Hab. destruct (endnames cfg !! a) as [[l|]|] eqn:El; [|done..].
    cbn in Hab. apply lookup_lt_Some in Hab. rewrite (ni_len _ Hi a l El) in Hab. split; [done|].
    apply lookup_lt_Some in El. by rewrite (ni_ends _ Hi) in El. }
  assert (e ∈ out ↔ x = i) as Ho.
  { rewrite (go_map_elem _ _ _ _ E0). setoid_rewrite end_name_nm. split.
    - intros (j & Hj & Hj'). change (nm cfg i j = Some e) in Hj'.
      by destruct (ni_inj _ Hi _ _ _ _ _ Hn Hj') as [-> ->].
    - intros ->. exists y. split; [|done]. apply list_elem_of_filter.
      split; [by eapply (nm_has_ends cfg)|]. apply elem_of_seq. cbn. destruct (Hlt _ _ _ Hn). lia. }
  assert (e ∈ inc ↔ y = i) as Hin.
  { rewrite (go_map_elem _ _ _ _ E1). setoid_rewrite end_name_nm. split.
    - intros (j & Hj & Hj'). change (nm cfg j i = Some e) in Hj'.
      by destruct (ni_inj _ Hi _ _ _ _ _ Hn Hj') as [-> ->].
    - intros ->. exists x. split; [|done]. apply list_elem_of_filter.
      split; [by eapply (nm_has_ends cfg)|]. apply elem_of_seq. cbn. destruct (Hlt _ _ _ Hn). lia. }
  rewrite !Hc by done.
  destruct (decide (e ∈ out ∨ e ∈ inc)) as [Hd|Hd]; rewrite Ho, Hin in Hd; repeat case_decide;
    destruct (conn cfg x), (conn cfg y); naive_solver.
Qed.

Lemma make_ends_spec j names net net' :
  make_ends j names net = Done net' →
  NoDup names ∧ (∀ e, e ∈ names → e ∉ ends net ∧ enabled net' !! e = Some false) ∧
  (∀ e, e ∉ names → enabled net' !! e = enabled net !! e) ∧
  (∀ e, e ∈ ends net' ↔ e ∈ names ∨ e ∈ ends net).
Proof.
  revert j net. induction names as [|x names IH]; intros j net H; cbn [make_ends] in H.
  { injection H as <-. split; [constructor|]. set_solver. }
  go_cases H. unfold make_end, MakeEnd in E. go_cases E. subst.
  try (go_cases E0; subst).
  destruct (IH _ _ H) as (Hnd & Hin & Hout & Hends). cbn [ends enabled Connect] in *.
  clear IH H. split; [|split; [|split]].
  - constructor; [|done]. intros Hx. destruct (Hin x Hx) as [Hx' _].
    by apply Hx', elem_of_union_l, elem_of_singleton.
  - intros e [->|He]%elem_of_cons.
    + split; [done|]. destruct (decide (x ∈ names)) as [Hx|Hx]; [by apply Hin|].
      rewrite Hout by done. apply lookup_insert_eq.
    + destruct (Hin e He) as [Hn ?]. split; [|done]. intros Hne. by apply Hn, elem_of_union_r.
  - intros e [Hne He]%not_elem_of_cons. rewrite Hout by done. by apply lookup_insert_ne.
  - intros e. rewrite Hends, elem_of_cons, elem_of_union, elem_of_singleton. tauto.
Qed.

Lemma crash1_inv cfg i cfg' :
  net_inv cfg → crash1 cfg i = Done cfg' →
  net_inv cfg' ∧ conn cfg' i = false ∧ endnames cfg' = endnames cfg.
Proof.
  intros Hi H. unfold crash1 in H. apply go_bind_done in H as (cfg1 & Hd & H).
  destruct (disconnect_inv _ _ _ Hi Hd) as ([H1 H2 H3 H4 H5 H6 H7] & Hc & He & _).
  go_cases H. subst. split; [|done]. by split.
Qed.

Lemma start1_inv cfg i names srv interval now cfg' :
  net_inv cfg → length names = cfg_n cfg →
  start1 cfg i names srv interval now = Done cfg' → net_inv cfg'.
Proof.
  intros Hi Hl H. unfold start1 in H. apply go_bind_done in H as (cfg1 & Hcr & H).
  destruct (crash1_inv _ _ _ Hi Hcr) as ([H1 H2 H3 H4 H5 H6 H7] & Hc & He).
  assert (cfg_n cfg1 = cfg_n cfg) as Hn.
  { rewrite <- H2, He. apply Hi. }
  go_cases H. subst. apply upd_Done in E as [Hr ->]. rewrite Nat2Z.id.
  rename a0 into net. apply make_ends_spec in E0 as (Hnd & Hin & Hout & Hends).
  cbn [cfg_net set_endnames] in *. unfold zlen in Hr.
  assert (∀ a b e, nm (set_endnames (<[i:=Some names]> (endnames cfg1)) cfg1) a b = Some e ↔
    (a = i ∧ names !! b = Some e) ∨ (a ≠ i ∧ nm cfg1 a b = Some e)) as Hnm.
  { intros a b e. unfold nm. cbn. destruct (decide (a = i)) as [->|Hne].
    - rewrite list_lookup_insert_eq by lia. cbn. naive_solver.
    - rewrite list_lookup_insert_ne by done. naive_solver. }
  split; cbn.
  - done.
  - by rewrite length_insert.
  - intros a l Ha. apply list_lookup_insert_Some in Ha as [(<- & [= <-] & _)|[_ Ha]]; [congruence|by apply (H3 a)].
  - intros a b a' b' e Ha Ha'.
    apply (Hnm a b e) in Ha. apply (Hnm a' b' e) in Ha'.
    destruct Ha as [[-> Ha]|[Hai Ha]], Ha' as [[-> Ha']|[Hai' Ha']].
    + split; [done|]. by eapply NoDup_lookup.
    + exfalso. destruct (Hin e) as [Hx _]; [eauto with go_lists|]. by apply Hx, (H5 a' b').
    + exfalso. destruct (Hin e) as [Hx _]; [eauto with go_lists|]. by apply Hx, (H5 a b).
    + by apply (H4 a b a' b' e).
  - intros a b e Ha. apply (Hnm a b e) in Ha. apply Hends.
    destruct Ha as [[-> Ha]|[Hai Ha]]; [left; eauto with go_lists|right; by apply (H5 a b)].
  - intros a b e Ha. apply (Hnm a b e) in Ha. change (conn _ ?x) with (conn cfg1 x).
    destruct Ha as [[-> Ha]|[Hai Ha]].
    + rewrite Hc. cbn. apply Hin. eauto with go_lists.
    + rewrite Hout; [by apply H6|]. intros Hx. destruct (Hin e Hx) as [Hx' _]. by apply Hx', (H5 a b).
  - intros e Hen. destruct (decide (e ∈ names)) as [Hx|Hx].
    { destruct (Hin e Hx) as [_ Hf]. congruence. }
    rewrite Hout in Hen by done. destruct (H7 e Hen) as (a & b & Ha). exists a, b. apply Hnm. right.
    split; [|done]. intros ->. rewrite (H6 _ _ _ Ha), Hc in Hen. discriminate Hen.
Qed.

(** What a test does to the servers. *)
Inductive hact :=
| HConnect (i : nat)
| HDisconnect (i : nat)
| HStart (i : nat) (names : list string) (srv : nat) (interval now : Z).

Definition hstep (cfg : config) (a : hact) : go config :=
  match a with
  | HConnect i => connect cfg i
  | HDisconnect i => disconnect cfg i
  | HStart i names srv interval now => start1 cfg i names srv interval now
  end.

Fixpoint hrun (cfg : config) (acts : list hact) : go config :=
  match acts with
  | [] => Done cfg
  | a :: acts => cfg' ← hstep cfg a; hrun cfg' acts
  end.

(** [make_config], before the servers are started. *)
Definition config_init (n : nat) (unreliable : bool) : config :=
  mkConfig (LongDelays (Reliable MakeNetwork (negb unreliable)) true) n (replicate n None)
    (replicate n false) (replicate n None) (replicate n None) (replicate n ∅) 0.

(** [make_config]: every server is started, then everyone is connected. *)
Definition make_config (n : nat) (unreliable : bool) (names : nat → list string) (srv : nat → nat)
    (interval now : nat → Z) : go config :=
  hrun (config_init n unreliable)
    (((fun i => HStart i (names i) (srv i) (interval i) (now i)) <$> seq 0 n) ++ (HConnect <$> seq 0 n)).

Lemma hstep_n cfg a cfg' : hstep cfg a = Done cfg' → cfg_n cfg' = cfg_n cfg.
Proof.
  assert (∀ cfg i cfg', disconnect cfg i = Done cfg' → cfg_n cfg' = cfg_n cfg) as Hd.
  { intros cfg0 i cfg1 H. unfold disconnect in H. go_cases H. by subst. }
  destruct a; cbn [hstep]; intros H.
  - unfold connect in H. go_cases H. by subst.
  - by eapply Hd.
  - unfold start1 in H. apply go_bind_done in H as (cfg1 & Hcr & H).
    assert (cfg_n cfg1 = cfg_n cfg) as <-; [|go_cases H; by subst].
    unfold crash1 in Hcr. apply go_bind_done in Hcr as (cfg2 & Hd2 & Hcr).
    rewrite <- (Hd _ _ _ Hd2). go_cases Hcr. by subst.
Qed.

Lemma hrun_inv cfg acts cfg' n :
  cfg_n cfg = n → net_inv cfg →
  Forall (fun a => match a with HStart _ names _ _ _ => length names = n | _ => True end) acts →
  hrun cfg acts = Done cfg' → net_inv cfg'.
Proof.
  intros Hn Hi Hf. revert cfg Hn Hi. induction Hf as [|a acts Ha Hf IH]; intros cfg Hn Hi H; cbn [hrun] in H.
  { by injection H as <-. }
  go_inv H. rename a0 into cfg1. apply (IH cfg1); [by rewrite (hstep_n _ _ _ E)| |done].
  destruct a; cbn [hstep] in E.
  - by eapply connect_inv.
  - by eapply disconnect_inv.
  - eapply start1_inv; [done| |done]. congruence.
Qed.

Lemma config_init_inv n u : net_inv (config_init n u).
Proof.
  assert (∀ i j, nm (config_init n u) i j = None) as Hnm.
  { intros i j. unfold nm. cbn. destruct (replicate n None !! i) as [o|] eqn:E; [|done].
    by apply lookup_replicate in E as [-> _]. }
  split; cbn; rewrite ?length_replicate; try done.
  - intros i l Hi. by apply lookup_replicate in Hi as [? _].
  - intros i j i' j' e He. by rewrite Hnm in He.
  - intros i j e He. by rewrite Hnm in He.
  - intros i j e He. by rewrite Hnm in He.
Qed.


(** ** What the readers of [applyCh] establish *)

(** Two servers never delivered different commands at one index. *)
Definition logs_agree (ls : list (gmap Z C)) : Prop :=
  ∀ i j li lj x v w, ls !! i = Some li → ls !! j = Some lj →
    li !! x = Some v → lj !! x = Some w → v = w.
(** Every server delivered all the indexes from 1 to those it delivered. *)
Definition logs_complete (ls : list (gmap Z C)) : Prop :=
  ∀ i li x, ls !! i = Some li → is_Some (li !! x) → 1 < x → is_Some (li !! (x - 1)).

Lemma apply_one_ok cfg i m cfg' :
  apply_one cfg i m = Done cfg' → logs_agree (logs cfg) → logs_complete (logs cfg) →
  logs_agree (logs cfg') ∧ logs_complete (logs cfg').
Proof.
  intros H Ha Hc. unfold apply_one in H. destruct (negb (CommandValid m)); [by injection H as <-|].
  apply go_bind_done in H as (li & Hli & H). apply idx_Done in Hli as [_ Hli]. rewrite Nat2Z.id in Hli.
  apply go_bind_done in H as (lg & Hlg & H). apply upd_Done in Hlg as [Hr ->]. rewrite Nat2Z.id in H.
  destruct (_ || _) eqn:Eb; [done|]. injection H as <-. cbn [logs].
  apply orb_false_iff in Eb as [Hd Ho].
  assert (∀ j lj w, logs cfg !! j = Some lj → lj !! CommandIndex m = Some w → w = am_Command m) as Hsame.
  { intros j lj w Hj Hw. destruct (decide (w = am_Command m)) as [->|Hne]; [done|]. exfalso.
    rewrite <- not_true_iff_false in Hd. apply Hd. apply existsb_exists. exists lj.
    split; [apply list_elem_of_In; eauto with go_lists|]. rewrite Hw.
    by rewrite bool_decide_eq_false_2. }
  assert (∀ j lj x w, <[i:=<[CommandIndex m := am_Command m]> li]> (logs cfg) !! j = Some lj →
    lj !! x = Some w → (x = CommandIndex m ∧ w = am_Command m ∧ j = i) ∨
      ∃ lj', logs cfg !! j = Some lj' ∧ lj' !! x = Some w) as Hcases.
  { intros j lj x w Hj Hx. apply list_lookup_insert_Some in Hj as [(<- & <- & _)|[Hne Hj]]; [|eauto].
    apply lookup_insert_Some in Hx as [[<- <-]|[_ Hx]]; [by left|]. right. eauto. }
  split.
  - intros j k lj lk x v w Hj Hk Hv Hw.
    destruct (Hcases _ _ _ _ Hj Hv) as [(-> & -> & _)|(lj' & Hj' & Hv')],
      (Hcases _ _ _ _ Hk Hw) as [(E & -> & _)|(lk' & Hk' & Hw')].
    + done.
    + symmetry. by apply (Hsame k lk').
    + subst x. by apply (Hsame j lj').
    + by apply (Ha j k lj' lk' x).
  - intros j lj x Hj [v Hv] Hx.
    destruct (Hcases _ _ _ _ Hj Hv) as [(-> & -> & ->)|(lj' & Hj' & Hv')].
    + rewrite list_lookup_insert_eq in Hj by eauto with go_lists. injection Hj as <-.
      rewrite lookup_insert_ne by lia.
      apply andb_false_iff in Ho as [Ho|Ho]; [apply bool_decide_eq_false in Ho; lia|].
      apply negb_false_iff in Ho. by apply bool_decide_eq_true in Ho.
    + destruct (Hc j lj' x Hj' (ex_intro _ v Hv') Hx) as [u Hu].
      apply list_lookup_insert_Some in Hj as [(<- & <- & _)|[Hne Hj]]; [|naive_solver].
      simplify_eq. destruct (decide (CommandIndex m = x - 1)) as [->|?];
        [rewrite lookup_insert_eq; eauto|rewrite lookup_insert_ne by done; eauto].
Qed.

(** As long as the harness reports no error, the deliveries it has seen
    are those of one log: no two servers ever delivered different commands at
    the same index, also across restarts, and no server skipped an index. *)
Theorem apply_checker_sound n unreliable ms cfg :
  apply_all (config_init n unreliable) ms = Done cfg →
  logs_agree (logs cfg) ∧ logs_complete (logs cfg).
Proof.
  assert (∀ cfg0, logs_agree (logs cfg0) → logs_complete (logs cfg0) → apply_all cfg0 ms = Done cfg →
    logs_agree (logs cfg) ∧ logs_complete (logs cfg)) as Hgen.
  { induction ms as [|[i m] ms IH]; intros cfg0 Ha Hc H; cbn [apply_all] in H; [by injection H as <-|].
    go_inv H. destruct (apply_one_ok _ _ _ _ E Ha Hc). by apply (IH a). }
  apply Hgen; cbn.
  - intros i j li lj x v w Hi _ Hv. apply lookup_replicate in Hi as [-> _]. by rewrite lookup_empty in Hv.
  - intros i li x Hi [v Hv]. apply lookup_replicate in Hi as [-> _]. by rewrite lookup_empty in Hv.
Qed.

End config.
