(* ===== verification/RaftHarness.v ===== *)
(** * Agreements in the test harness of Raft ([labs/src/raft/config.go])

    [wait], [one] and the statistics of [begin] and [end].  Between two looks
    of the harness at the servers anything can happen to them: each look comes
    with the function that the rest of the system applied before it, and the
    number of looks before a time limit is the length of a list.  A look, and the
    round of [Start]s in [one], is one step. *)

From S2P Require Import Prelude Gob RaftNode Labrpc RaftConfig.
Local Open Scope Z_scope.

Section harness.
Context {C : Type} `{!Inhabited C, !GobCodec Z, !GobCodec (list (Log C)), !EqDecision C}.
Notation Network := (@Network string nat _ _ _ _).
Notation config := (config (C:=C)).

(** What happens to the system between two looks. *)
Notation env := (config → config).

(** ** [wait] *)

Inductive waited := Agreed (cmd : option C) | MovedOn.

(** [for _, r := range cfg.rafts { if t, _ := r.GetState(); t > startTerm … }] *)
Fixpoint moved_on (startTerm : Z) (rs : list (option (Raft C))) : go bool :=
  match rs with
  | [] => Done false
  | None :: _ => Panic
  | Some r :: rs => if bool_decide ((GetState r).1 > startTerm) then Done true else moved_on startTerm rs
  end.

(** The loop, at most 30 times round; then the last look. *)
Fixpoint wait_loop (cfg : config) (index n startTerm : Z) (looks : list env) : go (config * waited) :=
  let last cfg :=
    '(nd, cmd) ← nCommitted cfg index;
    if bool_decide (nd < n) then Panic else Done (cfg, Agreed cmd) in
  match looks with
  | [] => last cfg
  | e :: looks =>
      '(nd, _) ← nCommitted cfg index;
      let cfg := e cfg in
      if bool_decide (nd >= n) then last cfg
      else
        if bool_decide (startTerm > -1) then
          m ← moved_on startTerm (rafts cfg);
          if (m : bool) then Done (cfg, MovedOn) else wait_loop cfg index n startTerm looks
        else wait_loop cfg index n startTerm looks
  end.
Definition wait (cfg : config) (index n startTerm : Z) (looks : list env) : go (config * waited) :=
  wait_loop cfg index n startTerm (take 30 looks).

(** ** [one] *)

(** [cfg.rafts[starts].Start(cmd)], where the server is connected. *)
Definition try_start (cfg : config) (starts : nat) (cmd : C) : go (config * option Z) :=
  c ← idx (connected cfg) (Z.of_nat starts);
  r ← idx (rafts cfg) (Z.of_nat starts);
  match (if (c : bool) then r else None) with
  | None => Done (cfg, None)
  | Some rf =>
      let '(rf, (index1, _, ok)) := Start rf cmd in
      Done (set_rafts (<[starts := Some rf]> (rafts cfg)) cfg, if (ok : bool) then Some index1 else None)
  end.

(** The servers in turn, from the one after [starts], until one accepts. *)
Fixpoint try_servers (k : nat) (cfg : config) (starts : nat) (cmd : C) : go (config * nat * Z) :=
  match k with
  | 0%nat => Done (cfg, starts, -1)
  | S k =>
      let starts := ((starts + 1) mod cfg_n cfg)%nat in
      '(cfg, o) ← try_start cfg starts cmd;
      match o with
      | Some index => Done (cfg, starts, index)
      | None => try_servers k cfg starts cmd
      end
  end.

(** The looks within two seconds: [None] when there was no agreement. *)
Fixpoint agree_loop (cfg : config) (index expectedServers : Z) (cmd : C) (looks : list env)
    : go (config * bool) :=
  match looks with
  | [] => Done (cfg, false)
  | e :: looks =>
      '(nd, cmd1) ← nCommitted cfg index;
      if bool_decide (nd > 0) && bool_decide (nd >= expectedServers) && bool_decide (cmd1 = Some cmd)
      then Done (cfg, true)
      else agree_loop (e cfg) index expectedServers cmd looks
  end.

(** One time round the loop for every element of [rounds], which has the
    looks, and what happens while the harness sleeps. *)
Fixpoint one_loop (cfg : config) (starts : nat) (cmd : C) (expectedServers : Z) (retry : bool)
    (rounds : list (list env * env)) : go (config * Z) :=
  match rounds with
  | [] => Panic
  | (looks, pause) :: rounds =>
      '(cfg, starts, index) ← try_servers (cfg_n cfg) cfg starts cmd;
      if bool_decide (index ≠ -1) then
        '(cfg, agreed) ← agree_loop cfg index expectedServers cmd looks;
        if (agreed : bool) then Done (cfg, index)
        else if negb retry then Panic
        else one_loop cfg starts cmd expectedServers retry rounds
      else one_loop (pause cfg) starts cmd expectedServers retry rounds
  end.
Definition one (cfg : config) (cmd : C) (expectedServers : Z) (retry : bool) (rounds : list (list env * env))
    : go (config * Z) :=
  one_loop cfg 0 cmd expectedServers retry rounds.

(** ** Statistics, and what is passed on to the network *)

Record stats := mkStats { t0 : Z; rpcs0 : Z; cmds0 : Z; bytes0 : Z; maxIndex0 : Z }.
Record report := mkReport { rp_time : Z; rp_npeers : nat; rp_nrpc : Z; rp_nbytes : Z; rp_ncmds : Z }.

Definition rpcTotal (cfg : config) : Z := GetTotalCount (cfg_net cfg).
Definition rpcCount {St} (cfg : config) (ms : list (Server (St:=St))) (server : nat) : go Z := GetCount (cfg_net cfg) ms server.
Definition bytesTotal (cfg : config) : Z := GetTotalBytes (cfg_net cfg).
Definition setunreliable (cfg : config) (unrel : bool) : config := set_net (Reliable (cfg_net cfg) (negb unrel)) cfg.
Definition setlongreordering (cfg : config) (longrel : bool) : config :=
  set_net (LongReordering (cfg_net cfg) longrel) cfg.

Definition begin (cfg : config) (now : Z) : stats :=
  mkStats now (rpcTotal cfg) 0 (bytesTotal cfg) (maxIndex cfg).
Definition end_ (cfg : config) (s : stats) (now : Z) : report :=
  mkReport (now - t0 s) (cfg_n cfg) (rpcTotal cfg - rpcs0 s) (bytesTotal cfg - bytes0 s)
    (maxIndex cfg - maxIndex0 s).

Definition cleanup (cfg : config) : go config :=
  let cfg := set_rafts (fmap (M:=option) Kill <$> rafts cfg) cfg in
  net ← Cleanup (cfg_net cfg);
  Done (set_net net cfg).

(** ** What the count of servers means *)

(** The servers that have delivered a command at [index]. *)
Definition committed_at (index : Z) (ls : list (gmap Z C)) : list C := omap (fun l => l !! index) ls.

Lemma nCommitted_loop_spec ls index count cmd nd cmd' :
  nCommitted_loop ls index count cmd = Done (nd, cmd') → 0 ≤ count → (count = 0 ↔ cmd = None) →
  nd = count + zlen (committed_at index ls) ∧ (nd = 0 ↔ cmd' = None) ∧
  (∀ v, v ∈ committed_at index ls → cmd' = Some v) ∧ (∀ v, cmd = Some v → cmd' = Some v).
Proof.
  revert count cmd. induction ls as [|l ls IH]; intros count cmd H Hc Hn; cbn [nCommitted_loop] in H.
  { injection H as -> ->. unfold zlen. cbn. split; [lia|]. split; [done|]. split; [|done]. by intros v ?%not_elem_of_nil. }
  unfold committed_at. cbn [omap list_omap]. destruct (l !! index) as [v|] eqn:El.
  - destruct (bool_decide (count > 0) && negb (bool_decide (cmd = Some v))) eqn:Eb; [done|].
    apply IH in H as (-> & H1 & H2 & H3); [|lia|split; [lia|done]].
    unfold zlen in *. cbn [length]. split; [fold (committed_at index ls); lia|]. split; [done|]. split.
    + intros w [->|Hw]%elem_of_cons; [by apply H3|by apply H2].
    + intros w ->. apply andb_false_iff in Eb as [Eb%bool_decide_eq_false|Eb%negb_false_iff%bool_decide_eq_true].
      * assert (count = 0) as Hz by lia. apply Hn in Hz. done.
      * injection Eb as ->. by apply H3.
  - by apply IH in H.
Qed.

(** Agreement at [index]: [n] servers have delivered [cmd] there, and none has
    delivered anything else. *)
Definition agreement (cfg : config) (index n : Z) (cmd : C) : Prop :=
  n ≤ zlen (committed_at index (logs cfg)) ∧ ∀ v, v ∈ committed_at index (logs cfg) → v = cmd.

Lemma nCommitted_spec (cfg : config) index nd cmd :
  nCommitted cfg index = Done (nd, cmd) →
  nd = zlen (committed_at index (logs cfg)) ∧ (nd = 0 ↔ cmd = None) ∧
  ∀ v, v ∈ committed_at index (logs cfg) → cmd = Some v.
Proof.
  unfold nCommitted. intros H. apply nCommitted_loop_spec in H as (-> & H1 & H2 & _); [|done|done].
  by rewrite Z.add_0_l in *.
Qed.

(** ** What [wait] and [one] establish *)

Lemma try_start_logs cfg starts cmd cfg' o : try_start cfg starts cmd = Done (cfg', o) → logs cfg' = logs cfg.
Proof.
  unfold try_start. intros H. do 2 go_inv H. destruct (if a then a0 else None) as [rf|]; [|by injection H as <- _].
  destruct (Start rf cmd) as [rf' [[index1 t] ok]]. by injection H as <- _.
Qed.

Lemma try_servers_logs k cfg starts cmd cfg' starts' index :
  try_servers k cfg starts cmd = Done (cfg', starts', index) → logs cfg' = logs cfg.
Proof.
  revert cfg starts. induction k as [|k IH]; intros cfg starts H; cbn [try_servers] in H; [by injection H as <- _ _|].
  go_inv H. destruct a as [cfg1 o]. apply try_start_logs in E. destruct o; [by injection H as <- _ _|].
  apply IH in H. congruence.
Qed.

(** Between two looks, the readers of [applyCh] run, without an error. *)
Definition reads (e : env) : Prop := ∀ cfg, ∃ ms cfg1, apply_all cfg ms = Done cfg1 ∧ logs (e cfg) = logs cfg1.

(** What the readers keep. *)
Definition one_log (cfg : config) : Prop := logs_agree (logs cfg) ∧ logs_complete (logs cfg).

Lemma apply_all_one_log cfg ms cfg' : apply_all cfg ms = Done cfg' → one_log cfg → one_log cfg'.
Proof.
  revert cfg. induction ms as [|[i m] ms IH]; intros cfg H Hl; cbn [apply_all] in H; [by injection H as <-|].
  go_inv H. apply (IH a); [done|]. by eapply apply_one_ok; [|apply Hl..].
Qed.

Lemma reads_one_log e cfg : reads e → one_log cfg → one_log (e cfg).
Proof.
  intros He Hl. destruct (He cfg) as (ms & cfg1 & Hm & E). unfold one_log. rewrite E.
  by apply (apply_all_one_log cfg ms cfg1).
Qed.

Lemma reads_id : reads id.
Proof. intros cfg. exists [], cfg. split; reflexivity. Qed.

(** At first, nothing has been delivered. *)
Lemma one_log_start cfg n : logs cfg = replicate n ∅ → one_log cfg.
Proof.
  intros E. unfold one_log. rewrite E. split.
  - intros i j li lj x v w Hi _ Hv. apply lookup_replicate in Hi as [-> _]. by rewrite lookup_empty in Hv.
  - intros i li x Hi [v Hv]. apply lookup_replicate in Hi as [-> _]. by rewrite lookup_empty in Hv.
Qed.

Lemma agree_loop_spec cfg index n cmd looks cfg' b :
  agree_loop cfg index n cmd looks = Done (cfg', b) → Forall reads looks → one_log cfg →
  one_log cfg' ∧ (b = true → agreement cfg' index n cmd ∧ committed_at index (logs cfg') ≠ []).
Proof.
  revert cfg. induction looks as [|e looks IH]; intros cfg H Hr Hl; cbn [agree_loop] in H.
  { by injection H as <- <-. }
  go_inv H. destruct a as [nd cmd1]. apply nCommitted_spec in E as (En & Hz & Hv). inversion Hr as [|? ? He Hr']; subst.
  destruct (_ && _) eqn:Eb; [|by apply IH in H; auto using reads_one_log].
  injection H as <- <-. split; [done|]. intros _.
  apply andb_prop in Eb as [[H0%bool_decide_eq_true Hn%bool_decide_eq_true]%andb_prop Hc%bool_decide_eq_true].
  split; [split; [lia|]|].
  - intros v Hin. apply Hv in Hin. congruence.
  - intros E. rewrite E in H0. done.
Qed.

Lemma one_loop_spec cfg starts cmd n retry rounds cfg' index :
  one_loop cfg starts cmd n retry rounds = Done (cfg', index) →
  Forall (fun r => Forall reads r.1 ∧ reads r.2) rounds → one_log cfg →
  one_log cfg' ∧ agreement cfg' index n cmd ∧ committed_at index (logs cfg') ≠ [].
Proof.
  revert cfg starts. induction rounds as [|[looks pause] rounds IH]; intros cfg starts H Hr Hl; cbn [one_loop] in H; [done|].
  inversion Hr as [|? ? [He Hp] Hr']; subst. cbn [fst snd] in *.
  go_inv H. destruct a as [[cfg1 starts1] index1]. assert (one_log cfg1) as Hl1.
  { unfold one_log. by rewrite (try_servers_logs _ _ _ _ _ _ _ E). }
  case_bool_decide; [|by eapply IH; [exact H|done|apply reads_one_log]].
  go_inv H. destruct a as [cfg2 agreed]. destruct (agree_loop_spec _ _ _ _ _ _ _ E0 He Hl1) as [Hl2 Ha].
  destruct agreed; [injection H as <- <-; by destruct (Ha eq_refl)|]. destruct (negb retry); [done|]. by eapply IH.
Qed.

(** The commands of a complete log up to an index. *)
Lemma log_prefix (lg : gmap Z C) (index : nat) :
  (∀ x, is_Some (lg !! x) → 1 < x → is_Some (lg !! (x - 1))) → is_Some (lg !! Z.of_nat index) →
  (0 < index)%nat →
  ∃ l, length l = index ∧ ∀ k, (k < index)%nat → lg !! (Z.of_nat k + 1) = l !! k.
Proof.
  intros Hc Hi H0. induction index as [|index IH]; [lia|]. destruct (decide (index = 0%nat)) as [->|Hne].
  - destruct Hi as [v Hv]. exists [v]. split; [done|]. intros k Hk. assert (k = 0%nat) as -> by lia. done.
  - destruct IH as (l & Hl & Hk); [|lia|].
    { replace (Z.of_nat index) with (Z.of_nat (S index) - 1) by lia. apply Hc; [done|lia]. }
    destruct Hi as [v Hv]. exists (l ++ [v]). rewrite length_app. split; [cbn; lia|]. intros k Hlt.
    destruct (decide (k = index)) as [->|Hk'].
    + rewrite lookup_app_r, Hl, Nat.sub_diag by lia. replace (Z.of_nat index + 1) with (Z.of_nat (S index)) by lia. done.
    + rewrite lookup_app_l by lia. apply Hk. lia.
Qed.

(** C12: when [one] returns an index, at least the expected number of servers
    have delivered its command there, and there is one log, of that length and
    ending in the command, that every server that got so far has delivered in
    full, each command at its own index. *)
Theorem one_reaches_agreement cfg cmd n retry rounds cfg' index :
  one cfg cmd n retry rounds = Done (cfg', index) →
  Forall (fun r => Forall reads r.1 ∧ reads r.2) rounds → one_log cfg → 0 < index →
  n ≤ zlen (committed_at index (logs cfg')) ∧
  ∃ l, zlen l = index ∧ last l = Some cmd ∧
    ∀ i lg, logs cfg' !! i = Some lg → is_Some (lg !! index) →
      ∀ k, (k < length l)%nat → lg !! (Z.of_nat k + 1) = l !! k.
Proof.
  intros H Hr Hl Hi. destruct (one_loop_spec _ _ _ _ _ _ _ _ H Hr Hl) as ([Ha Hc] & [Hn Hv] & Hne).
  split; [done|]. destruct (committed_at index (logs cfg')) as [|v vs] eqn:Ec; [done|].
  assert (v ∈ committed_at index (logs cfg')) as Hin by (rewrite Ec; left).
  apply list_elem_of_omap in Hin as (lg0 & [i0 H0]%list_elem_of_lookup & Hlg0).
  assert (v = cmd) as -> by (apply Hv; left).
  destruct (log_prefix lg0 (Z.to_nat index)) as (l & Hl' & Hk).
  { intros x. by apply (Hc i0). }
  { rewrite Z2Nat.id by lia. by eexists. }
  { lia. }
  exists l. split; [unfold zlen; lia|]. split.
  - rewrite last_lookup, <- Hk by lia. rewrite Hl'.
    replace (Z.of_nat (pred (Z.to_nat index)) + 1) with index by lia. done.
  - intros i lg Hlg Hs k Hlt. rewrite <- Hk by lia.
    assert (∀ m : nat, (m ≤ Z.to_nat index)%nat → is_Some (lg !! (index - Z.of_nat m)) ∨ Z.to_nat index = m) as Hback.
    { induction m as [|m IH]; intros Hm; [left; by rewrite Z.sub_0_r|].
      destruct (decide (Z.to_nat index = S m)) as [|Hd]; [by right|left].
      destruct (IH ltac:(lia)) as [Hsm|]; [|lia].
      replace (index - Z.of_nat (S m)) with (index - Z.of_nat m - 1) by lia. apply (Hc i); [done|done|lia]. }
    destruct (Hback (Z.to_nat index - S k)%nat ltac:(lia)) as [[v' Hv']|]; [|lia].
    replace (index - Z.of_nat (Z.to_nat index - S k)) with (Z.of_nat k + 1) in Hv' by lia.
    destruct (l !! k) as [w|] eqn:Ew; [|apply lookup_ge_None in Ew; lia].
    pose proof (Hk k ltac:(lia)) as Hw. rewrite Ew in Hw. rewrite Hv', Hw. f_equal. by eapply (Ha i i0).
Qed.

(** [wait] returns a command that enough servers have delivered, or says that
    some server is in a later term. *)
Lemma wait_spec cfg index n startTerm looks cfg' w :
  wait cfg index n startTerm looks = Done (cfg', w) →
  match w with
  | Agreed cmd => n ≤ zlen (committed_at index (logs cfg')) ∧
      ∀ v, v ∈ committed_at index (logs cfg') → cmd = Some v
  | MovedOn => startTerm > -1 ∧ ∃ r, Some r ∈ rafts cfg' ∧ currentTerm r > startTerm
  end.
Proof.
  unfold wait. generalize (take 30 looks). clear looks. intros looks.
  assert (∀ cfg, ('(nd, cmd) ← nCommitted cfg index;
    if bool_decide (nd < n) then Panic else Done (cfg, Agreed cmd)) = Done (cfg', w) →
    match w with
    | Agreed cmd => n ≤ zlen (committed_at index (logs cfg')) ∧
        ∀ v, v ∈ committed_at index (logs cfg') → cmd = Some v
    | MovedOn => startTerm > -1 ∧ ∃ r, Some r ∈ rafts cfg' ∧ currentTerm r > startTerm
    end) as Hlast.
  { intros c H. go_inv H. destruct a as [nd cmd]. apply nCommitted_spec in E as (-> & _ & Hv).
    case_bool_decide; [done|]. injection H as <- <-. split; [lia|done]. }
  revert cfg. induction looks as [|e looks IH]; intros cfg H; cbn [wait_loop] in H; [by apply (Hlast cfg)|].
  go_inv H. destruct a as [nd cmd]. case_bool_decide; [by apply (Hlast (e cfg))|].
  case_bool_decide as Ht; [|by apply (IH (e cfg))]. go_inv H. destruct a; [|by apply (IH (e cfg))].
  injection H as <- <-. split; [done|]. revert E0. generalize (rafts (e cfg)). intros rs.
  induction rs as [|[r|] rs IHr]; cbn [moved_on]; [done| |done]. case_bool_decide.
  - intros _. exists r. split; [left|done].
  - intros (r' & Hr & ?)%IHr. exists r'. split; [by right|done].
Qed.

End harness.
