(* ===== verification/RaftConfigExamples.v ===== *)
(** * A test of three Raft servers

    The harness starts three servers, connects them, cuts one off and
    restarts another; the servers deliver two commands. *)

From stdpp Require Import pretty.
From S2P Require Import Prelude Gob RaftNode Labrpc RaftConfig RaftHarness RaftTraces.
Local Open Scope Z_scope.

#[local] Existing Instance codec_Z.
#[local] Existing Instance codec_log.
#[local] Existing Instance Z_nil.

Definition test_names (i : nat) : list string :=
  (fun j => "end-" +:+ pretty i +:+ "-" +:+ pretty j) <$> seq 0 3.
Definition test_acts : list hact :=
  ((fun i => HStart i (test_names i) i 400 0) <$> seq 0 3) ++ (HConnect <$> seq 0 3) ++
  [HDisconnect 1; HStart 2 (test_names 7) 3 400 0; HConnect 2].

Definition test_config : config (C:=Z) := go_or (config_init 3 false) (hrun (config_init 3 false) test_acts).

Lemma make_config_test :
  match make_config (C:=Z) 3 false test_names id (fun _ => 400) (fun _ => 0) with
  | Done cfg => connected cfg = [true; true; true]
  | _ => False
  end.
Proof. vm_compute. reflexivity. Qed.


(** Servers 0 and 1 deliver the commands 10 and 20; server 2 only the first. *)
Definition deliveries : list (nat * ApplyMsg Z) :=
  [(0%nat, mkApplyMsg true 10 1); (1%nat, mkApplyMsg true 10 1); (0%nat, mkApplyMsg true 20 2);
   (2%nat, mkApplyMsg true 10 1); (1%nat, mkApplyMsg true 20 2)].
Definition delivered_config : config (C:=Z) :=
  go_or (config_init 3 false) (apply_all (config_init 3 false) deliveries).

Lemma apply_checker_witness : logs_agree (logs delivered_config) ∧ logs_complete (logs delivered_config).
Proof. apply (apply_checker_sound (C:=Z) 3 false deliveries). vm_compute. reflexivity. Defined.

(** Server 0 is the leader; [one] submits 10, which two servers deliver before
    the second look. *)
Definition with_leader : config (C:=Z) :=
  set_rafts (<[0%nat := set_state LEADER <$> mjoin (rafts test_config !! 0%nat)]> (rafts test_config)) test_config.
Definition deliver_10 (cfg : config (C:=Z)) : config (C:=Z) :=
  go_or cfg (apply_all cfg [(0%nat, mkApplyMsg true 10 1); (2%nat, mkApplyMsg true 10 1)]).

Lemma deliver_10_reads : reads deliver_10.
Proof.
  intros cfg. unfold deliver_10. destruct (apply_all cfg _) as [cfg1| |] eqn:E; cbn [go_or].
  - exists [(0%nat, mkApplyMsg true 10 1); (2%nat, mkApplyMsg true 10 1)], cfg1. split; [exact E|reflexivity].
  - apply reads_id.
  - apply reads_id.
Qed.

Lemma one_witness :
  ∃ cfg', one with_leader 10 2 false [([deliver_10; id], id)] = Done (cfg', 1) ∧
    2 ≤ zlen (committed_at 1 (logs cfg')).
Proof.
  assert (snd <$> one with_leader 10 2 false [([deliver_10; id], id)] = Done 1) as E by (vm_compute; reflexivity).
  destruct (one with_leader 10 2 false [([deliver_10; id], id)]) as [[cfg' i]| |] eqn:Eo; [|discriminate E..].
  injection E as E. cbn in E. subst i. exists cfg'. split; [reflexivity|].
  apply (one_reaches_agreement with_leader 10 2 false [([deliver_10; id], id)] cfg' 1).
  - exact Eo.
  - constructor; [|constructor]. split; [|exact reads_id].
    constructor; [exact deliver_10_reads|]. constructor; [exact reads_id|constructor].
  - apply (one_log_start _ 3). vm_compute. reflexivity.
  - lia.
Defined.
