(* ===== verification/KvConfig.v ===== *)
(** * The key/value server and its test harness

    [labs/src/kvraft/server.go], whose operations are still skeletons around a
    Raft server, and the harness [labs/src/kvraft/config.go]: starting and
    shutting down servers, partitions, and the connections of clerks.  A
    [*Clerk] is the number under which it was made.

    The harness uses little of the servers it runs: it starts them, kills them
    and asks their Raft server who leads.  [Replica] states this interface;
    the harness of the shardmaster ([ShardmasterConfig]) is the same program on
    another implementation of it. *)

From S2P Require Import Prelude Gob RaftNode RaftSafety Labrpc.
Local Open Scope Z_scope.

Section kvconfig.
Context {C : Type} `{!Inhabited C, !GobCodec Z, !GobCodec (list (Log C))}.
Notation Network := (@Network string nat _ _ _ _).

(** ** The interface to the servers

    [X] is what a server is given besides its peers and its persister. *)

Class Replica (X Sv : Type) := {
  replica_start : nat → Z → Persister.t → X → Z → Z → go Sv;
  replica_kill : Sv → Sv;
  replica_raft : Sv → Raft C;
}.

(** ** The key/value server *)

Record KVServer := mkKVServer { kv_me : Z; kv_rf : Raft C; kv_dead : bool; kv_maxraftstate : Z }.

Definition KVServer_Kill (kv : KVServer) : KVServer :=
  mkKVServer (kv_me kv) (Kill (kv_rf kv)) true (kv_maxraftstate kv).
Definition KVServer_killed (kv : KVServer) : bool := kv_dead kv.

Definition StartKVServer (n : nat) (me : Z) (ps : Persister.t) (maxraftstate interval now : Z) : go KVServer :=
  rf ← Make n me ps interval now;
  Done (mkKVServer me rf false maxraftstate).

(** The handlers leave the reply as it is: the zero value. *)
Record GetReply := mkGetReply { gr_Err : string; gr_Value : string }.
Record PutAppendReply := mkPutAppendReply { pr_Err : string }.
Definition KVServer_Get (kv : KVServer) (key : string) (reply : GetReply) : KVServer * GetReply := (kv, reply).
Definition KVServer_PutAppend (kv : KVServer) (key value op : string) (reply : PutAppendReply)
    : KVServer * PutAppendReply := (kv, reply).

(** The clerk. *)
Record Clerk (End : Type) := mkClerk { ck_servers : list End }.
Definition MakeClerk {End} (servers : list End) : Clerk End := mkClerk End servers.
Definition Clerk_Get {End} (ck : Clerk End) (key : string) : string := "".
Definition Clerk_PutAppend {End} (ck : Clerk End) (key value op : string) : Clerk End := ck.
Definition Clerk_Put {End} (ck : Clerk End) (key value : string) : Clerk End :=
  Clerk_PutAppend ck key value "Put".
Definition Clerk_Append {End} (ck : Clerk End) (key value : string) : Clerk End :=
  Clerk_PutAppend ck key value "Append".

(** ** The harness *)

Context {X Sv : Type} `{!Replica X Sv}.

Record config := mkConfig {
  net : Network;
  n_servers : nat;
  kvservers : list (option Sv);
  saved : list (option Persister.t);
  endnames : list (option (list string));
  clerks : gmap nat (list string);
  nextClientId : Z;
  maxraftstate : X;
}.

Definition set_net (rn : Network) (cfg : config) : config :=
  mkConfig rn (n_servers cfg) (kvservers cfg) (saved cfg) (endnames cfg) (clerks cfg) (nextClientId cfg) (maxraftstate cfg).
Definition set_kvservers (s : list (option Sv)) (cfg : config) : config :=
  mkConfig (net cfg) (n_servers cfg) s (saved cfg) (endnames cfg) (clerks cfg) (nextClientId cfg) (maxraftstate cfg).
Definition set_saved (s : list (option Persister.t)) (cfg : config) : config :=
  mkConfig (net cfg) (n_servers cfg) (kvservers cfg) s (endnames cfg) (clerks cfg) (nextClientId cfg) (maxraftstate cfg).
Definition set_endnames (e : list (option (list string))) (cfg : config) : config :=
  mkConfig (net cfg) (n_servers cfg) (kvservers cfg) (saved cfg) e (clerks cfg) (nextClientId cfg) (maxraftstate cfg).
Definition set_clerks (c : gmap nat (list string)) (id : Z) (cfg : config) : config :=
  mkConfig (net cfg) (n_servers cfg) (kvservers cfg) (saved cfg) (endnames cfg) c id (maxraftstate cfg).

(** [cfg.endnames[i][j]] *)
Definition end_name (cfg : config) (i j : nat) : go string :=
  o ← idx (endnames cfg) (Z.of_nat i);
  match o with Some l => idx l (Z.of_nat j) | None => Panic end.
(** [cfg.endnames[i] != nil] *)
Definition has_ends (cfg : config) (i : nat) : go bool :=
  o ← idx (endnames cfg) (Z.of_nat i);
  Done (match o with Some _ => true | None => false end).

(** Enabling or disabling the ends of one loop, in order. *)
Fixpoint enable_each (f : nat → nat → go (option string)) (b : bool) (j : nat) (l : list nat) (rn : Network)
    : go Network :=
  match l with
  | [] => Done rn
  | x :: l =>
      o ← f j x;
      enable_each f b (S j) l (match o with Some e => Enable rn e b | None => rn end)
  end.

Definition connectUnlocked (cfg : config) (i : nat) (to : list nat) : go config :=
  rn ← enable_each (fun _ t => e ← end_name cfg i t; Done (Some e)) true 0 to (net cfg);
  rn ← enable_each (fun _ t => e ← end_name cfg t i; Done (Some e)) true 0 to rn;
  Done (set_net rn cfg).

(** The second loop tests [cfg.endnames[j]], not [cfg.endnames[from[j]]]. *)
Definition disconnectUnlocked (cfg : config) (i : nat) (from : list nat) : go config :=
  rn ← enable_each (fun _ t => b ← has_ends cfg i;
                      if (b : bool) then e ← end_name cfg i t; Done (Some e) else Done None) false 0 from (net cfg);
  rn ← enable_each (fun j t => b ← has_ends cfg j;
                      if (b : bool) then e ← end_name cfg t i; Done (Some e) else Done None) false 0 from rn;
  Done (set_net rn cfg).

Definition All (cfg : config) : list nat := seq 0 (n_servers cfg).

Fixpoint each (f : config → nat → go config) (l : list nat) (cfg : config) : go config :=
  match l with
  | [] => Done cfg
  | i :: l => cfg ← f cfg i; each f l cfg
  end.

Definition ConnectAll (cfg : config) : go config :=
  each (fun cfg i => connectUnlocked cfg i (All cfg)) (seq 0 (n_servers cfg)) cfg.

Definition partition (p1 p2 : list nat) (cfg : config) : go config :=
  cfg ← each (fun cfg i => cfg ← disconnectUnlocked cfg i p2; connectUnlocked cfg i p1) p1 cfg;
  each (fun cfg i => cfg ← disconnectUnlocked cfg i p1; connectUnlocked cfg i p2) p2 cfg.

(** The first server that says it is the leader; a server that is down is a
    [nil] dereference. *)
Fixpoint Leader_loop (i : nat) (l : list (option Sv)) : go (bool * nat) :=
  match l with
  | [] => Done (false, 0%nat)
  | None :: _ => Panic
  | Some kv :: l => if (GetState (replica_raft kv)).2 then Done (true, i) else Leader_loop (S i) l
  end.
Definition Leader (cfg : config) : go (bool * nat) := Leader_loop 0 (kvservers cfg).

Fixpoint partition_loop (l : nat) (ixs : list nat) (j : Z) (p1 p2 : list nat) : go (list nat * list nat) :=
  match ixs with
  | [] => Done (p1, p2)
  | i :: ixs =>
      if bool_decide (i ≠ l) then
        if bool_decide (j < zlen p1) then
          p1 ← upd p1 j i; partition_loop l ixs (j + 1) p1 p2
        else
          p2 ← upd p2 (j - zlen p1) i; partition_loop l ixs (j + 1) p1 p2
      else partition_loop l ixs j p1 p2
  end.

Definition make_partition (cfg : config) : go (list nat * list nat) :=
  '(_, l) ← Leader cfg;
  '(p1, p2) ← partition_loop l (seq 0 (n_servers cfg)) 0
                (replicate (n_servers cfg / 2 + 1) 0%nat) (replicate (n_servers cfg / 2) 0%nat);
  p2 ← upd p2 (zlen p2 - 1) l;
  Done (p1, p2).

(** ** Clerks *)

(** [to[j]] indexes the names of the clerk; a clerk that is not there has
    none. *)
Definition client_end (cfg : config) (ck : nat) (t : nat) : go (option string) :=
  e ← idx (default [] (clerks cfg !! ck)) (Z.of_nat t); Done (Some e).

Definition ConnectClientUnlocked (cfg : config) (ck : nat) (to : list nat) : go config :=
  rn ← enable_each (fun _ t => client_end cfg ck t) true 0 to (net cfg); Done (set_net rn cfg).
Definition DisconnectClientUnlocked (cfg : config) (ck : nat) (from : list nat) : go config :=
  rn ← enable_each (fun _ t => client_end cfg ck t) false 0 from (net cfg); Done (set_net rn cfg).

(** Fresh ends, each connected to the server of its index. *)
Fixpoint make_ends (j : nat) (names : list string) (rn : Network) : go Network :=
  match names with
  | [] => Done rn
  | name :: names => rn ← MakeEnd rn name; make_ends (S j) names (Connect rn name j)
  end.

(** [names] are random; [ck] is the address of the new clerk. *)
Definition makeClient (cfg : config) (ck : nat) (names : list string) (to : list nat) : go config :=
  rn ← make_ends 0 names (net cfg);
  let cfg := set_clerks (<[ck := names]> (clerks cfg)) (nextClientId cfg + 1) (set_net rn cfg) in
  ConnectClientUnlocked cfg ck to.

Definition deleteClient (cfg : config) (ck : nat) : config :=
  set_clerks (delete ck (clerks cfg)) (nextClientId cfg) cfg.

(** ** Servers *)

(** What [cfg.saved[i]] points to: a running server writes to the same
    persister. *)
Definition saved_now (cfg : config) (i : nat) : go (option Persister.t) :=
  s ← idx (saved cfg) (Z.of_nat i);
  Done (match s, mjoin (kvservers cfg !! i) with
        | Some _, Some sv => Some (persister (replica_raft sv))
        | _, _ => s
        end).

Definition ShutdownServer (cfg : config) (i : nat) : go config :=
  cfg ← disconnectUnlocked cfg i (All cfg);
  let cfg := set_net (DeleteServer (net cfg) i) cfg in
  s ← saved_now cfg i;
  sv ← upd (saved cfg) (Z.of_nat i) (Persister.Copy <$> s);
  let cfg := set_saved sv cfg in
  kvs ← upd (kvservers cfg) (Z.of_nat i) None;
  Done (set_kvservers kvs cfg).

Definition StartServer (cfg : config) (i : nat) (names : list string) (srv : nat) (interval now : Z) : go config :=
  en ← upd (endnames cfg) (Z.of_nat i) (Some names);
  let cfg := set_endnames en cfg in
  rn ← make_ends 0 names (net cfg);
  let cfg := set_net rn cfg in
  s ← saved_now cfg i;
  let p := match s with Some p => Persister.Copy p | None => Persister.MakePersister end in
  sv ← upd (saved cfg) (Z.of_nat i) (Some p);
  let cfg := set_saved sv cfg in
  kv ← replica_start (n_servers cfg) (Z.of_nat i) p (maxraftstate cfg) interval now;
  kvs ← upd (kvservers cfg) (Z.of_nat i) (Some kv);
  let cfg := set_kvservers kvs cfg in
  Done (set_net (AddServer (net cfg) i srv) cfg).

Definition make_config (n : nat) (unreliable : bool) (maxraft : X) (names : nat → list string)
    (srv : nat → nat) (interval now : nat → Z) : go config :=
  let cfg := mkConfig MakeNetwork n (replicate n None) (replicate n None) (replicate n None) ∅
               (Z.of_nat n + 1000) maxraft in
  cfg ← each (fun cfg i => StartServer cfg i (names i) (srv i) (interval i) (now i)) (seq 0 n) cfg;
  cfg ← ConnectAll cfg;
  Done (set_net (Reliable (net cfg) (negb unreliable)) cfg).

(** Maximum log and snapshot size across all servers. *)
Definition max_size (size : Persister.t → Z) (cfg : config) : go Z :=
  foldl (fun r i => logsize ← r;
           s ← saved_now cfg i;
           match s with
           | Some ps => Done (if bool_decide (size ps > logsize) then size ps else logsize)
           | None => Panic
           end) (Done 0) (seq 0 (n_servers cfg)).
Definition LogSize (cfg : config) : go Z := max_size Persister.RaftStateSize cfg.
Definition SnapshotSize (cfg : config) : go Z := max_size Persister.SnapshotSize cfg.

(** [kv.Kill()] on every server that is up. *)
Definition cleanup (cfg : config) : go config :=
  let cfg := set_kvservers ((fun o : option Sv => replica_kill <$> o) <$> kvservers cfg) cfg in
  rn ← Cleanup (net cfg);
  Done (set_net rn cfg).

(** The same operations, called without the lock. *)
Definition connect (cfg : config) (i : nat) (to : list nat) : go config := connectUnlocked cfg i to.
Definition disconnect (cfg : config) (i : nat) (from : list nat) : go config := disconnectUnlocked cfg i from.
Definition ConnectClient (cfg : config) (ck : nat) (to : list nat) : go config := ConnectClientUnlocked cfg ck to.
Definition DisconnectClient (cfg : config) (ck : nat) (from : list nat) : go config :=
  DisconnectClientUnlocked cfg ck from.

(** ** Statistics *)

(** The counter of operations is a 32-bit integer. *)
Definition int32 (z : Z) : Z := (z + 2 ^ 31) `mod` two32 - 2 ^ 31.
Record stats := mkStats { t0 : Z; rpcs0 : Z; ops : Z }.
Record report := mkReport { rp_time : Z; rp_npeers : nat; rp_nrpc : Z; rp_ops : Z }.

Definition rpcTotal (cfg : config) : Z := GetTotalCount (net cfg).
Definition begin (cfg : config) (now : Z) : stats := mkStats now (rpcTotal cfg) 0.
Definition op (s : stats) : stats := mkStats (t0 s) (rpcs0 s) (int32 (ops s + 1)).
Definition end_ (cfg : config) (s : stats) (now : Z) : report :=
  mkReport (now - t0 s) (n_servers cfg) (rpcTotal cfg - rpcs0 s) (ops s).

(** Up to [2 ^ 31 - 1] operations are counted right. *)
Lemma ops_counted cfg cfg' now now' (k : nat) :
  Z.of_nat k < 2 ^ 31 →
  rp_ops (end_ cfg' (Nat.iter k op (begin cfg now)) now') = Z.of_nat k.
Proof.
  intros Hk. cbn [rp_ops end_]. induction k as [|k IH]; [done|]. rewrite Nat.iter_succ. cbn [op ops].
  rewrite IH by lia. unfold int32, two32. rewrite Z.mod_small by lia. lia.
Qed.

(** [random_handles]: [js] are the random numbers, one for every index. *)
Fixpoint random_handles_loop {A} (i : nat) (js : list nat) (sa : list A) : go (list A) :=
  match js with
  | [] => Done sa
  | j :: js =>
      x ← idx sa (Z.of_nat i);
      y ← idx sa (Z.of_nat j);
      sa ← upd sa (Z.of_nat i) y;
      sa ← upd sa (Z.of_nat j) x;
      random_handles_loop (S i) js sa
  end.
Definition random_handles {A} (js : list nat) (kvh : list A) : go (list A) := random_handles_loop 0 js kvh.

(** Draws that [rand.Intn] can make. *)
Definition draws (i : nat) (js : list nat) : Prop := ∀ k j, js !! k = Some j → (j ≤ i + k)%nat.

(** The loop permutes the first handles and leaves the others. *)
Lemma random_handles_loop_spec {A} (js : list nat) (i : nat) (sa : list A) :
  (i + length js ≤ length sa)%nat → draws i js →
  ∃ sa', random_handles_loop i js sa = Done sa' ∧ sa' ≡ₚ sa ∧
    ∀ k, (i + length js ≤ k)%nat → sa' !! k = sa !! k.
Proof.
  revert i sa. induction js as [|j js IH]; intros i sa Hl Hj; cbn [random_handles_loop]; [by exists sa|].
  cbn [length] in Hl. pose proof (Hj 0%nat j eq_refl) as Hji.
  destruct (lookup_lt_is_Some_2 sa i) as [x Hx]; [lia|].
  destruct (lookup_lt_is_Some_2 sa j) as [y Hy]; [lia|].
  rewrite (idx_nat _ _ _ Hx). go_simpl. rewrite (idx_nat _ _ _ Hy). go_simpl.
  rewrite upd_in_range by len. go_simpl. rewrite upd_in_range by len. go_simpl. rewrite !Nat2Z.id.
  destruct (IH (S i) (<[j := x]> (<[i := y]> sa))) as (sa' & -> & Hp & Hk).
  - rewrite !length_insert. lia.
  - intros k j' Hk. specialize (Hj (S k) j' Hk). lia.
  - exists sa'. split; [done|]. split; [rewrite Hp; by apply Permutation_insert_swap|].
    intros k Hge. cbn [length] in Hge. rewrite Hk by lia. by rewrite !list_lookup_insert_ne by lia.
Qed.

(** The clerk gets its handles in random order, none missing. *)
Lemma random_handles_perm {A} (js : list nat) (kvh : list A) :
  length js = length kvh → (∀ i j, js !! i = Some j → (j ≤ i)%nat) →
  ∃ sa, random_handles js kvh = Done sa ∧ sa ≡ₚ kvh.
Proof.
  intros Hl Hj. destruct (random_handles_loop_spec js 0 kvh) as (sa & ? & ? & _); [lia|done|eauto].
Qed.

(** ** What a partition does *)

(** Every server has its ends, all with different names. *)
Record ends_ok (cfg : config) : Prop := {
  eo_len : length (endnames cfg) = n_servers cfg;
  eo_ends : ∀ i, (i < n_servers cfg)%nat →
    ∃ l, endnames cfg !! i = Some (Some l) ∧ length l = n_servers cfg;
  eo_inj : ∀ i j i' j' e, end_name cfg i j = Done e → end_name cfg i' j' = Done e → i = i' ∧ j = j';
}.

Definition name_of (cfg : config) (i j : nat) : string :=
  match end_name cfg i j with Done e => e | _ => "" end.

Lemma end_name_ok cfg i j :
  ends_ok cfg → (i < n_servers cfg)%nat → (j < n_servers cfg)%nat → end_name cfg i j = Done (name_of cfg i j).
Proof.
  intros Ho Hi Hj. unfold name_of. destruct (eo_ends _ Ho i Hi) as (l & Hl & Hlen).
  unfold end_name. rewrite (idx_nat _ _ _ Hl). go_simpl.
  destruct (lookup_lt_is_Some_2 l j) as [e He]; [lia|]. by rewrite (idx_nat _ _ _ He).
Qed.

Lemma has_ends_ok cfg i : ends_ok cfg → (i < n_servers cfg)%nat → has_ends cfg i = Done true.
Proof.
  intros Ho Hi. destruct (eo_ends _ Ho i Hi) as (l & Hl & _). unfold has_ends. by rewrite (idx_nat _ _ _ Hl).
Qed.

(** The ends enabled and disabled, in order. *)
Definition apply_writes (rn : Network) (ws : list (string * bool)) : Network :=
  foldl (fun rn w => Enable rn w.1 w.2) rn ws.

Lemma apply_writes_lookup rn ws e b :
  (e, b) ∈ ws → (∀ b', (e, b') ∈ ws → b' = b) → enabled (apply_writes rn ws) !! e = Some b.
Proof.
  induction ws as [|[e' b'] ws IH] using rev_ind; intros Hin Hall; [by apply elem_of_nil in Hin|].
  unfold apply_writes. rewrite foldl_app. cbn. destruct (decide (e' = e)) as [->|Hne].
  - rewrite lookup_insert_eq. f_equal. apply Hall. set_solver.
  - rewrite lookup_insert_ne by done. apply IH; [set_solver|]. intros b1 Hb1. apply Hall. set_solver.
Qed.

Lemma enable_each_ok (f : nat → nat → go (option string)) (g : nat → string) b j l rn :
  (∀ k x, (j ≤ k < j + length l)%nat → x ∈ l → f k x = Done (Some (g x))) →
  enable_each f b j l rn = Done (apply_writes rn ((fun x => (g x, b)) <$> l)).
Proof.
  revert j rn. induction l as [|x l IH]; intros j rn Hf; cbn [enable_each]; [done|].
  rewrite (Hf j x); [|cbn; lia|left]. go_simpl. rewrite IH; [done|].
  intros k y Hk Hy. apply Hf; [cbn; lia|by right].
Qed.

(** The ends between [i] and the servers [ts]. *)
Definition between (cfg : config) (b : bool) (i : nat) (ts : list nat) : list (string * bool) :=
  ((fun t => (name_of cfg i t, b)) <$> ts) ++ ((fun t => (name_of cfg t i, b)) <$> ts).

Lemma apply_writes_app rn ws ws' : apply_writes rn (ws ++ ws') = apply_writes (apply_writes rn ws) ws'.
Proof. apply foldl_app. Qed.

Lemma connect_ok cfg i to :
  ends_ok cfg → (i < n_servers cfg)%nat → (∀ t, t ∈ to → (t < n_servers cfg)%nat) →
  connectUnlocked cfg i to = Done (set_net (apply_writes (net cfg) (between cfg true i to)) cfg).
Proof.
  intros Ho Hi Ht. unfold connectUnlocked, between. rewrite apply_writes_app.
  rewrite (enable_each_ok _ (fun t => name_of cfg i t)).
  2: { intros k x _ Hx. by rewrite end_name_ok by eauto. }
  go_simpl. rewrite (enable_each_ok _ (fun t => name_of cfg t i)); [done|].
  intros k x _ Hx. by rewrite end_name_ok by eauto.
Qed.

Lemma disconnect_ok cfg i from :
  ends_ok cfg → (i < n_servers cfg)%nat → (∀ t, t ∈ from → (t < n_servers cfg)%nat) →
  (length from ≤ n_servers cfg)%nat →
  disconnectUnlocked cfg i from = Done (set_net (apply_writes (net cfg) (between cfg false i from)) cfg).
Proof.
  intros Ho Hi Ht Hl. unfold disconnectUnlocked, between. rewrite apply_writes_app.
  rewrite (enable_each_ok _ (fun t => name_of cfg i t)).
  2: { intros k x _ Hx. rewrite has_ends_ok by done. go_simpl. by rewrite end_name_ok by eauto. }
  go_simpl. rewrite (enable_each_ok _ (fun t => name_of cfg t i)); [done|].
  intros k x Hk Hx. rewrite has_ends_ok by (done || lia). go_simpl. by rewrite end_name_ok by eauto.
Qed.

(** One side of a partition: [i] is cut off from [other] and joined to [mine]. *)
Definition side_writes (cfg : config) (other mine : list nat) (i : nat) : list (string * bool) :=
  between cfg false i other ++ between cfg true i mine.

Definition side (cfg : config) (other mine : list nat) : go config :=
  each (fun cfg i => cfg ← disconnectUnlocked cfg i other; connectUnlocked cfg i mine) mine cfg.

Lemma side_ok cfg other mine rn l :
  ends_ok cfg → (∀ t, t ∈ other ∨ t ∈ mine → (t < n_servers cfg)%nat) → (length other ≤ n_servers cfg)%nat →
  (∀ t, t ∈ l → t ∈ mine) →
  each (fun cfg i => cfg ← disconnectUnlocked cfg i other; connectUnlocked cfg i mine) l (set_net rn cfg) =
    Done (set_net (apply_writes rn (concat (side_writes cfg other mine <$> l))) cfg).
Proof.
  intros Ho Ht Hlen. revert rn. induction l as [|i l IH]; intros rn Hl; cbn [each]; [done|].
  assert (∀ rn, ends_ok (set_net rn cfg)) as Ho' by (intros rn'; split; apply Ho).
  rewrite disconnect_ok; [|apply Ho'|apply Ht; right; apply Hl; left|intros t ?; apply Ht; by left|done].
  go_simpl. rewrite connect_ok; [|apply Ho'|apply Ht; right; apply Hl; left|intros t ?; apply Ht; by right].
  go_simpl. change (set_net ?a (set_net ?b (set_net ?c cfg))) with (set_net a cfg).
  rewrite IH by (intros; apply Hl; by right). do 2 f_equal. cbn [fmap list_fmap concat]. unfold side_writes at 2. by rewrite !apply_writes_app.
Qed.

Lemma partition_ok cfg p1 p2 :
  ends_ok cfg → (∀ t, t ∈ p1 ∨ t ∈ p2 → (t < n_servers cfg)%nat) →
  (length p1 ≤ n_servers cfg)%nat → (length p2 ≤ n_servers cfg)%nat →
  partition p1 p2 cfg = Done (set_net (apply_writes (net cfg)
    (concat (side_writes cfg p2 p1 <$> p1) ++ concat (side_writes cfg p1 p2 <$> p2))) cfg).
Proof.
  intros Ho Ht H1 H2. unfold partition. replace cfg with (set_net (net cfg) cfg) at 1 by (by destruct cfg).
  rewrite side_ok; [|done|naive_solver|done|done]. go_simpl. rewrite side_ok; [|done|naive_solver|done|done].
  by rewrite apply_writes_app.
Qed.

(** The servers [O] have been put in place. *)
Definition fst_part (a : nat) (O : list nat) : list nat := take a O ++ replicate (a - length O) 0%nat.
Definition snd_part (a b : nat) (O : list nat) : list nat :=
  drop a O ++ replicate (b - (length O - a)) 0%nat.

Lemma fst_part_snoc a O i : (length O < a)%nat → <[length O := i]> (fst_part a O) = fst_part a (O ++ [i]).
Proof.
  intros Hl. unfold fst_part. rewrite !take_ge by (rewrite ?length_app; cbn; lia).
  replace (a - length O)%nat with (S (a - S (length O))) by lia. cbn [replicate].
  rewrite insert_app_r_alt, Nat.sub_diag by lia. cbn. rewrite <- app_assoc. cbn. do 3 f_equal.
  rewrite length_app. cbn. f_equal. lia.
Qed.

Lemma snd_part_snoc a b O i :
  (a ≤ length O < a + b)%nat → <[(length O - a)%nat := i]> (snd_part a b O) = snd_part a b (O ++ [i]).
Proof.
  intros Hl. unfold snd_part. rewrite drop_app_le by lia.
  replace (b - (length O - a))%nat with (S (b - (S (length O) - a))) by lia. cbn [replicate].
  rewrite insert_app_r_alt by (rewrite length_drop; lia). rewrite length_drop, Nat.sub_diag. cbn.
  rewrite <- app_assoc. cbn. do 3 f_equal. rewrite length_app. cbn. f_equal. lia.
Qed.

Lemma part_lengths a b O :
  length (fst_part a O) = a ∧ ((length O - a ≤ b)%nat → length (snd_part a b O) = b).
Proof.
  unfold fst_part, snd_part. rewrite !length_app, !length_replicate, length_take, length_drop. lia.
Qed.

Lemma fst_part_full a O i : (a ≤ length O)%nat → fst_part a (O ++ [i]) = fst_part a O.
Proof.
  intros Hl. unfold fst_part. rewrite take_app_le, length_app by lia. cbn. do 2 f_equal. lia.
Qed.
Lemma snd_part_empty a b O i : (length O < a)%nat → snd_part a b (O ++ [i]) = snd_part a b O.
Proof.
  intros Hl. unfold snd_part. rewrite !drop_ge by (rewrite ?length_app; cbn; lia).
  rewrite length_app. cbn. do 2 f_equal. lia.
Qed.

Lemma partition_loop_spec l ixs O a b :
  (length O + length (filter (fun i => i ≠ l) ixs) ≤ a + b)%nat →
  partition_loop l ixs (zlen O) (fst_part a O) (snd_part a b O) =
    Done (fst_part a (O ++ filter (fun i => i ≠ l) ixs), snd_part a b (O ++ filter (fun i => i ≠ l) ixs)).
Proof.
  revert O. induction ixs as [|i ixs IH]; intros O Hl; cbn [partition_loop].
  { by rewrite app_nil_r. }
  rewrite filter_cons in *. destruct (decide (i ≠ l)) as [Hne|He].
  2: { rewrite bool_decide_eq_false_2 by done. by apply IH. }
  rewrite bool_decide_eq_true_2 by done. cbn [length] in Hl.
  destruct (part_lengths a b O) as [H1 H2]. specialize (H2 ltac:(lia)).
  replace (O ++ i :: filter (fun i => i ≠ l) ixs) with ((O ++ [i]) ++ filter (fun i => i ≠ l) ixs)
    by (by rewrite <- app_assoc).
  replace (zlen O + 1) with (zlen (O ++ [i])) by len.
  assert (length (O ++ [i]) + length (filter (fun i => i ≠ l) ixs) ≤ a + b)%nat as Hl'
    by (rewrite length_app; cbn; lia).
  destruct (decide (length O < a)%nat) as [Hlt|Hge].
  - rewrite bool_decide_eq_true_2 by len. rewrite upd_in_range by len. go_simpl.
    replace (Z.to_nat (zlen O)) with (length O) by len. rewrite fst_part_snoc by done.
    rewrite <- (snd_part_empty a b O i) by done. by apply IH.
  - rewrite bool_decide_eq_false_2 by len.
    rewrite upd_in_range by len. go_simpl.
    replace (Z.to_nat (zlen O - zlen (fst_part a O))) with (length O - a)%nat by len.
    rewrite snd_part_snoc by lia. rewrite <- (fst_part_full a O i) by lia. by apply IH.
Qed.

Lemma Leader_loop_ok i l :
  Forall is_Some l → ∃ b k, Leader_loop i l = Done (b, k) ∧ (k = 0 ∨ i ≤ k < i + length l)%nat.
Proof.
  intros Hl. revert i. induction Hl as [|x l [kv ->] Hl IH]; intros i; cbn [Leader_loop].
  { exists false, 0%nat. auto. }
  destruct (GetState (replica_raft kv)).2.
  - exists true, i. split; [done|]. cbn. lia.
  - destruct (IH (S i)) as (b & k & -> & Hk). exists b, k. split; [done|]. cbn. lia.
Qed.

(** An odd number of servers, all up: the leader (server 0 if there is none)
    is in the minority. *)
Lemma make_partition_ok cfg k b l :
  n_servers cfg = (2 * S k + 1)%nat → Leader cfg = Done (b, l) → (l < n_servers cfg)%nat →
  ∃ p1 p2, make_partition cfg = Done (p1, p2) ∧ p1 ++ p2 ≡ₚ seq 0 (n_servers cfg) ∧
    length p1 = (k + 2)%nat ∧ length p2 = S k ∧ l ∈ p2.
Proof.
  intros Hn HL Hl. set (O := filter (fun i => i ≠ l) (seq 0 (n_servers cfg))).
  assert (seq 0 (n_servers cfg) ≡ₚ l :: O) as Hp.
  { apply NoDup_Permutation; [apply NoDup_seq| |].
    - constructor; [by intros [? _]%list_elem_of_filter|]. apply NoDup_filter, NoDup_seq.
    - intros x. unfold O. rewrite elem_of_cons, list_elem_of_filter, elem_of_seq.
      destruct (decide (x = l)); [subst; lia|]. split; [naive_solver|]. intros [?|[_ ?]]; [done|lia]. }
  assert (length O = (2 * S k)%nat) as HO.
  { apply Permutation_length in Hp. rewrite length_seq in Hp. cbn in Hp. lia. }
  unfold make_partition. rewrite HL. go_simpl.
  replace (n_servers cfg / 2)%nat with (S k) by (rewrite Hn; apply (Nat.div_unique _ _ _ 1); lia).
  pose proof (partition_loop_spec l (seq 0 (n_servers cfg)) [] (S k + 1) (S k)) as Hloop. fold O in Hloop.
  change (fst_part (S k + 1) []) with (replicate (S k + 1) 0%nat) in Hloop.
  change (snd_part (S k + 1) (S k) []) with (replicate (S k) 0%nat) in Hloop.
  change (zlen []) with 0 in Hloop. rewrite Hloop by (cbn [length]; lia). go_simpl. cbn [app].
  unfold fst_part, snd_part. change ([] ++ O) with O. rewrite HO.
  replace (S k + 1 - 2 * S k)%nat with 0%nat by lia.
  replace (S k - (2 * S k - (S k + 1)))%nat with 1%nat by lia. cbn [replicate]. rewrite app_nil_r.
  assert (length (drop (S k + 1) O) = k) as Hd by (rewrite length_drop; lia).
  rewrite upd_in_range by len. go_simpl.
  replace (Z.to_nat (zlen (drop (S k + 1) O ++ [0%nat]) - 1)) with (length (drop (S k + 1) O))
    by len.
  rewrite insert_app_r_alt, Nat.sub_diag by lia. cbn [insert list_insert].
  eexists _, _. split; [done|]. rewrite app_assoc, take_drop. split; [|split; [|split]].
  - rewrite Hp. symmetry; apply Permutation_cons_append.
  - rewrite length_take. lia.
  - rewrite length_app, Hd. cbn. lia.
  - set_solver.
Qed.

Lemma between_elem cfg b i ts (e : string) (v : bool) :
  (e, v) ∈ between cfg b i ts ↔ v = b ∧ ∃ t, t ∈ ts ∧ (e = name_of cfg i t ∨ e = name_of cfg t i).
Proof. unfold between. rewrite elem_of_app, !list_elem_of_fmap. naive_solver. Qed.

Lemma side_elem cfg other mine (e : string) (v : bool) :
  (e, v) ∈ concat (side_writes cfg other mine <$> mine) ↔
  ∃ i t, i ∈ mine ∧ (if v then t ∈ mine else t ∈ other) ∧ (e = name_of cfg i t ∨ e = name_of cfg t i).
Proof.
  rewrite list_elem_of_In, in_concat. setoid_rewrite <- list_elem_of_In. setoid_rewrite list_elem_of_fmap. split.
  - intros (ws & (i & -> & Hi) & Hw). unfold side_writes in Hw.
    apply elem_of_app in Hw as [(-> & t & ? & ?)%between_elem|(-> & t & ? & ?)%between_elem]; eauto 6.
  - intros (i & t & Hi & Ht & He). exists (side_writes cfg other mine i). split; [eauto|].
    unfold side_writes. apply elem_of_app. destruct v; [right|left]; apply between_elem; eauto.
Qed.

(** C40: with an odd number of servers, at least three and all of them up,
    [make_partition] splits them into a majority and a minority that has the
    leader in it, and [partition] then leaves enabled exactly the ends between
    servers of the same part, whatever was enabled before. *)
Theorem partition_isolates_leader cfg k b l :
  ends_ok cfg → n_servers cfg = (2 * S k + 1)%nat →
  Leader cfg = Done (b, l) → (l < n_servers cfg)%nat →
  ∃ p1 p2 cfg', make_partition cfg = Done (p1, p2) ∧
    p1 ++ p2 ≡ₚ seq 0 (n_servers cfg) ∧ (length p2 < length p1)%nat ∧ l ∈ p2 ∧
    partition p1 p2 cfg = Done cfg' ∧
    ∀ i j e, end_name cfg i j = Done e → (i < n_servers cfg)%nat → (j < n_servers cfg)%nat →
      enabled (net cfg') !! e = Some (bool_decide (i ∈ p1 ↔ j ∈ p1)).
Proof.
  intros Ho Hn HL Hl. destruct (make_partition_ok cfg k b l Hn HL Hl) as (p1 & p2 & Hp & Hperm & H1 & H2 & Hin).
  assert (∀ t, t ∈ p1 ∨ t ∈ p2 ↔ (t < n_servers cfg)%nat) as Hall.
  { intros t. rewrite <- elem_of_app, Hperm, elem_of_seq. lia. }
  assert (∀ t, t ∈ p1 → t ∈ p2 → False) as Hdis.
  { assert (NoDup (p1 ++ p2)) as (_ & Hd & _)%NoDup_app by (rewrite Hperm; apply NoDup_seq). done. }
  eexists p1, p2, _. split; [done|]. split; [done|]. split; [lia|]. split; [done|].
  split; [apply partition_ok; [done|apply Hall|lia|lia]|].
  intros i j e He Hi Hj. cbn [net set_net].
  assert (∀ a c, (a < n_servers cfg)%nat → (c < n_servers cfg)%nat → e = name_of cfg a c → a = i ∧ c = j) as Hname.
  { intros a c Ha Hc ->. symmetry in He. 
    by destruct (eo_inj _ Ho a c i j (name_of cfg a c)); [apply end_name_ok|..]. }
  assert (e = name_of cfg i j) as Ee by (unfold name_of; by rewrite He).
  assert (∀ v, (e, v) ∈ concat (side_writes cfg p2 p1 <$> p1) ++ concat (side_writes cfg p1 p2 <$> p2) ↔
    v = bool_decide (i ∈ p1 ↔ j ∈ p1)) as Hw.
  { intros v. rewrite elem_of_app, !side_elem. split.
    - assert (∀ a c, (a < n_servers cfg)%nat → (c < n_servers cfg)%nat →
        e = name_of cfg a c ∨ e = name_of cfg c a → a = i ∧ c = j ∨ c = i ∧ a = j) as Hcase.
      { intros a c Ha Hc [E|E]; [left|right]; by apply Hname. }
      intros [(a & c & Ha & Hc & Hac)|(a & c & Ha & Hc & Hac)];
        (apply Hcase in Hac; [|apply Hall; auto|apply Hall; destruct v; auto]);
        destruct v; symmetry;
        (apply bool_decide_eq_true || apply bool_decide_eq_false); naive_solver.
    - intros ->. apply Hall in Hi, Hj. case_bool_decide as Hb.
      + destruct Hi as [Hi|Hi]; [left; exists i, j; naive_solver|right; exists i, j].
        split; [done|]. split; [|auto]. destruct Hj; [|done]. exfalso. naive_solver.
      + destruct Hi as [Hi|Hi]; [left|right]; exists i, j; (split; [done|]); (split; [|auto]); naive_solver. }
  apply apply_writes_lookup; [by apply Hw|]. intros b' Hb'. by apply Hw.
Qed.

(** ** A server that is shut down and started again *)

(** A server is started around a Raft server made from its persister. *)
Class ReplicaLaws : Prop :=
  replica_start_Make n me ps x interval now rf :
    Make n me ps interval now = Done rf →
    ∃ sv : Sv, replica_start n me ps x interval now = Done sv ∧ replica_raft sv = rf.

Context `{!ReplicaLaws, !Gob Z, !Gob (list (Log C))}.

Lemma make_ends_ok names j rn :
  NoDup names → (∀ e, e ∈ names → e ∉ ends rn) →
  ∃ rn', make_ends j names rn = Done rn' ∧ servers rn' = servers rn ∧
    (∀ (k : nat) e, names !! k = Some e →
       connections rn' !! e = Some (Some (j + k)%nat) ∧ enabled rn' !! e = Some false) ∧
    (∀ e, e ∉ names → enabled rn' !! e = enabled rn !! e ∧ connections rn' !! e = connections rn !! e).
Proof.
  revert j rn. induction names as [|name names IH]; intros j rn Hnd Hf; cbn [make_ends].
  { exists rn. split; [done|]. split; [done|]. split; [done|]. done. }
  apply NoDup_cons in Hnd as [Hn Hnd]. unfold MakeEnd. rewrite bool_decide_eq_false_2 by (apply Hf; left).
  go_simpl. edestruct (IH (S j)) as (rn' & Hm & Hs & Hk & Ho); [done| |].
  2: { exists rn'. split; [exact Hm|]. split; [done|]. split.
       - intros [|k] e Hke; cbn in Hke.
         + injection Hke as <-. destruct (Ho name Hn) as [-> ->]. cbn.
           rewrite !lookup_insert_eq, Nat.add_0_r. done.
         + destruct (Hk k e Hke) as [-> ->]. split; [do 2 f_equal; lia|done].
       - intros e [Hne He]%not_elem_of_cons. destruct (Ho e He) as [-> ->]. cbn.
         by rewrite !lookup_insert_ne by done. }
  intros e He. cbn. apply not_elem_of_union. split; [|apply Hf; by right].
  apply not_elem_of_singleton. by intros ->.
Qed.

Lemma apply_writes_frame rn ws :
  servers (apply_writes rn ws) = servers rn ∧ ends (apply_writes rn ws) = ends rn.
Proof.
  revert rn. induction ws as [|w ws IH]; intros rn; [done|]. cbn.
  destruct (IH (Enable rn w.1 w.2)) as [E1 E2]. unfold apply_writes in *. by rewrite E1, E2.
Qed.

Lemma shutdown_ok cfg i ps :
  ends_ok cfg → (i < n_servers cfg)%nat →
  length (saved cfg) = n_servers cfg → length (kvservers cfg) = n_servers cfg →
  saved_now cfg i = Done (Some ps) →
  ShutdownServer cfg i = Done (mkConfig (DeleteServer (apply_writes (net cfg) (between cfg false i (All cfg))) i)
    (n_servers cfg) (<[i := None]> (kvservers cfg)) (<[i := Some ps]> (saved cfg))
    (endnames cfg) (clerks cfg) (nextClientId cfg) (maxraftstate cfg)).
Proof.
  intros Ho Hi Hs Hk Hps. unfold ShutdownServer.
  rewrite disconnect_ok; [|done|done| |unfold All; by rewrite length_seq].
  2: { intros t Ht. apply elem_of_seq in Ht. lia. }
  go_simpl. change (saved_now (set_net ?a (set_net ?b cfg)) i) with (saved_now cfg i). rewrite Hps. go_simpl.
  cbn [saved set_net fmap option_fmap option_map]. rewrite upd_in_range by len. go_simpl.
  cbn [kvservers set_saved set_net]. rewrite upd_in_range by len. go_simpl.
  rewrite Nat2Z.id, Copy_id. done.
Qed.


End kvconfig.
#[export] Instance KVServer_replica {C} `{!Inhabited C, !GobCodec Z, !GobCodec (list (Log C))} :
  Replica (C:=C) Z (KVServer (C:=C)) := {|
  replica_start := StartKVServer;
  replica_kill := KVServer_Kill;
  replica_raft := kv_rf;
|}.

#[export] Instance KVServer_laws {C} `{!Inhabited C, !GobCodec Z, !GobCodec (list (Log C))} :
  ReplicaLaws (C:=C) (X:=Z) (Sv:=KVServer (C:=C)).
Proof. intros n me ps x interval now rf H. eexists. cbn. unfold StartKVServer. by rewrite H. Qed.
