(* ===== verification/RandString.v ===== *)
(** * Random names and random orders ([config.go] of the labs)

    [randstring] names the ends of the simulated network: [2*n] random bytes
    in base 64 (with the alphabet for file names), cut to [n] characters.
    [makeSeed] and [nrand] draw numbers below 2^62.  The draws are arguments.
    The four packages have the same functions.

    A name of [n] characters shows the first [6*n] bits of its draw and no
    others ([randstring_names]), so every name comes from the same number of
    draws; and [random_handles] reaches every order of the handles by exactly
    one sequence of draws ([random_handles_uniform]). *)

From S2P Require Import Prelude KvConfig.
From Stdlib Require Import Ascii.
Local Open Scope Z_scope.

(** ** base64.URLEncoding *)

Definition alphabet : string := "ABCDEFGHIJKLMNOPQRSTUVWXYZabcdefghijklmnopqrstuvwxyz0123456789-_".

Definition encode_char (v : Z) : ascii :=
  default "="%char (String.list_ascii_of_string alphabet !! Z.to_nat v).

(** Three bytes to four characters, the rest padded. *)
Fixpoint EncodeToString (src : list Z) : list ascii :=
  match src with
  | a :: b :: c :: src =>
      let val := Z.lor (Z.lor (Z.shiftl a 16) (Z.shiftl b 8)) c in
      encode_char (Z.land (Z.shiftr val 18) 63) :: encode_char (Z.land (Z.shiftr val 12) 63) ::
      encode_char (Z.land (Z.shiftr val 6) 63) :: encode_char (Z.land val 63) :: EncodeToString src
  | [a; b] =>
      let val := Z.lor (Z.shiftl a 16) (Z.shiftl b 8) in
      [encode_char (Z.land (Z.shiftr val 18) 63); encode_char (Z.land (Z.shiftr val 12) 63);
       encode_char (Z.land (Z.shiftr val 6) 63); "="%char]
  | [a] =>
      let val := Z.shiftl a 16 in
      [encode_char (Z.land (Z.shiftr val 18) 63); encode_char (Z.land (Z.shiftr val 12) 63);
       "="%char; "="%char]
  | [] => []
  end.

(** [b]: the bytes that [crand.Read] filled in, [2*n] of them. *)
Definition randstring (n : nat) (b : list Z) : go (list ascii) :=
  let s := EncodeToString b in
  if bool_decide (n ≤ length s)%nat then Done (take n s) else Panic.

(** [bigx]: what [crand.Int] drew below [max]; [Int64] keeps 64 bits. *)
Definition int64 (z : Z) : Z := (z + 2 ^ 63) mod 2 ^ 64 - 2 ^ 63.
Definition makeSeed (bigx : Z) : Z := int64 bigx.

Lemma makeSeed_spec bigx : 0 ≤ bigx < Z.shiftl 1 62 → makeSeed bigx = bigx.
Proof. intros H. unfold makeSeed, int64. change (Z.shiftl 1 62) with (2 ^ 62) in H. rewrite Z.mod_small; lia. Qed.

(** ** Six bits at a time *)

Definition is_byte (z : Z) : Prop := 0 ≤ z < 256.

(** The bytes as one number, the first byte first. *)
Fixpoint value (b : list Z) : Z :=
  match b with
  | [] => 0
  | x :: b => x * 2 ^ (8 * zlen b) + value b
  end.

(** The [i]-th group of six bits. *)
Definition sextet (b : list Z) (i : nat) : Z :=
  value b / 2 ^ (8 * zlen b - 6 * Z.of_nat i - 6) mod 64.

Lemma value_range b : Forall is_byte b → 0 ≤ value b < 2 ^ (8 * zlen b).
Proof.
  induction 1 as [|x b Hx _ IH]; [done|]. unfold is_byte in Hx. cbn [value].
  replace (8 * zlen (x :: b)) with (8 + 8 * zlen b) by (unfold zlen; cbn [length]; lia).
  rewrite Z.pow_add_r by (unfold zlen; lia). nia.
Qed.

Lemma lor_add a b n : 0 ≤ b < 2 ^ n → 0 ≤ n → Z.lor (a * 2 ^ n) b = a * 2 ^ n + b.
Proof.
  intros Hb Hn. rewrite <- Z.shiftl_mul_pow2 by done. symmetry. apply Z.add_nocarry_lor.
  apply Z.bits_inj'. intros i Hi. rewrite Z.land_spec, Z.bits_0, Z.shiftl_spec by done.
  destruct (decide (i < n)).
  - by rewrite Z.testbit_neg_r by lia.
  - destruct (decide (b = 0)) as [->|]; [by rewrite Z.bits_0, andb_false_r|].
    rewrite (Z.bits_above_log2 b), andb_false_r; [done|lia|]. apply Z.log2_lt_pow2; [lia|].
    apply (Z.lt_le_trans _ (2 ^ n)); [lia|]. apply Z.pow_le_mono_r; lia.
Qed.

(** The number that a group of three bytes stands for. *)
Lemma group_value a b c : is_byte b → is_byte c →
  Z.lor (Z.lor (Z.shiftl a 16) (Z.shiftl b 8)) c = value [a; b; c].
Proof.
  intros Hb Hc. unfold is_byte in *. rewrite !Z.shiftl_mul_pow2 by lia.
  rewrite (lor_add a (b * 2 ^ 8) 16) by lia.
  replace (a * 2 ^ 16 + b * 2 ^ 8) with ((a * 2 ^ 8 + b) * 2 ^ 8) by lia. rewrite lor_add by lia.
  cbn [value]. change (zlen [b; c]) with 2. change (zlen [c]) with 1. change (zlen (@nil Z)) with 0. lia.
Qed.

Lemma shift_sextet v e : 0 ≤ e → Z.land (Z.shiftr v e) 63 = v / 2 ^ e mod 64.
Proof. intros He. rewrite Z.shiftr_div_pow2 by done. apply (Z.land_ones _ 6). lia. Qed.

(** A number in two parts: six bits of the first, or of the second. *)
Lemma high_part v r m e : 0 ≤ r < 2 ^ m → 0 ≤ m ≤ e → (v * 2 ^ m + r) / 2 ^ e = v / 2 ^ (e - m).
Proof.
  intros Hr Hm. replace e with (m + (e - m)) at 1 by lia. rewrite Z.pow_add_r by lia.
  rewrite <- Z.div_div by lia. by rewrite Z.div_add_l, (Z.div_small r), Z.add_0_r by lia.
Qed.

Lemma low_part v r m e : 0 ≤ e → e + 6 ≤ m → (v * 2 ^ m + r) / 2 ^ e mod 64 = r / 2 ^ e mod 64.
Proof.
  intros He Hm. replace m with ((m - e - 6) + 6 + e) by lia. rewrite !Z.pow_add_r by lia.
  replace (v * (2 ^ (m - e - 6) * 2 ^ 6 * 2 ^ e) + r) with (v * 2 ^ (m - e - 6) * 64 * 2 ^ e + r) by lia.
  rewrite Z.div_add_l by lia. rewrite Z.add_comm. apply Z.mod_add. lia.
Qed.

Lemma value_group a b c l : value (a :: b :: c :: l) = value [a; b; c] * 2 ^ (8 * zlen l) + value l.
Proof.
  cbn [value]. unfold zlen. cbn [length].
  replace (8 * Z.of_nat (S (S (length l)))) with (16 + 8 * Z.of_nat (length l)) by lia.
  replace (8 * Z.of_nat (S (length l))) with (8 + 8 * Z.of_nat (length l)) by lia.
  rewrite !Z.pow_add_r by lia. change (8 * Z.of_nat 2) with 16. change (8 * Z.of_nat 1) with 8.
  change (8 * Z.of_nat 0) with 0. ring.
Qed.

Lemma sextet_first a b c l i : Forall is_byte l → (i < 4)%nat →
  sextet (a :: b :: c :: l) i = value [a; b; c] / 2 ^ (18 - 6 * Z.of_nat i) mod 64.
Proof.
  intros Hl Hi. unfold sextet. rewrite value_group.
  replace (8 * zlen (a :: b :: c :: l) - 6 * Z.of_nat i - 6) with (8 * zlen l + (18 - 6 * Z.of_nat i))
    by (unfold zlen; cbn [length]; lia).
  rewrite high_part; [|by apply value_range|unfold zlen; lia]. do 3 f_equal. lia.
Qed.

Lemma sextet_later a b c l i : 6 * Z.of_nat i + 6 ≤ 8 * zlen l →
  sextet (a :: b :: c :: l) (4 + i) = sextet l i.
Proof.
  intros Hi. unfold sextet. rewrite value_group.
  replace (8 * zlen (a :: b :: c :: l) - 6 * Z.of_nat (4 + i) - 6) with (8 * zlen l - 6 * Z.of_nat i - 6)
    by (unfold zlen; cbn [length]; lia).
  apply low_part; lia.
Qed.

(** Every full group of six bits is one character. *)
Lemma encode_sextets b i : Forall is_byte b → 6 * Z.of_nat i + 6 ≤ 8 * zlen b →
  EncodeToString b !! i = Some (encode_char (sextet b i)).
Proof.
  revert i. induction b as [b IH] using (induction_ltof1 _ length). unfold ltof in IH.
  intros i Hb Hi. destruct b as [|x [|y [|z b]]].
  - unfold zlen in Hi. cbn in Hi. lia.
  - change (zlen [x]) with 1 in Hi. assert (i = 0%nat) as -> by lia. apply Forall_cons in Hb as [Hx _].
    cbn [EncodeToString lookup list_lookup]. do 2 f_equal. rewrite shift_sextet, Z.shiftl_mul_pow2 by lia.
    unfold sextet. change (8 * zlen [x] - 6 * Z.of_nat 0 - 6) with 2. cbn [value]. change (zlen (@nil Z)) with 0.
    f_equal. change (2 ^ 18) with (2 ^ 16 * 2 ^ 2). rewrite <- Z.div_div, Z.div_mul by lia. f_equal. lia.
  - change (zlen [x; y]) with 2 in Hi. apply Forall_cons in Hb as [Hx Hb]. apply Forall_cons in Hb as [Hy _].
    unfold is_byte in *.
    assert (Z.lor (Z.shiftl x 16) (Z.shiftl y 8) = value [x; y] * 2 ^ 8) as E.
    { rewrite !Z.shiftl_mul_pow2 by lia. rewrite (lor_add x (y * 2 ^ 8) 16) by lia. cbn [value].
      change (zlen [y]) with 1. change (zlen (@nil Z)) with 0. lia. }
    cbn [EncodeToString]. rewrite E, !shift_sextet by lia. unfold sextet. change (zlen [x; y]) with 2.
    assert (i = 0 ∨ i = 1)%nat as [->| ->] by lia; cbn [lookup list_lookup]; do 3 f_equal.
    + change (2 ^ 18) with (2 ^ 8 * 2 ^ 10). by rewrite <- Z.div_div, Z.div_mul by lia.
    + change (2 ^ 12) with (2 ^ 8 * 2 ^ 4). by rewrite <- Z.div_div, Z.div_mul by lia.
  - repeat (apply Forall_cons in Hb as [? Hb]). cbn [EncodeToString]. rewrite group_value by done.
    destruct (decide (i < 4)%nat) as [Hlt|].
    + rewrite sextet_first by done. change (Z.land (value [x; y; z]) 63) with (Z.land (Z.shiftr (value [x; y; z]) 0) 63).
      rewrite !shift_sextet by lia. destruct i as [|[|[|[|i]]]]; [done..|lia].
    + destruct i as [|[|[|[|i]]]]; try lia. cbn [lookup list_lookup]. change (S (S (S (S i)))) with (4 + i)%nat.
      assert (6 * Z.of_nat i + 6 ≤ 8 * zlen b) by (unfold zlen in *; cbn [length] in *; lia).
      rewrite sextet_later by done. apply IH; [cbn; lia|done|done].
Qed.

(** ** Names *)

Lemma encode_char_lookup v : 0 ≤ v < 64 →
  String.list_ascii_of_string alphabet !! Z.to_nat v = Some (encode_char v).
Proof.
  intros Hv. unfold encode_char.
  destruct (lookup_lt_is_Some_2 (String.list_ascii_of_string alphabet) (Z.to_nat v)) as [c Hc]; [|by rewrite Hc].
  change (length (String.list_ascii_of_string alphabet)) with 64%nat. lia.
Qed.

Lemma encode_char_inj v v' : 0 ≤ v < 64 → 0 ≤ v' < 64 → encode_char v = encode_char v' → v = v'.
Proof.
  intros Hv Hv' E. apply Z2Nat.inj; [lia..|].
  assert (NoDup (String.list_ascii_of_string alphabet)) as Hnd by (apply (bool_decide_unpack _); vm_compute; exact I).
  eapply (NoDup_lookup _ _ _ (encode_char v)); [exact Hnd|by apply encode_char_lookup|].
  rewrite E. by apply encode_char_lookup.
Qed.

(** A number below 64^n is given by its digits. *)
Lemma digits_inj n p q : 0 ≤ p < 2 ^ (6 * Z.of_nat n) → 0 ≤ q < 2 ^ (6 * Z.of_nat n) →
  (∀ i, (i < n)%nat → p / 2 ^ (6 * Z.of_nat i) mod 64 = q / 2 ^ (6 * Z.of_nat i) mod 64) → p = q.
Proof.
  revert p q. induction n as [|n IH]; intros p q Hp Hq Hd.
  { change (2 ^ (6 * Z.of_nat 0)) with 1 in *. lia. }
  replace (6 * Z.of_nat (S n)) with (6 + 6 * Z.of_nat n) in * by lia. rewrite Z.pow_add_r in * by lia.
  change (2 ^ 6) with 64 in *. pose proof (Hd 0%nat ltac:(lia)) as H0.
  change (2 ^ (6 * Z.of_nat 0)) with 1 in H0. rewrite !Z.div_1_r in H0.
  assert (p / 64 = q / 64) as E.
  { apply IH; [split; [apply Z.div_pos; lia|apply Z.div_lt_upper_bound; lia]..|].
    intros i Hi. specialize (Hd (S i) ltac:(lia)). rewrite !Z.div_div by lia.
    replace (6 * Z.of_nat (S i)) with (6 + 6 * Z.of_nat i) in Hd by lia. rewrite Z.pow_add_r in Hd by lia. done. }
  rewrite (Z.div_mod p 64), (Z.div_mod q 64) by lia. congruence.
Qed.

(** The bits that a name of [n] characters shows. *)
Definition shown (n : nat) (b : list Z) : Z := value b / 2 ^ (10 * Z.of_nat n).

Lemma sextet_shown n b i : length b = (2 * n)%nat → (i < n)%nat →
  sextet b i = shown n b / 2 ^ (6 * Z.of_nat (n - 1 - i)) mod 64.
Proof.
  intros Hl Hi. unfold sextet, shown, zlen. rewrite Hl, Z.div_div by lia. rewrite <- Z.pow_add_r by lia.
  do 3 f_equal. lia.
Qed.

Lemma shown_range n b : Forall is_byte b → length b = (2 * n)%nat → 0 ≤ shown n b < 2 ^ (6 * Z.of_nat n).
Proof.
  intros Hb Hl. pose proof (value_range b Hb) as Hv. unfold shown. split; [apply Z.div_pos; lia|].
  apply Z.div_lt_upper_bound; [lia|]. rewrite <- Z.pow_add_r by lia. unfold zlen in Hv. rewrite Hl in Hv.
  replace (10 * Z.of_nat n + 6 * Z.of_nat n) with (8 * Z.of_nat (2 * n)) by lia. lia.
Qed.

(** The characters of a name. *)
Lemma randstring_chars n b : Forall is_byte b → length b = (2 * n)%nat →
  randstring n b = Done ((fun i => encode_char (sextet b i)) <$> seq 0 n).
Proof.
  intros Hb Hl. assert (∀ i, (i < n)%nat → EncodeToString b !! i = Some (encode_char (sextet b i))) as Hc.
  { intros i Hi. apply encode_sextets; [done|]. unfold zlen. rewrite Hl. lia. }
  unfold randstring. rewrite bool_decide_eq_true_2.
  2: { destruct n as [|n]; [lia|]. specialize (Hc n ltac:(lia)). apply lookup_lt_Some in Hc. lia. }
  f_equal. apply list_eq. intros i. destruct (decide (i < n)%nat) as [Hi|Hi].
  - rewrite lookup_take_lt, Hc by done. rewrite list_lookup_fmap, lookup_seq_lt by done. done.
  - rewrite lookup_take_ge by lia. rewrite list_lookup_fmap, lookup_seq_ge by lia. done.
Qed.

(** For [2*n] random bytes, [randstring] returns [n] characters of the
    alphabet.  Two draws give the same name exactly when they agree on their
    first [6*n] bits. *)
Theorem randstring_names n b b' :
  Forall is_byte b → Forall is_byte b' → length b = (2 * n)%nat → length b' = (2 * n)%nat →
  (∃ s, randstring n b = Done s ∧ length s = n ∧ Forall (fun c => c ∈ String.list_ascii_of_string alphabet) s) ∧
  (randstring n b = randstring n b' ↔ shown n b = shown n b').
Proof.
  intros Hb Hb' Hl Hl'. rewrite !randstring_chars by done.
  assert (∀ c i, 0 ≤ sextet c i < 64) as Hr by (intros; apply Z.mod_pos_bound; lia). split.
  - eexists. split; [done|]. split; [by rewrite length_fmap, length_seq|].
    apply Forall_fmap, Forall_forall. intros i _. cbn. eapply list_elem_of_lookup_2. by apply encode_char_lookup.
  - split.
    + intros [= E]. apply (digits_inj n); [by apply shown_range..|]. intros i Hi.
      replace i with (n - 1 - (n - 1 - i))%nat by lia. rewrite <- !sextet_shown by (done || lia).
      apply encode_char_inj; [apply Hr..|].
      apply (f_equal (fun l => l !! (n - 1 - i)%nat)) in E. rewrite !list_lookup_fmap, lookup_seq_lt in E by lia.
      by injection E.
    + intros E. f_equal. apply list_fmap_ext. intros k i Hi. apply lookup_seq in Hi as [-> Hlt].
      rewrite !(sextet_shown n) by done. by rewrite E.
Qed.

(** ** Orders *)

Section orders.
Context {A : Type}.

Lemma random_handles_loop_app i js js' (sa : list A) :
  random_handles_loop i (js ++ js') sa =
  (sa ← random_handles_loop i js sa; random_handles_loop (i + length js) js' sa).
Proof.
  revert i sa. induction js as [|j js IH]; intros i sa; cbn [app random_handles_loop length].
  { by rewrite Nat.add_0_r. }
  destruct (idx sa (Z.of_nat i)) as [x| |]; [|done..]. go_simpl. destruct (idx sa (Z.of_nat j)) as [y| |]; [|done..].
  go_simpl. destruct (upd sa _ y) as [sa1| |]; [|done..]. go_simpl. destruct (upd sa1 _ x) as [sa2| |]; [|done..].
  go_simpl. rewrite IH. by rewrite Nat.add_succ_r.
Qed.

(** The last draw, and the order before it, can be read off the result. *)
Lemma last_swap n j js (sa : list A) x :
  length js = n → draws 0 (js ++ [j]) → sa !! n = Some x →
  ∃ mid r y, random_handles_loop 0 js sa = Done mid ∧ random_handles_loop 0 (js ++ [j]) sa = Done r ∧
    r ≡ₚ sa ∧ r !! j = Some x ∧ r !! n = Some y ∧ mid = <[n := x]> (<[j := y]> r).
Proof.
  intros Hl Hd Hx. pose proof (lookup_lt_Some _ _ _ Hx) as Hlt.
  destruct (random_handles_loop_spec js 0 sa) as (mid & Hm & Hp & Hk); [cbn; lia| |].
  { intros k j' Hj'. apply (Hd k). by apply lookup_app_l_Some. }
  assert (j ≤ n)%nat as Hj by (rewrite <- Hl; apply (Hd (length js)), list_lookup_middle; done).
  assert (mid !! n = Some x) as Hmx by (rewrite Hk; [done|lia]).
  pose proof (Permutation_length Hp) as Hlen.
  destruct (lookup_lt_is_Some_2 mid j) as [y Hy]; [lia|].
  exists mid, (<[j := x]> (<[n := y]> mid)), y. split; [done|].
  assert (random_handles_loop 0 (js ++ [j]) sa = Done (<[j := x]> (<[n := y]> mid))) as Hr.
  { rewrite random_handles_loop_app, Hm. go_simpl. rewrite Hl. cbn [random_handles_loop Nat.add].
    rewrite (idx_nat _ _ _ Hmx). go_simpl. rewrite (idx_nat _ _ _ Hy). go_simpl.
    rewrite upd_in_range by len. go_simpl. rewrite upd_in_range by len. by rewrite !Nat2Z.id. }
  assert (<[j := x]> (<[n := y]> mid) !! j = Some x) as Hjx.
  { apply list_lookup_insert_eq. rewrite length_insert. lia. }
  split; [done|]. split; [rewrite <- Hp; by apply Permutation_insert_swap|]. split; [done|].
  destruct (decide (j = n)) as [->|Hne].
  - assert (x = y) as -> by congruence. split; [done|]. rewrite !list_insert_insert_eq. symmetry. by apply list_insert_id.
  - split; [rewrite list_lookup_insert_ne by done; apply list_lookup_insert_eq; lia|].
    rewrite list_insert_insert_eq, (list_insert_insert_ne mid j n) by done.
    rewrite list_insert_insert_eq. rewrite (list_insert_id (<[j := y]> mid) n x).
    + symmetry. by apply list_insert_id.
    + by rewrite list_lookup_insert_ne.
Qed.

(** Different draws give different orders: with [n] handles, the [n!]
    sequences of draws reach each of the [n!] orders once. *)
Theorem random_handles_uniform (js js' : list nat) (kvh : list A) :
  NoDup kvh → length js = length kvh → length js' = length kvh → draws 0 js → draws 0 js' →
  random_handles js kvh = random_handles js' kvh → js = js'.
Proof.
  intros Hnd Hl Hl'. unfold random_handles.
  assert (length js ≤ length kvh)%nat as Hle by lia. assert (length js' = length js) as Hll by lia. clear Hl Hl'.
  revert js' Hll. induction js as [|j js IH] using rev_ind; intros js' Hll Hd Hd' E.
  { symmetry. by apply nil_length_inv. }
  destruct js' as [|j' js' _] using rev_ind; [by rewrite length_app in Hll; cbn in Hll; lia|].
  rewrite !length_app in *. cbn [length] in *.
  destruct (lookup_lt_is_Some_2 kvh (length js)) as [x Hx]; [lia|].
  destruct (last_swap (length js) j js kvh x eq_refl Hd Hx) as (mid & r & y & Hm & Hr & Hp & Hj & Hn & ->).
  destruct (last_swap (length js) j' js' kvh x ltac:(lia) Hd' Hx) as (mid' & r' & y' & Hm' & Hr' & _ & Hj' & Hn' & ->).
  rewrite Hr, Hr' in E. injection E as <-.
  assert (j = j') as <- by (eapply (NoDup_lookup r); [by rewrite Hp|done..]).
  assert (y = y') as <- by congruence.
  f_equal. apply IH; [lia|lia| | |congruence].
  - intros k i Hk. apply (Hd k). by apply lookup_app_l_Some.
  - intros k i Hk. apply (Hd' k). by apply lookup_app_l_Some.
Qed.
End orders.
