(* ===== verification/KvConfigExamples.v ===== *)
(** * A key/value test with three servers

    Three servers are started and connected, then the leader is cut off with
    a minority; and two runs of the harness that do not do what their callers
    ask for. *)

From stdpp Require Import pretty.
From S2P Require Import Prelude Gob RaftNode Labrpc KvConfig RaftTraces.
Local Open Scope Z_scope.

#[local] Existing Instance codec_Z.
#[local] Existing Instance codec_log.
#[local] Existing Instance Z_nil.
#[local] Existing Instance gob_Z.
#[local] Existing Instance gob_log.

Definition kv_names (i : nat) : list string :=
  (fun j => "end-" +:+ pretty i +:+ "-" +:+ pretty j) <$> seq 0 3.
Definition empty_config (n : nat) : config (X:=Z) (Sv:=KVServer (C:=Z)) :=
  mkConfig MakeNetwork n (replicate n None) (replicate n None) (replicate n None) ∅ 1000 (-1).
Definition kv3 : config (X:=Z) (Sv:=KVServer (C:=Z)) :=
  go_or (empty_config 3) (make_config 3 false (-1) kv_names id (fun _ => 400) (fun _ => 0)).

(** Distinct names, checked by evaluation. *)
Definition pairs (n : nat) : list (nat * nat) := i ← seq 0 n; j ← seq 0 n; [(i, j)].
Definition names_differ (cfg : config (X:=Z) (Sv:=KVServer (C:=Z))) : bool :=
  forallb (fun p => forallb (fun q =>
    bool_decide (p = q) || negb (bool_decide (name_of cfg p.1 p.2 = name_of cfg q.1 q.2))) (pairs (n_servers cfg)))
    (pairs (n_servers cfg)).

Lemma pairs_elem n i j : (i < n)%nat → (j < n)%nat → In (i, j) (pairs n).
Proof.
  intros Hi Hj. apply list_elem_of_In. unfold pairs. apply list_elem_of_bind. exists i.
  split; [|apply elem_of_seq; lia]. apply list_elem_of_bind. exists j. split; [left|apply elem_of_seq; lia].
Qed.

Lemma end_name_range (cfg : config (X:=Z) (Sv:=KVServer (C:=Z))) i j e :
  length (endnames cfg) = n_servers cfg →
  (∀ i l, endnames cfg !! i = Some (Some l) → length l = n_servers cfg) →
  end_name cfg i j = Done e → (i < n_servers cfg)%nat ∧ (j < n_servers cfg)%nat ∧ e = name_of cfg i j.
Proof.
  intros Hl Hi He. assert (e = name_of cfg i j) as He' by (unfold name_of; by rewrite He).
  unfold end_name in He. go_inv He. apply idx_Done in E as [_ E]. rewrite Nat2Z.id in E.
  destruct a as [l|]; [|done]. apply idx_Done in He as [_ He]. rewrite Nat2Z.id in He.
  apply lookup_lt_Some in E as Hlt. apply lookup_lt_Some in He. rewrite (Hi _ _ E) in He. by rewrite Hl in Hlt.
Qed.

Lemma kv3_ends : ends_ok kv3.
Proof.
  assert (∀ i l, endnames kv3 !! i = Some (Some l) → length l = n_servers kv3) as Hi.
  { intros i l Hl. assert (Forall (fun o => ∀ l, o = Some l → length l = 3%nat) (endnames kv3)) as Hf.
    { vm_compute. repeat (constructor; [by intros ? [= <-]|]). constructor. }
    rewrite Forall_lookup in Hf. by apply (Hf i (Some l)). }
  split; [reflexivity| |].
  - intros i Hlt. assert (is_Some (mjoin (endnames kv3 !! i))) as [l Hl].
    { change (n_servers kv3) with 3%nat in Hlt. destruct i as [|[|[|i]]]; [vm_compute; eauto..|lia]. }
    destruct (endnames kv3 !! i) as [o|] eqn:E; [|done]. cbn in Hl. subst o. exists l. split; [done|]. by eapply Hi.
  - intros i j i' j' e (H1 & H2 & H3)%end_name_range (H1' & H2' & H3')%end_name_range; [|reflexivity|done..].
    assert (names_differ kv3 = true) as Hd by (vm_compute; reflexivity).
    unfold names_differ in Hd. rewrite forallb_forall in Hd.
    specialize (Hd _ (pairs_elem _ _ _ H1 H2)). rewrite forallb_forall in Hd.
    specialize (Hd _ (pairs_elem _ _ _ H1' H2')). cbn [fst snd] in Hd.
    rewrite <- H3, <- H3' in Hd. rewrite (bool_decide_eq_true_2 (e = e)) in Hd by done.
    rewrite orb_false_r in Hd. apply bool_decide_eq_true in Hd. by injection Hd.
Qed.

Lemma partition_witness :
  ∃ p1 p2 cfg', make_partition kv3 = Done (p1, p2) ∧ partition p1 p2 kv3 = Done cfg' ∧
    (length p2 < length p1)%nat ∧ 0%nat ∈ p2.
Proof.
  destruct (partition_isolates_leader kv3 0 false 0) as (p1 & p2 & cfg' & H1 & _ & H3 & H4 & H5 & _).
  - exact kv3_ends.
  - reflexivity.
  - vm_compute. reflexivity.
  - vm_compute. lia.
  - exists p1, p2, cfg'. split; [exact H1|]. split; [exact H5|]. split; [exact H3|exact H4].
Defined.

(** With an even number of servers, a slot of the minority is never filled and
    keeps the number 0: with server 1 as the leader of four, server 0 is in both
    parts. *)
Lemma even_partition_overlaps :
  partition_loop 1 (seq 0 4) 0 (replicate 3 0%nat) (replicate 2 0%nat) = Done ([0; 2; 3]%nat, [0; 0]%nat).
Proof. reflexivity. Qed.

(** [disconnectUnlocked] tests whether server [j] has ends where it means
    server [from[j]]: servers 1 and 2 are up, server 0 is not, and the end
    from server 2 to server 1 stays enabled. *)
Definition two_up : config (X:=Z) (Sv:=KVServer (C:=Z)) :=
  go_or (empty_config 3)
    (cfg ← StartServer (empty_config 3) 1 (kv_names 1) 0 400 0;
     cfg ← StartServer cfg 2 (kv_names 2) 1 400 0;
     connectUnlocked cfg 1 [2%nat]).
Lemma disconnect_skips_incoming :
  ∃ cfg, disconnectUnlocked two_up 1 [2%nat] = Done cfg ∧
    enabled (net cfg) !! "end-1-2" = Some false ∧ enabled (net cfg) !! "end-2-1" = Some true.
Proof. eexists. split; [vm_compute; reflexivity|]. split; vm_compute; reflexivity. Qed.

(** Server 0 of the three is shut down and started again. *)
Definition new_names : list string := ["new-0"; "new-1"; "new-2"].
