(* ===== verification/Clerks.v ===== *)
(** * Clerks of the sharded key/value service

    The clients of [labs/src/shardmaster/client.go] and
    [labs/src/shardkv/client.go].  The servers they talk to are skeletons in
    the repository, so what a call returns is an argument: a [None] is a call
    that failed, a list that runs out is a clerk that is still trying
    ([Stuck]).  A clerk's result comes with the calls it made. *)

From S2P Require Import Prelude.
Local Open Scope Z_scope.

(** ** shardmaster: data *)

Definition NShards : Z := 10.

Record Config := mkConfig { Num : Z; Shards : list Z; Groups : gmap Z (list string) }.

Record QueryReply := mkQueryReply { qr_WrongLeader : bool; qr_Err : string; qr_Config : Config }.
(** [JoinReply], [LeaveReply] and [MoveReply] have the same fields. *)
Record AckReply := mkAckReply { ar_WrongLeader : bool; ar_Err : string }.

Record JoinArgs := mkJoinArgs { ja_Servers : gmap Z (list string) }.
Record LeaveArgs := mkLeaveArgs { la_GIDs : list Z }.
Record MoveArgs := mkMoveArgs { ma_Shard : Z; ma_GID : Z }.
Record QueryArgs := mkQueryArgs { qa_Num : Z }.

(** ** shardmaster: the loop of every operation

    The servers [rest] are still to be tried in this pass; after a pass, the
    clerk sleeps and starts over. *)
Section retry.
Context {Srv R A : Type} (accept : R → option A) (servers : list Srv).

Fixpoint retry (rest : list Srv) (outcomes : list (option R)) : go (A * list Srv) :=
  match outcomes with
  | [] => Stuck
  | o :: outcomes =>
      match (match rest with [] => servers | _ => rest end) with
      | [] => Stuck
      | srv :: rest =>
          match (o ≫= accept) with
          | Some a => Done (a, [srv])
          | None => '(a, calls) ← retry rest outcomes; Done (a, srv :: calls)
          end
      end
  end.

End retry.

Section shardmaster.
Context {Srv : Type} (servers : list Srv).

Definition accept_query (r : QueryReply) : option Config :=
  if bool_decide (qr_WrongLeader r = false) then Some (qr_Config r) else None.
Definition accept_ack (r : AckReply) : option unit :=
  if bool_decide (ar_WrongLeader r = false) then Some () else None.

(** What is sent to every server, and the loop. *)
Definition Query (num : Z) (outcomes : list (option QueryReply)) : QueryArgs * go (Config * list Srv) :=
  (mkQueryArgs num, retry accept_query servers servers outcomes).
Definition Join (s : gmap Z (list string)) (outcomes : list (option AckReply)) : JoinArgs * go (unit * list Srv) :=
  (mkJoinArgs s, retry accept_ack servers servers outcomes).
Definition Leave (gids : list Z) (outcomes : list (option AckReply)) : LeaveArgs * go (unit * list Srv) :=
  (mkLeaveArgs gids, retry accept_ack servers servers outcomes).
Definition Move (shard gid : Z) (outcomes : list (option AckReply)) : MoveArgs * go (unit * list Srv) :=
  (mkMoveArgs shard gid, retry accept_ack servers servers outcomes).

End shardmaster.

(** ** shardkv *)

Definition OK : string := "OK".
Definition ErrNoKey : string := "ErrNoKey".
Definition ErrWrongGroup : string := "ErrWrongGroup".
Definition ErrWrongLeader : string := "ErrWrongLeader".

Record GetReply := mkGetReply { gr_Err : string; gr_Value : string }.
Record PutAppendReply := mkPutAppendReply { pr_Err : string }.
Record GetArgs := mkGetArgs { ga_Key : string }.
Record PutAppendArgs := mkPutAppendArgs { pa_Key : string; pa_Value : string; pa_Op : string }.

(** [int(key[0])] is the first byte. *)
Definition key2shard (key : string) : Z :=
  (match key with String c _ => Z.of_N (Ascii.N_of_ascii c) | EmptyString => 0 end) `mod` NShards.

(** What a clerk does with a reply. *)
Inductive reaction (A : Type) := Return_ (a : A) | Break_ | Next_.
Arguments Return_ {A} _.
Arguments Break_ {A}.
Arguments Next_ {A}.

Section clerk.
Context {R A : Type} (react : R → reaction A).

Definition reacts (o : option R) : reaction A :=
  match o with Some r => react r | None => Next_ end.

(** A pass over the servers of a group. *)
Fixpoint try_group (servers : list string) (outcomes : list (option R))
    : go (option A * list (string * option R)) :=
  match servers with
  | [] => Done (None, [])
  | srv :: servers =>
      match outcomes with
      | [] => Stuck
      | o :: outcomes =>
          match reacts o with
          | Return_ a => Done (Some a, [(srv, o)])
          | Break_ => Done (None, [(srv, o)])
          | Next_ => '(x, calls) ← try_group servers outcomes; Done (x, (srv, o) :: calls)
          end
      end
  end.

(** A pass, and the configuration that [Query(-1)] returns after it. *)
Record round := mkRound { rd_outcomes : list (option R); rd_config : Config }.

Record call := mkCall { c_config : Config; c_server : string; c_outcome : option R }.

Fixpoint clerk_loop (key : string) (config : Config) (rounds : list round)
    : go (A * Config * list call) :=
  match rounds with
  | [] => Stuck
  | rd :: rounds =>
      gid ← idx (Shards config) (key2shard key);
      '(x, calls) ← match Groups config !! gid with
                    | Some servers => try_group servers (rd_outcomes rd)
                    | None => Done (None, [])
                    end;
      let made := (fun c => mkCall config c.1 c.2) <$> calls in
      match x with
      | Some a => Done (a, config, made)
      | None =>
          '(a, config', later) ← clerk_loop key (rd_config rd) rounds;
          Done (a, config', made ++ later)
      end
  end.

End clerk.

Definition react_get (r : GetReply) : reaction string :=
  if bool_decide (gr_Err r = OK) || bool_decide (gr_Err r = ErrNoKey) then Return_ (gr_Value r)
  else if bool_decide (gr_Err r = ErrWrongGroup) then Break_ else Next_.

Definition react_put (r : PutAppendReply) : reaction unit :=
  if bool_decide (pr_Err r = OK) then Return_ ()
  else if bool_decide (pr_Err r = ErrWrongGroup) then Break_ else Next_.

Definition Get (config : Config) (key : string) (rounds : list round)
    : GetArgs * go (string * Config * list call) :=
  (mkGetArgs key, clerk_loop react_get key config rounds).

Definition PutAppend (config : Config) (key value op : string) (rounds : list round)
    : PutAppendArgs * go (unit * Config * list call) :=
  (mkPutAppendArgs key value op, clerk_loop react_put key config rounds).

Definition Put (config : Config) (key value : string) (rounds : list round) :=
  PutAppend config key value "Put" rounds.
Definition Append (config : Config) (key value : string) (rounds : list round) :=
  PutAppend config key value "Append" rounds.

(** ** The shardmaster's clerk asks in turn *)

Section retry_facts.
Context {Srv R A : Type} (accept : R → option A) (servers : list Srv) (Hs : servers ≠ []).

(** [rest] is what is left of a pass that started [n] calls ago. *)
Definition left_of (n : nat) (rest : list Srv) : Prop :=
  ∃ d, servers = d ++ rest ∧ (n `mod` length servers = length d `mod` length servers)%nat.

Lemma left_of_next n rest :
  left_of n rest →
  ∃ srv rest', (match rest with [] => servers | _ => rest end) = srv :: rest' ∧
    servers !! (n `mod` length servers)%nat = Some srv ∧ left_of (S n) rest'.
Proof.
  assert (length servers ≠ 0%nat) as Hl by (by destruct servers).
  assert (∀ d srv r, servers = d ++ srv :: r → (n `mod` length servers = length d `mod` length servers)%nat →
    servers !! (n `mod` length servers)%nat = Some srv ∧ left_of (S n) r) as Hgen.
  { intros d srv r E Hn. assert (length d < length servers)%nat as Hlt by (rewrite E, length_app; cbn; lia).
    rewrite Hn, (Nat.mod_small (length d)) by done. split; [rewrite E; by apply list_lookup_middle|].
    exists (d ++ [srv]). split; [by rewrite <- app_assoc|]. rewrite length_app. cbn.
    replace (S n) with (n + 1)%nat by lia. rewrite (Nat.Div0.add_mod n), Hn, <- Nat.Div0.add_mod. done. }
  intros (d & E & Hn). destruct rest as [|srv rest].
  - destruct servers as [|srv r] eqn:Es; [done|]. rewrite <- Es in *. exists srv, r. split; [done|].
    apply (Hgen []); [done|]. rewrite app_nil_r in E. subst d. rewrite Hn, Nat.Div0.mod_same. cbn.
    by rewrite Nat.Div0.mod_0_l.
  - exists srv, rest. split; [done|]. by apply (Hgen d).
Qed.

Lemma retry_spec n rest failed r a later :
  left_of n rest → (∀ o, o ∈ failed → o ≫= accept = None) → accept r = Some a →
  ∃ calls, retry accept servers rest (failed ++ Some r :: later) = Done (a, calls) ∧
    length calls = S (length failed) ∧
    ∀ k srv, calls !! k = Some srv → servers !! ((n + k) `mod` length servers)%nat = Some srv.
Proof.
  intros Hleft Hf Ha. revert n rest Hleft. induction failed as [|o failed IH]; intros n rest Hleft; cbn [retry app];
    destruct (left_of_next _ _ Hleft) as (srv & rest' & -> & Hsrv & Hleft').
  - cbn. rewrite Ha. exists [srv]. split; [done|]. split; [done|]. intros [|k] x Hx; [|done].
    cbn in Hx. injection Hx as <-. by rewrite Nat.add_0_r.
  - rewrite (Hf o) by left. destruct (IH (λ o' Ho, Hf o' ltac:(by right)) (S n) rest' Hleft') as (calls & -> & Hl & Hk).
    go_simpl. exists (srv :: calls). split; [done|]. split; [cbn; by rewrite Hl|].
    intros [|k] x Hx; cbn in Hx; [injection Hx as <-; by rewrite Nat.add_0_r|].
    rewrite <- Nat.add_succ_comm. by apply Hk.
Qed.

End retry_facts.

(** The clerk of the shardmaster asks the servers in turn, over and over,
    and returns as soon as one of them answers as the leader, with what it
    answered: after any number of lost calls and answers of servers that are
    not the leader, [Query] returns the first configuration that a leader
    sends. *)
Theorem Query_returns {Srv} (servers : list Srv) num failed r later :
  servers ≠ [] →
  (∀ o r', o ∈ failed → o = Some r' → qr_WrongLeader r' = true) → qr_WrongLeader r = false →
  ∃ calls, (Query servers num (failed ++ Some r :: later)).2 = Done (qr_Config r, calls) ∧
    length calls = S (length failed) ∧
    ∀ k srv, calls !! k = Some srv → servers !! (k `mod` length servers)%nat = Some srv.
Proof.
  intros Hs Hf Hr. destruct (retry_spec accept_query servers Hs 0 servers failed r (qr_Config r) later)
    as (calls & Hc & Hl & Hk).
  - exists []. done.
  - intros [r'|] Ho; [|done]. cbn. unfold accept_query. by rewrite (Hf _ r' Ho).
  - unfold accept_query. by rewrite Hr.
  - by exists calls.
Qed.

(** ** The shardkv clerk asks the owner *)

Section clerk_facts.
Context {R A : Type} (react : R → reaction A).

(** The call went to a server of the group that its configuration makes
    responsible for the shard of the key. *)
Definition asks_owner (key : string) (c : call (R:=R)) : Prop :=
  ∃ gid servers, Shards (c_config c) !! Z.to_nat (key2shard key) = Some gid ∧
    Groups (c_config c) !! gid = Some servers ∧ c_server c ∈ servers.

Definition no_return (o : option R) : Prop := ∀ a, reacts react o ≠ Return_ a.

Lemma try_group_spec servers outcomes x calls :
  try_group react servers outcomes = Done (x, calls) →
  (∀ c, c ∈ calls → c.1 ∈ servers) ∧
  match x with
  | Some a => ∃ earlier last, calls = earlier ++ [last] ∧ reacts react last.2 = Return_ a ∧
      Forall (fun c => no_return c.2) earlier
  | None => Forall (fun c => no_return c.2) calls
  end.
Proof.
  revert outcomes x calls. induction servers as [|srv servers IH]; intros outcomes x calls Hr; cbn [try_group] in Hr.
  { injection Hr as <- <-. split; [set_solver|constructor]. }
  destruct outcomes as [|o outcomes]; [done|]. destruct (reacts react o) as [a| |] eqn:Eo.
  - injection Hr as <- <-. split; [set_solver|]. by exists [], (srv, o).
  - injection Hr as <- <-. split; [set_solver|]. constructor; [|done]. intros a. cbn. congruence.
  - go_inv Hr. destruct a as [x' calls']. injection Hr as <- <-. destruct (IH _ _ _ E) as [Hin Hx].
    split; [set_solver|]. assert (no_return o) as Hno by (intros a; congruence). destruct x' as [a|].
    + destruct Hx as (earlier & last & -> & Hl & Hf). exists ((srv, o) :: earlier), last.
      split; [done|]. split; [done|]. by constructor.
    + by constructor.
Qed.

Lemma clerk_loop_spec key config rounds a config' calls :
  clerk_loop react key config rounds = Done (a, config', calls) →
  Forall (asks_owner key) calls ∧
  ∃ earlier last, calls = earlier ++ [last] ∧ c_config last = config' ∧
    reacts react (c_outcome last) = Return_ a ∧ Forall (fun c => no_return (c_outcome c)) earlier.
Proof.
  revert config calls. induction rounds as [|rd rounds IH]; intros config calls Hr; cbn [clerk_loop] in Hr; [done|].
  go_inv Hr. rename a0 into gid. apply idx_Done in E as [_ Hgid]. go_inv Hr. destruct a0 as [x made].
  assert (Forall (asks_owner key) ((fun c => mkCall config c.1 c.2) <$> made) ∧
    match x with
    | Some a => ∃ earlier last, made = earlier ++ [last] ∧ reacts react last.2 = Return_ a ∧
        Forall (fun c => no_return c.2) earlier
    | None => Forall (fun c => no_return c.2) made
    end) as [Hown Hx].
  { destruct (Groups config !! gid) as [servers|] eqn:Eg.
    - destruct (try_group_spec _ _ _ _ E) as [Hin Hx]. split; [|done]. apply Forall_fmap, Forall_forall.
      intros c Hc. exists gid, servers. cbn. split; [done|]. split; [done|]. by apply Hin.
    - injection E as <- <-. split; constructor. }
  destruct x as [a0|].
  - injection Hr as <- <- <-. split; [done|]. destruct Hx as (earlier & last & -> & Hl & Hf).
    exists ((fun c => mkCall config c.1 c.2) <$> earlier), (mkCall config last.1 last.2).
    split; [by rewrite fmap_app|]. split; [done|]. split; [done|]. by apply Forall_fmap.
  - go_inv Hr. destruct a0 as [[a1 config1] later]. injection Hr as <- <- <-.
    destruct (IH _ _ E0) as (Hown' & earlier & last & -> & Hc & Hl & Hf).
    split; [by apply Forall_app|]. eexists (_ ++ earlier), last. split; [by rewrite app_assoc|].
    split; [done|]. split; [done|]. apply Forall_app. split; [|done]. by apply Forall_fmap.
Qed.

End clerk_facts.

Lemma key2shard_range key : 0 ≤ key2shard key < NShards.
Proof. unfold key2shard, NShards. apply Z.mod_pos_bound. lia. Qed.


(** ** Instances *)

Definition config1 : Config := mkConfig 1 (replicate 10 100) (<[100 := ["server-100-0"; "server-100-1"]]> ∅).

Lemma Query_returns_witness :
  ∃ calls, (Query ["sm-0"; "sm-1"; "sm-2"] (-1)
      [None; Some (mkQueryReply true "" (mkConfig 0 [] ∅)); None; Some (mkQueryReply false OK config1)]).2 =
    Done (config1, calls) ∧ length calls = 4%nat.
Proof.
  destruct (Query_returns ["sm-0"; "sm-1"; "sm-2"] (-1) [None; Some (mkQueryReply true "" (mkConfig 0 [] ∅)); None]
    (mkQueryReply false OK config1) []) as (calls & H1 & H2 & _).
  - discriminate.
  - intros o r' Ho ->. repeat (apply elem_of_cons in Ho as [Ho|Ho]; [by simplify_eq|]). by apply elem_of_nil in Ho.
  - reflexivity.
  - exists calls. split; [exact H1|exact H2].
Defined.

(** The clerk starts with the empty configuration, learns [config1], and finds
    the leader of group 100. *)
Definition get_rounds : list (round (R:=GetReply)) :=
  [mkRound [] config1; mkRound [Some (mkGetReply ErrWrongLeader ""); Some (mkGetReply OK "v")] config1].
Definition config0 : Config := mkConfig 0 (replicate 10 0) ∅.

