(* ===== verification/ShardmasterConfig.v ===== *)
(** * The shardmaster and its test harness

    [labs/src/shardmaster/server.go], a skeleton around a Raft server, and
    [labs/src/shardmaster/config.go].  The harness is the text of
    [kvraft/config.go] for another server, so its operations are those of
    [KvConfig] on the implementation of [Replica] given here, and what
    [KvConfig] proves for every [Replica] holds of it.  The clerks talk to the
    handlers of the skeleton, which leave replies at their zero value. *)

From S2P Require Import Prelude Gob RaftNode Labrpc KvConfig Clerks.
Local Open Scope Z_scope.

Section shardmaster.
Context {C : Type} `{!Inhabited C, !GobCodec Z, !GobCodec (list (Log C))}.

(** ** The server *)

Record ShardMaster := mkShardMaster { sm_me : Z; sm_rf : Raft C; configs : list Config }.

(** The zero value of [Config]; [Groups] is an empty map. *)
Definition zeroConfig : Config := Clerks.mkConfig 0 (replicate (Z.to_nat NShards) 0) ∅.

Definition sm_StartServer (n : nat) (me : Z) (ps : Persister.t) (interval now : Z) : go ShardMaster :=
  rf ← Make n me ps interval now;
  Done (mkShardMaster me rf [zeroConfig]).

Definition sm_Kill (sm : ShardMaster) : ShardMaster :=
  mkShardMaster (sm_me sm) (Kill (sm_rf sm)) (configs sm).
Definition sm_Raft (sm : ShardMaster) : Raft C := sm_rf sm.

(** The handlers do nothing. *)
Definition sm_Join (sm : ShardMaster) (args : JoinArgs) (reply : AckReply) : ShardMaster * AckReply := (sm, reply).
Definition sm_Leave (sm : ShardMaster) (args : LeaveArgs) (reply : AckReply) : ShardMaster * AckReply := (sm, reply).
Definition sm_Move (sm : ShardMaster) (args : MoveArgs) (reply : AckReply) : ShardMaster * AckReply := (sm, reply).
Definition sm_Query (sm : ShardMaster) (args : QueryArgs) (reply : QueryReply) : ShardMaster * QueryReply :=
  (sm, reply).

#[export] Instance ShardMaster_replica : KvConfig.Replica (C:=C) unit ShardMaster := {|
  KvConfig.replica_start n me ps _ interval now := sm_StartServer n me ps interval now;
  KvConfig.replica_kill := sm_Kill;
  KvConfig.replica_raft := sm_Raft;
|}.

#[export] Instance ShardMaster_laws : KvConfig.ReplicaLaws (C:=C) (X:=unit) (Sv:=ShardMaster).
Proof. intros n me ps x interval now rf H. eexists. cbn. unfold sm_StartServer. by rewrite H. Qed.

(** ** The harness *)

Definition config : Type := KvConfig.config (X:=unit) (Sv:=ShardMaster).

Definition random_handles {A} (js : list nat) (kvh : list A) : go (list A) := KvConfig.random_handles js kvh.
Definition cleanup (cfg : config) : go config := KvConfig.cleanup cfg.
Definition LogSize (cfg : config) : go Z := KvConfig.LogSize cfg.
Definition connectUnlocked (cfg : config) (i : nat) (to : list nat) : go config :=
  KvConfig.connectUnlocked cfg i to.
Definition connect (cfg : config) (i : nat) (to : list nat) : go config := KvConfig.connect cfg i to.
Definition disconnectUnlocked (cfg : config) (i : nat) (from : list nat) : go config :=
  KvConfig.disconnectUnlocked cfg i from.
Definition disconnect (cfg : config) (i : nat) (from : list nat) : go config := KvConfig.disconnect cfg i from.
Definition All (cfg : config) : list nat := KvConfig.All cfg.
Definition ConnectAll (cfg : config) : go config := KvConfig.ConnectAll cfg.
Definition partition (p1 p2 : list nat) (cfg : config) : go config := KvConfig.partition p1 p2 cfg.
Definition makeClient (cfg : config) (ck : nat) (names : list string) (to : list nat) : go config :=
  KvConfig.makeClient cfg ck names to.
Definition deleteClient (cfg : config) (ck : nat) : config := KvConfig.deleteClient cfg ck.
Definition ConnectClientUnlocked (cfg : config) (ck : nat) (to : list nat) : go config :=
  KvConfig.ConnectClientUnlocked cfg ck to.
Definition ConnectClient (cfg : config) (ck : nat) (to : list nat) : go config := KvConfig.ConnectClient cfg ck to.
Definition DisconnectClientUnlocked (cfg : config) (ck : nat) (from : list nat) : go config :=
  KvConfig.DisconnectClientUnlocked cfg ck from.
Definition DisconnectClient (cfg : config) (ck : nat) (from : list nat) : go config :=
  KvConfig.DisconnectClient cfg ck from.
Definition ShutdownServer (cfg : config) (i : nat) : go config := KvConfig.ShutdownServer cfg i.
Definition StartServer (cfg : config) (i : nat) (names : list string) (srv : nat) (interval now : Z)
    : go config := KvConfig.StartServer cfg i names srv interval now.
Definition Leader (cfg : config) : go (bool * nat) := KvConfig.Leader cfg.
Definition make_partition (cfg : config) : go (list nat * list nat) := KvConfig.make_partition cfg.
Definition make_config (n : nat) (unreliable : bool) (names : nat → list string) (srv : nat → nat)
    (interval now : nat → Z) : go config := KvConfig.make_config n unreliable () names srv interval now.

(** ** The clerks on the skeleton

    A clerk of the shardmaster takes the zero value that [Query] leaves in
    its reply for the answer of a leader; in that configuration no group is
    responsible for any shard, so that a clerk of the sharded service asks
    nobody. *)

Definition skeleton_query (sm : ShardMaster) (num : Z) : QueryReply :=
  (sm_Query sm (mkQueryArgs num) (mkQueryReply false "" zeroConfig)).2.

Lemma skeleton_query_config sm num : qr_Config (skeleton_query sm num) = zeroConfig.
Proof. done. Qed.

(** Every configuration that the clerk learns is that of the skeleton. *)
Definition on_skeleton {R} (sm : ShardMaster) (rd : round (R:=R)) : Prop :=
  rd_config rd = qr_Config (skeleton_query sm (-1)).

Lemma clerk_blocks {R A} (react : R → reaction A) sm key rounds :
  Forall (on_skeleton sm) rounds → clerk_loop react key zeroConfig rounds = Stuck.
Proof.
  intros Hr. induction Hr as [|rd rounds Hrd Hr IH]; [done|]. cbn [clerk_loop].
  destruct (idx_in_range (Shards zeroConfig) (key2shard key)) as (gid & -> & Hgid);
    [apply key2shard_range|].
  go_simpl. assert (Groups zeroConfig !! gid = None) as -> by apply lookup_empty. go_simpl.
  rewrite Hrd. unfold on_skeleton in Hrd. rewrite skeleton_query_config. by rewrite IH.
Qed.

End shardmaster.
