(* ===== verification/ShardkvConfig.v ===== *)
(** * The sharded key/value server and its test harness

    [labs/src/shardkv/server.go], a skeleton around a Raft server, and
    [labs/src/shardkv/config.go]: three shardmasters and three groups of [n]
    servers on one network, with servers known by name.  Random names are
    taken from a sequence, [randstring]; [used] counts those taken, and the
    assumption that names do not collide is that the sequence is injective. *)

From stdpp Require Import pretty.
From S2P Require Import Prelude Gob RaftNode RaftSafety Labrpc Clerks ShardmasterConfig.
Local Open Scope Z_scope.

Section shardkv.
Context {C : Type} `{!Inhabited C, !GobCodec Z, !GobCodec (list (Log C))}.
Context (randstring : nat → string).
Notation Network := (@Network string string _ _ _ _).

(** ** The server *)

Record ShardKV := mkShardKV {
  skv_me : Z; skv_rf : Raft C; skv_gid : Z; skv_masters : list string; skv_maxraftstate : Z }.

Definition skv_StartServer (n : nat) (me : Z) (ps : Persister.t) (maxraftstate gid : Z) (masters : list string)
    (interval now : Z) : go ShardKV :=
  rf ← Make n me ps interval now;
  Done (mkShardKV me rf gid masters maxraftstate).

Definition skv_Kill (kv : ShardKV) : ShardKV :=
  mkShardKV (skv_me kv) (Kill (skv_rf kv)) (skv_gid kv) (skv_masters kv) (skv_maxraftstate kv).

(** The handlers do nothing. *)
Definition skv_Get (kv : ShardKV) (args : GetArgs) (reply : GetReply) : ShardKV * GetReply := (kv, reply).
Definition skv_PutAppend (kv : ShardKV) (args : PutAppendArgs) (reply : PutAppendReply)
    : ShardKV * PutAppendReply := (kv, reply).

(** ** The state of the harness *)

Record group := mkGroup {
  gid : Z;
  g_servers : list (option ShardKV);
  g_saved : list (option Persister.t);
  g_endnames : list (option (list string));
  g_mendnames : list (option (list string));
}.

Record config := mkConfig {
  net : Network;
  used : nat;
  nmasters : nat;
  masterservers : list (option (ShardMaster (C:=C)));
  mck : list string;
  ngroups : nat;
  n : nat;
  groups : list group;
  clerks : gmap nat (list string);
  nextClientId : Z;
  maxraftstate : Z;
}.

Definition set_net (rn : Network) (u : nat) (cfg : config) : config :=
  mkConfig rn u (nmasters cfg) (masterservers cfg) (mck cfg) (ngroups cfg) (n cfg) (groups cfg) (clerks cfg)
    (nextClientId cfg) (maxraftstate cfg).
Definition set_groups (gs : list group) (cfg : config) : config :=
  mkConfig (net cfg) (used cfg) (nmasters cfg) (masterservers cfg) (mck cfg) (ngroups cfg) (n cfg) gs
    (clerks cfg) (nextClientId cfg) (maxraftstate cfg).
Definition set_masters (ms : list (option (ShardMaster (C:=C)))) (cfg : config) : config :=
  mkConfig (net cfg) (used cfg) (nmasters cfg) ms (mck cfg) (ngroups cfg) (n cfg) (groups cfg) (clerks cfg)
    (nextClientId cfg) (maxraftstate cfg).
Definition set_mck (c : list string) (cfg : config) : config :=
  mkConfig (net cfg) (used cfg) (nmasters cfg) (masterservers cfg) c (ngroups cfg) (n cfg) (groups cfg)
    (clerks cfg) (nextClientId cfg) (maxraftstate cfg).
Definition set_clerks (c : gmap nat (list string)) (id : Z) (cfg : config) : config :=
  mkConfig (net cfg) (used cfg) (nmasters cfg) (masterservers cfg) (mck cfg) (ngroups cfg) (n cfg)
    (groups cfg) c id (maxraftstate cfg).

(** ** Names *)

Definition mastername (i : nat) : string := "master" +:+ pretty i.
Definition servername (gid : Z) (i : nat) : string := "server-" +:+ pretty gid +:+ "-" +:+ pretty i.

(** A fresh name for every target, and the network with an end of that name
    connected to it and enabled. *)
Fixpoint open_ends (targets : list string) (u : nat) (rn : Network) : go (Network * list string) :=
  match targets with
  | [] => Done (rn, [])
  | t :: targets =>
      let name := randstring u in
      rn ← MakeEnd rn name;
      '(rn, names) ← open_ends targets (S u) (Enable (Connect rn name t) name true);
      Done (rn, name :: names)
  end.

Definition masters_of (cfg : config) : list string := mastername <$> seq 0 (nmasters cfg).
Definition peers_of (cfg : config) (gid : Z) : list string := servername gid <$> seq 0 (n cfg).

(** ** Clerks *)

(** [endnames[j] = name], for the names in order; the slice has [n] slots. *)
Fixpoint store_names (j : nat) (names : list string) (endnames : list string) : go (list string) :=
  match names with
  | [] => Done endnames
  | name :: names => endnames ← upd endnames (Z.of_nat j) name; store_names (S j) names endnames
  end.

Definition makeClient (cfg : config) (ck : nat) : go config :=
  '(rn, names) ← open_ends (masters_of cfg) (used cfg) (net cfg);
  endnames ← store_names 0 names (replicate (n cfg) "");
  let cfg := set_net rn (used cfg + length names)%nat cfg in
  Done (set_clerks (<[ck := endnames]> (clerks cfg)) (nextClientId cfg + 1) cfg).

Definition deleteClient (cfg : config) (ck : nat) : config :=
  set_clerks (delete ck (clerks cfg)) (nextClientId cfg) cfg.

Definition shardclerk (cfg : config) : go (config * list string) :=
  '(rn, names) ← open_ends (masters_of cfg) (used cfg) (net cfg);
  Done (set_net rn (used cfg + length names)%nat cfg, names).

(** ** Servers *)

(** [for j := range names { cfg.net.Enable(names[j], false) }] *)
Definition disable_all (names : list string) (rn : Network) : Network :=
  foldl (fun rn e => Enable rn e false) rn names.

(** What [gg.saved[i]] points to: a running server writes to the same
    persister. *)
Definition saved_now (gg : group) (i : nat) : go (option Persister.t) :=
  s ← idx (g_saved gg) (Z.of_nat i);
  Done (match s, mjoin (g_servers gg !! i) with
        | Some _, Some kv => Some (persister (skv_rf kv))
        | _, _ => s
        end).

(** [gg.endnames[i][j]], for every server of the group. *)
Definition own_names (gg : group) (i : nat) : go (list string) :=
  go_map (fun j => o ← idx (g_endnames gg) (Z.of_nat i);
                   idx (default [] o) (Z.of_nat j)) (seq 0 (length (g_servers gg))).

Definition ShutdownServer (cfg : config) (gi i : nat) : go config :=
  gg ← idx (groups cfg) (Z.of_nat gi);
  names ← own_names gg i;
  mnames ← idx (g_mendnames gg) (Z.of_nat i);
  let rn := disable_all (default [] mnames) (disable_all names (net cfg)) in
  let rn := DeleteServer rn (servername (gid gg) i) in
  s ← saved_now gg i;
  saved ← upd (g_saved gg) (Z.of_nat i) (Persister.Copy <$> s);
  servers ← upd (g_servers gg) (Z.of_nat i) None;
  gs ← upd (groups cfg) (Z.of_nat gi) (mkGroup (gid gg) servers saved (g_endnames gg) (g_mendnames gg));
  Done (set_groups gs (set_net rn (used cfg) cfg)).

Definition StartServer (cfg : config) (gi i : nat) (srv : nat) (interval now : Z) : go config :=
  gg ← idx (groups cfg) (Z.of_nat gi);
  '(rn, names) ← open_ends (peers_of cfg (gid gg)) (used cfg) (net cfg);
  endnames ← upd (g_endnames gg) (Z.of_nat i) (Some names);
  '(rn, mnames) ← open_ends (masters_of cfg) (used cfg + n cfg)%nat rn;
  mendnames ← upd (g_mendnames gg) (Z.of_nat i) (Some mnames);
  s ← saved_now gg i;
  let p := match s with Some p => Persister.Copy p | None => Persister.MakePersister end in
  saved ← upd (g_saved gg) (Z.of_nat i) (Some p);
  kv ← skv_StartServer (n cfg) (Z.of_nat i) p (maxraftstate cfg) (gid gg) mnames interval now;
  servers ← upd (g_servers gg) (Z.of_nat i) (Some kv);
  gs ← upd (groups cfg) (Z.of_nat gi) (mkGroup (gid gg) servers saved endnames mendnames);
  let rn := AddServer rn (servername (gid gg) i) srv in
  Done (set_groups gs (set_net rn (used cfg + n cfg + nmasters cfg)%nat cfg)).

Fixpoint each (f : config → nat → go config) (l : list nat) (cfg : config) : go config :=
  match l with
  | [] => Done cfg
  | i :: l => cfg ← f cfg i; each f l cfg
  end.

Definition ShutdownGroup (cfg : config) (gi : nat) : go config :=
  each (fun cfg i => ShutdownServer cfg gi i) (seq 0 (n cfg)) cfg.
Definition StartGroup (cfg : config) (gi : nat) (srv : nat → nat) (interval now : Z) : go config :=
  each (fun cfg i => StartServer cfg gi i (srv i) interval now) (seq 0 (n cfg)) cfg.

Definition cleanup (cfg : config) : go config :=
  cfg ← each ShutdownGroup (seq 0 (ngroups cfg)) cfg;
  rn ← Cleanup (net cfg);
  Done (set_net rn (used cfg) cfg).

Definition StartMasterServer (cfg : config) (i : nat) (srv : nat) (interval now : Z) : go config :=
  '(rn, names) ← open_ends (masters_of cfg) (used cfg) (net cfg);
  sm ← sm_StartServer (nmasters cfg) (Z.of_nat i) Persister.MakePersister interval now;
  ms ← upd (masterservers cfg) (Z.of_nat i) (Some sm);
  Done (set_masters ms (set_net (AddServer rn (mastername i) srv) (used cfg + length names)%nat cfg)).

(** No server's log is too big; [t.Fatalf] is [Panic]. *)
Definition checklog (cfg : config) (gi i : nat) : go unit :=
  gg ← idx (groups cfg) (Z.of_nat gi);
  s ← saved_now gg i;
  match s with
  | None => Panic
  | Some ps =>
      let raft := Persister.RaftStateSize ps in
      let snap := zlen (Persister.ReadSnapshot ps) in
      if bool_decide (maxraftstate cfg >= 0) && bool_decide (raft > 8 * maxraftstate cfg) then Panic
      else if bool_decide (maxraftstate cfg < 0) && bool_decide (snap > 0) then Panic
      else Done ()
  end.
Definition checklogs (cfg : config) : go unit :=
  _ ← go_map (fun gi => go_map (fun i => checklog cfg gi i) (seq 0 (n cfg))) (seq 0 (ngroups cfg));
  Done ().

(** ** Joining and leaving: what the clerk of the shardmaster is asked *)

Fixpoint joinm_loop (cfg : config) (gis : list nat) (m : gmap Z (list string)) : go (gmap Z (list string)) :=
  match gis with
  | [] => Done m
  | g :: gis =>
      gg ← idx (groups cfg) (Z.of_nat g);
      joinm_loop cfg gis (<[gid gg := peers_of cfg (gid gg)]> m)
  end.
Definition joinm (cfg : config) (gis : list nat) : go (gmap Z (list string)) := joinm_loop cfg gis ∅.
Definition join (cfg : config) (gi : nat) : go (gmap Z (list string)) := joinm cfg [gi].
Definition leavem (cfg : config) (gis : list nat) : go (list Z) :=
  go_map (fun g => gg ← idx (groups cfg) (Z.of_nat g); Done (gid gg)) gis.
Definition leave (cfg : config) (gi : nat) : go (list Z) := leavem cfg [gi].

(** ** Starting everything *)

(** One group: [mendnames] is made with a slot for every master. *)
Definition make_group (srv : nat → nat → nat) (interval now : Z) (cfg : config) (gi : nat) : go config :=
  let gg := mkGroup (100 + Z.of_nat gi) (replicate (n cfg) None) (replicate (n cfg) None)
              (replicate (n cfg) None) (replicate (nmasters cfg) None) in
  gs ← upd (groups cfg) (Z.of_nat gi) gg;
  each (fun cfg i => StartServer cfg gi i (srv gi i) interval now) (seq 0 (n cfg)) (set_groups gs cfg).

(** [groups] starts out with [nil]s, which [make_group] replaces one by one. *)
Definition no_group : group := mkGroup 0 [] [] [] [].

Definition make_config (servers : nat) (unreliable : bool) (maxraft : Z) (msrv : nat → nat)
    (srv : nat → nat → nat) (interval now : Z) : go config :=
  let cfg := mkConfig MakeNetwork 0 3 (replicate 3 None) [] 0 0 [] ∅ 0 maxraft in
  cfg ← each (fun cfg i => StartMasterServer cfg i (msrv i) interval now) (seq 0 (nmasters cfg)) cfg;
  '(cfg, names) ← shardclerk cfg;
  let cfg := set_mck names cfg in
  let cfg := mkConfig (net cfg) (used cfg) (nmasters cfg) (masterservers cfg) (mck cfg) 3 servers
               (replicate 3 no_group) (clerks cfg) (nextClientId cfg) (maxraftstate cfg) in
  cfg ← each (make_group srv interval now) (seq 0 (ngroups cfg)) cfg;
  let cfg := set_clerks ∅ (Z.of_nat (n cfg) + 1000) cfg in
  Done (set_net (Reliable (net cfg) (negb unreliable)) (used cfg) cfg).

(** ** Opening ends *)

Context `{!Inj (=) (=) randstring}.

(** The ends of the network have names that were taken from the sequence. *)
Definition names_taken (rn : Network) (u : nat) : Prop :=
  ∀ e, e ∈ ends rn → ∃ k, (k < u)%nat ∧ e = randstring k.

Definition taken (u len : nat) : list string := randstring <$> seq u len.

Lemma open_ends_ok targets u rn :
  names_taken rn u →
  ∃ rn', open_ends targets u rn = Done (rn', taken u (length targets)) ∧
    servers rn' = servers rn ∧ names_taken rn' (u + length targets) ∧
    (∀ k t, targets !! k = Some t → connections rn' !! randstring (u + k) = Some (Some t) ∧
       enabled rn' !! randstring (u + k) = Some true) ∧
    (∀ e, (∀ k, (u ≤ k)%nat → e ≠ randstring k) →
       connections rn' !! e = connections rn !! e ∧ enabled rn' !! e = enabled rn !! e).
Proof.
  revert u rn. induction targets as [|t targets IH]; intros u rn Ht; cbn [open_ends].
  { exists rn. rewrite Nat.add_0_r. done. }
  unfold MakeEnd. rewrite bool_decide_eq_false_2.
  2: { intros (k & Hk & E)%Ht. apply (inj randstring) in E. lia. }
  go_simpl. edestruct (IH (S u)) as (rn' & Hm & Hs & Hn & Hk & Ho).
  2: { exists rn'. rewrite Hm. go_simpl. split; [done|]. split; [done|]. cbn [length].
       rewrite <- Nat.add_succ_comm. split; [done|]. split.
       - intros [|k] t' Hk'; cbn in Hk'.
         + injection Hk' as <-. rewrite Nat.add_0_r. destruct (Ho (randstring u)) as [-> ->].
           { intros k Hle E. apply (inj randstring) in E. lia. }
           cbn. by rewrite !lookup_insert_eq.
         + rewrite <- Nat.add_succ_comm. by apply Hk.
       - intros e He. destruct (Ho e) as [-> ->]; [intros k ?; apply He; lia|]. cbn.
         rewrite !lookup_insert_ne by (apply not_eq_sym, He; lia). done. }
  intros e He. cbn in He. apply elem_of_union in He as [->%elem_of_singleton|He].
  - exists u. split; [lia|done].
  - destruct (Ht e He) as (k & ? & ->). exists k. split; [lia|done].
Qed.

Lemma names_taken_mono rn rn' u u' :
  names_taken rn u → ends rn' = ends rn → (u ≤ u')%nat → names_taken rn' u'.
Proof. intros H E Hu e He. rewrite E in He. destruct (H e He) as (k & ? & ->). exists k. split; [lia|done]. Qed.

(** ** Starting a server *)

Context `{!Gob Z, !Gob (list (Log C))}.

(** What a persister holds can be read back. *)
Definition readable (s : option Persister.t) : Prop := ∀ ps, s = Some ps → ∃ t l, saved_as (C:=C) ps t l.

Record group_ok (cfg : config) (gg : group) : Prop := {
  go_servers : length (g_servers gg) = n cfg;
  go_saved : length (g_saved gg) = n cfg;
  go_endnames : length (g_endnames gg) = n cfg;
  go_mendnames : length (g_mendnames gg) = nmasters cfg;
  go_readable : ∀ i s, saved_now gg i = Done s → readable s;
}.

(** The persister a server is started from, and the term and the log on it. *)
Definition start_persister (s : option Persister.t) : Persister.t :=
  match s with Some p => p | None => Persister.MakePersister end.

Lemma start_readable s : readable s → ∃ t l, saved_as (C:=C) (start_persister s) t l.
Proof.
  intros Hr. destruct s as [ps|]; [by apply Hr|]. exists 0, [mkLog 0 inhabitant]. by left.
Qed.

Record started (cfg cfg' : config) (gi i srv : nat) (gg gg' : group) (t : Z) (l : list (Log C)) : Prop := {
  st_group : groups cfg' = <[gi := gg']> (groups cfg);
  st_gid : gid gg' = gid gg;
  st_sizes : n cfg' = n cfg ∧ nmasters cfg' = nmasters cfg;
  st_ok : group_ok cfg' gg';
  st_fresh : names_taken (net cfg') (used cfg');
  st_server : ∃ kv, g_servers gg' !! i = Some (Some kv) ∧ currentTerm (skv_rf kv) = t ∧ log (skv_rf kv) = l;
  st_net : servers (net cfg') = <[servername (gid gg) i := Some srv]> (servers (net cfg));
  st_peers : ∃ names, g_endnames gg' !! i = Some (Some names) ∧
    ∀ j e, names !! j = Some e → connections (net cfg') !! e = Some (Some (servername (gid gg) j)) ∧
      enabled (net cfg') !! e = Some true;
  st_masters : ∃ names, g_mendnames gg' !! i = Some (Some names) ∧
    ∀ j e, names !! j = Some e → connections (net cfg') !! e = Some (Some (mastername j)) ∧
      enabled (net cfg') !! e = Some true;
}.

Lemma StartServer_ok cfg gi i srv interval now gg s t l :
  names_taken (net cfg) (used cfg) → groups cfg !! gi = Some gg → group_ok cfg gg →
  (i < n cfg)%nat → (i < nmasters cfg)%nat →
  saved_now gg i = Done s → saved_as (start_persister s) t l →
  ∃ cfg' gg', StartServer cfg gi i srv interval now = Done cfg' ∧ started cfg cfg' gi i srv gg gg' t l.
Proof.
  intros Hf Hg Hok Hi Him Hs Hsv. unfold StartServer. rewrite (idx_nat _ _ _ Hg). go_simpl.
  destruct (open_ends_ok (peers_of cfg (gid gg)) (used cfg) (net cfg) Hf) as (rn1 & -> & Hs1 & Hf1 & Hk1 & Ho1).
  go_simpl. assert (length (peers_of cfg (gid gg)) = n cfg) as Hlp by (unfold peers_of; len).
  assert (length (masters_of cfg) = nmasters cfg) as Hlm by (unfold masters_of; len). rewrite Hlp in *.
  pose proof (go_endnames _ _ Hok). pose proof (go_mendnames _ _ Hok). pose proof (go_saved _ _ Hok).
  pose proof (go_servers _ _ Hok). rewrite upd_in_range by len. go_simpl.
  destruct (open_ends_ok (masters_of cfg) (used cfg + n cfg) rn1 Hf1) as (rn2 & -> & Hs2 & Hf2 & Hk2 & Ho2).
  go_simpl. rewrite Hlm in *. rewrite upd_in_range by len. go_simpl. rewrite Hs. go_simpl.
  assert (match s with Some p => Persister.Copy p | None => Persister.MakePersister end = start_persister s)
    as -> by (destruct s; cbn; by rewrite ?Copy_id).
  rewrite upd_in_range by len. go_simpl. unfold skv_StartServer.
  destruct (Make_saved (n cfg) (Z.of_nat i) (start_persister s) t l interval now Hsv) as [v ->]. go_simpl.
  rewrite upd_in_range by len. go_simpl.
  rewrite upd_in_range by (apply lookup_lt_Some in Hg; len). go_simpl.
  rewrite !Nat2Z.id. eexists _, _. split; [done|].
  split; [done|..];
    cbn [groups set_groups set_net net used n nmasters gid g_servers g_saved g_endnames g_mendnames].
  - done.
  - done.
  - split; cbn [g_servers g_saved g_endnames g_mendnames n nmasters set_groups set_net]; rewrite ?length_insert; try done.
    intros k s' Hk. unfold saved_now in Hk. cbn [g_saved g_servers] in Hk.
    destruct (decide (k = i)) as [->|Hne].
    + rewrite (idx_nat _ i (Some (start_persister s))) in Hk by (apply list_lookup_insert_eq; lia).
      rewrite list_lookup_insert_eq in Hk by lia. injection Hk as <-. intros ps [= <-]. eauto.
    + apply (go_readable _ _ Hok k). unfold saved_now. rewrite list_lookup_insert_ne in Hk by done.
      rewrite <- Hk. unfold idx. case_bool_decide; [done|]. rewrite !Nat2Z.id.
      by rewrite list_lookup_insert_ne by done.
  - eapply names_taken_mono; [exact Hf2|done|lia].
  - eexists. rewrite list_lookup_insert_eq by lia. done.
  - cbn. by rewrite Hs2, Hs1.
  - eexists. rewrite list_lookup_insert_eq by lia. split; [done|]. intros j e Hj. cbn.
    apply list_lookup_fmap_Some in Hj as (k & -> & Hk). apply lookup_seq in Hk as [-> Hlt].
    destruct (Ho2 (randstring (used cfg + j))) as [-> ->].
    { intros k Hk E. apply (inj randstring) in E. lia. }
    apply Hk1. unfold peers_of. rewrite list_lookup_fmap, lookup_seq_lt by lia. done.
  - eexists. rewrite list_lookup_insert_eq by lia. split; [done|]. intros j e Hj. cbn.
    apply list_lookup_fmap_Some in Hj as (k & -> & Hk). apply lookup_seq in Hk as [-> Hlt].
    apply Hk2. unfold masters_of. rewrite list_lookup_fmap, lookup_seq_lt by lia. done.
Qed.

(** A server has no slot for the ends to the masters. *)
Lemma StartServer_panics cfg gi i srv interval now gg :
  names_taken (net cfg) (used cfg) → groups cfg !! gi = Some gg → group_ok cfg gg →
  (nmasters cfg ≤ i < n cfg)%nat → StartServer cfg gi i srv interval now = Panic.
Proof.
  intros Hf Hg Hok Hi. unfold StartServer. rewrite (idx_nat _ _ _ Hg). go_simpl.
  destruct (open_ends_ok (peers_of cfg (gid gg)) (used cfg) (net cfg) Hf) as (rn1 & -> & _ & Hf1 & _).
  go_simpl. assert (length (peers_of cfg (gid gg)) = n cfg) as Hlp by (unfold peers_of; len). rewrite Hlp in *.
  pose proof (go_endnames _ _ Hok). pose proof (go_mendnames _ _ Hok).
  rewrite upd_in_range by len. go_simpl.
  destruct (open_ends_ok (masters_of cfg) (used cfg + n cfg) rn1 Hf1) as (rn2 & -> & _). go_simpl.
  by rewrite upd_out_of_range by len.
Qed.

(** ** Starting everything *)

Lemma each_app f l1 l2 cfg : each f (l1 ++ l2) cfg = (cfg ← each f l1 cfg; each f l2 cfg).
Proof.
  revert cfg. induction l1 as [|i l1 IH]; intros cfg; [done|].
  change ((i :: l1) ++ l2) with (i :: (l1 ++ l2)). cbn [each].
  destruct (f cfg i); go_simpl; [apply IH|done..].
Qed.

Lemma each_inv (J : config → Prop) f l cfg :
  J cfg → (∀ cfg i, J cfg → i ∈ l → ∃ cfg', f cfg i = Done cfg' ∧ J cfg') →
  ∃ cfg', each f l cfg = Done cfg' ∧ J cfg'.
Proof.
  revert cfg. induction l as [|i l IH]; intros cfg HJ Hf; cbn [each]; [by exists cfg|].
  destruct (Hf cfg i HJ) as (cfg1 & -> & HJ1); [left|]. go_simpl. apply IH; [done|].
  intros c k Hc Hk. apply Hf; [done|by right].
Qed.

(** While group [gi] is being started. *)
Definition starting (gi servers : nat) (cfg : config) : Prop :=
  names_taken (net cfg) (used cfg) ∧ n cfg = servers ∧ nmasters cfg = 3%nat ∧ length (groups cfg) = 3%nat ∧
  ∃ gg, groups cfg !! gi = Some gg ∧ group_ok cfg gg.

Lemma starting_step gi servers cfg i srv interval now :
  starting gi servers cfg → (i < servers)%nat → (i < 3)%nat →
  ∃ cfg', StartServer cfg gi i srv interval now = Done cfg' ∧ starting gi servers cfg'.
Proof.
  intros (Hf & Hn & Hm & Hl & gg & Hg & Hok) Hi H3.
  destruct (idx_in_range (g_saved gg) (Z.of_nat i)) as (s0 & Es & _); [pose proof (go_saved _ _ Hok); len|].
  destruct (saved_now gg i) as [s| |] eqn:Hs; [|unfold saved_now in Hs; by rewrite Es in Hs..].
  destruct (start_readable s (go_readable _ _ Hok i s Hs)) as (t & l & Hsv).
  destruct (StartServer_ok cfg gi i srv interval now gg s t l) as (cfg' & gg' & Hst & [Hgs _ [Hn' Hm'] Hok' Hf' _ _ _ _]);
    [done|done|done|lia|lia|done|done|].
  exists cfg'. split; [done|]. split; [done|]. split; [lia|]. split; [lia|].
  rewrite Hgs, length_insert. split; [done|]. exists gg'. split; [|done].
  apply list_lookup_insert_eq. apply lookup_lt_Some in Hg. lia.
Qed.

(** Before and after the start of a group. *)
Definition between_groups (servers : nat) (cfg : config) : Prop :=
  names_taken (net cfg) (used cfg) ∧ n cfg = servers ∧ nmasters cfg = 3%nat ∧ length (groups cfg) = 3%nat.

Lemma make_group_prepare srv interval now servers cfg gi :
  between_groups servers cfg → (gi < 3)%nat →
  ∃ cfg', starting gi servers cfg' ∧ make_group srv interval now cfg gi =
    each (fun cfg i => StartServer cfg gi i (srv gi i) interval now) (seq 0 servers) cfg'.
Proof.
  intros (Hf & Hn & Hm & Hl) Hg. unfold make_group. rewrite upd_in_range by len. go_simpl. rewrite Nat2Z.id.
  eexists. split; [|by rewrite Hn]. split; [done|]. split; [done|]. split; [done|].
  cbn. rewrite length_insert. split; [done|]. eexists.
  split; [apply list_lookup_insert_eq; lia|]. split; cbn; rewrite ?length_replicate; try done.
  intros i s Hs. unfold saved_now in Hs. go_cases Hs. cbn in E.
  apply idx_Done in E as [_ E]. apply lookup_replicate in E as [-> _]. subst s. by intros ps ?.
Qed.

Lemma make_group_ok srv interval now servers cfg gi :
  between_groups servers cfg → (servers ≤ 3)%nat → (gi < 3)%nat →
  ∃ cfg', make_group srv interval now cfg gi = Done cfg' ∧ between_groups servers cfg'.
Proof.
  intros Hb Hs Hg. destruct (make_group_prepare srv interval now servers cfg gi Hb Hg) as (cfg0 & H0 & ->).
  destruct (each_inv (starting gi servers) (fun cfg i => StartServer cfg gi i (srv gi i) interval now)
    (seq 0 servers) cfg0 H0) as (cfg' & -> & (Hf & Hn & Hm & Hl & _)).
  - intros c i Hc Hi%elem_of_seq. apply starting_step; [done|lia|lia].
  - exists cfg'. done.
Qed.

Lemma make_group_panics srv interval now servers cfg gi :
  between_groups servers cfg → (3 < servers)%nat → (gi < 3)%nat → make_group srv interval now cfg gi = Panic.
Proof.
  intros Hb Hs Hg. destruct (make_group_prepare srv interval now servers cfg gi Hb Hg) as (cfg0 & H0 & ->).
  replace servers with (3 + S (servers - 4))%nat by lia. rewrite seq_app, each_app.
  destruct (each_inv (starting gi servers) (fun cfg i => StartServer cfg gi i (srv gi i) interval now)
    (seq 0 3) cfg0 H0) as (cfg' & -> & (Hf & Hn & Hm & Hl & gg & Hgg & Hok)).
  - intros c i Hc Hi%elem_of_seq. apply starting_step; [done|lia|lia].
  - go_simpl. cbn [seq each]. by rewrite (StartServer_panics cfg' gi _ _ _ _ gg) by (done || lia).
Qed.

(** The masters and the clerk of the shardmaster. *)
Definition masters_up (cfg : config) : Prop :=
  names_taken (net cfg) (used cfg) ∧ nmasters cfg = 3%nat ∧ length (masterservers cfg) = 3%nat.

Lemma StartMasterServer_ok cfg i srv interval now :
  masters_up cfg → (i < 3)%nat →
  ∃ cfg', StartMasterServer cfg i srv interval now = Done cfg' ∧ masters_up cfg'.
Proof.
  intros (Hf & Hm & Hl) Hi. unfold StartMasterServer.
  destruct (open_ends_ok (masters_of cfg) (used cfg) (net cfg) Hf) as (rn & -> & _ & Hf' & _). go_simpl.
  unfold sm_StartServer.
  destruct (Make_saved (C:=C) (nmasters cfg) (Z.of_nat i) Persister.MakePersister 0 [mkLog 0 inhabitant] interval now)
    as [v ->]; [by left|].
  go_simpl. rewrite upd_in_range by len. go_simpl. eexists. split; [done|].
  split; cbn; [|by rewrite length_insert]. eapply names_taken_mono; [exact Hf'|done|].
  unfold taken. rewrite length_fmap, length_seq. done.
Qed.

Lemma make_config_prepare servers unreliable maxraft msrv srv interval now :
  ∃ cfg, between_groups servers cfg ∧
    make_config servers unreliable maxraft msrv srv interval now =
      (cfg ← each (make_group srv interval now) (seq 0 3) cfg;
       let cfg := set_clerks ∅ (Z.of_nat (n cfg) + 1000) cfg in
       Done (set_net (Reliable (net cfg) (negb unreliable)) (used cfg) cfg)).
Proof.
  unfold make_config. cbn [nmasters].
  edestruct (each_inv masters_up (fun cfg i => StartMasterServer cfg i (msrv i) interval now) (seq 0 3))
    as (cfg1 & -> & (Hf & Hm & Hl)).
  { split; [|done]. intros e He. cbn in He. set_solver. }
  { intros c i Hc Hi%elem_of_seq. apply StartMasterServer_ok; [done|lia]. }
  go_simpl. unfold shardclerk.
  destruct (open_ends_ok (masters_of cfg1) (used cfg1) (net cfg1) Hf) as (rn & -> & _ & Hf' & _). go_simpl.
  eexists. split; [|done]. split; cbn; [|done]. eapply names_taken_mono; [exact Hf'|done|].
  unfold taken. rewrite length_fmap, length_seq. done.
Qed.

Lemma makeClient_cases cfg ck :
  names_taken (net cfg) (used cfg) →
  (nmasters cfg ≤ n cfg → ∃ cfg', makeClient cfg ck = Done cfg')%nat ∧
  (n cfg < nmasters cfg → makeClient cfg ck = Panic)%nat.
Proof.
  intros Hf. unfold makeClient.
  destruct (open_ends_ok (masters_of cfg) (used cfg) (net cfg) Hf) as (rn & -> & _). go_simpl.
  assert (∀ names j (slots : list string),
    (j + length names ≤ length slots → ∃ s, store_names j names slots = Done s)%nat ∧
    (length slots < j + length names → j ≤ length slots → store_names j names slots = Panic)%nat) as Hst.
  { clear. induction names as [|name names IH]; intros j slots; cbn [store_names length].
    - split; [eauto|lia].
    - split; intros Hl; [|intros Hj].
      + rewrite upd_in_range by len. go_simpl. apply IH. rewrite length_insert. lia.
      + unfold upd. case_bool_decide; [|done]. go_simpl. apply IH; rewrite length_insert; lia. }
  assert (length (taken (used cfg) (length (masters_of cfg))) = nmasters cfg) as Hlt
    by (unfold taken, masters_of; len).
  destruct (Hst (taken (used cfg) (length (masters_of cfg))) 0%nat (replicate (n cfg) "")) as [H1 H2].
  rewrite length_replicate, Hlt in *. split.
  - intros Hle. destruct H1 as [s ->]; [lia|]. go_simpl. eauto.
  - intros Hlt'. by rewrite H2 by lia.
Qed.

(** The harness of the sharded service works for groups of exactly three
    servers.  With more than three, [make_config] runs out of the slots that it
    made for the names of the ends to the shardmasters and panics; with fewer,
    it returns, but the first [makeClient] panics; with three, both return. *)
Theorem shardkv_harness_size servers unreliable maxraft msrv srv interval now :
  ((3 < servers)%nat → make_config servers unreliable maxraft msrv srv interval now = Panic) ∧
  ((servers ≤ 3)%nat → ∃ cfg, make_config servers unreliable maxraft msrv srv interval now = Done cfg ∧
     ∀ ck, (servers = 3%nat → ∃ cfg', makeClient cfg ck = Done cfg') ∧
           (servers ≠ 3%nat → makeClient cfg ck = Panic)).
Proof.
  destruct (make_config_prepare servers unreliable maxraft msrv srv interval now) as (cfg & Hb & ->). split.
  - intros Hs. cbn [seq each]. by rewrite (make_group_panics _ _ _ servers) by (done || lia).
  - intros Hs. destruct (each_inv (between_groups servers) (make_group srv interval now) (seq 0 3) cfg Hb)
      as (cfg' & -> & (Hf & Hn & Hm & Hl)).
    { intros c i Hc Hi%elem_of_seq. apply make_group_ok; [done|done|lia]. }
    go_simpl. eexists. split; [done|]. intros ck.
    destruct (makeClient_cases (set_net (Reliable (net cfg') (negb unreliable)) (used cfg')
      (set_clerks ∅ (Z.of_nat (n cfg') + 1000) cfg')) ck) as [H1 H2]; [done|].
    cbn in H1, H2. split; intros H3; [apply H1|apply H2]; lia.
Qed.

End shardkv.
