(* ===== verification/ShardkvConfigExamples.v ===== *)
(** * The harness of the sharded service with random names instantiated

    The names are the decimal numerals, which do not collide. *)

From stdpp Require Import pretty.
From S2P Require Import Prelude Gob RaftNode Labrpc ShardmasterConfig ShardkvConfig RaftTraces.
Local Open Scope Z_scope.

#[local] Existing Instance codec_Z.
#[local] Existing Instance codec_log.
#[local] Existing Instance Z_nil.
#[local] Existing Instance gob_Z.
#[local] Existing Instance gob_log.

Definition numeral (k : nat) : string := pretty k.
Definition three_groups (servers : nat) : go (config (C:=Z)) :=
  make_config numeral servers false (-1) id (fun g i => (3 * g + i)%nat) 400 0.

Lemma shardkv_harness_size_witness :
  three_groups 5 = Panic ∧
  (∃ cfg, three_groups 3 = Done cfg ∧ ∃ cfg', makeClient numeral cfg 0 = Done cfg') ∧
  (∃ cfg, three_groups 1 = Done cfg ∧ makeClient numeral cfg 0 = Panic).
Proof.
  unfold three_groups. split; [|split].
  - destruct (shardkv_harness_size (C:=Z) numeral 5 false (-1) id (fun g i => (3 * g + i)%nat) 400 0) as [Hp _].
    apply Hp. lia.
  - destruct (shardkv_harness_size (C:=Z) numeral 3 false (-1) id (fun g i => (3 * g + i)%nat) 400 0) as [_ Hs].
    destruct Hs as (cfg & E & Hc); [lia|]. exists cfg. split; [exact E|]. apply Hc. reflexivity.
  - destruct (shardkv_harness_size (C:=Z) numeral 1 false (-1) id (fun g i => (3 * g + i)%nat) 400 0) as [_ Hs].
    destruct Hs as (cfg & E & Hc); [lia|]. exists cfg. split; [exact E|]. apply Hc. lia.
Defined.
