(* ===== verification/NotesKv.v ===== *)
(** * The key/value server of the lectures ([notes/02_kv.go])

    A map behind a mutex, with [Get] and [Put] as RPC handlers, each in its own
    goroutine.  The model runs any number of calls, interleaved step by step:
    a call is sent, its handler takes the lock, accesses the map, gives up the
    lock, and the reply reaches the client.  As in the crawlers, a write to the
    map takes two steps and the runtime stops the program if another access
    comes in between.

    Calls and replies are stamped with the number of steps made so far, and
    give a history in the sense of the checker; it is always linearizable. *)

From S2P Require Import Prelude PorcupineModel Linearizability OpHistory PorcupineCheck KvModel.
Local Open Scope Z_scope.

(** ** Requests, replies, handlers *)

Definition OK : string := "OK".
Definition ErrNoKey : string := "ErrNoKey".

Record PutArgs := mkPutArgs { Key : string; Value : string }.
Record PutReply := mkPutReply { Err : string }.
Record GetArgs := mkGetArgs { g_Key : string }.
Record GetReply := mkGetReply { g_Err : string; g_Value : string }.

(** What the handlers do while they hold the lock. *)
Definition Get (data : gmap string string) (args : GetArgs) : GetReply :=
  match data !! g_Key args with
  | Some val => mkGetReply OK val
  | None => mkGetReply ErrNoKey ""
  end.

Definition Put (data : gmap string string) (args : PutArgs) : gmap string string * PutReply :=
  (<[Key args := Value args]> data, mkPutReply OK).

(** ** The clients

    [get] and [put] build the requests below, and return what the reply
    holds. *)

Definition get_request (key : string) : GetArgs := mkGetArgs "subject".
Definition put_request (key val : string) : PutArgs := mkPutArgs "subject" "6.824".

(** ** The system *)

Inductive request := RGet (args : GetArgs) | RPut (args : PutArgs).
Inductive response := AGet (reply : GetReply) | APut (reply : PutReply).

(** Where a call stands. *)
Inductive call_pc :=
| PLock
| PBody
| PWriting
| PUnlock (r : response)
| PReply (r : response)
| PDone (r : response) (returned : Z).

Record call := mkCall { c_client : Z; c_req : request; c_called : Z; c_pc : call_pc }.

Record kv_state := mkKV {
  mu : bool;
  data : gmap string string;
  map_writing : bool;
  calls : list call;
  clock : Z;
}.

Definition server : kv_state := mkKV false ∅ false [] 0.

Inductive kv_act :=
| Invoke (client : Z) (req : request)
| Run (i : nat).

Definition at_pc (pc : call_pc) (c : call) : call := mkCall (c_client c) (c_req c) (c_called c) pc.

Definition kv_step (st : kv_state) (a : kv_act) : go kv_state :=
  let now := clock st + 1 in
  match a with
  | Invoke client req =>
      Done (mkKV (mu st) (data st) (map_writing st) (calls st ++ [mkCall client req now PLock]) now)
  | Run i =>
      match calls st !! i with
      | None => Stuck
      | Some c =>
          let goes pc := <[i := at_pc pc c]> (calls st) in
          match c_pc c with
          | PLock =>
              if mu st then Stuck else Done (mkKV true (data st) (map_writing st) (goes PBody) now)
          | PBody =>
              if map_writing st then Panic
              else match c_req c with
                   | RGet args =>
                       Done (mkKV (mu st) (data st) false (goes (PUnlock (AGet (Get (data st) args)))) now)
                   | RPut args => Done (mkKV (mu st) (data st) true (goes PWriting) now)
                   end
          | PWriting =>
              match c_req c with
              | RGet _ => Stuck
              | RPut args =>
                  let '(data', reply) := Put (data st) args in
                  Done (mkKV (mu st) data' false (goes (PUnlock (APut reply))) now)
              end
          | PUnlock r => Done (mkKV false (data st) (map_writing st) (goes (PReply r)) now)
          | PReply r => Done (mkKV (mu st) (data st) (map_writing st) (goes (PDone r now)) now)
          | PDone _ _ => Stuck
          end
      end
  end.

Fixpoint kv_run (st : kv_state) (acts : list kv_act) : go kv_state :=
  match acts with
  | [] => Done st
  | a :: acts => st ← kv_step st a; kv_run st acts
  end.

(** ** The history of the calls that have returned *)

Definition op_input (req : request) : kvval :=
  KIn (match req with
       | RGet args => mkKvInput 0 (g_Key args) ""
       | RPut args => mkKvInput 1 (Key args) (Value args)
       end).

Definition op_output (r : response) : kvval :=
  KOut (mkKvOutput (match r with AGet reply => g_Value reply | APut _ => "" end)).

Definition finished_op (c : call) : option kvop :=
  match c_pc c with
  | PDone r returned => Some (mkOperation (c_client c) (op_input (c_req c)) (c_called c) (op_output r) returned)
  | _ => None
  end.

Definition history (st : kv_state) : list kvop := omap finished_op (calls st).

(** Every call has returned. *)
Definition quiescent (st : kv_state) : Prop := Forall (fun c => is_Some (finished_op c)) (calls st).

(** ** The invariant *)

Definition response_of (c : call) : option response :=
  match c_pc c with PUnlock r | PReply r | PDone r _ => Some r | _ => None end.

Definition holds (c : call) : Prop :=
  match c_pc c with PBody | PWriting | PUnlock _ => True | _ => False end.

Record lock_inv (st : kv_state) : Prop := {
  li_one : ∀ i j c d, calls st !! i = Some c → calls st !! j = Some d → holds c → holds d → i = j;
  li_mu : ∀ i c, calls st !! i = Some c → holds c → mu st = true;
  li_free : mu st = true → ∃ i c, calls st !! i = Some c ∧ holds c;
  li_writing : map_writing st = true → ∃ i c, calls st !! i = Some c ∧ c_pc c = PWriting;
  li_put : ∀ i c, calls st !! i = Some c → c_pc c = PWriting → ∃ args, c_req c = RPut args;
}.

(** Replaying the accesses to the map. *)
Fixpoint replay (st : gmap string string) (σ : list (request * response)) : option (gmap string string) :=
  match σ with
  | [] => Some st
  | (req, r) :: σ =>
      match req, r with
      | RGet args, AGet reply => if bool_decide (g_Value reply = default "" (st !! g_Key args)) then replay st σ else None
      | RPut args, APut _ => replay (<[Key args := Value args]> st) σ
      | _, _ => None
      end
  end.

(** [l] has the calls whose access to the map has happened, in order, with
    its time. *)
Record order_inv (st : kv_state) (l : list (Z * nat)) : Prop := {
  oi_sorted : StronglySorted (fun x y => x.1 ≤ y.1) l;
  oi_nodup : NoDup l.*2;
  oi_calls : ∀ i c, calls st !! i = Some c → is_Some (response_of c) → i ∈ l.*2;
  oi_times : ∀ t i, (t, i) ∈ l → t ≤ clock st ∧
    ∃ c r, calls st !! i = Some c ∧ response_of c = Some r ∧ c_called c ≤ t ∧
      ∀ ret, c_pc c = PDone r ret → t < ret;
  oi_clock : ∀ i c, calls st !! i = Some c → c_called c ≤ clock st ∧
    ∀ r ret, c_pc c = PDone r ret → ret ≤ clock st;
  oi_ties : ∀ i j c d r ret, calls st !! i = Some c → calls st !! j = Some d →
    c_pc d = PDone r ret → c_called c ≠ ret;
  oi_data : ∃ σ, Forall2 (fun x p => ∃ c, calls st !! x.2 = Some c ∧ c_req c = p.1 ∧ response_of c = Some p.2) l σ ∧
    replay ∅ σ = Some (data st);
}.

(** ** The lock excludes *)

#[export] Instance holds_dec c : Decision (holds c).
Proof. unfold holds. destruct (c_pc c); apply _. Defined.

(** A call moves on that holds the lock, or finds it free. *)
Lemma lock_inv_move st i c pc d' w' t' :
  lock_inv st → calls st !! i = Some c → (holds c ∨ mu st = false) →
  (w' = true → pc = PWriting) → (pc = PWriting → ∃ args, c_req c = RPut args) →
  lock_inv (mkKV (bool_decide (holds (at_pc pc c))) d' w' (<[i := at_pc pc c]> (calls st)) t').
Proof.
  intros [H1 Hm Hf Hw Hp] Hi Hh Hw' Hp'.
  assert (∀ j d, calls st !! j = Some d → holds d → j = i) as Honly.
  { intros j d Hj Hd. destruct Hh as [Hc|Hfree]; [by apply (H1 j i d c)|].
    specialize (Hm j d Hj Hd). congruence. }
  assert (<[i := at_pc pc c]> (calls st) !! i = Some (at_pc pc c)) as Hnew
    by (apply list_lookup_insert_eq; eauto with go_lists).
  split; cbn.
  - intros j k x y [(<- & <- & _)|[Hne Hj]]%list_lookup_insert_Some
      [(<- & <- & _)|[Hne' Hk]]%list_lookup_insert_Some Hx Hy.
    + done.
    + by rewrite (Honly k y).
    + by apply (Honly j x).
    + by rewrite (Honly j x), (Honly k y).
  - intros j x [(<- & <- & _)|[Hne Hj]]%list_lookup_insert_Some Hx; [by apply bool_decide_eq_true|].
    exfalso. by apply Hne; rewrite (Honly j x).
  - intros ?%bool_decide_eq_true. eauto.
  - intros Ht. exists i, (at_pc pc c). split; [done|]. by apply Hw'.
  - intros j x [(<- & <- & _)|[Hne Hj]]%list_lookup_insert_Some; [done|]. by eapply Hp.
Qed.

(** A call moves on that neither has nor wants the lock. *)
Lemma lock_inv_other st i c pc d' t' :
  lock_inv st → calls st !! i = Some c → ¬ holds c → ¬ holds (at_pc pc c) →
  lock_inv (mkKV (mu st) d' (map_writing st) (<[i := at_pc pc c]> (calls st)) t').
Proof.
  intros [H1 Hm Hf Hw Hp] Hi Hn Hn'.
  assert (∀ j x, <[i := at_pc pc c]> (calls st) !! j = Some x → holds x → calls st !! j = Some x) as Hold.
  { intros j x [(<- & <- & _)|[Hne Hj]]%list_lookup_insert_Some Hx; [done|done]. }
  assert (∀ j x, calls st !! j = Some x → holds x → <[i := at_pc pc c]> (calls st) !! j = Some x) as Hkeep.
  { intros j x Hj Hx. rewrite list_lookup_insert_ne; [done|]. intros <-. congruence. }
  assert (∀ x, c_pc x = PWriting → holds x) as Hwh by (unfold holds; by intros x ->).
  split; cbn.
  - intros j k x y Hj Hk Hx Hy. apply (H1 j k x y); auto.
  - intros j x Hj Hx. apply (Hm j x); auto.
  - intros (j & x & Hj & Hx)%Hf. exists j, x. auto.
  - intros (j & x & Hj & Hx)%Hw. exists j, x. auto.
  - intros j x Hj Hx. apply (Hp j x); auto.
Qed.

Lemma lock_inv_invoke st c t' :
  lock_inv st → c_pc c = PLock → lock_inv (mkKV (mu st) (data st) (map_writing st) (calls st ++ [c]) t').
Proof.
  intros [H1 Hm Hf Hw Hp] Hc.
  assert (∀ j x, (calls st ++ [c]) !! j = Some x → calls st !! j = Some x ∨ x = c) as Hold.
  { intros j x [?|[_ Hj]]%lookup_app_Some; [by left|]. apply list_lookup_singleton_Some in Hj as [_ <-]. by right. }
  assert (¬ holds c) as Hnc by (unfold holds; rewrite Hc; tauto).
  split; cbn.
  - intros j k x y [Hj| ->]%Hold [Hk| ->]%Hold Hx Hy; try done. by apply (H1 j k x y).
  - intros j x [Hj| ->]%Hold Hx; [|done]. by eapply Hm.
  - intros (j & x & Hj & Hx)%Hf. exists j, x. split; [|done]. by apply lookup_app_l_Some.
  - intros (j & x & Hj & Hx)%Hw. exists j, x. split; [|done]. by apply lookup_app_l_Some.
  - intros j x [Hj| ->]%Hold Hx; [by eapply Hp|congruence].
Qed.

Lemma kv_step_lock st a st' : lock_inv st → kv_step st a = Done st' → lock_inv st'.
Proof.
  intros Hl H. destruct a as [client req|i]; cbn [kv_step] in H.
  { injection H as <-. by apply lock_inv_invoke. }
  destruct (calls st !! i) as [c|] eqn:Hi; [|done].
  assert (holds c → mu st = true) as Hmu by (by eapply li_mu).
  destruct (c_pc c) as [| | |r|r|r ret] eqn:Hpc; go_cases H; try subst st'.
  - apply (lock_inv_move st i c PBody); try done; [by right|].
    intros Hw. exfalso. apply (li_writing _ Hl) in Hw as (j & d & Hj & Hd).
    enough (mu st = true) by congruence. eapply li_mu; [done|done|]. unfold holds. by rewrite Hd.
  - destruct (c_req c) as [args|args] eqn:Hr; go_cases H; subst st'; rewrite Hmu by (unfold holds; by rewrite Hpc).
    + apply (lock_inv_move st i c (PUnlock (AGet (Get (data st) args)))); try done.
      left. unfold holds. by rewrite Hpc.
    + apply (lock_inv_move st i c PWriting); try done; [left; unfold holds; by rewrite Hpc|eauto].
  - destruct (c_req c) as [args|args] eqn:Hr; [done|]. go_cases H. subst st'.
    rewrite Hmu by (unfold holds; by rewrite Hpc).
    apply (lock_inv_move st i c (PUnlock _)); try done. left. unfold holds. by rewrite Hpc.
  - apply (lock_inv_move st i c (PReply r)); try done; [left; unfold holds; by rewrite Hpc|].
    intros Hw. exfalso. apply (li_writing _ Hl) in Hw as (j & d & Hj & Hd).
    assert (i = j) as <-; [|congruence].
    eapply li_one; [done|done|done|unfold holds; by rewrite Hpc|unfold holds; by rewrite Hd].
  - apply (lock_inv_other st i c); try done; unfold holds; cbn; rewrite ?Hpc; tauto.
Qed.

(** No access to the map meets a write in progress. *)
Lemma kv_step_no_panic st a : lock_inv st → kv_step st a ≠ Panic.
Proof.
  intros Hl. destruct a as [client req|i]; cbn [kv_step]; [done|].
  destruct (calls st !! i) as [c|] eqn:Hi; [|done].
  destruct (c_pc c) as [| | |r|r|r ret] eqn:Hpc; [by destruct (mu st)| |by destruct (c_req c)|done..].
  destruct (map_writing st) eqn:Hw; [|by destruct (c_req c)].
  exfalso. apply (li_writing _ Hl) in Hw as (j & d & Hj & Hd).
  assert (i = j) as <-; [|congruence].
  eapply li_one; [done|done|done|unfold holds; by rewrite Hpc|unfold holds; by rewrite Hd].
Qed.

(** ** The order in which the calls access the map *)

Lemma replay_app s σ1 σ2 s' : replay s σ1 = Some s' → replay s (σ1 ++ σ2) = replay s' σ2.
Proof.
  revert s. induction σ1 as [|[req r] σ1 IH]; intros s H; cbn in *; [by injection H as ->|].
  destruct req, r; try done; [case_bool_decide; [|done]|]; by apply IH.
Qed.

(** A call moves on without accessing the map. *)
Lemma order_move st l i c pc m' w' t' :
  order_inv st l → calls st !! i = Some c → response_of (at_pc pc c) = response_of c →
  clock st ≤ t' → (∀ r ret, pc = PDone r ret → clock st < ret ≤ t') →
  order_inv (mkKV m' (data st) w' (<[i := at_pc pc c]> (calls st)) t') l.
Proof.
  intros [Hs Hnd Hc Ht Hk Hties (σ & Hf & Hr)] Hi Hrsp Hle Hdone.
  assert (∀ j x, calls st !! j = Some x → ∃ x', <[i := at_pc pc c]> (calls st) !! j = Some x' ∧
    c_req x' = c_req x ∧ response_of x' = response_of x ∧ c_called x' = c_called x ∧
    (x' = x ∨ c_pc x' = pc)) as Hnew.
  { intros j x Hj. destruct (decide (i = j)) as [<-|Hne].
    - rewrite Hi in Hj. injection Hj as <-. exists (at_pc pc c).
      split; [apply list_lookup_insert_eq; eauto with go_lists|]. do 3 (split; [done|]). by right.
    - exists x. rewrite list_lookup_insert_ne by done. split_and!; auto. }
  split; cbn; [done|done| | | | |].
  - intros j x [(<- & <- & _)|[Hne Hj]]%list_lookup_insert_Some; [rewrite Hrsp|]; by eauto.
  - intros t j Hin. destruct (Ht t j Hin) as (Htk & x & r & Hj & Hx & Hcx & Hret). split; [lia|].
    destruct (Hnew j x Hj) as (x' & Hj' & _ & Hr' & Hc' & Hpc). exists x', r.
    split; [done|]. split; [congruence|]. split; [lia|]. intros ret E.
    destruct Hpc as [->|Hpc]; [by apply Hret|]. specialize (Hdone r ret ltac:(congruence)). lia.
  - intros j x [(<- & <- & _)|[Hne Hj]]%list_lookup_insert_Some.
    + destruct (Hk i c Hi). cbn. split; [lia|]. intros r ret E. specialize (Hdone r ret E). lia.
    + destruct (Hk j x Hj) as [? Hd]. split; [lia|]. intros r ret E. specialize (Hd r ret E). lia.
  - intros j k x y r ret Hj Hy E.
    assert (∃ x0, calls st !! j = Some x0 ∧ c_called x0 = c_called x) as (x0 & Hx0 & <-).
    { apply list_lookup_insert_Some in Hj as [(<- & <- & _)|[_ Hj]]; eauto. }
    apply list_lookup_insert_Some in Hy as [(<- & <- & _)|[Hne Hy]]; [|by apply (Hties j k x0 y r)].
    destruct (Hk _ _ Hx0). specialize (Hdone r ret E). lia.
  - exists σ. split; [|done]. eapply Forall2_impl; [exact Hf|].
    intros y p (x & Hj & Hq & Hrs). destruct (Hnew _ _ Hj) as (x' & ? & ? & ? & _).
    exists x'. split; [done|]. split; congruence.
Qed.

(** A call accesses the map. *)
Lemma order_access st l i c pc r d' m' w' :
  order_inv st l → calls st !! i = Some c → response_of c = None →
  response_of (at_pc pc c) = Some r → (∀ r' ret, pc ≠ PDone r' ret) →
  replay (data st) [(c_req c, r)] = Some d' →
  order_inv (mkKV m' d' w' (<[i := at_pc pc c]> (calls st)) (clock st + 1)) (l ++ [(clock st + 1, i)]).
Proof.
  intros [Hs Hnd Hc Ht Hk Hties (σ & Hf & Hr)] Hi Hnone Hsome Hnd' Hd'.
  assert (∀ t j, (t, j) ∈ l → j ≠ i) as Hother.
  { intros t j Hin ->. destruct (Ht t i Hin) as (_ & x & r' & Hx & Hr' & _). congruence. }
  assert (<[i := at_pc pc c]> (calls st) !! i = Some (at_pc pc c)) as Hnew
    by (apply list_lookup_insert_eq; eauto with go_lists).
  split; cbn.
  - apply StronglySorted_app_2; [|done|by repeat constructor].
    intros [t j] [t2 j2] Hin Hin2. apply list_elem_of_singleton in Hin2 as [= -> ->]. cbn.
    destruct (Ht t j Hin). lia.
  - rewrite fmap_app. apply NoDup_app. split; [done|]. split; [|apply NoDup_singleton].
    intros j ([t j'] & -> & Hin)%list_elem_of_fmap [= ->]%list_elem_of_singleton. by eapply Hother.
  - intros j x [(<- & <- & _)|[Hne Hj]]%list_lookup_insert_Some Hx; rewrite fmap_app; apply elem_of_app.
    + right. left.
    + left. eauto.
  - intros t j [Hin|[= -> ->]%list_elem_of_singleton]%elem_of_app.
    + destruct (Ht t j Hin) as (Htk & x & r' & Hj & Hx). split; [lia|]. exists x, r'.
      rewrite list_lookup_insert_ne by (by apply not_eq_sym, (Hother t)). done.
    + split; [lia|]. exists (at_pc pc c), r. split; [done|]. split; [done|].
      destruct (Hk i c Hi). cbn. split; [lia|]. intros ret E. by apply Hnd' in E.
  - intros j x [(<- & <- & _)|[Hne Hj]]%list_lookup_insert_Some.
    + destruct (Hk i c Hi). cbn. split; [lia|]. intros r' ret E. by apply Hnd' in E.
    + destruct (Hk j x Hj) as [? Hd]. split; [lia|]. intros r' ret E. specialize (Hd r' ret E). lia.
  - intros j k x y r' ret Hj Hy E.
    assert (∃ x0, calls st !! j = Some x0 ∧ c_called x0 = c_called x) as (x0 & Hx0 & <-).
    { apply list_lookup_insert_Some in Hj as [(<- & <- & _)|[_ Hj]]; eauto. }
    apply list_lookup_insert_Some in Hy as [(<- & <- & _)|[Hne Hy]]; [by apply Hnd' in E|].
    by apply (Hties j k x0 y r').
  - exists (σ ++ [(c_req c, r)]). split; [|by rewrite (replay_app _ _ _ _ Hr)].
    apply Forall2_app; [|constructor; [exists (at_pc pc c); done|constructor] ].
    apply Forall2_same_length_lookup_2; [by eapply Forall2_length|].
    intros k [t j] p Hkl Hkp. apply (Forall2_lookup_lr _ _ _ _ _ _ Hf Hkl) in Hkp as (x & Hx & ?). 
    exists x. cbn in *. rewrite list_lookup_insert_ne; [done|]. apply not_eq_sym, (Hother t).
    eauto with go_lists.
Qed.

Lemma order_invoke st l client req m' w' :
  order_inv st l →
  order_inv (mkKV m' (data st) w' (calls st ++ [mkCall client req (clock st + 1) PLock]) (clock st + 1)) l.
Proof.
  intros [Hs Hnd Hc Ht Hk Hties (σ & Hf & Hr)].
  assert (∀ j x, calls st !! j = Some x → ∀ y, (calls st ++ [y]) !! j = Some x) as Hkeep
    by (intros; by apply lookup_app_l_Some).
  split; cbn; [done|done| | | | |].
  - intros j x [Hj|[_ Hj]]%lookup_app_Some Hx; [by eauto|].
    apply list_lookup_singleton_Some in Hj as [_ <-]. by destruct Hx.
  - intros t j Hin. destruct (Ht t j Hin) as (? & x & r & Hj & Hx). split; [lia|]. exists x, r. eauto.
  - intros j x [Hj|[_ Hj]]%lookup_app_Some.
    + destruct (Hk j x Hj) as [? Hd]. split; [lia|]. intros r ret E. specialize (Hd r ret E). lia.
    + apply list_lookup_singleton_Some in Hj as [_ <-]. cbn. split; [lia|done].
  - intros j k x y r ret Hj Hy E.
    apply lookup_app_Some in Hy as [Hy|[_ Hy]];
      [|by apply list_lookup_singleton_Some in Hy as [_ <-]].
    apply lookup_app_Some in Hj as [Hj|[_ Hj]]; [by apply (Hties j k x y r)|].
    apply list_lookup_singleton_Some in Hj as [_ <-]. cbn.
    destruct (Hk k y Hy) as [_ Hd]. specialize (Hd r ret E). lia.
  - exists σ. split; [|done]. eapply Forall2_impl; [exact Hf|]. intros y p (x & Hx & ?). eauto.
Qed.

Lemma kv_step_order st a st' l :
  order_inv st l → lock_inv st → kv_step st a = Done st' → ∃ l', order_inv st' l'.
Proof.
  intros Ho Hl H. destruct a as [client req|i]; cbn [kv_step] in H.
  { injection H as <-. exists l. by apply order_invoke. }
  destruct (calls st !! i) as [c|] eqn:Hi; [|done].
  destruct (c_pc c) as [| | |r|r|r ret] eqn:Hpc; go_cases H; try subst st'.
  - exists l. apply (order_move st l i c PBody); try done; [unfold response_of; by rewrite Hpc|lia].
  - destruct (c_req c) as [args|args] eqn:Hr; go_cases H; subst st'.
    + exists (l ++ [(clock st + 1, i)]). eapply (order_access st l i c (PUnlock _)); try done.
      * unfold response_of. by rewrite Hpc.
      * rewrite Hr. cbn. unfold Get. destruct (data st !! g_Key args) eqn:E; cbn; by rewrite bool_decide_eq_true_2.
    + exists l. apply (order_move st l i c PWriting); try done; [unfold response_of; by rewrite Hpc|lia].
  - destruct (c_req c) as [args|args] eqn:Hr; [done|]. injection H as <-.
    exists (l ++ [(clock st + 1, i)]). eapply (order_access st l i c (PUnlock _)); try done.
    + unfold response_of. by rewrite Hpc.
    + by rewrite Hr.
  - exists l. apply (order_move st l i c (PReply r)); try done; [unfold response_of; by rewrite Hpc|lia].
  - exists l. apply (order_move st l i c (PDone r (clock st + 1))); try done.
    + unfold response_of. by rewrite Hpc.
    + lia.
    + intros r' ret [= _ <-]. lia.
Qed.

Definition kv_inv (st : kv_state) : Prop := lock_inv st ∧ ∃ l, order_inv st l.

Lemma kv_init_inv : kv_inv server.
Proof.
  split; [by split|]. exists []. split; cbn; [constructor|constructor|done| |done|done|].
  - intros t i ?%elem_of_nil. done.
  - exists []. split; [constructor|done].
Qed.

Lemma kv_run_inv st acts : kv_inv st → kv_run st acts ≠ Panic ∧ ∀ st', kv_run st acts = Done st' → kv_inv st'.
Proof.
  revert st. induction acts as [|a acts IH]; intros st [Hl [l Ho]]; cbn [kv_run].
  { split; [done|]. intros st' [= <-]. split; eauto. }
  pose proof (kv_step_no_panic st a Hl) as Hp. destruct (kv_step st a) as [st1| |] eqn:E; [|done|by split].
  go_simpl. apply IH. split; [by eapply kv_step_lock|]. by eapply kv_step_order.
Qed.

(** ** The history is linearizable *)

Lemma replay_accepts st s l σ s' (ops : list kvop) :
  Forall2 (fun (x : Z * nat) (p : request * response) =>
    ∃ c, calls st !! x.2 = Some c ∧ c_req c = p.1 ∧ response_of c = Some p.2) l σ →
  Forall2 (fun (x : Z * nat) op => ∃ c, calls st !! x.2 = Some c ∧ finished_op c = Some op) l ops →
  replay s σ = Some s' → store_accepts s ops.
Proof.
  intros Hf. revert s ops. induction Hf as [|x p l σ (c & Hc & Hq & Hr) Hf IH]; intros s ops Hops H.
  { by apply Forall2_nil_inv_l in Hops as ->. }
  apply Forall2_cons_inv_l in Hops as (op & ops' & (c' & Hc' & Hop) & Hops & ->).
  rewrite Hc in Hc'. injection Hc' as <-. destruct p as [req r]. cbn in Hq, Hr. subst req.
  unfold finished_op in Hop. unfold response_of in Hr.
  destruct (c_pc c) as [| | |r0|r0|r0 ret] eqn:Hpc; try done. injection Hr as ->. injection Hop as <-.
  cbn [replay store_accepts] in *. unfold store_step. cbn.
  destruct (c_req c) as [args|args], r as [reply|reply]; try done; cbn.
  - case_bool_decide; [|done]. eauto.
  - eauto.
Qed.

Definition op_of_call (st : kv_state) (i : nat) : option kvop := calls st !! i ≫= finished_op.

Lemma history_calls st : history st = omap (op_of_call st) (seq 0 (length (calls st))).
Proof. symmetry. apply omap_lookup_seq. Qed.

Lemma history_elem st op : op ∈ history st ↔ ∃ i, op_of_call st i = Some op.
Proof.
  rewrite history_calls, list_elem_of_omap. split; [naive_solver|]. intros [i Hi]. exists i.
  split; [|done]. apply elem_of_seq. unfold op_of_call in Hi.
  destruct (calls st !! i) as [c|] eqn:E; [|done]. apply lookup_lt_Some in E. lia.
Qed.

Lemma kv_inv_linearizable st : kv_inv st → quiescent st → store_linearizable (history st).
Proof.
  intros [_ [l [Hs Hnd Hc Ht _ _ (σ & Hf & Hr)]]] Hq. unfold quiescent in Hq. rewrite Forall_lookup in Hq.
  assert (∃ k : list (Z * kvop), Forall2 (fun x y => x.1 = y.1 ∧ op_of_call st x.2 = Some y.2) l k)
    as [k Hk].
  { clear Hs Hnd Hc Hf. induction l as [|[t i] l IH]; [by exists []; constructor|].
    destruct IH as [k Hk]; [intros; apply Ht; by right|].
    destruct (Ht t i) as (_ & c & r & Hi & _); [left|]. destruct (Hq i c Hi) as [op Hop].
    exists ((t, op) :: k). constructor; [|done]. unfold op_of_call. cbn. by rewrite Hi. }
  assert (k.*2 = omap (op_of_call st) l.*2) as Ek.
  { clear -Hk. induction Hk as [|x y l k [_ Hx] _ IH]; [done|]. cbn. by rewrite Hx, IH. }
  exists k.*2. split; [|split].
  - rewrite Ek, history_calls. f_equiv. apply NoDup_Permutation; [done|apply NoDup_seq|].
    intros i. rewrite elem_of_seq. split.
    + intros ([t j] & -> & Hin)%list_elem_of_fmap. destruct (Ht t j Hin) as (_ & c & r & Hj & _).
      apply lookup_lt_Some in Hj. cbn. lia.
    + intros [_ Hlt]. destruct (lookup_lt_is_Some_2 (calls st) i) as [c Hi]; [lia|].
      apply (Hc i c Hi). destruct (Hq i c Hi) as [op Hop]. unfold finished_op in Hop.
      unfold response_of. by destruct (c_pc c).
  - apply timed_real_time.
    + clear -Hs Hk. induction Hk as [|x y l k [Hxy _] Hk IH]; [constructor|].
      apply StronglySorted_inv in Hs as [Hs Hx]. constructor; [by apply IH|].
      rewrite Forall_forall in Hx. apply Forall_forall. intros z Hz.
      destruct (Forall2_elem_r _ _ _ _ Hk Hz) as (x' & Hx' & Hz' & _). specialize (Hx x' Hx').
      unfold before. lia.
    + apply Forall_forall. intros y Hy. destruct (Forall2_elem_r _ _ _ _ Hk Hy) as ([t i] & Hin & Hyt & Hop).
      destruct (Ht t i Hin) as (_ & c & r & Hi & Hrs & Hct & Hret). unfold op_of_call in Hop. cbn in Hop, Hyt.
      rewrite Hi in Hop. cbn in Hop. unfold finished_op in Hop. unfold response_of in Hrs.
      destruct (c_pc c) as [| | |r0|r0|r0 ret] eqn:Hpc; try done. injection Hop as Hop. injection Hrs as ->.
      unfold timed. rewrite <- Hop. cbn. specialize (Hret ret eq_refl). lia.
  - eapply replay_accepts; [exact Hf| |exact Hr]. apply Forall2_fmap_r. eapply Forall2_impl; [exact Hk|].
    intros x y [_ Hop]. unfold op_of_call in Hop. destruct (calls st !! x.2) as [c|]; [|done]. eauto.
Qed.

Lemma kv_inv_timely st : kv_inv st → timely (history st).
Proof.
  intros [_ [l [Hs Hnd Hc Ht _ Hties _]]].
  assert (∀ op, op ∈ history st → ∃ i c r, calls st !! i = Some c ∧ c_pc c = PDone r (Return op) ∧
    c_called c = Call op) as Hop.
  { intros op [i Hi]%history_elem. unfold op_of_call in Hi.
    destruct (calls st !! i) as [c|] eqn:E; [|done]. cbn in Hi. unfold finished_op in Hi.
    destruct (c_pc c) as [| | |r|r|r ret] eqn:Hpc; try done. injection Hi as <-.
    exists i, c, r. done. }
  split.
  - intros op (i & c & r & Hi & Hpc & <-)%Hop.
    assert (i ∈ l.*2) as ([t j] & -> & Hin)%list_elem_of_fmap.
    { apply (Hc i c Hi). unfold response_of. by rewrite Hpc. }
    destruct (Ht t j Hin) as (_ & c' & r' & Hj & Hr' & Hct & Hret). cbn in Hi.
    rewrite Hi in Hj. injection Hj as <-. unfold response_of in Hr'. rewrite Hpc in Hr'.
    injection Hr' as <-. specialize (Hret _ Hpc). lia.
  - intros a b (i & c & r & Hi & Hpc & _)%Hop (j & d & r' & Hj & _ & <-)%Hop.
    apply not_eq_sym. by apply (Hties j i d c r).
Qed.

Lemma history_typed st : Forall kv_typed (history st).
Proof.
  apply Forall_forall. intros op [i Hi]%history_elem. unfold op_of_call in Hi.
  destruct (calls st !! i) as [c|]; [|done]. cbn in Hi. unfold finished_op in Hi.
  destruct (c_pc c); try done. injection Hi as <-. unfold kv_typed, op_input, op_output. cbn. eauto.
Qed.

(** Whoever holds the lock can go on, and if nobody does, everybody can. *)
Lemma kv_progress st : kv_inv st → ¬ quiescent st → ∃ i st', kv_step st (Run i) = Done st'.
Proof.
  intros [Hl _] Hq. destruct (mu st) eqn:Hmu.
  - destruct (li_free _ Hl Hmu) as (i & c & Hi & Hc). exists i.
    pose proof (kv_step_no_panic st (Run i) Hl) as Hp. cbn [kv_step] in *. rewrite Hi in *. unfold holds in Hc.
    destruct (c_pc c) as [| | |r|r|r ret] eqn:Hpc; try done; [destruct (map_writing st); [done|]|..|eauto];
      destruct (c_req c) eqn:Hr; eauto.
    destruct (li_put _ Hl i c Hi Hpc) as [a Ha]. congruence.
  - unfold quiescent in Hq. apply not_Forall_Exists in Hq; [|intros; apply _].
    apply Exists_exists in Hq as (c & [i Hi]%list_elem_of_lookup & Hc). exists i. cbn [kv_step]. rewrite Hi.
    assert (¬ holds c) as Hh by (intros Hh; pose proof (li_mu _ Hl i c Hi Hh); congruence).
    unfold holds, finished_op in *. destruct (c_pc c) as [| | |r|r|r ret] eqn:Hpc; try done; rewrite ?Hmu; eauto.
    exfalso. apply Hc. rewrite Hpc. eauto.
Qed.

(** C11: the key/value server of the lectures is linearizable.  Whatever the
    interleaving of its clients and handlers, the map is never accessed while
    it is being written, some call can go on as long as one has not returned,
    and the calls and replies of a run in which all calls have returned can be
    explained by one order of the operations on a map. *)
Theorem server_linearizable acts st :
  kv_run server acts ≠ Panic ∧
  (kv_run server acts = Done st →
     (¬ quiescent st → ∃ i st', kv_step st (Run i) = Done st') ∧
     (quiescent st → store_linearizable (history st))).
Proof.
  destruct (kv_run_inv server acts kv_init_inv) as [Hp Hi]. split; [done|]. intros H.
  split; [by apply kv_progress, Hi|by apply kv_inv_linearizable, Hi].
Qed.

(** ** The checker agrees *)

Section checked.
Context (fmtV : kvval → string) (fmtS : string → string).
Context (mapRange : list nat → list nat) (sort : list (entry kvval) → list (entry kvval)).
Context (mapKeys sortStrings : list string → list string).
Context `{!GoSort byTime_Less sort, !GoSort string_less sortStrings}.
Hypothesis HmapRange : ∀ l, mapRange l ≡ₚ l.
Hypothesis HmapKeys : ∀ l, mapKeys l ≡ₚ l.

(** C5: the checker accepts the server.  [CheckOperations], given the history
    of any run of the server in which all calls have returned (at least one,
    and fewer than 2^63), and the model of the test-suite, returns [true]
    whatever the order in which its goroutines finish. *)
Theorem checker_accepts_server acts st kills ixs parts :
  kv_run server acts = Done st → quiescent st → history st ≠ [] → 2 * zlen (history st) < two64 →
  kv_Partition mapKeys sortStrings (history st) = Done parts → ixs ≡ₚ seq 0 (length parts) →
  ∃ fuel, CheckOperations fmtV fmtS mapRange sort fuel (KvModel mapKeys sortStrings) (history st)
            (Result <$> ixs) kills = Done true.
Proof.
  intros H Hq Hne Hsz Hp Hix. destruct (kv_run_inv server acts kv_init_inv) as [_ Hi].
  specialize (Hi st H).
  destruct (CheckOperations_decides fmtV fmtS mapRange sort mapKeys sortStrings HmapRange HmapKeys
    (history st) kills ixs parts) as (fuel & b & Hb & Hiff); [|done|done|done|].
  { split; [apply history_typed|by apply kv_inv_timely|done]. }
  exists fuel. rewrite Hb. f_equal. apply Hiff. by apply kv_inv_linearizable.
Qed.

End checked.

(** ** Runs *)

(** Two clients at once. *)
Definition example_run : list kv_act :=
  [Invoke 0 (RPut (mkPutArgs "x" "1")); Invoke 1 (RGet (mkGetArgs "x")); Run 0; Run 0; Run 0; Run 0;
   Run 1; Run 1; Run 1; Run 1; Run 0].
Definition example_state : kv_state :=
  match kv_run server example_run with Done st => st | _ => server end.

Example example_history :
  history example_state =
    [mkOperation 0 (KIn (mkKvInput 1 "x" "1")) 1 (KOut (mkKvOutput "")) 11;
     mkOperation 1 (KIn (mkKvInput 0 "x" "")) 2 (KOut (mkKvOutput "1")) 10].
Proof. vm_compute. reflexivity. Qed.

(** What [main] prints last: the value of the reply to [get]. *)
Definition main_get : go (list response) :=
  st ← kv_run server (Invoke 0 (RPut (put_request "subject" "6.824")) :: (Run <$> replicate 5 0%nat) ++
    Invoke 0 (RGet (get_request "subject")) :: (Run <$> replicate 4 1%nat));
  Done (omap response_of (calls st)).

Example main_prints : main_get = Done [APut (mkPutReply OK); AGet (mkGetReply OK "6.824")].
Proof. vm_compute. reflexivity. Qed.

(** The clients ignore their arguments. *)
Example clients_ignore_arguments k k' v v' :
  get_request k = get_request k' ∧ put_request k v = put_request k' v'.
Proof. done. Qed.

Lemma example_quiescent : quiescent example_state.
Proof. vm_compute. repeat constructor; eexists; reflexivity. Qed.

Lemma server_linearizable_witness : store_linearizable (history example_state).
Proof.
  eapply (server_linearizable example_run); [vm_compute; reflexivity|exact example_quiescent].
Defined.

Lemma checker_accepts_server_witness :
  ∃ fuel, CheckOperations (fun _ => "") id id (go_sort byTime_Less) fuel
    (KvModel id (go_sort string_less)) (history example_state) (Result <$> [0%nat])
    (fun _ _ => false) = Done true.
Proof.
  eapply (checker_accepts_server (fun _ => "") id id (go_sort byTime_Less) id (go_sort string_less))
    with (acts := example_run).
  - done.
  - done.
  - vm_compute. reflexivity.
  - exact example_quiescent.
  - rewrite example_history. discriminate.
  - rewrite example_history. vm_compute. reflexivity.
  - vm_compute. reflexivity.
  - reflexivity.
Defined.
