(* ===== verification/Crawler.v ===== *)
(** * The web crawlers ([notes/02_crawler.go])

    Three crawlers over one interface, [Fetcher]: a recursive one, one with a
    goroutine per link that share a map, and one in which a coordinator
    receives the links found by workers from a channel.  Each is compared with
    the same specification: the pages reachable from the start.

    A [map[string]bool] that only ever holds [true] is a set.  Calls of
    [Fetch] are recorded: [fakeFetcher] prints one line for each. *)

From S2P Require Import Prelude.
From stdpp Require Import fin_maps.

(** ** The interface *)

(** [Fetch] returns the links of a page, or an error. *)
Class Fetcher := Fetch : string → option (list string).

Section spec.
Context {web : Fetcher}.

Definition links (url : string) : list string :=
  match Fetch url with Some urls => urls | None => [] end.

(** The pages reachable from [url]. *)
Inductive reachable (url : string) : string → Prop :=
| reachable_refl : reachable url url
| reachable_step u v : reachable url u → v ∈ links u → reachable url v.

(** A finite part of the web with no links out of it. *)
Definition closed (X : gset string) : Prop := ∀ u v, u ∈ X → v ∈ links u → v ∈ X.

Lemma reachable_closed X url u : closed X → url ∈ X → reachable url u → u ∈ X.
Proof. intros Hc Hu. induction 1; [done|]. by eapply Hc. Qed.

Lemma reachable_least (P : string → Prop) url :
  P url → (∀ u v, P u → v ∈ links u → P v) → ∀ u, reachable url u → P u.
Proof. intros H0 Hs u. induction 1; eauto. Qed.

Lemma reachable_trans a b c : reachable a b → reachable b c → reachable a c.
Proof. intros Hab. induction 1; [done|]. by eapply reachable_step. Qed.

(** ** [Serial] *)

(** The map [fetched], and the pages fetched so far. *)
Definition crawl_state : Type := gset string * list string.

Section range.
Variable (visit : string → crawl_state → go crawl_state).

(** [for _, u := range urls { Serial(u, fetcher, fetched) }] *)
Fixpoint serial_range (urls : list string) (w : crawl_state) : go crawl_state :=
  match urls with
  | [] => Done w
  | u :: urls => w ← visit u w; serial_range urls w
  end.

End range.

Fixpoint Serial (fuel : nat) (url : string) (w : crawl_state) : go crawl_state :=
  match fuel with
  | O => Stuck
  | S fuel =>
      let '(fetched, trace) := w in
      if bool_decide (url ∈ fetched) then Done w
      else
        let w := ({[url]} ∪ fetched, trace ++ [url]) in
        match Fetch url with
        | None => Done w
        | Some urls => serial_range (Serial fuel) urls w
        end
  end.

(** What a call that starts in [w] may do: the pages it adds are reachable
    from [us], each is fetched once, and their links are all fetched. *)
Record crawled (us : list string) (w w' : crawl_state) : Prop := {
  crawled_mono : w.1 ⊆ w'.1;
  crawled_starts : ∀ u, u ∈ us → u ∈ w'.1;
  crawled_sound : ∀ v, v ∈ w'.1 → v ∈ w.1 ∨ ∃ u, u ∈ us ∧ reachable u v;
  crawled_links : ∀ u v, u ∈ w'.1 → u ∉ w.1 → v ∈ links u → v ∈ w'.1;
  crawled_trace : ∃ new, w'.2 = w.2 ++ new ∧ NoDup new ∧ ∀ u, u ∈ new ↔ u ∈ w'.1 ∧ u ∉ w.1;
}.

Lemma crawled_nil w : crawled [] w w.
Proof.
  split; [done|by intros u ?%elem_of_nil|auto|done|].
  exists []. rewrite app_nil_r. split; [done|]. split; [constructor|]. set_solver.
Qed.

Lemma crawled_cons u us w w1 w2 : crawled [u] w w1 → crawled us w1 w2 → crawled (u :: us) w w2.
Proof.
  intros [M1 S1 R1 L1 (n1 & E1 & N1 & T1)] [M2 S2 R2 L2 (n2 & E2 & N2 & T2)]. split.
  - set_solver.
  - intros v [->|Hv]%elem_of_cons; [|by apply S2]. apply M2, S1. left.
  - intros v [Hv|(x & Hx & Hv)]%R2; [|right; exists x; set_solver].
    apply R1 in Hv as [Hv|(x & ->%list_elem_of_singleton & Hv)]; [by left|right].
    exists u. split; [left|done].
  - intros a b Ha Hna Hb. destruct (decide (a ∈ w1.1)) as [Ha1|Ha1]; [|by eapply L2].
    by eapply M2, L1.
  - exists (n1 ++ n2). rewrite E2, E1, app_assoc. split; [done|]. split.
    + apply NoDup_app. split; [done|]. split; [|done]. intros x Hx1 Hx2.
      apply T1 in Hx1. apply T2 in Hx2. tauto.
    + intros x. rewrite elem_of_app, T1, T2. specialize (M1 x). specialize (M2 x).
      destruct (decide (x ∈ w1.1)); tauto.
Qed.

(** A page together with its links. *)
Lemma crawled_page url fetched trace w' :
  url ∉ fetched → crawled (links url) ({[url]} ∪ fetched, trace ++ [url]) w' →
  crawled [url] (fetched, trace) w'.
Proof.
  intros Hn [M S R L (n & E & N & T)]. cbn in *. split; cbn.
  - set_solver.
  - intros u ->%list_elem_of_singleton. set_solver.
  - intros v Hv. apply R in Hv as [Hv|(u & Hu & Hv)].
    + apply elem_of_union in Hv as [->%elem_of_singleton|Hv]; [right|by left].
      exists url. split; [left|constructor].
    + right. exists url. split; [left|]. eapply reachable_trans; [|done].
      eapply reachable_step; [constructor|done].
  - intros u v Hu Hnu Hv. destruct (decide (u = url)) as [->|Hne]; [by apply S|].
    eapply L; [done|set_solver|done].
  - exists (url :: n). rewrite E, <- app_assoc. split; [done|]. split.
    + constructor; [|done]. rewrite T. set_solver.
    + intros u. rewrite elem_of_cons, T, not_elem_of_union, not_elem_of_singleton.
      specialize (M u). rewrite elem_of_union, elem_of_singleton in M.
      destruct (decide (u = url)) as [->|]; tauto.
Qed.

(** Every nested call has marked one page more of [X]. *)
Lemma Serial_total X fuel url w :
  closed X → url ∈ X → size (X ∖ w.1) < fuel →
  ∃ w', Serial fuel url w = Done w' ∧ crawled [url] w w'.
Proof.
  intros Hc. revert url w. induction fuel as [|fuel IH]; intros url w Hu Hf; [lia|].
  destruct w as [fetched trace]. cbn [Serial]. case_on (_ ∈ _) as Hin.
  { exists (fetched, trace). split; [done|]. split; cbn; [done|set_solver|auto|done|].
    exists []. rewrite app_nil_r. split; [done|]. split; [constructor|]. set_solver. }
  set (w := ({[url]} ∪ fetched, trace ++ [url])).
  assert (size (X ∖ w.1) < fuel) as Hw.
  { cbn in *. enough (size (X ∖ ({[url]} ∪ fetched)) < size (X ∖ fetched)) by lia.
    apply subset_size. set_solver. }
  assert (∀ urls w1, w.1 ⊆ w1.1 → (∀ u, u ∈ urls → u ∈ X) →
    ∃ w', serial_range (Serial fuel) urls w1 = Done w' ∧ crawled urls w1 w') as Hrange.
  { clear -IH Hw. intros urls. induction urls as [|u urls IHu]; intros w1 Hs HX; cbn [serial_range].
    { exists w1. split; [done|apply crawled_nil]. }
    destruct (IH u w1) as (w2 & -> & H2); [set_solver| |].
    { enough (size (X ∖ w1.1) ≤ size (X ∖ w.1)) by lia. apply subseteq_size. set_solver. }
    go_simpl. destruct (IHu w2) as (w3 & -> & H3); [destruct H2; set_solver|set_solver|].
    exists w3. split; [done|]. by eapply crawled_cons. }
  destruct (Fetch url) as [urls|] eqn:Ef.
  - destruct (Hrange urls w) as (w' & -> & H'); [done| |].
    { intros u Hu'. apply (Hc url); [done|]. unfold links. by rewrite Ef. }
    exists w'. split; [done|]. apply crawled_page; [done|]. unfold links. by rewrite Ef.
  - exists w. split; [done|]. apply crawled_page; [done|]. unfold links. rewrite Ef. apply crawled_nil.
Qed.

(** C15: the serial crawler terminates on every finite web, nested at most as
    deep as there are pages, and fetches exactly the pages reachable from
    where it starts, each once. *)
Theorem Serial_crawls X url fuel :
  closed X → url ∈ X → size X < fuel →
  ∃ fetched trace, Serial fuel url (∅, []) = Done (fetched, trace) ∧ NoDup trace ∧
    (∀ u, u ∈ trace ↔ reachable url u) ∧ (∀ u, u ∈ fetched ↔ reachable url u).
Proof.
  intros Hc Hu Hf. destruct (Serial_total X fuel url (∅, [])) as ([fetched trace] & Hs & [_ S R L T]);
    [done|done|cbn; rewrite difference_empty_L; lia|]. cbn in *.
  destruct T as (new & -> & Hnd & Hnew).
  assert (∀ u, u ∈ fetched ↔ reachable url u) as Hr.
  { intros u. split.
    - intros [?|(x & ->%list_elem_of_singleton & Hx)]%R; [set_solver|done].
    - apply (reachable_least (fun u => u ∈ fetched)); [apply S; left|]. intros a b Ha Hb. eapply L; [done|set_solver|done]. }
  exists fetched, new. split; [done|]. split; [done|]. split; [|done].
  intros u. rewrite Hnew, <- Hr. set_solver.
Qed.

(** ** [ConcurrentChannel]

    The coordinator, [master], and the goroutines that fetch and then wait
    until the coordinator receives what they found.  The channel is
    unbuffered, so a message changes hands in one step. *)

(** A goroutine of [worker]; the one that sends the first page starts in
    [WSend]. *)
Inductive worker_pc :=
| WFetch (url : string)
| WSend (urls : list string).

(** [master]: inside the inner loop, with the links still to look at, or
    receiving, or returned. *)
Inductive master_pc :=
| MRange (urls : list string)
| MRecv
| MReturned.

Record chan_state := mkChan {
  n : Z;
  chan_fetched : gset string;
  master : master_pc;
  workers : list worker_pc;
  chan_trace : list string;
}.

Inductive chan_act :=
| Master
| Worker (i : nat)
| Receive (i : nat).

Definition chan_step (st : chan_state) (a : chan_act) : go chan_state :=
  match a with
  | Master =>
      match master st with
      | MRange [] =>
          let n := (n st - 1)%Z in
          Done (mkChan n (chan_fetched st) (if bool_decide (n = 0%Z) then MReturned else MRecv)
                  (workers st) (chan_trace st))
      | MRange (u :: urls) =>
          if bool_decide (u ∈ chan_fetched st) then
            Done (mkChan (n st) (chan_fetched st) (MRange urls) (workers st) (chan_trace st))
          else
            Done (mkChan (n st + 1) ({[u]} ∪ chan_fetched st) (MRange urls)
                    (workers st ++ [WFetch u]) (chan_trace st))
      | _ => Stuck
      end
  | Worker i =>
      match workers st !! i with
      | Some (WFetch url) =>
          let urls := match Fetch url with Some urls => urls | None => [] end in
          Done (mkChan (n st) (chan_fetched st) (master st) (<[i := WSend urls]> (workers st))
                  (chan_trace st ++ [url]))
      | _ => Stuck
      end
  | Receive i =>
      match master st, workers st !! i with
      | MRecv, Some (WSend urls) =>
          Done (mkChan (n st) (chan_fetched st) (MRange urls) (delete i (workers st)) (chan_trace st))
      | _, _ => Stuck
      end
  end.

Fixpoint chan_run (st : chan_state) (acts : list chan_act) : go chan_state :=
  match acts with
  | [] => Done st
  | a :: acts => st ← chan_step st a; chan_run st acts
  end.

Definition ConcurrentChannel (url : string) : chan_state :=
  mkChan 1 ∅ MRecv [WSend [url]] [].

(** *** What is on its way *)

(** The links that a goroutine will give to the coordinator. *)
Definition worker_urls (w : worker_pc) : list string :=
  match w with WFetch _ => [] | WSend urls => urls end.

Definition worker_page (w : worker_pc) : list string :=
  match w with WFetch url => [url] | WSend _ => [] end.

Definition master_urls (m : master_pc) : list string :=
  match m with MRange urls => urls | _ => [] end.

Definition pending (st : chan_state) : list string :=
  master_urls (master st) ++ (workers st ≫= worker_urls).

Definition fetching (st : chan_state) : list string := workers st ≫= worker_page.

Record chan_inv (url : string) (st : chan_state) : Prop := {
  ci_count : n st = (zlen (workers st) + match master st with MRange _ => 1 | _ => 0 end)%Z;
  ci_returned : master st = MReturned → workers st = [];
  ci_receiving : master st = MRecv → n st ≠ 0%Z;
  ci_pages : elements (chan_fetched st) ≡ₚ chan_trace st ++ fetching st;
  ci_start : url ∈ chan_fetched st ∨ url ∈ pending st;
  ci_links : ∀ u v, u ∈ chan_trace st → v ∈ links u → v ∈ chan_fetched st ∨ v ∈ pending st;
  ci_sound : ∀ u, u ∈ chan_fetched st ∨ u ∈ pending st → reachable url u;
}.

Lemma chan_step_inv url st a st' : chan_inv url st → chan_step st a = Done st' → chan_inv url st'.
Proof.
  intros [Hn Hret Hrcv Hp H0 Hl Hs] H. destruct a as [|i|i]; cbn [chan_step] in H.
  - destruct (master st) as [ [|u urls]| |] eqn:Em; go_cases H; subst st'; unfold pending, fetching in *;
      rewrite Em in *; cbn [master_urls app] in *.
    + case_on (_ = _) as Hz; split; cbn; try done; try lia.
      intros _. apply nil_length_inv. len.
    + assert (∀ v, v ∈ chan_fetched st ∨ v ∈ u :: urls ++ (workers st ≫= worker_urls) ↔
        v ∈ chan_fetched st ∨ v ∈ urls ++ (workers st ≫= worker_urls)) as Hiff.
      { intros v. rewrite elem_of_cons. naive_solver. }
      split; cbn; [done|done|done|done|by apply Hiff|intros; apply Hiff; eauto|intros v ?%Hiff; auto].
    + assert (∀ v, v ∈ {[u]} ∪ chan_fetched st ∨ v ∈ urls ++ ((workers st ++ [WFetch u]) ≫= worker_urls) ↔
        v ∈ chan_fetched st ∨ v ∈ u :: urls ++ (workers st ≫= worker_urls)) as Hiff.
      { intros v. rewrite bind_app. cbn. rewrite app_nil_r, elem_of_cons, elem_of_union, elem_of_singleton.
        tauto. }
      split; unfold pending, fetching; cbn; [len|done|done| |by apply Hiff|intros; apply Hiff; eauto|intros v ?%Hiff; auto].
      rewrite elements_union_singleton, Hp by done. rewrite bind_app. cbn.
      by rewrite app_assoc, <- Permutation_cons_append.
  - destruct (workers st !! i) as [ [page|urls]|] eqn:Ei; try done. go_cases H. subst st'.
    change (match Fetch page with Some urls => urls | None => [] end) with (links page).
    assert (∀ v, v ∈ pending st ∨ v ∈ links page ↔ v ∈ master_urls (master st) ++
      (<[i:=WSend (links page)]> (workers st) ≫= worker_urls)) as Hiff.
    { intros v. unfold pending. rewrite (bind_insert _ _ _ _ _ Ei), (bind_delete _ _ _ _ Ei). cbn.
      rewrite !elem_of_app. tauto. }
    split; unfold fetching; cbn; [len| |done| | | |].
    + intros Hr. apply Hret in Hr. by rewrite Hr in *.
    + rewrite Hp. unfold fetching. rewrite (bind_insert _ _ _ _ _ Ei), (bind_delete _ _ _ _ Ei). cbn.
      by rewrite <- app_assoc.
    + unfold pending at 1. cbn. rewrite <- Hiff. tauto.
    + intros u v [Hu| ->%list_elem_of_singleton]%elem_of_app Hv; unfold pending; cbn; rewrite <- Hiff; [|tauto].
      specialize (Hl u v Hu Hv). tauto.
    + intros u. unfold pending; cbn. rewrite <- Hiff. intros [?|[?|Hu]]; [auto..|].
      eapply reachable_step; [|exact Hu]. apply Hs. left. apply elem_of_elements. rewrite Hp.
      apply elem_of_app. right. unfold fetching. rewrite (bind_delete _ _ _ _ Ei). left.
  - destruct (master st) eqn:Em; try done. destruct (workers st !! i) as [ [page|urls]|] eqn:Ei; try done.
    go_cases H. subst st'.
    assert (∀ v, v ∈ pending st ↔ v ∈ urls ++ (delete i (workers st) ≫= worker_urls)) as Hiff.
    { intros v. unfold pending. rewrite Em, (bind_delete _ _ _ _ Ei). done. }
    split; unfold pending, fetching; cbn; [|done|done| | |intros u v Hu Hv|intros u]; rewrite <- ?Hiff; eauto.
    + apply lookup_lt_Some in Ei as Hlt. unfold zlen in *. rewrite length_delete by done. lia.
    + rewrite Hp. unfold fetching. by rewrite (bind_delete _ _ _ _ Ei).
Qed.

Lemma chan_init_inv url : chan_inv url (ConcurrentChannel url).
Proof.
  split; unfold pending, fetching; cbn; [done|done|done|by rewrite elements_empty|right; left|set_solver|].
  intros u [?|Hu]; [set_solver|]. apply list_elem_of_singleton in Hu as ->. constructor.
Qed.

(** *** Every step does a part of a fixed amount of work *)

Definition page_work (u : string) : nat := 3 + length (links u).

Definition worker_work (w : worker_pc) : nat :=
  match w with WFetch u => page_work u | WSend urls => 2 + length urls end.

Definition master_work (m : master_pc) : nat :=
  match m with MRange urls => 1 + length urls | _ => 0 end.

Definition work_left (X : gset string) (st : chan_state) : nat :=
  sum_list_with page_work (elements (X ∖ chan_fetched st)) +
  sum_list_with worker_work (workers st) + master_work (master st).

Lemma chan_step_work X url st a st' :
  closed X → url ∈ X → chan_inv url st → chan_step st a = Done st' →
  work_left X st = S (work_left X st').
Proof.
  intros HX Hu Hi H. unfold work_left. destruct a as [|i|i]; cbn [chan_step] in H.
  - destruct (master st) as [ [|u urls]| |] eqn:Em; go_cases H; subst st'; cbn.
    + case_on (_ = _) as Hz; cbn; lia.
    + lia.
    + assert (u ∈ X) as HuX.
      { eapply reachable_closed; [done|exact Hu|]. apply (ci_sound _ _ Hi). right.
        unfold pending. rewrite Em. cbn. left. }
      rewrite (sum_list_with_perm page_work (elements (X ∖ chan_fetched st))
        (u :: elements (X ∖ ({[u]} ∪ chan_fetched st)))).
      * rewrite sum_list_with_app. cbn. lia.
      * rewrite <- elements_union_singleton by set_solver.
        f_equiv. intros v. rewrite elem_of_union, !elem_of_difference, elem_of_union, elem_of_singleton.
        destruct (decide (v = u)) as [->|]; tauto.
  - destruct (workers st !! i) as [ [page|urls]|] eqn:Ei; try done. go_cases H. subst st'. cbn.
    change (match Fetch page with Some urls => urls | None => [] end) with (links page).
    pose proof (sum_list_with_insert worker_work _ _ _ (WSend (links page)) Ei) as E. cbn in E. unfold page_work in E. lia.
  - destruct (master st) eqn:Em; try done. destruct (workers st !! i) as [ [page|urls]|] eqn:Ei; try done.
    go_cases H. subst st'. cbn. rewrite (sum_list_with_delete _ _ _ _ Ei). cbn. lia.
Qed.

Lemma chan_run_inv X url st acts st' :
  closed X → url ∈ X → chan_inv url st → chan_run st acts = Done st' →
  chan_inv url st' ∧ work_left X st = length acts + work_left X st'.
Proof.
  intros HX Hu. revert st. induction acts as [|a acts IH]; intros st Hi H; cbn [chan_run] in H.
  { injection H as <-. done. }
  go_cases H. destruct (IH a0) as [Hi' E']; [by eapply chan_step_inv|done|]. split; [done|].
  rewrite (chan_step_work X url st a a0 HX Hu Hi E), E'. done.
Qed.

Lemma chan_progress url st :
  chan_inv url st → master st ≠ MReturned → ∃ a st', chan_step st a = Done st'.
Proof.
  intros Hi Hm. destruct (master st) as [ [|u urls]| |] eqn:Em; [..|done].
  - exists Master. cbn. rewrite Em. eauto.
  - exists Master. cbn. rewrite Em. case_bool_decide; eauto.
  - destruct (workers st) as [| [page|urls] ws] eqn:Ew.
    + pose proof (ci_count _ _ Hi) as Hn. rewrite Em, Ew in Hn. by apply (ci_receiving _ _ Hi) in Em.
    + exists (Worker 0). cbn. rewrite Ew. cbn. eauto.
    + exists (Receive 0). cbn. rewrite Em, Ew. cbn. eauto.
Qed.

Definition total_work (X : gset string) : nat := 3 + sum_list_with page_work (elements X).


End spec.
