(* ===== verification/CrawlerMutex.v ===== *)
(** * The crawler with shared state ([notes/02_crawler.go], [ConcurrentMutex])

    One goroutine per link, all of them reading and writing one map.  The
    calls of [Lock] and [Unlock] are commented out in the source, so the
    accesses interleave: a map access is checked by the runtime of Go, which
    stops the program when it meets a write in progress ([Panic]).  A write
    therefore takes two steps, and is in progress in between.

    A goroutine that has called [done.Done()] is kept, as [GDone]. *)

From S2P Require Import Prelude Crawler.

Section mutex.
Context {web : Fetcher}.

(** Where a call of [ConcurrentMutex] stands; [already] is its local variable. *)
Inductive gpc :=
| GRead
| GWrite (already : bool)
| GWriting (already : bool)
| GFetch
| GSpawn (urls : list string)
| GWait
| GReturn
| GDone.

#[export] Instance gpc_eq_dec : EqDecision gpc.
Proof. solve_decision. Defined.

Record gor := mkGor {
  g_url : string;
  g_parent : option nat;
  g_pc : gpc;
  done : Z;
}.

Record fetchState := mkFetch { fetched : gset string; writing : bool }.

Record mutex_state := mkMutex { f : fetchState; gors : list gor; mutex_trace : list string }.

Definition makeState : fetchState := mkFetch ∅ false.

(** The first call, in the goroutine of [main]. *)
Definition ConcurrentMutex (url : string) : mutex_state :=
  mkMutex makeState [mkGor url None GRead 0] [].

Definition set_pc (pc : gpc) (g : gor) : gor := mkGor (g_url g) (g_parent g) pc (done g).
Definition add_done (d : Z) (g : gor) : gor := mkGor (g_url g) (g_parent g) (g_pc g) (done g + d).

(** Goroutine [i] goes on at [pc]. *)
Definition goes (i : nat) (pc : gpc) (gs : list gor) : list gor := alter (set_pc pc) i gs.

Definition mutex_step (st : mutex_state) (i : nat) : go mutex_state :=
  match gors st !! i with
  | None => Stuck
  | Some g =>
      let url := g_url g in
      match g_pc g with
      | GRead =>
          if writing (f st) then Panic
          else
            let already := bool_decide (url ∈ fetched (f st)) in
            Done (mkMutex (f st) (goes i (GWrite already) (gors st)) (mutex_trace st))
      | GWrite already =>
          if writing (f st) then Panic
          else Done (mkMutex (mkFetch (fetched (f st)) true) (goes i (GWriting already) (gors st))
                       (mutex_trace st))
      | GWriting already =>
          Done (mkMutex (mkFetch ({[url]} ∪ fetched (f st)) false)
                  (goes i (if already then GReturn else GFetch) (gors st)) (mutex_trace st))
      | GFetch =>
          match Fetch url with
          | None => Done (mkMutex (f st) (goes i GReturn (gors st)) (mutex_trace st ++ [url]))
          | Some urls => Done (mkMutex (f st) (goes i (GSpawn urls) (gors st)) (mutex_trace st ++ [url]))
          end
      | GSpawn (u :: urls) =>
          Done (mkMutex (f st)
                  (alter (add_done 1) i (goes i (GSpawn urls) (gors st)) ++ [mkGor u (Some i) GRead 0])
                  (mutex_trace st))
      | GSpawn [] => Done (mkMutex (f st) (goes i GWait (gors st)) (mutex_trace st))
      | GWait =>
          if bool_decide (done g = 0%Z)
          then Done (mkMutex (f st) (goes i GReturn (gors st)) (mutex_trace st))
          else Stuck
      | GReturn =>
          let gs := goes i GDone (gors st) in
          Done (mkMutex (f st)
                  (match g_parent g with Some p => alter (add_done (-1)) p gs | None => gs end)
                  (mutex_trace st))
      | GDone => Stuck
      end
  end.

Fixpoint mutex_run (st : mutex_state) (acts : list nat) : go mutex_state :=
  match acts with
  | [] => Done st
  | i :: acts => st ← mutex_step st i; mutex_run st acts
  end.

(** ** The tree of goroutines *)

Definition finished (g : gor) : Prop := g_pc g = GDone.

Definition open_child (i : nat) (g : gor) : nat :=
  if bool_decide (g_parent g = Some i ∧ ¬ finished g) then 1 else 0.

Definition forks (pc : gpc) : Prop := match pc with GSpawn _ | GWait => True | _ => False end.

Record tree_ok (gs : list gor) : Prop := {
  t_parent : ∀ i g, gs !! i = Some g →
    match g_parent g with Some p => p < i | None => i = 0 end;
  t_count : ∀ i g, gs !! i = Some g → done g = Z.of_nat (sum_list_with (open_child i) gs);
  t_forks : ∀ i g, gs !! i = Some g → ¬ forks (g_pc g) → done g = 0%Z;
}.

Lemma open_child_in gs i j c :
  gs !! j = Some c → g_parent c = Some i → ¬ finished c → 0 < sum_list_with (open_child i) gs.
Proof.
  intros Hj Hp Hn. rewrite (sum_list_with_delete _ _ _ _ Hj). unfold open_child at 1.
  rewrite bool_decide_eq_true_2 by done. lia.
Qed.

Lemma no_child gs i :
  (∀ j c, gs !! j = Some c → g_parent c ≠ Some i) → sum_list_with (open_child i) gs = 0.
Proof.
  intros H. apply sum_list_with_zero. intros j c Hj. unfold open_child.
  rewrite bool_decide_eq_false_2; [done|]. intros [Hp _]. by apply (H j c).
Qed.

(** When the first call has returned, so have all the others. *)
Lemma tree_finished gs g0 : tree_ok gs → gs !! 0 = Some g0 → finished g0 → ∀ i g, gs !! i = Some g → finished g.
Proof.
  intros [Hp Hc Hf] H0 Hd0 i. induction i as [i IH] using lt_wf_ind. intros g Hi.
  pose proof (Hp i g Hi) as Hpar. destruct (g_parent g) as [p|] eqn:Ep; [|by subst i; rewrite H0 in Hi; injection Hi as <-].
  destruct (decide (g_pc g = GDone)) as [|Hn]; [done|]. exfalso.
  destruct (lookup_lt_is_Some_2 gs p) as [gp Hgp]; [apply lookup_lt_Some in Hi; lia|].
  pose proof (IH p Hpar gp Hgp) as Hfin.
  pose proof (open_child_in gs p i g Hi Ep Hn).
  specialize (Hc p gp Hgp). rewrite (Hf p gp Hgp) in Hc; [lia|]. rewrite Hfin. cbn. tauto.
Qed.

(** Replacing a goroutine by one with the same parent and an adjusted counter. *)
Lemma tree_insert gs i g g' :
  tree_ok gs → gs !! i = Some g → g_parent g' = g_parent g → done g' = done g →
  g_pc g ≠ GDone → g_pc g' ≠ GDone → (forks (g_pc g') ∨ done g = 0%Z) →
  tree_ok (<[i := g']> gs).
Proof.
  intros [Hp Hc Hf] Hi Epar Ed Hn Hn' Hforks.
  assert (∀ j, sum_list_with (open_child j) (<[i := g']> gs) = sum_list_with (open_child j) gs) as Hsum.
  { intros j. pose proof (sum_list_with_insert (open_child j) gs i g g' Hi) as H.
    enough (open_child j g = open_child j g') by lia. unfold open_child, finished.
    rewrite Epar. repeat case_bool_decide; tauto. }
  split; intros j x Hj; apply list_lookup_insert_Some in Hj as [(<- & <- & _)|[Hne Hj]]; rewrite ?Hsum.
  - rewrite Epar. exact (Hp _ _ Hi).
  - exact (Hp _ _ Hj).
  - rewrite Ed. exact (Hc _ _ Hi).
  - exact (Hc _ _ Hj).
  - rewrite Ed. intros ?. by destruct Hforks.
  - exact (Hf _ _ Hj).
Qed.

Lemma tree_goes gs i g pc :
  tree_ok gs → gs !! i = Some g → g_pc g ≠ GDone → pc ≠ GDone → (forks pc ∨ done g = 0%Z) →
  tree_ok (goes i pc gs).
Proof.
  intros Ht Hi Hn Hpc Hforks. unfold goes. rewrite (list_alter_lookup _ _ _ _ Hi).
  by apply (tree_insert gs i g).
Qed.

(** [done.Add(1)] and [go]. *)
Lemma tree_fork gs i g u urls :
  tree_ok gs → gs !! i = Some g → forks (g_pc g) →
  tree_ok (<[i := add_done 1 (set_pc (GSpawn urls) g)]> gs ++ [mkGor u (Some i) GRead 0]).
Proof.
  intros [Hp Hc Hf] Hi Hfk. set (g' := add_done 1 (set_pc (GSpawn urls) g)).
  set (c := mkGor u (Some i) GRead 0).
  assert (∀ j, sum_list_with (open_child j) (<[i := g']> gs ++ [c]) =
    sum_list_with (open_child j) gs + (if bool_decide (i = j) then 1 else 0)) as Hsum.
  { intros j. rewrite sum_list_with_app. cbn.
    pose proof (sum_list_with_insert (open_child j) gs i g g' Hi) as H.
    assert (open_child j g = open_child j g') as E.
    { unfold open_child, finished. cbn. destruct (g_pc g); try done; repeat case_bool_decide; naive_solver. }
    assert (open_child j c = if bool_decide (i = j) then 1 else 0) as ->.
    { unfold open_child, finished. cbn. repeat case_bool_decide; naive_solver. }
    lia. }
  assert (length (<[i := g']> gs) = length gs) as Hlen by apply length_insert.
  split; intros j x Hj; apply lookup_app_Some in Hj as [Hj|[Hle Hj]]; try rewrite Hsum.
  1,3,5: apply list_lookup_insert_Some in Hj as [(<- & <- & _)|[Hne Hj]].
  - exact (Hp _ _ Hi).
  - exact (Hp _ _ Hj).
  - rewrite bool_decide_eq_true_2 by done. cbn. rewrite (Hc _ _ Hi). lia.
  - rewrite bool_decide_eq_false_2 by done. rewrite (Hc _ _ Hj). lia.
  - cbn. tauto.
  - exact (Hf _ _ Hj).
  - apply list_lookup_singleton_Some in Hj as [Hj <-]. cbn. rewrite Hlen in *.
    apply lookup_lt_Some in Hi. lia.
  - apply list_lookup_singleton_Some in Hj as [Hj <-]. cbn. rewrite Hlen in *.
    assert (j = length gs) as -> by lia. pose proof (lookup_lt_Some _ _ _ Hi).
    rewrite bool_decide_eq_false_2 by lia. rewrite Nat.add_0_r.
    enough (sum_list_with (open_child (length gs)) gs = 0) by lia.
    apply no_child. intros k x Hk Hx. specialize (Hp k x Hk). rewrite Hx in Hp.
    apply lookup_lt_Some in Hk. lia.
  - by apply list_lookup_singleton_Some in Hj as [Hj <-].
Qed.

(** [done.Done()] of the goroutine that started this one. *)
Lemma tree_return gs i g :
  tree_ok gs → gs !! i = Some g → g_pc g = GReturn →
  tree_ok (match g_parent g with
           | Some p => alter (add_done (-1)) p (goes i GDone gs)
           | None => goes i GDone gs
           end).
Proof.
  intros [Hp Hc Hf] Hi Hpc. unfold goes. rewrite (list_alter_lookup _ _ _ _ Hi).
  set (g' := set_pc GDone g).
  assert (∀ j, sum_list_with (open_child j) (<[i := g']> gs) +
    (if bool_decide (g_parent g = Some j) then 1 else 0) = sum_list_with (open_child j) gs) as Hsum.
  { intros j. pose proof (sum_list_with_insert (open_child j) gs i g g' Hi) as H.
    assert (open_child j g' = 0) as E'.
    { unfold open_child, finished. rewrite bool_decide_eq_false_2; [done|]. cbn. tauto. }
    assert (open_child j g = if bool_decide (g_parent g = Some j) then 1 else 0) as E.
    { unfold open_child, finished. rewrite Hpc. repeat case_bool_decide; naive_solver. }
    lia. }
  assert (done g' = 0%Z) as Hd by (cbn; apply (Hf i g Hi); rewrite Hpc; cbn; tauto).
  assert (∀ j x, <[i := g']> gs !! j = Some x → ∃ y, gs !! j = Some y ∧ g_parent x = g_parent y ∧
    done x = done y ∧ (forks (g_pc y) → forks (g_pc x))) as Hold.
  { intros j x Hj. apply list_lookup_insert_Some in Hj as [(<- & <- & _)|[Hne Hj]].
    - exists g. do 3 (split; [done|]). rewrite Hpc. cbn. tauto.
    - by exists x. }
  destruct (g_parent g) as [p|] eqn:Epar.
  2: { split; intros j x Hj; apply Hold in Hj as (y & Hj & Ey & Ed & Hfk).
       - rewrite Ey. exact (Hp _ _ Hj).
       - rewrite Ed, (Hc _ _ Hj), <- Hsum. case_bool_decide; [done|]. lia.
       - intros Hn. rewrite Ed. apply (Hf _ _ Hj). tauto. }
  pose proof (Hp _ _ Hi) as Hlt. rewrite Epar in Hlt.
  destruct (lookup_lt_is_Some_2 gs p) as [gp Hgp]; [apply lookup_lt_Some in Hi; lia|].
  assert (<[i := g']> gs !! p = Some gp) as Hgp' by (rewrite list_lookup_insert_ne by lia; done).
  rewrite (list_alter_lookup _ _ _ _ Hgp').
  assert (∀ j, sum_list_with (open_child j) (<[p := add_done (-1) gp]> (<[i := g']> gs)) =
    sum_list_with (open_child j) (<[i := g']> gs)) as Hsum'.
  { intros j. pose proof (sum_list_with_insert (open_child j) _ _ _ (add_done (-1) gp) Hgp') as H.
    assert (open_child j (add_done (-1) gp) = open_child j gp) by done. lia. }
  split; intros j x Hj; apply list_lookup_insert_Some in Hj as [(<- & <- & _)|[Hne Hj]].
  1,3,5: cbn.
  4,5,6: apply Hold in Hj as (y & Hj & Ey & Ed & Hfk).
  - exact (Hp _ _ Hgp).
  - rewrite Hsum', (Hc _ _ Hgp), <- Hsum, bool_decide_eq_true_2 by done. lia.
  - intros Hn. pose proof (Hc _ _ Hgp) as Hcp. rewrite (Hf _ _ Hgp Hn) in Hcp.
    pose proof (open_child_in gs p i g Hi Epar) as Hpos. unfold finished in Hpos.
    rewrite Hpc in Hpos. specialize (Hpos ltac:(done)). lia.
  - rewrite Ey. exact (Hp _ _ Hj).
  - rewrite Ed, Hsum', (Hc _ _ Hj), <- Hsum. rewrite bool_decide_eq_false_2 by congruence. lia.
  - intros Hn. rewrite Ed. apply (Hf _ _ Hj). tauto.
Qed.

(** ** What the crawl has covered *)

Definition will_write (pc : gpc) : Prop :=
  match pc with GRead | GWrite _ | GWriting _ => True | _ => False end.

(** A page is marked, or a goroutine is about to mark it. *)
Definition covered (F : gset string) (gs : list gor) (v : string) : Prop :=
  v ∈ F ∨ ∃ j c, gs !! j = Some c ∧ g_url c = v ∧ will_write (g_pc c).

(** Some goroutine takes care of the links of a marked page, or has done so. *)
Definition served (F : gset string) (tr : list string) (gs : list gor) (u : string) : Prop :=
  (∃ j c, gs !! j = Some c ∧ g_url c = u ∧ g_pc c = GFetch) ∨
  (u ∈ tr ∧ ∃ rest, (rest = [] ∨ ∃ j c, gs !! j = Some c ∧ g_url c = u ∧ g_pc c = GSpawn rest) ∧
     ∀ v, v ∈ links u → v ∈ rest ∨ covered F gs v).

(** What holds of a goroutine at [pc] whose page is [u]. *)
Definition pc_ok (F : gset string) (u : string) (pc : gpc) : Prop :=
  match pc with
  | GRead | GWrite false | GWriting false => True
  | GSpawn urls => u ∈ F ∧ urls ⊆ links u
  | _ => u ∈ F
  end.

Record crawl_inv (url : string) (F : gset string) (tr : list string) (gs : list gor) : Prop := {
  cr_start : ∃ g, gs !! 0 = Some g ∧ g_url g = url;
  cr_pc : ∀ i g, gs !! i = Some g → reachable url (g_url g) ∧ pc_ok F (g_url g) (g_pc g);
  cr_served : ∀ u, u ∈ F → served F tr gs u;
  cr_trace : ∀ u, u ∈ tr → u ∈ F;
  cr_sound : ∀ u, u ∈ F → reachable url u;
}.

Lemma pc_ok_mono F F' u pc : F ⊆ F' → pc_ok F u pc → pc_ok F' u pc.
Proof. intros Hs. destruct pc as [|[]|[]| | | | |]; cbn; set_solver. Qed.

(** Goroutine [i] becomes [g']. *)
Section change.
Context (F F' : gset string) (tr tr' : list string) (gs : list gor) (i : nat) (g g' : gor).
Hypothesis (Hi : gs !! i = Some g) (HF : F ⊆ F') (Htr : tr ⊆ tr') (Hurl : g_url g' = g_url g).
Hypothesis (Hok : pc_ok F' (g_url g) (g_pc g')).

Lemma insert_other j c : gs !! j = Some c → j ≠ i → <[i := g']> gs !! j = Some c.
Proof. intros. by rewrite list_lookup_insert_ne. Qed.

Lemma insert_this : <[i := g']> gs !! i = Some g'.
Proof. apply list_lookup_insert_eq. eauto with go_lists. Qed.

Lemma covered_insert v : covered F gs v → covered F' (<[i := g']> gs) v.
Proof.
  intros [Hv|(j & c & Hj & Hc & Hw)]; [left; by apply HF|].
  destruct (decide (j = i)) as [->|Hne]; [|right; exists j, c; by rewrite list_lookup_insert_ne].
  rewrite Hi in Hj. injection Hj as <-. subst v.
  destruct (g_pc g') as [|b|b| | | | |] eqn:E; cbn in Hok.
  1,2,3: right; exists i, g'; rewrite E; split; [apply insert_this|by split].
  all: left; tauto.
Qed.

Lemma served_insert u :
  (g_url g = u → g_pc g = GFetch ∨ (∃ us, g_pc g = GSpawn us) → g_pc g' = g_pc g) →
  served F tr gs u → served F' tr' (<[i := g']> gs) u.
Proof.
  intros Hkeep Hs.
  assert (∀ j c, gs !! j = Some c → g_url c = u → g_pc c = GFetch ∨ (∃ us, g_pc c = GSpawn us) →
    ∃ j' c', <[i := g']> gs !! j' = Some c' ∧ g_url c' = u ∧ g_pc c' = g_pc c) as Hwit.
  { intros j c Hj Hc Hpc. destruct (decide (j = i)) as [->|Hne].
    - rewrite Hi in Hj. injection Hj as <-. exists i, g'. split; [apply insert_this|]. split; [congruence|].
      by apply Hkeep.
    - exists j, c. split; [by apply insert_other|done]. }
  destruct Hs as [(j & c & Hj & Hc & Hpc)|(Ht & rest & Hr & Hl)].
  - destruct (Hwit j c Hj Hc (or_introl Hpc)) as (j' & c' & ? & ? & E). left. exists j', c'.
    by rewrite E.
  - right. split; [by apply Htr|]. exists rest. split.
    + destruct Hr as [?|(j & c & Hj & Hc & Hpc)]; [by left|right].
      destruct (Hwit j c Hj Hc) as (j' & c' & ? & ? & E); [eauto|]. exists j', c'. by rewrite E.
    + intros v [?|?]%Hl; [by left|right]. by apply covered_insert.
Qed.

Lemma crawl_insert url :
  crawl_inv url F tr gs → F' ⊆ {[g_url g]} ∪ F → (∀ u, u ∈ tr' → u ∈ F') →
  (g_url g ∈ F' → (g_url g ∈ F ∧ (g_pc g = GFetch ∨ (∃ us, g_pc g = GSpawn us) → g_pc g' = g_pc g)) ∨
     served F' tr' (<[i := g']> gs) (g_url g)) →
  crawl_inv url F' tr' (<[i := g']> gs).
Proof.
  intros [H0 Hpc Hs Ht Hr] HF' Ht' Hserved. split.
  - destruct H0 as (g0 & H0 & E0). destruct (decide (i = 0)) as [E|Hne].
    + rewrite <- E in H0 |- *. rewrite Hi in H0. injection H0 as <-. exists g'. split; [apply insert_this|congruence].
    + exists g0. split; [by apply insert_other|done].
  - intros j c Hj. apply list_lookup_insert_Some in Hj as [(<- & <- & _)|[Hne Hj]].
    + rewrite Hurl. split; [by apply (Hpc i)|done].
    + destruct (Hpc j c Hj). split; [done|]. by eapply pc_ok_mono.
  - intros u Hu. destruct (decide (u = g_url g)) as [->|Hne].
    + destruct (Hserved Hu) as [[Hin Hk]|?]; [|done]. apply served_insert; [tauto|]. by apply Hs.
    + apply served_insert; [congruence|]. apply Hs. set_solver.
  - done.
  - intros u [->%elem_of_singleton|Hu]%HF'%elem_of_union; [by apply (Hpc i)|by apply Hr].
Qed.

End change.

(** A new goroutine. *)
Lemma crawl_fork url F tr gs c :
  crawl_inv url F tr gs → g_pc c = GRead → reachable url (g_url c) → crawl_inv url F tr (gs ++ [c]).
Proof.
  intros [H0 Hpc Hs Ht Hr] Ec Hc.
  assert (∀ j x, gs !! j = Some x → (gs ++ [c]) !! j = Some x) as Hold by (intros; by apply lookup_app_l_Some).
  assert (∀ v, covered F gs v → covered F (gs ++ [c]) v) as Hcov.
  { intros v [?|(j & x & ? & ?)]; [by left|right]. eauto. }
  split; [| | |done|done].
  - destruct H0 as (g & ? & ?). eauto.
  - intros j x [Hj|[_ Hj]]%lookup_app_Some; [by eapply Hpc|].
    apply list_lookup_singleton_Some in Hj as [_ <-]. split; [done|]. by rewrite Ec.
  - intros u [(j & x & ? & ?)|(? & rest & Hrest & Hl)]%Hs; [left; eauto|right].
    split; [done|]. exists rest. split; [naive_solver|]. intros v [?|?]%Hl; auto.
Qed.

Definition mutex_inv (url : string) (st : mutex_state) : Prop :=
  tree_ok (gors st) ∧ crawl_inv url (fetched (f st)) (mutex_trace st) (gors st).

Lemma lookup_goes gs i g pc : gs !! i = Some g → goes i pc gs = <[i := set_pc pc g]> gs.
Proof. intros Hi. unfold goes. by rewrite (list_alter_lookup _ _ _ _ Hi). Qed.

(** The steps that only move one goroutine. *)
Lemma mutex_inv_goes url st i g pc F' tr' w :
  mutex_inv url st → gors st !! i = Some g → g_pc g ≠ GDone → pc ≠ GDone →
  (forks pc ∨ done g = 0%Z) → fetched (f st) ⊆ F' → mutex_trace st ⊆ tr' →
  pc_ok F' (g_url g) pc → F' ⊆ {[g_url g]} ∪ fetched (f st) → (∀ u, u ∈ tr' → u ∈ F') →
  (g_url g ∈ F' →
     (g_url g ∈ fetched (f st) ∧ (g_pc g = GFetch ∨ (∃ us, g_pc g = GSpawn us) → pc = g_pc g)) ∨
     served F' tr' (<[i := set_pc pc g]> (gors st)) (g_url g)) →
  mutex_inv url (mkMutex (mkFetch F' w) (goes i pc (gors st)) tr').
Proof.
  intros [Ht Hc] Hi Hn Hpc Hfk HF Htr Hok HF' Htr' Hs. split; cbn.
  - by eapply tree_goes.
  - rewrite (lookup_goes _ _ _ _ Hi). by eapply crawl_insert.
Qed.

(** The state with its parts written out. *)
Lemma fetch_eta (s : fetchState) : s = mkFetch (fetched s) (writing s).
Proof. by destruct s. Qed.

Lemma served_links F tr gs i g urls u :
  gs !! i = Some g → g_url g = u → g_pc g = GSpawn urls → u ∈ tr → links u ⊆ urls → served F tr gs u.
Proof.
  intros Hi Hu Hpc Ht Hl. right. split; [done|]. exists urls. split; [right; eauto|]. intros v ?%Hl. by left.
Qed.

(** *** Starting a goroutine for a link *)
Lemma mutex_inv_spawn url st i g u urls :
  mutex_inv url st → gors st !! i = Some g → g_pc g = GSpawn (u :: urls) →
  mutex_inv url (mkMutex (f st)
    (<[i := add_done 1 (set_pc (GSpawn urls) g)]> (gors st) ++ [mkGor u (Some i) GRead 0]) (mutex_trace st)).
Proof.
  intros [Ht Hc] Hi Hpc. split; cbn.
  { apply tree_fork; [done|done|]. by rewrite Hpc. }
  destruct (cr_pc _ _ _ _ Hc i g Hi) as [Hr Hok]. rewrite Hpc in Hok. destruct Hok as [HuF Hsub].
  set (c := mkGor u (Some i) GRead 0). set (g' := add_done 1 (set_pc (GSpawn urls) g)).
  rewrite <- insert_app_l by eauto with go_lists.
  assert ((gors st ++ [c]) !! i = Some g) as Hi' by (by apply lookup_app_l_Some).
  assert (pc_ok (fetched (f st)) (g_url g) (g_pc g')) as Hok' by (cbn; split; [done|set_solver]).
  apply (crawl_insert (fetched (f st)) _ (mutex_trace st) _ (gors st ++ [c]) i g g'); try done.
  - apply crawl_fork; [done|done|]. eapply reachable_step; [exact Hr|]. apply Hsub. left.
  - set_solver.
  - by apply (cr_trace _ _ _ _ Hc).
  - intros _. right.
    assert (∀ v, covered (fetched (f st)) (gors st ++ [c]) v →
      covered (fetched (f st)) (<[i := g']> (gors st ++ [c])) v) as Hcov.
    { intros v. by apply (covered_insert _ _ (gors st ++ [c]) i g g'). }
    assert (covered (fetched (f st)) (<[i := g']> (gors st ++ [c])) u) as Hu.
    { apply Hcov. right. exists (length (gors st)), c. split; [|done].
      apply list_lookup_middle. done. }
    assert (∀ j x, gors st !! j = Some x → (gors st ++ [c]) !! j = Some x) as Hold
      by (intros; by apply lookup_app_l_Some).
    destruct (cr_served _ _ _ _ Hc _ HuF) as [(j & x & Hj & Hx & Hp)|(Htr & rest & Hrest & Hl)].
    + left. exists j, x. split; [|done]. rewrite list_lookup_insert_ne; [by apply Hold|].
      intros <-. congruence.
    + right. split; [done|].
      assert (∀ v, covered (fetched (f st)) (gors st) v →
        covered (fetched (f st)) (<[i := g']> (gors st ++ [c])) v) as Hcov'.
      { intros v [?|(j & x & ? & ?)]; [by left|]. apply Hcov. right. eauto. }
      destruct Hrest as [->|(j & x & Hj & Hx & Hp)].
      { exists []. split; [by left|]. intros v [?|?]%Hl; auto. }
      destruct (decide (j = i)) as [->|Hne].
      * rewrite Hi in Hj. injection Hj as <-. rewrite Hpc in Hp. injection Hp as <-.
        exists urls. split.
        { right. exists i, g'. split; [|done]. apply list_lookup_insert_eq. eauto with go_lists. }
        intros v [ [->|?]%elem_of_cons|?]%Hl; auto.
      * exists rest. split; [right; exists j, x; split; [|done]|intros v [?|?]%Hl; auto].
        rewrite list_lookup_insert_ne by done. by apply Hold.
Qed.

(** *** All the links have been started *)
Lemma served_end F tr gs i g g' :
  gs !! i = Some g → g_pc g = GSpawn [] → g_url g' = g_url g → pc_ok F (g_url g) (g_pc g') →
  served F tr gs (g_url g) → served F tr (<[i := g']> gs) (g_url g).
Proof.
  intros Hi Hpc Hurl Hok Hs.
  assert (∀ v, covered F gs v → covered F (<[i := g']> gs) v) as Hcov
    by (intros v; by apply (covered_insert F F gs i g g')).
  destruct Hs as [(j & c & Hj & Hc & Hp)|(Ht & rest & Hr & Hl)].
  - left. exists j, c. split; [|done]. rewrite list_lookup_insert_ne; [done|]. intros <-. congruence.
  - right. split; [done|]. destruct Hr as [->|(j & c & Hj & Hc & Hp)].
    { exists []. split; [by left|]. intros v [?|?]%Hl; auto. }
    destruct (decide (j = i)) as [->|Hne].
    + rewrite Hi in Hj. injection Hj as <-. rewrite Hpc in Hp. injection Hp as <-.
      exists []. split; [by left|]. intros v [?|?]%Hl; auto.
    + exists rest. split; [|intros v [?|?]%Hl; auto]. right. exists j, c. by rewrite list_lookup_insert_ne.
Qed.

Lemma mutex_inv_return url st i g :
  mutex_inv url st → gors st !! i = Some g → g_pc g = GReturn →
  mutex_inv url (mkMutex (f st)
    (match g_parent g with
     | Some p => alter (add_done (-1)) p (goes i GDone (gors st))
     | None => goes i GDone (gors st)
     end) (mutex_trace st)).
Proof.
  intros [Ht Hc] Hi Hpc. split; cbn; [by apply tree_return|].
  destruct (cr_pc _ _ _ _ Hc i g Hi) as [_ Hok]. rewrite Hpc in Hok.
  assert (crawl_inv url (fetched (f st)) (mutex_trace st) (goes i GDone (gors st))) as Hc1.
  { rewrite (lookup_goes _ _ _ _ Hi). eapply crawl_insert; try done; [set_solver|by apply (cr_trace _ _ _ _ Hc)|].
    intros _. left. split; [done|]. rewrite Hpc. naive_solver. }
  destruct (g_parent g) as [p|]; [|done].
  destruct (goes i GDone (gors st) !! p) as [gp|] eqn:Hp.
  - rewrite (list_alter_lookup _ _ _ _ Hp). destruct (cr_pc _ _ _ _ Hc1 p gp Hp) as [_ Hokp].
    eapply crawl_insert; try done; [set_solver|by apply (cr_trace _ _ _ _ Hc1)|].
    intros Hin. by left.
  - enough (alter (add_done (-1)) p (goes i GDone (gors st)) = goes i GDone (gors st)) as -> by done.
    apply list_eq. intros j. destruct (decide (j = p)) as [->|Hne].
    + by rewrite list_lookup_alter_eq, Hp.
    + by rewrite list_lookup_alter_ne.
Qed.

Lemma mutex_step_inv url st i st' : mutex_inv url st → mutex_step st i = Done st' → mutex_inv url st'.
Proof.
  intros Hinv H. unfold mutex_step in H. destruct (gors st !! i) as [g|] eqn:Hi; [|done].
  pose proof Hinv as [Ht Hc]. destruct (cr_pc _ _ _ _ Hc i g Hi) as [_ Hok].
  pose proof (t_forks _ Ht i g Hi) as Hd. pose proof (cr_trace _ _ _ _ Hc) as Htr.
  rewrite (fetch_eta (f st)) in H.
  destruct (g_pc g) as [|b|b| |[|u urls]| | |] eqn:Hpc; cbn in Hok, Hd; try go_cases H; try subst st'; try done.
  - apply (mutex_inv_goes url st i g); try done; try (by rewrite Hpc); [tauto| |set_solver|].
    + cbn. by case_bool_decide.
    + intros Hin. left. rewrite Hpc. naive_solver.
  - apply (mutex_inv_goes url st i g); try done; try (by rewrite Hpc); [tauto|set_solver|].
    intros Hin. left. rewrite Hpc. naive_solver.
  - apply (mutex_inv_goes url st i g); try done; try (by rewrite Hpc);
      [by destruct b|tauto|set_solver|destruct b; cbn; set_solver|set_solver|].
    intros _. destruct b; [left; rewrite Hpc; naive_solver|right].
    left. exists i, (set_pc GFetch g). split; [|done]. apply list_lookup_insert_eq. eauto with go_lists.
  - rename l into urls, Heqo into Ef.
    apply (mutex_inv_goes url st i g); try done; try (by rewrite Hpc); [by left|set_solver| |set_solver|set_solver|].
    + cbn. split; [done|]. unfold links. by rewrite Ef.
    + intros _. right. apply (served_links _ _ _ i (set_pc (GSpawn urls) g) urls); try done.
      * apply list_lookup_insert_eq. eauto with go_lists.
      * set_solver.
      * unfold links. by rewrite Ef.
  - rename Heqo into Ef.
    apply (mutex_inv_goes url st i g); try done; try (by rewrite Hpc); [tauto|set_solver|set_solver|set_solver|].
    intros _. right. right. split; [set_solver|]. exists []. split; [by left|].
    unfold links. rewrite Ef. intros v ?%elem_of_nil. done.
  - apply (mutex_inv_goes url st i g); try done; try (by rewrite Hpc); [by left|tauto|set_solver|].
    intros Hin. right. apply (served_end _ _ _ _ g); try done. by apply (cr_served _ _ _ _ Hc).
  - unfold goes. rewrite list_alter_alter_eq. rewrite (list_alter_lookup _ _ _ _ Hi), <- fetch_eta.
    by apply mutex_inv_spawn.
  - apply (mutex_inv_goes url st i g); try done; try (by rewrite Hpc); [by right|set_solver|].
    intros Hin. left. rewrite Hpc. naive_solver.
  - rewrite <- fetch_eta. by apply mutex_inv_return.
Qed.

Lemma mutex_init_inv url : mutex_inv url (ConcurrentMutex url).
Proof.
  split; cbn.
  - split; intros [|i] g Hi; cbn in Hi; simplify_eq; done.
  - split; cbn; [by eexists| |set_solver|set_solver|set_solver].
    intros [|i] g Hi; cbn in Hi; simplify_eq. split; [constructor|done].
Qed.

(** ** The crawl always goes on, and ends *)

Lemma last_unfinished (gs : list gor) i g :
  gs !! i = Some g → ¬ finished g →
  ∃ j c, gs !! j = Some c ∧ ¬ finished c ∧ ∀ k x, gs !! k = Some x → j < k → finished x.
Proof.
  revert i g. induction gs as [|c gs IH] using rev_ind; intros i g Hi Hg; [done|].
  destruct (decide (g_pc c = GDone)) as [Hc|Hc].
  - apply lookup_app_Some in Hi as [Hi|[_ Hi]].
    2: { apply list_lookup_singleton_Some in Hi as [_ <-]. done. }
    destruct (IH i g Hi Hg) as (j & x & Hj & Hx & Hlast). exists j, x.
    split; [by apply lookup_app_l_Some|]. split; [done|].
    intros k y [Hk|[_ Hk]]%lookup_app_Some Hlt; [by eapply Hlast|].
    by apply list_lookup_singleton_Some in Hk as [_ <-].
  - exists (length gs), c. split; [by apply list_lookup_middle|]. split; [done|].
    intros k x Hk Hlt. apply lookup_lt_Some in Hk. rewrite length_app in Hk. cbn in Hk. lia.
Qed.

(** A goroutine that waits has a child that has not returned, which is later
    in the list: the last one that has not returned can go on. *)
Lemma mutex_progress url st g0 :
  mutex_inv url st → gors st !! 0 = Some g0 → ¬ finished g0 → ∃ i, mutex_step st i ≠ Stuck.
Proof.
  intros [Ht _] H0 Hn. destruct (last_unfinished _ _ _ H0 Hn) as (i & g & Hi & Hg & Hlast).
  exists i. unfold mutex_step. rewrite Hi. unfold finished in Hg.
  destruct (g_pc g) as [|b|b| |[|u urls]| | |] eqn:Hpc; try done; try by destruct (writing (f st)).
  - by destruct (Fetch (g_url g)).
  - case_on (_ = _) as Hd; [done|]. exfalso. apply Hd. rewrite (t_count _ Ht i g Hi).
    enough (sum_list_with (open_child i) (gors st) = 0) by lia.
    apply sum_list_with_zero. intros j c Hj. unfold open_child. rewrite bool_decide_eq_false_2; [done|].
    intros [Hp Hf]. apply Hf, (Hlast j c Hj). pose proof (t_parent _ Ht j c Hj) as Hlt.
    by rewrite Hp in Hlt.
Qed.

(** The steps that a goroutine and those it will start can make, when [k]
    pages are not marked and no page has more than [B] links. *)
Fixpoint cost (B k : nat) : nat :=
  match k with O => 4 | S k => 7 + B * (1 + cost B k) end.

Lemma cost_mono B k k' : k ≤ k' → cost B k ≤ cost B k'.
Proof.
  assert (∀ k, cost B k ≤ cost B (S k)) as Hs.
  { intros n. induction n as [|n IH]; [cbn; lia|]. cbn [cost] in *. nia. }
  induction 1; [done|]. etrans; [done|apply Hs].
Qed.

Section bounded.
Context (X : gset string) (B : nat).
Hypothesis (HX : closed X) (HB : ∀ u, u ∈ X → length (links u) ≤ B).

Definition weight (F : gset string) (g : gor) : nat :=
  match g_pc g with
  | GRead => cost B (size (X ∖ F))
  | GWrite true => 3
  | GWrite false => 6 + B * (1 + cost B (size (X ∖ ({[g_url g]} ∪ F))))
  | GWriting true => 2
  | GWriting false => 5 + B * (1 + cost B (size (X ∖ ({[g_url g]} ∪ F))))
  | GFetch => 4 + B * (1 + cost B (size (X ∖ F)))
  | GSpawn urls => 3 + length urls * (1 + cost B (size (X ∖ F)))
  | GWait => 2
  | GReturn => 1
  | GDone => 0
  end.

Lemma weight_mono F F' g : F ⊆ F' → weight F' g ≤ weight F g.
Proof.
  intros HF. unfold weight.
  assert (cost B (size (X ∖ F')) ≤ cost B (size (X ∖ F))) as H1
    by (apply cost_mono, subseteq_size; set_solver).
  assert (cost B (size (X ∖ ({[g_url g]} ∪ F'))) ≤ cost B (size (X ∖ ({[g_url g]} ∪ F)))) as H2
    by (apply cost_mono, subseteq_size; set_solver).
  destruct (g_pc g) as [|[]|[]| | | | |]; nia.
Qed.

Definition total (F : gset string) (gs : list gor) : nat := sum_list_with (weight F) gs.

Lemma total_mono F F' gs : F ⊆ F' → total F' gs ≤ total F gs.
Proof.
  intros HF. unfold total. induction gs as [|g gs IH]; [done|]. cbn.
  pose proof (weight_mono F F' g HF). lia.
Qed.

Lemma total_insert F F' gs i g g' :
  gs !! i = Some g → F ⊆ F' → weight F' g' < weight F g → total F' (<[i := g']> gs) < total F gs.
Proof.
  intros Hi HF Hw. unfold total. rewrite (sum_list_with_delete _ _ _ _ Hi).
  rewrite (sum_list_with_delete _ (<[i := g']> gs) i g')
    by (apply list_lookup_insert_eq; eauto with go_lists).
  rewrite list_delete_insert. pose proof (total_mono F F' (delete i gs) HF). unfold total in *. lia.
Qed.

Lemma total_add_done F gs p d : total F (alter (add_done d) p gs) = total F gs.
Proof.
  destruct (gs !! p) as [g|] eqn:Hp.
  - rewrite (list_alter_lookup _ _ _ _ Hp).
    pose proof (sum_list_with_insert (weight F) gs p g (add_done d g) Hp) as H.
    assert (weight F (add_done d g) = weight F g) by done. unfold total. lia.
  - f_equal. apply list_eq. intros j. destruct (decide (j = p)) as [->|Hne].
    + by rewrite list_lookup_alter_eq, Hp.
    + by rewrite list_lookup_alter_ne.
Qed.

Lemma mutex_step_total url st i st' :
  url ∈ X → mutex_inv url st → mutex_step st i = Done st' →
  total (fetched (f st')) (gors st') < total (fetched (f st)) (gors st).
Proof.
  intros Hu [Ht Hc] H. unfold mutex_step in H. destruct (gors st !! i) as [g|] eqn:Hi; [|done].
  destruct (cr_pc _ _ _ _ Hc i g Hi) as [Hr Hok].
  assert (g_url g ∈ X) as HgX by (by eapply reachable_closed).
  destruct (g_pc g) as [|b|b| |[|u urls]| | |] eqn:Hpc; cbn in Hok; go_cases H; try subst st'; try done;
    cbn [fetched f gors]; rewrite ?(lookup_goes _ _ _ _ Hi).
  - apply (total_insert _ _ _ _ g); [done|done|]. unfold weight. rewrite Hpc. cbn.
    case_on (_ ∈ _) as Hin.
    + pose proof (cost_mono B 0 (size (X ∖ fetched (f st))) ltac:(lia)) as H'. cbn in H'. lia.
    + assert (size (X ∖ fetched (f st)) = 1 + size (X ∖ ({[g_url g]} ∪ fetched (f st)))) as ->; [|cbn; lia].
      rewrite <- (size_singleton (C:=gset string) (g_url g)) at 1. rewrite <- size_union by set_solver.
      f_equal. apply set_eq. intros v. destruct (decide (v = g_url g)); set_solver.
  - apply (total_insert _ _ _ _ g); [done|done|]. unfold weight. rewrite Hpc. cbn. destruct b; lia.
  - apply (total_insert _ _ _ _ g); [done|set_solver|]. unfold weight. rewrite Hpc. cbn. destruct b; cbn; lia.
  - apply (total_insert _ _ _ _ g); [done|done|]. unfold weight. rewrite Hpc. cbn.
    pose proof (HB _ HgX) as Hb. unfold links in Hb. rewrite Heqo in Hb. nia.
  - apply (total_insert _ _ _ _ g); [done|done|]. unfold weight. rewrite Hpc. cbn. lia.
  - apply (total_insert _ _ _ _ g); [done|done|]. unfold weight. rewrite Hpc. cbn. lia.
  - unfold total at 1. rewrite sum_list_with_app. fold (total (fetched (f st))
      (alter (add_done 1) i (<[i := set_pc (GSpawn urls) g]> (gors st)))). rewrite total_add_done.
    pose proof (sum_list_with_insert (weight (fetched (f st))) _ _ _ (set_pc (GSpawn urls) g) Hi) as E.
    assert (weight (fetched (f st)) g = 1 + cost B (size (X ∖ fetched (f st))) +
      weight (fetched (f st)) (set_pc (GSpawn urls) g)) as Ew by (unfold weight; rewrite Hpc; cbn; lia).
    assert (sum_list_with (weight (fetched (f st))) [mkGor u (Some i) GRead 0] =
      cost B (size (X ∖ fetched (f st)))) as -> by (unfold weight; cbn; lia).
    unfold total. lia.
  - apply (total_insert _ _ _ _ g); [done|done|]. unfold weight. rewrite Hpc. cbn. lia.
  - assert (total (fetched (f st)) (<[i := set_pc GDone g]> (gors st)) < total (fetched (f st)) (gors st)).
    { apply (total_insert _ _ _ _ g); [done|done|]. unfold weight. rewrite Hpc. cbn. lia. }
    by destruct (g_parent g); rewrite ?total_add_done.
Qed.

Lemma mutex_run_inv url st acts st' :
  url ∈ X → mutex_inv url st → mutex_run st acts = Done st' →
  mutex_inv url st' ∧ length acts + total (fetched (f st')) (gors st') ≤ total (fetched (f st)) (gors st).
Proof.
  intros Hu. revert st. induction acts as [|i acts IH]; intros st Hinv H; cbn [mutex_run] in H.
  { injection H as <-. done. }
  go_cases H. pose proof (mutex_step_total _ _ _ _ Hu Hinv E).
  destruct (IH a) as [? ?]; [by eapply mutex_step_inv|done|]. split; [done|]. cbn. lia.
Qed.


End bounded.
End mutex.
