(* ===== verification/CrawlerExamples.v ===== *)
(** * The crawlers on a canned web ([notes/02_crawler.go], [fakeFetcher])

    The implementation of [Fetcher] that the program uses, what its [main]
    prints, and runs of the crawlers on it. *)

From S2P Require Import Prelude Crawler CrawlerMutex.
Local Open Scope string_scope.

(** ** [fakeFetcher] *)

Record fakeResult := mkResult { body : string; urls : list string }.
Definition fakeFetcher : Type := gmap string fakeResult.

Definition fake_Fetch (fk : fakeFetcher) : Fetcher :=
  fun url => match fk !! url with Some res => Some (urls res) | None => None end.

(** The line that [Fetch] prints. *)
Definition fake_print (fk : fakeFetcher) (url : string) : string :=
  match fk !! url with
  | Some _ => "found:   " +:+ url
  | None => "missing: " +:+ url
  end.

(** The pages that a [fakeFetcher] can lead to from [url]. *)
Definition fake_web (fk : fakeFetcher) (url : string) : gset string :=
  {[url]} ∪ list_to_set (map_to_list fk ≫= fun p => urls p.2).

Lemma fake_closed fk url : closed (web := fake_Fetch fk) (fake_web fk url).
Proof.
  intros u v _ Hv. unfold fake_web. apply elem_of_union. right. apply elem_of_list_to_set.
  unfold links, Fetch, fake_Fetch in Hv. destruct (fk !! u) as [res|] eqn:E; [|by apply elem_of_nil in Hv].
  apply list_elem_of_bind. exists (u, res). split; [done|]. by apply elem_of_map_to_list.
Qed.

(** On a [fakeFetcher], whatever its pages, the serial crawler returns and
    prints one line for every page reachable from the start, and no other. *)
Theorem fakeFetcher_serial (fk : fakeFetcher) url :
  ∃ fetched trace,
    Serial (web := fake_Fetch fk) (S (size (fake_web fk url))) url (∅, []) = Done (fetched, trace) ∧
    NoDup (fake_print fk <$> trace) ∧
    ∀ u, fake_print fk u ∈ fake_print fk <$> trace ↔ reachable (web := fake_Fetch fk) url u.
Proof.
  destruct (Serial_crawls (web := fake_Fetch fk) (fake_web fk url) url (S (size (fake_web fk url))))
    as (F & tr & Hs & Hnd & Htr & _); [apply fake_closed|unfold fake_web; set_solver|lia|].
  assert (Inj (=) (=) (fake_print fk)) as Hinj.
  { intros a b. unfold fake_print. destruct (fk !! a), (fk !! b); cbn; intros E; by simplify_eq. }
  exists F, tr. split; [done|]. split; [by apply NoDup_fmap_2|].
  intros u. rewrite list_elem_of_fmap, <- Htr. split; [|by exists u].
  intros (v & Hv & Hin). apply (inj (fake_print fk)) in Hv. by subst v.
Qed.

(** ** The web of the program *)

Definition fetcher : fakeFetcher := list_to_map [
  ("http://golang.org/", mkResult "The Go Programming Language"
     ["http://golang.org/pkg/"; "http://golang.org/cmd/"]);
  ("http://golang.org/pkg/", mkResult "Packages"
     ["http://golang.org/"; "http://golang.org/cmd/"; "http://golang.org/pkg/fmt/";
      "http://golang.org/pkg/os/"]);
  ("http://golang.org/pkg/fmt/", mkResult "Package fmt"
     ["http://golang.org/"; "http://golang.org/pkg/"]);
  ("http://golang.org/pkg/os/", mkResult "Package os"
     ["http://golang.org/"; "http://golang.org/pkg/"])].

#[local] Instance canned : Fetcher := fake_Fetch fetcher.

Definition start : string := "http://golang.org/".

(** What [main] prints for the serial crawler. *)
Example main_serial :
  (fun w : crawl_state => fake_print fetcher <$> w.2) <$> Serial 10 start (∅, []) = Done [
    "found:   http://golang.org/"; "found:   http://golang.org/pkg/"; "missing: http://golang.org/cmd/";
    "found:   http://golang.org/pkg/fmt/"; "found:   http://golang.org/pkg/os/"].
Proof. vm_compute. reflexivity. Qed.

(** ** Complete runs *)

Section schedules.
Context {St Act : Type} (step : St → Act → go St) (acts : St → list Act).

Definition is_done (m : go St) : bool := match m with Done _ => true | _ => false end.

(** Always take the first step that is possible. *)
Fixpoint greedy (fuel : nat) (st : St) : list Act :=
  match fuel with
  | O => []
  | S fuel =>
      match list_find (fun a => is_done (step st a) = true) (acts st) with
      | Some (_, a) => a :: match step st a with Done st' => greedy fuel st' | _ => [] end
      | None => []
      end
  end.

End schedules.

Definition mutex_acts (st : mutex_state) : list nat := seq 0 (length (gors st)).
Definition chan_acts (st : chan_state) : list chan_act :=
  Master :: (Worker <$> seq 0 (length (workers st))) ++ (Receive <$> seq 0 (length (workers st))).

Definition go_or {A} (d : A) (m : go A) : A := match m with Done a => a | _ => d end.

(** The goroutine of [main] and the first one it starts run until both
    goroutines for [cmd/] exist; these look at the map before either writes. *)
Definition twice : list nat := [0;0;0;0;0;0; 1;1;1;1;1;1; 2;4].

Definition race_state : mutex_state :=
  go_or (ConcurrentMutex start) (mutex_run (ConcurrentMutex start) twice).
Definition race_run : list nat := app twice (greedy mutex_step mutex_acts 100 race_state).

(** Without the lock, the crawler with shared state can fetch a page
    twice, and the runtime can stop it for concurrent accesses to the map. *)
Theorem ConcurrentMutex_races :
  (∃ acts st g0, mutex_run (ConcurrentMutex start) acts = Done st ∧ gors st !! 0%nat = Some g0 ∧
     g_pc g0 = GDone ∧
     filter (fun u => u = "http://golang.org/cmd/") (mutex_trace st) =
       ["http://golang.org/cmd/"; "http://golang.org/cmd/"]) ∧
  (∃ acts, mutex_run (ConcurrentMutex start) acts = Panic).
Proof.
  split.
  - exists race_run. eexists _, _. split; [vm_compute; reflexivity|]. split; [vm_compute; reflexivity|].
    split; vm_compute; reflexivity.
  - exists (app twice [2; 4]%nat). vm_compute. reflexivity.
Qed.

(** ** Instances *)

Lemma start_in_web : start ∈ fake_web fetcher start.
Proof. unfold fake_web. set_solver. Qed.

Lemma Serial_crawls_witness :
  ∃ F tr, Serial 10 start (∅, []) = Done (F, tr) ∧ NoDup tr ∧
    (∀ u, u ∈ tr ↔ reachable start u) ∧ (∀ u, u ∈ F ↔ reachable start u).
Proof.
  apply (Serial_crawls (fake_web fetcher start)); [apply fake_closed|exact start_in_web|].
  vm_compute. lia.
Defined.

Definition chan_schedule : list chan_act := greedy chan_step chan_acts 100 (ConcurrentChannel start).
Definition chan_end : chan_state :=
  go_or (ConcurrentChannel start) (chan_run (ConcurrentChannel start) chan_schedule).


Definition race_end : mutex_state :=
  go_or (ConcurrentMutex start) (mutex_run (ConcurrentMutex start) race_run).

Lemma links_bounded u : (length (links u) <= 4)%nat.
Proof.
  unfold links, Fetch, canned, fake_Fetch. destruct (fetcher !! u) as [res|] eqn:E; [|cbn; lia].
  unfold fetcher in E. apply elem_of_list_to_map_2 in E.
  repeat (apply elem_of_cons in E as [[= _ ->]|E]; [cbn; lia|]). by apply elem_of_nil in E.
Qed.

