(* ===== verification/Threads.v ===== *)
(** * Goroutines, mutexes, condition variables, wait groups and channels

    The language of the programs in [notes/05_go_concurrency_samples]: a
    goroutine is a tree of operations, the continuation of an operation that
    delivers a value being a function.  Each program has at most one mutex, one
    condition variable on it, one wait group and one channel.  Shared variables
    are read and written one at a time, and goroutines interleave between any
    two operations; [time.Sleep] is a step like any other, so that nothing
    relies on how long it takes.

    [lock_rule] is the proof rule for programs that touch shared variables
    only while they hold the mutex: an invariant of the states in which the
    mutex is free, kept by every critical section run on its own, holds
    whenever the mutex is free. *)

From S2P Require Import Prelude.
Local Open Scope Z_scope.

Inductive val := VInt (z : Z) | VStr (s : string).
Definition to_int (v : val) : Z := match v with VInt z => z | VStr _ => 0 end.

Inductive prog :=
| Ret
| Lock (k : prog)
| Unlock (k : prog)
| Load (x : string) (k : val → prog)
| Store (x : string) (v : val) (k : prog)
| Println (v : val) (k : prog)
| Sleep (k : prog)
| Rand (k : Z → prog)
| Wait (k : prog)
| Waiting (k : prog)
| Broadcast (k : prog)
| Send (v : Z) (k : prog)
| Recv (k : Z → prog)
| WgAdd (d : Z) (k : prog)
| WgWait (k : prog)
| Go (p : prog) (k : prog)
| Loop (label : nat) (locals : list Z).

(** [x] as an integer; [x++], which reads and then writes. *)
Definition LoadInt (x : string) (k : Z → prog) : prog := Load x (fun v => k (to_int v)).
Definition incr (x : string) (d : Z) (k : prog) : prog := LoadInt x (fun v => Store x (VInt (v + d)) k).

(** [for i := from; i < from + n; i++ { go body(i) }; k] *)
Fixpoint spawn (body : nat → prog) (from n : nat) (k : prog) : prog :=
  match n with
  | 0%nat => k
  | S n => Go (body from) (spawn body (S from) n k)
  end.

(** [for i := 0; i < n; i++ { body }; k] *)
Fixpoint repeatedly (n : nat) (body : prog → prog) (k : prog) : prog :=
  match n with
  | 0%nat => k
  | S n => body (repeatedly n body k)
  end.

Record state := mkState {
  mem : gmap string val;
  mu : bool;
  chan : list Z;
  cap : nat;
  wg : Z;
  out : list val;
  threads : list prog;
}.

Definition set_thread (t : nat) (p : prog) (st : state) : state :=
  mkState (mem st) (mu st) (chan st) (cap st) (wg st) (out st) (<[t := p]> (threads st)).
Definition set_mu (b : bool) (st : state) : state :=
  mkState (mem st) b (chan st) (cap st) (wg st) (out st) (threads st).
Definition set_mem (m : gmap string val) (st : state) : state :=
  mkState m (mu st) (chan st) (cap st) (wg st) (out st) (threads st).
Definition set_chan (c : list Z) (st : state) : state :=
  mkState (mem st) (mu st) c (cap st) (wg st) (out st) (threads st).
Definition set_wg (w : Z) (st : state) : state :=
  mkState (mem st) (mu st) (chan st) (cap st) w (out st) (threads st).
Definition add_out (v : val) (st : state) : state :=
  mkState (mem st) (mu st) (chan st) (cap st) (wg st) (out st ++ [v]) (threads st).
Definition set_threads (l : list prog) (st : state) : state :=
  mkState (mem st) (mu st) (chan st) (cap st) (wg st) (out st) l.

(** [cond.Wait()] gives up the mutex, sleeps until it is woken up and then
    locks the mutex again: [Wait] is the first half, and the program goes on
    with a [Lock]. *)
Definition wake (p : prog) : prog := match p with Waiting k => k | _ => p end.

Definition is_ret (p : prog) : bool := match p with Ret => true | _ => false end.

Section semantics.
Context (code : nat → list Z → prog).

(** One step of goroutine [t], which is at [p]; [r] is the random number drawn,
    or the sender an unbuffered receive takes its value from. *)
Definition thread_step (st : state) (t : nat) (r : Z) (p : prog) : go state :=
  match p with
  | Ret | Waiting _ => Stuck
  | Lock k => if mu st then Stuck else Done (set_thread t k (set_mu true st))
  | Unlock k => if mu st then Done (set_thread t k (set_mu false st)) else Panic
  | Load x k => match mem st !! x with Some v => Done (set_thread t (k v) st) | None => Stuck end
  | Store x v k => Done (set_thread t k (set_mem (<[x := v]> (mem st)) st))
  | Println v k => Done (set_thread t k (add_out v st))
  | Sleep k => Done (set_thread t k st)
  | Rand k => Done (set_thread t (k r) st)
  | Wait k => if mu st then Done (set_thread t (Waiting k) (set_mu false st)) else Panic
  | Broadcast k => Done (set_thread t k (set_threads (wake <$> threads st) st))
  | Send v k =>
      if bool_decide (length (chan st) < cap st)%nat
      then Done (set_thread t k (set_chan (chan st ++ [v]) st)) else Stuck
  | Recv k =>
      match chan st with
      | v :: c => Done (set_thread t (k v) (set_chan c st))
      | [] =>
          match threads st !! Z.to_nat r with
          | Some (Send v k') => Done (set_thread t (k v) (set_thread (Z.to_nat r) k' st))
          | _ => Stuck
          end
      end
  | WgAdd d k => if bool_decide (wg st + d < 0) then Panic else Done (set_thread t k (set_wg (wg st + d) st))
  | WgWait k => if bool_decide (wg st = 0) then Done (set_thread t k st) else Stuck
  | Go p k => Done (set_thread t k (set_threads (threads st ++ [p]) st))
  | Loop l xs => Done (set_thread t (code l xs) st)
  end.

(** The program ends when goroutine 0 returns. *)
Definition step (st : state) (a : nat * Z) : go state :=
  match threads st !! 0%nat, threads st !! a.1 with
  | Some Ret, _ | _, None => Stuck
  | _, Some p => thread_step st a.1 a.2 p
  end.

Fixpoint run (st : state) (l : list (nat * Z)) : go state :=
  match l with
  | [] => Done st
  | a :: l => st ← step st a; run st l
  end.

(** A state the program reaches under some schedule. *)
Definition reachable (st0 st : state) : Prop := ∃ l, run st0 l = Done st.

(** No goroutine can move. *)
Definition deadlock (st : state) : Prop := ∀ a, step st a = Stuck.

Lemma run_app st l1 l2 : run st (l1 ++ l2) = (st ← run st l1; run st l2).
Proof.
  revert st. induction l1 as [|a l1 IH]; intros st; [done|]. cbn [run app].
  change ((a :: l1) ++ l2) with (a :: (l1 ++ l2)). cbn [run].
  destruct (step st a); go_simpl; [apply IH|done..].
Qed.

(** Rule induction on the reachable states. *)
Lemma reachable_ind (J : state → Prop) st0 st :
  reachable st0 st → J st0 → (∀ st a st', J st → step st a = Done st' → J st') → J st.
Proof.
  intros [l Hl] H0 Hs. revert st0 H0 Hl. induction l as [|a l IH]; intros st0 H0 Hl; cbn [run] in Hl.
  - by injection Hl as <-.
  - go_inv Hl. eapply IH; [|exact Hl]. by eapply Hs.
Qed.

(** ** The rule for mutexes *)

(** The invariant, of the variables, the output and the goroutines, when the
    mutex is free. *)
Context (I : gmap string val → list val → list prog → Prop).

(** The rest of goroutine [t]'s critical section, [p], reaches the end of the
    section and establishes the invariant. *)
Fixpoint crit (t : nat) (p : prog) (m : gmap string val) (o : list val) (ths : list prog) : Prop :=
  match p with
  | Load x k => ∃ v, m !! x = Some v ∧ crit t (k v) m o ths
  | Store x v k => crit t k (<[x := v]> m) o ths
  | Println v k => crit t k m (o ++ [v]) ths
  | Broadcast k => crit t k m o (wake <$> ths)
  | Unlock k => I m o (<[t := k]> ths)
  | Wait k => I m o (<[t := Waiting k]> ths)
  | _ => False
  end.

(** What a goroutine does outside critical sections. *)
Inductive outside (ths : list prog) : nat → prog → list prog → Prop :=
| o_sleep t k : outside ths t (Sleep k) (<[t := k]> ths)
| o_rand t k r : outside ths t (Rand k) (<[t := k r]> ths)
| o_loop t l xs : outside ths t (Loop l xs) (<[t := code l xs]> ths)
| o_go t p k : outside ths t (Go p k) (<[t := k]> (ths ++ [p])).

(** Programs that touch shared variables and print only in critical
    sections are at one of these operations outside of them.  A goroutine falls
    asleep in [Wait] and nowhere else. *)
Definition awake (p : prog) : Prop := match p with Waiting _ => False | _ => True end.
Definition outer (p : prog) : Prop :=
  match p with
  | Ret | Lock _ | Waiting _ => True
  | Sleep k => awake k
  | Rand k => ∀ r, awake (k r)
  | Loop l xs => awake (code l xs)
  | Go p k => awake p ∧ awake k
  | _ => False
  end.

Record lock_invariant : Prop := {
  li_outer : ∀ m o ths t p, I m o ths → ths !! t = Some p → outer p;
  li_outside : ∀ m o ths t p ths', I m o ths → ths !! t = Some p → outside ths t p ths' → I m o ths';
  li_crit : ∀ m o ths t k, I m o ths → ths !! t = Some (Lock k) → crit t k m o ths;
}.

(** What holds in every reachable state. *)
Definition lock_inv (st : state) : Prop :=
  if mu st then ∃ t p, threads st !! t = Some p ∧ crit t p (mem st) (out st) (threads st)
  else I (mem st) (out st) (threads st).

Lemma wake_awake p : awake p → wake p = p.
Proof. by destruct p. Qed.

Lemma wake_insert (t : nat) p (ths : list prog) : awake p → wake <$> <[t := p]> ths = <[t := p]> (wake <$> ths).
Proof. intros H. by rewrite list_fmap_insert, wake_awake. Qed.

Lemma crit_awake t p m o ths : crit t p m o ths → awake p.
Proof. by destruct p. Qed.

(** Where goroutine [t] stood before does not matter. *)
Lemma crit_self t p m o ths q : crit t p m o ths → crit t p m o (<[t := q]> ths).
Proof.
  revert m o ths q. induction p; intros m o ths q; cbn [crit]; try done.
  - by rewrite list_insert_insert_eq.
  - intros (v & Hv & Hc). exists v. auto.
  - auto.
  - auto.
  - by rewrite list_insert_insert_eq.
  - rewrite list_fmap_insert. auto.
Qed.

Context (LI : lock_invariant).

(** The other goroutines are outside critical sections. *)
Lemma crit_outer t p m o ths u q : crit t p m o ths → u ≠ t → ths !! u = Some q → outer q.
Proof.
  intros Hc Hu. revert m o ths q Hc. induction p; intros m o ths q Hc Hq; cbn [crit] in Hc; try done.
  - eapply li_outer; [done..|]. by rewrite list_lookup_insert_ne.
  - destruct Hc as (v & _ & Hc). eauto.
  - eauto.
  - eauto.
  - eapply li_outer; [done..|]. by rewrite list_lookup_insert_ne.
  - destruct q; try (by eapply (IHp _ _ _ _ Hc); rewrite list_lookup_fmap, Hq). done.
Qed.

(** They can go on until the section ends. *)
Lemma crit_outside t p m o ths u q ths' :
  crit t p m o ths → (t < length ths)%nat → u ≠ t → ths !! u = Some q → outside ths u q ths' →
  crit t p m o ths'.
Proof.
  intros Hc Ht Hu Hq Ho. pose proof (crit_outer t p m o ths u q Hc Hu Hq) as Hout.
  revert m o ths ths' Hc Ht Hq Ho. induction p; intros m o ths ths' Hc Ht Hq Ho; cbn [crit] in Hc |- *; try done.
  - eapply li_outside; [done|exact Hc|rewrite list_lookup_insert_ne; done|].
    destruct Ho; rewrite list_insert_insert_ne by done; try by constructor.
    rewrite insert_app_l by done. by constructor.
  - destruct Hc as (v & Hv & Hc). eauto.
  - eauto.
  - eauto.
  - eapply li_outside; [done|exact Hc|rewrite list_lookup_insert_ne; done|].
    destruct Ho; rewrite list_insert_insert_ne by done; try by constructor.
    rewrite insert_app_l by done. by constructor.
  - eapply (IHp _ _ (wake <$> ths)); [done|by rewrite length_fmap|rewrite list_lookup_fmap, Hq; f_equal|].
    { destruct Ho; done. }
    destruct Ho; cbn in Hout.
    + rewrite wake_insert by done. constructor.
    + rewrite wake_insert by done. constructor.
    + rewrite wake_insert by done. constructor.
    + rewrite wake_insert, fmap_app by apply Hout. cbn. rewrite wake_awake by apply Hout. constructor.
Qed.

Lemma step_cases st a :
  step st a = Stuck ∨
  ∃ p, threads st !! a.1 = Some p ∧ step st a = thread_step st a.1 a.2 p ∧ threads st !! 0%nat ≠ Some Ret.
Proof.
  unfold step. destruct (threads st !! a.1) as [q|]; [|left; by destruct (threads st !! 0%nat) as [[]|]].
  destruct (threads st !! 0%nat) as [[]|]; (by left) || (right; by exists q).
Qed.

Lemma step_running st t r p :
  threads st !! t = Some p → is_ret <$> threads st !! 0%nat = Some false → step st (t, r) = thread_step st t r p.
Proof. intros Hp H0. unfold step. cbn [fst snd]. rewrite Hp. by destruct (threads st !! 0%nat) as [[]|]. Qed.

Lemma step_thread st a st' :
  step st a = Done st' → ∃ p, threads st !! a.1 = Some p ∧ thread_step st a.1 a.2 p = Done st'.
Proof.
  unfold step. intros H. destruct (threads st !! a.1) as [q|]; [|by destruct (threads st !! 0%nat) as [[]|]].
  exists q. split; [done|]. by destruct (threads st !! 0%nat) as [[]|].
Qed.

(** Outside of critical sections, while another goroutine may be in one. *)
Lemma outer_step st t r p st' :
  outer p → thread_step st t r p = Done st' →
  (∃ k, p = Lock k ∧ mu st = false ∧ st' = set_thread t k (set_mu true st)) ∨
  (∃ ths', outside (threads st) t p ths' ∧ st' = set_threads ths' st).
Proof.
  intros Ho H. destruct p; cbn in Ho, H; try done.
  - destruct (mu st) eqn:E; [done|]. injection H as <-. left. eauto.
  - injection H as <-. right. eexists. split; [constructor|done].
  - injection H as <-. right. eexists. split; [constructor|done].
  - injection H as <-. right. eexists. split; [constructor|done].
  - injection H as <-. right. eexists. split; [constructor|done].
Qed.

(** In a critical section. *)
Lemma crit_step st t r p st' :
  mu st = true → threads st !! t = Some p → crit t p (mem st) (out st) (threads st) →
  thread_step st t r p = Done st' → lock_inv st'.
Proof.
  intros Hmu Hp Hc H. assert (t < length (threads st))%nat as Hlt by eauto with go_lists.
  unfold lock_inv. destruct p; cbn in Hc, H; try done.
  - rewrite Hmu in H. injection H as <-. done.
  - destruct Hc as (v & Hv & Hc). rewrite Hv in H. injection H as <-. cbn. rewrite Hmu.
    exists t, (k v). split; [by apply list_lookup_insert_eq|]. by apply crit_self.
  - injection H as <-. cbn. rewrite Hmu. exists t, p. split; [by apply list_lookup_insert_eq|]. by apply crit_self.
  - injection H as <-. cbn. rewrite Hmu. exists t, p. split; [by apply list_lookup_insert_eq|]. by apply crit_self.
  - rewrite Hmu in H. injection H as <-. done.
  - injection H as <-. cbn. rewrite Hmu. exists t, p. split; [|by apply crit_self].
    apply list_lookup_insert_eq. by rewrite length_fmap.
Qed.

Lemma outside_keeps ths u q ths' t p :
  outside ths u q ths' → u ≠ t → ths !! t = Some p → ths' !! t = Some p.
Proof.
  intros Ho Hu Hp. destruct Ho; rewrite list_lookup_insert_ne by done; try done. by apply lookup_app_l_Some.
Qed.

Lemma lock_step st a st' : lock_inv st → step st a = Done st' → lock_inv st'.
Proof.
  intros Hi (q & Hq & Hs)%step_thread. destruct a as [u r]. cbn [fst snd] in *.
  assert (u < length (threads st))%nat as Hlt by eauto with go_lists.
  unfold lock_inv in Hi. destruct (mu st) eqn:Hmu.
  - destruct Hi as (t & p & Hp & Hc). destruct (decide (u = t)) as [->|Hu].
    { rewrite Hp in Hq. injection Hq as <-. by eapply crit_step. }
    destruct (outer_step st u r q st') as [(k & -> & E & _)|(ths' & Ho & ->)]; [by eapply crit_outer|done|congruence|].
    unfold lock_inv. cbn. rewrite Hmu. exists t, p. split; [by eapply outside_keeps|].
    eapply crit_outside; [done| |done..]. eauto with go_lists.
  - destruct (outer_step st u r q st') as [(k & -> & E & ->)|(ths' & Ho & ->)]; [by eapply li_outer|done|..].
    + unfold lock_inv. cbn. exists u, k. split; [by apply list_lookup_insert_eq|].
      apply crit_self. by eapply li_crit.
    + unfold lock_inv. cbn. rewrite Hmu. by eapply li_outside.
Qed.

Lemma lock_rule st0 st : lock_inv st0 → reachable st0 st → lock_inv st.
Proof. intros H0 Hr. eapply reachable_ind; [exact Hr|done|]. intros ???. apply lock_step. Qed.

(** The mutex is never unlocked twice. *)
Lemma lock_no_panic st a : lock_inv st → step st a ≠ Panic.
Proof.
  intros Hi. destruct a as [u r]. unfold step. cbn [fst snd].
  destruct (threads st !! u) as [q|] eqn:Hq; [|by destruct (threads st !! 0%nat) as [[]|]].
  assert (thread_step st u r q ≠ Panic); [|by destruct (threads st !! 0%nat) as [[]|]].
  unfold lock_inv in Hi. destruct (mu st) eqn:Hmu.
  - destruct Hi as (t & p & Hp & Hc). destruct (decide (u = t)) as [->|Hu].
    + rewrite Hp in Hq. injection Hq as <-. destruct p; cbn in Hc |- *; rewrite ?Hmu; try done.
      destruct Hc as (v & -> & _). done.
    + pose proof (crit_outer _ _ _ _ _ _ _ Hc Hu Hq). destruct q; cbn; rewrite ?Hmu; done.
  - pose proof (li_outer LI _ _ _ _ _ Hi Hq). destruct q; cbn; rewrite ?Hmu; done.
Qed.

(** What has been printed is the beginning of what will have been printed when
    the mutex is free. *)
Lemma crit_out t p m o ths : crit t p m o ths → ∃ m' o' ths', I m' (o ++ o') ths'.
Proof.
  revert m o ths. induction p; intros m o ths Hc; cbn [crit] in Hc; try done; try by eauto.
  - exists m, []. rewrite app_nil_r. eauto.
  - destruct Hc as (v & _ & Hc). eauto.
  - destruct (IHp _ _ _ Hc) as (m' & o' & ths' & H). rewrite <- app_assoc in H. eauto.
  - exists m, []. rewrite app_nil_r. eauto.
Qed.

Lemma lock_out st : lock_inv st → ∃ m o' ths, I m (out st ++ o') ths.
Proof.
  unfold lock_inv. destruct (mu st).
  - intros (t & p & _ & Hc). by eapply crit_out.
  - intros Hi. exists (mem st), [], (threads st). by rewrite app_nil_r.
Qed.

(** Whoever holds the mutex can go on. *)
Lemma crit_progress st t p :
  mu st = true → crit t p (mem st) (out st) (threads st) → ∃ st', thread_step st t 0 p = Done st'.
Proof.
  intros Hmu Hc. destruct p; cbn in Hc |- *; rewrite ?Hmu; try done; try by eexists.
  destruct Hc as (v & -> & _). by eexists.
Qed.

End semantics.

(** ** Counting the goroutines that have returned *)

(** The sum of [w t] over the goroutines [t] that have returned, numbered from
    [i]. *)
Fixpoint returned_from (w : nat → Z) (i : nat) (ths : list prog) : Z :=
  match ths with
  | [] => 0
  | p :: ths => (if is_ret p then w i else 0) + returned_from w (S i) ths
  end.
Definition returned (w : nat → Z) (ths : list prog) : Z := returned_from w 0 ths.

Lemma returned_from_insert w i ths t p q :
  ths !! t = Some p →
  returned_from w i (<[t := q]> ths) =
  returned_from w i ths + (if is_ret q then w (i + t)%nat else 0) - (if is_ret p then w (i + t)%nat else 0).
Proof.
  revert i t. induction ths as [|p' ths IH]; intros i [|t] Ht; try done; cbn in Ht.
  - cbn. injection Ht as <-. rewrite Nat.add_0_r. lia.
  - change (<[S t := q]> (p' :: ths)) with (p' :: <[t := q]> ths). cbn [returned_from].
    rewrite (IH (S i) t Ht). rewrite <- Nat.add_succ_comm. lia.
Qed.

Lemma returned_insert w ths t p q :
  ths !! t = Some p →
  returned w (<[t := q]> ths) =
  returned w ths + (if is_ret q then w t else 0) - (if is_ret p then w t else 0).
Proof. apply (returned_from_insert w 0). Qed.

Lemma returned_from_app w i ths ths' :
  returned_from w i (ths ++ ths') = returned_from w i ths + returned_from w (i + length ths)%nat ths'.
Proof.
  revert i. induction ths as [|p ths IH]; intros i; cbn.
  - by rewrite Nat.add_0_r.
  - rewrite IH, <- Nat.add_succ_comm. lia.
Qed.

Lemma returned_snoc w ths p :
  returned w (ths ++ [p]) = returned w ths + (if is_ret p then w (length ths) else 0).
Proof. unfold returned. rewrite returned_from_app. cbn. lia. Qed.

(** The sum over all goroutines, returned or not. *)
Fixpoint total_from (w : nat → Z) (i n : nat) : Z :=
  match n with 0%nat => 0 | S n => w i + total_from w (S i) n end.

Lemma returned_from_le w i ths :
  (∀ k, 0 ≤ w k) → 0 ≤ returned_from w i ths ≤ total_from w i (length ths).
Proof.
  intros Hw. revert i. induction ths as [|p ths IH]; intros i; cbn; [lia|].
  specialize (IH (S i)). specialize (Hw i). destruct (is_ret p); lia.
Qed.

(** All goroutines of positive weight have returned when the sum says so. *)
Lemma returned_from_all w i ths t p :
  (∀ k, 0 ≤ w k) → returned_from w i ths = total_from w i (length ths) → ths !! t = Some p →
  0 < w (i + t)%nat → p = Ret.
Proof.
  intros Hw. revert i t. induction ths as [|p' ths IH]; intros i [|t] He Ht Hp; try done; cbn in He, Ht.
  - injection Ht as <-. pose proof (returned_from_le w (S i) ths Hw). rewrite Nat.add_0_r in Hp.
    destruct p'; cbn in He; try lia. done.
  - apply (IH (S i) t); [|done|by rewrite Nat.add_succ_comm].
    pose proof (returned_from_le w (S i) ths Hw). specialize (Hw i). destruct (is_ret p'); lia.
Qed.

(** When all have returned, the sums are complete. *)
Lemma returned_from_Ret w i ths : Forall (fun p => p = Ret) ths → returned_from w i ths = total_from w i (length ths).
Proof. intros H. revert i. induction H as [|p ths -> _ IH]; intros i; cbn; [done|]. by rewrite IH. Qed.

(** ** [main] and a family of goroutines *)

(** Goroutine [S i] satisfies [G i]. *)
Definition family (G : nat → prog → Prop) (ths : list prog) : Prop :=
  ∀ i q, ths !! S i = Some q → G i q.

Lemma family_main G ths p : family G ths → family G (<[0%nat := p]> ths).
Proof. intros H i q Hq. rewrite list_lookup_insert_ne in Hq by done. eauto. Qed.

Lemma family_insert G ths i p : family G ths → G i p → family G (<[S i := p]> ths).
Proof.
  intros H Hp j q Hq. apply list_lookup_insert_Some in Hq as [(E & -> & _)|[_ Hq]]; [|eauto].
  by injection E as ->.
Qed.

Lemma family_snoc G ths p : family G ths → (0 < length ths)%nat → G (length ths - 1)%nat p → family G (ths ++ [p]).
Proof.
  intros H Hl Hp i q Hq. apply lookup_app_Some in Hq as [Hq|[Hle Hq]]; [eauto|].
  apply list_lookup_singleton_Some in Hq as [E <-]. replace i with (length ths - 1)%nat by lia. done.
Qed.

Lemma family_wake G ths : (∀ i q, G i q → G i (wake q)) → family G ths → family G (wake <$> ths).
Proof. intros Hw H i q Hq. apply list_lookup_fmap_Some in Hq as (q' & -> & Hq). eauto. Qed.

(** [main] does not count. *)
Lemma returned_main w ths p : w 0%nat = 0 → returned w (<[0%nat := p]> ths) = returned w ths.
Proof. intros Hw. destruct ths as [|q ths]; [done|]. unfold returned. cbn. rewrite Hw. by destruct (is_ret p), (is_ret q). Qed.

Lemma returned_from_wake w i ths : (∀ p, p ∈ ths → is_ret (wake p) = is_ret p) →
  returned_from w i (wake <$> ths) = returned_from w i ths.
Proof.
  revert i. induction ths as [|p ths IH]; intros i Hp; [done|]. cbn. rewrite (Hp p) by left.
  rewrite IH; [done|]. intros q Hq. apply Hp. by right.
Qed.

(** Goroutines other than [main]. *)
Definition others (t : nat) : Z := if bool_decide (t = 0%nat) then 0 else 1.

Lemma others_nonneg t : 0 ≤ others t.
Proof. unfold others. case_bool_decide; lia. Qed.
Lemma others_S t : others (S t) = 1.
Proof. done. Qed.
Lemma total_others i n : total_from others (S i) n = Z.of_nat n.
Proof. revert i. induction n as [|n IH]; intros i; cbn [total_from]; [done|]. rewrite IH, others_S. lia. Qed.

(** [crit_simpl] runs a critical section. *)
Ltac crit_simpl :=
  repeat match goal with
  | |- ∃ v, ?m !! ?x = Some v ∧ _ => eexists; split; [first [eassumption|by simplify_map_eq]|]
  | |- crit _ _ (LoadInt _ _) _ _ _ => unfold LoadInt
  | |- crit _ _ (incr _ _ _) _ _ _ => unfold incr, LoadInt
  | |- crit _ _ _ _ _ _ => progress cbn [crit to_int]
  end.
