(* ===== verification/GoSamples.v ===== *)
(** * The programs of [notes/05_go_concurrency_samples]

    One program per file, in the language of [Threads]: goroutine 0 is [main].
    A local variable that a goroutine's closure captures is a shared variable;
    what [main] computes before it starts the first goroutine is computed in
    place.  [requestVote] sleeps and answers at random, once for each
    goroutine: its answers are the argument [vote]. *)

From stdpp Require Import pretty.
From S2P Require Import Prelude Threads.
Local Open Scope Z_scope.

(** The state in which [main] starts. *)
Definition start (m : gmap string val) (c : nat) (main : prog) : state := mkState m false [] c 0 [] [main].

Definition no_code (l : nat) (xs : list Z) : prog := Ret.

(** ** mutex *)

(** [mutex/basic.go], with [n] goroutines for its 1000. *)
Definition basic_goroutine : prog := Lock (incr "counter" 1 (Unlock Ret)).
Definition basic_end : prog := Sleep (Lock (Load "counter" (fun v => Println v (Unlock Ret)))).
Definition basic_main (n : nat) : prog := spawn (fun _ => basic_goroutine) 0 n basic_end.
Definition basic (n : nat) : state := start {["counter" := VInt 0]} 0 (basic_main n).

(** [mutex/bad.go]: the same without the mutex. *)
Definition bad_goroutine : prog := incr "counter" 1 Ret.
Definition bad_main (n : nat) : prog :=
  spawn (fun _ => bad_goroutine) 0 n (Sleep (Load "counter" (fun v => Println v Ret))).
Definition bad (n : nat) : state := start {["counter" := VInt 0]} 0 (bad_main n).

(** [mutex/bank.go] *)
Definition accounts : gmap string val := <["alice" := VInt 10000]> {["bob" := VInt 10000]}.
Definition total : Z := 10000 + 10000.
Definition transfer (from to : string) (k : prog) : prog :=
  Lock (incr from (-1) (incr to 1 (Unlock k))).
Definition violation (a b s : Z) : val :=
  VStr ("observed violation, alice = " +:+ pretty a +:+ ", bob = " +:+ pretty b +:+ ", sum = " +:+ pretty s).

(** The auditor's loop; whether a second has passed is up to chance. *)
Definition audit_body : prog :=
  Lock (LoadInt "alice" (fun a => LoadInt "bob" (fun b =>
    if bool_decide (a + b ≠ total)
    then LoadInt "alice" (fun a => LoadInt "bob" (fun b =>
           LoadInt "alice" (fun a' => LoadInt "bob" (fun b' =>
             Println (violation a b (a' + b')) (Unlock (Loop 0 []))))))
    else Unlock (Loop 0 [])))).
Definition audit (l : nat) (xs : list Z) : prog :=
  Rand (fun r => if bool_decide (r = 0) then Ret else audit_body).
Definition bank_with (transfer : string → string → prog → prog) (n : nat) : state :=
  start accounts 0
    (Go (repeatedly n (transfer "alice" "bob") Ret)
    (Go (repeatedly n (transfer "bob" "alice") Ret)
    (Loop 0 []))).
Definition bank : state := bank_with transfer 1000.

(** [mutex/per-field.go]: the mutex is given up between the two accounts. *)
Definition transfer_per_field (from to : string) (k : prog) : prog :=
  Lock (incr from (-1) (Unlock (Lock (incr to 1 (Unlock k))))).
Definition per_field : state := bank_with transfer_per_field 1000.

(** ** condvar *)

Section votes.
Context (vote : nat → bool).

Definition votes0 : gmap string val := <["count" := VInt 0]> {["finished" := VInt 0]}.

Definition received : val := VStr "received 5+ votes!".
Definition lost : val := VStr "lost".
Definition verdict (count : Z) : val := if bool_decide (count >= 5) then received else lost.

Definition requestVote (i : nat) (k : bool → prog) : prog := Sleep (k (vote i)).

(** [if vote { count++ }; finished++; k] *)
Definition tally (v : bool) (k : prog) : prog :=
  let rest := incr "finished" 1 k in if v then incr "count" 1 rest else rest.

(** [condvar/vote-count-1.go]: no mutex, [main] spins. *)
Definition voter1 (i : nat) : prog := requestVote i (fun v => tally v Ret).
Definition verdict1 : prog := LoadInt "count" (fun c => Println (verdict c) Ret).
Definition main1 (l : nat) (xs : list Z) : prog :=
  LoadInt "count" (fun c =>
    if bool_decide (c < 5)
    then LoadInt "finished" (fun f => if bool_decide (f ≠ 10) then Loop 0 [] else verdict1)
    else verdict1).
Definition vote_count_1 : state := start votes0 0 (spawn voter1 0 10 (Loop 0 [])).

(** [condvar/vote-count-2.go] and [condvar/vote-count-3.go]: [main] polls, in
    the second with a pause. *)
Definition voter (i : nat) : prog := requestVote i (fun v => Lock (tally v (Unlock Ret))).
Definition verdict_locked : prog := LoadInt "count" (fun c => Println (verdict c) (Unlock Ret)).
Definition poll (again : prog) : prog :=
  Lock (LoadInt "count" (fun c =>
    if bool_decide (c >= 5) then verdict_locked
    else LoadInt "finished" (fun f => if bool_decide (f = 10) then verdict_locked else Unlock again))).
Definition main2 (l : nat) (xs : list Z) : prog := poll (Loop 0 []).
Definition main3 (l : nat) (xs : list Z) : prog := poll (Sleep (Loop 0 [])).
Definition vote_count_2 : state := start votes0 0 (spawn voter 0 10 (Loop 0 [])).
Definition vote_count_3 : state := start votes0 0 (spawn voter 0 10 (Loop 0 [])).

(** [condvar/vote-count-4.go]: [main] waits on the condition variable.  The
    loop's test follows a [Lock], the one in front of the loop or the one with
    which [cond.Wait()] ends, so the loop starts there. *)
Definition voter4 (i : nat) : prog :=
  requestVote i (fun v => Lock (tally v (Broadcast (Unlock Ret)))).
Definition main4 (l : nat) (xs : list Z) : prog :=
  Lock (LoadInt "count" (fun c =>
    if bool_decide (c < 5)
    then LoadInt "finished" (fun f => if bool_decide (f ≠ 10) then Wait (Loop 0 []) else verdict_locked)
    else verdict_locked)).
Definition vote_count_4 : state := start votes0 0 (spawn voter4 0 10 (Loop 0 [])).

(** [condvar/chan.go]: the votes come through a channel. *)
Definition voter_chan (i : nat) : prog := requestVote i (fun v => Send (if v then 1 else 0) Ret).
Definition main_chan (l : nat) (xs : list Z) : prog :=
  match xs with
  | [count; finished] =>
      Recv (fun vote =>
        let count := if bool_decide (vote = 1) then count + 1 else count in
        let finished := finished + 1 in
        if bool_decide (count > 5) then Println (verdict count) Ret
        else if bool_decide (finished = 10) then Println (verdict count) Ret
        else Loop 0 [count; finished])
  | _ => Ret
  end.
Definition vote_chan : state := start ∅ 0 (spawn voter_chan 0 10 (Loop 0 [0; 0])).

End votes.

(** ** goroutine *)

(** [goroutine/closure.go] *)
Definition closure : state :=
  start {["a" := VStr ""]} 0
    (WgAdd 1 (Go (Store "a" (VStr "hello world") (WgAdd (-1) Ret))
    (WgWait (Load "a" (fun v => Println v Ret))))).

(** [goroutine/loop.go]: [sendRPC] prints its argument. *)
Definition loop_goroutine (x : nat) : prog := Println (VInt (Z.of_nat x)) (WgAdd (-1) Ret).
Fixpoint loop_from (i n : nat) : prog :=
  match n with
  | 0%nat => WgWait Ret
  | S n => WgAdd 1 (Go (loop_goroutine i) (loop_from (S i) n))
  end.
Definition loop : state := start ∅ 0 (loop_from 0 5).

(** [goroutine/bad.go]: the goroutines share the loop's variable. *)
Definition shared_goroutine : prog := Load "i" (fun v => Println v (WgAdd (-1) Ret)).
Definition shared_for (l : nat) (xs : list Z) : prog :=
  LoadInt "i" (fun i =>
    if bool_decide (i < 5) then WgAdd 1 (Go shared_goroutine (incr "i" 1 (Loop 0 []))) else WgWait Ret).
Definition shared_loop : state := start {["i" := VInt 0]} 0 (Loop 0 []).

(** ** channel *)

(** [channel/wait.go] *)
Definition wait_goroutine (x : nat) : prog := Println (VInt (Z.of_nat x)) (Send 1 Ret).
Definition wait_main : prog :=
  spawn wait_goroutine 0 5 (repeatedly 5 (fun k => Recv (fun _ => k)) Ret).
Definition wait : state := start ∅ 0 wait_main.

(** [channel/unbuffered-deadlock.go] *)
Definition unbuffered_deadlock : state := start ∅ 0 (Send 1 (Recv (fun _ => Ret))).

(** [channel/unbuffered.go] and [channel/buffered.go]; how long a send took is
    left out of what is printed. *)
Definition receiver : prog := Sleep (Recv (fun _ => Ret)).
Definition sent : val := VStr "send took".
Definition unbuffered : state := start ∅ 0 (Go receiver (Send 1 (Println sent Ret))).
Definition buffered : state :=
  start ∅ 1 (Go receiver (Send 1 (Println sent (Send 1 (Println sent Ret))))).

(** [channel/producer-consumer.go]: label 0 is the loop of [main], label 1 the
    loop of [doWork]. *)
Definition producer_consumer_code (l : nat) (xs : list Z) : prog :=
  match l with
  | 0%nat => Recv (fun v => Println (VInt v) (Loop 0 []))
  | _ => Sleep (Rand (fun r => Send r (Loop 1 [])))
  end.
Definition producer_consumer : state := start ∅ 0 (spawn (fun _ => Loop 1 []) 0 4 (Loop 0 [])).

(** ** time *)

(** [time/sleep.go] *)
Definition tick : val := VStr "tick".
Definition periodic (l : nat) (xs : list Z) : prog := Println tick (Sleep (Loop 0 [])).
Definition sleep : state := start ∅ 0 (Sleep (Println (VStr "started") (Go (Loop 0 []) (Sleep Ret)))).

(** [time/sleep-cancel.go]: [periodic] returns with the mutex locked. *)
Definition cancelled : val := VStr "cancelled".
Definition periodic_cancel (l : nat) (xs : list Z) : prog :=
  Println tick (Sleep (Lock (LoadInt "done" (fun d =>
    if bool_decide (d = 1) then Ret else Unlock (Loop 0 []))))).
Definition cancel_main : prog :=
  Sleep (Println (VStr "started") (Go (Loop 0 []) (Sleep
    (Lock (Store "done" (VInt 1) (Unlock (Println cancelled (Sleep Ret)))))))).
Definition sleep_cancel : state := start {["done" := VInt 0]} 0 cancel_main.
