(* ===== verification/MutexSamples.v ===== *)
(** * The mutex samples: [mutex/basic.go], [mutex/bad.go], [mutex/bank.go] and
    [mutex/per-field.go] *)

From S2P Require Import Prelude Threads GoSamples.
Local Open Scope Z_scope.

(** ** The counter *)

Section counter.
Context (n : nat).

Definition basic_read : prog := Lock (Load "counter" (fun v => Println v (Unlock Ret))).

(** Where [main] is, when there are [len] goroutines and [c] have counted. *)
Inductive basic_at (len : nat) (c : Z) : list val → prog → Prop :=
| b_spawn i k : (len + k = S n)%nat → basic_at len c [] (spawn (fun _ => basic_goroutine) i k basic_end)
| b_read : len = S n → basic_at len c [] basic_read
| b_end v : len = S n → 0 ≤ v ≤ c → basic_at len c [VInt v] Ret.

Definition basic_inv (m : gmap string val) (o : list val) (ths : list prog) : Prop :=
  ∃ p, ths !! 0%nat = Some p ∧ basic_at (length ths) (returned others ths) o p ∧
    m !! "counter" = Some (VInt (returned others ths)) ∧
    family (fun _ q => q = basic_goroutine ∨ q = Ret) ths.

Lemma basic_at_mono len c c' o p : basic_at len c o p → c ≤ c' → basic_at len c' o p.
Proof. intros [] ?; constructor; lia. Qed.

Lemma basic_lock : lock_invariant no_code basic_inv.
Proof.
  split.
  - intros m o ths [|t] q (p & Hp & Hm & _ & Hg) Hq.
    + rewrite Hp in Hq. injection Hq as <-. destruct Hm as [i [|k]| |]; cbn; try done.
      split; [done|]. by destruct k.
    + by destruct (Hg t q Hq) as [->| ->].
  - intros m o ths [|t] q ths' (p & Hp & Hm & Hc & Hg) Hq Ho.
    2: { by destruct (Hg t q Hq) as [->| ->]; inversion Ho. }
    rewrite Hp in Hq. injection Hq as <-. assert (0 < length ths)%nat as Hlt by eauto with go_lists.
    unfold basic_inv.
    inversion Hm as [i [|k] Hl E1 E2|Hl E1 E2|v Hl Hv E1 E2]; subst; cbn in Ho; inversion Ho; subst;
      rewrite list_lookup_insert_eq, length_insert, returned_main by (done || len).
    + eexists. split; [done|]. split; [constructor; lia|]. split; [done|]. by apply family_main.
    + rewrite returned_snoc. cbn [is_ret basic_goroutine]. rewrite Z.add_0_r.
      eexists. split; [done|]. split; [constructor; len|]. split; [done|].
      apply family_main, family_snoc; [done..|by left].
  - intros m o ths [|t] k (p & Hp & Hm & Hc & Hg) Hq.
    + rewrite Hp in Hq. injection Hq as ->. assert (0 < length ths)%nat as Hlt by eauto with go_lists.
      inversion Hm as [i [|k'] Hl E1 E2|Hl E1 E2|]; subst; try done. crit_simpl. unfold basic_inv.
      rewrite list_lookup_insert_eq, length_insert, returned_main by (done || len).
      eexists. split; [done|]. split; [|split; [done|by apply family_main]].
      constructor; [done|]. pose proof (returned_from_le others 0 ths others_nonneg). unfold returned. lia.
    + destruct (Hg t _ Hq) as [[= ->]|]; [|done]. crit_simpl.
      exists p. rewrite list_lookup_insert_ne, length_insert by done. split; [done|].
      rewrite (returned_insert _ _ _ _ _ Hq). cbn [is_ret]. rewrite others_S.
      split; [eapply basic_at_mono; [exact Hm|lia]|]. split; [simplify_map_eq; do 2 f_equal; lia|].
      apply family_insert; [done|by right].
Qed.

Lemma basic_reachable st : reachable no_code (basic n) st → lock_inv basic_inv st.
Proof.
  apply lock_rule; [exact basic_lock|]. unfold lock_inv. cbn. exists (basic_main n). split; [done|].
  split; [by apply b_spawn|]. split; [by destruct n|]. by intros i q Hq.
Qed.

(** In [mutex/basic.go], whenever the mutex is free the counter is the
    number of goroutines that have returned: no increment is lost.  [main]
    prints one number, at most the number of goroutines (it does not wait for
    them), and that number is what [println] finds under the mutex. *)
Theorem basic_counts st :
  reachable no_code (basic n) st → mu st = false →
  mem st !! "counter" = Some (VInt (returned others (threads st))) ∧
  (out st = [] ∨ ∃ v, out st = [VInt v] ∧ 0 ≤ v ≤ Z.of_nat n).
Proof.
  intros Hr Hmu. pose proof (basic_reachable st Hr) as Hi. unfold lock_inv in Hi. rewrite Hmu in Hi.
  destruct Hi as (p & Hp & Hm & Hc & _). split; [done|].
  pose proof (returned_from_le others 0 (threads st) others_nonneg) as Hle.
  inversion Hm as [| |v Hl Hv]; [by left..|right]. exists v. split; [done|].
  destruct (threads st) as [|q ths]; [done|]. cbn [length total_from] in Hle. rewrite total_others in Hle.
  unfold returned in Hv. change (others 0) with 0 in Hle. cbn [length] in Hl. lia.
Qed.

End counter.

(** Without the mutex, all but one of the thousand increments can be lost. *)
Definition all_read_first (n : nat) : list (nat * Z) :=
  ((fun t => (t, 0)) <$> replicate n 0%nat ++ seq 1 n ++ seq 1 n ++ replicate 3 0%nat).
Lemma bad_loses_updates :
  (fun st => (forallb is_ret (threads st), out st)) <$> run no_code (bad 1000) (all_read_first 1000)
  = Done (true, [VInt 1]).
Proof. vm_compute. reflexivity. Qed.

(** ** The bank *)

Section bank.
(** What a goroutine that moves money is at, and how much it has taken from
    one account and not yet put into the other. *)
Context (W : prog → Z → Prop) (tr : string → string → prog → prog).

Inductive auditor (workers : nat) : prog → Prop :=
| a_start1 n : workers = 0%nat →
    auditor workers (Go (repeatedly n (tr "alice" "bob") Ret) (Go (repeatedly n (tr "bob" "alice") Ret) (Loop 0 [])))
| a_start2 n : workers = 1%nat → auditor workers (Go (repeatedly n (tr "bob" "alice") Ret) (Loop 0 []))
| a_loop : workers = 2%nat → auditor workers (Loop 0 [])
| a_time : workers = 2%nat → auditor workers (audit 0 [])
| a_audit : workers = 2%nat → auditor workers audit_body
| a_end : workers = 2%nat → auditor workers Ret.

Definition bank_inv (m : gmap string val) (o : list val) (ths : list prog) : Prop :=
  ∃ a b main ws ds, m !! "alice" = Some (VInt a) ∧ m !! "bob" = Some (VInt b) ∧
    ths = main :: ws ∧ auditor (length ws) main ∧ Forall2 W ws ds ∧ a + b + foldr Z.add 0 ds = total ∧
    ((∀ p d, W p d → d = 0) → o = []).

(** A goroutine is outside critical sections, and a section moves money from
    one account to the other or to the goroutine. *)
Record worker : Prop := {
  w_start x y n : (x, y) = ("alice", "bob") ∨ (x, y) = ("bob", "alice") → W (repeatedly n (tr x y) Ret) 0;
  w_outer p d : W p d → p = Ret ∨ ∃ k, p = Lock k;
  w_crit I k d m a b t o ths :
    W (Lock k) d → m !! "alice" = Some (VInt a) → m !! "bob" = Some (VInt b) →
    (∀ m' a' b' d' q, m' !! "alice" = Some (VInt a') → m' !! "bob" = Some (VInt b') → W q d' →
       a' + b' + d' = a + b + d → I m' o (<[t := q]> ths)) →
    crit I t k m o ths;
}.

Context (HW : worker).

Lemma debt_insert ds i d d' :
  ds !! i = Some d → foldr Z.add 0 (<[i := d']> ds) = foldr Z.add 0 ds + d' - d.
Proof.
  revert i. induction ds as [|e ds IH]; intros [|i] Hi; try done; cbn in Hi.
  - injection Hi as ->. cbn. lia.
  - change (<[S i := d']> (e :: ds)) with (e :: <[i := d']> ds). cbn [foldr]. rewrite (IH i Hi). lia.
Qed.

Lemma debt_zero ws ds : (∀ p d, W p d → d = 0) → Forall2 W ws ds → foldr Z.add 0 ds = 0.
Proof. intros H. induction 1 as [|p d ws ds Hp _ IH]; cbn; [done|]. rewrite (H p d Hp), IH. done. Qed.

Lemma bank_lock : lock_invariant audit bank_inv.
Proof.
  split.
  - intros m o ths [|t] q (a & b & p & ws & ds & _ & _ & -> & Hm & Hw & _) Hq; cbn in Hq.
    + injection Hq as <-. destruct Hm; cbn; try done.
      * split; [|done]. destruct n; [done|]. destruct (w_outer HW (repeatedly (S n) (tr "alice" "bob") Ret) 0) as [->|[k ->]]; try done.
        apply w_start; [done|by left].
      * split; [|done]. destruct (w_outer HW (repeatedly n (tr "bob" "alice") Ret) 0) as [->|[k ->]]; try done.
        apply w_start; [done|by right].
      * intros r. by case_bool_decide.
    + destruct (Forall2_lookup_l _ _ _ _ _ Hw Hq) as (d & _ & Hd). by destruct (w_outer HW _ _ Hd) as [->|[k ->]].
  - intros m o ths [|t] q ths' (a & b & p & ws & ds & Ha & Hb & -> & Hm & Hw & Hs & Ho) Hq Hout; cbn in Hq.
    2: { destruct (Forall2_lookup_l _ _ _ _ _ Hw Hq) as (d & _ & Hd).
         by destruct (w_outer HW _ _ Hd) as [->|[k ->]]; inversion Hout. }
    injection Hq as <-. exists a, b. inversion Hm; subst; inversion Hout; subst; cbn.
    + eexists _, _, (ds ++ [0]). do 3 (split; [done|]). split; [apply a_start2; len|].
      split; [apply Forall2_app; [done|constructor; [apply w_start; [done|by left]|constructor]]|].
      rewrite foldr_app. done.
    + eexists _, _, (ds ++ [0]). do 3 (split; [done|]). split; [apply a_loop; len|].
      split; [apply Forall2_app; [done|constructor; [apply w_start; [done|by right]|constructor]]|].
      rewrite foldr_app. done.
    + eexists _, _, ds. do 3 (split; [done|]). split; [by apply a_time|done].
    + eexists _, _, ds. do 3 (split; [done|]). split; [|done]. case_bool_decide; by constructor.
  - intros m o ths [|t] k (a & b & p & ws & ds & Ha & Hb & -> & Hm & Hw & Hs & Ho) Hq; cbn in Hq.
    + injection Hq as ->. inversion Hm; subst; try done. crit_simpl. case_bool_decide as Hv.
      * crit_simpl. exists a, b, (Loop 0 []), ws, ds. do 3 (split; [done|]). split; [by constructor|].
        split; [done|]. split; [done|]. intros Hz. rewrite (debt_zero ws ds Hz Hw) in Hs. lia.
      * crit_simpl. exists a, b, (Loop 0 []), ws, ds. do 3 (split; [done|]). split; [by constructor|]. done.
    + destruct (Forall2_lookup_l _ _ _ _ _ Hw Hq) as (d & Hdl & Hd).
      eapply w_crit; [done..|]. intros m' a' b' d' q Ha' Hb' Hq' Hsum.
      exists a', b', p, (<[t := q]> ws), (<[t := d']> ds). do 3 (split; [done|]). rewrite length_insert.
      split; [done|]. split; [by apply Forall2_insert|]. split; [|done]. rewrite (debt_insert _ _ _ _ Hdl). lia.
Qed.

Lemma bank_reachable n st : reachable audit (bank_with tr n) st → lock_inv bank_inv st.
Proof.
  apply lock_rule; [exact bank_lock|]. unfold lock_inv. cbn.
  exists 10000, 10000. eexists _, [], []. do 3 (split; [done|]). split; [by constructor|]. done.
Qed.

End bank.

(** The two accounts, in either order. *)
Inductive route : string → string → Prop :=
| r_ab : route "alice" "bob"
| r_ba : route "bob" "alice".

Lemma route_pair x y : (x, y) = ("alice", "bob") ∨ (x, y) = ("bob", "alice") → route x y.
Proof. intros [[= -> ->]|[= -> ->]]; constructor. Qed.

Inductive bank_worker : prog → Z → Prop :=
| bw x y n : route x y → bank_worker (repeatedly n (transfer x y) Ret) 0.

Lemma bank_worker_ok : worker bank_worker transfer.
Proof.
  split.
  - intros x y n H. constructor. by apply route_pair.
  - intros p d [x y [|n] H]; [by left|right; by eexists].
  - intros I k d m a b t o ths Hw Ha Hb Hpost. inversion Hw as [x y [|n] Hr E1 E2]; subst.
    assert (bank_worker (repeatedly n (transfer x y) Ret) 0) as Hw' by by constructor.
    destruct Hr; crit_simpl; (eapply Hpost; [by simplify_map_eq|by simplify_map_eq|exact Hw'|cbn; lia]).
Qed.

Inductive per_field_worker : prog → Z → Prop :=
| pw0 x y n : route x y → per_field_worker (repeatedly n (transfer_per_field x y) Ret) 0
| pw1 x y n : route x y →
    per_field_worker (Lock (incr y 1 (Unlock (repeatedly n (transfer_per_field x y) Ret)))) 1.

Lemma per_field_worker_ok : worker per_field_worker transfer_per_field.
Proof.
  split.
  - intros x y n H. constructor. by apply route_pair.
  - intros p d [x y [|n] H|x y n H]; [by left|right; by eexists..].
  - intros I k d m a b t o ths Hw Ha Hb Hpost. inversion Hw as [x y [|n] Hr E1 E2|x y n Hr E1 E2]; subst.
    + pose proof (pw1 x y n Hr) as Hw'.
      destruct Hr; crit_simpl; (eapply Hpost; [by simplify_map_eq|by simplify_map_eq|exact Hw'|cbn; lia]).
    + pose proof (pw0 x y n Hr) as Hw'.
      destruct Hr; crit_simpl; (eapply Hpost; [by simplify_map_eq|by simplify_map_eq|exact Hw'|cbn; lia]).
Qed.

(** C33: in [mutex/bank.go], money is only moved: whenever the mutex is free the
    two accounts add up to the total, and the auditor never reports a
    violation.  In [mutex/per-field.go], up to two units can be on their way
    when the auditor looks. *)
Theorem bank_total st :
  (reachable audit bank st → mu st = false →
   out st = [] ∧ ∃ a b, mem st !! "alice" = Some (VInt a) ∧ mem st !! "bob" = Some (VInt b) ∧ a + b = total) ∧
  (reachable audit per_field st → mu st = false →
   ∃ a b, mem st !! "alice" = Some (VInt a) ∧ mem st !! "bob" = Some (VInt b) ∧ total - 2 ≤ a + b ≤ total).
Proof.
  split; intros Hr Hmu.
  - pose proof (bank_reachable _ _ bank_worker_ok 1000 st Hr) as Hi. unfold lock_inv in Hi. rewrite Hmu in Hi.
    destruct Hi as (a & b & p & ws & ds & Ha & Hb & _ & _ & Hw & Hs & Ho).
    assert (∀ p d, bank_worker p d → d = 0) as Hz by by intros ?? [].
    split; [by apply Ho|]. exists a, b. split; [done|]. split; [done|]. rewrite (debt_zero _ ws ds Hz Hw) in Hs. lia.
  - pose proof (bank_reachable _ _ per_field_worker_ok 1000 st Hr) as Hi. unfold lock_inv in Hi. rewrite Hmu in Hi.
    destruct Hi as (a & b & p & ws & ds & Ha & Hb & _ & Hm & Hw & Hs & Ho).
    exists a, b. split; [done|]. split; [done|].
    assert (Forall2 (fun _ d => 0 ≤ d ≤ 1) ws ds) as Hd.
    { eapply Forall2_impl; [exact Hw|]. intros ?? []; lia. }
    assert (length ws ≤ 2)%nat as Hl by (inversion Hm; lia).
    destruct Hd as [|? ? ? ? ? [|? ? ? ? ? []]]; cbn in Hs, Hl; lia.
Qed.

(** [mutex/per-field.go] does report violations. *)
Definition see_violation : list (nat * Z) :=
  (fun t => (t, 1)) <$> [0; 0; 1; 1; 1; 1; 0; 0; 0; 0; 0; 0; 0; 0; 0; 0; 0]%nat.
Lemma per_field_violation :
  out <$> run audit per_field see_violation = Done [violation 9999 10000 19999].
Proof. vm_compute. reflexivity. Qed.

(** Three goroutines count, one of them after [main] has looked. *)
Definition two_then_one : list (nat * Z) :=
  (fun t => (t, 0)) <$> replicate 4 0%nat ++ replicate 4 1%nat ++ replicate 4 3%nat ++ replicate 4 0%nat.
Lemma basic_counts_witness :
  ∃ st, run no_code (basic 3) two_then_one = Done st ∧ mu st = false ∧
    mem st !! "counter" = Some (VInt (returned others (threads st))) ∧ out st = [VInt 2].
Proof.
  eexists. split; [vm_compute; reflexivity|]. split; [reflexivity|]. split; [|reflexivity].
  apply (basic_counts 3); [|reflexivity]. exists two_then_one. vm_compute. reflexivity.
Defined.

(** A transfer, and [main] looks at the accounts. *)
Definition bank_run : list (nat * Z) := (fun t => (t, 1)) <$> replicate 2 0%nat ++ replicate 6 1%nat ++ replicate 6 0%nat.
Lemma bank_total_witness :
  ∃ st, run audit bank bank_run = Done st ∧ mu st = false ∧ out st = [].
Proof.
  assert (mu <$> run audit bank bank_run = Done false) as Hmu by (vm_compute; reflexivity).
  destruct (run audit bank bank_run) as [st| |] eqn:E; [|discriminate Hmu..]. injection Hmu as Hmu.
  exists st. split; [reflexivity|]. split; [exact Hmu|].
  exact (proj1 (proj1 (bank_total st) (ex_intro _ bank_run E) Hmu)).
Defined.
