(* ===== verification/VoteSamples.v ===== *)
(** * Counting votes: the samples in [condvar]

    The three programs that count under the mutex ([vote-count-2.go],
    [vote-count-3.go], [vote-count-4.go]) are treated together; then
    [chan.go], and the race of [vote-count-1.go]. *)

From S2P Require Import Prelude Threads GoSamples.
Local Open Scope Z_scope.

Section votes.
Context (vote : nat → bool).

(** Goroutine [S i] asks for vote [i]. *)
Definition yes (t : nat) : Z := match t with 0%nat => 0 | S i => if vote i then 1 else 0 end.
(** The number of votes there are. *)
Definition votes : Z := total_from yes 1 10.

Lemma yes_nonneg t : 0 ≤ yes t.
Proof. destruct t as [|i]; cbn; [lia|]. destruct (vote i); lia. Qed.

(** Votes counted so far, when ten goroutines have been started. *)
Lemma votes_bound main ths :
  length ths = 10%nat → 0 ≤ returned yes (main :: ths) ≤ votes.
Proof.
  intros Hl. pose proof (returned_from_le yes 1 ths yes_nonneg) as H. rewrite Hl in H.
  unfold returned. cbn [returned_from yes]. unfold votes. destruct (is_ret main); lia.
Qed.

Lemma all_voted main ths :
  length ths = 10%nat → returned others (main :: ths) = 10 → returned yes (main :: ths) = votes.
Proof.
  intros Hl Hf. assert (Forall (fun p => p = Ret) ths) as Hr.
  { apply Forall_lookup. intros t p Hp. eapply (returned_from_all others 1 ths t); [exact others_nonneg| |done|].
    - rewrite total_others, Hl. unfold returned in Hf. cbn [returned_from] in Hf. change (others 0) with 0 in Hf.
      destruct (is_ret main); lia.
    - cbn [plus]. rewrite others_S. lia. }
  unfold returned. cbn [returned_from yes]. rewrite (returned_from_Ret yes 1 ths Hr), Hl. unfold votes.
  destruct (is_ret main); lia.
Qed.

(** The verdict of [main], once it stops waiting. *)
Lemma verdict_stable c : c ≤ votes → c >= 5 ∨ c = votes → verdict c = verdict votes.
Proof. intros Hc [H| ->]; [|done]. unfold verdict. rewrite !bool_decide_eq_true_2 by lia. done. Qed.

(** ** Counting under the mutex *)

Section locked.
Context (bcast : bool) (code : nat → list Z → prog).

Definition tail : prog := if bcast then Broadcast (Unlock Ret) else Unlock Ret.
Definition voter_gen (i : nat) : prog := requestVote vote i (fun v => Lock (tally v tail)).

Inductive voter_at (i : nat) : prog → Prop :=
| va_start : voter_at i (voter_gen i)
| va_lock : voter_at i (Lock (tally (vote i) tail))
| va_ret : voter_at i Ret.

(** Where [main] is when there are [len] goroutines, with what is counted and
    what is printed. *)
Inductive main_at (len : nat) (c f : Z) : list val → prog → Prop :=
| ma_spawn i k : len = S i → (len + k = 11)%nat → main_at len c f [] (spawn voter_gen i k (Loop 0 []))
| ma_loop : len = 11%nat → main_at len c f [] (Loop 0 [])
| ma_pause : len = 11%nat → main_at len c f [] (Sleep (Loop 0 []))
| ma_head : len = 11%nat → main_at len c f [] (code 0%nat [])
| ma_wait : len = 11%nat → bcast = true → c < 5 → f ≠ 10 → main_at len c f [] (Waiting (Loop 0 []))
| ma_end : len = 11%nat → main_at len c f [verdict votes] Ret.

Definition votes_inv (m : gmap string val) (o : list val) (ths : list prog) : Prop :=
  ∃ p, ths !! 0%nat = Some p ∧ main_at (length ths) (returned yes ths) (returned others ths) o p ∧
    m !! "count" = Some (VInt (returned yes ths)) ∧ m !! "finished" = Some (VInt (returned others ths)) ∧
    family voter_at ths.

(** What [main] does with the mutex: it prints the verdict and returns if it
    has seen enough, and otherwise comes back, after a pause, or when woken. *)
Record main_ok (k : prog) : Prop := {
  mo_head : code 0%nat [] = Lock k;
  mo_crit I m o ths c f :
    m !! "count" = Some (VInt c) → m !! "finished" = Some (VInt f) →
    (c >= 5 ∨ f = 10 → I m (o ++ [verdict c]) (<[0%nat := Ret]> ths)) →
    (c < 5 → f ≠ 10 → ∀ q, q = Loop 0 [] ∨ q = Sleep (Loop 0 []) ∨ (q = Waiting (Loop 0 []) ∧ bcast = true) →
       I m o (<[0%nat := q]> ths)) →
    crit I 0 k m o ths;
}.
Context (k0 : prog) (Hmain : main_ok k0).

Lemma voter_outer i q : voter_at i q → outer code q ∧ awake q.
Proof. by intros []. Qed.

Lemma votes_outer m o ths t p : votes_inv m o ths → ths !! t = Some p → outer code p.
Proof.
  intros (q & Hq & Hm & _ & _ & Hf) Hp. destruct t as [|t]; [|by eapply voter_outer, Hf].
  rewrite Hq in Hp. injection Hp as <-. destruct Hm as [i [|k]| | | | |]; cbn; rewrite ?(mo_head _ Hmain); try done.
  split; [done|]. by destruct k.
Qed.

(** [main] moves, without a critical section. *)
Lemma votes_main m o ths p q :
  votes_inv m o ths → ths !! 0%nat = Some p →
  main_at (length ths) (returned yes ths) (returned others ths) o q → votes_inv m o (<[0%nat := q]> ths).
Proof.
  intros (p' & Hp' & _ & Hc & Hfi & Hf) Hp Hq. unfold votes_inv.
  rewrite list_lookup_insert_eq, length_insert, !returned_main by (done || eauto with go_lists).
  exists q. do 4 (split; [done|]). by apply family_main.
Qed.

Lemma votes_outside m o ths t p ths' :
  votes_inv m o ths → ths !! t = Some p → outside code ths t p ths' → votes_inv m o ths'.
Proof.
  intros Hi Hp Ho. pose proof Hi as (q & Hq & Hm & Hc & Hfi & Hf). destruct t as [|i].
  - rewrite Hq in Hp. injection Hp as <-. assert (0 < length ths)%nat as Hlt by eauto with go_lists.
    inversion Hm as [i [|k] E1 E2 Eo|Hl Eo|Hl Eo|Hl Eo|Hl|]; subst; cbn in Ho;
      rewrite ?(mo_head _ Hmain) in Ho; inversion Ho; subst.
    + eapply votes_main; [done..|]. apply ma_head. lia.
    + unfold votes_inv. rewrite list_lookup_insert_eq, length_insert, !returned_main, !returned_snoc by (done || len).
      cbn [is_ret voter_gen requestVote]. rewrite !Z.add_0_r. eexists. split; [done|].
      split; [apply ma_spawn; len|]. split; [done|]. split; [done|].
      apply family_main, family_snoc; [done..|]. rewrite E1. replace (S i - 1)%nat with i by lia. constructor.
    + eapply votes_main; [done..|]. by apply ma_head.
    + eapply votes_main; [done..|]. by apply ma_loop.
  - destruct (Hf i p Hp); inversion Ho; subst.
    exists q. rewrite list_lookup_insert_ne, length_insert by done.
    rewrite !(returned_insert _ _ _ _ _ Hp). cbn [is_ret]. rewrite !Z.add_0_r, !Z.sub_0_r.
    do 4 (split; [done|]). apply family_insert; [done|constructor].
Qed.

(** What a broadcast does, if there is one. *)
Definition woken (ths : list prog) : list prog := if bcast then wake <$> ths else ths.

Lemma main_woken len c f c' f' o p : main_at len c f o p → main_at len c' f' o (if bcast then wake p else p).
Proof.
  intros []; destruct bcast eqn:E; try done; cbn; try by constructor.
  - destruct k; by (apply (ma_spawn _ _ _ i 0) || apply (ma_spawn _ _ _ i (S k))).
  - rewrite (mo_head _ Hmain). cbn. rewrite <- (mo_head _ Hmain). by apply ma_head.
Qed.

Lemma votes_woken m o ths :
  votes_inv m o ths →
  length (woken ths) = length ths ∧ family voter_at (woken ths) ∧
  (∀ w, returned w (woken ths) = returned w ths) ∧
  (∀ i, woken ths !! S i = ths !! S i) ∧ ∃ p, woken ths !! 0%nat = Some p ∧ ∀ c f, main_at (length ths) c f o p.
Proof.
  intros (q & Hq & Hm & _ & _ & Hf).
  assert (∀ i p, ths !! S i = Some p → wake p = p) as Hw.
  { intros i p Hp. apply wake_awake. by eapply voter_outer, Hf. }
  unfold woken. pose proof (fun c f => main_woken _ _ _ c f _ _ Hm) as Hwm. destruct bcast.
  - rewrite length_fmap. split; [done|]. split.
    { intros i p Hp. apply list_lookup_fmap_Some in Hp as (p' & -> & Hp). rewrite (Hw i p' Hp). eauto. }
    split; [intros w; apply returned_from_wake; intros p [[|i] Hp]%list_elem_of_lookup|].
    { rewrite Hq in Hp. injection Hp as <-. inversion Hm as [i [|k]| | | | |]; try done.
      by rewrite (mo_head _ Hmain). }
    { by rewrite (Hw i p Hp). }
    split; [|exists (wake q); by rewrite list_lookup_fmap, Hq].
    intros i. rewrite list_lookup_fmap. destruct (ths !! S i) as [p|] eqn:E; [|done]. cbn. by rewrite (Hw i p E).
  - do 4 (split; [done|]). by exists q.
Qed.

(** A voter's critical section. *)
Lemma voter_crit m o ths i :
  votes_inv m o ths → ths !! S i = Some (Lock (tally (vote i) tail)) →
  crit votes_inv (S i) (tally (vote i) tail) m o ths.
Proof.
  intros Hi Hp. pose proof Hi as (q & _ & _ & Hc & Hfi & _).
  destruct (votes_woken m o ths Hi) as (Hl & Hf & Hr & Hs & p & Hp0 & Hm).
  assert (∀ m', m' !! "count" = Some (VInt (returned yes ths + if vote i then 1 else 0)) →
    m' !! "finished" = Some (VInt (returned others ths + 1)) →
    votes_inv m' o (<[S i := Ret]> (woken ths))) as Hdone.
  { intros m' Hc' Hf'. exists p. rewrite list_lookup_insert_ne, length_insert, Hl by done.
    rewrite !(returned_insert _ _ _ (Lock (tally (vote i) tail))) by by rewrite Hs.
    rewrite !Hr. cbn [is_ret yes]. rewrite others_S, !Z.sub_0_r.
    do 4 (split; [done|]). apply family_insert; [done|constructor]. }
  unfold tally, tail, woken in *. destruct (vote i), bcast; crit_simpl; apply Hdone; simplify_map_eq; do 2 f_equal; lia.
Qed.

Lemma votes_crit m o ths t k : votes_inv m o ths → ths !! t = Some (Lock k) → crit votes_inv t k m o ths.
Proof.
  intros Hi Hp. pose proof Hi as (q & Hq & Hm & Hc & Hfi & Hf). destruct t as [|i].
  2: { pose proof (Hf i _ Hp) as Hv. inversion Hv; subst. by apply voter_crit. }
  rewrite Hq in Hp. injection Hp as ->.
  assert (length ths = 11%nat ∧ k = k0 ∧ o = []) as (Hl & -> & ->).
  { inversion Hm as [i [|n]| | |Hl Eo Ek| |]; try done. rewrite (mo_head _ Hmain) in Ek. by injection Ek as ->. }
  destruct ths as [|p ths]; [done|]. injection Hq as ->. injection Hl as Hl.
  pose proof (votes_bound (Lock k0) ths Hl) as Hb.
  eapply (mo_crit _ Hmain); [exact Hc|exact Hfi|..].
  - intros Hor. cbn [app]. rewrite verdict_stable.
    + unfold votes_inv. rewrite list_lookup_insert_eq, length_insert, !returned_main by (done || len).
      exists Ret. split; [done|]. split; [apply ma_end; len|]. do 2 (split; [done|]). by apply family_main.
    + lia.
    + destruct Hor as [H|H]; [by left|right]. by apply all_voted.
  - intros Hlt Hne q' Hq'. eapply votes_main; [done..|].
    destruct Hq' as [->|[->|[-> Hb']]]; constructor; (done || len).
Qed.

Lemma votes_lock : lock_invariant code votes_inv.
Proof. split; [exact votes_outer|exact votes_outside|exact votes_crit]. Qed.

Lemma votes_reachable st :
  reachable code (start votes0 0 (spawn voter_gen 0 10 (Loop 0 []))) st → lock_inv votes_inv st.
Proof.
  apply lock_rule; [exact votes_lock|]. unfold lock_inv. cbn [mu start mem out threads].
  eexists. split; [done|]. split; [by apply ma_spawn|]. split; [done|]. split; [done|]. by intros i q Hq.
Qed.

Lemma votes_printed st :
  reachable code (start votes0 0 (spawn voter_gen 0 10 (Loop 0 []))) st → out st = [] ∨ out st = [verdict votes].
Proof.
  intros Hr. destruct (lock_out _ st (votes_reachable st Hr)) as (m & o' & ths & p & _ & Hm & _).
  destruct (out st) as [|v o]; [by left|]. right. inversion Hm as [| | | | |Hl E]. cbn in E.
  by destruct o.
Qed.

Lemma votes_progress st :
  reachable code (start votes0 0 (spawn voter_gen 0 10 (Loop 0 []))) st → deadlock code st →
  threads st !! 0%nat = Some Ret.
Proof.
  intros Hr Hd. pose proof (votes_reachable st Hr) as Hi.
  assert (∀ t p, threads st !! t = Some p → (∀ st', thread_step code st t 0 p ≠ Done st') ∨
    threads st !! 0%nat = Some Ret) as Hstuck.
  { intros t p Hp. specialize (Hd (t, 0)). unfold step in Hd. cbn [fst snd] in Hd. rewrite Hp in Hd.
    destruct (threads st !! 0%nat) as [[]|]; (by right) || (left; intros st'; by rewrite Hd). }
  unfold lock_inv in Hi. destruct (mu st) eqn:Hmu.
  { destruct Hi as (t & p & Hp & Hc). destruct (crit_progress code _ st t p Hmu Hc) as [st' Hst].
    destruct (Hstuck t p Hp) as [H|H]; [by destruct (H st')|done]. }
  destruct Hi as (q & Hq & Hm & _ & _ & Hf).
  destruct (Hstuck 0%nat q Hq) as [Hno|Hret]; [|done].
  inversion Hm as [i [|k] E1 E2 Eo Ep|Hl Eo Ep|Hl Eo Ep|Hl Eo Ep|Hl Hb H5 H10 Eo Ep|Hl Eo Ep]; subst q;
    try (exfalso; rewrite ?(mo_head _ Hmain) in Hno; cbn in Hno; rewrite ?Hmu in Hno; by eapply Hno).
  - destruct (threads st) as [|p ths] eqn:Eth; [done|]. injection Hl as Hl.
    destruct (decide (Forall (fun p => is_ret p = true) ths)) as [Hall|Hex].
    + exfalso. apply H10. unfold returned. cbn [returned_from]. injection Hq as ->. cbn [is_ret].
      rewrite returned_from_Ret, total_others, Hl; [done|]. eapply Forall_impl; [exact Hall|]. by intros [].
    + apply not_Forall_Exists, Exists_exists in Hex as (p' & [i Hi]%list_elem_of_lookup & Hp'); [|apply _].
      destruct (Hstuck (S i) p' Hi) as [H|H]; [exfalso|done].
      destruct (Hf i p' Hi); cbn in H, Hp'; rewrite ?Hmu in H; (done || by eapply H).
  - done.
Qed.

End locked.
(** ** The three programs *)

Ltac verdict_simpl := unfold verdict_locked; crit_simpl.

Lemma poll_ok again code :
  code 0%nat [] = poll again → again = Loop 0 [] ∨ again = Sleep (Loop 0 []) →
  ∃ k, main_ok false code k.
Proof.
  intros Hc Ha. eexists. split; [exact Hc|]. intros I m o ths c f Hcm Hfm Hend Hagain.
  crit_simpl. case_bool_decide; [verdict_simpl; apply Hend; by left|].
  crit_simpl. case_bool_decide; [verdict_simpl; apply Hend; by right|].
  crit_simpl. apply Hagain; [lia|done|]. destruct Ha; eauto.
Qed.

Lemma main4_ok : ∃ k, main_ok true main4 k.
Proof.
  eexists. split; [done|]. intros I m o ths c f Hcm Hfm Hend Hagain.
  crit_simpl. case_bool_decide; [|verdict_simpl; apply Hend; left; lia].
  crit_simpl. case_bool_decide; [|verdict_simpl; apply Hend; right; lia].
  crit_simpl. apply Hagain; [done|done|]. auto.
Qed.

(** Each of the programs, with the code of its [main]. *)
Inductive vote_program : (nat → list Z → prog) → state → Prop :=
| vp2 : vote_program main2 (vote_count_2 vote)
| vp3 : vote_program main3 (vote_count_3 vote)
| vp4 : vote_program main4 (vote_count_4 vote).

Lemma vote_program_ok code st0 :
  vote_program code st0 →
  ∃ bcast k, main_ok bcast code k ∧ st0 = start votes0 0 (spawn (voter_gen bcast) 0 10 (Loop 0 [])).
Proof.
  intros [].
  - destruct (poll_ok (Loop 0 []) main2) as [k Hk]; [done|by left|]. by exists false, k.
  - destruct (poll_ok (Sleep (Loop 0 [])) main3) as [k Hk]; [done|by right|]. by exists false, k.
  - destruct main4_ok as [k Hk]. by exists true, k.
Qed.


End votes.

(** Six of the ten are in favour; [main] waits, is woken up by each of the
    first five voters, and prints the verdict. *)
Definition six (i : nat) : bool := bool_decide (i < 6)%nat.
Definition wait_for_five : list (nat * Z) :=
  (fun t => (t, 0)) <$> replicate 10 0%nat ++ replicate 5 0%nat ++
    (t ← seq 1 4; replicate 8 t ++ replicate 5 0%nat) ++ replicate 8 5%nat ++ replicate 6 0%nat.

(** Without the mutex, votes are lost: all ten votes are in favour, and the
    verdict is that the election is lost. *)
Definition lose_votes : list (nat * Z) :=
  (fun t => (t, 0)) <$> replicate 10 0%nat ++ seq 1 10 ++ seq 1 10 ++ seq 1 10 ++
    (t ← seq 1 10; [t; t]) ++ replicate 5 0%nat.
Lemma vote_count_1_wrong :
  out <$> run main1 (vote_count_1 (fun _ => true)) lose_votes = Done [lost] ∧
  verdict (votes (fun _ => true)) = received.
Proof. split; vm_compute; reflexivity. Qed.

(** The run above ends with the verdict. *)
Lemma wait_for_five_verdict : out <$> run main4 (vote_count_4 six) wait_for_five = Done [received].
Proof. vm_compute. reflexivity. Qed.
