(* ===== verification/ChannelSamples.v ===== *)
(** * Goroutines, wait groups and channels: the samples in [goroutine],
    [channel] and [condvar/chan.go]

    Small programs are explored exhaustively, by a function that is proved to
    visit every reachable state; the others have invariants. *)

From S2P Require Import Prelude Threads GoSamples VoteSamples.
Local Open Scope Z_scope.

(** ** Exhaustive exploration *)

Section explore.
Context (code : nat → list Z → prog) (P : state → bool).

Definition is_rand (p : prog) : bool := match p with Rand _ => true | _ => false end.
Definition choices (st : state) : list (nat * Z) :=
  t ← seq 0 (length (threads st)); r ← seq 0 (length (threads st)); [(t, Z.of_nat r)].

(** [P] holds in every state that can be reached, no step panics, and all runs
    end within [fuel] steps; no goroutine draws random numbers. *)
Fixpoint explore (fuel : nat) (st : state) : bool :=
  P st && negb (existsb is_rand (threads st)) &&
  forallb (fun a => match step code st a with
                    | Done st' => match fuel with 0%nat => false | S fuel => explore fuel st' end
                    | Panic => false
                    | Stuck => true
                    end) (choices st).

Lemma choices_elem st t r : (t < length (threads st))%nat → (r < length (threads st))%nat → (t, Z.of_nat r) ∈ choices st.
Proof.
  intros Ht Hr. unfold choices. apply list_elem_of_bind. exists t. split; [|apply elem_of_seq; lia].
  apply list_elem_of_bind. exists r. split; [left|apply elem_of_seq; lia].
Qed.

(** Every step is one of the choices. *)
Lemma step_choice st a st' :
  existsb is_rand (threads st) = false → step code st a = Done st' →
  ∃ a', a' ∈ choices st ∧ step code st a' = Done st'.
Proof.
  intros Hr Hs. pose proof (step_thread code st a st' Hs) as (p & Hp & Ht). destruct a as [t r]. cbn [fst snd] in *.
  assert (t < length (threads st))%nat as Hlt by eauto with go_lists.
  assert (is_rand p = false) as Hnr.
  { destruct (is_rand p) eqn:E; [|done]. rewrite <- Hr. symmetry. apply existsb_exists. exists p.
    split; [|done]. apply list_elem_of_In. eauto with go_lists. }
  assert (∃ r', (r' < length (threads st))%nat ∧ thread_step code st t (Z.of_nat r') p = Done st') as (r' & Hlr & Hst).
  { destruct (decide (Z.to_nat r < length (threads st))%nat) as [Hin|Hout].
    - exists (Z.to_nat r). split; [done|]. destruct p; try done. cbn in Ht |- *. by rewrite Nat2Z.id.
    - exists 0%nat. split; [lia|]. destruct p; try done. cbn in Ht |- *.
      destruct (chan st); [|done]. by rewrite (lookup_ge_None_2 (threads st)) in Ht by lia. }
  exists (t, Z.of_nat r'). split; [by apply choices_elem|]. unfold step in Hs |- *. cbn [fst snd] in *.
  rewrite Hp in Hs |- *. destruct (threads st !! 0%nat) as [[]|]; done.
Qed.

Lemma explore_sound fuel st0 st : explore fuel st0 = true → reachable code st0 st → P st = true.
Proof.
  intros He [l Hl]. revert fuel st0 He Hl. induction l as [|a l IH]; intros fuel st0 He Hl; cbn [run] in Hl.
  { injection Hl as <-. destruct fuel; cbn in He; by apply andb_prop in He as [[? _]%andb_prop _]. }
  go_inv Hl. rename a0 into st1, E into Hs.
  assert (∃ fuel', explore fuel' st1 = true) as [fuel' He']; [|by eapply IH].
  assert (existsb is_rand (threads st0) = false) as Hr.
  { destruct fuel; cbn in He; apply andb_prop in He as [[_ ?%negb_true_iff]%andb_prop _]; done. }
  destruct (step_choice st0 a st1 Hr Hs) as (a' & Ha & Hs').
  destruct fuel as [|fuel]; cbn [explore] in He; apply andb_prop in He as [_ He];
    rewrite forallb_forall in He; specialize (He a' ltac:(by apply list_elem_of_In)); rewrite Hs' in He; [done|eauto].
Qed.

End explore.

(** [goroutine/closure.go] prints what the goroutine stored. *)
Lemma closure_prints st :
  reachable no_code closure st → out st = [] ∨ out st = [VStr "hello world"].
Proof.
  intros Hr. assert (match out st with [] => true | [VStr s] => bool_decide (s = "hello world") | _ => false end = true) as H.
  { eapply (explore_sound no_code (fun st => match out st with [] => true
      | [VStr s] => bool_decide (s = "hello world") | _ => false end) 20 closure); [vm_compute; reflexivity|exact Hr]. }
  destruct (out st) as [|[|s] [|]]; try done; [by left|]. right. by apply bool_decide_eq_true in H as ->.
Qed.

(** Goroutine 1 has returned. *)
Definition received_one (st : state) : bool := match threads st !! 1%nat with Some Ret => true | _ => false end.

(** At least [n] sends have returned only if goroutine 1 has. *)
Definition send_waits (n : nat) (st : state) : bool := (length (out st) <? n)%nat || received_one st.

Lemma send_waits_elim n st : send_waits n st = true → (n ≤ length (out st))%nat → received_one st = true.
Proof. intros [H%Nat.ltb_lt|H]%orb_prop ?; [lia|done]. Qed.

(** In [channel/unbuffered.go] the send returns when the value has been
    received; with the buffer of [channel/buffered.go], the second one does. *)
Lemma sends_block st :
  (reachable no_code unbuffered st → out st ≠ [] → received_one st = true) ∧
  (reachable no_code buffered st → (2 ≤ length (out st))%nat → received_one st = true).
Proof.
  split; intros Hr Ho.
  - apply (send_waits_elim 1); [|destruct (out st); cbn; [done|lia]].
    apply (explore_sound no_code (send_waits 1) 20 unbuffered st); [vm_compute; reflexivity|exact Hr].
  - apply (send_waits_elim 2); [|done].
    apply (explore_sound no_code (send_waits 2) 20 buffered st); [vm_compute; reflexivity|exact Hr].
Qed.

(** [channel/unbuffered-deadlock.go] does not get anywhere. *)
Lemma unbuffered_deadlocks : deadlock no_code unbuffered_deadlock.
Proof. intros [[|t] r]; reflexivity. Qed.

(** [goroutine/bad.go] can print 5 five times. *)
Definition all_late : list (nat * Z) :=
  (fun t => (t, 0)) <$> replicate 32 0%nat ++ (t ← seq 1 5; replicate 3 t) ++ [0%nat].
Lemma shared_loop_prints_5 :
  (fun st => (forallb is_ret (threads st), out st)) <$> run shared_for shared_loop all_late
  = Done (true, replicate 5 (VInt 5)).
Proof. vm_compute. reflexivity. Qed.

(** ** Every goroutine prints its number *)

(** Goroutine [S i] prints [i]: the numbers of the goroutines that have done
    so. *)
Fixpoint printed_from (past : prog → bool) (i : nat) (ths : list prog) : list val :=
  match ths with
  | [] => []
  | p :: ths => (if past p then [VInt (Z.of_nat i)] else []) ++ printed_from past (S i) ths
  end.

Lemma printed_same past i ths t p q :
  ths !! t = Some p → past q = past p → printed_from past i (<[t := q]> ths) = printed_from past i ths.
Proof.
  revert i t. induction ths as [|p' ths IH]; intros i [|t] Ht Hq; try done; cbn in Ht.
  - injection Ht as ->. cbn. by rewrite Hq.
  - change (<[S t := q]> (p' :: ths)) with (p' :: <[t := q]> ths). cbn. by rewrite IH.
Qed.

Lemma printed_more past i ths t p q :
  ths !! t = Some p → past p = false → past q = true →
  printed_from past i (<[t := q]> ths) ≡ₚ printed_from past i ths ++ [VInt (Z.of_nat (i + t))].
Proof.
  revert i t. induction ths as [|p' ths IH]; intros i [|t] Ht Hp Hq; try done; cbn in Ht.
  - injection Ht as ->. cbn. rewrite Hp, Hq, Nat.add_0_r. apply Permutation_cons_append.
  - change (<[S t := q]> (p' :: ths)) with (p' :: <[t := q]> ths). cbn [printed_from].
    rewrite (IH (S i) t) by done. by rewrite <- Nat.add_succ_comm, app_assoc.
Qed.

Lemma printed_snoc past i ths p :
  past p = false → printed_from past i (ths ++ [p]) = printed_from past i ths.
Proof.
  intros Hp. revert i. induction ths as [|q ths IH]; intros i; cbn; [by rewrite Hp|]. by rewrite IH.
Qed.

Lemma printed_all past i ths :
  Forall (fun p => past p = true) ths →
  printed_from past i ths = (fun k => VInt (Z.of_nat k)) <$> seq i (length ths).
Proof.
  intros H. revert i. induction H as [|p ths Hp _ IH]; intros i; cbn; [done|]. by rewrite Hp, IH.
Qed.

(** The numbers a loop of five prints. *)
Definition five : list val := (fun k => VInt (Z.of_nat k)) <$> seq 0 5.

(** Goroutines that do not print again. *)
Definition past_print (p : prog) : bool := match p with Println _ _ => false | _ => true end.

Lemma all_returned ths :
  returned_from others 1 ths = Z.of_nat (length ths) → Forall (fun p => p = Ret) ths.
Proof.
  intros H. apply Forall_lookup. intros t p Hp.
  eapply (returned_from_all others 1 ths t); [exact others_nonneg|by rewrite total_others|done|].
  cbn [plus]. rewrite others_S. lia.
Qed.

Lemma all_printed (ths : list prog) (o : list val) :
  o ≡ₚ printed_from past_print 0 ths → length ths = 5%nat → returned_from others 1 ths = 5 → o ≡ₚ five.
Proof.
  intros Ho Hl Hr. rewrite Ho, printed_all, Hl; [done|].
  eapply Forall_impl; [apply all_returned; by rewrite Hl|]. by intros p ->.
Qed.

(** *** [goroutine/loop.go] *)

Inductive loop_at (i : nat) : prog → Prop :=
| la_print : loop_at i (loop_goroutine i)
| la_done : loop_at i (WgAdd (-1) Ret)
| la_ret : loop_at i Ret.

(** [main], with [len] other goroutines, [r] of which have returned, and the
    counter of the wait group. *)
Inductive loop_main (len : nat) (r w : Z) : prog → Prop :=
| lm_add k : (len + k = 5)%nat → w = Z.of_nat len - r → loop_main len r w (loop_from len k)
| lm_go k : (len + S k = 5)%nat → w = Z.of_nat len - r + 1 →
    loop_main len r w (Go (loop_goroutine len) (loop_from (S len) k))
| lm_end : len = 5%nat → r = 5 → loop_main len r w Ret.

Definition loop_inv (st : state) : Prop :=
  ∃ p ths, threads st = p :: ths ∧ loop_main (length ths) (returned_from others 1 ths) (wg st) p ∧
    (∀ i q, ths !! i = Some q → loop_at i q) ∧ out st ≡ₚ printed_from past_print 0 ths.

Lemma returned_others_bound ths : 0 ≤ returned_from others 1 ths ≤ Z.of_nat (length ths).
Proof. pose proof (returned_from_le others 1 ths others_nonneg) as H. by rewrite total_others in H. Qed.

Lemma returned_others_insert ths i q q' :
  ths !! i = Some q →
  returned_from others 1 (<[i := q']> ths) =
  returned_from others 1 ths + (if is_ret q' then 1 else 0) - (if is_ret q then 1 else 0).
Proof. intros Hq. rewrite (returned_from_insert _ _ _ _ _ _ Hq). cbn [plus]. by rewrite others_S. Qed.

(** A live goroutine leaves the wait group's counter above zero. *)
Lemma returned_others_live ths i q :
  ths !! i = Some q → is_ret q = false → returned_from others 1 ths < Z.of_nat (length ths).
Proof.
  intros Hq Hr. pose proof (returned_others_bound (<[i := Ret]> ths)) as H.
  rewrite (returned_others_insert _ _ _ _ Hq), length_insert, Hr in H. cbn in H. lia.
Qed.

Lemma loop_step st a : loop_inv st → step no_code st a ≠ Panic ∧ ∀ st', step no_code st a = Done st' → loop_inv st'.
Proof.
  intros (p & ths & Hth & Hm & Hg & Ho).
  destruct (step_cases no_code st a) as [->|(q & Hq & -> & _)]; [done|]. destruct a as [t r]. cbn [fst snd] in *.
  rewrite Hth in Hq. pose proof (returned_others_bound ths) as Hb. destruct t as [|i]; cbn in Hq.
  - injection Hq as <-. inversion Hm as [[|k] Hl Hw E|k Hl Hw E|Hl Hr E]; subst p; cbn [loop_from thread_step].
    + case_bool_decide as H0; [|done]. split; [done|]. intros st' [= <-].
      exists Ret, ths. cbn. rewrite Hth. split; [done|]. split; [constructor; lia|]. done.
    + rewrite bool_decide_eq_false_2 by lia. split; [done|]. intros st' [= <-].
      eexists _, ths. cbn. rewrite Hth. split; [done|]. split; [by constructor; lia|]. done.
    + split; [done|]. intros st' [= <-]. eexists _, (ths ++ [loop_goroutine (length ths)]). cbn. rewrite Hth.
      split; [done|]. rewrite returned_from_app, length_app, printed_snoc by done. cbn. rewrite !Z.add_0_r, Nat.add_1_r.
      split; [constructor; lia|]. split; [|done]. intros i q Hq.
      apply lookup_app_Some in Hq as [Hq|[Hle Hq]]; [eauto|]. apply list_lookup_singleton_Some in Hq as [E <-].
      replace i with (length ths) by lia. constructor.
    + done.
  - assert (∀ q' w, loop_at i q' → loop_main (length ths) (returned_from others 1 (<[i := q']> ths)) w p →
      ∀ o, o ≡ₚ printed_from past_print 0 (<[i := q']> ths) →
      loop_inv (mkState (mem st) (mu st) (chan st) (cap st) w o (<[S i := q']> (threads st)))) as Hnext.
    { intros q' w Hq' Hm' o Ho'. exists p, (<[i := q']> ths). cbn. rewrite Hth, length_insert. split; [done|].
      split; [done|]. split; [|done]. intros j q2 Hj.
      apply list_lookup_insert_Some in Hj as [(-> & -> & _)|[_ Hj]]; [done|eauto]. }
    destruct (Hg i q Hq); cbn [thread_step loop_goroutine].
    + split; [done|]. intros st' [= <-]. apply Hnext; [constructor|..].
      * rewrite (returned_others_insert _ _ _ _ Hq). cbn. by rewrite Z.add_0_r, Z.sub_0_r.
      * rewrite (printed_more _ _ _ _ _ _ Hq) by done. cbn. by rewrite Ho.
    + pose proof (returned_others_live _ _ _ Hq ltac:(done)).
      rewrite bool_decide_eq_false_2 by (inversion Hm; lia). split; [done|]. intros st' [= <-].
      apply Hnext; [constructor|..].
      * rewrite (returned_others_insert _ _ _ _ Hq). cbn. inversion Hm; subst; try lia; constructor; lia.
      * by rewrite (printed_same _ _ _ _ _ _ Hq) by done.
    + done.
Qed.

Lemma loop_reachable st : reachable no_code loop st → loop_inv st.
Proof.
  intros Hr. eapply reachable_ind; [exact Hr| |intros ? ? ? H; by apply loop_step].
  eexists _, []. split; [done|]. split; [by apply lm_add|]. done.
Qed.

(** *** [channel/wait.go] *)

Definition receives (k : nat) : prog := repeatedly k (fun k => Recv (fun _ => k)) Ret.

Inductive wait_at (i : nat) : prog → Prop :=
| wa_print : wait_at i (wait_goroutine i)
| wa_send : wait_at i (Send 1 Ret)
| wa_ret : wait_at i Ret.

Inductive wait_main_at (len : nat) (r : Z) : prog → Prop :=
| wm_spawn k : (len + S k = 5)%nat → r = 0 → wait_main_at len r (spawn wait_goroutine len (S k) (receives 5))
| wm_recv k : len = 5%nat → r + Z.of_nat k = 5 → wait_main_at len r (receives k).

Definition wait_inv (st : state) : Prop :=
  ∃ p ths, threads st = p :: ths ∧ chan st = [] ∧ cap st = 0%nat ∧
    wait_main_at (length ths) (returned_from others 1 ths) p ∧
    (∀ i q, ths !! i = Some q → wait_at i q) ∧ out st ≡ₚ printed_from past_print 0 ths.

(** Goroutine [S i] moves from [q] to [q']. *)
Lemma wait_moves st p ths i q q' o p' :
  threads st = p :: ths → chan st = [] → cap st = 0%nat → (∀ i q, ths !! i = Some q → wait_at i q) →
  ths !! i = Some q → wait_at i q' →
  wait_main_at (length ths) (returned_from others 1 ths + (if is_ret q' then 1 else 0) - (if is_ret q then 1 else 0)) p' →
  o ≡ₚ printed_from past_print 0 (<[i := q']> ths) →
  wait_inv (mkState (mem st) (mu st) (chan st) (cap st) (wg st) o (p' :: <[i := q']> ths)).
Proof.
  intros Hth Hc Hcap Hg Hq Hq' Hm Ho. exists p', (<[i := q']> ths). cbn.
  rewrite length_insert, (returned_others_insert _ _ _ _ Hq). do 4 (split; [done|]). split; [|done].
  intros j q2 Hj. apply list_lookup_insert_Some in Hj as [(-> & -> & _)|[_ Hj]]; [done|eauto].
Qed.

Lemma wait_step st a st' : wait_inv st → step no_code st a = Done st' → wait_inv st'.
Proof.
  intros (p & ths & Hth & Hc & Hcap & Hm & Hg & Ho) (q & Hq & Hs)%step_thread. destruct a as [t r]. cbn [fst snd] in *.
  rewrite Hth in Hq. destruct t as [|i]; cbn in Hq.
  - injection Hq as <-. inversion Hm as [k Hl Hr E|[|k] Hl Hr E]; subst p; cbn in Hs; [|done|].
    + injection Hs as <-. rewrite Hth. eexists _, (ths ++ [wait_goroutine (length ths)]). cbn.
      rewrite returned_from_app, length_app, printed_snoc by done. cbn. rewrite !Z.add_0_r, Nat.add_1_r.
      do 3 (split; [done|]). split; [|split; [|done]].
      * destruct k as [|k]; [apply (wm_recv _ _ 5); lia|apply wm_spawn; lia].
      * intros i q Hq. apply lookup_app_Some in Hq as [Hq|[Hle Hq]]; [eauto|].
        apply list_lookup_singleton_Some in Hq as [E <-]. replace i with (length ths) by lia. constructor.
    + rewrite Hc, Hth in Hs. destruct (Z.to_nat r) as [|i]; [done|]. cbn in Hs.
      destruct (ths !! i) as [q|] eqn:Hq; [|done]. destruct (Hg i q Hq); try done. injection Hs as <-.
      unfold set_thread. cbn [threads mem mu chan cap wg out]. rewrite Hth. cbn.
      eapply wait_moves; [done..|constructor| |]; cbn [is_ret].
      * apply wm_recv; lia.
      * by rewrite (printed_same _ _ _ _ _ _ Hq) by done.
  - destruct (Hg i q Hq); cbn in Hs; [|by rewrite Hc, Hcap in Hs|done].
    injection Hs as <-. unfold set_thread. cbn [threads mem mu chan cap wg out add_out]. rewrite Hth. cbn.
    eapply wait_moves; [done..|constructor| |].
    + cbn [is_ret]. by rewrite Z.add_0_r, Z.sub_0_r.
    + rewrite (printed_more _ _ _ _ _ _ Hq) by done. cbn. by rewrite Ho.
Qed.

Lemma wait_reachable st : reachable no_code wait st → wait_inv st.
Proof.
  intros Hr. eapply reachable_ind; [exact Hr| |intros ? ? ?; by apply wait_step].
  eexists _, []. do 3 (split; [done|]). split; [by apply (wm_spawn 0 0 4)|]. done.
Qed.

(** A program that waits for its goroutines sees what they did.  In
    [goroutine/loop.go], which counts them with a wait group, and in
    [channel/wait.go], which receives a value from each, all five numbers have
    been printed, each once, when [main] returns; and the counter of the wait
    group never gets negative, which would be a panic. *)
Theorem main_waits st :
  (reachable no_code loop st →
     (∀ a, step no_code st a ≠ Panic) ∧ (threads st !! 0%nat = Some Ret → out st ≡ₚ five)) ∧
  (reachable no_code wait st → threads st !! 0%nat = Some Ret → out st ≡ₚ five).
Proof.
  split.
  - intros Hr%loop_reachable. split; [intros a; by apply loop_step|]. intros Hret.
    destruct Hr as (p & ths & Hth & Hm & _ & Ho). rewrite Hth in Hret. injection Hret as ->.
    inversion Hm as [[|k] ? ? E|k ? ? E|Hl Hr]; [done..|]. by eapply all_printed.
  - intros (p & ths & Hth & _ & _ & Hm & _ & Ho)%wait_reachable Hret. rewrite Hth in Hret. injection Hret as ->.
    inversion Hm as [k ? ? E|[|k] Hl Hr E]; try done. eapply all_printed; [done..|]. lia.
Qed.

(** *** [condvar/chan.go] *)

Section vote_chan.
Context (vote : nat → bool).

Inductive chan_voter (i : nat) : prog → Prop :=
| cv_start : chan_voter i (voter_chan vote i)
| cv_send : chan_voter i (Send (if vote i then 1 else 0) Ret)
| cv_ret : chan_voter i Ret.

Inductive chan_main (len : nat) (c f : Z) : list val → prog → Prop :=
| cm_spawn k : (len + S k = 10)%nat → c = 0 → f = 0 →
    chan_main len c f [] (spawn (voter_chan vote) len (S k) (Loop 0 [0; 0]))
| cm_loop : len = 10%nat → f < 10 → chan_main len c f [] (Loop 0 [c; f])
| cm_recv : len = 10%nat → f < 10 → chan_main len c f [] (main_chan 0 [c; f])
| cm_print : len = 10%nat → c > 5 ∨ f = 10 → chan_main len c f [] (Println (verdict c) Ret)
| cm_end : len = 10%nat → chan_main len c f [verdict (votes vote)] Ret.

Definition chan_inv (st : state) : Prop :=
  ∃ p ths, threads st = p :: ths ∧ chan st = [] ∧ cap st = 0%nat ∧
    chan_main (length ths) (returned_from (yes vote) 1 ths) (returned_from others 1 ths) (out st) p ∧
    (∀ i q, ths !! i = Some q → chan_voter i q).

Lemma yes_insert ths i q q' :
  ths !! i = Some q →
  returned_from (yes vote) 1 (<[i := q']> ths) =
  returned_from (yes vote) 1 ths + (if is_ret q' then if vote i then 1 else 0 else 0)
    - (if is_ret q then if vote i then 1 else 0 else 0).
Proof. intros Hq. by rewrite (returned_from_insert _ _ _ _ _ _ Hq). Qed.

Lemma chan_verdict ths :
  length ths = 10%nat → returned_from (yes vote) 1 ths > 5 ∨ returned_from others 1 ths = 10 →
  verdict (returned_from (yes vote) 1 ths) = verdict (votes vote).
Proof.
  intros Hl Hor. pose proof (votes_bound vote (Sleep Ret) ths Hl) as Hb.
  pose proof (all_voted vote (Sleep Ret) ths Hl) as Ha. unfold returned in Hb, Ha. cbn [returned_from is_ret] in Hb, Ha.
  apply verdict_stable; [lia|]. destruct Hor; [left; lia|right; lia].
Qed.

(** A voter moves, possibly together with [main]. *)
Lemma chan_moves st ths i q q' p' :
  chan st = [] → cap st = 0%nat → (∀ i q, ths !! i = Some q → chan_voter i q) →
  ths !! i = Some q → chan_voter i q' →
  chan_main (length ths) (returned_from (yes vote) 1 (<[i := q']> ths)) (returned_from others 1 (<[i := q']> ths))
    (out st) p' →
  chan_inv (mkState (mem st) (mu st) (chan st) (cap st) (wg st) (out st) (p' :: <[i := q']> ths)).
Proof.
  intros Hc Hcap Hg Hq Hq' Hm. exists p', (<[i := q']> ths). cbn. rewrite length_insert. do 4 (split; [done|]).
  intros j q2 Hj. apply list_lookup_insert_Some in Hj as [(-> & -> & _)|[_ Hj]]; [done|eauto].
Qed.

(** [main] has received one more vote. *)
Lemma chan_received ths i :
  length ths = 10%nat → ths !! i = Some (Send (if vote i then 1 else 0) Ret) →
  let c := returned_from (yes vote) 1 ths in
  let f := returned_from others 1 ths in
  f < 10 →
  chan_main (length ths) (returned_from (yes vote) 1 (<[i := Ret]> ths)) (returned_from others 1 (<[i := Ret]> ths)) []
    (let count := if bool_decide ((if vote i then 1 else 0) = 1) then c + 1 else c in
     let finished := f + 1 in
     if bool_decide (count > 5) then Println (verdict count) Ret
     else if bool_decide (finished = 10) then Println (verdict count) Ret
     else Loop 0 [count; finished]).
Proof.
  intros Hl Hq c f Hf. rewrite (yes_insert _ _ _ _ Hq), (returned_others_insert _ _ _ _ Hq). cbn [is_ret].
  replace (if bool_decide ((if vote i then 1 else 0) = 1) then c + 1 else c) with (c + if vote i then 1 else 0)
    by (destruct (vote i); [by rewrite bool_decide_eq_true_2|rewrite bool_decide_eq_false_2 by done; lia]).
  fold c f. rewrite !Z.sub_0_r. clearbody c f. cbv zeta. case_bool_decide; [|case_bool_decide].
  - apply cm_print; auto.
  - apply cm_print; auto.
  - apply cm_loop; [done|lia].
Qed.

Lemma chan_step st a st' : chan_inv st → step main_chan st a = Done st' → chan_inv st'.
Proof.
  intros (p & ths & Hth & Hc & Hcap & Hm & Hg) (q & Hq & Hs)%step_thread. destruct a as [t r]. cbn [fst snd] in *.
  rewrite Hth in Hq. destruct t as [|i]; cbn in Hq.
  - injection Hq as <-. inversion Hm as [k Hl H1 H2 Eo E|Hl H1 Eo E|Hl H1 Eo E|Hl H1 Eo E|Hl Eo E]; subst p; cbn in Hs; try done.
    + injection Hs as <-. eexists _, (ths ++ [voter_chan vote (length ths)]). cbn. rewrite Hth.
      rewrite !returned_from_app, length_app. cbn. rewrite !Z.add_0_r, Nat.add_1_r, <- Eo.
      do 3 (split; [done|]). split.
      * destruct k as [|k]; [|by apply cm_spawn; lia]. cbn. rewrite H1, H2. apply cm_loop; lia.
      * intros i q Hq. apply lookup_app_Some in Hq as [Hq|[Hle Hq]]; [eauto|].
        apply list_lookup_singleton_Some in Hq as [E <-]. replace i with (length ths) by lia. constructor.
    + injection Hs as <-. eexists _, ths. cbn. rewrite Hth, <- Eo. do 3 (split; [done|]). split; [|done].
      by apply cm_recv.
    + rewrite Hc in Hs. destruct (threads st !! Z.to_nat r) as [q|] eqn:Hr; [|done]. rewrite Hth in Hr.
      destruct (Z.to_nat r) as [|i]; cbn in Hr; [by injection Hr as <-|]. destruct (Hg i q Hr); try done.
      injection Hs as <-. unfold set_thread. cbn [threads mem mu chan cap wg out]. rewrite Hth. cbn.
      eapply chan_moves; [done..|constructor|]. rewrite <- Eo. by apply chan_received.
    + injection Hs as <-. eexists _, ths. cbn. rewrite Hth, <- Eo. do 3 (split; [done|]). split; [|done].
      rewrite chan_verdict by done. by apply cm_end.
  - destruct (Hg i q Hq); cbn in Hs; [|by rewrite Hc, Hcap in Hs|done].
    injection Hs as <-. unfold set_thread. cbn [threads mem mu chan cap wg out]. rewrite Hth. cbn.
    eapply chan_moves; [done..|constructor|].
    by rewrite (yes_insert _ _ _ _ Hq), (returned_others_insert _ _ _ _ Hq); cbn; rewrite !Z.add_0_r, !Z.sub_0_r.
Qed.

Lemma chan_reachable st : reachable main_chan (vote_chan vote) st → chan_inv st.
Proof.
  intros Hr. eapply reachable_ind; [exact Hr| |intros ? ? ?; by apply chan_step].
  eexists _, []. do 3 (split; [done|]). split; [by apply (cm_spawn 0 0 0 9)|]. done.
Qed.

(** [condvar/chan.go], which counts the votes it receives and stops early
    only at six, prints the right verdict under every schedule and nothing
    else, and never gets stuck before [main] returns. *)
Theorem vote_chan_counts st :
  reachable main_chan (vote_chan vote) st →
  (out st = [] ∨ out st = [verdict (votes vote)]) ∧
  (deadlock main_chan st → threads st !! 0%nat = Some Ret).
Proof.
  intros (p & ths & Hth & Hc & Hcap & Hm & Hg)%chan_reachable. split; [inversion Hm; auto|]. intros Hd.
  rewrite Hth. f_equal. destruct (is_ret p) eqn:Hp; [by destruct p|exfalso].
  assert (∀ t r q, threads st !! t = Some q → thread_step main_chan st t r q = Stuck) as Hst.
  { intros t r q Hq. rewrite <- (step_running main_chan st t r q Hq); [apply Hd|]. rewrite Hth. cbn. by rewrite Hp. }
  pose proof (Hst 0%nat 0 p ltac:(by rewrite Hth)) as H0.
  inversion Hm as [k Hl H1 H2 Eo E|Hl H1 Eo E|Hl H1 Eo E|Hl H1 Eo E|Hl Eo E]; subst p; try done.
  destruct (decide (Forall (fun p => is_ret p = true) ths)) as [Hall|Hex].
  - rewrite returned_from_Ret, total_others, Hl in H1; [lia|]. eapply Forall_impl; [exact Hall|]. by intros [].
  - apply not_Forall_Exists, Exists_exists in Hex as (q & [i Hi]%list_elem_of_lookup & Hq); [|apply _].
    destruct (Hg i q Hi); [| |by destruct Hq].
    + by specialize (Hst (S i) 0 _ ltac:(rewrite Hth; exact Hi)).
    + specialize (Hst 0%nat (Z.of_nat (S i)) _ ltac:(by rewrite Hth)).
      cbn [main_chan thread_step] in Hst. rewrite Hc, Hth, Nat2Z.id in Hst.
      change ((?a :: ths) !! S i) with (ths !! i) in Hst. by rewrite Hi in Hst.
Qed.

End vote_chan.

(** The five goroutines of [goroutine/loop.go] print from the last to the
    first; those of [channel/wait.go] as they are started. *)
Definition loop_run : list (nat * Z) :=
  (fun t => (t, 0)) <$> replicate 10 0%nat ++ (t ← reverse (seq 1 5); [t; t]) ++ [0%nat].
Definition wait_run : list (nat * Z) :=
  ((fun t => (t, 0)) <$> replicate 5 0%nat ++ seq 1 5) ++ ((fun s => (0%nat, Z.of_nat s)) <$> seq 1 5).
Lemma main_waits_witness :
  (∃ st, run no_code loop loop_run = Done st ∧ threads st !! 0%nat = Some Ret ∧ out st ≡ₚ five) ∧
  (∃ st, run no_code wait wait_run = Done st ∧ threads st !! 0%nat = Some Ret ∧ out st ≡ₚ five).
Proof.
  split.
  - eexists. split; [vm_compute; reflexivity|]. split; [reflexivity|].
    eapply (proj1 (main_waits _)); [|reflexivity]. exists loop_run. vm_compute. reflexivity.
  - eexists. split; [vm_compute; reflexivity|]. split; [reflexivity|].
    eapply (proj2 (main_waits _)); [|reflexivity]. exists wait_run. vm_compute. reflexivity.
Defined.

(** Nine are in favour; [main] stops when it has received six votes. *)
Definition nine (i : nat) : bool := bool_decide (i ≠ 3%nat).
Definition six_votes : list (nat * Z) :=
  ((fun t => (t, 0)) <$> replicate 10 0%nat ++ seq 1 10) ++
  (s ← [3; 4; 5; 8; 9; 10; 1]%nat; [(0%nat, 0); (0%nat, Z.of_nat s)]) ++ [(0%nat, 0)].
Lemma vote_chan_counts_witness :
  ∃ st, run main_chan (vote_chan nine) six_votes = Done st ∧ out st ≠ [] ∧
    (out st = [] ∨ out st = [verdict (votes nine)]).
Proof.
  eexists. split; [vm_compute; reflexivity|]. split; [discriminate|].
  eapply (vote_chan_counts nine). exists six_votes. vm_compute. reflexivity.
Defined.
