(* ===== verification/TimeSamples.v ===== *)
(** * Cancelling a periodic task: [time/sleep-cancel.go] *)

From S2P Require Import Prelude Threads GoSamples.
Local Open Scope Z_scope.

Definition started : val := VStr "started".

(** The rest of [main], from the place where it has slept for five seconds. *)
Definition cancel_lock : prog := Lock (Store "done" (VInt 1) (Unlock (Println cancelled (Sleep Ret)))).

(** Before [periodic] is started. *)
Inductive before : list val → prog → Prop :=
| cb_sleep : before [] cancel_main
| cb_print : before [] (Println started (Go (Loop 0 []) (Sleep cancel_lock)))
| cb_go : before [started] (Go (Loop 0 []) (Sleep cancel_lock)).

(** [main] afterwards: whether it holds the mutex, the value of [done], and
    whether it has printed that the task is cancelled. *)
Inductive main_c : bool → Z → bool → prog → Prop :=
| mc_sleep : main_c false 0 false (Sleep cancel_lock)
| mc_lock : main_c false 0 false cancel_lock
| mc_store : main_c true 0 false (Store "done" (VInt 1) (Unlock (Println cancelled (Sleep Ret))))
| mc_unlock : main_c true 1 false (Unlock (Println cancelled (Sleep Ret)))
| mc_print : main_c false 1 false (Println cancelled (Sleep Ret))
| mc_rest : main_c false 1 true (Sleep Ret)
| mc_ret : main_c false 1 true Ret.

Definition check : prog := LoadInt "done" (fun d => if bool_decide (d = 1) then Ret else Unlock (Loop 0 [])).

(** [periodic]: whether it holds the mutex, and whether it is about to print
    a tick; it returns with the mutex locked. *)
Inductive periodic_c (d : Z) : bool → bool → prog → Prop :=
| pc_loop : periodic_c d false true (Loop 0 [])
| pc_tick : periodic_c d false true (Println tick (Sleep (Lock check)))
| pc_sleep : periodic_c d false false (Sleep (Lock check))
| pc_lock : periodic_c d false false (Lock check)
| pc_check : periodic_c d true false check
| pc_unlock : d = 0 → periodic_c d true false (Unlock (Loop 0 []))
| pc_ret : d = 1 → periodic_c d true false Ret.

(** What has been printed: ticks, and at most one after the cancellation. *)
Inductive printed_c : bool → bool → list val → Prop :=
| po_running k b : printed_c false b (started :: replicate k tick)
| po_cancelled k b : printed_c true b (started :: replicate k tick ++ [cancelled])
| po_late k : printed_c true false (started :: replicate k tick ++ [cancelled; tick]).

Inductive cancel_inv : state → Prop :=
| ci_before st o p : threads st = [p] → before o p → out st = o → mu st = false →
    mem st !! "done" = Some (VInt 0) → cancel_inv st
| ci_after st p q hm hp d can head :
    threads st = [p; q] → main_c hm d can p → periodic_c d hp head q → mu st = hm || hp → hm && hp = false →
    mem st !! "done" = Some (VInt d) → printed_c can head (out st) → cancel_inv st.

Lemma printed_tick can o : printed_c can true o → printed_c can false (o ++ [tick]).
Proof.
  intros H. inversion H as [k b|k b|]; subst; cbn.
  - rewrite <- replicate_S_end. apply (po_running (S k)).
  - rewrite <- app_assoc. apply po_late.
Qed.

Lemma printed_cancelled head o : printed_c false head o → printed_c true head (o ++ [cancelled]).
Proof. intros H. inversion H; subst; cbn. apply po_cancelled. Qed.

Lemma printed_quiet can head o : printed_c can false o → head = false ∨ can = false → printed_c can head o.
Proof. intros H Hor. inversion H; subst; try constructor. by destruct Hor as [->|]; [constructor|]. Qed.

(** [main] moves. *)
Lemma cancel_main_step st st' r p q hm hp d can head :
  threads st = [p; q] → main_c hm d can p → periodic_c d hp head q → mu st = hm || hp → hm && hp = false →
  mem st !! "done" = Some (VInt d) → printed_c can head (out st) →
  thread_step periodic_cancel st 0 r p = Done st' → cancel_inv st'.
Proof.
  intros Hth Hm Hp Hmu Hex Hd Ho Hs.
  destruct Hm; cbn in Hs; rewrite ?Hmu in Hs; try done.
  - injection Hs as <-. eapply (ci_after _ _ q false hp 0 false head); cbn; rewrite ?Hth; try done. constructor.
  - destruct hp; [done|]. injection Hs as <-.
    eapply (ci_after _ _ q true false 0 false head); cbn; rewrite ?Hth; try done. constructor.
  - destruct hp; [done|]. injection Hs as <-. eapply (ci_after _ _ q true false 1 false head); cbn; rewrite ?Hth; try done.
    + constructor.
    + inversion Hp; subst; constructor.
    + by rewrite lookup_insert_eq.
  - destruct hp; [done|]. injection Hs as <-.
    eapply (ci_after _ _ q false false 1 false head); cbn; rewrite ?Hth; try done. constructor.
  - injection Hs as <-. eapply (ci_after _ _ q false hp 1 true head); cbn; rewrite ?Hth; try done.
    + constructor.
    + by apply printed_cancelled.
  - injection Hs as <-. eapply (ci_after _ _ q false hp 1 true head); cbn; rewrite ?Hth; try done. constructor.
Qed.

(** [periodic] moves. *)
Lemma cancel_periodic_step st st' r p q hm hp d can head :
  threads st = [p; q] → main_c hm d can p → periodic_c d hp head q → mu st = hm || hp → hm && hp = false →
  mem st !! "done" = Some (VInt d) → printed_c can head (out st) →
  thread_step periodic_cancel st 1 r q = Done st' → cancel_inv st'.
Proof.
  intros Hth Hm Hp Hmu Hex Hd Ho Hs.
  destruct Hp as [| | | | |Hd0|]; cbn in Hs; rewrite ?Hmu in Hs; try done.
  - injection Hs as <-. eapply (ci_after _ p _ hm false d can true); cbn; rewrite ?Hth; try done. constructor.
  - injection Hs as <-. eapply (ci_after _ p _ hm false d can false); cbn; rewrite ?Hth; try done; [constructor|].
    by apply printed_tick.
  - injection Hs as <-. eapply (ci_after _ p _ hm false d can false); cbn; rewrite ?Hth; try done. constructor.
  - destruct hm; [done|]. injection Hs as <-.
    eapply (ci_after _ p _ false true d can false); cbn; rewrite ?Hth; try done. constructor.
  - rewrite Hd in Hs. injection Hs as <-. eapply (ci_after _ p _ hm true d can false); cbn; rewrite ?Hth; try done.
    case_bool_decide; [by constructor|]. constructor. inversion Hm; subst; done.
  - rewrite orb_true_r in Hs. injection Hs as <-. rewrite andb_true_r in Hex. subst hm.
    eapply (ci_after _ p _ false false d can true); cbn; rewrite ?Hth; try done; [constructor|].
    apply printed_quiet; [done|]. right. inversion Hm; subst; done.
Qed.

Lemma cancel_step st a st' : cancel_inv st → step periodic_cancel st a = Done st' → cancel_inv st'.
Proof.
  intros Hi (q & Hq & Hs)%step_thread. destruct a as [t r]. cbn [fst snd] in *.
  destruct Hi as [st o p Hth Hb Ho Hmu Hd|st p q0 hm hp d can head Hth Hm Hp Hmu Hex Hd Ho].
  - rewrite Hth in Hq. destruct t as [|t]; [|done]. injection Hq as <-. destruct Hb; cbn in Hs; injection Hs as <-.
    + eapply (ci_before _ []); cbn; rewrite ?Hth; try done. constructor.
    + eapply (ci_before _ [started]); cbn; rewrite ?Hth; try done; [constructor|by rewrite Ho].
    + eapply (ci_after _ _ _ false false 0 false true); cbn; rewrite ?Hth; try done; [constructor..|].
      rewrite Ho. apply (po_running 0).
  - rewrite Hth in Hq. destruct t as [|[|t]]; [| |done]; injection Hq as <-.
    + by eapply cancel_main_step.
    + by eapply cancel_periodic_step.
Qed.

(** In [time/sleep-cancel.go], at most one tick is printed after the task has
    been cancelled. *)
Lemma at_most_one_late_tick st o1 o2 :
  reachable periodic_cancel sleep_cancel st → out st = o1 ++ cancelled :: o2 → o2 = [] ∨ o2 = [tick].
Proof.
  intros Hr Ho. assert (cancel_inv st) as Hi.
  { eapply reachable_ind; [exact Hr| |intros ???; apply cancel_step]. eapply ci_before; try done. constructor. }
  assert (∀ k o, started :: replicate k tick ++ o = o1 ++ cancelled :: o2 → ∃ pre, o = pre ++ cancelled :: o2) as Hsplit.
  { clear. intros k o H. destruct o1 as [|v o1]; [done|]. injection H as _ H. revert o1 H.
    induction k as [|k IH]; intros o1 H; [by exists o1|]. destruct o1 as [|v' o1]; [done|]. injection H as _ H. by apply (IH o1). }
  destruct Hi as [? o p Hth Hb Ho'|? p q hm hp d can head Hth Hm Hp Hmu Hex Hd Ho'].
  - rewrite Ho' in Ho. destruct Hb; destruct o1 as [|? [|]]; done.
  - inversion Ho' as [k b E1 E2 E3|k b E1 E2 E3|k E1 E2 E3]; rewrite Ho in E3.
    + rewrite <- (app_nil_r (replicate k tick)) in E3. by destruct (Hsplit k [] E3) as [[|] ?].
    + destruct (Hsplit k _ E3) as [[|? [|]] Hpre]; try done. injection Hpre as ->. by left.
    + destruct (Hsplit k _ E3) as [[|? [|? [|]]] Hpre]; try done. injection Hpre as ->. by right.
Qed.

(** [periodic] returns with the mutex locked. *)
Definition cancel_run : list (nat * Z) :=
  (fun t => (t, 0)) <$> replicate 4 0%nat ++ replicate 3 1%nat ++ replicate 4 0%nat ++ replicate 2 1%nat.
Lemma periodic_keeps_mutex :
  (fun st => (is_ret <$> threads st !! 1%nat, mu st, out st)) <$> run periodic_cancel sleep_cancel cancel_run
  = Done (Some true, true, [started; tick; cancelled]).
Proof. vm_compute. reflexivity. Qed.
